(* ===== verification/_CoqProject ===== *)
-Q . S2P
Prelude.v
GoStd.v
CacheCore.v
Transport.v
InspectHelpers.v
Shaping.v
Wrapping.v
MemoryStore.v
Cache.v
CacheLaws.v
Locks.v
LockLaws.v
LockHandle.v
Remember.v
RateLimit.v
Api.v
MemoStore.v
Sha256.v
FileStore.v
FileLaws.v
Backends.v
CacheFake.v
RedisStore.v
RedisContract.v
Interference.v
Rows.v
SqlStore.v
SqlContract.v
SqlShared.v
MemcachedStore.v
MemcachedProtocol.v
MemcachedContract.v
MemcachedLaws.v
Base64.v
NatsStore.v
NatsContract.v
NatsLaws.v
DynamoStore.v
DynamoContract.v
DynamoTable.v
CacheTest.v
SuiteRuns.v
CacheSpec.v
GoText.v
DocSections.v
DocComments.v
DocApi.v
DocCounts.v
DocExamples.v
BenchRender.v
BenchBackends.v
BenchRuns.v
BenchMachine.v
DocRuns.v
