(* ===== verification/Prelude.v ===== *)
(** * Verification of goforj/cache

    goforj/cache is a Go library that puts one facade, [Cache], over several
    storage backends.  This development is a shallow embedding of its own code: a
    Go function is a Rocq function on the world and the state of the object it
    works on (the monad [M] below), an error is a value, a machine integer is a [Z]
    whose wrap-around is written out, a string or byte slice is a list of bytes.
    Definitions keep the names of the source; [PROJECT.json] gives the lines each
    one translates.

    ** The program and the files

    The facade ([src/cache.go], [src/lock_handle.go]) talks to a backend through
    the interface [cachecore.Store] and two optional ones, for owner-safe locks and
    for listing.  A backend may be wrapped in decorators that limit, compress and
    encrypt values, memoize reads or count calls.

    - [Prelude.v], [GoStd.v], [Sha256.v], [Base64.v]: bytes, integers, errors, the world (clock
      and entropy), the monad, tactics and the hint database [go]; the parts of
      Go's standard library the code uses, as executable functions with their laws.
    - [CacheCore.v]: the types and interfaces of [src/cachecore], and the contracts
      [StoreContract], [LockContract] and [CounterContract], type classes that say
      what a backend promises in terms of the value visible under a key at an
      instant.  Clients are verified against the classes and backends discharge
      them.  [Transport.v] carries the contracts along a map of keys and states.
    - [InspectHelpers.v]: cursors, filtering and paging ([inspect_helpers.go]).
    - [Shaping.v], [Wrapping.v]: the decorators of [shaping.go] and [WrapStore].
    - [MemoryStore.v]: [store_memory.go].  [FileStore.v], [FileLaws.v]:
      [store_file.go].  [Backends.v]: the null and error stores, the defaults of
      [config.go] and the factory.  [MemoStore.v]: [store_memo.go].
      [CacheFake.v]: [cachefake/fake.go].
    - [Cache.v], [CacheLaws.v]: reads, writes, deletion, batches, typed access.
      [Remember.v]: read-through, stale fallback and refresh-ahead.
      [RateLimit.v]: counters and the rate limiter.  [Locks.v], [LockLaws.v],
      [LockHandle.v]: locks.  [Api.v]: the interfaces of [api_interfaces.go], which
      the facade implements.  [CacheSpec.v]: an abstract cache with a checker of
      histories, and the refinement theorem.
    - [RedisStore.v], [RedisContract.v]: [driver/rediscache].  [Rows.v]: tables of
      rows that expire, which the next two keep.  [SqlStore.v], [SqlContract.v]:
      [driver/sqlcore] with its three dialects; [SqlShared.v]: the same store over
      a table that other clients write.  [Interference.v]: steps among those of
      others, for the stores whose backend is shared.  [DynamoStore.v],
      [DynamoContract.v], [DynamoTable.v]: [driver/dynamocache].
      [MemcachedStore.v], [MemcachedProtocol.v], [MemcachedContract.v],
      [MemcachedLaws.v]: [driver/memcachedcache], which speaks the text protocol
      itself.  [NatsStore.v], [NatsContract.v], [NatsLaws.v]: [driver/natscache].
    - [CacheTest.v], [SuiteRuns.v]: the contract suites of [cachetest], programs over
      a store that end at the first failed check, and their runs.
    - [GoText.v]: text, lines and paths, for the documentation tools.
      [DocSections.v]: the generated sections of README.md.  [DocComments.v],
      [DocApi.v]: from doc comments to the API reference ([docs/readme]).
      [DocCounts.v]: counting tests ([docs/readme/testcounts], and the older count
      in [docs/readme]).  [DocExamples.v]: the generated example programs
      ([docs/examplegen]).  [BenchRender.v], [BenchBackends.v], [BenchRuns.v],
      [BenchMachine.v]: the charts, the backends and the runs of the benchmarks
      ([docs/bench]).  [DocRuns.v]: the tools as a whole.

    ** What the theorems show

    Facade: every history of its calls, whatever they return, is one the abstract
    cache allows ([cache_refines_spec], over backends where [Add] meets what a read
    finds: the file, SQL and DynamoDB stores, and without counters Redis and NATS).
    A value set is read within its effective TTL and not after it, through
    any program that leaves the key alone ([set_get_program]); deletion, batches
    and typed access; the remember helpers run their callback when they should and
    fall back as they say; a window of the rate limiter admits exactly the limit.
    All of this holds over every backend that keeps the contracts.

    Locks: mutual exclusion in every interleaving of attempts and releases, each of
    which is one step of the store (of any number of processes for the stores kept
    by a server, of one process for the memory and file stores): a key won is won
    again only once its TTL has run out or the winner's token has released it;
    owner-safe release, the local lifecycle of [TryLock], [Lock] and [Unlock] as a
    transition system, termination of the waiting loops, and [LockHandle].

    Decorators and backends: the wrapper, the memory, file, Redis, SQL and
    DynamoDB stores keep the contracts; what a configured store stores it reads back
    ([..._set_get] for the constructors), for every value that is [readable], which
    leaves out only values that begin with the compression marker under a size limit
    without gzip and encryption; file writes are atomic under failures and crashes
    of the process; the memo store serves, in any interleaving with other clients,
    expiry and mutations that fail after they took effect, only values the backing
    store held since the key was last changed through it, and the current one when
    nothing else has changed the key; stores with different prefixes do not touch each
    other; table names that reach SQL text are identifiers with dots between them; every pooled Memcached connection is
    between two requests, and its store serves no stale value although a Memcached
    server may evict at any time, for which reason it does not keep
    [StoreContract], whose values live for their whole TTL.  The NATS store is
    verified against a bucket that other clients change between any two of its
    requests: its locks and counters are single atomic steps, its own steps stay
    within its prefix, and without interference it keeps the contracts and its
    counters need one attempt.  So are the locks and counters of the SQL store among
    other clients of its table, except where a counter has no row to lock yet.  The
    DynamoDB store finds a table that comes up
    while it starts, its flush ends and stays within its prefix, and its listing is
    complete.  A start gives the table exactly 20 attempts, 150 ms apart.  The contract suite
    accepts every backend that keeps the contracts, with [Add] on what a read finds
    and returned slices that are copies.

    Documentation tools: they change README.md between their markers (the benchmarks'
    also the blank lines next to them) and give the same text again on their own
    output; the reference lists exactly the documented functions and methods of the
    files outside the integration build, and while no two of them share a key it
    does not depend on the order in which Go ranges over its maps ([RangeOrder], an
    argument of every loop over a map); every example of a comment is taken whole; the modules
    whose tests are counted are exactly those with a go.mod; the bars of a chart do
    not overlap, every operation has a row for each driver, and a snapshot of the
    rows gives the charts of the run.  A run of the benchmarks tries to release
    every container, connection, bucket and directory it has acquired, in the
    reverse order, whatever fails on the way, and records those whose release
    fails; the connection pools that the SQL and Memcached stores open for themselves
    stay open.

    Some theorems show where the code departs from its comments or its intention;
    they are listed as findings in [PROJECT.json].

    ** Bounds and fuel

    Clock readings and durations are below [horizon], 2^62 ns (the year 2116), so
    that their sums are [int64]s and the code's additions do not wrap.  The waiting
    loops of locks take fuel, and the termination theorem gives an amount that is
    enough under a deadline.  The loops over Redis's SCAN and
    DynamoDB's Scan take the bounds [rc_scanCalls] and [dy_scanCalls], which the
    clients' laws make enough; the batches of DynamoDB's [DeleteMany] are at most
    its keys.  The recursion of Memcached's
    counters takes the depth of the stack; over two servers no depth is enough
    ([mc_Increment_diverges]).  Printing an integer takes 20 digits, enough for 64
    bits.  The polling of the contract suites takes [pollTurns] turns, enough to
    outlast its deadline, as are the [connectFuel] turns in which the benchmarks wait
    for NATS; the search for a go.work or the repository's root takes
    [workFuel], more than there are directories above.

    [storable] restricts the contracts to the keys and durations a backend
    represents exactly: lengths below 2^32 in the file store, whole milliseconds in
    Redis, SQL and DynamoDB, at least a millisecond in NATS.  Independence of keys
    ([apart]) is inequality, except that the file store keeps apart only keys with
    different digests.

    ** Parameters

    What is not in the repository is an argument, with the documented behaviour the
    code relies on as the laws of a class, and a concrete instance that satisfies
    them: patrickmn/go-cache, gzip, AES-GCM, encoding/json, the file system with an
    oracle that may fail any call, the Redis client and server, database/sql with
    its database, the network with Memcached servers, the JetStream bucket with its
    other clients, the AWS client with its table (whose contracts hold while it
    processes whole batches); for the tools, go/parser, go/format, the go command,
    [testing.Benchmark], and Docker behind testcontainers.

    ** Not modelled

    Goroutines inside one operation: an operation that holds a mutex, or is one
    command of a server, is one step, and interleavings are sequences of steps.
    The dialers and TLS set-up of the drivers belong to the clients.
    The panics of the DynamoDB store on a nil client, and of the Memcached store on a
    negative length in a VALUE line, are error values.  A crash is one of the process:
    written data that was not yet synced is not lost, and [Sync] is a call that may
    fail and no more.  Letters are
    folded to lower case as in ASCII text.  The example programs are generated, and
    have no logic of their own; their generator is modelled. *)

From stdpp Require Export base gmap strings list numbers.
From Stdlib Require Export ZArith Lia.
From Stdlib Require Export Strings.Byte.

#[global] Open Scope string_scope.
#[global] Open Scope list_scope.
#[global] Open Scope Z_scope.

Declare Scope go_scope.
Delimit Scope go_scope with go.

(** ** Bytes

    A Go [[]byte] is a list of bytes.  A nil slice and an empty slice are both
    the empty list; the Go [string] type is [String.string], whose characters
    are bytes as well, so the conversions [string(b)] and [[]byte(s)] are the
    total bijections below. *)

Abbreviation bytes := (list byte).

Definition string_of_bytes (b : bytes) : string := String.string_of_list_byte b.
Definition bytes_of_string (s : string) : bytes := String.list_byte_of_string s.

Lemma string_of_bytes_of_string s : string_of_bytes (bytes_of_string s) = s.
Proof. apply String.string_of_list_byte_of_string. Qed.

Lemma bytes_of_string_of_bytes b : bytes_of_string (string_of_bytes b) = b.
Proof. apply String.list_byte_of_string_of_list_byte. Qed.

#[global] Instance byte_eq_dec : EqDecision byte.
Proof.
  intros x y. destruct (Byte.eqb x y) eqn:E.
  - left. by apply Byte.byte_dec_bl.
  - right. by apply Byte.eqb_false.
Defined.

#[global] Instance bytes_of_string_inj : Inj (=) (=) bytes_of_string.
Proof.
  intros a b E. rewrite <- (string_of_bytes_of_string a), <- (string_of_bytes_of_string b).
  by rewrite E.
Qed.

(** The Go builtin [len] on slices and strings, as a Go [int]. *)
Definition len {A} (l : list A) : Z := Z.of_nat (length l).
Definition slen (s : string) : Z := Z.of_nat (String.length s).

Definition byte_to_Z (b : byte) : Z := Z.of_N (Byte.to_N b).

(** The Go conversion [byte(z)]: reduction modulo 256. *)
Definition byte_of_Z (z : Z) : byte :=
  match Byte.of_N (Z.to_N (z mod 256)) with Some b => b | None => Byte.x00 end.

Lemma byte_to_Z_range b : 0 <= byte_to_Z b < 256.
Proof. unfold byte_to_Z. pose proof (Byte.to_N_bounded b). lia. Qed.

Lemma byte_to_of_Z z : byte_to_Z (byte_of_Z z) = z mod 256.
Proof.
  unfold byte_to_Z, byte_of_Z. pose proof (Z.mod_pos_bound z 256 ltac:(lia)).
  destruct (Byte.of_N (Z.to_N (z mod 256))) eqn:E.
  - apply Byte.to_of_N in E. rewrite E. lia.
  - apply Byte.of_N_None_iff in E. lia.
Qed.

Lemma byte_to_Z_inj a b : byte_to_Z a = byte_to_Z b -> a = b.
Proof.
  unfold byte_to_Z. intros E. apply N2Z.inj in E.
  pose proof (Byte.of_to_N a) as Ha. pose proof (Byte.of_to_N b) as Hb.
  rewrite E in Ha. congruence.
Qed.

Lemma byte_of_to_Z b : byte_of_Z (byte_to_Z b) = b.
Proof.
  apply byte_to_Z_inj. rewrite byte_to_of_Z. apply Z.mod_small, byte_to_Z_range.
Qed.

(** ** Machine integers

    Go's [int64] (and [int] on the 64-bit targets the project supports) is a
    [Z] in the range below; arithmetic results are wrapped explicitly. *)

Definition int64_min : Z := -9223372036854775808.
Definition int64_max : Z := 9223372036854775807.
Definition uint64_mod : Z := 18446744073709551616.

Definition in_int64 (z : Z) : Prop := int64_min <= z <= int64_max.

#[global] Instance in_int64_dec z : Decision (in_int64 z).
Proof. unfold in_int64. apply _. Defined.

(** Conversion to [int64]: two's-complement wrap-around. *)
Definition wrap64 (z : Z) : Z := (z + 9223372036854775808) mod uint64_mod - 9223372036854775808.

(** Conversion to [uint64]. *)
Definition wrapu64 (z : Z) : Z := z mod uint64_mod.

Lemma wrap64_range z : in_int64 (wrap64 z).
Proof.
  unfold wrap64, in_int64, int64_min, int64_max, uint64_mod.
  pose proof (Z.mod_pos_bound (z + 9223372036854775808) 18446744073709551616 ltac:(lia)). lia.
Qed.

Lemma wrap64_id z : in_int64 z -> wrap64 z = z.
Proof.
  unfold wrap64, in_int64, int64_min, int64_max, uint64_mod. intros H.
  rewrite Z.mod_small; lia.
Qed.

Lemma wrap64_wrapu64 z : wrap64 (wrapu64 z) = wrap64 z.
Proof.
  unfold wrap64, wrapu64, uint64_mod. by rewrite Zplus_mod_idemp_l.
Qed.

Lemma wrap64_add_l a b : wrap64 (wrap64 a + b) = wrap64 (a + b).
Proof.
  unfold wrap64, uint64_mod.
  replace ((a + 9223372036854775808) `mod` 18446744073709551616 - 9223372036854775808 + b
           + 9223372036854775808)
    with ((a + 9223372036854775808) `mod` 18446744073709551616 + b) by lia.
  rewrite Zplus_mod_idemp_l. do 2 f_equal. lia.
Qed.

(** ** Errors

    A Go [error] value.  Package-level sentinels, which callers compare with
    [errors.Is], are constructors; [errors.New] and [fmt.Errorf] without a
    wrapped error give [ErrorString]. *)

Inductive error : Type :=
| ErrValueTooLarge
| ErrInvalidMaxValueBytes
| ErrUnsupportedCodec
| ErrCorruptCompression
| ErrEncryptionKey
| ErrDecryptFailed
| ErrInspectorUnsupported
| ErrNotExist                        (* os.ErrNotExist *)
| ContextCanceled                    (* context.Canceled *)
| DeadlineExceeded                   (* context.DeadlineExceeded *)
| RedisNil                           (* redis.Nil *)
| ErrNoRows                          (* sql.ErrNoRows *)
| ErrKeyNotFound                     (* nats.ErrKeyNotFound *)
| ErrKeyDeleted                      (* nats.ErrKeyDeleted *)
| ErrKeyExists                       (* nats.ErrKeyExists *)
| ErrNoKeysFound                     (* nats.ErrNoKeysFound *)
| ConditionalCheckFailed (msg : string)   (* types.ConditionalCheckFailedException *)
| ResourceNotFound (msg : string)         (* types.ResourceNotFoundException *)
| ResourceInUse (msg : string)            (* types.ResourceInUseException *)
| ErrorString (msg : string)
| ErrorWrap (msg : string) (err : error)
| ErrorJoin (err1 err2 : error).

#[global] Instance error_eq_dec : EqDecision error.
Proof. solve_decision. Defined.

Definition newline : Ascii.ascii := Ascii.ascii_of_nat 10.

(** The [Error()] method. *)
Fixpoint Error (e : error) : string :=
  match e with
  | ErrValueTooLarge => "cache: value exceeds max size"
  | ErrInvalidMaxValueBytes => "cache: max value bytes must not be negative"
  | ErrUnsupportedCodec => "cache: unsupported compression codec"
  | ErrCorruptCompression => "cache: corrupt compressed payload"
  | ErrEncryptionKey => "cache: encryption key must be 16, 24, or 32 bytes"
  | ErrDecryptFailed => "cache: decrypt failed"
  | ErrInspectorUnsupported => "cache: inspector unsupported for this store"
  | ErrNotExist => "file does not exist"
  | ContextCanceled => "context canceled"
  | DeadlineExceeded => "context deadline exceeded"
  | RedisNil => "redis: nil"
  | ErrNoRows => "sql: no rows in result set"
  | ErrKeyNotFound => "nats: key not found"
  | ErrKeyDeleted => "nats: key was deleted"
  | ErrKeyExists => "nats: key exists"
  | ErrNoKeysFound => "nats: no keys found"
  | ConditionalCheckFailed m => "ConditionalCheckFailedException: " +:+ m
  | ResourceNotFound m => "ResourceNotFoundException: " +:+ m
  | ResourceInUse m => "ResourceInUseException: " +:+ m
  | ErrorString m => m
  | ErrorWrap m e => m +:+ Error e
  | ErrorJoin a b => Error a +:+ String newline EmptyString +:+ Error b
  end.

(** [errors.Is(err, target)] for a sentinel [target]. *)
Fixpoint errorsIs (e target : error) : bool :=
  bool_decide (e = target) ||
  match e with
  | ErrorWrap _ e => errorsIs e target
  | ErrorJoin a b => errorsIs a target || errorsIs b target
  | _ => false
  end.

(** [errors.As(err, &target)] for a type whose values [target] recognises. *)
Fixpoint errorsAs (target : error -> bool) (e : error) : bool :=
  target e ||
  match e with
  | ErrorWrap _ e => errorsAs target e
  | ErrorJoin a b => errorsAs target a || errorsAs target b
  | _ => false
  end.

(** [err == nil] *)
Definition noErr (err : option error) : bool :=
  match err with None => true | Some _ => false end.

(** ** The world

    The part of the environment that the code reads: the wall clock and the
    entropy source.  [w_clock i] is the result of the [i]-th call of
    [time.Now()], in nanoseconds since the Unix epoch, and [w_tick] counts the
    calls made so far; successive readings need not be equal, so an operation
    that reads the clock twice sees two instants.  [w_rand i n] is the result of
    the [i]-th [io.ReadFull(rand.Reader, buf)] with [len(buf) = n], and
    [w_pick i] the choice a [select] makes between two cases that become ready
    at the same instant. *)

Record World := mkWorld {
  w_clock : nat -> Z;
  w_tick : nat;
  w_rand : nat -> nat -> bytes + error;
  w_pick : nat -> bool;
  w_draw : nat
}.

(** The instant of the next clock reading: a lower bound of every later one. *)
Definition now (w : World) : Z := w_clock w (w_tick w).

(** Bound on clock readings and on time-to-live durations used by the theorems
    about expiry: 2^62 nanoseconds are 146 years, so a reading below it is a
    date before 2116 and the sum of a reading and a duration is an [int64]. *)
Definition horizon : Z := 4611686018427387904.

(** The clock does not run backwards and stays between 1970 and 2116; a
    successful [io.ReadFull] fills the buffer. *)
Definition world_ok (w : World) : Prop :=
  (forall i j, (i <= j)%nat -> w_clock w i <= w_clock w j) /\
  (forall i, 0 < w_clock w i < horizon) /\
  (forall i n b, w_rand w i n = inl b -> length b = n).

(** [w'] is reached from [w] by running code: time has not gone back. *)
Definition later (w w' : World) : Prop := world_ok w' /\ now w <= now w'.

(** The world after one clock reading, after one draw from the oracles, and
    after blocking until instant [t]: every later reading is at least [t]. *)
Definition tickWorld (w : World) : World :=
  mkWorld (w_clock w) (Datatypes.S (w_tick w)) (w_rand w) (w_pick w) (w_draw w).

Definition drawWorld (w : World) : World :=
  mkWorld (w_clock w) (w_tick w) (w_rand w) (w_pick w) (Datatypes.S (w_draw w)).

Definition sleepWorld (t : Z) (w : World) : World :=
  mkWorld (fun i => Z.max t (w_clock w i)) (w_tick w) (w_rand w) (w_pick w) (w_draw w).

(** ** The effect monad

    A Go function over a mutable object of type [S] is a function from the
    world and the object's state to its results and the new world and state. *)

Definition M (S A : Type) : Type := World -> S -> A * World * S.

Definition ret {S A} (a : A) : M S A := fun w s => (a, w, s).

Definition bind {S A B} (m : M S A) (k : A -> M S B) : M S B :=
  fun w s => let '(a, w1, s1) := m w s in k a w1 s1.

Notation "'let*' x := c 'in' k" := (bind c (fun x => k))
  (at level 10, x pattern, c at level 100, k at level 200,
   format "'[v' 'let*'  x  :=  c  'in' '/' k ']'") : go_scope.
Notation "c ;; k" := (bind c (fun _ => k))
  (at level 100, k at level 200, right associativity) : go_scope.
#[global] Open Scope go_scope.

Definition get {S} : M S S := fun w s => (s, w, s).
Definition put {S} (s : S) : M S unit := fun w _ => (tt, w, s).
Definition modify {S} (f : S -> S) : M S unit := fun w s => (tt, w, f s).

(** [time.Now()] *)
Definition timeNow {S} : M S Z :=
  fun w s => (now w, tickWorld w, s).

(** Blocking until instant [t]. *)
Definition sleepUntil {S} (t : Z) : M S unit := fun w s => (tt, sleepWorld t w, s).

(** [time.Sleep(d)] *)
Definition timeSleep {S} (d : Z) : M S unit := fun w s => (tt, sleepWorld (now w + d) w, s).

(** [io.ReadFull(rand.Reader, make([]byte, n))] *)
Definition readRandom {S} (n : nat) : M S (bytes + error) :=
  fun w s => (w_rand w (w_draw w) n, drawWorld w, s).

(** The choice of a [select] between two ready cases. *)
Definition pickCase {S} : M S bool :=
  fun w s => (w_pick w (w_draw w), drawWorld w, s).

(** The result, the world and the state a run leaves. *)
Definition rv {S A} (x : A * World * S) : A := x.1.1.
Definition wv {S A} (x : A * World * S) : World := x.1.2.
Definition sv {S A} (x : A * World * S) : S := x.2.

Lemma run_eta {S A} (x : A * World * S) a : rv x = a -> x = (a, wv x, sv x).
Proof. by destruct x as [[? ?] ?]; intros <-. Qed.

(** Running a method of an object held in a field of another object. *)
Definition zoom {S T A} (view : T -> S) (upd : S -> T -> T) (m : M S A) : M T A :=
  fun w t => let '(a, w', s') := m w (view t) in (a, w', upd s' t).

(** [for _, x := range xs { if err := body(x); err != nil { return err } }] *)
Fixpoint forErr {S A} (body : A -> M S (option error)) (xs : list A) : M S (option error) :=
  match xs with
  | [] => ret None
  | x :: rest =>
      let* err := body x in
      match err with Some e => ret (Some e) | None => forErr body rest end
  end.

(** [for _, x := range xs { body(x) }] *)
Fixpoint forEach {S A} (body : A -> M S unit) (xs : list A) : M S unit :=
  match xs with
  | [] => ret tt
  | x :: rest => body x ;; forEach body rest
  end.

(** ** Laws of the world *)

Lemma later_refl w : world_ok w -> later w w.
Proof. split; [done | lia]. Qed.

Lemma later_trans w1 w2 w3 : later w1 w2 -> later w2 w3 -> later w1 w3.
Proof. intros [_ ?] [? ?]. split; [done | lia]. Qed.

Lemma later_world_ok w w' : later w w' -> world_ok w'.
Proof. by intros [? _]. Qed.

Lemma later_now w w' : later w w' -> now w <= now w'.
Proof. by intros [_ ?]. Qed.

Lemma now_range w : world_ok w -> 0 < now w < horizon.
Proof. intros (_ & H & _). apply H. Qed.

Lemma later_tick w : world_ok w -> later w (tickWorld w).
Proof. intros H. split; [exact H |]. unfold now; simpl. apply H. lia. Qed.

Lemma later_draw w : world_ok w -> later w (drawWorld w).
Proof. intros H. split; [exact H |]. unfold now; simpl. lia. Qed.

Lemma later_sleep w t : world_ok w -> t < horizon -> later w (sleepWorld t w).
Proof.
  intros (H1 & H2 & H3) Ht. split; [split; [|split]|].
  - intros i j Hij; simpl. specialize (H1 i j Hij). lia.
  - intros i; simpl. specialize (H2 i). lia.
  - exact H3.
  - unfold now; simpl. lia.
Qed.

Lemma now_sleep w t : now (sleepWorld t w) = Z.max t (now w).
Proof. done. Qed.

(** A concrete world for examples: one microsecond between readings. *)
Definition world_example : World :=
  mkWorld (fun i => 1000000 + 1000 * Z.min (Z.of_nat i) 1000000) 0
          (fun _ n => inl (replicate n x2a)) (fun _ => true) 0.

Lemma world_example_ok : world_ok world_example.
Proof.
  split; [|split]; simpl; unfold horizon.
  - lia.
  - lia.
  - intros _ n b [= <-]. apply length_replicate.
Qed.

(** ** Reasoning forwards *)

(** A computation from a state ends in [Q]. *)
Definition wp {S A} (m : M S A) (Q : A -> World -> S -> Prop) (w : World) (s : S) : Prop :=
  let '(a, w', s') := m w s in Q a w' s'.

Lemma wp_run {S A} (m : M S A) Q w s a w' s' : wp m Q w s -> m w s = (a, w', s') -> Q a w' s'.
Proof. unfold wp. intros Hwp E. by rewrite E in Hwp. Qed.

Lemma wp_bind {S A B} (m : M S A) (k : A -> M S B) Q w s :
  wp m (fun a => wp (k a) Q) w s -> wp (bind m k) Q w s.
Proof. unfold wp, bind. by destruct (m w s) as [[a w'] s']. Qed.

Lemma wp_mono {S A} (m : M S A) (P Q : A -> World -> S -> Prop) w s :
  wp m P w s -> (forall a w' s', P a w' s' -> Q a w' s') -> wp m Q w s.
Proof. unfold wp. destruct (m w s) as [[a w'] s']. auto. Qed.

Lemma wp_ret {S A} (a : A) (Q : A -> World -> S -> Prop) w s : Q a w s -> wp (ret a) Q w s.
Proof. done. Qed.

Lemma wp_get {S B} (k : S -> M S B) Q w s : wp (k s) Q w s -> wp (bind get k) Q w s.
Proof. done. Qed.

Lemma wp_timeNow {S B} (k : Z -> M S B) Q w s : wp (k (now w)) Q (tickWorld w) s -> wp (bind timeNow k) Q w s.
Proof. done. Qed.

Create HintDb go.
#[export] Hint Resolve later_refl later_tick later_draw later_world_ok later_now : go.

(** ** Tactics *)

(** Unfold the monad's plumbing in the goal. *)
Ltac go_simpl :=
  cbv beta iota zeta delta
    [bind ret get put modify timeNow readRandom pickCase zoom sleepUntil].

Ltac go_simpl_in H :=
  cbv beta iota zeta delta
    [bind ret get put modify timeNow readRandom pickCase zoom sleepUntil] in H.

(** Case analysis on the first monadic call whose result the goal inspects. *)
Ltac go_step :=
  match goal with
  | |- context [match ?m ?w ?s with (_, _) => _ end] =>
      lazymatch type of (m w s) with
      | (_ * World * _)%type =>
          let a := fresh "a" in let w' := fresh "w" in let s' := fresh "s" in
          let E := fresh "E" in
          destruct (m w s) as [[a w'] s'] eqn:E
      end
  end.
