(* ===== verification/GoStd.v ===== *)
(** * The parts of Go's standard library the cache uses

    [strconv] (decimal integers), [strings] (prefix, substring and white-space
    functions), [encoding/binary] (big-endian words), [encoding/hex] and the
    [time] conversions, translated as executable functions on bytes, with the
    laws the components share: parsing inverts formatting, decoding inverts
    encoding, trimming leaves text without surrounding white space alone. *)

From Stdlib Require Floats.SpecFloat.
From S2P Require Import Prelude.

(** ** strings <-> bytes *)

Lemma bytes_of_string_app a b : bytes_of_string (a +:+ b) = bytes_of_string a ++ bytes_of_string b.
Proof.
  unfold bytes_of_string, String.list_byte_of_string.
  induction a as [|c a IH]; [done|]. simpl. f_equal. exact IH.
Qed.

Lemma string_of_bytes_app a b : string_of_bytes (a ++ b) = string_of_bytes a +:+ string_of_bytes b.
Proof.
  apply (inj bytes_of_string). by rewrite bytes_of_string_app, !bytes_of_string_of_bytes.
Qed.

Lemma string_app_assoc (a b c : string) : a +:+ b +:+ c = (a +:+ b) +:+ c.
Proof. apply (inj bytes_of_string). by rewrite !bytes_of_string_app, app_assoc. Qed.

Lemma string_app_nil (a : string) : a +:+ EmptyString = a.
Proof. apply (inj bytes_of_string). by rewrite bytes_of_string_app, app_nil_r. Qed.

Lemma bytes_of_string_length s : length (bytes_of_string s) = String.length s.
Proof.
  unfold bytes_of_string, String.list_byte_of_string.
  induction s as [|c s IH]; [done|]. simpl. f_equal. exact IH.
Qed.

(** ** strconv *)

Definition digit (d : Z) : byte := byte_of_Z (48 + d).

(** The digit loop of [strconv.FormatInt]; [fuel] bounds the number of digits. *)
Fixpoint formatDigits (fuel : nat) (n : Z) (acc : bytes) : bytes :=
  match fuel with
  | O => acc
  | S f =>
      let acc := digit (n mod 10) :: acc in
      if n <? 10 then acc else formatDigits f (n / 10) acc
  end.

(** [strconv.FormatInt(z, 10)]; an [int64] has at most 19 digits. *)
Definition FormatIntBytes (z : Z) : bytes :=
  if z <? 0 then x2d :: formatDigits 20 (- z) [] else formatDigits 20 z [].

Definition FormatInt (z : Z) : string := string_of_bytes (FormatIntBytes z).
Definition Itoa (z : Z) : string := FormatInt z.

Definition isDigit (c : byte) : bool :=
  let d := byte_to_Z c - 48 in (0 <=? d) && (d <=? 9).

Fixpoint parseDigits (acc : Z) (b : bytes) : option Z :=
  match b with
  | [] => Some acc
  | c :: r => if isDigit c then parseDigits (acc * 10 + (byte_to_Z c - 48)) r else None
  end.

(** [strconv.ParseInt(s, 10, 64)]; [None] is any error (syntax or range). *)
Definition ParseIntBytes (b : bytes) : option Z :=
  match b with
  | [] => None
  | c :: r =>
      let neg := Byte.eqb c x2d in
      let body := if neg || Byte.eqb c x2b then r else b in
      match body with
      | [] => None
      | _ :: _ =>
          match parseDigits 0 body with
          | None => None
          | Some un =>
              if neg then (if un >? 9223372036854775808 then None else Some (- un))
              else (if un >=? 9223372036854775808 then None else Some un)
          end
      end
  end.

Definition ParseInt (s : string) : option Z := ParseIntBytes (bytes_of_string s).
Definition Atoi (s : string) : option Z := ParseInt s.

(** ** strings *)

Fixpoint bHasPrefix (b p : bytes) {struct p} : bool :=
  match p, b with
  | [], _ => true
  | _ :: _, [] => false
  | x :: p', y :: b' => Byte.eqb x y && bHasPrefix b' p'
  end.

Fixpoint bContains (b sub : bytes) : bool :=
  bHasPrefix b sub || match b with [] => false | _ :: r => bContains r sub end.

Definition bHasSuffix (b p : bytes) : bool := bHasPrefix (rev b) (rev p).

Definition HasPrefix (s p : string) : bool := bHasPrefix (bytes_of_string s) (bytes_of_string p).
Definition HasSuffix (s p : string) : bool := bHasSuffix (bytes_of_string s) (bytes_of_string p).
Definition Contains (s sub : string) : bool := bContains (bytes_of_string s) (bytes_of_string sub).

(** [strings.ToLower], as far as ASCII letters of the result go: besides the ASCII
    capitals two characters have an ASCII lower case, U+0130 (i) and U+212A (k). *)
Fixpoint bToLower (b : bytes) : bytes :=
  match b with
  | xc4 :: xb0 :: rest => x69 :: bToLower rest
  | xe2 :: x84 :: xaa :: rest => x6b :: bToLower rest
  | c :: rest =>
      let z := byte_to_Z c in
      (if (65 <=? z) && (z <=? 90) then byte_of_Z (z + 32) else c) :: bToLower rest
  | [] => []
  end.
Definition ToLower (s : string) : string := string_of_bytes (bToLower (bytes_of_string s)).

Definition TrimPrefix (s p : string) : string :=
  if HasPrefix s p then string_of_bytes (drop (String.length p) (bytes_of_string s)) else s.

Definition TrimSuffix (s p : string) : string :=
  if HasSuffix s p
  then string_of_bytes (take (String.length s - String.length p) (bytes_of_string s)) else s.

(** [unicode.IsSpace] on the UTF-8 encodings it accepts: the ASCII white space,
    U+0085 and U+00A0 (two bytes), and U+1680, U+2000..U+200A, U+2028, U+2029,
    U+202F, U+205F, U+3000 (three bytes). *)
Definition isSpace1 (a : byte) : bool :=
  match a with x09 | x0a | x0b | x0c | x0d | x20 => true | _ => false end.

Definition isSpace2 (a b : byte) : bool :=
  match a, b with xc2, x85 | xc2, xa0 => true | _, _ => false end.

Definition isSpace3 (a b c : byte) : bool :=
  match a, b with
  | xe1, x9a => Byte.eqb c x80
  | xe2, x80 =>
      let z := byte_to_Z c in
      ((128 <=? z) && (z <=? 138)) || (z =? 168) || (z =? 169) || (z =? 175)
  | xe2, x81 => Byte.eqb c x9f
  | xe3, x80 => Byte.eqb c x80
  | _, _ => false
  end.

(** Drop leading white space, whose one-, two- and three-byte forms are given. *)
Fixpoint trimWith (p1 : byte -> bool) (p2 : byte -> byte -> bool)
    (p3 : byte -> byte -> byte -> bool) (b : bytes) : bytes :=
  match b with
  | [] => []
  | c1 :: r1 =>
      if p1 c1 then trimWith p1 p2 p3 r1
      else match r1 with
           | [] => b
           | c2 :: r2 =>
               if p2 c1 c2 then trimWith p1 p2 p3 r2
               else match r2 with
                    | [] => b
                    | c3 :: r3 => if p3 c1 c2 c3 then trimWith p1 p2 p3 r3 else b
                    end
           end
  end.

Definition trimLeft (b : bytes) : bytes := trimWith isSpace1 isSpace2 isSpace3 b.
Definition trimRight (b : bytes) : bytes :=
  rev (trimWith isSpace1 (fun x y => isSpace2 y x) (fun x y z => isSpace3 z y x) (rev b)).

(** [strings.TrimSpace] *)
Definition TrimSpace (s : string) : string :=
  string_of_bytes (trimRight (trimLeft (bytes_of_string s))).

(** [strings.Fields]: [cur] is the field that ends at the next white space. *)
Definition field (cur : bytes) : list bytes := match cur with [] => [] | _ => [cur] end.

Fixpoint bFields (cur b : bytes) : list bytes :=
  match b with
  | [] => field cur
  | c1 :: r1 =>
      if isSpace1 c1 then field cur ++ bFields [] r1
      else match r1 with
           | [] => bFields (cur ++ [c1]) r1
           | c2 :: r2 =>
               if isSpace2 c1 c2 then field cur ++ bFields [] r2
               else match r2 with
                    | [] => bFields (cur ++ [c1]) r1
                    | c3 :: r3 =>
                        if isSpace3 c1 c2 c3 then field cur ++ bFields [] r3 else bFields (cur ++ [c1]) r1
                    end
           end
  end.

Definition Fields (s : string) : list string := string_of_bytes <$> bFields [] (bytes_of_string s).

(** ** encoding/binary, big endian *)

Fixpoint bePut (n : nat) (v : Z) : bytes :=
  match n with
  | O => []
  | S n' => byte_of_Z (Z.shiftr v (8 * Z.of_nat n')) :: bePut n' v
  end.

Fixpoint beGetAcc (acc : Z) (b : bytes) : Z :=
  match b with
  | [] => acc
  | c :: r => beGetAcc (acc * 256 + byte_to_Z c) r
  end.

Definition PutUint64 (v : Z) : bytes := bePut 8 v.
Definition PutUint32 (v : Z) : bytes := bePut 4 v.
Definition Uint64 (b : bytes) : Z := beGetAcc 0 b.
Definition Uint32 (b : bytes) : Z := beGetAcc 0 b.

(** ** encoding/hex *)

Definition hexDigit (d : Z) : byte :=
  if d <? 10 then byte_of_Z (48 + d) else byte_of_Z (87 + d).

Fixpoint hexEncodeToString (b : bytes) : bytes :=
  match b with
  | [] => []
  | c :: r => hexDigit (byte_to_Z c / 16) :: hexDigit (byte_to_Z c mod 16) :: hexEncodeToString r
  end.

Definition isHexDigit (c : byte) : bool :=
  let z := byte_to_Z c in
  ((48 <=? z) && (z <=? 57)) || ((97 <=? z) && (z <=? 102)) || ((65 <=? z) && (z <=? 70)).

(** [hex.DecodeString(s)] succeeds: an even number of hexadecimal digits. *)
Definition hexDecodes (b : bytes) : bool := Nat.even (length b) && forallb isHexDigit b.

(** ** time *)

Definition Nanosecond : Z := 1.
Definition Millisecond : Z := 1000000.
Definition Second : Z := 1000000000.
Definition Minute : Z := 60 * Second.

(** [t.UnixNano()]: the low 64 bits of the nanosecond count. *)
Definition UnixNano (t : Z) : Z := wrap64 t.

(** [t.UnixMilli()]: whole milliseconds, rounded towards minus infinity. *)
Definition UnixMilli (t : Z) : Z := t / 1000000.

Lemma UnixMilli_mono t t' : t <= t' -> UnixMilli t <= UnixMilli t'.
Proof. apply Z.div_le_mono. lia. Qed.

(** [float64(z)], in IEEE 754 double precision *)
Definition float64 (z : Z) : SpecFloat.spec_float := SpecFloat.binary_normalize 53 1024 z 0 false.

(** [d.Seconds()]: the whole seconds and the fraction are converted apart and
    added, each step rounded to the nearest double. *)
Definition Seconds (d : Z) : SpecFloat.spec_float :=
  SpecFloat.SFadd 53 1024 (float64 (Z.quot d Second))
    (SpecFloat.SFdiv 53 1024 (float64 (Z.rem d Second)) (float64 1000000000)).

(** [int(f)]: truncation towards zero.  Out of range the result is up to the
    implementation; here it is the low 64 bits. *)
Definition floatToInt (f : SpecFloat.spec_float) : Z :=
  match f with
  | SpecFloat.S754_finite neg m e =>
      let n := if e <? 0 then Z.pos m / 2 ^ (- e) else Z.pos m * 2 ^ e in
      wrap64 (if neg then - n else n)
  | _ => 0
  end.

(** ** Laws of strconv *)

Lemma digit_to_Z d : 0 <= d <= 9 -> byte_to_Z (digit d) = 48 + d.
Proof. intros H. unfold digit. rewrite byte_to_of_Z, Z.mod_small; lia. Qed.

Lemma isDigit_digit d : 0 <= d <= 9 -> isDigit (digit d) = true.
Proof.
  intros H. unfold isDigit. rewrite (digit_to_Z d H). apply andb_true_intro.
  split; apply Z.leb_le; lia.
Qed.

Lemma parseDigits_digit d acc r :
  0 <= d <= 9 -> parseDigits acc (digit d :: r) = parseDigits (acc * 10 + d) r.
Proof.
  intros H. simpl. rewrite isDigit_digit, digit_to_Z by done.
  f_equal. lia.
Qed.

(** Parsing what the digit loop produced resumes with the number printed. *)
Lemma parseDigits_formatDigits fuel n acc :
  0 <= n < 10 ^ Z.of_nat fuel ->
  parseDigits 0 (formatDigits fuel n acc) = parseDigits n acc.
Proof.
  revert n acc. induction fuel as [|f IH]; intros n acc H.
  - change (10 ^ Z.of_nat 0) with 1 in H. by replace n with 0 by lia.
  - cbn [formatDigits]. pose proof (Z.mod_pos_bound n 10 ltac:(lia)).
    destruct (Z.ltb_spec n 10).
    + rewrite parseDigits_digit by lia. by rewrite Z.mod_small by lia.
    + rewrite IH.
      * rewrite parseDigits_digit by lia. f_equal.
        pose proof (Z.div_mod n 10 ltac:(lia)). lia.
      * split; [apply Z.div_pos; lia|]. apply Z.div_lt_upper_bound; [lia|].
        rewrite Nat2Z.inj_succ, Z.pow_succ_r in H; lia.
Qed.

Lemma formatDigits_head fuel n acc :
  0 <= n -> fuel <> O -> exists d r, formatDigits fuel n acc = digit d :: r /\ 0 <= d <= 9.
Proof.
  revert n acc. induction fuel as [|f IH]; intros n acc H Hf; [done|].
  cbn [formatDigits]. pose proof (Z.mod_pos_bound n 10 ltac:(lia)).
  destruct (n <? 10); [eauto with lia|].
  destruct f as [|f]; [simpl; eauto with lia|].
  apply IH; [apply Z.div_pos; lia | done].
Qed.

Lemma byte_eqb_Z a b : Byte.eqb a b = (byte_to_Z a =? byte_to_Z b).
Proof.
  destruct (Byte.eqb a b) eqn:E; symmetry.
  - apply Byte.byte_dec_bl in E as ->. apply Z.eqb_refl.
  - apply Z.eqb_neq. intros F. apply byte_to_Z_inj in F. by apply Byte.eqb_false in E.
Qed.

Lemma digit_not_sign d : 0 <= d <= 9 ->
  Byte.eqb (digit d) x2d = false /\ Byte.eqb (digit d) x2b = false.
Proof.
  intros H. rewrite !byte_eqb_Z, digit_to_Z by done.
  split; apply Z.eqb_neq; change (byte_to_Z x2d) with 45; change (byte_to_Z x2b) with 43; lia.
Qed.

Lemma ParseIntBytes_FormatIntBytes z : in_int64 z -> ParseIntBytes (FormatIntBytes z) = Some z.
Proof.
  unfold in_int64, int64_min, int64_max. intros H. unfold FormatIntBytes.
  destruct (Z.ltb_spec z 0).
  - destruct (formatDigits_head 20 (- z) [] ltac:(lia) ltac:(done)) as (d & r & E & Hd).
    cbn [ParseIntBytes]. change (Byte.eqb x2d x2d) with true. cbn [orb].
    rewrite E. rewrite <- E. rewrite parseDigits_formatDigits by (simpl; lia). cbn [parseDigits].
    destruct (Z.gtb_spec (- z) 9223372036854775808); [lia|]. f_equal. lia.
  - destruct (formatDigits_head 20 z [] ltac:(lia) ltac:(done)) as (d & r & E & Hd).
    rewrite E. cbn [ParseIntBytes]. destruct (digit_not_sign d Hd) as [-> ->]. cbn [orb].
    rewrite <- E. rewrite parseDigits_formatDigits by (simpl; lia). cbn [parseDigits].
    destruct (Z.geb_spec z 9223372036854775808); [lia|]. done.
Qed.

(** [strconv.ParseInt] inverts [strconv.FormatInt] on every [int64]. *)
Lemma ParseInt_FormatInt z : in_int64 z -> ParseInt (FormatInt z) = Some z.
Proof.
  intros H. unfold ParseInt, FormatInt. rewrite bytes_of_string_of_bytes.
  by apply ParseIntBytes_FormatIntBytes.
Qed.

Lemma parseDigits_nonneg acc b n : 0 <= acc -> parseDigits acc b = Some n -> 0 <= n.
Proof.
  revert acc. induction b as [|c r IH]; intros acc Ha; simpl; [intros; by simplify_eq|].
  destruct (isDigit c) eqn:E; [|done]. apply IH.
  unfold isDigit in E. apply andb_true_iff in E as [E _]. apply Z.leb_le in E. lia.
Qed.

(** A parsed number is an [int64]. *)
Lemma ParseInt_range s n : ParseInt s = Some n -> in_int64 n.
Proof.
  unfold ParseInt, ParseIntBytes, in_int64, int64_min, int64_max.
  destruct (bytes_of_string s) as [|c r]; [done|].
  destruct (if Byte.eqb c x2d || Byte.eqb c x2b then r else c :: r) as [|x b]; [done|].
  destruct (parseDigits 0 (x :: b)) as [un|] eqn:Ep; [|done].
  apply parseDigits_nonneg in Ep; [|lia].
  destruct (Byte.eqb c x2d).
  - destruct (Z.gtb_spec un 9223372036854775808); [done|]. intros ?; simplify_eq. lia.
  - destruct (Z.geb_spec un 9223372036854775808); [done|]. intros ?; simplify_eq. lia.
Qed.

(** ** Laws of strings *)

Lemma bHasPrefix_spec b p : bHasPrefix b p = true <-> exists r, b = p ++ r.
Proof.
  revert b. induction p as [|x p IH]; intros b; simpl.
  - split; eauto.
  - destruct b as [|y b]; [split; [done | by intros [? ?]]|].
    rewrite andb_true_iff, IH. split.
    + intros [E [r ->]]. apply Byte.byte_dec_bl in E as ->. by exists r.
    + intros [r E]. simplify_eq. split; [by apply Byte.byte_dec_lb | by exists r].
Qed.

Lemma bHasPrefix_app p r : bHasPrefix (p ++ r) p = true.
Proof. apply bHasPrefix_spec. by exists r. Qed.

Lemma HasPrefix_app p s : HasPrefix (p +:+ s) p = true.
Proof. unfold HasPrefix. rewrite bytes_of_string_app. apply bHasPrefix_app. Qed.

Lemma HasPrefix_spec s p : HasPrefix s p = true <-> exists r, s = p +:+ r.
Proof.
  unfold HasPrefix. rewrite bHasPrefix_spec. split.
  - intros [r E]. exists (string_of_bytes r). apply (inj bytes_of_string).
    by rewrite bytes_of_string_app, bytes_of_string_of_bytes.
  - intros [r ->]. exists (bytes_of_string r). apply bytes_of_string_app.
Qed.

Lemma TrimPrefix_app p s : TrimPrefix (p +:+ s) p = s.
Proof.
  unfold TrimPrefix. rewrite HasPrefix_app, bytes_of_string_app, <- bytes_of_string_length.
  by rewrite drop_app_length, string_of_bytes_of_string.
Qed.

Lemma bContains_spec b sub : bContains b sub = true <-> exists l r, b = l ++ sub ++ r.
Proof.
  split.
  - induction b as [|c b IH]; cbn [bContains]; rewrite orb_true_iff, bHasPrefix_spec.
    + intros [[r ->]|?]; [by exists (@nil byte), r | done].
    + intros [[r ->]|H]; [by exists (@nil byte), r|].
      destruct (IH H) as (l & r & ->). by exists (c :: l), r.
  - intros (l & r & ->). induction l as [|c l IH].
    + simpl. destruct (sub ++ r) eqn:E; cbn [bContains]; rewrite <- E, bHasPrefix_app; done.
    + simpl. rewrite IH. apply orb_true_r.
Qed.

(** ** Laws of TrimSpace *)

(** No byte of the text can start a white-space encoding. *)
Definition plainByte (c : byte) : bool :=
  negb (isSpace1 c) && (byte_to_Z c <? 128).

Lemma plainByte_not_space c : plainByte c = true ->
  isSpace1 c = false /\ (forall x, isSpace2 c x = false) /\ (forall x, isSpace2 x c = false) /\
  (forall x y, isSpace3 c x y = false) /\ (forall x y, isSpace3 x y c = false).
Proof.
  unfold plainByte. rewrite andb_true_iff, negb_true_iff. intros [H1 H2].
  split; [done|]. apply Z.ltb_lt in H2.
  assert (forall y, Byte.eqb c y = false \/ byte_to_Z y < 128) as Hc.
  { intros y. destruct (Byte.eqb c y) eqn:E; [right | by left].
    by apply Byte.byte_dec_bl in E as <-. }
  repeat split; intros.
  - destruct c; try done; by vm_compute in H2.
  - destruct x; try done; destruct c; try done; by vm_compute in H2.
  - destruct c; try done; by vm_compute in H2.
  - unfold isSpace3. destruct x; try done; destruct y; try done;
      rewrite ?byte_eqb_Z; change (byte_to_Z x80) with 128; change (byte_to_Z x9f) with 159;
      rewrite ?(proj2 (Z.eqb_neq _ _)) by lia; try done.
    rewrite (proj2 (Z.leb_gt _ _)) by lia. done.
Qed.

Lemma trimWith_plain p1 p2 p3 b :
  (forall c r, b = c :: r -> p1 c = false /\ (forall x, p2 c x = false) /\
     (forall x y, p3 c x y = false)) -> trimWith p1 p2 p3 b = b.
Proof.
  destruct b as [|c1 [|c2 [|c3 r]]]; intros H; [done|..];
    destruct (H c1 _ eq_refl) as (H1 & H2 & H3); simpl; rewrite H1, ?H2, ?H3; done.
Qed.

(** Text of plain ASCII bytes without white space is left alone. *)
Lemma TrimSpace_plain s :
  forallb plainByte (bytes_of_string s) = true -> TrimSpace s = s.
Proof.
  intros H. unfold TrimSpace. rewrite <- (string_of_bytes_of_string s) at 2. f_equal.
  rewrite forallb_forall in H. unfold trimRight, trimLeft.
  rewrite !trimWith_plain, rev_involutive; [done | ..].
  all: intros c r E.
  - assert (plainByte c = true) as Hc by (apply H; rewrite E; by left).
    apply plainByte_not_space in Hc as (? & ? & ? & ? & ?); auto.
  - rewrite trimWith_plain in E.
    + assert (plainByte c = true) as Hc.
      { apply H, in_rev. rewrite E. by left. }
      apply plainByte_not_space in Hc as (? & ? & ? & ? & ?); auto.
    + intros c' r' E'. assert (plainByte c' = true) as Hc by (apply H; rewrite E'; by left).
      apply plainByte_not_space in Hc as (? & ? & ? & ? & ?); auto.
Qed.

Lemma digit_plain d : 0 <= d <= 9 -> plainByte (digit d) = true.
Proof.
  intros H. assert (d = 0 \/ d = 1 \/ d = 2 \/ d = 3 \/ d = 4 \/ d = 5 \/ d = 6 \/ d = 7 \/ d = 8 \/ d = 9)
    as Hd by lia.
  by destruct Hd as [-> | [-> | [-> | [-> | [-> | [-> | [-> | [-> | [-> | ->]]]]]]]]].
Qed.

Lemma formatDigits_plain fuel n acc :
  0 <= n -> forallb plainByte acc = true -> forallb plainByte (formatDigits fuel n acc) = true.
Proof.
  revert n acc. induction fuel as [|f IH]; intros n acc Hn Ha; [done|].
  cbn [formatDigits]. pose proof (Z.mod_pos_bound n 10 ltac:(lia)).
  assert (forallb plainByte (digit (n mod 10) :: acc) = true) as Hd.
  { simpl. rewrite digit_plain by lia. exact Ha. }
  destruct (n <? 10); [done|]. apply IH; [apply Z.div_pos; lia | done].
Qed.

(** Printed integers carry no white space. *)
Lemma FormatIntBytes_plain z : forallb plainByte (FormatIntBytes z) = true.
Proof.
  unfold FormatIntBytes. destruct (Z.ltb_spec z 0).
  - cbn [forallb]. by rewrite formatDigits_plain by (done || lia).
  - by rewrite formatDigits_plain by (done || lia).
Qed.

Lemma TrimSpace_FormatInt z : TrimSpace (FormatInt z) = FormatInt z.
Proof.
  apply TrimSpace_plain. unfold FormatInt. rewrite bytes_of_string_of_bytes. apply FormatIntBytes_plain.
Qed.

Lemma FormatInt_not_empty z : FormatInt z <> EmptyString.
Proof.
  intros E. apply (f_equal bytes_of_string) in E. unfold FormatInt in E.
  rewrite bytes_of_string_of_bytes in E. unfold FormatIntBytes in E.
  destruct (Z.ltb_spec z 0); [done|].
  destruct (formatDigits_head 20 z [] ltac:(lia) ltac:(done)) as (d & r & E' & _).
  by rewrite E' in E.
Qed.

(** A line of text that starts and ends with plain bytes, without its line end. *)
Lemma TrimSpace_line l :
  (exists c r, l = c :: r /\ plainByte c = true) -> (exists r c, l = r ++ [c] /\ plainByte c = true) ->
  TrimSpace (string_of_bytes (l ++ [x0d; x0a])) = string_of_bytes l.
Proof.
  intros (c & r & E & Hc) (r' & c' & E' & Hc'). unfold TrimSpace. rewrite bytes_of_string_of_bytes. f_equal.
  apply plainByte_not_space in Hc as (H1 & H2 & _ & H3 & _). apply plainByte_not_space in Hc' as (H1' & _ & H2' & _ & H3').
  unfold trimLeft. rewrite trimWith_plain by (rewrite E; simpl; by intros ?? [= <- <-]).
  unfold trimRight. rewrite rev_app_distr. simpl. rewrite trimWith_plain; [apply rev_involutive|].
  rewrite E', rev_app_distr. simpl. by intros ?? [= <- <-].
Qed.

(** [strings.Fields] on plain words. *)
Lemma bFields_plain cur a r :
  forallb plainByte a = true ->
  bFields cur (a ++ r) = match r with
                         | [] => field (cur ++ a)
                         | x20 :: r' => field (cur ++ a) ++ bFields [] r'
                         | _ => bFields (cur ++ a) r
                         end.
Proof.
  revert cur. induction a as [|c a IH]; intros cur Ha.
  - rewrite app_nil_r. by destruct r as [|[]].
  - simpl in Ha. apply andb_true_iff in Ha as [Hc Ha]. specialize (IH (cur ++ [c]) Ha).
    rewrite <- (assoc_L (++) cur [c] a) in IH. simpl app in IH.
    rewrite <- IH. apply plainByte_not_space in Hc as (H1 & H2 & _ & H3 & _).
    cbn [app bFields]. rewrite H1. destruct (a ++ r) as [|c2 [|c3 l]]; [done|by rewrite H2|by rewrite H2, H3].
Qed.

Lemma list_shorter_ind {A} (P : list A -> Prop) :
  (forall l, (forall l', (length l' < length l)%nat -> P l') -> P l) -> forall l, P l.
Proof.
  intros Hs l. assert (forall n l, (length l < n)%nat -> P l) as Hn; [|by apply (Hn (Datatypes.S (length l))); lia].
  induction n as [|n IH]; [lia|]. intros l' Hl. apply Hs. intros l'' Hl'. apply IH. lia.
Qed.

(** A text that starts with a plain byte keeps it through trimming and splitting. *)
Lemma trimWith_last p1 p2 p3 c b :
  p1 c = false -> (forall x, p2 x c = false) -> (forall x y, p3 x y c = false) ->
  exists b', trimWith p1 p2 p3 (b ++ [c]) = b' ++ [c].
Proof.
  intros H1 H2 H3. induction b as [b IH] using list_shorter_ind. destruct b as [|c1 [|c2 [|c3 r]]].
  - exists []. simpl. by rewrite H1.
  - cbn [app trimWith]. destruct (p1 c1); [exists []; by rewrite H1|]. exists [c1]. by rewrite H2.
  - pose proof (IH [c2] ltac:(simpl; lia)) as IH1. cbn [app trimWith] in *. destruct (p1 c1); [exact IH1|].
    destruct (p2 c1 c2); [exists []; by rewrite H1|]. exists [c1; c2]. by rewrite H3.
  - pose proof (IH (c2 :: c3 :: r) ltac:(simpl; lia)) as IH1. pose proof (IH (c3 :: r) ltac:(simpl; lia)) as IH2.
    pose proof (IH r ltac:(simpl; lia)) as IH3.
    change ((c1 :: c2 :: c3 :: r) ++ [c]) with (c1 :: c2 :: c3 :: (r ++ [c])).
    change ((c2 :: c3 :: r) ++ [c]) with (c2 :: c3 :: (r ++ [c])) in IH1. change ((c3 :: r) ++ [c]) with (c3 :: (r ++ [c])) in IH2.
    cbn [trimWith] in IH1, IH2 |- *. destruct (p1 c1); [exact IH1|]. destruct (p2 c1 c2); [exact IH2|].
    destruct (p3 c1 c2 c3); [exact IH3|]. by exists (c1 :: c2 :: c3 :: r).
Qed.

Lemma TrimSpace_head c b :
  plainByte c = true -> exists b', TrimSpace (string_of_bytes (c :: b)) = string_of_bytes (c :: b').
Proof.
  intros Hc. apply plainByte_not_space in Hc as (H1 & H2 & _ & H3 & _). unfold TrimSpace. rewrite bytes_of_string_of_bytes.
  unfold trimLeft. rewrite trimWith_plain by (by intros ?? [= <- <-]). unfold trimRight. cbn [rev].
  destruct (trimWith_last isSpace1 (fun x y => isSpace2 y x) (fun x y z => isSpace3 z y x) c (rev b)) as [b' ->]; [done..|].
  exists (rev b'). by rewrite rev_app_distr.
Qed.

Lemma bFields_cons x cur b : exists y r, bFields (x :: cur) b = (x :: y) :: r.
Proof.
  revert cur. induction b as [b IH] using list_shorter_ind. intros cur.
  destruct b as [|c1 [|c2 [|c3 r]]]; cbn [bFields app].
  - by exists cur, [].
  - destruct (isSpace1 c1); [by exists cur, []|]. by exists (cur ++ [c1]), [].
  - pose proof (IH [c2] ltac:(simpl; lia) (cur ++ [c1])) as Hn. cbn [bFields app] in Hn.
    destruct (isSpace1 c1); [by eexists cur, _|]. destruct (isSpace2 c1 c2); [by eexists cur, _|]. exact Hn.
  - pose proof (IH (c2 :: c3 :: r) ltac:(simpl; lia) (cur ++ [c1])) as Hn. cbn [bFields app] in Hn.
    destruct (isSpace1 c1); [by eexists cur, _|]. destruct (isSpace2 c1 c2); [by eexists cur, _|].
    destruct (isSpace3 c1 c2 c3); [by eexists cur, _|]. exact Hn.
Qed.

(** The first field of a text that starts with a plain byte starts with it. *)
Lemma Fields_head c b :
  plainByte c = true -> exists y r, Fields (TrimSpace (string_of_bytes (c :: b))) = string_of_bytes (c :: y) :: r.
Proof.
  intros Hc. destruct (TrimSpace_head c b Hc) as [b' ->]. unfold Fields. rewrite bytes_of_string_of_bytes.
  pose proof (bFields_plain [] [c] b' ltac:(simpl; by rewrite Hc)) as E. simpl app in E. rewrite E.
  destruct b' as [|d b']; [by exists [], []|].
  assert (exists y r, bFields [c] (d :: b') = (c :: y) :: r) as (y & r & Ef) by apply bFields_cons.
  destruct d; try (rewrite Ef; by exists y, (string_of_bytes <$> r)). by eexists [], _.
Qed.

(** ** Laws of encoding/binary *)

Lemma bePut_length n v : length (bePut n v) = n.
Proof. induction n; simpl; auto. Qed.

Lemma beGetAcc_bePut n v acc rest :
  beGetAcc acc (bePut n v ++ rest) =
  beGetAcc (acc * 256 ^ Z.of_nat n + v mod 256 ^ Z.of_nat n) rest.
Proof.
  revert acc. induction n as [|n IH]; intros acc.
  - cbn [bePut app]. change (256 ^ Z.of_nat 0) with 1. rewrite Z.mod_1_r. f_equal. lia.
  - cbn [bePut app beGetAcc]. rewrite IH, byte_to_of_Z, Z.shiftr_div_pow2 by lia.
    rewrite Nat2Z.inj_succ, Z.pow_succ_r by lia.
    replace (2 ^ (8 * Z.of_nat n)) with (256 ^ Z.of_nat n)
      by (rewrite Z.pow_mul_r by lia; done).
    rewrite (Z.mul_comm 256 (256 ^ _)), Z.rem_mul_r by lia.
    f_equal. lia.
Qed.

Lemma beGet_bePut n v : beGetAcc 0 (bePut n v) = v mod 256 ^ Z.of_nat n.
Proof. rewrite <- (app_nil_r (bePut n v)), beGetAcc_bePut. simpl. lia. Qed.

(** [binary.BigEndian.Uint64] inverts [PutUint64] on every [uint64]. *)
Lemma Uint64_PutUint64 v : Uint64 (PutUint64 v) = wrapu64 v.
Proof. unfold Uint64, PutUint64. rewrite beGet_bePut. done. Qed.

Lemma Uint32_PutUint32 v : Uint32 (PutUint32 v) = v mod 4294967296.
Proof. unfold Uint32, PutUint32. by rewrite beGet_bePut. Qed.

Lemma beGetAcc_nonneg acc b : 0 <= acc -> 0 <= beGetAcc acc b.
Proof.
  revert acc. induction b as [|c b IH]; intros acc H; simpl; [done|].
  apply IH. pose proof (byte_to_Z_range c). lia.
Qed.

(** ** Laws of encoding/hex *)

Lemma hexEncode_length b : length (hexEncodeToString b) = (2 * length b)%nat.
Proof. induction b; simpl; lia. Qed.

Lemma hexDigit_isHex d : 0 <= d < 16 -> isHexDigit (hexDigit d) = true.
Proof.
  intros H. unfold hexDigit, isHexDigit. destruct (Z.ltb_spec d 10).
  - rewrite byte_to_of_Z, Z.mod_small by lia.
    by rewrite !(proj2 (Z.leb_le _ _)) by lia.
  - rewrite byte_to_of_Z, Z.mod_small by lia.
    rewrite (proj2 (Z.leb_le 97 _)), (proj2 (Z.leb_le _ 102)) by lia.
    by rewrite orb_true_r.
Qed.

(** What [hex.EncodeToString] prints, [hex.DecodeString] accepts. *)
Lemma hexDecodes_encode b : hexDecodes (hexEncodeToString b) = true.
Proof.
  unfold hexDecodes. rewrite hexEncode_length, Nat.even_mul. simpl.
  induction b as [|c b IH]; [done|]. simpl. pose proof (byte_to_Z_range c).
  rewrite !hexDigit_isHex; [done | | ].
  - apply Z.mod_pos_bound. lia.
  - split; [apply Z.div_pos; lia | apply Z.div_lt_upper_bound; lia].
Qed.

Lemma hexDigit_inj d e : 0 <= d < 16 -> 0 <= e < 16 -> hexDigit d = hexDigit e -> d = e.
Proof.
  intros Hd He E. apply (f_equal byte_to_Z) in E. unfold hexDigit in E.
  destruct (Z.ltb_spec d 10), (Z.ltb_spec e 10);
    rewrite !byte_to_of_Z, !Z.mod_small in E by lia; lia.
Qed.

#[global] Instance hexEncode_inj : Inj (=) (=) hexEncodeToString.
Proof.
  intros a. induction a as [|x a IH]; intros [|y b] E; try done.
  simpl in E. injection E as E1 E2 E3.
  pose proof (byte_to_Z_range x). pose proof (byte_to_Z_range y).
  apply hexDigit_inj in E1; [| split; [apply Z.div_pos; lia | apply Z.div_lt_upper_bound; lia]..].
  apply hexDigit_inj in E2; [| apply Z.mod_pos_bound; lia..].
  f_equal; [| by apply IH]. apply byte_to_Z_inj.
  rewrite (Z.div_mod (byte_to_Z x) 16), (Z.div_mod (byte_to_Z y) 16) by lia. lia.
Qed.
