(* ===== verification/CacheCore.v ===== *)
(** * Package cachecore: shared types, the Store interface and its contract

    The types of [cachecore/{config,driver,compression,store,inspect}.go] and
    the interfaces [Store], [lockStore] and [Inspector] as classes and records
    of operations.  [StoreContract], [LockContract] and [CounterContract] state
    what a backend promises to its clients: the doc comments of [Store] and of
    the backends ("Get distinguishes cache misses from backend errors", "Add
    writes a value only when the key does not already exist", "Delete succeeds
    when the key is absent", "LockRelease deletes key only while it still belongs
    to owner") as pre- and postconditions over the values visible at an instant.
    Backends discharge the classes; the facade is verified against them. *)

From S2P Require Import Prelude GoStd.

(** ** Types *)

(** [type Driver string] *)
Definition DriverNull : string := "null".
Definition DriverFile : string := "file".
Definition DriverMemory : string := "memory".
Definition DriverMemcached : string := "memcached".
Definition DriverDynamo : string := "dynamodb".
Definition DriverSQL : string := "sql".
Definition DriverRedis : string := "redis".
Definition DriverNATS : string := "nats".

(** [type CompressionCodec string] *)
Definition CompressionNone : string := "none".
Definition CompressionGzip : string := "gzip".
Definition CompressionSnappy : string := "snappy".

Record BaseConfig := mkBaseConfig {
  DefaultTTL : Z;
  Prefix : string;
  Compression : string;
  MaxValueBytes : Z;
  EncryptionKey : bytes
}.

(** A [context.Context] is known by the instant it becomes done, if ever, and
    the error its [Err] method reports from then on. *)
Record Context := mkContext { ctx_done : option (Z * error) }.

Definition Background : Context := mkContext None.

(** [ctx.Err()] at instant [t]. *)
Definition ctxErr (ctx : Context) (t : Z) : option error :=
  match ctx_done ctx with
  | Some (d, e) => if d <=? t then Some e else None
  | None => None
  end.

(** [context.WithTimeout(parent, d)] called at instant [t]: done at the earlier
    of the parent's instant and the deadline. *)
Definition WithTimeout (parent : Context) (t d : Z) : Context :=
  match ctx_done parent with
  | Some (p, e) => if p <=? t + d then parent else mkContext (Some (t + d, DeadlineExceeded))
  | None => mkContext (Some (t + d, DeadlineExceeded))
  end.

(** [select { case <-ctx.Done(): return ctx.Err(); case <-time.After(d): }],
    with [d > 0]: the case that becomes ready first wins. *)
Definition waitRetry {S} (ctx : Context) (d : Z) : M S (option error) :=
  let* t := timeNow in
  match ctx_done ctx with
  | None => sleepUntil (t + d) ;; ret None
  | Some (at_, e) =>
      if at_ <=? t then ret (Some e)
      else if at_ <? t + d then sleepUntil at_ ;; ret (Some e)
      else if t + d <? at_ then sleepUntil (t + d) ;; ret None
      else
        let* first := pickCase in
        sleepUntil (t + d) ;;
        ret (if first : bool then Some e else None)
  end.

(** A wait under a deadline ends: at the deadline with the context's error, or
    after the interval. *)
Lemma waitRetry_post {S} ctx d e retry w (c : S) r w' c' :
  world_ok w -> ctx_done ctx = Some (d, e) -> d < horizon -> 0 < retry ->
  waitRetry ctx retry w c = (r, w', c') ->
  c' = c /\ later w w' /\
  match r with
  | Some e' => e' = e /\ d <= now w'
  | None => now w + retry <= now w' /\ now w + retry <= d
  end.
Proof.
  intros Hw Hd Hh Hr. unfold waitRetry. go_simpl. rewrite Hd.
  pose proof (later_tick w Hw) as Hl. pose proof (later_now _ _ Hl) as Hle.
  assert (Hsleep : forall t, t < horizon -> later w (sleepWorld t (tickWorld w))).
  { intros t Ht. eapply later_trans; [done|]. apply later_sleep; [by eauto with go | done]. }
  destruct (Z.leb_spec d (now w)).
  { intros [= <- <- <-]. split; [done|]. split; [done|]. split; [done|]. change (d <= now (tickWorld w)). lia. }
  destruct (Z.ltb_spec d (now w + retry)).
  { intros [= <- <- <-]. split; [done|]. split; [by apply Hsleep|]. split; [done|].
    change (d <= now (sleepWorld d (tickWorld w))). rewrite now_sleep. lia. }
  destruct (Z.ltb_spec (now w + retry) d).
  { intros [= <- <- <-]. split; [done|]. split; [apply Hsleep; lia|].
    change (now w + retry <= now (sleepWorld (now w + retry) (tickWorld w)) /\ now w + retry <= d).
    rewrite now_sleep. lia. }
  simpl. intros [= <- <- <-]. split; [done|].
  set (w2 := drawWorld (tickWorld w)).
  assert (Hl2 : later w (sleepWorld (now w + retry) w2)).
  { eapply later_trans; [done|]. eapply later_trans; [apply later_draw; by eauto with go|].
    apply later_sleep; [|lia]. by eapply later_world_ok, later_draw; eauto with go. }
  split; [exact Hl2|].
  assert (now w + retry <= now (sleepWorld (now w + retry) w2)) by (rewrite now_sleep; lia).
  destruct (w_pick w (w_draw w)).
  - split; [done|]. change (d <= now (sleepWorld (now w + retry) w2)). lia.
  - split; [done | lia].
Qed.

Record InspectorCapabilities := mkCapabilities {
  CanList : bool; CanRead : bool; CanDelete : bool; CanTTL : bool
}.

Definition noCapabilities : InspectorCapabilities := mkCapabilities false false false false.

Record ListPageOptions := mkListPageOptions {
  opt_Query : string; opt_Prefix : string; opt_Cursor : string; opt_Limit : Z
}.

(** [ExpiresAt *int64]: [None] is the nil pointer. *)
Record CacheEntry := mkCacheEntry {
  Key : string; SizeBytes : Z; ExpiresAt : option Z
}.

Record ListPageResult := mkListPageResult {
  Entries : list CacheEntry; NextCursor : string; HasMore : bool
}.

Definition emptyListPageResult : ListPageResult := mkListPageResult [] EmptyString false.

#[global] Instance CacheEntry_eq_dec : EqDecision CacheEntry.
Proof. solve_decision. Defined.

(** ** Interfaces *)

(** The private capability [lockStore]. *)
Record LockStore (S : Type) := mkLockStore {
  LockAcquire : Context -> string -> bytes -> Z -> M S (bool * option error);
  LockRelease : Context -> string -> bytes -> M S (bool * option error)
}.
Arguments LockAcquire {S}.
Arguments LockRelease {S}.

(** The optional extension [Inspector]. *)
Record Inspector (S : Type) := mkInspector {
  Capabilities : S -> InspectorCapabilities;
  ListPage : Context -> ListPageOptions -> M S (ListPageResult * option error)
}.
Arguments Capabilities {S}.
Arguments ListPage {S}.

(** The interface [cachecore.Store] over an object of type [S].  The results of
    the type assertions [store.(lockStore)] and [store.(Inspector)] depend on
    the object's dynamic type: they are the two optional fields. *)
Class Store (S : Type) := mkStore {
  Store_Driver : S -> string;
  Store_Ready : Context -> M S (option error);
  Store_Get : Context -> string -> M S (bytes * bool * option error);
  Store_Set : Context -> string -> bytes -> Z -> M S (option error);
  Store_Add : Context -> string -> bytes -> Z -> M S (bool * option error);
  Store_Increment : Context -> string -> Z -> Z -> M S (Z * option error);
  Store_Decrement : Context -> string -> Z -> Z -> M S (Z * option error);
  Store_Delete : Context -> string -> M S (option error);
  Store_DeleteMany : Context -> list string -> M S (option error);
  Store_Flush : Context -> M S (option error);
  Store_lockStore : S -> option (LockStore S);
  Store_Inspector : S -> option (Inspector S)
}.

(** ** Contracts *)

(** The keys a backend serves: which it keeps apart, and which it can record for
    which durations.  A backend that hashes keys into names promises independence
    only for keys that do not collide, one that writes the key's length into a
    fixed field records only keys whose length fits, and one that counts
    milliseconds keeps an entry for exactly the requested duration only when that
    is a whole number of them; for the others [apart] is inequality and every key
    is [storable] for every duration.  No law is needed beyond their use in the
    contracts. *)
Class KeySpace (S : Type) := mkKeySpace {
  apart : string -> string -> Prop;
  storable : string -> Z -> Prop
}.
Arguments apart {S KeySpace}.
Arguments storable {S KeySpace}.

Definition allKeys {S} : KeySpace S := mkKeySpace S (fun k' k => k' <> k) (fun _ _ => True).

(** The key space of an object that passes keys through to another. *)
Definition sameKeys {S T} `{KeySpace S} : KeySpace T := mkKeySpace T (apart (S := S)) (storable (S := S)).

Definition ttl_ok (ttl : Z) : Prop := 0 < ttl < horizon.

Section Views.
Context {S V : Type}.
(** The value a read at instant [t] finds under a key. *)
Variable peek : S -> Z -> string -> option V.

(** From [w'] on, [k] reads the same in [s'] as in [s]. *)
Definition same_key (w' : World) (s s' : S) (k : string) : Prop :=
  forall t, now w' <= t -> peek s' t k = peek s t k.

(** Between [w] and [w'], [k] was given value [v] for [ttl]: it is visible for
    the whole duration counted from the start of the operation, gone once the
    duration counted from its end, and the clock grain, have passed, and
    nothing else is visible in between. *)
Definition stored (grain ttl : Z) (w w' : World) (s' : S) (k : string) (v : V) : Prop :=
  (forall t, now w' <= t <= now w + ttl -> peek s' t k = Some v) /\
  (forall t, now w' <= t -> now w' + ttl + grain < t -> peek s' t k = None) /\
  (forall t b, now w' <= t -> peek s' t k = Some b -> b = v).

Definition removed (w' : World) (s' : S) (k : string) : Prop :=
  forall t, now w' <= t -> peek s' t k = None.

(** At some instant of the operation [k] read as [v]. *)
Definition seen (w w' : World) (s : S) (k : string) (v : option V) : Prop :=
  exists t, now w <= t <= now w' /\ peek s t k = v.

Lemma same_key_refl w s k : same_key w s s k.
Proof. by intros t Ht. Qed.

(** What holds of a span holds of a wider one. *)
Lemma same_key_widen w w' s s' k : same_key w s s' k -> later w w' -> same_key w' s s' k.
Proof. intros Hs [_ Hl] t Ht. apply Hs. lia. Qed.

Lemma same_key_all w s s' k :
  (forall k', k' <> k -> same_key w s s' k') -> same_key w s s' k -> forall k', same_key w s s' k'.
Proof. intros Hne He k'. destruct (decide (k' = k)) as [->|]; auto. Qed.

Lemma same_key_trans w s1 s2 s3 k : same_key w s1 s2 k -> same_key w s2 s3 k -> same_key w s1 s3 k.
Proof. intros H1 H2 t Ht. rewrite H2 by done. by apply H1. Qed.

Lemma removed_widen w w' s k : removed w s k -> later w w' -> removed w' s k.
Proof. intros Hs [_ Hl] t Ht. apply Hs. lia. Qed.

Lemma removed_same_key w s s' k : removed w s k -> same_key w s s' k -> removed w s' k.
Proof. intros Hr Hs t Ht. rewrite Hs by done. by apply Hr. Qed.

Lemma seen_widen w0 w w' w1 s k v :
  seen w w' s k v -> later w0 w -> later w' w1 -> seen w0 w1 s k v.
Proof. intros (t & Ht & E) [_ Hl] [_ Hl']. exists t. split; [lia | done]. Qed.

(** A read that follows an operation which left [k] alone might as well have
    seen the state before it. *)
Lemma seen_same_key w w' s s' k v : seen w w' s' k v -> same_key w s s' k -> seen w w' s k v.
Proof. intros (t & Ht & E) Hs. exists t. split; [done|]. by rewrite <- Hs by lia. Qed.

Lemma stored_widen grain ttl w0 w w' w1 s' k v :
  stored grain ttl w w' s' k v -> later w0 w -> later w' w1 -> stored grain ttl w0 w1 s' k v.
Proof.
  intros (H1 & H2 & H3) [_ Hl] [_ Hl']. split; [|split].
  - intros t Ht. apply H1. lia.
  - intros t Ht Ht'. apply H2; lia.
  - intros t b Ht. apply H3. lia.
Qed.

(** A stored value survives an operation that leaves its key alone. *)
Lemma stored_later grain ttl w0 w w' s s' k v :
  stored grain ttl w0 w s k v -> now w <= now w' -> same_key w' s s' k ->
  stored grain ttl w0 w' s' k v.
Proof.
  intros (H1 & H2 & H3) Hl Hs. split; [|split].
  - intros t Ht. rewrite Hs by lia. apply H1. lia.
  - intros t Ht Ht'. rewrite Hs by lia. apply H2; lia.
  - intros t b Ht. rewrite Hs by lia. apply H3. lia.
Qed.

Lemma stored_keep grain ttl w w' s s' k v :
  stored grain ttl w w' s k v -> same_key w' s s' k -> stored grain ttl w w' s' k v.
Proof. intros Hst Hs. eapply stored_later; [done | lia | done]. Qed.
(** A value that is shown until a millisecond computed, during the operation, as
    [time.Now().Add(ttl).UnixMilli()]. *)
Lemma expiry_stored (w w1 w' : World) s' k v ttl x :
  later w w1 -> later w1 w' -> UnixMilli (now w + ttl) <= x <= UnixMilli (now w1 + ttl) ->
  (forall t, now w' <= t -> peek s' t k = if UnixMilli t >? x then None else Some v) ->
  stored Millisecond ttl w w' s' k v.
Proof.
  intros Hl%later_now Hl'%later_now Hx E. split; [|split].
  - intros t Ht. rewrite E by lia. pose proof (UnixMilli_mono t (now w + ttl) ltac:(lia)).
    destruct (Z.gtb_spec (UnixMilli t) x); [lia | done].
  - intros t Ht Hg. rewrite E by lia.
    pose proof (UnixMilli_mono (now w1 + ttl + Millisecond) t ltac:(lia)) as Hm.
    assert (UnixMilli (now w1 + ttl + Millisecond) = UnixMilli (now w1 + ttl) + 1) as Em.
    { unfold UnixMilli, Millisecond. by rewrite <- (Z.div_add _ 1) by lia. }
    destruct (Z.gtb_spec (UnixMilli t) x); [done | lia].
  - intros t b Ht. rewrite E by lia. destruct (UnixMilli t >? x); congruence.
Qed.
End Views.

(** A view of a component of an object, through a partial conversion of its
    values, inherits what is known of the component. *)
Section Through.
Context {S T V U : Type} (peek : S -> Z -> string -> option V) (part : T -> S) (f : V -> option U).

Definition through (x : T) (t : Z) (k : string) : option U := peek (part x) t k ≫= f.

Lemma through_same_key w' x x' k :
  same_key peek w' (part x) (part x') k -> same_key through w' x x' k.
Proof. intros H t Ht. unfold through. by rewrite H. Qed.

Lemma through_removed w' x' k : removed peek w' (part x') k -> removed through w' x' k.
Proof. intros H t Ht. unfold through. by rewrite H. Qed.

Lemma through_seen w w' x k v :
  seen peek w w' (part x) k v -> seen through w w' x k (v ≫= f).
Proof. intros (t & Ht & E). exists t. split; [done|]. unfold through. by rewrite E. Qed.

Lemma through_stored grain ttl w w' x' k v u :
  stored peek grain ttl w w' (part x') k v -> f v = Some u ->
  stored through grain ttl w w' x' k u.
Proof.
  intros (H1 & H2 & H3) Hf. unfold through. split; [|split].
  - intros t Ht. by rewrite H1.
  - intros t Ht Ht'. by rewrite H2.
  - intros t b Ht E. destruct (peek (part x') t k) as [v'|] eqn:Ev; [|done]. simpl in E.
    apply H3 in Ev as ->; [|done]. congruence.
Qed.
End Through.

Section Contracts.
Context {S : Type} `{KeySpace S}.
Variable peek : S -> Z -> string -> option bytes.
(** The key is taken at instant [t]; a key whose value cannot be decoded is
    taken although no read succeeds. *)
Variable occupied : S -> Z -> string -> Prop.
#[local] Abbreviation same_key := (same_key peek).
#[local] Abbreviation removed := (removed peek).
#[local] Abbreviation seen := (seen peek).

(** [k], if the backend can record it for [ttl], was given value [v] for [ttl]. *)
Definition kept grain ttl (w w' : World) (s' : S) (k : string) (v : bytes) : Prop :=
  storable (S := S) k ttl -> stored peek grain ttl w w' s' k v.

Lemma kept_widen grain ttl w0 w w' w1 s' k v :
  kept grain ttl w w' s' k v -> later w0 w -> later w' w1 -> kept grain ttl w0 w1 s' k v.
Proof. intros Hst Hl Hl' Hk. eapply stored_widen; eauto. Qed.

Lemma kept_later grain ttl w0 w w' s s' k v :
  kept grain ttl w0 w s k v -> now w <= now w' -> same_key w' s s' k -> kept grain ttl w0 w' s' k v.
Proof. intros Hst Hl Hs Hk. eapply stored_later; eauto. Qed.

(** At some instant of the operation [k] was taken, or free. *)
Definition taken (w w' : World) (s : S) (k : string) : Prop :=
  exists t, now w <= t <= now w' /\ occupied s t k.
Definition free (w w' : World) (s : S) (k : string) : Prop :=
  exists t, now w <= t <= now w' /\ ~ occupied s t k.

Definition get_post k (w : World) (s : S) (r : bytes * bool * option error)
    (w' : World) (s' : S) : Prop :=
  (forall k', same_key w' s s' k') /\
  match r with
  | (b, true, None) => seen w w' s k (Some b)
  | (_, false, None) => seen w w' s k None
  | (_, ok, Some _) => ok = false
  end.

Definition set_post grain k v ttl (w : World) (s : S) (err : option error)
    (w' : World) (s' : S) : Prop :=
  (forall k', apart (S := S) k' k -> same_key w' s s' k') /\
  match err with
  | None => kept grain ttl w w' s' k v
  | Some _ => (forall k', same_key w' s s' k') \/ kept grain ttl w w' s' k v
  end.

Definition add_post grain k v ttl (w : World) (s : S) (r : bool * option error)
    (w' : World) (s' : S) : Prop :=
  (forall k', apart (S := S) k' k -> same_key w' s s' k') /\
  match r with
  | (true, None) => free w w' s k /\ kept grain ttl w w' s' k v
  | (false, None) => taken w w' s k /\ forall k', same_key w' s s' k'
  | (created, Some _) =>
      created = false /\
      ((forall k', same_key w' s s' k') \/ (free w w' s k /\ kept grain ttl w w' s' k v))
  end.

Definition delete_post k (w : World) (s : S) (err : option error) (w' : World) (s' : S) : Prop :=
  (forall k', apart (S := S) k' k -> same_key w' s s' k') /\
  match err with
  | None => removed w' s' k
  | Some _ => (forall k', same_key w' s s' k') \/ removed w' s' k
  end.

Definition deleteMany_post (ks : list string) (w : World) (s : S) (err : option error)
    (w' : World) (s' : S) : Prop :=
  (forall k', (forall k, k ∈ ks -> apart (S := S) k' k) -> same_key w' s s' k') /\
  match err with
  | None => forall k, k ∈ ks -> removed w' s' k
  | Some _ => True
  end.

Definition flush_post (err : option error) (w' : World) (s' : S) : Prop :=
  match err with None => forall k, removed w' s' k | Some _ => True end.

(** A record under [k] that was the owner's, though it may have expired. *)
Definition own (w w' : World) (s : S) (k : string) (owner : bytes) : Prop :=
  seen w w' s k (Some owner) \/ seen w w' s k None.

Definition release_post k owner (w : World) (s : S) (r : bool * option error)
    (w' : World) (s' : S) : Prop :=
  (forall k', apart (S := S) k' k -> same_key w' s s' k') /\
  match r with
  | (true, None) => own w w' s k owner /\ removed w' s' k
  | (false, None) => (exists v, v <> Some owner /\ seen w w' s k v) /\ forall k', same_key w' s s' k'
  | (released, Some _) =>
      released = false /\
      ((forall k', same_key w' s s' k') \/ (own w w' s k owner /\ removed w' s' k))
  end.

(** [n] is the number a counter read as [v] holds; a missing key counts as 0. *)
Definition counts (v : option bytes) (n : Z) : Prop :=
  match v with None => n = 0 | Some b => ParseInt (string_of_bytes b) = Some n end.

Definition increment_post grain k delta ttl (w : World) (s : S) (r : Z * option error)
    (w' : World) (s' : S) : Prop :=
  (forall k', apart (S := S) k' k -> same_key w' s s' k') /\
  match r with
  | (n, None) =>
      (exists v c, seen w w' s k v /\ counts v c /\ n = wrap64 (c + delta)) /\
      kept grain ttl w w' s' k (bytes_of_string (FormatInt n))
  | (n, Some _) => n = 0
  end.

(** To delete a key that reads as missing changes nothing. *)
Lemma delete_removed_same k key (w w' : World) s s' err :
  (key <> k -> apart (S := S) key k) -> delete_post k w s err w' s' -> removed w' s k -> same_key w' s s' key.
Proof.
  intros Ha [Hk Hr] Hs. destruct (decide (key = k)) as [->|Hne]; [|by apply Hk, Ha].
  assert (removed w' s' k -> same_key w' s s' k) by (intros Hs' t Ht; by rewrite Hs, Hs').
  destruct err; [destruct Hr; auto | auto].
Qed.

(** An operation that failed and left every key alone keeps its promise. *)
Section Unchanged.
Variables (w w' : World) (s s' : S) (e : error).
Hypothesis (Hsame : forall k', same_key w' s s' k').

Lemma set_post_same grain k v ttl : set_post grain k v ttl w s (Some e) w' s'.
Proof. split; auto. Qed.
Lemma add_post_same grain k v ttl : add_post grain k v ttl w s (false, Some e) w' s'.
Proof. split; auto. Qed.
Lemma delete_post_same k : delete_post k w s (Some e) w' s'.
Proof. split; auto. Qed.
Lemma release_post_same k owner : release_post k owner w s (false, Some e) w' s'.
Proof. split; auto. Qed.
End Unchanged.

Section Widen.
Variables (w0 w w' w1 : World) (s s' : S).
Hypotheses (Hb : later w0 w) (Ha : later w' w1).

#[local] Hint Resolve same_key_widen removed_widen seen_widen kept_widen : core.

Lemma taken_widen k : taken w w' s k -> taken w0 w1 s k.
Proof.
  intros (t & Ht & E). exists t. apply later_now in Hb, Ha. split; [lia | done].
Qed.

Lemma free_widen k : free w w' s k -> free w0 w1 s k.
Proof.
  intros (t & Ht & E). exists t. apply later_now in Hb, Ha. split; [lia | done].
Qed.

Lemma own_widen k owner : own w w' s k owner -> own w0 w1 s k owner.
Proof. intros [?|?]; [left | right]; eauto. Qed.
#[local] Hint Resolve taken_widen free_widen own_widen : core.

Lemma get_post_widen k r : get_post k w s r w' s' -> get_post k w0 s r w1 s'.
Proof. intros [Hk Hr]. split; [eauto|]. destruct r as [[b []] [e|]]; eauto. Qed.

Lemma set_post_widen grain k v ttl err :
  set_post grain k v ttl w s err w' s' -> set_post grain k v ttl w0 s err w1 s'.
Proof. intros [Hk Hr]. split; [eauto|]. destruct err; [destruct Hr|]; eauto. Qed.

Lemma add_post_widen grain k v ttl r :
  add_post grain k v ttl w s r w' s' -> add_post grain k v ttl w0 s r w1 s'.
Proof.
  intros [Hk Hr]. split; [eauto|].
  destruct r as [[] [e|]], Hr as [H1 H2]; split; eauto; destruct H2 as [?|[]]; eauto.
Qed.

Lemma delete_post_widen k err : delete_post k w s err w' s' -> delete_post k w0 s err w1 s'.
Proof. intros [Hk Hr]. split; [eauto|]. destruct err; [destruct Hr|]; eauto. Qed.

Lemma deleteMany_post_widen ks err :
  deleteMany_post ks w s err w' s' -> deleteMany_post ks w0 s err w1 s'.
Proof. intros [Hk Hr]. split; [eauto|]. destruct err; eauto. Qed.

Lemma flush_post_widen err : flush_post err w' s' -> flush_post err w1 s'.
Proof. destruct err; simpl; eauto. Qed.

Lemma release_post_widen k owner r :
  release_post k owner w s r w' s' -> release_post k owner w0 s r w1 s'.
Proof.
  intros [Hk Hr]. split; [eauto|].
  destruct r as [[] [e|]], Hr as [H1 H2]; split; eauto; [destruct H2 as [?|[]]..|]; eauto.
  destruct H1 as (v & Hv & H1). eauto.
Qed.

Lemma increment_post_widen grain k delta ttl r :
  increment_post grain k delta ttl w s r w' s' -> increment_post grain k delta ttl w0 s r w1 s'.
Proof.
  intros [Hk Hr]. split; [eauto|]. destruct r as [n [e|]]; [done|]. destruct Hr as [H1 H2]; split; eauto.
  destruct H1 as (v & c & H1 & Hc). eauto.
Qed.
End Widen.
End Contracts.

#[export] Hint Resolve same_key_refl set_post_same add_post_same delete_post_same release_post_same : go.

(** What a backend promises to the facade.  An operation that reports an error may
    have taken effect all the same, as when the answer of a remote backend is
    lost; it has no other effect.  [sc_ok] is its well-formedness
    invariant, [sc_grain] the resolution of its expiry clock. *)
Class StoreContract (S : Type) `{Store S} `{KeySpace S} := {
  sc_ok : S -> Prop;
  sc_peek : S -> Z -> string -> option bytes;
  sc_occupied : S -> Z -> string -> Prop;
  sc_grain : Z;
  sc_grain_nonneg : 0 <= sc_grain;
  sc_peek_occupied s t k b : sc_peek s t k = Some b -> sc_occupied s t k;
  sc_get ctx k w s r w' s' :
    world_ok w -> sc_ok s -> Store_Get ctx k w s = (r, w', s') ->
    later w w' /\ sc_ok s' /\ get_post sc_peek k w s r w' s';
  sc_set ctx k v ttl w s err w' s' :
    world_ok w -> sc_ok s -> ttl_ok ttl -> Store_Set ctx k v ttl w s = (err, w', s') ->
    later w w' /\ sc_ok s' /\ set_post sc_peek sc_grain k v ttl w s err w' s';
  sc_add ctx k v ttl w s r w' s' :
    world_ok w -> sc_ok s -> ttl_ok ttl -> Store_Add ctx k v ttl w s = (r, w', s') ->
    later w w' /\ sc_ok s' /\ add_post sc_peek sc_occupied sc_grain k v ttl w s r w' s';
  sc_delete ctx k w s err w' s' :
    world_ok w -> sc_ok s -> Store_Delete ctx k w s = (err, w', s') ->
    later w w' /\ sc_ok s' /\ delete_post sc_peek k w s err w' s';
  sc_deleteMany ctx ks w s err w' s' :
    world_ok w -> sc_ok s -> Store_DeleteMany ctx ks w s = (err, w', s') ->
    later w w' /\ sc_ok s' /\ deleteMany_post sc_peek ks w s err w' s';
  sc_flush ctx w s err w' s' :
    world_ok w -> sc_ok s -> Store_Flush ctx w s = (err, w', s') ->
    later w w' /\ sc_ok s' /\ flush_post sc_peek err w' s'
}.

(** The promise of a backend with the [lockStore] capability.  Ownership tokens
    bypass value shaping, so a wrapped backend has its own view of lock keys. *)
Class LockContract (S : Type) `{Store S} `{KeySpace S} := {
  lc_ops : LockStore S;
  lc_ok : S -> Prop;
  lc_lockStore s : lc_ok s -> Store_lockStore s = Some lc_ops;
  lc_peek : S -> Z -> string -> option bytes;
  lc_occupied : S -> Z -> string -> Prop;
  lc_grain : Z;
  lc_peek_occupied s t k b : lc_peek s t k = Some b -> lc_occupied s t k;
  lc_acquire ctx k owner ttl w s r w' s' :
    world_ok w -> lc_ok s -> ttl_ok ttl -> LockAcquire lc_ops ctx k owner ttl w s = (r, w', s') ->
    later w w' /\ lc_ok s' /\
    add_post lc_peek lc_occupied lc_grain k owner ttl w s r w' s';
  lc_release ctx k owner w s r w' s' :
    world_ok w -> lc_ok s -> LockRelease lc_ops ctx k owner w s = (r, w', s') ->
    later w w' /\ lc_ok s' /\ release_post lc_peek k owner w s r w' s'
}.

(** The promise about counters, which bypass value shaping as well.  After an error
    nothing is known of the counter itself: a backend may have changed its number
    and failed to renew its expiry. *)
Class CounterContract (S : Type) `{Store S} `{KeySpace S} := {
  cc_ok : S -> Prop;
  cc_peek : S -> Z -> string -> option bytes;
  cc_grain : Z;
  cc_increment ctx k delta ttl w s r w' s' :
    world_ok w -> cc_ok s -> ttl_ok ttl -> Store_Increment ctx k delta ttl w s = (r, w', s') ->
    later w w' /\ cc_ok s' /\ increment_post cc_peek cc_grain k delta ttl w s r w' s';
  cc_decrement ctx k delta ttl w s r w' s' :
    world_ok w -> cc_ok s -> ttl_ok ttl -> Store_Decrement ctx k delta ttl w s = (r, w', s') ->
    later w w' /\ cc_ok s' /\ increment_post cc_peek cc_grain k (wrap64 (- delta)) ttl w s r w' s'
}.

(** ** Consequences of the contract *)

(** A read reported a miss, or an error, but no value. *)
Definition missed (r : bytes * bool * option error) : Prop := snd (fst r) = false.

(** A read either returned [v] or reported an error. *)
Definition hit_or_error (v : bytes) (r : bytes * bool * option error) : Prop :=
  r = (v, true, None) \/ exists b e, r = (b, false, Some e).

Section ContractFacts.
Context {S : Type} `{StoreContract S}.

Lemma contract_get_stored ctx k v ttl w0 w1 w s r w' s' :
  world_ok w -> sc_ok s -> stored sc_peek sc_grain ttl w0 w1 s k v -> later w1 w ->
  Store_Get ctx k w s = (r, w', s') -> now w' <= now w0 + ttl -> hit_or_error v r.
Proof.
  intros Hw Hs (Hvis & _ & _) Hl E Hn.
  apply sc_get in E as (_ & _ & _ & Hr); [|done..].
  apply later_now in Hl.
  destruct r as [[b []] [e|]]; [done | | right; eauto |]; left;
    destruct Hr as (t & Ht & Et); rewrite Hvis in Et by lia; by simplify_eq.
Qed.

Lemma contract_get_expired ctx k v ttl w0 w1 w s r w' s' :
  world_ok w -> sc_ok s -> stored sc_peek sc_grain ttl w0 w1 s k v ->
  later w1 w -> Store_Get ctx k w s = (r, w', s') -> now w1 + ttl + sc_grain < now w -> missed r.
Proof.
  intros Hw Hs (_ & Hgone & _) Hl E Hn. apply later_now in Hl.
  apply sc_get in E as (_ & _ & _ & Hr); [|done..]. unfold missed.
  destruct r as [[b []] [e|]]; [done | | done | done].
  destruct Hr as (t & Ht & Et). rewrite Hgone in Et by lia. done.
Qed.

Lemma contract_get_removed ctx k w1 w s r w' s' :
  world_ok w -> sc_ok s -> removed sc_peek w1 s k -> later w1 w ->
  Store_Get ctx k w s = (r, w', s') -> missed r.
Proof.
  intros Hw Hs Hgone Hl E. apply later_now in Hl.
  apply sc_get in E as (_ & _ & _ & Hr); [|done..]. unfold missed.
  destruct r as [[b []] [e|]]; [done | | done | done].
  destruct Hr as (t & Ht & Et). rewrite Hgone in Et by lia. done.
Qed.
End ContractFacts.
