(* ===== verification/Transport.v ===== *)
(** * Views of one object through another

    A backend built over another object (a value of interface type over its
    dynamic value, a store that prefixes keys over a server) shows that object's
    values under its own keys.  What an operation did to the inner object is then
    what it did to the outer one. *)

From S2P Require Import Prelude CacheCore.

(** The objects [f a] show under [k] what [a] shows under [g k]; they promise no
    more: fewer keys apart and storable, a coarser clock. *)
Section Transport.
Context {A T : Type} `{KeySpace A} `{KeySpace T} (g : string -> string) (f : A -> T).
Context (peekA : A -> Z -> string -> option bytes) (peekT : T -> Z -> string -> option bytes).
Context (occA : A -> Z -> string -> Prop) (occT : T -> Z -> string -> Prop) (gA gT : Z).
Hypotheses (Hpeek : forall a t k, peekT (f a) t k = peekA a t (g k))
  (Hocc : forall a t k, occT (f a) t k <-> occA a t (g k)) (Hgrain : gA <= gT)
  (Hap : forall k' k, apart (S := T) k' k -> apart (S := A) (g k') (g k))
  (Hst : forall k ttl, storable (S := T) k ttl -> storable (S := A) (g k) ttl).

Lemma same_key_map w' s s' k : same_key peekA w' s s' (g k) -> same_key peekT w' (f s) (f s') k.
Proof. intros Hs t Ht. rewrite !Hpeek. by apply Hs. Qed.

Lemma removed_map w' s' k : removed peekA w' s' (g k) -> removed peekT w' (f s') k.
Proof. intros Hs t Ht. rewrite Hpeek. by apply Hs. Qed.

Lemma seen_map w w' s k v : seen peekA w w' s (g k) v -> seen peekT w w' (f s) k v.
Proof. intros (t & Ht & E). exists t. by rewrite Hpeek. Qed.

Lemma stored_map ttl w w' s' k v :
  stored peekA gA ttl w w' s' (g k) v -> stored peekT gT ttl w w' (f s') k v.
Proof.
  intros (H1 & H2 & H3). split; [|split].
  - intros t Ht. rewrite Hpeek. by apply H1.
  - intros t Ht Ht'. rewrite Hpeek. apply H2; lia.
  - intros t b Ht. rewrite Hpeek. by apply H3.
Qed.

Lemma kept_map ttl w w' s' k v : kept peekA gA ttl w w' s' (g k) v -> kept peekT gT ttl w w' (f s') k v.
Proof. intros Hk Hs. by apply stored_map, Hk, Hst. Qed.

Lemma free_map w w' s k : free occA w w' s (g k) -> free occT w w' (f s) k.
Proof. intros (t & Ht & Ho). exists t. by rewrite Hocc. Qed.

Lemma taken_map w w' s k : taken occA w w' s (g k) -> taken occT w w' (f s) k.
Proof. intros (t & Ht & Ho). exists t. by rewrite Hocc. Qed.

Lemma own_map w w' s k owner : own peekA w w' s (g k) owner -> own peekT w w' (f s) k owner.
Proof. intros [?|?]; [left | right]; by apply seen_map. Qed.
#[local] Hint Resolve own_map same_key_map removed_map seen_map kept_map free_map taken_map : core.

Lemma get_post_map k w s r w' s' : get_post peekA (g k) w s r w' s' -> get_post peekT k w (f s) r w' (f s').
Proof. intros [Hk Hr]. split; [auto|]. destruct r as [[b []] [e|]]; auto. Qed.

Lemma set_post_map k v ttl w s err w' s' :
  set_post peekA gA (g k) v ttl w s err w' s' -> set_post peekT gT k v ttl w (f s) err w' (f s').
Proof. intros [Hk Hr]. split; [auto|]. destruct err; [destruct Hr|]; auto. Qed.

Lemma add_post_map k v ttl w s r w' s' :
  add_post peekA occA gA (g k) v ttl w s r w' s' -> add_post peekT occT gT k v ttl w (f s) r w' (f s').
Proof.
  intros [Hk Hr]. split; [auto|].
  destruct r as [[] [e|]], Hr as [H1 H2]; split; auto; destruct H2 as [?|[]]; auto.
Qed.

Lemma delete_post_map k w s err w' s' :
  delete_post peekA (g k) w s err w' s' -> delete_post peekT k w (f s) err w' (f s').
Proof. intros [Hk Hr]. split; [auto|]. destruct err; [destruct Hr|]; auto. Qed.

Lemma deleteMany_post_map ks w s err w' s' :
  deleteMany_post peekA (g <$> ks) w s err w' s' -> deleteMany_post peekT ks w (f s) err w' (f s').
Proof.
  intros [Hk Hr]. split.
  - intros k' Hk'. apply same_key_map, Hk. intros k (k0 & -> & Hin)%list_elem_of_fmap. auto.
  - destruct err; [done|]. intros k Hin. apply removed_map, Hr. by apply list_elem_of_fmap_2.
Qed.

Lemma flush_post_map err w' s' :
  match err with None => forall k, removed peekA w' s' (g k) | Some _ => True end ->
  flush_post peekT err w' (f s').
Proof. destruct err; simpl; auto. Qed.

Lemma release_post_map k owner w s r w' s' :
  release_post peekA (g k) owner w s r w' s' -> release_post peekT k owner w (f s) r w' (f s').
Proof.
  intros [Hk Hr]. split; [auto|].
  destruct r as [[] [e|]], Hr as [H1 H2]; split; auto; [destruct H2 as [?|[]]; auto..|].
  destruct H1 as (v & Hv & H1). eauto.
Qed.

Lemma increment_post_map k delta ttl w s r w' s' :
  increment_post peekA gA (g k) delta ttl w s r w' s' ->
  increment_post peekT gT k delta ttl w (f s) r w' (f s').
Proof.
  intros [Hk Hr]. split; [auto|]. destruct r as [n [e|]]; [done|]. destruct Hr as [(v & c & H1 & Hc) H2].
  split; eauto.
Qed.
End Transport.
