(* ===== verification/InspectHelpers.v ===== *)
(** * cachecore/inspect_helpers.go: cursors, filtering and pagination

    Every backend's [ListPage] ends with the same three helpers: filter and
    sort the entries, decode the cursor, slice one page.  The theorems say that
    cursors round-trip, that a page never exceeds the normalised limit, that the
    listing is the sorted sublist of matching entries, and that a client which
    follows [NextCursor] visits every entry exactly once, in order, and stops. *)

From S2P Require Import Prelude GoStd CacheCore.
From stdpp Require Import sorting.
#[local] Open Scope Z_scope.

(** ** Definitions *)

Definition NormalizeListLimit (limit : Z) : Z :=
  if limit <=? 0 then 100 else if limit >? 500 then 500 else limit.

(** The verb [%q] of [fmt]; the text of an error is not inspected by the code. *)
Definition quoted (s : string) : string :=
  let q := String (Ascii.ascii_of_nat 34) EmptyString in q +:+ s +:+ q.

Definition DecodeOffsetCursor (cursor : string) : Z * option error :=
  let cursor := TrimSpace cursor in
  if decide (cursor = EmptyString) then (0, None)
  else match Atoi cursor with
       | Some offset =>
           if offset <? 0 then (0, Some (ErrorString ("invalid cache list cursor " +:+ quoted cursor)))
           else (offset, None)
       | None => (0, Some (ErrorString ("invalid cache list cursor " +:+ quoted cursor)))
       end.

Definition EncodeOffsetCursor (offset : Z) : string :=
  if offset <=? 0 then EmptyString else Itoa offset.

Definition ListFilterTerm (opts : ListPageOptions) : string :=
  let query := TrimSpace (opt_Query opts) in
  if decide (query <> EmptyString) then query else TrimSpace (opt_Prefix opts).

(** Go's [<=] on strings: lexicographic on bytes. *)
Fixpoint bytesLeb (a b : bytes) : bool :=
  match a, b with
  | [], _ => true
  | _ :: _, [] => false
  | x :: a', y :: b' =>
      (byte_to_Z x <? byte_to_Z y) || ((byte_to_Z x =? byte_to_Z y) && bytesLeb a' b')
  end.

Definition key_le (e1 e2 : CacheEntry) : Prop :=
  bytesLeb (bytes_of_string (Key e1)) (bytes_of_string (Key e2)) = true.

#[global] Instance key_le_dec e1 e2 : Decision (key_le e1 e2).
Proof. unfold key_le. apply _. Defined.

(** The loop that keeps the matching entries. *)
Fixpoint filterEntries (filter : string) (entries : list CacheEntry) : list CacheEntry :=
  match entries with
  | [] => []
  | entry :: rest =>
      if bool_decide (filter <> EmptyString) && negb (Contains (Key entry) filter)
      then filterEntries filter rest
      else entry :: filterEntries filter rest
  end.

(** [sort.Slice] by key is the merge sort of the keys; entries of one listing
    have distinct keys, so the order among equal keys does not arise. *)
Definition FilterAndSortEntries (entries : list CacheEntry) (filter : string) : list CacheEntry :=
  merge_sort key_le (filterEntries (TrimSpace filter) entries).

Definition SliceEntries (entries : list CacheEntry) (offset limit : Z) : ListPageResult :=
  let limit := NormalizeListLimit limit in
  let offset := if offset <? 0 then 0 else offset in
  let offset := if offset >? len entries then len entries else offset in
  let end_ := offset + limit in
  let end_ := if end_ >? len entries then len entries else end_ in
  let hasMore := end_ <? len entries in
  mkListPageResult (take (Z.to_nat (end_ - offset)) (drop (Z.to_nat offset) entries))
    (if hasMore then EncodeOffsetCursor end_ else EmptyString) hasMore.

(** The common tail of the backends' [ListPage]. *)
Definition pageOf (entries : list CacheEntry) (opts : ListPageOptions) : ListPageResult * option error :=
  let filtered := FilterAndSortEntries entries (ListFilterTerm opts) in
  match DecodeOffsetCursor (opt_Cursor opts) with
  | (_, Some err) => (emptyListPageResult, Some err)
  | (offset, None) => (SliceEntries filtered offset (opt_Limit opts), None)
  end.

(** A client that follows [NextCursor] until [HasMore] is false, as
    [cachetest.RunInspectorContract] does; [None] when [fuel] runs out or a
    cursor is refused. *)
Fixpoint listAll (fuel : nat) (entries : list CacheEntry) (limit : Z) (cursor : string)
    : option (list CacheEntry) :=
  match fuel with
  | O => None
  | S fuel =>
      match DecodeOffsetCursor cursor with
      | (_, Some _) => None
      | (offset, None) =>
          let page := SliceEntries entries offset limit in
          if HasMore page
          then rest ← listAll fuel entries limit (NextCursor page); Some (Entries page ++ rest)
          else Some (Entries page)
      end
  end.

(** ** Limits and cursors *)

Lemma NormalizeListLimit_range limit : 1 <= NormalizeListLimit limit <= 500.
Proof.
  unfold NormalizeListLimit. destruct (Z.leb_spec limit 0); [lia|].
  destruct (Z.gtb_spec limit 500); lia.
Qed.

Lemma DecodeOffsetCursor_Itoa n :
  0 <= n <= int64_max -> DecodeOffsetCursor (Itoa n) = (n, None).
Proof.
  intros H. unfold DecodeOffsetCursor, Itoa, Atoi. rewrite TrimSpace_FormatInt.
  rewrite decide_False by apply FormatInt_not_empty.
  rewrite ParseInt_FormatInt by (unfold in_int64, int64_min in *; lia).
  by destruct (Z.ltb_spec n 0); [lia|].
Qed.

Lemma DecodeOffsetCursor_empty : DecodeOffsetCursor EmptyString = (0, None).
Proof. reflexivity. Qed.

Lemma DecodeOffsetCursor_Encode n :
  n <= int64_max -> DecodeOffsetCursor (EncodeOffsetCursor n) = (Z.max 0 n, None).
Proof.
  intros H. unfold EncodeOffsetCursor. destruct (Z.leb_spec n 0).
  - rewrite DecodeOffsetCursor_empty. f_equal. lia.
  - rewrite DecodeOffsetCursor_Itoa by lia. f_equal. lia.
Qed.

(** A decoded offset is a non-negative [int], whatever the client sent. *)
Lemma DecodeOffsetCursor_range cursor offset err :
  DecodeOffsetCursor cursor = (offset, err) -> 0 <= offset <= int64_max.
Proof.
  unfold DecodeOffsetCursor, Atoi. destruct (decide _); [intros; simplify_eq; done|].
  destruct (ParseInt _) as [v|] eqn:E; [|intros; simplify_eq; done].
  apply ParseInt_range in E. unfold in_int64 in E.
  destruct (Z.ltb_spec v 0); intros; simplify_eq; unfold int64_max in *; lia.
Qed.

(** ** Filtering and sorting *)

Lemma bytesLeb_total a b : bytesLeb a b = true \/ bytesLeb b a = true.
Proof.
  revert b. induction a as [|x a IH]; intros [|y b]; simpl; auto.
  rewrite !orb_true_iff, !andb_true_iff, !Z.ltb_lt, !Z.eqb_eq.
  destruct (Z.lt_trichotomy (byte_to_Z x) (byte_to_Z y)) as [?|[?|?]], (IH b); auto with lia.
Qed.

Lemma bytesLeb_trans a b c : bytesLeb a b = true -> bytesLeb b c = true -> bytesLeb a c = true.
Proof.
  revert b c. induction a as [|x a IH]; intros [|y b] [|z c]; simpl; try done.
  rewrite !orb_true_iff, !andb_true_iff, !Z.ltb_lt, !Z.eqb_eq.
  intros [?|[? H1]] [?|[? H2]]; [lia..|]. right. split; [lia|]. eauto.
Qed.

#[global] Instance key_le_total : Total key_le.
Proof. intros a b. apply bytesLeb_total. Qed.

#[global] Instance key_le_trans : Transitive key_le.
Proof. intros a b c. apply bytesLeb_trans. Qed.

Definition matches (filter : string) (e : CacheEntry) : Prop :=
  filter = EmptyString \/ Contains (Key e) filter = true.

#[global] Instance matches_dec filter e : Decision (matches filter e).
Proof. unfold matches. apply _. Defined.

Lemma filterEntries_filter f entries : filterEntries f entries = filter (matches f) entries.
Proof.
  induction entries as [|e entries IH]; [done|]. cbn [filterEntries].
  rewrite filter_cons, IH. destruct (decide (matches f e)) as [H|H].
  - destruct H as [->|H]; [done|]. by rewrite H, andb_false_r.
  - rewrite bool_decide_eq_true_2 by (intros ->; apply H; by left).
    destruct (Contains (Key e) f) eqn:E; [|done]. exfalso. apply H. by right.
Qed.

Lemma FilterAndSortEntries_spec entries term :
  StronglySorted key_le (FilterAndSortEntries entries term) /\
  FilterAndSortEntries entries term ≡ₚ filter (matches (TrimSpace term)) entries.
Proof.
  unfold FilterAndSortEntries. rewrite filterEntries_filter. split.
  - apply StronglySorted_merge_sort; apply _.
  - apply merge_sort_Permutation.
Qed.

Lemma bytesLeb_antisym a b : bytesLeb a b = true -> bytesLeb b a = true -> a = b.
Proof.
  revert b. induction a as [|x a IH]; intros [|y b]; simpl; try done.
  rewrite !orb_true_iff, !andb_true_iff, !Z.ltb_lt, !Z.eqb_eq.
  intros [?|[? H1]] [?|[? H2]]; [lia..|]. f_equal; [by apply byte_to_Z_inj | eauto].
Qed.

Lemma NoDup_key_inj (l : list CacheEntry) e1 e2 :
  NoDup (map Key l) -> e1 ∈ l -> e2 ∈ l -> Key e1 = Key e2 -> e1 = e2.
Proof.
  intros Hn H1 H2 E. apply list_elem_of_lookup in H1 as [i Hi], H2 as [j Hj].
  assert (i = j) as ->; [|congruence].
  eapply (NoDup_lookup (Key <$> l)); [exact Hn | |]; rewrite list_lookup_fmap, ?Hi, ?Hj; simpl; by f_equal.
Qed.

(** A listing is deterministic: from the same set of entries with distinct
    keys, in whatever order the backend enumerates them (a Go map's order
    differs between calls), the result is the same list, the entries whose key
    contains the trimmed term, or all of them when it is blank, in ascending
    byte order of their keys. *)
Theorem FilterAndSortEntries_deterministic entries entries' term :
  NoDup (map Key entries) -> entries ≡ₚ entries' ->
  FilterAndSortEntries entries term = FilterAndSortEntries entries' term /\
  StronglySorted key_le (FilterAndSortEntries entries term) /\
  FilterAndSortEntries entries term ≡ₚ filter (matches (TrimSpace term)) entries.
Proof.
  intros Hn Hp. destruct (FilterAndSortEntries_spec entries term) as [Hs1 Hp1].
  destruct (FilterAndSortEntries_spec entries' term) as [Hs2 Hp2]. split; [|done].
  apply (StronglySorted_unique_strong key_le); [|done|done|by rewrite Hp1, Hp2, Hp].
  intros e1 e2 H1 H2 L1 L2. apply (NoDup_key_inj entries); [done| | |].
  - rewrite Hp1 in H1. by apply list_elem_of_filter in H1 as [_ ?].
  - rewrite Hp2 in H2. apply list_elem_of_filter in H2 as [_ ?]. by rewrite Hp.
  - apply (inj bytes_of_string), bytesLeb_antisym; [exact L1 | exact L2].
Qed.

Lemma FilterAndSortEntries_deterministic_witness :
  FilterAndSortEntries [mkCacheEntry "b:2" 1 None; mkCacheEntry "a:1" 5 None] " :" =
  FilterAndSortEntries [mkCacheEntry "a:1" 5 None; mkCacheEntry "b:2" 1 None] " :".
Proof.
  refine (proj1 (FilterAndSortEntries_deterministic _ _ " :" _ _)).
  - refine (bool_decide_unpack _ _). reflexivity.
  - apply Permutation_swap.
Defined.

(** ** Pagination *)

Lemma SliceEntries_in_range entries offset limit :
  0 <= offset <= len entries ->
  let e := Z.min (offset + NormalizeListLimit limit) (len entries) in
  SliceEntries entries offset limit =
  mkListPageResult (take (Z.to_nat (e - offset)) (drop (Z.to_nat offset) entries))
    (if e <? len entries then EncodeOffsetCursor e else EmptyString) (e <? len entries).
Proof.
  intros H e. unfold SliceEntries. destruct (Z.ltb_spec offset 0); [lia|].
  destruct (Z.gtb_spec offset (len entries)); [lia|].
  replace (if offset + NormalizeListLimit limit >? len entries then len entries
           else offset + NormalizeListLimit limit) with e; [done|].
  unfold e. destruct (Z.gtb_spec (offset + NormalizeListLimit limit) (len entries)); lia.
Qed.

(** A page holds at most the normalised limit of entries (at most 500), for
    any offset and limit, even negative or past the end. *)
Theorem SliceEntries_bounded entries offset limit :
  len (Entries (SliceEntries entries offset limit)) <= NormalizeListLimit limit <= 500.
Proof.
  pose proof (NormalizeListLimit_range limit). split; [|lia].
  unfold SliceEntries. cbn [Entries]. cbv zeta.
  match goal with |- context [drop (Z.to_nat ?x) _] => generalize x; intros o end.
  unfold len at 1. rewrite length_take.
  destruct (Z.gtb_spec (o + NormalizeListLimit limit) (len entries)); lia.
Qed.

Lemma listAll_from fuel entries limit offset :
  len entries <= int64_max -> 0 <= offset <= len entries ->
  (length entries - Z.to_nat offset < fuel)%nat ->
  forall cursor, DecodeOffsetCursor cursor = (offset, None) ->
  listAll fuel entries limit cursor = Some (drop (Z.to_nat offset) entries).
Proof.
  revert offset. induction fuel as [|fuel IH]; intros offset Hlen Ho Hf cursor Hc; [lia|].
  cbn [listAll]. rewrite Hc, SliceEntries_in_range by done. cbn [HasMore Entries NextCursor].
  pose proof (NormalizeListLimit_range limit) as HL.
  set (e := Z.min (offset + NormalizeListLimit limit) (len entries)) in *.
  destruct (Z.ltb_spec e (len entries)) as [Hlt|Hge].
  - rewrite (IH e); [| done | unfold len in *; lia | unfold len in *; lia |].
    + simpl. f_equal.
      rewrite <- (take_drop (Z.to_nat (e - offset)) (drop (Z.to_nat offset) entries)) at 2.
      f_equal. rewrite drop_drop. f_equal. lia.
    + rewrite DecodeOffsetCursor_Encode by lia. f_equal. lia.
  - f_equal. apply take_ge. rewrite length_drop. unfold len in *. lia.
Qed.

(** C18: following [NextCursor] from the first page visits every entry of the
    listing exactly once and in order, and stops, for every requested limit; a
    number of requests above the number of entries is always enough. *)
Theorem listAll_complete entries limit :
  len entries <= int64_max ->
  listAll (S (length entries)) entries limit EmptyString = Some entries.
Proof.
  intros H. rewrite (listAll_from _ _ _ 0); [done | done | unfold len; lia | lia |].
  apply DecodeOffsetCursor_empty.
Qed.

Definition sample_entries : list CacheEntry :=
  [mkCacheEntry "page/a" 5 (Some 60000); mkCacheEntry "page/b" 5 None; mkCacheEntry "page/c" 7 None].

Lemma listAll_complete_witness :
  len sample_entries <= int64_max /\
  listAll 4 sample_entries 2 EmptyString = Some sample_entries /\
  HasMore (SliceEntries sample_entries 0 2) = true.
Proof.
  split; [vm_compute; discriminate|]. split; [|reflexivity].
  apply (listAll_complete sample_entries 2). vm_compute; discriminate.
Defined.

(** A cursor produced for an offset decodes to that offset, so a listing
    resumes where the previous page stopped. *)
Theorem cursor_roundtrip n :
  0 <= n <= int64_max -> DecodeOffsetCursor (EncodeOffsetCursor n) = (n, None).
Proof. intros H. rewrite DecodeOffsetCursor_Encode by lia. f_equal. lia. Qed.

Lemma cursor_roundtrip_witness :
  0 <= 102 <= int64_max /\ DecodeOffsetCursor (EncodeOffsetCursor 102) = (102, None).
Proof.
  split; [vm_compute; split; discriminate|].
  apply (cursor_roundtrip 102). vm_compute; split; discriminate.
Defined.
