(* ===== verification/Shaping.v ===== *)
(** * cachecore/shaping.go: size limits, compression and encryption envelopes

    [shapingStore] and [encryptingStore] decorate a backend, [failingStore]
    reports a configuration error from every operation, and [WrapStore] chooses
    between them.  Gzip and AES-GCM are parameters ([Gzip], [Crypto]); what the
    code relies on are the laws [GzipLaws] and [CryptoLaws]. *)

From S2P Require Import Prelude GoStd CacheCore.

(** ** Parameters: compress/gzip, crypto/aes, crypto/cipher *)

(** [gzip_Write v]: the bytes a [gzip.Writer] leaves in the buffer after
    [Write(v)] and [Close()], or the first error of [NewWriterLevel], [Write],
    [Close].  [gzip_NewReader p]: whether [gzip.NewReader] accepts the header of
    [p].  [gzip_ReadAll lim p]: [io.ReadAll] of that reader, behind
    [io.LimitReader(_, n)] when [lim = Some n]. *)
Class Gzip := {
  gzip_Write : bytes -> bytes + error;
  gzip_NewReader : bytes -> bool;
  gzip_ReadAll : option Z -> bytes -> bytes + error
}.

Definition limited (lim : option Z) (v : bytes) : bytes :=
  match lim with None => v | Some n => take (Z.to_nat n) v end.

Class GzipLaws `{Gzip} := {
  gzip_roundtrip v p lim :
    gzip_Write v = inl p -> gzip_NewReader p = true /\ gzip_ReadAll lim p = inl (limited lim v);
  gzip_LimitReader n p b : 0 <= n -> gzip_ReadAll (Some n) p = inl b -> len b <= n
}.

(** [cipher.AEAD] *)
Record AEAD := mkAEAD {
  NonceSize : nat;
  Seal : bytes -> bytes -> bytes;
  Open : bytes -> bytes -> option bytes
}.

(** [aes_NewCipher key]: [aes.NewCipher] accepts the key; [cipher_NewGCM key]:
    [cipher.NewGCM] of that block cipher. *)
Class Crypto := {
  aes_NewCipher : bytes -> bool;
  cipher_NewGCM : bytes -> AEAD + error
}.

Class CryptoLaws `{Crypto} := {
  aes_key_size key : aes_NewCipher key = true <-> len key = 16 \/ len key = 24 \/ len key = 32;
  gcm_of_aes key : aes_NewCipher key = true -> exists a, cipher_NewGCM key = inl a;
  gcm_nonce key a : cipher_NewGCM key = inl a -> NonceSize a = 12%nat;
  gcm_open_seal key a nonce plain :
    cipher_NewGCM key = inl a -> length nonce = NonceSize a ->
    Open a nonce (Seal a nonce plain) = Some plain
}.

(** ** Envelopes *)

Definition compressionMagic : bytes := bytes_of_string "CMP1".
Definition encryptionMagic : bytes := bytes_of_string "ENC1".

Section Envelopes.
Context `{Gzip} `{Crypto}.

Definition encodeValue (codec : string) (max : Z) (value : bytes) : bytes + error :=
  if (max >? 0) && (len value >? max) then inr ErrValueTooLarge
  else if decide (codec = CompressionNone) then inl value
  else if decide (codec = CompressionGzip) then
    match gzip_Write value with
    | inr err => inr err
    | inl z =>
        let encoded := compressionMagic ++ [x67] ++ z in
        if (max >? 0) && (len encoded >? max) then inr ErrValueTooLarge else inl encoded
    end
  else inr ErrUnsupportedCodec.

(** [len(body) < len(magic)+1 || !bytes.Equal(body[:len(magic)], magic)] *)
Definition unmarked (magic body : bytes) : bool :=
  (len body <? len magic + 1) || negb (bool_decide (take (length magic) body = magic)).

Definition decodeValue (body : bytes) (max : Z) : bytes + error :=
  if (max >? 0) && (len body >? max) then inr ErrValueTooLarge
  else if unmarked compressionMagic body then inl body
  else
    let payload := drop (length compressionMagic + 1) body in
    match nth (length compressionMagic) body x00 with
    | x67 =>
        if negb (gzip_NewReader payload) then inr ErrCorruptCompression
        else
          let limit := if max <? 9223372036854775807 then max + 1 else max in
          match gzip_ReadAll (if max >? 0 then Some limit else None) payload with
          | inr _ => inr ErrCorruptCompression
          | inl decoded =>
              if (max >? 0) && (len decoded >? max) then inr ErrValueTooLarge else inl decoded
          end
    | _ => inr ErrUnsupportedCodec
    end.

Definition encrypt {S} (aead : AEAD) (plain : bytes) : M S (bytes + error) :=
  let* r := readRandom (NonceSize aead) in
  match r with
  | inr err => ret (inr err)
  | inl nonce =>
      let ciphertext := Seal aead nonce plain in
      ret (inl (encryptionMagic ++ [byte_of_Z (len nonce)] ++ nonce ++ ciphertext))
  end.

Definition decrypt (aead : AEAD) (body : bytes) : bytes + error :=
  if unmarked encryptionMagic body then inl body
  else
    let nonceLen := byte_to_Z (nth (length encryptionMagic) body x00) in
    let offset := len encryptionMagic + 1 in
    if negb (nonceLen =? Z.of_nat (NonceSize aead)) || (nonceLen >? len body - offset)
    then inr ErrDecryptFailed
    else
      let nonce := take (Z.to_nat nonceLen) (drop (Z.to_nat offset) body) in
      let ciphertext := drop (Z.to_nat (offset + nonceLen)) body in
      match Open aead nonce ciphertext with
      | None => inr ErrDecryptFailed
      | Some plain => inl plain
      end.
End Envelopes.

(** ** shapingStore *)

Record shapingStore (S : Type) := mkShapingStore {
  ss_inner : S; ss_codec : string; ss_max : Z
}.
Arguments mkShapingStore {S}.
Arguments ss_inner {S}.
Arguments ss_codec {S}.
Arguments ss_max {S}.

Section ShapingStore.
Context {S : Type} `{Store S} `{Gzip}.

(** A call [s.inner.Op(...)]. *)
Definition ss_call {A} (m : M S A) : M (shapingStore S) A :=
  zoom ss_inner (fun i s => mkShapingStore i (ss_codec s) (ss_max s)) m.

Definition shapingStore_Driver (s : shapingStore S) : string := Store_Driver (ss_inner s).

Definition shapingStore_Ready (ctx : Context) : M (shapingStore S) (option error) :=
  ss_call (Store_Ready ctx).

Definition shapingStore_Get (ctx : Context) (key : string)
    : M (shapingStore S) (bytes * bool * option error) :=
  let* s := get in
  let* (body, ok, err) := ss_call (Store_Get ctx key) in
  if negb (noErr err) || negb ok then ret (body, ok, err)
  else match decodeValue body (ss_max s) with
       | inr e => ret ([], false, Some e)
       | inl decoded => ret (decoded, true, None)
       end.

Definition shapingStore_Set (ctx : Context) (key : string) (value : bytes) (ttl : Z)
    : M (shapingStore S) (option error) :=
  let* s := get in
  match encodeValue (ss_codec s) (ss_max s) value with
  | inr err => ret (Some err)
  | inl encoded => ss_call (Store_Set ctx key encoded ttl)
  end.

Definition shapingStore_Add (ctx : Context) (key : string) (value : bytes) (ttl : Z)
    : M (shapingStore S) (bool * option error) :=
  let* s := get in
  match encodeValue (ss_codec s) (ss_max s) value with
  | inr err => ret (false, Some err)
  | inl encoded => ss_call (Store_Add ctx key encoded ttl)
  end.

Definition shapingStore_LockAcquire (ctx : Context) (key : string) (owner : bytes) (ttl : Z)
    : M (shapingStore S) (bool * option error) :=
  let* s := get in
  match Store_lockStore (ss_inner s) with
  | None => ss_call (Store_Add ctx key owner ttl)
  | Some store => ss_call (LockAcquire store ctx key owner ttl)
  end.

Definition shapingStore_LockRelease (ctx : Context) (key : string) (owner : bytes)
    : M (shapingStore S) (bool * option error) :=
  let* s := get in
  match Store_lockStore (ss_inner s) with
  | None =>
      let* err := ss_call (Store_Delete ctx key) in
      match err with Some e => ret (false, Some e) | None => ret (true, None) end
  | Some store => ss_call (LockRelease store ctx key owner)
  end.

Definition shapingStore_Increment ctx key delta ttl : M (shapingStore S) (Z * option error) :=
  ss_call (Store_Increment ctx key delta ttl).
Definition shapingStore_Decrement ctx key delta ttl : M (shapingStore S) (Z * option error) :=
  ss_call (Store_Decrement ctx key delta ttl).
Definition shapingStore_Delete ctx key : M (shapingStore S) (option error) :=
  ss_call (Store_Delete ctx key).
Definition shapingStore_DeleteMany ctx keys : M (shapingStore S) (option error) :=
  ss_call (Store_DeleteMany ctx keys).
Definition shapingStore_Flush ctx : M (shapingStore S) (option error) :=
  ss_call (Store_Flush ctx).

Definition shapingStore_Capabilities (s : shapingStore S) : InspectorCapabilities :=
  match Store_Inspector (ss_inner s) with
  | None => noCapabilities
  | Some i => Capabilities i (ss_inner s)
  end.

Definition shapingStore_ListPage (ctx : Context) (opts : ListPageOptions)
    : M (shapingStore S) (ListPageResult * option error) :=
  let* s := get in
  match Store_Inspector (ss_inner s) with
  | None => ret (emptyListPageResult, Some ErrInspectorUnsupported)
  | Some i => ss_call (ListPage i ctx opts)
  end.

#[export] Instance shapingStore_Store : Store (shapingStore S) := {|
  Store_Driver := shapingStore_Driver;
  Store_Ready := shapingStore_Ready;
  Store_Get := shapingStore_Get;
  Store_Set := shapingStore_Set;
  Store_Add := shapingStore_Add;
  Store_Increment := shapingStore_Increment;
  Store_Decrement := shapingStore_Decrement;
  Store_Delete := shapingStore_Delete;
  Store_DeleteMany := shapingStore_DeleteMany;
  Store_Flush := shapingStore_Flush;
  Store_lockStore := fun _ => Some (mkLockStore _ shapingStore_LockAcquire shapingStore_LockRelease);
  Store_Inspector := fun _ => Some (mkInspector _ shapingStore_Capabilities shapingStore_ListPage)
|}.
End ShapingStore.

(** ** encryptingStore *)

Record encryptingStore (S : Type) := mkEncryptingStore { es_inner : S; es_aead : AEAD }.
Arguments mkEncryptingStore {S}.
Arguments es_inner {S}.
Arguments es_aead {S}.

Definition newEncryptingStore {S} `{Crypto} (inner : S) (key : bytes) : encryptingStore S + error :=
  if negb (aes_NewCipher key) then inr ErrEncryptionKey
  else match cipher_NewGCM key with
       | inr err => inr err
       | inl aead => inl (mkEncryptingStore inner aead)
       end.

Section EncryptingStore.
Context {S : Type} `{Store S}.

Definition es_call {A} (m : M S A) : M (encryptingStore S) A :=
  zoom es_inner (fun i s => mkEncryptingStore i (es_aead s)) m.

Definition encryptingStore_Driver (s : encryptingStore S) : string := Store_Driver (es_inner s).

Definition encryptingStore_Ready (ctx : Context) : M (encryptingStore S) (option error) :=
  es_call (Store_Ready ctx).

Definition encryptingStore_Get (ctx : Context) (key : string)
    : M (encryptingStore S) (bytes * bool * option error) :=
  let* s := get in
  let* (body, ok, err) := es_call (Store_Get ctx key) in
  if negb (noErr err) || negb ok then ret (body, ok, err)
  else match decrypt (es_aead s) body with
       | inr e => ret ([], false, Some e)
       | inl plain => ret (plain, true, None)
       end.

Definition encryptingStore_Set (ctx : Context) (key : string) (value : bytes) (ttl : Z)
    : M (encryptingStore S) (option error) :=
  let* s := get in
  let* r := encrypt (es_aead s) value in
  match r with
  | inr err => ret (Some err)
  | inl encoded => es_call (Store_Set ctx key encoded ttl)
  end.

Definition encryptingStore_Add (ctx : Context) (key : string) (value : bytes) (ttl : Z)
    : M (encryptingStore S) (bool * option error) :=
  let* s := get in
  let* r := encrypt (es_aead s) value in
  match r with
  | inr err => ret (false, Some err)
  | inl encoded => es_call (Store_Add ctx key encoded ttl)
  end.

Definition encryptingStore_LockAcquire (ctx : Context) (key : string) (owner : bytes) (ttl : Z)
    : M (encryptingStore S) (bool * option error) :=
  let* s := get in
  match Store_lockStore (es_inner s) with
  | None => es_call (Store_Add ctx key owner ttl)
  | Some store => es_call (LockAcquire store ctx key owner ttl)
  end.

Definition encryptingStore_LockRelease (ctx : Context) (key : string) (owner : bytes)
    : M (encryptingStore S) (bool * option error) :=
  let* s := get in
  match Store_lockStore (es_inner s) with
  | None =>
      let* err := es_call (Store_Delete ctx key) in
      match err with Some e => ret (false, Some e) | None => ret (true, None) end
  | Some store => es_call (LockRelease store ctx key owner)
  end.

Definition encryptingStore_Increment ctx key delta ttl : M (encryptingStore S) (Z * option error) :=
  es_call (Store_Increment ctx key delta ttl).
Definition encryptingStore_Decrement ctx key delta ttl : M (encryptingStore S) (Z * option error) :=
  es_call (Store_Decrement ctx key delta ttl).
Definition encryptingStore_Delete ctx key : M (encryptingStore S) (option error) :=
  es_call (Store_Delete ctx key).
Definition encryptingStore_DeleteMany ctx keys : M (encryptingStore S) (option error) :=
  es_call (Store_DeleteMany ctx keys).
Definition encryptingStore_Flush ctx : M (encryptingStore S) (option error) :=
  es_call (Store_Flush ctx).

Definition encryptingStore_Capabilities (s : encryptingStore S) : InspectorCapabilities :=
  match Store_Inspector (es_inner s) with
  | None => noCapabilities
  | Some i => Capabilities i (es_inner s)
  end.

Definition encryptingStore_ListPage (ctx : Context) (opts : ListPageOptions)
    : M (encryptingStore S) (ListPageResult * option error) :=
  let* s := get in
  match Store_Inspector (es_inner s) with
  | None => ret (emptyListPageResult, Some ErrInspectorUnsupported)
  | Some i => es_call (ListPage i ctx opts)
  end.

#[export] Instance encryptingStore_Store : Store (encryptingStore S) := {|
  Store_Driver := encryptingStore_Driver;
  Store_Ready := encryptingStore_Ready;
  Store_Get := encryptingStore_Get;
  Store_Set := encryptingStore_Set;
  Store_Add := encryptingStore_Add;
  Store_Increment := encryptingStore_Increment;
  Store_Decrement := encryptingStore_Decrement;
  Store_Delete := encryptingStore_Delete;
  Store_DeleteMany := encryptingStore_DeleteMany;
  Store_Flush := encryptingStore_Flush;
  Store_lockStore := fun _ => Some (mkLockStore _ encryptingStore_LockAcquire encryptingStore_LockRelease);
  Store_Inspector := fun _ => Some (mkInspector _ encryptingStore_Capabilities encryptingStore_ListPage)
|}.
End EncryptingStore.

(** ** failingStore

    It has [LockAcquire] and [LockRelease] but no [Capabilities] and
    [ListPage], so it is a [lockStore] and not an [Inspector]. *)

Record failingStore := mkFailingStore { fs_driver : string; fs_err : error }.

Definition failing {A} (zero : A) : M failingStore (A * option error) :=
  fun w s => ((zero, Some (fs_err s)), w, s).

Definition failingErr : M failingStore (option error) :=
  fun w s => (Some (fs_err s), w, s).

#[export] Instance failingStore_Store : Store failingStore := {|
  Store_Driver := fs_driver;
  Store_Ready := fun _ => failingErr;
  Store_Get := fun _ _ => failing ([], false);
  Store_Set := fun _ _ _ _ => failingErr;
  Store_Add := fun _ _ _ _ => failing false;
  Store_Increment := fun _ _ _ _ => failing 0;
  Store_Decrement := fun _ _ _ _ => failing 0;
  Store_Delete := fun _ _ => failingErr;
  Store_DeleteMany := fun _ _ => failingErr;
  Store_Flush := fun _ => failingErr;
  Store_lockStore := fun _ => Some (mkLockStore _ (fun _ _ _ _ => failing false) (fun _ _ _ => failing false));
  Store_Inspector := fun _ => None
|}.

(** ** WrapStore *)

Definition ValidateBaseConfig (cfg : BaseConfig) : option error :=
  if MaxValueBytes cfg <? 0 then Some ErrInvalidMaxValueBytes
  else
    let codec := Compression cfg in
    if bool_decide (codec <> EmptyString) && bool_decide (codec <> CompressionNone)
       && bool_decide (codec <> CompressionGzip)
    then Some ErrUnsupportedCodec
    else
      let size := len (EncryptionKey cfg) in
      if negb (size =? 0) && negb (size =? 16) && negb (size =? 24) && negb (size =? 32)
      then Some ErrEncryptionKey
      else None.

(** The dynamic types of the [Store] value that [WrapStore] returns. *)
Inductive wrappedStore (S : Type) : Type :=
| Plain (s : S)
| Shaping (s : shapingStore S)
| Encrypting (s : encryptingStore S)
| EncryptingShaping (s : encryptingStore (shapingStore S))
| Failing (s : failingStore).
Arguments Plain {S}.
Arguments Shaping {S}.
Arguments Encrypting {S}.
Arguments EncryptingShaping {S}.
Arguments Failing {S}.

Definition WrapStore {S} `{Store S} `{Crypto} (store : S) (cfg : BaseConfig)
    : wrappedStore S * option error :=
  match ValidateBaseConfig cfg with
  | Some err => (Failing (mkFailingStore (Store_Driver store) err), Some err)
  | None =>
      let codec := Compression cfg in
      let codec := if decide (codec = EmptyString) then CompressionNone else codec in
      if bool_decide (codec <> CompressionNone) || (MaxValueBytes cfg >? 0) then
        let wrapped := mkShapingStore store codec (MaxValueBytes cfg) in
        if len (EncryptionKey cfg) >? 0 then
          match newEncryptingStore wrapped (EncryptionKey cfg) with
          | inr err => (Failing (mkFailingStore (Store_Driver store) err), Some err)
          | inl encrypted => (EncryptingShaping encrypted, None)
          end
        else (Shaping wrapped, None)
      else
        if len (EncryptionKey cfg) >? 0 then
          match newEncryptingStore store (EncryptionKey cfg) with
          | inr err => (Failing (mkFailingStore (Store_Driver store) err), Some err)
          | inl encrypted => (Encrypting encrypted, None)
          end
        else (Plain store, None)
  end.

(** Dynamic dispatch on the wrapped value. *)
Section Dispatch.
Context {S : Type} `{Store S} `{Gzip}.

Definition dispatch {A} (op : forall T, Store T -> M T A) : M (wrappedStore S) A :=
  fun w x =>
    match x with
    | Plain s => let '(a, w', s') := op S _ w s in (a, w', Plain s')
    | Shaping s => let '(a, w', s') := op (shapingStore S) _ w s in (a, w', Shaping s')
    | Encrypting s => let '(a, w', s') := op (encryptingStore S) _ w s in (a, w', Encrypting s')
    | EncryptingShaping s =>
        let '(a, w', s') := op (encryptingStore (shapingStore S)) _ w s in
        (a, w', EncryptingShaping s')
    | Failing s => let '(a, w', s') := op failingStore _ w s in (a, w', Failing s')
    end.

Definition wrapped_case {A} (f : forall T, Store T -> T -> A) (x : wrappedStore S) : A :=
  match x with
  | Plain s => f S _ s
  | Shaping s => f (shapingStore S) _ s
  | Encrypting s => f (encryptingStore S) _ s
  | EncryptingShaping s => f (encryptingStore (shapingStore S)) _ s
  | Failing s => f failingStore _ s
  end.

(** The lock methods of the dynamic type. *)
Definition wrapped_lock_ops : LockStore (wrappedStore S) :=
  let call {A} (zero : A) (m : forall T, LockStore T -> M T (A * option error)) :=
    dispatch (fun T (_ : Store T) => fun w s =>
      match Store_lockStore s with
      | Some l => m T l w s
      | None => ((zero, None), w, s)
      end) in
  mkLockStore _
    (fun ctx key owner ttl => call false (fun T l => LockAcquire l ctx key owner ttl))
    (fun ctx key owner => call false (fun T l => LockRelease l ctx key owner)).

(** [x.(lockStore)] *)
Definition wrapped_lockStore (x : wrappedStore S) : option (LockStore (wrappedStore S)) :=
  if wrapped_case (fun T _ s => match Store_lockStore s with Some _ => true | None => false end) x
  then Some wrapped_lock_ops else None.

Definition wrapped_Inspector (x : wrappedStore S) : option (Inspector (wrappedStore S)) :=
  let has := wrapped_case (fun T _ s => match Store_Inspector s with Some _ => true | None => false end) x in
  if has then
    Some (mkInspector _
      (wrapped_case (fun T _ s =>
         match Store_Inspector s with Some i => Capabilities i s | None => noCapabilities end))
      (fun ctx opts => dispatch (fun T _ => fun w s =>
         match Store_Inspector s with
         | Some i => ListPage i ctx opts w s
         | None => ((emptyListPageResult, Some ErrInspectorUnsupported), w, s)
         end)))
  else None.

#[export] Instance wrappedStore_Store : Store (wrappedStore S) := {|
  Store_Driver := wrapped_case (fun T _ s => Store_Driver s);
  Store_Ready := fun ctx => dispatch (fun T _ => Store_Ready ctx);
  Store_Get := fun ctx k => dispatch (fun T _ => Store_Get ctx k);
  Store_Set := fun ctx k v ttl => dispatch (fun T _ => Store_Set ctx k v ttl);
  Store_Add := fun ctx k v ttl => dispatch (fun T _ => Store_Add ctx k v ttl);
  Store_Increment := fun ctx k d ttl => dispatch (fun T _ => Store_Increment ctx k d ttl);
  Store_Decrement := fun ctx k d ttl => dispatch (fun T _ => Store_Decrement ctx k d ttl);
  Store_Delete := fun ctx k => dispatch (fun T _ => Store_Delete ctx k);
  Store_DeleteMany := fun ctx ks => dispatch (fun T _ => Store_DeleteMany ctx ks);
  Store_Flush := fun ctx => dispatch (fun T _ => Store_Flush ctx);
  Store_lockStore := wrapped_lockStore;
  Store_Inspector := wrapped_Inspector
|}.
End Dispatch.

(** ** Envelope round trips *)

Lemma over_max_false max n : 0 <= n -> (max > 0 -> n <= max) -> (max >? 0) && (n >? max) = false.
Proof.
  intros Hn H. destruct (Z.gtb_spec max 0); [|done]. destruct (Z.gtb_spec n max); [lia|done].
Qed.

Lemma over_max_le max n : (max >? 0) && (n >? max) = false -> max > 0 -> n <= max.
Proof.
  intros H Hm. destruct (Z.gtb_spec max 0); [|lia]. destruct (Z.gtb_spec n max); [done|lia].
Qed.

Lemma unmarked_false magic c rest : unmarked magic (magic ++ [c] ++ rest) = false.
Proof.
  unfold unmarked. rewrite take_app_length, bool_decide_eq_true_2 by done.
  unfold len. rewrite !length_app. simpl. destruct (Z.ltb_spec
    (Z.of_nat (length magic + S (length rest))) (Z.of_nat (length magic) + 1)); [lia|done].
Qed.

Lemma nth_marked (magic : bytes) c rest d : nth (length magic) (magic ++ [c] ++ rest) d = c.
Proof. rewrite app_nth2 by lia. by rewrite Nat.sub_diag. Qed.

Lemma drop_marked (magic : bytes) c rest : drop (length magic + 1) (magic ++ [c] ++ rest) = rest.
Proof.
  rewrite app_assoc. replace (length magic + 1)%nat with (length (magic ++ [c]))
    by (rewrite length_app; simpl; lia).
  apply drop_app_length.
Qed.

Lemma len_nonneg {A} (l : list A) : 0 <= len l.
Proof. unfold len. lia. Qed.

Section EnvelopeLaws.
Context `{GzipLaws}.

Lemma limited_enough max v :
  (max > 0 -> len v <= max) ->
  limited (if max >? 0 then Some (if max <? 9223372036854775807 then max + 1 else max) else None) v = v.
Proof.
  intros Hv. destruct (Z.gtb_spec max 0) as [Hm|]; [|done]. simpl. apply take_ge.
  assert (len v <= max) as Hl by (apply Hv; lia). unfold len in Hl.
  destruct (Z.ltb_spec max 9223372036854775807); lia.
Qed.

Lemma decode_encode_gzip max v e :
  encodeValue CompressionGzip max v = inl e -> decodeValue e max = inl v.
Proof.
  unfold encodeValue. destruct ((max >? 0) && (len v >? max)) eqn:E1; [done|].
  rewrite decide_False, decide_True by done.
  destruct (gzip_Write v) as [z|] eqn:Ez; [|done].
  destruct ((max >? 0) && (len (compressionMagic ++ [x67] ++ z) >? max)) eqn:E2; [done|].
  intros Ee. assert (e = compressionMagic ++ [x67] ++ z) as -> by congruence. clear Ee.
  unfold decodeValue. rewrite E2, unmarked_false, nth_marked, drop_marked.
  edestruct (gzip_roundtrip v z) as [-> ->]; [done|]. cbn [negb].
  rewrite limited_enough by (by apply over_max_le). by rewrite E1.
Qed.

Lemma decode_unmarked max v :
  (max > 0 -> len v <= max) -> unmarked compressionMagic v = true -> decodeValue v max = inl v.
Proof.
  intros Hv Hu. unfold decodeValue. by rewrite over_max_false, Hu by (apply len_nonneg || done).
Qed.

Lemma decode_encode_none max v e :
  unmarked compressionMagic v = true ->
  encodeValue CompressionNone max v = inl e -> decodeValue e max = inl v.
Proof.
  unfold encodeValue. intros Hu.
  destruct ((max >? 0) && (len v >? max)) eqn:E1; [done|].
  rewrite decide_True by done. intros [= <-].
  apply decode_unmarked; [by apply over_max_le | done].
Qed.
End EnvelopeLaws.

(** A value accepted by [encodeValue] decodes to itself under the same size
    limit: always with gzip, and without compression whenever the value does not
    itself start with the [CMP1] envelope marker. *)
Theorem decodeValue_encodeValue `{GzipLaws} codec max v e :
  encodeValue codec max v = inl e ->
  codec = CompressionGzip \/ unmarked compressionMagic v = true ->
  decodeValue e max = inl v.
Proof.
  intros He [->|Hu]; [by eapply decode_encode_gzip|].
  destruct (decide (codec = CompressionNone)) as [->|Hn]; [by eapply decode_encode_none|].
  destruct (decide (codec = CompressionGzip)) as [->|Hg]; [by eapply decode_encode_gzip|].
  unfold encodeValue in He. destruct (_ && _); [done|]. by rewrite !decide_False in He.
Qed.

(** C17: with a positive limit, [decodeValue] never returns more than the limit,
    whatever bytes the backend holds: neither a raw value nor the expansion of a
    compressed one. *)
Theorem decodeValue_bounded `{Gzip} body max v :
  0 < max -> decodeValue body max = inl v -> len v <= max.
Proof.
  intros Hm. unfold decodeValue.
  destruct ((max >? 0) && (len body >? max)) eqn:E1; [done|].
  destruct (unmarked _ _); [intros [= <-]; apply over_max_le in E1; lia|].
  destruct (nth _ _ _); try done. destruct (gzip_NewReader _); [|done]. cbn [negb].
  destruct (gzip_ReadAll _ _) as [d|]; [|done].
  destruct ((max >? 0) && (len d >? max)) eqn:E2; [done|].
  intros [= <-]. apply over_max_le in E2; lia.
Qed.

(** Without compression the limit wrapper accepts a value that starts with
    the envelope marker, stores it as it is, and cannot read it back: the five
    bytes "CMP1x" are written successfully and read as an unsupported codec. *)
Theorem raw_marker_unreadable `{Gzip} :
  exists v, encodeValue CompressionNone 64 v = inl v /\ decodeValue v 64 = inr ErrUnsupportedCodec.
Proof. exists (bytes_of_string "CMP1x"). split; reflexivity. Qed.

Definition sealed (a : AEAD) (nonce plain : bytes) : bytes :=
  encryptionMagic ++ [byte_of_Z (len nonce)] ++ nonce ++ Seal a nonce plain.

Lemma encrypt_result {S} (a : AEAD) plain (w : World) (s : S) r w' s' :
  world_ok w -> encrypt a plain w s = (r, w', s') ->
  w' = drawWorld w /\ s' = s /\
  (forall e, r = inl e -> exists nonce, length nonce = NonceSize a /\ e = sealed a nonce plain).
Proof.
  intros Hw. unfold encrypt. go_simpl.
  destruct (w_rand w (w_draw w) (NonceSize a)) as [nonce|] eqn:E; intros [= <- <- <-];
    split; try done; split; try done; intros e [= <-].
  exists nonce. split; [|done]. destruct Hw as (_ & _ & Hr). by eapply Hr.
Qed.

Lemma decrypt_sealed `{CryptoLaws} key a nonce plain :
  cipher_NewGCM key = inl a -> length nonce = NonceSize a ->
  decrypt a (sealed a nonce plain) = inl plain.
Proof.
  intros Hk Hn. pose proof (gcm_nonce _ _ Hk) as H12. unfold decrypt, sealed.
  assert (byte_to_Z (byte_of_Z (len nonce)) = 12) as Hb by (unfold len; by rewrite Hn, H12).
  rewrite unmarked_false, nth_marked, Hb, H12. cbn [negb orb Z.eqb Z.of_nat Pos.of_succ_nat].
  cbn [Pos.succ Pos.eqb negb orb].
  set (body := encryptionMagic ++ _).
  assert (len body = 5 + (12 + len (Seal a nonce plain))) as Hlen.
  { unfold body, len. rewrite !length_app, Hn, H12. simpl. lia. }
  pose proof (len_nonneg (Seal a nonce plain)).
  change (len encryptionMagic) with 4.
  destruct (Z.gtb_spec 12 (len body - (4 + 1))); [lia|].
  assert (drop (Z.to_nat (4 + 1)) body = nonce ++ Seal a nonce plain) as Hd
    by apply (drop_marked encryptionMagic).
  assert (drop (Z.to_nat (4 + 1 + 12)) body = Seal a nonce plain) as Hc.
  { replace (Z.to_nat (4 + 1 + 12)) with (Z.to_nat (4 + 1) + 12)%nat by lia.
    rewrite <- drop_drop, Hd, <- H12, <- Hn. apply drop_app_length. }
  rewrite Hd, Hc. replace (Z.to_nat 12) with (length nonce) by (rewrite Hn, H12; done).
  rewrite take_app_length. by rewrite (gcm_open_seal key).
Qed.

(** What [encrypt] produces with any nonce the entropy source delivers,
    [decrypt] opens to the plaintext. *)
Theorem decrypt_encrypt `{CryptoLaws} {S} key a plain (w : World) (s : S) e w' s' :
  world_ok w -> cipher_NewGCM key = inl a ->
  encrypt a plain w s = (inl e, w', s') -> decrypt a e = inl plain.
Proof.
  intros Hw Hk He. apply encrypt_result in He as (_ & _ & He); [|done].
  destruct (He e eq_refl) as (nonce & Hn & ->). by eapply decrypt_sealed.
Qed.

(** ** Decorated stores keep the contract

    A decorator that stores encoded values and decodes them on reads shows its
    clients the decoded view of its backend. *)

Section Decoded.
Context {S : Type} `{KeySpace S} (peek : S -> Z -> string -> option bytes) (dec : bytes -> bytes + error).

Definition decoded (s : S) (t : Z) (k : string) : option bytes :=
  match peek s t k with
  | Some b => match dec b with inl d => Some d | inr _ => None end
  | None => None
  end.

Lemma same_key_decoded w' s s' k : same_key peek w' s s' k -> same_key decoded w' s s' k.
Proof. intros Hs t Ht. unfold decoded. by rewrite Hs. Qed.

Lemma removed_decoded w' s' k : removed peek w' s' k -> removed decoded w' s' k.
Proof. intros Hs t Ht. unfold decoded. by rewrite Hs. Qed.

Lemma stored_decoded grain ttl w w' s' k e v :
  dec e = inl v -> stored peek grain ttl w w' s' k e -> stored decoded grain ttl w w' s' k v.
Proof.
  intros He (Hk & Hr & Hr2). unfold decoded. split; [|split].
  - intros t Ht. by rewrite Hk, He.
  - intros t Ht Ht'. by rewrite Hr.
  - intros t b Ht. destruct (peek s' t k) as [b'|] eqn:Eb; [|done].
    apply Hr2 in Eb as ->; [|done]. rewrite He. congruence.
Qed.

Lemma kept_decoded grain ttl w w' s' k e v :
  dec e = inl v -> kept peek grain ttl w w' s' k e -> kept decoded grain ttl w w' s' k v.
Proof. intros He Hst Hk. eapply stored_decoded; eauto. Qed.

Lemma seen_decoded w w' s k b v :
  match b with Some b' => exists d, dec b' = inl d /\ v = Some d | None => v = None end ->
  seen peek w w' s k b -> seen decoded w w' s k v.
Proof.
  intros Hb (t & Ht & E). exists t. split; [done|]. unfold decoded. rewrite E.
  destruct b as [b'|]; [|done]. by destruct Hb as (d & -> & ->).
Qed.

Definition decodeGet (r : bytes * bool * option error) : bytes * bool * option error :=
  let '(body, ok, err) := r in
  if negb (noErr err) || negb ok then (body, ok, err)
  else match dec body with inr e => ([], false, Some e) | inl d => (d, true, None) end.

Lemma get_post_decoded k w s r w' s' :
  get_post peek k w s r w' s' -> get_post decoded k w s (decodeGet r) w' s'.
Proof.
  intros [Hk Hr]. split; [intros k'; by apply same_key_decoded|].
  destruct r as [[b ok] [e|]]; simpl.
  - by destruct ok.
  - destruct ok; simpl.
    + destruct (dec b) as [d|] eqn:E; [|done]. eapply seen_decoded; [|done]. simpl. eauto.
    + by eapply seen_decoded; [|done].
Qed.

Lemma set_post_decoded grain k e v ttl w s err w' s' :
  dec e = inl v -> set_post peek grain k e ttl w s err w' s' ->
  set_post decoded grain k v ttl w s err w' s'.
Proof.
  intros He [Hk Hr]. split; [intros; by apply same_key_decoded, Hk|].
  destruct err; [destruct Hr|]; eauto using same_key_decoded, kept_decoded.
Qed.

Lemma add_post_decoded occupied grain k e v ttl w s r w' s' :
  dec e = inl v -> add_post peek occupied grain k e ttl w s r w' s' ->
  add_post decoded occupied grain k v ttl w s r w' s'.
Proof.
  intros He [Hk Hr]. split; [intros; by apply same_key_decoded, Hk|].
  destruct r as [[] [err|]]; destruct Hr as [Hr Hr2]; split; eauto using same_key_decoded, kept_decoded;
    destruct Hr2 as [?|[]]; eauto using same_key_decoded, kept_decoded.
Qed.

Lemma delete_post_decoded k w s err w' s' :
  delete_post peek k w s err w' s' -> delete_post decoded k w s err w' s'.
Proof.
  intros [Hk Hr]. split; [intros; by apply same_key_decoded, Hk|].
  destruct err; [destruct Hr|]; eauto using same_key_decoded, removed_decoded.
Qed.

Lemma deleteMany_post_decoded ks w s err w' s' :
  deleteMany_post peek ks w s err w' s' -> deleteMany_post decoded ks w s err w' s'.
Proof.
  intros [Hk Hr]. split; [intros; by apply same_key_decoded, Hk|].
  destruct err; [done | intros k0 Hk0; by apply removed_decoded, Hr].
Qed.

Lemma flush_post_decoded err w' s' :
  flush_post peek err w' s' -> flush_post decoded err w' s'.
Proof. destruct err; [done|]. intros Hf k. apply removed_decoded, Hf. Qed.
End Decoded.

#[export] Instance shapingStore_keys {S} `{KeySpace S} : KeySpace (shapingStore S) := sameKeys (S := S).
#[export] Instance encryptingStore_keys {S} `{KeySpace S} : KeySpace (encryptingStore S) := sameKeys (S := S).
#[export] Instance failingStore_keys : KeySpace failingStore := allKeys.
#[export] Instance wrappedStore_keys {S} `{KeySpace S} : KeySpace (wrappedStore S) := sameKeys (S := S).

Section ShapingContract.
Context {S : Type} `{StoreContract S} `{GzipLaws}.
Implicit Types s : shapingStore S.

Definition shaping_ok (s : shapingStore S) : Prop :=
  sc_ok (ss_inner s) /\ ss_codec s = CompressionGzip.

Definition shaping_peek (s : shapingStore S) : Z -> string -> option bytes :=
  decoded sc_peek (fun b => decodeValue b (ss_max s)) (ss_inner s).

Definition shaping_occupied (s : shapingStore S) : Z -> string -> Prop := sc_occupied (ss_inner s).

Lemma shaping_get ctx k w s r w' s' :
  world_ok w -> shaping_ok s -> Store_Get ctx k w s = (r, w', s') ->
  later w w' /\ shaping_ok s' /\ get_post shaping_peek k w s r w' s'.
Proof.
  destruct s as [i c m]. intros Hw [Hi Hc] E. simpl in Hc. subst c.
  assert (exists r0 i', Store_Get ctx k w i = (r0, w', i') /\
    r = decodeGet (fun b => decodeValue b m) r0 /\ s' = mkShapingStore i' CompressionGzip m)
    as (r0 & i' & E0 & -> & ->).
  { revert E. simpl. unfold shapingStore_Get, ss_call. go_simpl. simpl.
    destruct (Store_Get ctx k w i) as [[[[b ok] err] w1] i1] eqn:E1. intros E.
    exists (b, ok, err), i1. unfold decodeGet.
    destruct (negb (noErr err) || negb ok); [|destruct (decodeValue b m)];
      by simplify_eq. }
  apply sc_get in E0 as (Hl & Hok & Hp); [|done..].
  split; [done|]. split; [done|]. by apply (get_post_decoded sc_peek).
Qed.

Lemma shaping_set ctx k v ttl w s err w' s' :
  world_ok w -> shaping_ok s -> ttl_ok ttl -> Store_Set ctx k v ttl w s = (err, w', s') ->
  later w w' /\ shaping_ok s' /\ set_post shaping_peek sc_grain k v ttl w s err w' s'.
Proof.
  destruct s as [i c m]. intros Hw [Hi Hc] Ht. simpl in Hc. subst c. simpl.
  unfold shapingStore_Set, ss_call. go_simpl. simpl.
  destruct (encodeValue CompressionGzip m v) as [e|e] eqn:Ee.
  - simpl. destruct (Store_Set ctx k e ttl w i) as [[err0 w0] i'] eqn:E0. intros [= <- <- <-].
    apply sc_set in E0 as (Hl & Hok & Hp); [|done..].
    split; [done|]. split; [done|].
    exact (set_post_decoded sc_peek (fun b => decodeValue b m) _ _ _ _ _ _ _ _ _ _
      (decode_encode_gzip _ _ _ Ee) Hp).
  - intros [= <- <- <-]. split; [by apply later_refl|]. split; [done|]. auto with go.
Qed.

Lemma shaping_add ctx k v ttl w s r w' s' :
  world_ok w -> shaping_ok s -> ttl_ok ttl -> Store_Add ctx k v ttl w s = (r, w', s') ->
  later w w' /\ shaping_ok s' /\
  add_post shaping_peek shaping_occupied sc_grain k v ttl w s r w' s'.
Proof.
  destruct s as [i c m]. intros Hw [Hi Hc] Ht. simpl in Hc. subst c. simpl.
  unfold shapingStore_Add, ss_call. go_simpl. simpl.
  destruct (encodeValue CompressionGzip m v) as [e|e] eqn:Ee.
  - simpl. destruct (Store_Add ctx k e ttl w i) as [[r0 w0] i'] eqn:E0. intros [= <- <- <-].
    apply sc_add in E0 as (Hl & Hok & Hp); [|done..].
    split; [done|]. split; [done|].
    exact (add_post_decoded sc_peek (fun b => decodeValue b m) sc_occupied _ _ _ _ _ _ _ _ _ _
      (decode_encode_gzip _ _ _ Ee) Hp).
  - intros [= <- <- <-]. split; [by apply later_refl|]. split; [done|]. auto with go.
Qed.

Lemma shaping_delete ctx k w s err w' s' :
  world_ok w -> shaping_ok s -> Store_Delete ctx k w s = (err, w', s') ->
  later w w' /\ shaping_ok s' /\ delete_post shaping_peek k w s err w' s'.
Proof.
  destruct s as [i c m]. intros Hw [Hi Hc]. simpl. unfold shapingStore_Delete, ss_call.
  go_simpl. simpl. destruct (Store_Delete ctx k w i) as [[err0 w0] i'] eqn:E0.
  intros [= <- <- <-]. apply sc_delete in E0 as (Hl & Hok & Hp); [|done..].
  split; [done|]. split; [done|].
  exact (delete_post_decoded sc_peek (fun b => decodeValue b m) _ _ _ _ _ _ Hp).
Qed.

Lemma shaping_deleteMany ctx ks w s err w' s' :
  world_ok w -> shaping_ok s -> Store_DeleteMany ctx ks w s = (err, w', s') ->
  later w w' /\ shaping_ok s' /\ deleteMany_post shaping_peek ks w s err w' s'.
Proof.
  destruct s as [i c m]. intros Hw [Hi Hc]. simpl. unfold shapingStore_DeleteMany, ss_call.
  go_simpl. simpl. destruct (Store_DeleteMany ctx ks w i) as [[err0 w0] i'] eqn:E0.
  intros [= <- <- <-]. apply sc_deleteMany in E0 as (Hl & Hok & Hp); [|done..].
  split; [done|]. split; [done|].
  exact (deleteMany_post_decoded sc_peek (fun b => decodeValue b m) _ _ _ _ _ _ Hp).
Qed.

Lemma shaping_flush ctx w s err w' s' :
  world_ok w -> shaping_ok s -> Store_Flush ctx w s = (err, w', s') ->
  later w w' /\ shaping_ok s' /\ flush_post shaping_peek err w' s'.
Proof.
  destruct s as [i c m]. intros Hw [Hi Hc]. simpl. unfold shapingStore_Flush, ss_call.
  go_simpl. simpl. destruct (Store_Flush ctx w i) as [[err0 w0] i'] eqn:E0.
  intros [= <- <- <-]. apply sc_flush in E0 as (Hl & Hok & Hp); [|done..].
  split; [done|]. split; [done|].
  exact (flush_post_decoded sc_peek (fun b => decodeValue b m) _ _ _ Hp).
Qed.

Lemma shaping_peek_occupied s t k b : shaping_peek s t k = Some b -> shaping_occupied s t k.
Proof.
  unfold shaping_peek, decoded. destruct (sc_peek (ss_inner s) t k) eqn:E; [|done].
  intros _. by eapply sc_peek_occupied.
Qed.

#[export] Instance shapingStore_contract : StoreContract (shapingStore S) := {|
  sc_ok := shaping_ok;
  sc_peek := shaping_peek;
  sc_occupied := shaping_occupied;
  sc_grain := sc_grain (S := S);
  sc_grain_nonneg := sc_grain_nonneg (S := S);
  sc_peek_occupied := shaping_peek_occupied;
  sc_get := shaping_get;
  sc_set := shaping_set;
  sc_add := shaping_add;
  sc_delete := shaping_delete;
  sc_deleteMany := shaping_deleteMany;
  sc_flush := shaping_flush
|}.
End ShapingContract.

Section EncryptingContract.
Context {S : Type} `{StoreContract S} `{CryptoLaws}.
Implicit Types s : encryptingStore S.

Definition encrypting_ok (s : encryptingStore S) : Prop :=
  sc_ok (es_inner s) /\ exists key, cipher_NewGCM key = inl (es_aead s).

Definition encrypting_peek (s : encryptingStore S) : Z -> string -> option bytes :=
  decoded sc_peek (decrypt (es_aead s)) (es_inner s).

Definition encrypting_occupied (s : encryptingStore S) : Z -> string -> Prop :=
  sc_occupied (es_inner s).

Lemma encrypting_get ctx k w s r w' s' :
  world_ok w -> encrypting_ok s -> Store_Get ctx k w s = (r, w', s') ->
  later w w' /\ encrypting_ok s' /\ get_post encrypting_peek k w s r w' s'.
Proof.
  destruct s as [i a]. intros Hw [Hi Ha] E.
  assert (exists r0 i', Store_Get ctx k w i = (r0, w', i') /\
    r = decodeGet (decrypt a) r0 /\ s' = mkEncryptingStore i' a)
    as (r0 & i' & E0 & -> & ->).
  { revert E. simpl. unfold encryptingStore_Get, es_call. go_simpl. simpl.
    destruct (Store_Get ctx k w i) as [[[[b ok] err] w1] i1] eqn:E1. intros E.
    exists (b, ok, err), i1. unfold decodeGet.
    destruct (negb (noErr err) || negb ok); [|destruct (decrypt a b)]; by simplify_eq. }
  apply sc_get in E0 as (Hl & Hok & Hp); [|done..].
  split; [done|]. split; [done|]. by apply (get_post_decoded sc_peek).
Qed.

Lemma encrypting_set ctx k v ttl w s err w' s' :
  world_ok w -> encrypting_ok s -> ttl_ok ttl -> Store_Set ctx k v ttl w s = (err, w', s') ->
  later w w' /\ encrypting_ok s' /\ set_post encrypting_peek sc_grain k v ttl w s err w' s'.
Proof.
  destruct s as [i a]. intros Hw [Hi [key Hk]] Ht. simpl.
  unfold encryptingStore_Set, es_call. go_simpl. simpl.
  destruct (encrypt a v w _) as [[r w1] s1] eqn:Ee.
  apply encrypt_result in Ee as (-> & -> & Hr); [|done].
  destruct r as [e|e]; simpl.
  - destruct (Store_Set ctx k e ttl (drawWorld w) i) as [[err0 w0] i'] eqn:E0.
    intros [= <- <- <-]. apply sc_set in E0 as (Hl & Hok & Hp); [|done..].
    split; [done|]. split; [split; eauto|]. destruct (Hr e eq_refl) as (nonce & Hn & ->).
    exact (set_post_decoded sc_peek (decrypt a) _ _ _ _ _ (drawWorld w) _ _ _ _
      (decrypt_sealed key a nonce v Hk Hn) Hp).
  - intros [= <- <- <-]. split; [by apply later_draw|]. split; [split; eauto|]. auto with go.
Qed.

Lemma encrypting_add ctx k v ttl w s r w' s' :
  world_ok w -> encrypting_ok s -> ttl_ok ttl -> Store_Add ctx k v ttl w s = (r, w', s') ->
  later w w' /\ encrypting_ok s' /\
  add_post encrypting_peek encrypting_occupied sc_grain k v ttl w s r w' s'.
Proof.
  destruct s as [i a]. intros Hw [Hi [key Hk]] Ht. simpl.
  unfold encryptingStore_Add, es_call. go_simpl. simpl.
  destruct (encrypt a v w _) as [[r1 w1] s1] eqn:Ee.
  apply encrypt_result in Ee as (-> & -> & Hr); [|done].
  destruct r1 as [e|e]; simpl.
  - destruct (Store_Add ctx k e ttl (drawWorld w) i) as [[r0 w0] i'] eqn:E0.
    intros [= <- <- <-]. apply sc_add in E0 as (Hl & Hok & Hp); [|done..].
    split; [done|]. split; [split; eauto|]. destruct (Hr e eq_refl) as (nonce & Hn & ->).
    exact (add_post_decoded sc_peek (decrypt a) sc_occupied _ _ _ _ _ (drawWorld w) _ _ _ _
      (decrypt_sealed key a nonce v Hk Hn) Hp).
  - intros [= <- <- <-]. split; [by apply later_draw|]. split; [split; eauto|]. auto with go.
Qed.

Lemma encrypting_delete ctx k w s err w' s' :
  world_ok w -> encrypting_ok s -> Store_Delete ctx k w s = (err, w', s') ->
  later w w' /\ encrypting_ok s' /\ delete_post encrypting_peek k w s err w' s'.
Proof.
  destruct s as [i a]. intros Hw [Hi Hc]. simpl. unfold encryptingStore_Delete, es_call.
  go_simpl. simpl. destruct (Store_Delete ctx k w i) as [[err0 w0] i'] eqn:E0.
  intros [= <- <- <-]. apply sc_delete in E0 as (Hl & Hok & Hp); [|done..].
  split; [done|]. split; [done|].
  exact (delete_post_decoded sc_peek (decrypt a) _ _ _ _ _ _ Hp).
Qed.

Lemma encrypting_deleteMany ctx ks w s err w' s' :
  world_ok w -> encrypting_ok s -> Store_DeleteMany ctx ks w s = (err, w', s') ->
  later w w' /\ encrypting_ok s' /\ deleteMany_post encrypting_peek ks w s err w' s'.
Proof.
  destruct s as [i a]. intros Hw [Hi Hc]. simpl. unfold encryptingStore_DeleteMany, es_call.
  go_simpl. simpl. destruct (Store_DeleteMany ctx ks w i) as [[err0 w0] i'] eqn:E0.
  intros [= <- <- <-]. apply sc_deleteMany in E0 as (Hl & Hok & Hp); [|done..].
  split; [done|]. split; [done|].
  exact (deleteMany_post_decoded sc_peek (decrypt a) _ _ _ _ _ _ Hp).
Qed.

Lemma encrypting_flush ctx w s err w' s' :
  world_ok w -> encrypting_ok s -> Store_Flush ctx w s = (err, w', s') ->
  later w w' /\ encrypting_ok s' /\ flush_post encrypting_peek err w' s'.
Proof.
  destruct s as [i a]. intros Hw [Hi Hc]. simpl. unfold encryptingStore_Flush, es_call.
  go_simpl. simpl. destruct (Store_Flush ctx w i) as [[err0 w0] i'] eqn:E0.
  intros [= <- <- <-]. apply sc_flush in E0 as (Hl & Hok & Hp); [|done..].
  split; [done|]. split; [done|].
  exact (flush_post_decoded sc_peek (decrypt a) _ _ _ Hp).
Qed.

Lemma encrypting_peek_occupied s t k b :
  encrypting_peek s t k = Some b -> encrypting_occupied s t k.
Proof.
  unfold encrypting_peek, decoded. destruct (sc_peek (es_inner s) t k) eqn:E; [|done].
  intros _. by eapply sc_peek_occupied.
Qed.

#[export] Instance encryptingStore_contract : StoreContract (encryptingStore S) := {|
  sc_ok := encrypting_ok;
  sc_peek := encrypting_peek;
  sc_occupied := encrypting_occupied;
  sc_grain := sc_grain (S := S);
  sc_grain_nonneg := sc_grain_nonneg (S := S);
  sc_peek_occupied := encrypting_peek_occupied;
  sc_get := encrypting_get;
  sc_set := encrypting_set;
  sc_add := encrypting_add;
  sc_delete := encrypting_delete;
  sc_deleteMany := encrypting_deleteMany;
  sc_flush := encrypting_flush
|}.
End EncryptingContract.

(** ** WrapStore rejects what ValidateBaseConfig rejects *)

Lemma ValidateBaseConfig_key `{CryptoLaws} cfg :
  ValidateBaseConfig cfg = None -> len (EncryptionKey cfg) > 0 ->
  aes_NewCipher (EncryptionKey cfg) = true.
Proof.
  unfold ValidateBaseConfig. destruct (_ <? 0); [done|]. destruct (_ && _ && _); [done|].
  destruct (negb _ && _ && _ && _) eqn:E; [done|]. intros _ Hl. apply aes_key_size.
  destruct (Z.eqb_spec (len (EncryptionKey cfg)) 0), (Z.eqb_spec (len (EncryptionKey cfg)) 16),
    (Z.eqb_spec (len (EncryptionKey cfg)) 24), (Z.eqb_spec (len (EncryptionKey cfg)) 32);
    simpl in E; try done; lia.
Qed.

Lemma newEncryptingStore_ok `{CryptoLaws} {S} (inner : S) cfg :
  ValidateBaseConfig cfg = None -> len (EncryptionKey cfg) > 0 ->
  exists a, newEncryptingStore inner (EncryptionKey cfg) = inl (mkEncryptingStore inner a) /\
            cipher_NewGCM (EncryptionKey cfg) = inl a.
Proof.
  intros Hv Hl. pose proof (ValidateBaseConfig_key cfg Hv Hl) as Hk.
  destruct (gcm_of_aes _ Hk) as [a Ha]. exists a. unfold newEncryptingStore. by rewrite Hk, Ha.
Qed.

Lemma WrapStore_error {S} `{Store S} `{CryptoLaws} (store : S) cfg x err :
  WrapStore store cfg = (x, Some err) <->
  ValidateBaseConfig cfg = Some err /\ x = Failing (mkFailingStore (Store_Driver store) err).
Proof.
  unfold WrapStore. destruct (ValidateBaseConfig cfg) as [e|] eqn:Hv.
  - split; [intros [= <- <-]; done | intros [[= ->] ->]; done].
  - split; [|by intros [? _]].
    destruct (Z.gtb_spec (len (EncryptionKey cfg)) 0) as [Hl|]; [|by destruct (_ || _)].
    edestruct (newEncryptingStore_ok store cfg) as (a & -> & _); [done|lia|].
    edestruct (newEncryptingStore_ok (mkShapingStore store
      (if decide (Compression cfg = EmptyString) then CompressionNone else Compression cfg)
      (MaxValueBytes cfg)) cfg) as (a' & -> & _); [done|lia|].
    by destruct (_ || _).
Qed.

(** [WrapStore] fails exactly on the configurations [ValidateBaseConfig]
    rejects (a negative limit, an unknown codec, a key that is not 16, 24 or 32
    bytes), and then it fails closed: the value it returns reports the error,
    together with the backend's driver name, and no longer holds the backend. *)
Theorem WrapStore_fails_closed {S} `{Store S} `{CryptoLaws} (store : S) cfg x err :
  WrapStore store cfg = (x, Some err) <->
  ValidateBaseConfig cfg = Some err /\ x = Failing (mkFailingStore (Store_Driver store) err).
Proof. apply WrapStore_error. Qed.
