(* ===== verification/Wrapping.v ===== *)
(** * What WrapStore guarantees

    The decorators of [Shaping] and the value [WrapStore] returns satisfy the
    contracts of [CacheCore] whenever the backend does: values written through
    the wrapper read back unchanged, lock tokens and counters bypass shaping, and
    an invalid configuration fails closed. *)

From S2P Require Import Prelude GoStd CacheCore Shaping.

(** ** Locks and counters through the decorators *)

Section ShapingBypass.
Context {S : Type} `{Store S} `{KeySpace S} `{Gzip}.

#[export] Program Instance shapingStore_locks `{!LockContract S} : LockContract (shapingStore S) := {|
  lc_ops := mkLockStore _ shapingStore_LockAcquire shapingStore_LockRelease;
  lc_ok := fun s => lc_ok (ss_inner s);
  lc_peek := fun s => lc_peek (ss_inner s);
  lc_occupied := fun s => lc_occupied (ss_inner s);
  lc_grain := lc_grain (S := S)
|}.
Next Obligation. done. Qed.
Next Obligation. intros LC s t k b. apply lc_peek_occupied. Qed.
Next Obligation.
  intros LC ctx k owner ttl w [i c m] r w' s' Hw Hok Ht. simpl in *.
  unfold shapingStore_LockAcquire, ss_call. go_simpl. simpl. rewrite (lc_lockStore i) by done. simpl.
  destruct (LockAcquire lc_ops ctx k owner ttl w i) as [[r0 w0] i'] eqn:E. intros [= <- <- <-].
  by apply lc_acquire in E.
Qed.
Next Obligation.
  intros LC ctx k owner w [i c m] r w' s' Hw Hok. simpl in *.
  unfold shapingStore_LockRelease, ss_call. go_simpl. simpl. rewrite (lc_lockStore i) by done. simpl.
  destruct (LockRelease lc_ops ctx k owner w i) as [[r0 w0] i'] eqn:E. intros [= <- <- <-].
  by apply lc_release in E.
Qed.

#[export] Program Instance shapingStore_counters `{!CounterContract S} :
    CounterContract (shapingStore S) := {|
  cc_ok := fun s => cc_ok (ss_inner s);
  cc_peek := fun s => cc_peek (ss_inner s);
  cc_grain := cc_grain (S := S)
|}.
Next Obligation.
  intros CC ctx k delta ttl w [i c m] r w' s' Hw Hok Ht. simpl in *.
  unfold shapingStore_Increment, ss_call. go_simpl. simpl.
  destruct (Store_Increment ctx k delta ttl w i) as [[r0 w0] i'] eqn:E. intros [= <- <- <-].
  by apply cc_increment in E.
Qed.
Next Obligation.
  intros CC ctx k delta ttl w [i c m] r w' s' Hw Hok Ht. simpl in *.
  unfold shapingStore_Decrement, ss_call. go_simpl. simpl.
  destruct (Store_Decrement ctx k delta ttl w i) as [[r0 w0] i'] eqn:E. intros [= <- <- <-].
  by apply cc_decrement in E.
Qed.
End ShapingBypass.

Section EncryptingBypass.
Context {S : Type} `{Store S} `{KeySpace S}.

#[export] Program Instance encryptingStore_locks `{!LockContract S} :
    LockContract (encryptingStore S) := {|
  lc_ops := mkLockStore _ encryptingStore_LockAcquire encryptingStore_LockRelease;
  lc_ok := fun s => lc_ok (es_inner s);
  lc_peek := fun s => lc_peek (es_inner s);
  lc_occupied := fun s => lc_occupied (es_inner s);
  lc_grain := lc_grain (S := S)
|}.
Next Obligation. done. Qed.
Next Obligation. intros LC s t k b. apply lc_peek_occupied. Qed.
Next Obligation.
  intros LC ctx k owner ttl w [i a] r w' s' Hw Hok Ht. simpl in *.
  unfold encryptingStore_LockAcquire, es_call. go_simpl. simpl. rewrite (lc_lockStore i) by done. simpl.
  destruct (LockAcquire lc_ops ctx k owner ttl w i) as [[r0 w0] i'] eqn:E. intros [= <- <- <-].
  by apply lc_acquire in E.
Qed.
Next Obligation.
  intros LC ctx k owner w [i a] r w' s' Hw Hok. simpl in *.
  unfold encryptingStore_LockRelease, es_call. go_simpl. simpl. rewrite (lc_lockStore i) by done. simpl.
  destruct (LockRelease lc_ops ctx k owner w i) as [[r0 w0] i'] eqn:E. intros [= <- <- <-].
  by apply lc_release in E.
Qed.

#[export] Program Instance encryptingStore_counters `{!CounterContract S} :
    CounterContract (encryptingStore S) := {|
  cc_ok := fun s => cc_ok (es_inner s);
  cc_peek := fun s => cc_peek (es_inner s);
  cc_grain := cc_grain (S := S)
|}.
Next Obligation.
  intros CC ctx k delta ttl w [i a] r w' s' Hw Hok Ht. simpl in *.
  unfold encryptingStore_Increment, es_call. go_simpl. simpl.
  destruct (Store_Increment ctx k delta ttl w i) as [[r0 w0] i'] eqn:E. intros [= <- <- <-].
  by apply cc_increment in E.
Qed.
Next Obligation.
  intros CC ctx k delta ttl w [i a] r w' s' Hw Hok Ht. simpl in *.
  unfold encryptingStore_Decrement, es_call. go_simpl. simpl.
  destruct (Store_Decrement ctx k delta ttl w i) as [[r0 w0] i'] eqn:E. intros [= <- <- <-].
  by apply cc_decrement in E.
Qed.
End EncryptingBypass.

(** ** failingStore *)

#[export] Program Instance failingStore_contract : StoreContract failingStore := {|
  sc_ok := fun _ => True;
  sc_peek := fun _ _ _ => None;
  sc_occupied := fun _ _ _ => False;
  sc_grain := 0
|}.
Next Obligation. done. Qed.
Next Obligation. done. Qed.
Next Obligation. intros ? ? ? ? ? ? ? ? _ [= <- <- <-]. split; [by apply later_refl|]. by split. Qed.
Next Obligation. intros ? ? ? ? ? ? ? ? ? ? _ _ [= <- <- <-]. split; [by apply later_refl|]. auto with go. Qed.
Next Obligation. intros ? ? ? ? ? ? ? ? ? ? _ _ [= <- <- <-]. split; [by apply later_refl|]. auto with go. Qed.
Next Obligation. intros ? ? ? ? ? ? ? ? _ [= <- <- <-]. split; [by apply later_refl|]. auto with go. Qed.
Next Obligation. intros ? ? ? ? ? ? ? ? _ [= <- <- <-]. split; [by apply later_refl|]. by split. Qed.
Next Obligation. intros ? ? ? ? ? ? ? _ [= <- <- <-]. split; [by apply later_refl|]. by split. Qed.

(** ** The dynamically dispatched result of WrapStore *)

Section WrappedContract.
Context {S : Type} `{StoreContract S} `{GzipLaws} `{CryptoLaws}.

Definition wrapped_ok (x : wrappedStore S) : Prop :=
  match x with
  | Plain s => sc_ok s
  | Shaping s => sc_ok s
  | Encrypting s => sc_ok s
  | EncryptingShaping s => sc_ok s
  | Failing _ => True
  end.

Definition wrapped_peek (x : wrappedStore S) : Z -> string -> option bytes :=
  match x with
  | Plain s => sc_peek s
  | Shaping s => sc_peek s
  | Encrypting s => sc_peek s
  | EncryptingShaping s => sc_peek s
  | Failing s => sc_peek s
  end.

Definition wrapped_occupied (x : wrappedStore S) : Z -> string -> Prop :=
  match x with
  | Plain s => sc_occupied s
  | Shaping s => sc_occupied s
  | Encrypting s => sc_occupied s
  | EncryptingShaping s => sc_occupied s
  | Failing s => sc_occupied s
  end.

Lemma dispatch_inv {A} (op : forall T, Store T -> M T A) w (x : wrappedStore S) a w' x' :
  dispatch op w x = (a, w', x') ->
  match x with
  | Plain s => exists s', x' = Plain s' /\ op S _ w s = (a, w', s')
  | Shaping s => exists s', x' = Shaping s' /\ op (shapingStore S) _ w s = (a, w', s')
  | Encrypting s => exists s', x' = Encrypting s' /\ op (encryptingStore S) _ w s = (a, w', s')
  | EncryptingShaping s =>
      exists s', x' = EncryptingShaping s' /\ op (encryptingStore (shapingStore S)) _ w s = (a, w', s')
  | Failing s => exists s', x' = Failing s' /\ op failingStore _ w s = (a, w', s')
  end.
Proof.
  unfold dispatch. destruct x as [s|s|s|s|s];
    destruct (op _ _ w s) as [[? ?] ?]; intros [= <- <- <-]; eauto.
Qed.

(** Every law is the law of the dynamic type. *)
Tactic Notation "by_dispatch" constr(op) uconstr(law) :=
  let E := fresh "E" in
  intros E; apply (dispatch_inv op) in E;
  match goal with x : wrappedStore S |- _ =>
    destruct x; destruct E as (? & -> & E);
    (injection E as <- <- <-; split; [by apply later_refl|]; split; [done|]; (by split) || by auto with go) ||
    (apply law in E as (? & ? & ?); [|done..]; split; [done|]; by split)
  end.

#[export] Program Instance wrappedStore_contract : StoreContract (wrappedStore S) := {|
  sc_ok := wrapped_ok;
  sc_peek := wrapped_peek;
  sc_occupied := wrapped_occupied;
  sc_grain := sc_grain (S := S)
|}.
Next Obligation. apply sc_grain_nonneg. Qed.
Next Obligation. intros [] t k b; apply sc_peek_occupied. Qed.
Next Obligation. intros ctx k w x r w' x' Hw Hok.
  by_dispatch (fun T (_ : Store T) => Store_Get ctx k) sc_get. Qed.
Next Obligation. intros ctx k v ttl w x r w' x' Hw Hok Ht.
  by_dispatch (fun T (_ : Store T) => Store_Set ctx k v ttl) sc_set. Qed.
Next Obligation. intros ctx k v ttl w x r w' x' Hw Hok Ht.
  by_dispatch (fun T (_ : Store T) => Store_Add ctx k v ttl) sc_add. Qed.
Next Obligation. intros ctx k w x r w' x' Hw Hok.
  by_dispatch (fun T (_ : Store T) => Store_Delete ctx k) sc_delete. Qed.
Next Obligation. intros ctx ks w x r w' x' Hw Hok.
  by_dispatch (fun T (_ : Store T) => Store_DeleteMany ctx ks) sc_deleteMany. Qed.
Next Obligation. intros ctx w x r w' x' Hw Hok. by_dispatch (fun T (_ : Store T) => Store_Flush ctx) sc_flush. Qed.
End WrappedContract.

Section WrappedLocks.
Context {S : Type} `{LockContract S} `{Gzip}.

Definition wrapped_lock_ok (x : wrappedStore S) : Prop :=
  match x with
  | Plain s => lc_ok s
  | Shaping s => lc_ok s
  | Encrypting s => lc_ok s
  | EncryptingShaping s => lc_ok s
  | Failing _ => True
  end.

Definition wrapped_lock_peek (x : wrappedStore S) : Z -> string -> option bytes :=
  match x with
  | Plain s => lc_peek s
  | Shaping s => lc_peek s
  | Encrypting s => lc_peek s
  | EncryptingShaping s => lc_peek s
  | Failing _ => fun _ _ => None
  end.

Definition wrapped_lock_occupied (x : wrappedStore S) : Z -> string -> Prop :=
  match x with
  | Plain s => lc_occupied s
  | Shaping s => lc_occupied s
  | Encrypting s => lc_occupied s
  | EncryptingShaping s => lc_occupied s
  | Failing _ => fun _ _ => False
  end.

Lemma wrapped_lock_peek_occupied x t k b :
  wrapped_lock_peek x t k = Some b -> wrapped_lock_occupied x t k.
Proof. destruct x; [apply lc_peek_occupied.. | done]. Qed.

Lemma wrapped_acquire ctx k owner ttl w x r w' x' :
  world_ok w -> wrapped_lock_ok x -> ttl_ok ttl ->
  LockAcquire wrapped_lock_ops ctx k owner ttl w x = (r, w', x') ->
  later w w' /\ wrapped_lock_ok x' /\
  add_post wrapped_lock_peek wrapped_lock_occupied (lc_grain (S := S)) k owner ttl w x r w' x'.
Proof.
  intros Hw Hok Ht E. apply dispatch_inv in E.
  destruct x as [s|s|s|s|s]; destruct E as (s' & -> & E).
  5: { injection E as <- <- <-. split; [by apply later_refl|]. split; [done|]. auto with go. }
  all: simpl in Hok; rewrite (lc_lockStore s) in E by done;
    apply lc_acquire in E as (? & ? & ?); [|done..]; split; [done|]; by split.
Qed.

Lemma wrapped_release ctx k owner w x r w' x' :
  world_ok w -> wrapped_lock_ok x ->
  LockRelease wrapped_lock_ops ctx k owner w x = (r, w', x') ->
  later w w' /\ wrapped_lock_ok x' /\ release_post wrapped_lock_peek k owner w x r w' x'.
Proof.
  intros Hw Hok E. apply dispatch_inv in E.
  destruct x as [s|s|s|s|s]; destruct E as (s' & -> & E).
  5: { injection E as <- <- <-. split; [by apply later_refl|]. split; [done|]. auto with go. }
  all: simpl in Hok; rewrite (lc_lockStore s) in E by done;
    apply lc_release in E as (? & ? & ?); [|done..]; split; [done|]; by split.
Qed.

Lemma wrapped_lock_capable x : wrapped_lock_ok x -> Store_lockStore x = Some wrapped_lock_ops.
Proof.
  intros Hok. change (wrapped_lockStore x = Some wrapped_lock_ops). unfold wrapped_lockStore.
  destruct x as [s|s|s|s|s]; cbn [wrapped_case]; [rewrite (lc_lockStore s) by done|..]; done.
Qed.

#[export] Instance wrappedStore_locks : LockContract (wrappedStore S) := {|
  lc_ops := wrapped_lock_ops;
  lc_ok := wrapped_lock_ok;
  lc_lockStore := wrapped_lock_capable;
  lc_peek := wrapped_lock_peek;
  lc_occupied := wrapped_lock_occupied;
  lc_peek_occupied := wrapped_lock_peek_occupied;
  lc_grain := lc_grain (S := S);
  lc_acquire := wrapped_acquire;
  lc_release := wrapped_release
|}.
End WrappedLocks.

(** ** WrapStore *)

(** Configurations whose writes are always marked, or never shaped: gzip, or no
    size limit (the limit wrapper without compression stores raw values). *)
Definition transparent (cfg : BaseConfig) : Prop :=
  Compression cfg = CompressionGzip \/ MaxValueBytes cfg <= 0.

Lemma WrapStore_ok {S} `{StoreContract S} `{GzipLaws} `{CryptoLaws} (store : S) cfg x :
  sc_ok store -> transparent cfg -> WrapStore store cfg = (x, None) -> sc_ok x.
Proof.
  intros Hs Ht. unfold WrapStore. destruct (ValidateBaseConfig cfg) as [e|] eqn:Hv; [done|].
  set (codec := if decide (Compression cfg = EmptyString) then CompressionNone else Compression cfg).
  destruct (bool_decide (codec <> CompressionNone) || (MaxValueBytes cfg >? 0)) eqn:Esh.
  - assert (codec = CompressionGzip) as Hc.
    { unfold ValidateBaseConfig in Hv. destruct (_ <? 0); [done|].
      destruct Ht as [Ht|Ht]; [unfold codec; rewrite Ht; by rewrite decide_False|].
      destruct (Z.gtb_spec (MaxValueBytes cfg) 0); [lia|]. rewrite orb_false_r in Esh.
      apply bool_decide_eq_true in Esh. unfold codec in *.
      destruct (decide (Compression cfg = EmptyString)) as [E|E]; [done|].
      destruct (decide (Compression cfg = CompressionGzip)) as [->|]; [done|].
      by rewrite !bool_decide_eq_true_2 in Hv. }
    rewrite Hc. destruct (Z.gtb_spec (len (EncryptionKey cfg)) 0).
    + edestruct (newEncryptingStore_ok (mkShapingStore store CompressionGzip (MaxValueBytes cfg)) cfg)
        as (a & -> & Ha); [done|lia|]. intros [= <-]. split; [by split|]. simpl. eauto.
    + intros [= <-]. by split.
  - destruct (Z.gtb_spec (len (EncryptionKey cfg)) 0).
    + edestruct (newEncryptingStore_ok store cfg) as (a & -> & Ha); [done|lia|].
      intros [= <-]. split; [done|]. simpl. eauto.
    + by intros [= <-].
Qed.

(** *** Round trips

    Through a store that is [ok], a [good] value whose [Set] under [k] for [ttl]
    succeeded is what a [Get] that ends within the TTL returns, or it reports an error.
    This is less than the contract, and holds where a value can spoil the contract. *)
Definition roundtrips {S} `{Store S} (ok : S -> Prop) (good : bytes -> Prop) (k : string) (ttl : Z) : Prop :=
  forall ctx ctx' v w s w1 s1 w2 r w3 s3, good v -> ok s -> world_ok w ->
    Store_Set ctx k v ttl w s = (None, w1, s1) -> later w1 w2 ->
    Store_Get ctx' k w2 s1 = (r, w3, s3) -> now w3 <= now w + ttl -> hit_or_error v r.

Lemma roundtrips_all {S} `{Store S} (ok : S -> Prop) (good : bytes -> Prop) k ttl :
  roundtrips ok (fun _ => True) k ttl -> roundtrips ok good k ttl.
Proof. intros Hrt ctx ctx' v w s w1 s1 w2 r w3 s3 _. by apply Hrt. Qed.

(** From what [Get] and [Set] promise of a view. *)
Lemma view_roundtrips {S} `{Store S} `{KeySpace S} (ok : S -> Prop) (peek : S -> Z -> string -> option bytes) grain k ttl :
  (forall ctx w s r w' s', world_ok w -> ok s -> Store_Get ctx k w s = (r, w', s') -> get_post peek k w s r w' s') ->
  (forall ctx v w s w' s', world_ok w -> ok s -> Store_Set ctx k v ttl w s = (None, w', s') ->
     ok s' /\ stored peek grain ttl w w' s' k v) ->
  roundtrips ok (fun _ => True) k ttl.
Proof.
  intros Hget Hset ctx ctx' v w s w1 s1 w2 r w3 s3 _ Hs Hw E1 Hl E2 Hn.
  apply Hset in E1 as (Hs1 & Hvis & _); [|done..]. apply Hget in E2 as [_ Hr]; [|by eauto with go|done].
  apply later_now in Hl.
  destruct r as [[b []] [e|]]; [done | | right; eauto |]; left;
    destruct Hr as (t & Ht & Et); rewrite Hvis in Et by lia; by simplify_eq.
Qed.

Lemma contract_roundtrips {S} `{StoreContract S} k ttl :
  storable (S := S) k ttl -> ttl_ok ttl -> roundtrips (S := S) sc_ok (fun _ => True) k ttl.
Proof.
  intros Hk Ht. apply (view_roundtrips _ sc_peek sc_grain).
  - intros ctx w s r w' s' Hw Hs E. by apply sc_get in E as (_ & _ & ?).
  - intros ctx v w s w' s' Hw Hs E. apply sc_set in E as (_ & ? & _ & Hst); [|done..]. auto.
Qed.

(** The shaping store returns a value that decodes to itself. *)
Lemma shaping_roundtrips {S} `{Store S} `{GzipLaws} (ok : S -> Prop) (good : bytes -> Prop) codec k ttl :
  codec = CompressionGzip \/ (forall v, good v -> unmarked compressionMagic v = true) ->
  roundtrips ok (fun _ => True) k ttl ->
  roundtrips (fun s => ok (ss_inner s) /\ ss_codec s = codec) good k ttl.
Proof.
  intros Hc Hrt ctx ctx' v w [i c m] w1 s1 w2 r w3 s3 Hv [Hi Ec] Hw. simpl in *. subst c.
  unfold shapingStore_Set, shapingStore_Get, ss_call. go_simpl. simpl.
  destruct (encodeValue codec m v) as [e|e] eqn:Ee; [|done]. simpl.
  destruct (Store_Set ctx k e ttl w i) as [[err w1'] i1] eqn:E1. intros [= -> -> <-] Hl. simpl.
  destruct (Store_Get ctx' k w2 i1) as [[r0 w3'] i3] eqn:E2. intros E3 Hn.
  assert (w3' = w3) as ->.
  { destruct r0 as [[b ok0] err0]. destruct (_ || _); [|destruct (decodeValue b m)]; by simplify_eq. }
  assert (He : decodeValue e m = inl v).
  { apply (decodeValue_encodeValue codec m v e Ee). destruct Hc as [?|Hc]; [by left | right; by apply Hc]. }
  destruct (Hrt ctx ctx' e w i w1 i1 w2 r0 w3 i3 I Hi Hw E1 Hl E2 Hn) as [->|(b & e0 & ->)]; simpl in E3.
  - rewrite He in E3. injection E3 as <- _. by left.
  - injection E3 as <- _. right. eauto.
Qed.

(** The encrypting store hands down sealed values only. *)
Lemma encrypting_roundtrips {S} `{Store S} `{CryptoLaws} (ok : S -> Prop) (good : bytes -> Prop) key a k ttl :
  cipher_NewGCM key = inl a -> (forall nonce v, good (sealed a nonce v)) ->
  roundtrips ok good k ttl ->
  roundtrips (fun s => ok (es_inner s) /\ es_aead s = a) (fun _ => True) k ttl.
Proof.
  intros Hkey Hgood Hrt ctx ctx' v w [i a'] w1 s1 w2 r w3 s3 _ [Hi Ea] Hw. simpl in *. subst a'.
  unfold encryptingStore_Set, encryptingStore_Get, es_call. go_simpl. simpl.
  destruct (encrypt a v w _) as [[r1 w0] s0] eqn:Ee. apply encrypt_result in Ee as (-> & -> & Hr1); [|done].
  destruct r1 as [e|e]; [|done]. destruct (Hr1 e eq_refl) as (nonce & Hn0 & ->). simpl.
  destruct (Store_Set ctx k _ ttl (drawWorld w) i) as [[err w1'] i1] eqn:E1. intros [= -> -> <-] Hl. simpl.
  destruct (Store_Get ctx' k w2 i1) as [[r0 w3'] i3] eqn:E2. intros E3 Hn.
  assert (w3' = w3) as ->.
  { destruct r0 as [[b ok0] err0]. destruct (_ || _); [|destruct (decrypt a b)]; by simplify_eq. }
  destruct (Hrt ctx ctx' _ (drawWorld w) i w1 i1 w2 r0 w3 i3 (Hgood nonce v) Hi Hw E1 Hl E2 Hn)
    as [->|(b & e0 & ->)]; simpl in E3.
  - rewrite (decrypt_sealed key) in E3 by done. injection E3 as <- _. by left.
  - injection E3 as <- _. right. eauto.
Qed.

(** The values a configuration can read back: every value with gzip, with encryption
    or without a size limit; a size limit alone stores values raw, and one that starts
    with the compression marker is then taken for a compressed one. *)
Definition readable (cfg : BaseConfig) (v : bytes) : Prop :=
  Compression cfg = CompressionGzip \/ MaxValueBytes cfg <= 0 \/ EncryptionKey cfg <> [] \/
  unmarked compressionMagic v = true.

Lemma sealed_unmarked a nonce v : unmarked compressionMagic (sealed a nonce v) = true.
Proof. unfold unmarked, sealed. simpl. by rewrite orb_true_r. Qed.

Lemma ValidateBaseConfig_codec cfg :
  ValidateBaseConfig cfg = None ->
  Compression cfg = EmptyString \/ Compression cfg = CompressionNone \/ Compression cfg = CompressionGzip.
Proof.
  unfold ValidateBaseConfig. destruct (_ <? 0); [done|].
  destruct (decide (Compression cfg = EmptyString)), (decide (Compression cfg = CompressionNone)),
    (decide (Compression cfg = CompressionGzip)); auto. by rewrite !bool_decide_eq_true_2.
Qed.

(** A call on the interface is a call on the value in it. *)
Lemma boxed_roundtrips {S T} `{Store S} `{Gzip} `{Store T} (box : T -> wrappedStore S) (ok : T -> Prop) good k ttl t :
  (forall A (op : forall T, Store T -> M T A) w t, dispatch op w (box t) = let '(a, w', t') := op T _ w t in (a, w', box t')) ->
  roundtrips ok good k ttl -> ok t -> roundtrips (fun y => y = box t) good k ttl.
Proof.
  intros Hbox Hrt Ht ctx ctx' v w y w1 s1 w2 r w3 s3 Hv -> Hw. simpl. rewrite Hbox.
  destruct (Store_Set ctx k v ttl w t) as [[err w1'] t1] eqn:E1. intros [= -> -> <-] Hl. rewrite Hbox.
  destruct (Store_Get ctx' k w2 t1) as [[r0 w3'] t3] eqn:E2. intros [= -> -> _]. by apply (Hrt ctx ctx' v w t w1 t1 w2 r w3 t3).
Qed.

Lemma WrapStore_roundtrip {S} `{Store S} `{GzipLaws} `{CryptoLaws} (ok : S -> Prop) (store : S) cfg x k ttl :
  roundtrips ok (fun _ => True) k ttl -> ok store -> WrapStore store cfg = (x, None) ->
  roundtrips (fun y => y = x) (readable cfg) k ttl.
Proof.
  intros Hrt Hs. unfold WrapStore. destruct (ValidateBaseConfig cfg) as [e|] eqn:Hv; [done|].
  set (codec := if decide (Compression cfg = EmptyString) then CompressionNone else Compression cfg).
  assert (Hkey : EncryptionKey cfg <> [] -> len (EncryptionKey cfg) > 0).
  { intros Hne. unfold len. destruct (EncryptionKey cfg); [done|]. simpl. lia. }
  destruct (bool_decide (codec <> CompressionNone) || (MaxValueBytes cfg >? 0)) eqn:Esh.
  - destruct (Z.gtb_spec (len (EncryptionKey cfg)) 0) as [Hk|Hk].
    + edestruct (newEncryptingStore_ok (mkShapingStore store codec (MaxValueBytes cfg)) cfg)
        as (a & -> & Ha); [done|lia|]. intros [= <-].
      eapply (boxed_roundtrips EncryptingShaping); [done| |].
      * eapply roundtrips_all, (encrypting_roundtrips _ (fun v => unmarked compressionMagic v = true)); [exact Ha|apply sealed_unmarked|].
        apply (shaping_roundtrips ok _ codec); [by right | done].
      * done.
    + intros [= <-]. eapply (boxed_roundtrips Shaping); [done|apply (shaping_roundtrips ok _ codec)|]; [|done|done].
      destruct (ValidateBaseConfig_codec cfg Hv) as [Hc|[Hc|Hc]]; unfold codec in *; rewrite Hc in Esh |- *.
      3: by left.
      all: right; intros v [Hg|[Hm|[?|?]]]; [by rewrite Hc in Hg| |pose proof (Hkey ltac:(done)); lia|done].
      all: by destruct (Z.gtb_spec (MaxValueBytes cfg) 0); [lia|].
  - destruct (Z.gtb_spec (len (EncryptionKey cfg)) 0).
    + edestruct (newEncryptingStore_ok store cfg) as (a & -> & Ha); [done|lia|].
      intros [= <-]. eapply (boxed_roundtrips Encrypting); [done| |].
      * eapply roundtrips_all, (encrypting_roundtrips ok (fun _ => True)); [exact Ha|done|done].
      * done.
    + intros [= <-]. apply (boxed_roundtrips Plain ok); [done|by apply roundtrips_all|done].
Qed.

(** C6: over any backend that keeps the store contract, and with every configuration
    of compression, size limit and encryption that [WrapStore] accepts, a value whose [Set]
    succeeded, under a key the backend can record for that TTL, is what a [Get]
    that ends within the TTL returns, or the read reports an error.  The value is any, except
    that with a size limit and neither compression nor encryption it must not itself start with
    the compression marker ([raw_marker_unreadable]). *)
Theorem WrapStore_set_get {S} `{StoreContract S} `{GzipLaws} `{CryptoLaws}
    (store : S) cfg x ctx ctx' k v ttl w w1 x1 w2 r w3 x3 :
  sc_ok store -> storable (S := S) k ttl -> readable cfg v -> WrapStore store cfg = (x, None) ->
  world_ok w -> ttl_ok ttl ->
  Store_Set ctx k v ttl w x = (None, w1, x1) -> later w1 w2 ->
  Store_Get ctx' k w2 x1 = (r, w3, x3) -> now w3 <= now w + ttl ->
  hit_or_error v r.
Proof.
  intros Hs Hk Hv Hx Hw Ht Hset Hl Hget Hn.
  exact (WrapStore_roundtrip _ store cfg x k ttl (contract_roundtrips k ttl Hk Ht) Hs Hx
    ctx ctx' v w x w1 x1 w2 r w3 x3 Hv eq_refl Hw Hset Hl Hget Hn).
Qed.

(** ** Concrete codecs, for the witnesses *)

Module Toy.
(** A two-byte header followed by the data itself. *)
Definition header : bytes := [x1f; x8b].

#[export] Instance gzip : Gzip := {|
  gzip_Write := fun v => inl (header ++ v);
  gzip_NewReader := fun p => bHasPrefix p header;
  gzip_ReadAll := fun lim p => inl (limited lim (drop 2 p))
|}.

Lemma gzip_ok : GzipLaws.
Proof.
  split.
  - intros v p lim [= <-]. done.
  - intros n p b Hn [= <-]. unfold limited, len. rewrite length_take. lia.
Qed.
#[export] Existing Instance gzip_ok.

(** The nonce, appended as the authentication tag. *)
Definition gcm : AEAD := {|
  NonceSize := 12;
  Seal := fun nonce plain => plain ++ nonce;
  Open := fun nonce c =>
    if bHasSuffix c nonce then Some (take (length c - length nonce) c) else None
|}.

#[export] Instance crypto : Crypto := {|
  aes_NewCipher := fun key => (len key =? 16) || (len key =? 24) || (len key =? 32);
  cipher_NewGCM := fun _ => inl gcm
|}.

Lemma crypto_ok : CryptoLaws.
Proof.
  split; simpl.
  - intros key. rewrite !orb_true_iff, !Z.eqb_eq. tauto.
  - eauto.
  - by intros key a [= <-].
  - intros key a nonce plain [= <-] Hn. simpl. unfold bHasSuffix.
    rewrite rev_app_distr, bHasPrefix_app, length_app.
    replace (length plain + length nonce - length nonce)%nat with (length plain) by lia.
    by rewrite take_app_length.
Qed.
#[export] Existing Instance crypto_ok.
End Toy.

Definition cfg_example : BaseConfig :=
  mkBaseConfig 0 "app" CompressionGzip 128 (bytes_of_string "0123456789abcdef").

(** The envelope laws at a concrete value, with both decorators' codecs. *)
Lemma decodeValue_encodeValue_witness :
  exists e, encodeValue (H := Toy.gzip) CompressionGzip 64 (bytes_of_string "Ada") = inl e /\
    decodeValue (H := Toy.gzip) e 64 = inl (bytes_of_string "Ada").
Proof.
  eexists. split; [vm_compute; reflexivity|].
  refine (decodeValue_encodeValue (H := Toy.gzip) (H0 := Toy.gzip_ok)
    CompressionGzip 64 (bytes_of_string "Ada") _ _ _); [vm_compute; reflexivity | by left].
Defined.

Lemma decodeValue_bounded_witness :
  len (bytes_of_string "Ada") <= 64.
Proof.
  refine (decodeValue_bounded (H := Toy.gzip) (bytes_of_string "Ada") 64 _ _ _);
    [lia | vm_compute; reflexivity].
Defined.

Lemma decrypt_encrypt_witness :
  exists e, encrypt Toy.gcm (bytes_of_string "Ada") world_example tt
              = (inl e, drawWorld world_example, tt) /\
    decrypt Toy.gcm e = inl (bytes_of_string "Ada").
Proof.
  exists (sealed Toy.gcm (replicate 12 x2a) (bytes_of_string "Ada")). split; [reflexivity|].
  exact (decrypt_encrypt (H := Toy.crypto) (H0 := Toy.crypto_ok) [] Toy.gcm
    (bytes_of_string "Ada") world_example tt _ _ tt world_example_ok eq_refl eq_refl).
Defined.

(** A key of five bytes is refused before the backend is reached. *)
Definition cfg_bad_key : BaseConfig :=
  mkBaseConfig 0 "app" CompressionGzip 128 (bytes_of_string "short").

Lemma WrapStore_fails_closed_witness :
  ValidateBaseConfig cfg_bad_key = Some ErrEncryptionKey /\
  WrapStore (H0 := Toy.crypto) (mkFailingStore DriverRedis ErrNotExist) cfg_bad_key
    = (Failing (mkFailingStore DriverRedis ErrEncryptionKey), Some ErrEncryptionKey).
Proof.
  split; [reflexivity|].
  refine (proj2 (WrapStore_fails_closed (H0 := Toy.crypto) (H1 := Toy.crypto_ok)
    (mkFailingStore DriverRedis ErrNotExist) cfg_bad_key _ _) _).
  split; reflexivity.
Defined.
