(* ===== verification/MemoryStore.v ===== *)
(** * store_memory.go: the in-process backend

    [memoryStore] sits on the third-party package patrickmn/go-cache, which is
    a parameter here: [GoCache] lists the methods the store calls and
    [GoCacheLaws] what go-cache documents about them (an item is visible until
    its expiration, [Add] refuses a key that has an unexpired item, [Items]
    copies the unexpired items).  The store's mutex makes [LockAcquire],
    [LockRelease] and [Increment] atomic, so each is one step of the model. *)

From stdpp Require Import sorting.
From S2P Require Import Prelude GoStd CacheCore InspectHelpers.
#[local] Open Scope Z_scope.
#[local] Open Scope go_scope.

(** ** The parameter *)

(** The dynamic value of an [interface{}] item, by the cases [readInt64] tells
    apart. *)
Inductive goValue :=
| VBytes (b : bytes) | VString (s : string)
| VInt (n : Z) | VInt64 (n : Z) | VInt32 (n : Z) | VInt16 (n : Z) | VInt8 (n : Z)
| VUint (n : Z) | VUint64 (n : Z) | VUint32 (n : Z) | VUint16 (n : Z) | VUint8 (n : Z)
| VOther.

(** [gocache.Item] *)
Record goItem := mkItem { Object : goValue; Expiration : Z }.

Class GoCache (G : Type) := {
  gc_New : Z -> Z -> G;
  gc_Get : string -> M G (goValue * bool);
  gc_Set : string -> goValue -> Z -> M G unit;
  gc_Add : string -> goValue -> Z -> M G (option error);
  gc_Delete : string -> M G unit;
  gc_Flush : M G unit;
  gc_Items : M G (list (string * goItem))
}.

Definition alreadyExists : string := "already exists".

Class GoCacheLaws (G : Type) `{GoCache G} := {
  gc_ok : G -> Prop;
  gc_peek : G -> Z -> string -> option goValue;
  gc_new d i : 0 < d -> gc_ok (gc_New d i) /\ (forall t k, gc_peek (gc_New d i) t k = None);
  gc_get k w g v ok w' g' :
    world_ok w -> gc_ok g -> gc_Get k w g = ((v, ok), w', g') ->
    later w w' /\ gc_ok g' /\ (forall k', same_key gc_peek w' g g' k') /\
    seen gc_peek w w' g k (if ok then Some v else None);
  gc_set k v ttl w g w' g' :
    world_ok w -> gc_ok g -> 0 < ttl -> gc_Set k v ttl w g = (tt, w', g') ->
    later w w' /\ gc_ok g' /\ (forall k', k' <> k -> same_key gc_peek w' g g' k') /\
    stored gc_peek 0 ttl w w' g' k v;
  gc_add k v ttl w g err w' g' :
    world_ok w -> gc_ok g -> 0 < ttl -> gc_Add k v ttl w g = (err, w', g') ->
    later w w' /\ gc_ok g' /\ (forall k', k' <> k -> same_key gc_peek w' g g' k') /\
    match err with
    | None => seen gc_peek w w' g k None /\ stored gc_peek 0 ttl w w' g' k v
    | Some e => (exists v', seen gc_peek w w' g k (Some v')) /\ same_key gc_peek w' g g' k /\
                Contains (Error e) alreadyExists = true
    end;
  gc_delete k w g w' g' :
    world_ok w -> gc_ok g -> gc_Delete k w g = (tt, w', g') ->
    later w w' /\ gc_ok g' /\ (forall k', k' <> k -> same_key gc_peek w' g g' k') /\
    removed gc_peek w' g' k;
  gc_flush w g w' g' :
    world_ok w -> gc_ok g -> gc_Flush w g = (tt, w', g') ->
    later w w' /\ gc_ok g' /\ forall k, removed gc_peek w' g' k;
  gc_items w g items w' g' :
    world_ok w -> gc_ok g -> gc_Items w g = (items, w', g') ->
    later w w' /\ gc_ok g' /\ (forall k, same_key gc_peek w' g g' k) /\
    NoDup (items.*1) /\
    exists t, now w <= t <= now w' /\
      forall k v, (exists it, (k, it) ∈ items /\ Object it = v) <-> gc_peek g t k = Some v
}.

(** ** Definitions *)

Definition defaultCacheTTL : Z := 5 * Minute.
Definition defaultMemoryCleanupInterval : Z := 10 * Minute.

Record memoryStore (G : Type) := mkMemoryStore { mem_cache : G; mem_defaultTTL : Z }.
Arguments mkMemoryStore {G}.
Arguments mem_cache {G}.
Arguments mem_defaultTTL {G}.

Section Memory.
Context {G : Type} `{GoCache G}.

Definition newMemoryStore (defaultTTL cleanupInterval : Z) : memoryStore G :=
  let defaultTTL := if defaultTTL <=? 0 then defaultCacheTTL else defaultTTL in
  let cleanupInterval :=
    if cleanupInterval <=? 0 then defaultMemoryCleanupInterval else cleanupInterval in
  mkMemoryStore (gc_New defaultTTL cleanupInterval) defaultTTL.

(** A call of a method of [s.cache]. *)
Definition mem_zoom {A} (m : M G A) : M (memoryStore G) A :=
  zoom mem_cache (fun g s => mkMemoryStore g (mem_defaultTTL s)) m.

(** [if ttl <= 0 { ttl = s.defaultTTL }] *)
Definition mem_ttl (s : memoryStore G) (ttl : Z) : Z :=
  if ttl <=? 0 then mem_defaultTTL s else ttl.

Definition mem_Get (_ : Context) (key : string) : M (memoryStore G) (bytes * bool * option error) :=
  let* (item, ok) := mem_zoom (gc_Get key) in
  if negb ok then ret ([], false, None)
  else match item with
       | VBytes body => ret (body, true, None)
       | _ => ret ([], false, None)
       end.

Definition mem_Set (_ : Context) (key : string) (value : bytes) (ttl : Z)
    : M (memoryStore G) (option error) :=
  let* s := get in
  mem_zoom (gc_Set key (VBytes value) (mem_ttl s ttl)) ;;
  ret None.

Definition mem_Add (_ : Context) (key : string) (value : bytes) (ttl : Z)
    : M (memoryStore G) (bool * option error) :=
  let* s := get in
  let* err := mem_zoom (gc_Add key (VBytes value) (mem_ttl s ttl)) in
  match err with
  | Some e => if Contains (Error e) alreadyExists then ret (false, None) else ret (false, Some e)
  | None => ret (true, None)
  end.

Definition mem_LockAcquire (ctx : Context) (key : string) (owner : bytes) (ttl : Z)
    : M (memoryStore G) (bool * option error) := mem_Add ctx key owner ttl.

Definition mem_LockRelease (_ : Context) (key : string) (owner : bytes)
    : M (memoryStore G) (bool * option error) :=
  let* (body, ok) := mem_zoom (gc_Get key) in
  if negb ok then ret (false, None)
  else match body with
       | VBytes value =>
           if bool_decide (value = owner)
           then mem_zoom (gc_Delete key) ;; ret (true, None)
           else ret (false, None)
       | _ => ret (false, None)
       end.

Definition notNumeric (key : string) : error :=
  ErrorString ("cache key " +:+ quoted key +:+ " does not contain a numeric value").
Definition overflowsInt64 (key : string) : error :=
  ErrorString ("cache key " +:+ quoted key +:+ " overflows int64").

(** The type switch of [readInt64]; [int64(value)] is two's-complement. *)
Definition int64Of (key : string) (body : goValue) : Z * bool * option error :=
  match body with
  | VBytes value =>
      match ParseInt (string_of_bytes value) with
      | Some n => (n, true, None)
      | None => (0, false, Some (notNumeric key))
      end
  | VString value =>
      match ParseInt value with
      | Some n => (n, true, None)
      | None => (0, false, Some (notNumeric key))
      end
  | VInt n | VInt64 n | VInt32 n | VInt16 n | VInt8 n => (wrap64 n, true, None)
  | VUint n => (wrap64 n, true, None)
  | VUint64 n =>
      if n >? Z.shiftr (uint64_mod - 1) 1 then (0, false, Some (overflowsInt64 key))
      else (wrap64 n, true, None)
  | VUint32 n | VUint16 n | VUint8 n => (wrap64 n, true, None)
  | VOther => (0, false, Some (notNumeric key))
  end.

Definition mem_readInt64 (key : string) : M (memoryStore G) (Z * bool * option error) :=
  let* (body, ok) := mem_zoom (gc_Get key) in
  if negb ok then ret (0, false, None) else ret (int64Of key body).

Definition mem_Increment (_ : Context) (key : string) (delta ttl : Z)
    : M (memoryStore G) (Z * option error) :=
  let* (current, _, err) := mem_readInt64 key in
  match err with
  | Some e => ret (0, Some e)
  | None =>
      let next := wrap64 (current + delta) in
      let* s := get in
      mem_zoom (gc_Set key (VBytes (bytes_of_string (FormatInt next))) (mem_ttl s ttl)) ;;
      ret (next, None)
  end.

Definition mem_Decrement (ctx : Context) (key : string) (delta ttl : Z)
    : M (memoryStore G) (Z * option error) := mem_Increment ctx key (wrap64 (- delta)) ttl.

Definition mem_Delete (_ : Context) (key : string) : M (memoryStore G) (option error) :=
  mem_zoom (gc_Delete key) ;; ret None.

Definition mem_DeleteMany (_ : Context) (keys : list string) : M (memoryStore G) (option error) :=
  forEach (fun key => mem_zoom (gc_Delete key)) keys ;; ret None.

Definition mem_Flush (_ : Context) : M (memoryStore G) (option error) :=
  mem_zoom gc_Flush ;; ret None.

Definition mem_Capabilities (_ : memoryStore G) : InspectorCapabilities :=
  mkCapabilities true true true true.

(** One iteration of the loop of [ListPage]. *)
Definition mem_entry (ki : string * goItem) : CacheEntry :=
  let '(key, item) := ki in
  let size := match Object item with VBytes v => len v | VString v => slen v | _ => 0 end in
  let expiresAt :=
    if Expiration item >? 0 then Some (UnixMilli (Expiration item)) else None in
  mkCacheEntry key size expiresAt.

Definition mem_ListPage (_ : Context) (opts : ListPageOptions)
    : M (memoryStore G) (ListPageResult * option error) :=
  let* items := mem_zoom gc_Items in
  ret (pageOf (map mem_entry items) opts).

Definition mem_lock_ops : LockStore (memoryStore G) :=
  mkLockStore _ mem_LockAcquire mem_LockRelease.
Definition mem_inspector : Inspector (memoryStore G) :=
  mkInspector _ mem_Capabilities mem_ListPage.

#[export] Instance memoryStore_Store : Store (memoryStore G) := {|
  Store_Driver := fun _ => DriverMemory;
  Store_Ready := fun _ => ret None;
  Store_Get := mem_Get;
  Store_Set := mem_Set;
  Store_Add := mem_Add;
  Store_Increment := mem_Increment;
  Store_Decrement := mem_Decrement;
  Store_Delete := mem_Delete;
  Store_DeleteMany := mem_DeleteMany;
  Store_Flush := mem_Flush;
  Store_lockStore := fun _ => Some mem_lock_ops;
  Store_Inspector := fun _ => Some mem_inspector
|}.
End Memory.

(** ** The contracts *)

Definition asBytes (v : goValue) : option bytes :=
  match v with VBytes b => Some b | _ => None end.

(** The numeral a counter item stands for; other items are not numerals. *)
Definition asCounter (v : goValue) : option bytes :=
  Some match v with
       | VBytes b => b
       | VString s => bytes_of_string s
       | VInt n | VInt64 n | VInt32 n | VInt16 n | VInt8 n
       | VUint n | VUint64 n | VUint32 n | VUint16 n | VUint8 n =>
           bytes_of_string (FormatInt (wrap64 n))
       | VOther => []
       end.

Lemma int64Of_counts key v n ok :
  int64Of key v = (n, ok, None) -> counts (asCounter v) n.
Proof.
  assert (forall z, ParseInt (string_of_bytes (bytes_of_string (FormatInt (wrap64 z)))) = Some (wrap64 z)).
  { intros z. rewrite string_of_bytes_of_string. apply ParseInt_FormatInt, wrap64_range. }
  destruct v as [b|s|z|z|z|z|z|z|z|z|z|z|]; simpl; intros E.
  - destruct (ParseInt _) eqn:Ep; simplify_eq. done.
  - rewrite string_of_bytes_of_string. by destruct (ParseInt _) eqn:Ep; simplify_eq.
  - by simplify_eq.
  - by simplify_eq.
  - by simplify_eq.
  - by simplify_eq.
  - by simplify_eq.
  - by simplify_eq.
  - destruct (_ >? _); by simplify_eq.
  - by simplify_eq.
  - by simplify_eq.
  - by simplify_eq.
  - done.
Qed.

(** Distinct keys are distinct items. *)
#[export] Instance memoryStore_keys {G} : KeySpace (memoryStore G) := allKeys.

Section MemoryContract.
Context {G : Type} `{GoCacheLaws G}.
Implicit Types s : memoryStore G.

Definition mem_ok s : Prop := gc_ok (mem_cache s) /\ ttl_ok (mem_defaultTTL s).
Definition mem_peek : memoryStore G -> Z -> string -> option bytes :=
  through gc_peek mem_cache asBytes.
Definition mem_count : memoryStore G -> Z -> string -> option bytes :=
  through gc_peek mem_cache asCounter.
Definition mem_occupied s t k : Prop := is_Some (gc_peek (mem_cache s) t k).

Lemma mem_peek_occupied s t k b : mem_peek s t k = Some b -> mem_occupied s t k.
Proof. unfold mem_peek, through, mem_occupied. destruct (gc_peek _ _ _); [eauto | done]. Qed.

Lemma mem_ttl_pos s ttl : mem_ok s -> 0 < mem_ttl s ttl.
Proof. intros [_ [? _]]. unfold mem_ttl. destruct (Z.leb_spec ttl 0); lia. Qed.

Lemma mem_ttl_id s ttl : ttl_ok ttl -> mem_ttl s ttl = ttl.
Proof. intros [? _]. unfold mem_ttl. destruct (Z.leb_spec ttl 0); [lia | done]. Qed.

(** A method of [s.cache] leaves the default TTL alone. *)
Lemma mem_zoom_inv {A} (m : M G A) w s a w' s' :
  mem_zoom m w s = (a, w', s') ->
  exists g', m w (mem_cache s) = (a, w', g') /\ s' = mkMemoryStore g' (mem_defaultTTL s).
Proof.
  unfold mem_zoom, zoom. destruct (m w (mem_cache s)) as [[a1 w1] g1]. intros [= <- <- <-]. eauto.
Qed.

Lemma mem_get ctx k w s r w' s' :
  world_ok w -> mem_ok s -> mem_Get ctx k w s = (r, w', s') ->
  later w w' /\ mem_ok s' /\ get_post mem_peek k w s r w' s'.
Proof.
  intros Hw [Hg Hd]. unfold mem_Get. go_simpl.
  destruct (mem_zoom _ w s) as [[[v ok] w1] s1] eqn:E.
  apply mem_zoom_inv in E as (g1 & E & ->). apply gc_get in E as (Hl & Hg1 & Hs & Hv); [|done..].
  apply (through_seen gc_peek mem_cache asBytes) in Hv.
  destruct ok; [destruct v|]; intros [= <- <- <-];
    (split; [done|]; split; [by split|]; split; [|exact Hv]; intros k'; by apply through_same_key).
Qed.

Lemma mem_set ctx k v ttl w s err w' s' :
  world_ok w -> mem_ok s -> ttl_ok ttl -> mem_Set ctx k v ttl w s = (err, w', s') ->
  later w w' /\ mem_ok s' /\ set_post mem_peek 0 k v ttl w s err w' s'.
Proof.
  intros Hw [Hg Hd] Ht. unfold mem_Set. go_simpl. rewrite mem_ttl_id by done.
  destruct (mem_zoom _ w s) as [[[] w1] s1] eqn:E.
  apply mem_zoom_inv in E as (g1 & E & ->).
  apply gc_set in E as (Hl & Hg1 & Hs & Hv); [| done.. | by destruct Ht]. intros [= <- <- <-].
  split; [done|]. split; [by split|]. split.
  - intros k' Hk. by apply through_same_key, Hs.
  - intros _. by eapply through_stored.
Qed.

Lemma mem_add ctx k v ttl w s r w' s' :
  world_ok w -> mem_ok s -> ttl_ok ttl -> mem_Add ctx k v ttl w s = (r, w', s') ->
  later w w' /\ mem_ok s' /\ add_post mem_peek mem_occupied 0 k v ttl w s r w' s'.
Proof.
  intros Hw [Hg Hd] Ht. unfold mem_Add. go_simpl. rewrite mem_ttl_id by done.
  destruct (mem_zoom _ w s) as [[err w1] s1] eqn:E.
  apply mem_zoom_inv in E as (g1 & E & ->).
  apply gc_add in E as (Hl & Hg1 & Hs & Hv); [| done.. | by destruct Ht].
  destruct err as [e|].
  - destruct Hv as ((v' & t & Hr & Hv) & Hk & ->). intros [= <- <- <-].
    split; [done|]. split; [by split|]. split; [intros k' ?; by apply through_same_key, Hs|].
    split; [|intros k'; by apply through_same_key, same_key_all with k]. exists t. unfold mem_occupied.
    rewrite Hv. eauto.
  - destruct Hv as ((t & Hr & Hv) & Hk). intros [= <- <- <-].
    split; [done|]. split; [by split|]. split; [intros k' ?; by apply through_same_key, Hs|].
    split; [|intros _; by eapply through_stored]. exists t. unfold mem_occupied. rewrite Hv.
    split; [done|]. by intros [].
Qed.

Lemma mem_delete ctx k w s err w' s' :
  world_ok w -> mem_ok s -> mem_Delete ctx k w s = (err, w', s') ->
  later w w' /\ mem_ok s' /\ delete_post mem_peek k w s err w' s'.
Proof.
  intros Hw [Hg Hd]. unfold mem_Delete. go_simpl.
  destruct (mem_zoom _ w s) as [[[] w1] s1] eqn:E.
  apply mem_zoom_inv in E as (g1 & E & ->).
  apply gc_delete in E as (Hl & Hg1 & Hs & Hv); [|done..]. intros [= <- <- <-].
  split; [done|]. split; [by split|]. split; [intros k' ?; by apply through_same_key, Hs|].
  by apply through_removed.
Qed.

(** The loop of [DeleteMany]. *)
Lemma mem_delete_loop ks w s w' s' :
  world_ok w -> mem_ok s ->
  forEach (fun key => mem_zoom (gc_Delete key)) ks w s = (tt, w', s') ->
  later w w' /\ mem_ok s' /\
  (forall k, k ∉ ks -> same_key mem_peek w' s s' k) /\ (forall k, k ∈ ks -> removed mem_peek w' s' k).
Proof.
  revert w s. induction ks as [|k ks IH]; intros w s Hw Hok; cbn [forEach].
  { intros [= <- <-]. split; [by apply later_refl|]. split; [done|].
    split; [by intros k _ t _ | intros k Hk; by apply elem_of_nil in Hk]. }
  intros E. pose proof (mem_delete Background k w s None) as Hd. unfold mem_Delete in Hd.
  go_simpl_in Hd. go_simpl_in E. destruct (mem_zoom _ w s) as [[[] w1] s1] eqn:E1.
  destruct (Hd _ _ Hw Hok eq_refl) as (Hl & Hok1 & Hs & Hr).
  apply IH in E as (Hl' & Hok' & Hs' & Hr'); [|by eauto with go..].
  pose proof (later_now _ _ Hl').
  split; [by eapply later_trans|]. split; [done|]. split.
  - intros k' [Hk ?]%not_elem_of_cons t Ht. rewrite Hs' by done. apply Hs; [done | lia].
  - intros k' Hk. destruct (decide (k' ∈ ks)) as [|Hn]; [by apply Hr'|].
    apply elem_of_cons in Hk as [->|]; [|done].
    intros t Ht. rewrite Hs' by done. apply Hr. lia.
Qed.

Lemma mem_deleteMany ctx ks w s err w' s' :
  world_ok w -> mem_ok s -> mem_DeleteMany ctx ks w s = (err, w', s') ->
  later w w' /\ mem_ok s' /\ deleteMany_post mem_peek ks w s err w' s'.
Proof.
  intros Hw Hok. unfold mem_DeleteMany. go_simpl.
  destruct (forEach _ ks w s) as [[[] w1] s1] eqn:E. intros [= <- <- <-].
  apply mem_delete_loop in E as (? & ? & Hs & ?); [|done..]. split; [done|]. split; [done|].
  split; [|done]. intros k' Hk'. apply Hs. intros Hin. by apply (Hk' k').
Qed.

Lemma mem_flush ctx w s err w' s' :
  world_ok w -> mem_ok s -> mem_Flush ctx w s = (err, w', s') ->
  later w w' /\ mem_ok s' /\ flush_post mem_peek err w' s'.
Proof.
  intros Hw [Hg Hd]. unfold mem_Flush. go_simpl.
  destruct (mem_zoom _ w s) as [[[] w1] s1] eqn:E.
  apply mem_zoom_inv in E as (g1 & E & ->).
  apply gc_flush in E as (Hl & Hg1 & Hr); [|done..]. intros [= <- <- <-].
  split; [done|]. split; [by split|]. intros k. by apply through_removed.
Qed.

Lemma mem_release ctx k owner w s r w' s' :
  world_ok w -> mem_ok s -> mem_LockRelease ctx k owner w s = (r, w', s') ->
  later w w' /\ mem_ok s' /\ release_post mem_peek k owner w s r w' s'.
Proof.
  intros Hw [Hg Hd]. unfold mem_LockRelease. go_simpl.
  destruct (mem_zoom (gc_Get k) w s) as [[[v ok] w1] s1] eqn:E.
  apply mem_zoom_inv in E as (g1 & E & ->). apply gc_get in E as (Hl & Hg1 & Hs & Hv); [|done..].
  apply (through_seen gc_peek mem_cache asBytes) in Hv.
  assert (Hkeep : forall v', (if ok then Some v else None) ≫= asBytes = v' -> v' <> Some owner ->
    later w w1 /\ mem_ok (mkMemoryStore g1 (mem_defaultTTL s)) /\
    release_post mem_peek k owner w s (false, None) w1 (mkMemoryStore g1 (mem_defaultTTL s))).
  { intros v' <- Hne. split; [done|]. split; [by split|].
    split; [intros k' _; by apply through_same_key|].
    split; [eauto | intros k'; by apply through_same_key]. }
  destruct ok; [destruct v as [b| | | | | | | | | | | |]|]; cbn [negb];
    try (intros [= <- <- <-]; by eapply Hkeep).
  case_bool_decide as Hb; [|intros [= <- <- <-]; eapply Hkeep; [done | simpl; congruence]]. subst b.
  destruct (mem_zoom (gc_Delete k) w1 _) as [[[] w2] s2] eqn:E.
  apply mem_zoom_inv in E as (g2 & E & ->). intros [= <- <- <-].
  apply gc_delete in E as (Hl2 & Hg2 & Hs2 & Hr); [|by eauto with go..]. simpl in *.
  pose proof (later_now _ _ Hl2).
  split; [by eapply later_trans|]. split; [by split|]. split.
  - intros k' Hk. apply through_same_key. intros t Ht. simpl. rewrite Hs2 by done. apply Hs. lia.
  - split; [|by apply through_removed]. destruct Hv as (t & Ht & Ev). left. exists t. split; [lia | done].
Qed.

(** A successful [readInt64] returns the number of the item it saw. *)
Lemma mem_readInt64_inv k w s c ok err w' s' :
  world_ok w -> mem_ok s -> mem_readInt64 k w s = ((c, ok, err), w', s') ->
  later w w' /\ mem_ok s' /\ (forall k', same_key gc_peek w' (mem_cache s) (mem_cache s') k') /\
  (err = None -> exists v, seen mem_count w w' s k v /\ counts v c).
Proof.
  intros Hw [Hg Hd]. unfold mem_readInt64. go_simpl.
  destruct (mem_zoom (gc_Get k) w s) as [[[v ok'] w1] s1] eqn:E.
  apply mem_zoom_inv in E as (g1 & E & ->). apply gc_get in E as (Hl & Hg1 & Hs & Hv); [|done..].
  apply (through_seen gc_peek mem_cache asCounter) in Hv.
  destruct ok'; simpl.
  - destruct (int64Of k v) as [[c' ok'] err'] eqn:E. intros [= <- <- <- <- <-].
    split; [done|]. split; [by split|]. split; [done|]. intros ->.
    eexists. split; [exact Hv|]. by eapply int64Of_counts.
  - intros [= <- <- <- <- <-]. split; [done|]. split; [by split|]. split; [done|].
    intros _. by exists None.
Qed.

Lemma mem_increment ctx k delta ttl w s r w' s' :
  world_ok w -> mem_ok s -> ttl_ok ttl -> mem_Increment ctx k delta ttl w s = (r, w', s') ->
  later w w' /\ mem_ok s' /\ increment_post mem_count 0 k delta ttl w s r w' s'.
Proof.
  intros Hw Hok Ht. unfold mem_Increment. go_simpl.
  destruct (mem_readInt64 k w s) as [[[[c ok] err] w1] s1] eqn:E.
  apply mem_readInt64_inv in E as (Hl & [Hg1 Hd1] & Hs & Hc); [|done..].
  destruct err as [e|].
  { intros [= <- <- <-]. split; [done|]. split; [by split|].
    split; [intros k' _; by apply through_same_key | done]. }
  rewrite mem_ttl_id by done.
  destruct (mem_zoom (gc_Set _ _ _) w1 _) as [[[] w2] s2] eqn:E.
  apply mem_zoom_inv in E as (g2 & E & ->). intros [= <- <- <-].
  apply gc_set in E as (Hl2 & Hg2 & Hs2 & Hst); [|by eauto with go..|by destruct Ht].
  pose proof (later_now _ _ Hl). pose proof (later_now _ _ Hl2).
  split; [by eapply later_trans|]. split; [by split|]. split; [|split].
  - intros k' Hk. apply through_same_key. intros t Ht'. simpl. rewrite Hs2 by done. apply Hs. lia.
  - destruct Hc as (v & (t & Htt & Ev) & Hcv); [done|]. exists v, c. split; [|done].
    exists t. split; [lia | done].
  - intros _. eapply (through_stored gc_peek mem_cache asCounter); [by eapply stored_widen; eauto with go | done].
Qed.

Lemma mem_decrement ctx k delta ttl w s r w' s' :
  world_ok w -> mem_ok s -> ttl_ok ttl -> mem_Decrement ctx k delta ttl w s = (r, w', s') ->
  later w w' /\ mem_ok s' /\ increment_post mem_count 0 k (wrap64 (- delta)) ttl w s r w' s'.
Proof. apply mem_increment. Qed.

#[export] Instance memoryStore_contract : StoreContract (memoryStore G) := {|
  sc_ok := mem_ok;
  sc_peek := mem_peek;
  sc_occupied := mem_occupied;
  sc_grain := 0;
  sc_grain_nonneg := Z.le_refl 0;
  sc_peek_occupied := mem_peek_occupied;
  sc_get := mem_get;
  sc_set := mem_set;
  sc_add := mem_add;
  sc_delete := mem_delete;
  sc_deleteMany := mem_deleteMany;
  sc_flush := mem_flush
|}.

#[export] Instance memoryStore_locks : LockContract (memoryStore G) := {|
  lc_ops := mem_lock_ops;
  lc_ok := mem_ok;
  lc_lockStore := fun _ _ => eq_refl;
  lc_peek := mem_peek;
  lc_occupied := mem_occupied;
  lc_peek_occupied := mem_peek_occupied;
  lc_grain := 0;
  lc_acquire := mem_add;
  lc_release := mem_release
|}.

#[export] Instance memoryStore_counters : CounterContract (memoryStore G) := {|
  cc_ok := mem_ok;
  cc_peek := mem_count;
  cc_grain := 0;
  cc_increment := mem_increment;
  cc_decrement := mem_decrement
|}.

(** A TTL or cleanup interval that is not positive is replaced by a default,
    so a fresh store is well-formed and empty. *)
Lemma newMemoryStore_ok d i :
  d < horizon -> mem_ok (newMemoryStore d i) /\ forall t k, mem_peek (newMemoryStore d i) t k = None.
Proof.
  intros Hd. unfold newMemoryStore.
  set (d' := if d <=? 0 then defaultCacheTTL else d).
  assert (ttl_ok d') as Ht.
  { unfold d', ttl_ok. destruct (Z.leb_spec d 0); [done | lia]. }
  set (i' := if i <=? 0 then defaultMemoryCleanupInterval else i).
  destruct (gc_new d' i') as [? Hp]; [by destruct Ht|]. split; [by split|].
  intros t k. unfold mem_peek, through. simpl. by rewrite Hp.
Qed.
End MemoryContract.

(** ** Listing *)

Lemma mem_entry_key ki : Key (mem_entry ki) = ki.1.
Proof. by destruct ki. Qed.

(** [ListPage] pages through a snapshot: the keys it lists, over all pages,
    are the keys of the unexpired items at one instant of the call that contain
    the filter term, each exactly once and in ascending order; a bad cursor is
    the only error, and listing changes nothing a reader can see. *)
Theorem mem_ListPage_snapshot {G} `{GoCacheLaws G} ctx opts w (s : memoryStore G) page err w' s' :
  world_ok w -> mem_ok s -> mem_ListPage ctx opts w s = ((page, err), w', s') ->
  later w w' /\ mem_ok s' /\ (forall k, same_key mem_peek w' s s' k) /\
  exists t entries,
    now w <= t <= now w' /\
    NoDup (map Key entries) /\ StronglySorted key_le entries /\
    (forall k, k ∈ map Key entries <->
       mem_occupied s t k /\ matches (TrimSpace (ListFilterTerm opts)) (mkCacheEntry k 0 None)) /\
    match DecodeOffsetCursor (opt_Cursor opts) with
    | (offset, None) => page = SliceEntries entries offset (opt_Limit opts) /\ err = None
    | (_, Some e) => page = emptyListPageResult /\ err = Some e
    end.
Proof.
  intros Hw [Hg Hd]. unfold mem_ListPage. go_simpl.
  destruct (mem_zoom gc_Items w s) as [[items w1] s1] eqn:E.
  apply mem_zoom_inv in E as (g1 & E & ->).
  apply gc_items in E as (Hl & Hg1 & Hs & Hn & t & Ht & Hi); [|done..]. intros [= E <- <-].
  split; [done|]. split; [by split|]. split; [intros k; by apply through_same_key|].
  exists t, (FilterAndSortEntries (map mem_entry items) (ListFilterTerm opts)).
  destruct (FilterAndSortEntries_spec (map mem_entry items) (ListFilterTerm opts)) as [Hsort Hperm].
  assert (Hkeys : map Key (map mem_entry items) = items.*1).
  { rewrite map_map. apply map_ext. intros [k it]. done. }
  split; [done|]. split; [|split; [done|split]].
  - rewrite Hperm. apply (sublist_NoDup (map Key (filter (matches _) _)) (map Key (map mem_entry items)));
      [by rewrite Hkeys | apply fmap_sublist, sublist_filter].
  - intros k. rewrite Hperm. change (k ∈ Key <$> filter (matches (TrimSpace (ListFilterTerm opts))) (map mem_entry items) <->
      mem_occupied s t k /\ matches (TrimSpace (ListFilterTerm opts)) (mkCacheEntry k 0 None)).
    rewrite list_elem_of_fmap. unfold mem_occupied, is_Some. setoid_rewrite <- Hi.
    setoid_rewrite list_elem_of_filter. split.
    + intros (e & -> & Hm & He). apply list_elem_of_fmap in He as ([k' it] & -> & Hin). simpl in *.
      split; [eauto | exact Hm].
    + intros ((v & it & Hin & <-) & Hm). exists (mem_entry (k, it)). split; [done|]. split; [exact Hm|].
      apply list_elem_of_fmap. eauto.
  - unfold pageOf in E. destruct (DecodeOffsetCursor _) as [o [e|]]; by simplify_eq.
Qed.

(** ** Numeric items *)

(** The number of an item that holds one, as a mathematical integer. *)
Definition itemNumber (v : goValue) : option Z :=
  match v with
  | VBytes b => ParseInt (string_of_bytes b)
  | VString s => ParseInt s
  | VInt n | VInt64 n | VInt32 n | VInt16 n | VInt8 n
  | VUint n | VUint64 n | VUint32 n | VUint16 n | VUint8 n => Some n
  | VOther => None
  end.

(** The values of each integer type are in its range. *)
Definition well_typed (v : goValue) : Prop :=
  match v with
  | VInt n | VInt64 n => in_int64 n
  | VInt32 n => -2147483648 <= n < 2147483648
  | VInt16 n => -32768 <= n < 32768
  | VInt8 n => -128 <= n < 128
  | VUint n | VUint64 n => 0 <= n < uint64_mod
  | VUint32 n => 0 <= n < 4294967296
  | VUint16 n => 0 <= n < 65536
  | VUint8 n => 0 <= n < 256
  | _ => True
  end.

(** [readInt64] reports success with exactly the number of the item when
    that number is an [int64], and an error when the item holds no number or
    (for a [uint64]) one that does not fit; the exception is an item of type
    [uint] at or above 2^63, which is accepted as a negative number. *)
Theorem int64Of_exact key v :
  well_typed v ->
  int64Of key v =
  match itemNumber v with
  | Some n =>
      if decide (in_int64 n) then (n, true, None)
      else match v with
           | VUint _ => (n - uint64_mod, true, None)
           | _ => (0, false, Some (overflowsInt64 key))
           end
  | None => (0, false, Some (notNumeric key))
  end.
Proof.
  assert (Hsmall : forall n, in_int64 n -> (wrap64 n, true, @None error) =
    if decide (in_int64 n) then (n, true, None) else (0, false, Some (overflowsInt64 key))).
  { intros n Hn. rewrite decide_True by done. by rewrite wrap64_id. }
  unfold in_int64, int64_min, int64_max in Hsmall.
  destruct v as [b|s|n|n|n|n|n|n|n|n|n|n|]; cbn [well_typed itemNumber int64Of]; intros Hty;
    try (apply Hsmall; unfold in_int64, int64_min, int64_max in *; lia).
  - destruct (ParseInt _) as [n|] eqn:E; [|done].
    by rewrite decide_True by (by eapply ParseInt_range).
  - destruct (ParseInt _) as [n|] eqn:E; [|done].
    by rewrite decide_True by (by eapply ParseInt_range).
  - destruct (decide (in_int64 n)) as [Hn|Hn]; [by rewrite wrap64_id|].
    assert (wrap64 n = n - uint64_mod) as ->; [|done].
    unfold wrap64, in_int64, int64_min, int64_max, uint64_mod in *.
    rewrite <- (Z_mod_plus_full _ (-1)), Z.mod_small; lia.
  - change (Z.shiftr (uint64_mod - 1) 1) with int64_max.
    destruct (Z.gtb_spec n int64_max); destruct (decide (in_int64 n)) as [Hn|Hn];
      try (unfold in_int64, int64_min, int64_max, uint64_mod in *; lia); [done|].
    by rewrite wrap64_id.
  - done.
Qed.

Lemma int64Of_exact_witness :
  well_typed (VUint (uint64_mod - 1)) /\ int64Of "hits" (VUint (uint64_mod - 1)) = (-1, true, None).
Proof.
  split; [vm_compute; split; [discriminate | reflexivity]|].
  refine (int64Of_exact "hits" (VUint (uint64_mod - 1)) _).
  vm_compute; split; [discriminate | reflexivity].
Defined.

(** ** A concrete engine, for the witnesses

    A map from keys to items, with an item visible up to its expiration. *)

Module GoMap.
Record engine := mkEngine { items : gmap string goItem; defaultExpiration : Z }.

Definition visible (t : Z) (it : goItem) : bool := negb ((Expiration it >? 0) && (t >? Expiration it)).
Definition peek (g : engine) (t : Z) (k : string) : option goValue :=
  it ← items g !! k; if visible t it then Some (Object it) else None.

Definition store k v d (now : Z) (g : engine) : engine :=
  mkEngine (<[k := mkItem v (now + d)]> (items g)) (defaultExpiration g).

#[export] Instance engine_GoCache : GoCache engine := {|
  gc_New := fun d _ => mkEngine ∅ d;
  gc_Get := fun k =>
    let* g := get in
    let* t := timeNow in
    ret match peek g t k with Some v => (v, true) | None => (VOther, false) end;
  gc_Set := fun k v d => let* t := timeNow in modify (store k v d t);
  gc_Add := fun k v d =>
    let* g := get in
    let* t := timeNow in
    match peek g t k with
    | Some _ => ret (Some (ErrorString ("Item " +:+ k +:+ " already exists")))
    | None => let* t := timeNow in modify (store k v d t) ;; ret None
    end;
  gc_Delete := fun k => modify (fun g => mkEngine (delete k (items g)) (defaultExpiration g));
  gc_Flush := modify (fun g => mkEngine ∅ (defaultExpiration g));
  gc_Items :=
    let* g := get in
    let* t := timeNow in
    ret (map_to_list (filter (fun p => visible t p.2 = true) (items g)))
|}.

Lemma peek_store_ne k k' v d n g t : k' <> k -> peek (store k v d n g) t k' = peek g t k'.
Proof. intros Hk. unfold peek. simpl. by rewrite lookup_insert_ne. Qed.

Lemma stored_store k v d (w w0 w' : World) g :
  world_ok w0 -> later w w0 -> now w0 <= now w' -> 0 < d ->
  stored peek 0 d w w' (store k v d (now w0) g) k v.
Proof.
  intros Hw Hl Hn Hd. apply later_now in Hl. pose proof (now_range _ Hw).
  unfold stored, peek. simpl. rewrite lookup_insert_eq. simpl. unfold visible. simpl.
  split; [|split]; intros t; destruct (Z.gtb_spec (now w0 + d) 0); try lia;
    destruct (Z.gtb_spec t (now w0 + d)); simpl; try done; try lia. congruence.
Qed.

Lemma error_already_exists k :
  Contains (Error (ErrorString ("Item " +:+ k +:+ " already exists"))) alreadyExists = true.
Proof.
  unfold Contains. rewrite bContains_spec. cbn [Error]. rewrite !bytes_of_string_app.
  exists (bytes_of_string "Item " ++ bytes_of_string k ++ bytes_of_string " "), [].
  by rewrite <- !app_assoc.
Qed.

#[export] Program Instance engine_laws : GoCacheLaws engine := {|
  gc_ok := fun _ => True;
  gc_peek := peek
|}.
Next Obligation. intros d i Hd. split; [done|]. intros t k. unfold peek. simpl. by rewrite lookup_empty. Qed.
Next Obligation.
  intros k w g v ok w' g' Hw _. unfold gc_Get; simpl. go_simpl.
  destruct (peek g (now w) k) as [v'|] eqn:E; intros [= <- <- <- <-];
    (split; [by apply later_tick|]; split; [done|]; split; [by intros k' t Ht|];
     exists (now w); split; [split; [lia | by apply later_now, later_tick] | done]).
Qed.
Next Obligation.
  intros k v d w g w' g' Hw _ Hd. simpl. go_simpl. intros [= <- <-].
  pose proof (later_tick w Hw). split; [done|]. split; [done|]. split.
  - intros k' Hk t Ht. by apply peek_store_ne.
  - apply stored_store; [done | by apply later_refl | by apply later_now, later_tick | done].
Qed.
Next Obligation.
  intros k v d w g err w' g' Hw _ Hd. simpl. go_simpl.
  pose proof (later_tick w Hw) as Hl. pose proof (later_now _ _ Hl).
  destruct (peek g (now w) k) as [v'|] eqn:E; intros [= <- <- <-].
  - split; [done|]. split; [done|]. split; [by intros k' _ t Ht|]. split; [|split].
    + exists v', (now w). split; [split; [lia | done] | done].
    + by intros t Ht.
    + apply error_already_exists.
  - pose proof (later_tick _ (later_world_ok _ _ Hl)) as Hl2. pose proof (later_now _ _ Hl2).
    split; [by eapply later_trans|]. split; [done|]. split; [|split].
    + intros k' Hk t Ht. by apply peek_store_ne.
    + exists (now w). split; [split; [lia | by etransitivity] | done].
    + apply (stored_store k v d w (tickWorld w)); [by eauto with go | done | done | done].
Qed.
Next Obligation.
  intros k w g w' g' Hw _. simpl. go_simpl. intros [= <- <-].
  split; [by apply later_refl|]. split; [done|]. unfold same_key, removed, peek. simpl. split.
  - intros k' Hk t Ht. by rewrite lookup_delete_ne.
  - intros t Ht. by rewrite lookup_delete_eq.
Qed.
Next Obligation.
  intros w g w' g' Hw _. simpl. go_simpl. intros [= <- <-].
  split; [by apply later_refl|]. split; [done|]. unfold removed, peek. simpl.
  intros k t Ht. by rewrite lookup_empty.
Qed.
Next Obligation.
  intros w g its w' g' Hw _. simpl. go_simpl. intros [= <- <- <-].
  pose proof (later_tick w Hw) as Hl. pose proof (later_now _ _ Hl).
  split; [done|]. split; [done|]. split; [by intros k t Ht|].
  split; [apply NoDup_fst_map_to_list|]. exists (now w). split; [split; [lia | done]|].
  intros k v. setoid_rewrite elem_of_map_to_list. setoid_rewrite map_lookup_filter_Some.
  unfold peek. split.
  - intros (it & (-> & Hv) & <-). simpl in *. by rewrite Hv.
  - destruct (items g !! k) as [it|] eqn:E; [|done]. simpl.
    destruct (visible (now w) it) eqn:Hv; [|done]. intros [= <-]. exists it. by repeat split.
Qed.
End GoMap.
#[export] Existing Instances GoMap.engine_GoCache GoMap.engine_laws.

(** A store with one unexpired and one expired item. *)
Definition mem_example : memoryStore GoMap.engine :=
  mkMemoryStore (GoMap.mkEngine {[ "user:1" := mkItem (VBytes (bytes_of_string "Ada")) (Second * 60);
                                   "user:0" := mkItem (VBytes (bytes_of_string "Bob")) 5 ]} defaultCacheTTL)
    defaultCacheTTL.

Lemma mem_ListPage_snapshot_witness :
  exists page w' s',
    mem_ListPage Background (mkListPageOptions "user" EmptyString EmptyString 10) world_example mem_example
      = ((page, None), w', s') /\
    map Key (Entries page) = ["user:1"] /\
    forall k, same_key mem_peek w' mem_example s' k.
Proof.
  eexists _, _, _. split; [reflexivity|]. split; [vm_compute; reflexivity|].
  refine (proj1 (proj2 (proj2 (mem_ListPage_snapshot Background
    (mkListPageOptions "user" EmptyString EmptyString 10) world_example mem_example _ _ _ _
    world_example_ok _ eq_refl)))).
  split; [exact I | split; reflexivity].
Defined.
