(* ===== verification/Cache.v ===== *)
(** * cache.go: the Cache facade, reads and writes

    [Cache] keeps the store, the default TTL, the observer, the context and the
    lock bookkeeping.  An installed observer is represented by the list of
    events it has received.  Callbacks are computations over the whole facade,
    so that a callback may itself use the cache.  [WithContext] clones share the
    store, the owner token and the lock table, so the operations of a clone are
    operations on the same state under another context ([viaClone]). *)

From S2P Require Import Prelude GoStd CacheCore MemoryStore.

(** ** State *)

Record CacheOpEvent := mkCacheOpEvent {
  Operation : string; ev_Key : string; Hit : bool; Err : option error;
  Duration : Z; ev_Driver : string
}.

Inductive cacheDirectLockStatus :=
| cacheDirectLockAcquiring | cacheDirectLockHeld | cacheDirectLockReleasing.

#[global] Instance cacheDirectLockStatus_eq_dec : EqDecision cacheDirectLockStatus.
Proof. solve_decision. Defined.

(** [c_observer] is [None] for a nil observer and the delivered events, latest
    first, otherwise; [c_lockOwner] is [None] until [once.Do] has run. *)
Record Cache (S : Type) := mkCache {
  c_store : S;
  c_defaultTTL : Z;
  c_observer : option (list CacheOpEvent);
  c_ctx : option Context;
  c_lockOwner : option (bytes * option error);
  c_directLocks : gmap string cacheDirectLockStatus
}.
Arguments mkCache {S}.
Arguments c_store {S}.
Arguments c_defaultTTL {S}.
Arguments c_observer {S}.
Arguments c_ctx {S}.
Arguments c_lockOwner {S}.
Arguments c_directLocks {S}.

Definition set_store {S} (s : S) (c : Cache S) : Cache S :=
  mkCache s (c_defaultTTL c) (c_observer c) (c_ctx c) (c_lockOwner c) (c_directLocks c).
Definition set_observer {S} o (c : Cache S) : Cache S :=
  mkCache (c_store c) (c_defaultTTL c) o (c_ctx c) (c_lockOwner c) (c_directLocks c).
Definition set_ctx {S} x (c : Cache S) : Cache S :=
  mkCache (c_store c) (c_defaultTTL c) (c_observer c) x (c_lockOwner c) (c_directLocks c).
Definition set_lockOwner {S} o (c : Cache S) : Cache S :=
  mkCache (c_store c) (c_defaultTTL c) (c_observer c) (c_ctx c) o (c_directLocks c).
Definition set_directLocks {S} l (c : Cache S) : Cache S :=
  mkCache (c_store c) (c_defaultTTL c) (c_observer c) (c_ctx c) (c_lockOwner c) l.

(** [a.Sub(b)] on instants saturates at the [int64] bounds. *)
Definition durationSub (a b : Z) : Z := Z.max int64_min (Z.min int64_max (a - b)).

(** ** Keys and constants *)

Definition staleSuffix : string := ":__stale".
Definition lockPrefix : string := "__lock:".
Definition defaultLockRetryInterval : Z := 25 * Millisecond.
Definition refreshMetaSuffix : string := ":__refresh_exp".
Definition refreshLockPrefix : string := "__refresh_lock:".

(** ** Codecs: encoding/json and caller-supplied codecs are parameters *)

(** [json.Marshal] and [json.Unmarshal] at type [T]; [Unmarshal] returns the
    target, possibly partly filled, with its error. *)
Class JSON (T : Type) := {
  zeroValue : T;
  json_Marshal : T -> bytes * option error;
  json_Unmarshal : bytes -> T * option error
}.

Record ValueCodec (T : Type) := mkValueCodec {
  Encode : T -> bytes * option error;
  Decode : bytes -> T * option error
}.
Arguments Encode {T}.
Arguments Decode {T}.

Definition defaultValueCodec {T} `{JSON T} : ValueCodec T :=
  mkValueCodec T json_Marshal json_Unmarshal.

(** What a codec must satisfy for typed reads to return what was written. *)
Definition codec_roundtrip {T} (codec : ValueCodec T) : Prop :=
  forall v b, Encode codec v = (b, None) -> Decode codec b = (v, None).

Section Facade.
Context {S : Type} `{Store S}.

(** ** Construction and context *)

Definition NewCacheWithTTL (store : S) (defaultTTL : Z) : Cache S :=
  let defaultTTL := if defaultTTL <=? 0 then defaultCacheTTL else defaultTTL in
  mkCache store defaultTTL None None None ∅.

Definition NewCache (store : S) : Cache S := NewCacheWithTTL store defaultCacheTTL.

Definition WithContext (ctx : option Context) (c : Cache S) : Cache S := set_ctx ctx c.
Definition WithObserver (on : bool) (c : Cache S) : Cache S :=
  set_observer (if on then Some [] else None) c.

Definition Driver (c : Cache S) : string := Store_Driver (c_store c).

Definition context (c : Cache S) : Context :=
  match c_ctx c with None => Background | Some ctx => ctx end.

(** [c.f(c.context(), ...)] *)
Definition inContext {A} (f : Context -> M (Cache S) A) : M (Cache S) A :=
  let* c := get in f (context c).

(** A method call on [c.WithContext(ctx)]. *)
Definition viaClone {A} (ctx : option Context) (m : M (Cache S) A) : M (Cache S) A :=
  let* c := get in
  modify (WithContext ctx) ;;
  let* a := m in
  modify (set_ctx (c_ctx c)) ;;
  ret a.

(** A call of a method of [c.store]. *)
Definition onStore {A} (m : M S A) : M (Cache S) A := zoom c_store set_store m.

(** ** Internals *)

Definition resolveTTL (c : Cache S) (ttl : Z) : Z := if ttl >? 0 then ttl else c_defaultTTL c.

Definition observe (op key : string) (hit : bool) (err : option error) (start : Z)
    : M (Cache S) unit :=
  let* c := get in
  match c_observer c with
  | None => ret tt
  | Some events =>
      let* t := timeNow in
      put (set_observer (Some (mkCacheOpEvent op key hit err (durationSub t start) (Driver c) :: events)) c)
  end.

(** ** Reads *)

Definition ready (ctx : Context) : M (Cache S) (option error) := onStore (Store_Ready ctx).

Definition getBytes (ctx : Context) (key : string) : M (Cache S) (bytes * bool * option error) :=
  let* start := timeNow in
  let* (body, ok, err) := onStore (Store_Get ctx key) in
  observe "get" key ok err start ;;
  ret (body, ok, err).

(** The loop of [batchGetBytes], with the map built so far. *)
Fixpoint batchGetLoop (ctx : Context) (keys : list string) (out : gmap string bytes)
    : M (Cache S) (gmap string bytes * option error) :=
  match keys with
  | [] => ret (out, None)
  | key :: rest =>
      let* (body, ok, err) := getBytes ctx key in
      match err with
      | Some e => ret (∅, Some e)
      | None => batchGetLoop ctx rest (if ok : bool then <[key := body]> out else out)
      end
  end.

Definition batchGetBytes (ctx : Context) (keys : list string)
    : M (Cache S) (gmap string bytes * option error) := batchGetLoop ctx keys ∅.

Definition getString (ctx : Context) (key : string) : M (Cache S) (string * bool * option error) :=
  let* start := timeNow in
  let* (body, ok, err) := getBytes ctx key in
  if negb (noErr err) || negb ok then
    observe "get_string" key ok err start ;;
    ret (EmptyString, ok, err)
  else
    observe "get_string" key true None start ;;
    ret (string_of_bytes body, true, None).

Definition getJSON {T} `{JSON T} (ctx : Context) (key : string) : M (Cache S) (T * bool * option error) :=
  let* start := timeNow in
  let* (body, ok, err) := getBytes ctx key in
  if negb (noErr err) || negb ok then
    observe "get_json" key ok err start ;;
    ret (zeroValue, ok, err)
  else
    match json_Unmarshal body with
    | (_, Some e) => observe "get_json" key false (Some e) start ;; ret (zeroValue, false, Some e)
    | (out, None) => observe "get_json" key true None start ;; ret (out, true, None)
    end.

Definition getValue {T} `{JSON T} (ctx : Context) (key : string) : M (Cache S) (T * bool * option error) :=
  let* (body, ok, err) := getBytes ctx key in
  if negb (noErr err) || negb ok then ret (zeroValue, ok, err)
  else
    match Decode defaultValueCodec body with
    | (_, Some e) => ret (zeroValue, false, Some e)
    | (out, None) => ret (out, true, None)
    end.

(** ** Writes *)

Definition setBytes (ctx : Context) (key : string) (value : bytes) (ttl : Z)
    : M (Cache S) (option error) :=
  let* start := timeNow in
  let* c := get in
  let* err := onStore (Store_Set ctx key value (resolveTTL c ttl)) in
  observe "set" key false err start ;;
  ret err.

(** The values are the key-value pairs of the map, in the order of the range
    loop, which Go leaves open. *)
Definition batchSetBytes (ctx : Context) (values : list (string * bytes)) (ttl : Z)
    : M (Cache S) (option error) :=
  forErr (fun kv => setBytes ctx kv.1 kv.2 ttl) values.

Definition setString (ctx : Context) (key value : string) (ttl : Z) : M (Cache S) (option error) :=
  let* start := timeNow in
  let* err := setBytes ctx key (bytes_of_string value) ttl in
  observe "set_string" key false err start ;;
  ret err.

Definition setJSON {T} `{JSON T} (ctx : Context) (key : string) (value : T) (ttl : Z)
    : M (Cache S) (option error) :=
  let* start := timeNow in
  match json_Marshal value with
  | (_, Some e) => observe "set_json" key false (Some e) start ;; ret (Some e)
  | (body, None) =>
      let* err := setBytes ctx key body ttl in
      observe "set_json" key false err start ;;
      ret err
  end.

Definition setValue {T} `{JSON T} (ctx : Context) (key : string) (value : T) (ttl : Z)
    : M (Cache S) (option error) :=
  match Encode defaultValueCodec value with
  | (_, Some e) => ret (Some e)
  | (body, None) => setBytes ctx key body ttl
  end.

Definition add (ctx : Context) (key : string) (value : bytes) (ttl : Z)
    : M (Cache S) (bool * option error) :=
  let* start := timeNow in
  let* c := get in
  let* (created, err) := onStore (Store_Add ctx key value (resolveTTL c ttl)) in
  observe "add" key created err start ;;
  ret (created, err).

Definition increment (ctx : Context) (key : string) (delta ttl : Z) : M (Cache S) (Z * option error) :=
  let* start := timeNow in
  let* c := get in
  let* (val, err) := onStore (Store_Increment ctx key delta (resolveTTL c ttl)) in
  observe "increment" key (noErr err) err start ;;
  ret (val, err).

Definition decrement (ctx : Context) (key : string) (delta ttl : Z) : M (Cache S) (Z * option error) :=
  let* start := timeNow in
  let* c := get in
  let* (val, err) := onStore (Store_Decrement ctx key delta (resolveTTL c ttl)) in
  observe "decrement" key (noErr err) err start ;;
  ret (val, err).

(** ** Deletion *)

Definition delete (ctx : Context) (key : string) : M (Cache S) (option error) :=
  let* start := timeNow in
  let* err := onStore (Store_Delete ctx key) in
  observe "delete" key (noErr err) err start ;;
  ret err.

Definition deleteMany (ctx : Context) (keys : list string) : M (Cache S) (option error) :=
  let* start := timeNow in
  let* err := onStore (Store_DeleteMany ctx keys) in
  forEach (fun key => observe "delete_many" key (noErr err) err start) keys ;;
  ret err.

Definition flush (ctx : Context) : M (Cache S) (option error) :=
  let* start := timeNow in
  let* err := onStore (Store_Flush ctx) in
  observe "flush" EmptyString (noErr err) err start ;;
  ret err.

Definition pullBytes (ctx : Context) (key : string) : M (Cache S) (bytes * bool * option error) :=
  let* start := timeNow in
  let* (body, ok, err) := getBytes ctx key in
  if negb (noErr err) || negb ok then
    observe "pull" key ok err start ;;
    ret ([], ok, err)
  else
    let* err := delete ctx key in
    match err with
    | Some e => observe "pull" key false (Some e) start ;; ret ([], false, Some e)
    | None => observe "pull" key true None start ;; ret (body, true, None)
    end.

Definition pullValue {T} `{JSON T} (ctx : Context) (key : string)
    : M (Cache S) (T * bool * option error) :=
  let* (body, ok, err) := pullBytes ctx key in
  if negb (noErr err) || negb ok then ret (zeroValue, ok, err)
  else
    match Decode defaultValueCodec body with
    | (_, Some e) => ret (zeroValue, false, Some e)
    | (out, None) => ret (out, true, None)
    end.

(** ** Exported methods: the internal ones under the cache's context *)

Definition Ready : M (Cache S) (option error) := inContext ready.
Definition GetBytes key := inContext (fun ctx => getBytes ctx key).
Definition BatchGetBytes keys := inContext (fun ctx => batchGetBytes ctx keys).
Definition GetString key := inContext (fun ctx => getString ctx key).
Definition GetJSON {T} `{JSON T} key : M (Cache S) (T * bool * option error) :=
  inContext (fun ctx => getJSON ctx key).
Definition Get {T} `{JSON T} key : M (Cache S) (T * bool * option error) :=
  inContext (fun ctx => getValue ctx key).
Definition SetBytes key value ttl := inContext (fun ctx => setBytes ctx key value ttl).
Definition BatchSetBytes values ttl := inContext (fun ctx => batchSetBytes ctx values ttl).
Definition SetString key value ttl := inContext (fun ctx => setString ctx key value ttl).
Definition SetJSON {T} `{JSON T} key (value : T) ttl := inContext (fun ctx => setJSON ctx key value ttl).
Definition Set_ {T} `{JSON T} key (value : T) ttl := inContext (fun ctx => setValue ctx key value ttl).
Definition Add key value ttl := inContext (fun ctx => add ctx key value ttl).
Definition Increment key delta ttl := inContext (fun ctx => increment ctx key delta ttl).
Definition Decrement key delta ttl := inContext (fun ctx => decrement ctx key delta ttl).
Definition PullBytes key := inContext (fun ctx => pullBytes ctx key).
Definition Pull {T} `{JSON T} key : M (Cache S) (T * bool * option error) :=
  inContext (fun ctx => pullValue ctx key).
Definition Delete key := inContext (fun ctx => delete ctx key).
Definition DeleteMany keys := inContext (fun ctx => deleteMany ctx keys).
Definition Flush := inContext flush.

(** ** Inspection *)

Definition Inspector_ (c : Cache S) : option (Inspector S) := Store_Inspector (c_store c).

(** A nil [*Cache] is [None]. *)
Definition ListPage_ (ctx : Context) (opts : ListPageOptions)
    : M (option (Cache S)) (ListPageResult * option error) :=
  fun w oc =>
    match oc with
    | None => ((emptyListPageResult, Some ErrInspectorUnsupported), w, oc)
    | Some c =>
        match Inspector_ c with
        | None => ((emptyListPageResult, Some ErrInspectorUnsupported), w, oc)
        | Some inspector =>
            let '(r, w', c') := onStore (ListPage inspector ctx opts) w c in (r, w', Some c')
        end
    end.
End Facade.
