(* ===== verification/CacheLaws.v ===== *)
(** * The facade over a contract-keeping store: reads, writes, deletion

    Each internal operation of [Cache] is characterised against the contract of
    the store it runs on; the theorems then say what a caller of the facade may
    rely on, for every backend that discharges the contract. *)

From S2P Require Import Prelude GoStd CacheCore InspectHelpers Shaping Wrapping MemoryStore Cache.

(** Everything but the store and the observer's events is as before. *)
Definition frame {S} (c c' : Cache S) : Prop :=
  c_defaultTTL c' = c_defaultTTL c /\ c_ctx c' = c_ctx c /\
  c_lockOwner c' = c_lockOwner c /\ c_directLocks c' = c_directLocks c.

Lemma frame_refl {S} (c : Cache S) : frame c c.
Proof. by repeat split. Qed.

Lemma frame_trans {S} (c1 c2 c3 : Cache S) : frame c1 c2 -> frame c2 c3 -> frame c1 c3.
Proof. intros (?&?&?&?) (?&?&?&?). repeat split; congruence. Qed.

#[export] Hint Resolve frame_refl : go.

(** ** Calls that do not touch the facade's own fields *)

Section Calls.
Context {S : Type} `{Store S}.
Implicit Types c : Cache S.

Lemma onStore_inv {A} (m : M S A) w c a w' c' :
  onStore m w c = (a, w', c') ->
  exists s', m w (c_store c) = (a, w', s') /\ c' = set_store s' c.
Proof.
  unfold onStore, zoom. destruct (m w (c_store c)) as [[a1 w1] s1]. intros [= <- <- <-]. eauto.
Qed.

(** An observer sees the operation's name, key, outcome and driver. *)
Lemma observe_inv op key hit err start w c u w' c' :
  world_ok w -> observe op key hit err start w c = (u, w', c') ->
  later w w' /\ c_store c' = c_store c /\ frame c c' /\
  match c_observer c with
  | None => c_observer c' = None
  | Some events =>
      exists d, c_observer c' = Some (mkCacheOpEvent op key hit err d (Driver c) :: events)
  end.
Proof.
  intros Hw. unfold observe. go_simpl. destruct (c_observer c) as [events|] eqn:E; simpl.
  - intros [= <- <- <-]. split; [by apply later_tick|]. repeat split; eauto.
  - intros [= <- <- <-]. split; [by apply later_refl|]. repeat split; eauto.
Qed.

End Calls.

(** An exported method is the internal one under the cache's context. *)
Ltac in_context E :=
  cbv beta iota zeta delta
    [GetBytes BatchGetBytes GetString GetJSON Get SetBytes BatchSetBytes SetString SetJSON Set_ Add
     Increment Decrement PullBytes Pull Delete DeleteMany Flush inContext bind get] in E.

(** ** Operations against the store contract *)

Section Laws.
Context {S : Type} `{StoreContract S}.
Implicit Types c : Cache S.

Definition cache_ok c : Prop := sc_ok (c_store c) /\ ttl_ok (c_defaultTTL c).

(** An operation ran from [(w, c)] to [(w', c')]. *)
Definition ran (w : World) c (w' : World) c' : Prop :=
  later w w' /\ cache_ok c' /\ frame c c'.

Lemma ran_refl w c : world_ok w -> cache_ok c -> ran w c w c.
Proof. intros. split; [by apply later_refl|]. by split. Qed.

Lemma ran_trans w1 c1 w2 c2 w3 c3 : ran w1 c1 w2 c2 -> ran w2 c2 w3 c3 -> ran w1 c1 w3 c3.
Proof.
  intros (?&?&?) (?&?&?). split; [by eapply later_trans|]. split; [done|]. by eapply frame_trans.
Qed.

Lemma ran_world_ok w c w' c' : ran w c w' c' -> world_ok w'.
Proof. intros [? _]. by eapply later_world_ok. Qed.

Lemma ran_ok w c w' c' : ran w c w' c' -> cache_ok c'.
Proof. by intros (_ & ? & _). Qed.

Lemma ran_later w c w' c' : ran w c w' c' -> later w w'.
Proof. by intros [? _]. Qed.

Lemma resolveTTL_ok c ttl : cache_ok c -> ttl < horizon -> ttl_ok (resolveTTL c ttl).
Proof.
  intros [_ Hd] Ht. unfold resolveTTL. destruct (Z.gtb_spec ttl 0); [|done]. split; lia.
Qed.

Lemma resolveTTL_frame c c' ttl : frame c c' -> resolveTTL c' ttl = resolveTTL c ttl.
Proof. unfold resolveTTL. by intros (-> & _). Qed.

Lemma resolveTTL_pos c ttl : 0 < ttl -> resolveTTL c ttl = ttl.
Proof. unfold resolveTTL. intros. destruct (Z.gtb_spec ttl 0); [done | lia]. Qed.

Lemma observe_ran op key hit err start w c u w' c' :
  world_ok w -> cache_ok c -> observe op key hit err start w c = (u, w', c') ->
  ran w c w' c' /\ c_store c' = c_store c.
Proof.
  intros Hw [Hs Hd] E. apply observe_inv in E as (Hl & Es & Hf & _); [|done].
  split; [|done]. split; [done|]. split; [|done]. split; [by rewrite Es|].
  destruct Hf as (-> & _). done.
Qed.

(** The common shape of the operations: the start time, a store call that
    takes the store from [s] to [s1], the observation. *)
Lemma timed_ran w c w1 s1 op key hit err start u w' c' :
  cache_ok c -> later (tickWorld w) w1 -> world_ok w -> sc_ok s1 ->
  observe op key hit err start w1 (set_store s1 c) = (u, w', c') ->
  ran w c w' c' /\ later w (tickWorld w) /\ later w1 w' /\ c_store c' = s1.
Proof.
  intros [Hs Hd] Hl Hw Hs1 E. pose proof (later_tick w Hw) as Hl0.
  apply observe_ran in E as [Hr Es]; [|by eauto with go | by split].
  split; [|split; [done|split; [by eapply ran_later | done]]].
  destruct Hr as (Hl' & Hok & Hf). split; [by do 2 (eapply later_trans; [done|])|]. by split.
Qed.

Lemma getBytes_post ctx k w c r w' c' :
  world_ok w -> cache_ok c -> getBytes ctx k w c = (r, w', c') ->
  ran w c w' c' /\ get_post sc_peek k w (c_store c) r w' (c_store c').
Proof.
  intros Hw Hc. unfold getBytes. go_simpl.
  destruct (onStore _ _ c) as [[[[b ok] err] w1] c1] eqn:E.
  apply onStore_inv in E as (s1 & E & ->).
  apply sc_get in E as (Hl & Hs1 & Hp); [|by eauto with go|by destruct Hc].
  destruct (observe _ _ _ _ _ w1 _) as [[u w2] c2] eqn:Eo. intros [= <- <- <-].
  apply (timed_ran w) in Eo as (? & ? & ? & ->); [|done..]. split; [done|].
  by eapply get_post_widen.
Qed.

Lemma setBytes_post ctx k v ttl w c err w' c' :
  world_ok w -> cache_ok c -> ttl < horizon -> setBytes ctx k v ttl w c = (err, w', c') ->
  ran w c w' c' /\
  set_post sc_peek sc_grain k v (resolveTTL c ttl) w (c_store c) err w' (c_store c').
Proof.
  intros Hw Hc Ht. unfold setBytes. go_simpl.
  destruct (onStore _ _ c) as [[e w1] c1] eqn:E.
  apply onStore_inv in E as (s1 & E & ->).
  apply sc_set in E as (Hl & Hs1 & Hp); [|by eauto with go|by destruct Hc|by apply resolveTTL_ok].
  destruct (observe _ _ _ _ _ w1 _) as [[u w2] c2] eqn:Eo. intros [= <- <- <-].
  apply (timed_ran w) in Eo as (? & ? & ? & ->); [|done..]. split; [done|].
  by eapply set_post_widen.
Qed.

Lemma add_post_facade ctx k v ttl w c r w' c' :
  world_ok w -> cache_ok c -> ttl < horizon -> add ctx k v ttl w c = (r, w', c') ->
  ran w c w' c' /\
  add_post sc_peek sc_occupied sc_grain k v (resolveTTL c ttl) w (c_store c) r w' (c_store c').
Proof.
  intros Hw Hc Ht. unfold add. go_simpl.
  destruct (onStore _ _ c) as [[[created e] w1] c1] eqn:E.
  apply onStore_inv in E as (s1 & E & ->).
  apply sc_add in E as (Hl & Hs1 & Hp); [|by eauto with go|by destruct Hc|by apply resolveTTL_ok].
  destruct (observe _ _ _ _ _ w1 _) as [[u w2] c2] eqn:Eo. intros [= <- <- <-].
  apply (timed_ran w) in Eo as (? & ? & ? & ->); [|done..]. split; [done|].
  by eapply add_post_widen.
Qed.

Lemma delete_post_facade ctx k w c err w' c' :
  world_ok w -> cache_ok c -> delete ctx k w c = (err, w', c') ->
  ran w c w' c' /\ delete_post sc_peek k w (c_store c) err w' (c_store c').
Proof.
  intros Hw Hc. unfold delete. go_simpl.
  destruct (onStore _ _ c) as [[e w1] c1] eqn:E.
  apply onStore_inv in E as (s1 & E & ->).
  apply sc_delete in E as (Hl & Hs1 & Hp); [|by eauto with go|by destruct Hc].
  destruct (observe _ _ _ _ _ w1 _) as [[u w2] c2] eqn:Eo. intros [= <- <- <-].
  apply (timed_ran w) in Eo as (? & ? & ? & ->); [|done..]. split; [done|].
  by eapply delete_post_widen.
Qed.

Lemma flush_post_facade ctx w c err w' c' :
  world_ok w -> cache_ok c -> flush ctx w c = (err, w', c') ->
  ran w c w' c' /\ flush_post sc_peek err w' (c_store c').
Proof.
  intros Hw Hc. unfold flush. go_simpl.
  destruct (onStore _ _ c) as [[e w1] c1] eqn:E.
  apply onStore_inv in E as (s1 & E & ->).
  apply sc_flush in E as (Hl & Hs1 & Hp); [|by eauto with go|by destruct Hc].
  destruct (observe _ _ _ _ _ w1 _) as [[u w2] c2] eqn:Eo. intros [= <- <- <-].
  apply (timed_ran w) in Eo as (? & ? & ? & ->); [|done..]. split; [done|].
  by eapply flush_post_widen.
Qed.

(** The observations of [deleteMany], one per key. *)
Lemma observe_each op hit err start keys w c u w' c' :
  world_ok w -> cache_ok c ->
  forEach (fun key => observe op key hit err start) keys w c = (u, w', c') ->
  ran w c w' c' /\ c_store c' = c_store c.
Proof.
  revert w c. induction keys as [|k keys IH]; intros w c Hw Hc; cbn [forEach]; go_simpl.
  { intros [= _ <- <-]. split; [by apply ran_refl | done]. }
  destruct (observe op k hit err start w c) as [[u1 w1] c1] eqn:E. intros E'.
  apply observe_ran in E as [Hr Es]; [|done..].
  apply IH in E' as [Hr' Es']; [|by eapply ran_world_ok|by eapply ran_ok].
  split; [by eapply ran_trans | congruence].
Qed.

Lemma deleteMany_post_facade ctx ks w c err w' c' :
  world_ok w -> cache_ok c -> deleteMany ctx ks w c = (err, w', c') ->
  ran w c w' c' /\ deleteMany_post sc_peek ks w (c_store c) err w' (c_store c').
Proof.
  intros Hw Hc. unfold deleteMany. go_simpl.
  destruct (onStore _ _ c) as [[e w1] c1] eqn:E.
  apply onStore_inv in E as (s1 & E & ->).
  apply sc_deleteMany in E as (Hl & Hs1 & Hp); [|by eauto with go|by destruct Hc].
  destruct (forEach _ ks w1 _) as [[u w2] c2] eqn:Eo. intros [= <- <- <-].
  pose proof (later_tick w Hw) as Hl0.
  apply observe_each in Eo as [(Hl2 & Hok2 & Hf2) Es]; [|by eauto with go|split; [done | by destruct Hc]].
  simpl in Es. rewrite Es. split.
  - split; [by do 2 (eapply later_trans; [done|])|]. by split.
  - by eapply deleteMany_post_widen.
Qed.

(** The shape of the composed operations: the start time, other operations,
    the observation. *)
Lemma observed_ran w c w1 c1 op key hit err start u w' c' :
  world_ok w -> ran (tickWorld w) c w1 c1 -> observe op key hit err start w1 c1 = (u, w', c') ->
  ran w c w' c' /\ later w (tickWorld w) /\ later w1 w' /\ c_store c' = c_store c1.
Proof.
  intros Hw Hr E. pose proof (later_tick w Hw) as Hl0.
  apply observe_ran in E as [Hr2 Es]; [|by eapply ran_world_ok|by eapply ran_ok].
  split; [|split; [done|split; [by eapply ran_later | done]]].
  destruct Hr as (? & ? & ?), Hr2 as (? & ? & ?).
  split; [by do 2 (eapply later_trans; [done|])|]. split; [done | by eapply frame_trans].
Qed.

Lemma getString_post ctx k w c r w' c' :
  world_ok w -> cache_ok c -> getString ctx k w c = (r, w', c') ->
  ran w c w' c' /\
  exists b ok err, get_post sc_peek k w (c_store c) (b, ok, err) w' (c_store c') /\
    r = (if noErr err && ok then string_of_bytes b else EmptyString, ok, err).
Proof.
  intros Hw Hc. unfold getString. go_simpl.
  destruct (getBytes ctx k _ c) as [[[[b ok] err] w1] c1] eqn:E.
  apply getBytes_post in E as [Hr Hp]; [|by eauto with go|done].
  destruct (negb (noErr err) || negb ok) eqn:Eb;
    destruct (observe _ _ _ _ _ w1 c1) as [[u w2] c2] eqn:Eo; intros [= <- <- <-];
    apply (observed_ran w c) in Eo as (? & ? & ? & ->); try done; (split; [done|]);
    exists b, ok, err; (split; [by eapply get_post_widen|]); destruct err, ok; done.
Qed.

Lemma setString_post ctx k v ttl w c err w' c' :
  world_ok w -> cache_ok c -> ttl < horizon -> setString ctx k v ttl w c = (err, w', c') ->
  ran w c w' c' /\
  set_post sc_peek sc_grain k (bytes_of_string v) (resolveTTL c ttl) w (c_store c) err w' (c_store c').
Proof.
  intros Hw Hc Ht. unfold setString. go_simpl.
  destruct (setBytes ctx k _ ttl _ c) as [[e w1] c1] eqn:E.
  apply setBytes_post in E as [Hr Hp]; [|by eauto with go|done..].
  destruct (observe _ _ _ _ _ w1 c1) as [[u w2] c2] eqn:Eo. intros [= <- <- <-].
  apply (observed_ran w c) in Eo as (? & ? & ? & ->); [|done..]. split; [done|].
  by eapply set_post_widen.
Qed.

(** [pullBytes] takes the value out, leaves the key as it was, or does not know. *)
Definition pull_post k (w : World) (s : S) (r : bytes * bool * option error) (w' : World) (s' : S) : Prop :=
  (forall k', apart (S := S) k' k -> same_key sc_peek w' s s' k') /\
  match r with
  | (b, true, None) => seen sc_peek w w' s k (Some b) /\ removed sc_peek w' s' k
  | (b, false, None) => b = [] /\ seen sc_peek w w' s k None /\ forall k', same_key sc_peek w' s s' k'
  | (b, ok, Some _) =>
      b = [] /\ ok = false /\ ((forall k', same_key sc_peek w' s s' k') \/ removed sc_peek w' s' k)
  end.

Lemma pullBytes_post ctx k w c r w' c' :
  world_ok w -> cache_ok c -> pullBytes ctx k w c = (r, w', c') ->
  ran w c w' c' /\ pull_post k w (c_store c) r w' (c_store c').
Proof.
  intros Hw Hc. unfold pullBytes. go_simpl.
  destruct (getBytes ctx k _ c) as [[[[b ok] err] w1] c1] eqn:E.
  apply getBytes_post in E as [Hr [Hk Hp]]; [|by eauto with go|done].
  destruct (negb (noErr err) || negb ok) eqn:Eb.
  { destruct (observe _ _ _ _ _ w1 c1) as [[u w2] c2] eqn:Eo. intros [= <- <- <-].
    apply (observed_ran w c) in Eo as (? & ? & ? & ->); [|done..]. split; [done|].
    split; [intros; by eapply same_key_widen|].
    destruct err as [e|], ok; try done; (split; [done|]); (split; [|try left; intros; by eapply same_key_widen]).
    - done.
    - by eapply seen_widen. }
  destruct err, ok; try done. clear Eb.
  destruct (delete ctx k w1 c1) as [[err w2] c2] eqn:Ed.
  apply delete_post_facade in Ed as [Hr2 [Hk2 Hd]]; [|by eapply ran_world_ok|by eapply ran_ok].
  pose proof (ran_trans _ _ _ _ _ _ Hr Hr2) as Hr3. apply ran_later in Hr2.
  destruct err as [e|]; destruct (observe _ _ _ _ _ w2 c2) as [[u w3] c3] eqn:Eo;
    intros [= <- <- <-]; apply (observed_ran w c) in Eo as (? & ? & ? & ->); try done; (split; [done|]);
    (split; [intros k' Hne; eapply same_key_widen; [|done]; eapply same_key_trans;
             [by eapply same_key_widen | by apply Hk2]|]).
  - split; [done|]. split; [done|]. destruct Hd as [Hd|Hd]; [left|right; by eapply removed_widen].
    intros k'. eapply same_key_widen; [|done]. by eapply same_key_trans; [eapply same_key_widen|].
  - split; [|by eapply removed_widen]. eapply seen_widen; [done..|]. by eapply later_trans.
Qed.

Lemma batchGet_loop ctx keys out w c r w' c' :
  world_ok w -> cache_ok c -> batchGetLoop ctx keys out w c = (r, w', c') ->
  ran w c w' c' /\ (forall k, same_key sc_peek w' (c_store c) (c_store c') k) /\
  match r with
  | (m, None) => forall k, (m !! k = out !! k /\ k ∉ keys) \/
                           (k ∈ keys /\ (m !! k = out !! k /\ is_Some (out !! k) \/
                                         seen sc_peek w w' (c_store c) k (m !! k)))
  | (m, Some _) => m = ∅
  end.
Proof.
  revert out w c. induction keys as [|k keys IH]; intros out w c Hw Hc; cbn [batchGetLoop]; go_simpl.
  { intros [= <- <- <-]. split; [by apply ran_refl|]. split; [by intros k t Ht|].
    intros k. left. split; [done | apply not_elem_of_nil]. }
  destruct (getBytes ctx k w c) as [[[[b ok] err] w1] c1] eqn:E.
  apply getBytes_post in E as [Hr [Hk Hp]]; [|done..].
  destruct err as [e|]; [by intros [= <- <- <-]|]. intros E.
  apply IH in E as (Hr2 & Hk2 & Hm); [|by eapply ran_world_ok|by eapply ran_ok].
  pose proof (ran_later _ _ _ _ Hr) as Hl. pose proof (ran_later _ _ _ _ Hr2) as Hl2.
  split; [by eapply ran_trans|].
  split; [intros k'; eapply same_key_trans; [by eapply same_key_widen | done]|].
  destruct r as [m [e|]]; [done|].
  assert (Hw' : later w w) by by apply later_refl.
  intros k'. specialize (Hm k'). destruct (decide (k' = k)) as [->|Hne].
  - right. split; [apply elem_of_cons; by left|].
    assert (Hsee : seen sc_peek w w' (c_store c) k (if ok then Some b else None)).
    { destruct ok; by eapply seen_widen. }
    assert (Hout : is_Some (out !! k) \/ out !! k = None) by (destruct (out !! k); eauto).
    destruct ok; rewrite ?lookup_insert_eq in Hm.
    + right. destruct Hm as [[-> _]|[_ [[-> _]|Hm]]]; [done..|].
      eapply seen_widen; [eapply seen_same_key; [done|apply Hk] | done |].
      by apply later_refl; eapply ran_world_ok.
    + destruct Hm as [[-> _]|[_ [[-> ?]|Hm]]].
      * destruct Hout as [?|Hn]; [by left | right; by rewrite Hn].
      * by left.
      * right. eapply seen_widen; [eapply seen_same_key; [done|apply Hk] | done |].
        by apply later_refl; eapply ran_world_ok.
  - assert ((if ok then <[k := b]> out else out) !! k' = out !! k') as Ho.
    { destruct ok; [by rewrite lookup_insert_ne | done]. }
    rewrite Ho in Hm. destruct Hm as [[-> ?]|[? Hm]].
    + left. split; [done|]. by apply not_elem_of_cons.
    + right. split; [apply elem_of_cons; by right|]. destruct Hm as [?|Hm]; [by left|]. right.
      eapply seen_widen; [eapply seen_same_key; [done|apply Hk] | done |].
      by apply later_refl; eapply ran_world_ok.
Qed.

Lemma batchGetBytes_post ctx keys w c r w' c' :
  world_ok w -> cache_ok c -> batchGetBytes ctx keys w c = (r, w', c') ->
  ran w c w' c' /\ (forall k, same_key sc_peek w' (c_store c) (c_store c') k) /\
  match r with
  | (m, None) => forall k, if decide (k ∈ keys) then seen sc_peek w w' (c_store c) k (m !! k)
                           else m !! k = None
  | (m, Some _) => m = ∅
  end.
Proof.
  intros Hw Hc E. apply batchGet_loop in E as (Hr & Hk & Hm); [|done..]. split; [done|]. split; [done|].
  destruct r as [m [e|]]; [done|]. intros k. specialize (Hm k). rewrite lookup_empty in Hm.
  destruct Hm as [[-> ?]|[? [[_ []]|?]]]; [by rewrite decide_False | done | by rewrite decide_True].
Qed.

Lemma batchSetBytes_post ctx kvs ttl w c err w' c' :
  world_ok w -> cache_ok c -> ttl < horizon -> batchSetBytes ctx kvs ttl w c = (err, w', c') ->
  ran w c w' c' /\
  (forall k, (forall k', k' ∈ kvs.*1 -> apart (S := S) k k') ->
     same_key sc_peek w' (c_store c) (c_store c') k) /\
  (err = None -> ForallOrdPairs (apart (S := S)) (kvs.*1) -> forall k v, (k, v) ∈ kvs ->
     kept sc_peek sc_grain (resolveTTL c ttl) w w' (c_store c') k v).
Proof.
  unfold batchSetBytes. revert w c. induction kvs as [|[k v] kvs IH]; intros w c Hw Hc Ht;
    cbn [forErr]; go_simpl.
  { intros [= <- <- <-]. split; [by apply ran_refl|]. split; [by intros k _ t Ht'|].
    intros _ _ k v Hin. by apply elem_of_nil in Hin. }
  simpl. destruct (setBytes ctx k v ttl w c) as [[e w1] c1] eqn:E.
  apply setBytes_post in E as [Hr [Hk Hp]]; [|done..].
  pose proof (ran_later _ _ _ _ Hr) as Hl.
  destruct e as [e|].
  { intros [= <- <- <-]. split; [done|]. split; [|done].
    intros k' Hk'. apply Hk, Hk', elem_of_cons. by left. }
  intros E. apply IH in E as (Hr2 & Hk2 & Hs); [|by eapply ran_world_ok|by eapply ran_ok|done].
  pose proof (ran_later _ _ _ _ Hr2) as Hl2. split; [by eapply ran_trans|]. split.
  - intros k' Hk'. eapply same_key_trans; [eapply same_key_widen; [apply Hk|done] | apply Hk2].
    + apply Hk', elem_of_cons. by left.
    + intros k'' Hk''. apply Hk', elem_of_cons. by right.
  - intros -> Hd k' v' [[= -> ->]|Hin]%elem_of_cons; inversion Hd as [|? ? Hn Hd']; subst.
    + eapply kept_later; [eapply kept_widen; [done|by apply later_refl|done] | lia |].
      apply Hk2, list.Forall_forall, Hn.
    + rewrite <- (resolveTTL_frame c c1) by by destruct Hr as (_ & _ & ?).
      eapply kept_widen; [by apply Hs | done |]. apply later_refl. by eapply ran_world_ok.
Qed.
End Laws.

(** ** Programs over the facade *)

(** The operations of this file as data, to state properties of arbitrary
    sequences of them. *)
Inductive cacheOp :=
| OpGetBytes (ctx : Context) (key : string)
| OpGetString (ctx : Context) (key : string)
| OpBatchGet (ctx : Context) (keys : list string)
| OpSetBytes (ctx : Context) (key : string) (value : bytes) (ttl : Z)
| OpSetString (ctx : Context) (key value : string) (ttl : Z)
| OpBatchSet (ctx : Context) (values : list (string * bytes)) (ttl : Z)
| OpAdd (ctx : Context) (key : string) (value : bytes) (ttl : Z)
| OpPull (ctx : Context) (key : string)
| OpDelete (ctx : Context) (key : string)
| OpDeleteMany (ctx : Context) (keys : list string).

Definition opWrites (op : cacheOp) : list string :=
  match op with
  | OpGetBytes _ _ | OpGetString _ _ | OpBatchGet _ _ => []
  | OpSetBytes _ k _ _ | OpSetString _ k _ _ | OpAdd _ k _ _ | OpPull _ k | OpDelete _ k => [k]
  | OpBatchSet _ kvs _ => kvs.*1
  | OpDeleteMany _ ks => ks
  end.

(** The TTL argument may be zero or negative, for the default. *)
Definition opTTL (op : cacheOp) : Z :=
  match op with
  | OpSetBytes _ _ _ ttl | OpSetString _ _ _ ttl | OpBatchSet _ _ ttl | OpAdd _ _ _ ttl => ttl
  | _ => 0
  end.

Section Programs.
Context {S : Type} `{Store S}.

(** Running one operation, with its result dropped. *)
Definition runOp (op : cacheOp) : M (Cache S) unit :=
  match op with
  | OpGetBytes ctx k => let* _ := getBytes ctx k in ret tt
  | OpGetString ctx k => let* _ := getString ctx k in ret tt
  | OpBatchGet ctx ks => let* _ := batchGetBytes ctx ks in ret tt
  | OpSetBytes ctx k v ttl => let* _ := setBytes ctx k v ttl in ret tt
  | OpSetString ctx k v ttl => let* _ := setString ctx k v ttl in ret tt
  | OpBatchSet ctx kvs ttl => let* _ := batchSetBytes ctx kvs ttl in ret tt
  | OpAdd ctx k v ttl => let* _ := add ctx k v ttl in ret tt
  | OpPull ctx k => let* _ := pullBytes ctx k in ret tt
  | OpDelete ctx k => let* _ := delete ctx k in ret tt
  | OpDeleteMany ctx ks => let* _ := deleteMany ctx ks in ret tt
  end.

Definition runOps (ops : list cacheOp) : M (Cache S) unit := forEach runOp ops.
End Programs.

Section ProgramLaws.
Context {S : Type} `{StoreContract S}.
Implicit Types c : Cache S.

(** The operation writes only keys the backend keeps apart from [k]. *)
Definition op_apart (k : string) (op : cacheOp) : Prop :=
  forall k', k' ∈ opWrites op -> apart (S := S) k k'.

Lemma op_apart_one k op k' : opWrites op = [k'] -> op_apart k op -> apart (S := S) k k'.
Proof. intros E Ha. apply Ha. rewrite E. apply elem_of_cons. by left. Qed.

Lemma runOp_keeps op w c u w' c' :
  world_ok w -> cache_ok c -> opTTL op < horizon -> runOp op w c = (u, w', c') ->
  ran w c w' c' /\
  forall k, op_apart k op -> same_key sc_peek w' (c_store c) (c_store c') k.
Proof.
  intros Hw Hc Ht E. destruct op; simpl in *; go_simpl_in E;
    match type of E with context [match ?m w c with _ => _ end] =>
      destruct (m w c) as [[r w1] c1] eqn:E1 end;
    injection E as _ <- <-.
  - apply getBytes_post in E1 as [? [? _]]; [|done..]. by split.
  - apply getString_post in E1 as (? & ? & ? & ? & [? _] & _); [|done..]. by split.
  - apply batchGetBytes_post in E1 as (? & ? & _); [|done..]. by split.
  - apply setBytes_post in E1 as [? [Hk _]]; [|done..]. split; [done|]. intros k' Ha. apply Hk. by eapply op_apart_one in Ha.
  - apply setString_post in E1 as [? [Hk _]]; [|done..]. split; [done|]. intros k' Ha. apply Hk. by eapply op_apart_one in Ha.
  - apply batchSetBytes_post in E1 as (? & ? & _); [|done..]. by split.
  - apply add_post_facade in E1 as [? [Hk _]]; [|done..]. split; [done|]. intros k' Ha. apply Hk. by eapply op_apart_one in Ha.
  - apply pullBytes_post in E1 as [? [Hk _]]; [|done..]. split; [done|]. intros k' Ha. apply Hk. by eapply op_apart_one in Ha.
  - apply delete_post_facade in E1 as [? [Hk _]]; [|done..]. split; [done|]. intros k' Ha. apply Hk. by eapply op_apart_one in Ha.
  - apply deleteMany_post_facade in E1 as [? [? _]]; [|done..]. by split.
Qed.

Lemma runOps_keeps ops w c u w' c' :
  world_ok w -> cache_ok c -> Forall (fun op => opTTL op < horizon) ops ->
  runOps ops w c = (u, w', c') ->
  ran w c w' c' /\
  forall k, Forall (op_apart k) ops -> same_key sc_peek w' (c_store c) (c_store c') k.
Proof.
  unfold runOps. revert w c. induction ops as [|op ops IH]; intros w c Hw Hc Ht; cbn [forEach]; go_simpl.
  { intros [= _ <- <-]. split; [by apply ran_refl|]. by intros k _ t Ht'. }
  apply list.Forall_cons in Ht as [Ht1 Ht].
  destruct (runOp op w c) as [[u1 w1] c1] eqn:E. intros E2.
  apply runOp_keeps in E as [Hr Hk]; [|done..].
  apply IH in E2 as [Hr2 Hk2]; [|by eapply ran_world_ok|by eapply ran_ok|done].
  split; [by eapply ran_trans|]. intros k [? ?]%list.Forall_cons.
  eapply same_key_trans; [eapply same_key_widen; [by apply Hk | by eapply ran_later] | by apply Hk2].
Qed.
End ProgramLaws.

(** ** What a caller may rely on *)

Section Guarantees.
Context {S : Type} `{StoreContract S}.
Implicit Types c : Cache S.


(** Once [Delete] has succeeded, or [PullBytes] has handed out a value, no
    read of the key returns a value until some operation writes the key
    again, whatever else the program does. *)
Theorem delete_get_program k ops w c w1 c1 w2 c2 r w3 c3 :
  world_ok w -> cache_ok c ->
  Delete k w c = (None, w1, c1) \/ (exists b, PullBytes k w c = ((b, true, None), w1, c1)) ->
  Forall (fun op => opTTL op < horizon) ops -> Forall (op_apart (S := S) k) ops ->
  runOps ops w1 c1 = (tt, w2, c2) -> GetBytes k w2 c2 = (r, w3, c3) ->
  missed r.
Proof.
  intros Hw Hc E1 Hops Hk E2 E3. in_context E3.
  assert (ran w c w1 c1 /\ removed sc_peek w1 (c_store c1) k) as [Hr Hrm].
  { destruct E1 as [E1|[b E1]]; in_context E1.
    - by apply delete_post_facade in E1 as [? [_ ?]].
    - by apply pullBytes_post in E1 as [? [_ [_ ?]]]. }
  apply runOps_keeps in E2 as [Hr2 Hk2]; [|by eapply ran_world_ok|by eapply ran_ok|done].
  apply getBytes_post in E3 as [Hr3 [_ Hp]]; [|by eapply ran_world_ok|by eapply ran_ok].
  pose proof (later_now _ _ (ran_later _ _ _ _ Hr2)).
  destruct r as [[b []] [e|]]; [done | | done | done].
  destruct Hp as (t & Ht' & Ev). rewrite (Hk2 k Hk), Hrm in Ev by lia. done.
Qed.

(** [BatchSetBytes] writes every pair of its map, in whatever order the
    range loop enumerates it: a [BatchGetBytes] of those keys that ends within
    the TTL returns exactly the map, or an error. *)
Theorem batch_roundtrip kvs keys ttl w c w1 c1 w2 m err w3 c3 :
  world_ok w -> cache_ok c -> Forall (fun k => storable (S := S) k (resolveTTL c ttl)) (kvs.*1) ->
  ttl < horizon -> NoDup (kvs.*1) ->
  ForallOrdPairs (apart (S := S)) (kvs.*1) -> keys ≡ₚ kvs.*1 ->
  BatchSetBytes kvs ttl w c = (None, w1, c1) -> later w1 w2 ->
  BatchGetBytes keys w2 c1 = ((m, err), w3, c3) -> now w3 <= now w + resolveTTL c ttl ->
  (err = None /\ m = list_to_map kvs) \/ (exists e, err = Some e /\ m = ∅).
Proof.
  intros Hw Hc Hsk Ht Hd Ha Hp E1 Hl E2 Hn. in_context E1; in_context E2.
  apply batchSetBytes_post in E1 as (Hr & _ & Hst); [|done..].
  apply batchGetBytes_post in E2 as (Hr2 & _ & Hm); [|by eapply later_world_ok|by eapply ran_ok].
  destruct err as [e|]; [right; eauto|]. left. split; [done|].
  apply map_eq. intros k. specialize (Hm k).
  destruct (decide (k ∈ keys)) as [Hin|Hin]; rewrite Hp in Hin.
  - apply list_elem_of_fmap in Hin as ([k' v] & -> & Hin). simpl in *.
    rewrite list.Forall_forall in Hsk.
    destruct (Hst eq_refl Ha _ _ Hin) as (Hvis & _ & _).
    { apply Hsk. by apply (list_elem_of_fmap_2 fst) in Hin. } apply later_now in Hl.
    destruct Hm as (t & Ht' & Ev). rewrite Hvis in Ev by lia. rewrite <- Ev.
    symmetry. by apply elem_of_list_to_map.
  - rewrite Hm. symmetry. by apply not_elem_of_list_to_map.
Qed.

(** A typed value written with [Set] reads back through [Get] as the same
    value within the TTL, or as an error, when the codec of its type inverts
    its own encoding. *)
Theorem typed_roundtrip {T} `{JSON T} k (v : T) ttl w c w1 c1 w2 r w3 c3 :
  codec_roundtrip (defaultValueCodec (T := T)) ->
  world_ok w -> cache_ok c -> storable (S := S) k (resolveTTL c ttl) -> ttl < horizon ->
  Set_ k v ttl w c = (None, w1, c1) -> later w1 w2 -> Get k w2 c1 = (r, w3, c3) ->
  now w3 <= now w + resolveTTL c ttl ->
  r = (v, true, None) \/ exists e, r = (zeroValue, false, Some e).
Proof.
  intros Hcodec Hw Hc Hsk Ht E1 Hl E2 Hn. in_context E1; in_context E2.
  unfold setValue in E1. destruct (Encode defaultValueCodec v) as [b [e|]] eqn:Eenc; [done|].
  apply setBytes_post in E1 as [Hr [_ Hst]]; [|done..]. destruct (Hst Hsk) as [Hvis _]. clear Hst.
  unfold getValue in E2. go_simpl_in E2.
  destruct (getBytes _ k w2 c1) as [[[[b' ok] err] w4] c4] eqn:E3.
  apply getBytes_post in E3 as [Hr3 [_ Hp]]; [|by eapply later_world_ok|by eapply ran_ok].
  apply later_now in Hl. destruct err as [e|]; simpl in E2.
  { destruct ok; [done|]. injection E2 as <- _ _. right. eauto. }
  assert (w4 = w3) as ->.
  { by destruct ok; simpl in E2; [destruct (json_Unmarshal b') as [? []]|]; injection E2. }
  destruct ok; destruct Hp as (t & Ht' & Ev); rewrite Hvis in Ev by lia; [|done].
  injection Ev as <-. simpl in E2. specialize (Hcodec _ _ Eenc). simpl in Hcodec.
  rewrite Hcodec in E2. injection E2 as <- _. by left.
Qed.
End Guarantees.

(** [NewCache(NewMemoryStoreWithConfig(...))] without value shaping. *)
Definition memoryCache (G : Type) `{GoCache G} (storeTTL interval : Z) : Cache (memoryStore G) :=
  NewCache (newMemoryStore storeTTL interval).

(** A cache made with [NewCache] over a memory store writes with the
    five-minute default of the cache when no TTL is given, whatever default TTL
    the store was configured with: the value outlives a shorter store default,
    for every instant up to five minutes after the write began. *)
Theorem NewCache_ignores_store_default {G} `{GoCacheLaws G} storeTTL interval k v ttl w w1 c1 t :
  storeTTL < horizon -> ttl <= 0 -> world_ok w ->
  SetBytes k v ttl w (memoryCache G storeTTL interval) = (None, w1, c1) ->
  now w1 <= t <= now w + 5 * Minute -> mem_peek (c_store c1) t k = Some v.
Proof.
  intros Hs Ht Hw E Hn. in_context E.
  destruct (newMemoryStore_ok (G := G) storeTTL interval Hs) as [Hok _].
  apply setBytes_post in E as [_ [_ Hst]]; [|done|by split|unfold horizon; lia].
  apply (Hst I). unfold resolveTTL. destruct (Z.gtb_spec ttl 0); [lia | done].
Qed.

(** ** Witnesses: a cache over the memory store *)

Definition cache_example : Cache (memoryStore GoMap.engine) := NewCache (newMemoryStore 0 0).

Lemma cache_example_ok : cache_ok cache_example.
Proof. split; [split; [exact I|]|]; split; reflexivity. Qed.

Definition ops_example : list cacheOp :=
  [OpSetString Background "user:2" "Grace" 0; OpGetBytes Background "user:1";
   OpDelete Background "user:3"].

Lemma ops_example_ttl : Forall (fun op => opTTL op < horizon) ops_example.
Proof. by repeat constructor. Qed.

Lemma ops_example_writes : Forall (op_apart (S := memoryStore GoMap.engine) "user:1") ops_example.
Proof.
  repeat constructor; intros k' Hk'; simpl in Hk'; repeat apply elem_of_cons in Hk' as [->|Hk'];
    try discriminate; by apply elem_of_nil in Hk'.
Qed.

Definition Ada : bytes := bytes_of_string "Ada".

#[local] Existing Instances Toy.gzip Toy.gzip_ok Toy.crypto Toy.crypto_ok.

(** Runs on the example cache, one after the other. *)
Module Runs.
Definition set1 := SetBytes "user:1" Ada 0 world_example cache_example.
Definition ops1 := runOps ops_example (wv set1) (sv set1).
Definition get1 := GetBytes "user:1" (wv ops1) (sv ops1).

Definition del2 := Delete "user:1" world_example cache_example.
Definition ops2 := runOps ops_example (wv del2) (sv del2).
Definition get2 := GetBytes "user:1" (wv ops2) (sv ops2).

Definition pairs : list (string * bytes) := [("b", Ada); ("a", bytes_of_string "Grace")].
Definition set3 := BatchSetBytes pairs 0 world_example cache_example.
Definition get3 := BatchGetBytes ["a"; "b"] (wv set3) (sv set3).

(** A type whose JSON form is its bytes. *)
#[export] Instance json_example : JSON string := {|
  zeroValue := EmptyString;
  json_Marshal := fun s => (bytes_of_string s, None);
  json_Unmarshal := fun b => (string_of_bytes b, None)
|}.

Lemma json_example_roundtrip : codec_roundtrip (defaultValueCodec (T := string)).
Proof. intros v b [= <-]. simpl. by rewrite string_of_bytes_of_string. Qed.

Definition set4 := Set_ "name" "Ada" 0 world_example cache_example.
Definition get4 : string * bool * option error * World * _ := Get "name" (wv set4) (sv set4).

Definition store5 : memoryStore GoMap.engine := newMemoryStore (30 * Second) 0.
Definition set5 := SetBytes "k" Ada 0 world_example (NewCache store5).

Definition wrap6 := WrapStore (newMemoryStore 0 0 : memoryStore GoMap.engine) cfg_example.
Definition set6 := Store_Set Background "k" Ada Minute world_example wrap6.1.
Definition get6 := Store_Get Background "k" (wv set6) (sv set6).
End Runs.


Lemma delete_get_program_witness : missed (rv Runs.get2).
Proof.
  refine (delete_get_program "user:1" ops_example world_example cache_example
    (wv Runs.del2) (sv Runs.del2) (wv Runs.ops2) (sv Runs.ops2) _ (wv Runs.get2) (sv Runs.get2)
    world_example_ok cache_example_ok (or_introl (run_eta Runs.del2 None _)) ops_example_ttl ops_example_writes
    (run_eta Runs.ops2 tt _) (run_eta Runs.get2 _ eq_refl)); vm_compute; reflexivity.
Defined.

Lemma batch_roundtrip_witness :
  (rv Runs.get3).2 = None /\
  (((rv Runs.get3).2 = None /\ (rv Runs.get3).1 = list_to_map Runs.pairs) \/
   (exists e, (rv Runs.get3).2 = Some e /\ (rv Runs.get3).1 = ∅)).
Proof.
  split; [vm_compute; reflexivity|].
  refine (batch_roundtrip Runs.pairs ["a"; "b"] 0 world_example cache_example
    (wv Runs.set3) (sv Runs.set3) (wv Runs.set3) _ _ (wv Runs.get3) (sv Runs.get3)
    world_example_ok cache_example_ok _ _ _ _ _ (run_eta Runs.set3 None _) _
    (run_eta Runs.get3 (_, _) _) _).
  - repeat constructor.
  - reflexivity.
  - refine (bool_decide_unpack _ _). vm_compute; reflexivity.
  - repeat constructor; discriminate.
  - apply Permutation_swap.
  - vm_compute; reflexivity.
  - apply later_refl. exact world_example_ok.
  - apply surjective_pairing.
  - apply Z.leb_le. vm_compute; reflexivity.
Defined.

Lemma typed_roundtrip_witness :
  rv Runs.get4 = ("Ada", true, None) \/ exists e, rv Runs.get4 = (EmptyString, false, Some e).
Proof.
  refine (typed_roundtrip "name" "Ada" 0 world_example cache_example
    (wv Runs.set4) (sv Runs.set4) (wv Runs.set4) _ (wv Runs.get4) (sv Runs.get4)
    Runs.json_example_roundtrip world_example_ok cache_example_ok I _ (run_eta Runs.set4 None _) _
    (run_eta Runs.get4 _ eq_refl) _).
  - reflexivity.
  - vm_compute; reflexivity.
  - apply later_refl. exact world_example_ok.
  - apply Z.leb_le. vm_compute; reflexivity.
Defined.

Lemma NewCache_ignores_store_default_witness :
  mem_defaultTTL Runs.store5 = 30 * Second /\ mem_peek (c_store (sv Runs.set5)) (4 * Minute) "k" = Some Ada.
Proof.
  split; [reflexivity|].
  refine (NewCache_ignores_store_default (30 * Second) 0 "k" Ada 0 world_example
    (wv Runs.set5) (sv Runs.set5) (4 * Minute) _ _ world_example_ok (run_eta Runs.set5 None _) _).
  - reflexivity.
  - reflexivity.
  - vm_compute; reflexivity.
  - split; apply Z.leb_le; vm_compute; reflexivity.
Defined.

Lemma WrapStore_set_get_witness :
  rv Runs.get6 = (Ada, true, None) /\ hit_or_error Ada (rv Runs.get6).
Proof.
  split; [vm_compute; reflexivity|].
  refine (WrapStore_set_get (newMemoryStore 0 0 : memoryStore GoMap.engine) cfg_example Runs.wrap6.1
    Background Background "k" Ada Minute world_example (wv Runs.set6) (sv Runs.set6) (wv Runs.set6)
    _ (wv Runs.get6) (sv Runs.get6) _ I _ _ world_example_ok _ (run_eta Runs.set6 None _) _
    (run_eta Runs.get6 _ eq_refl) _).
  - split; [exact I | split; reflexivity].
  - by left.
  - reflexivity.
  - split; reflexivity.
  - vm_compute; reflexivity.
  - apply later_refl. exact world_example_ok.
  - apply Z.leb_le. vm_compute; reflexivity.
Defined.
