(* ===== verification/Locks.v ===== *)
(** * cache.go: owner tokens, the direct lock lifecycle, TryLock, Lock, Unlock

    A [Cache] draws one owner token, on first use, and keeps per key a local
    lifecycle (acquiring, held, releasing) in [c_directLocks].  The waits of
    [Lock] are [select]s between the context and a timer; their loops take fuel,
    and [lockOwnedSince_returns] gives an amount that is always enough when the
    context has a deadline. *)

From S2P Require Import Prelude GoStd CacheCore MemoryStore Cache.

Section Direct.
Context {S : Type} `{Store S}.

(** ** cacheDirectLocks: one critical section each *)

Definition beginAcquire (key : string) : M (Cache S) bool :=
  let* c := get in
  match c_directLocks c !! key with
  | Some _ => ret false
  | None => put (set_directLocks (<[key := cacheDirectLockAcquiring]> (c_directLocks c)) c) ;; ret true
  end.

Definition finishAcquire (key : string) (acquired : bool) : M (Cache S) unit :=
  modify (fun c => set_directLocks
    (if acquired then <[key := cacheDirectLockHeld]> (c_directLocks c)
     else base.delete key (c_directLocks c)) c).

Definition beginRelease (key : string) : M (Cache S) bool :=
  let* c := get in
  if decide (c_directLocks c !! key = Some cacheDirectLockHeld)
  then put (set_directLocks (<[key := cacheDirectLockReleasing]> (c_directLocks c)) c) ;; ret true
  else ret false.

Definition finishRelease (key : string) (succeeded : bool) : M (Cache S) unit :=
  modify (fun c => set_directLocks
    (if succeeded then base.delete key (c_directLocks c)
     else <[key := cacheDirectLockHeld]> (c_directLocks c)) c).

(** ** Owner tokens *)

Definition newLockOwnerTokenFrom : M (Cache S) (bytes * option error) :=
  let* r := readRandom 32 in
  match r with
  | inr err => ret ([], Some (ErrorWrap "create cache lock owner: " err))
  | inl token => ret (token, None)
  end.

Definition newLockOwnerToken : M (Cache S) (bytes * option error) := newLockOwnerTokenFrom.

(** [once.Do] keeps the first outcome, an error included. *)
Definition lockOwnerToken : M (Cache S) (bytes * option error) :=
  let* c := get in
  match c_lockOwner c with
  | Some r => ret r
  | None =>
      let* r := newLockOwnerToken in
      modify (set_lockOwner (Some r)) ;;
      ret r
  end.

Definition usesDirectLockLifecycle (c : Cache S) : bool :=
  bool_decide (Store_Driver (c_store c) <> DriverNull).

(** ** Acquisition *)

(** [store.LockAcquire] when the store has the capability, [store.Add] otherwise. *)
Definition storeAcquire (ctx : Context) (key : string) (owner : bytes) (ttl : Z)
    : M (Cache S) (bool * option error) :=
  let* c := get in
  match Store_lockStore (c_store c) with
  | Some store => onStore (LockAcquire store ctx (lockPrefix +:+ key) owner ttl)
  | None => onStore (Store_Add ctx (lockPrefix +:+ key) owner ttl)
  end.

Definition tryLockOwned (ctx : Context) (key : string) (owner : bytes) (ttl : Z)
    : M (Cache S) (bool * option error) :=
  if ttl <=? 0 then ret (false, Some (ErrorString "cache try lock requires ttl > 0"))
  else
    let* start := timeNow in
    let* (created, err) := storeAcquire ctx key owner ttl in
    observe "try_lock" key created err start ;;
    ret (created, err).

Definition tryLock (ctx : Context) (key : string) (ttl : Z) : M (Cache S) (bool * option error) :=
  let* (owner, err) := lockOwnerToken in
  match err with
  | Some e => ret (false, Some e)
  | None =>
      let* c := get in
      if negb (usesDirectLockLifecycle c) then tryLockOwned ctx key owner ttl
      else
        let* begun := beginAcquire key in
        if negb begun then
          let* t := timeNow in
          observe "try_lock" key false None t ;;
          ret (false, None)
        else
          let* (locked, err) := tryLockOwned ctx key owner ttl in
          finishAcquire key (noErr err && locked) ;;
          ret (locked, err)
  end.

(** ** Waiting *)

Definition retryInterval_or_default (retryInterval : Z) : Z :=
  if retryInterval <=? 0 then defaultLockRetryInterval else retryInterval.

(** The loop of [lockOwnedSince]; [None] when the fuel runs out. *)
Fixpoint lockOwnedLoop (fuel : nat) (ctx : Context) (key : string) (owner : bytes)
    (ttl retryInterval start : Z) : M (Cache S) (option (bool * option error)) :=
  match fuel with
  | O => ret None
  | Datatypes.S fuel =>
      let* (locked, err) := tryLockOwned ctx key owner ttl in
      match err with
      | Some e =>
          observe "lock" key false (Some e) start ;;
          ret (Some (false, Some e))
      | None =>
          if locked : bool then
            observe "lock" key true None start ;;
            ret (Some (true, None))
          else
            let* done := waitRetry ctx retryInterval in
            match done with
            | Some e =>
                observe "lock" key false (Some e) start ;;
                ret (Some (false, Some e))
            | None => lockOwnedLoop fuel ctx key owner ttl retryInterval start
            end
      end
  end.

Definition lockOwnedSince (fuel : nat) (ctx : Context) (key : string) (owner : bytes)
    (ttl retryInterval start : Z) : M (Cache S) (option (bool * option error)) :=
  lockOwnedLoop fuel ctx key owner ttl (retryInterval_or_default retryInterval) start.

Definition lockOwned (fuel : nat) (ctx : Context) (key : string) (owner : bytes)
    (ttl retryInterval : Z) : M (Cache S) (option (bool * option error)) :=
  let* t := timeNow in lockOwnedSince fuel ctx key owner ttl retryInterval t.

(** [for !c.directLocks.beginAcquire(key) { select ... }]: [Some None] when the
    lifecycle was begun. *)
Fixpoint awaitLifecycle (fuel : nat) (ctx : Context) (key : string) (retryInterval : Z)
    : M (Cache S) (option (option error)) :=
  match fuel with
  | O => ret None
  | Datatypes.S fuel =>
      let* begun := beginAcquire key in
      if begun : bool then ret (Some None)
      else
        let* done := waitRetry ctx retryInterval in
        match done with
        | Some e => ret (Some (Some e))
        | None => awaitLifecycle fuel ctx key retryInterval
        end
  end.

Definition lock (fuel : nat) (ctx : Context) (key : string) (ttl retryInterval : Z)
    : M (Cache S) (option (bool * option error)) :=
  let* start := timeNow in
  let* (owner, err) := lockOwnerToken in
  match err with
  | Some e => ret (Some (false, Some e))
  | None =>
      let* c := get in
      if negb (usesDirectLockLifecycle c) then lockOwned fuel ctx key owner ttl retryInterval
      else
        let retryInterval := retryInterval_or_default retryInterval in
        let* begun := awaitLifecycle fuel ctx key retryInterval in
        match begun with
        | None => ret None
        | Some (Some e) =>
            observe "lock" key false (Some e) start ;;
            ret (Some (false, Some e))
        | Some None =>
            let* r := lockOwnedSince fuel ctx key owner ttl retryInterval start in
            match r with
            | None => ret None
            | Some (locked, err) =>
                finishAcquire key (noErr err && locked) ;;
                ret (Some (locked, err))
            end
        end
  end.

Definition Lock (fuel : nat) (key : string) (ttl timeout : Z) : M (Cache S) (option (bool * option error)) :=
  let* c := get in
  if timeout >? 0 then
    let* t := timeNow in
    lock fuel (WithTimeout (context c) t timeout) key ttl defaultLockRetryInterval
  else lock fuel (context c) key ttl defaultLockRetryInterval.

(** ** Release *)

Definition unlockOwned (ctx : Context) (key : string) (owner : bytes) : M (Cache S) (option error) :=
  let* start := timeNow in
  let* c := get in
  let* (released, err) :=
    match Store_lockStore (c_store c) with
    | Some store => onStore (LockRelease store ctx (lockPrefix +:+ key) owner)
    | None =>
        let* err := onStore (Store_Delete ctx (lockPrefix +:+ key)) in
        ret (noErr err, err)
    end in
  observe "unlock" key (released && noErr err) err start ;;
  ret err.

Definition unlock (ctx : Context) (key : string) : M (Cache S) (option error) :=
  let* c := get in
  if negb (usesDirectLockLifecycle c) then
    let* (owner, err) := lockOwnerToken in
    match err with
    | Some e => ret (Some e)
    | None => unlockOwned ctx key owner
    end
  else
    let* begun := beginRelease key in
    if negb begun then
      let* t := timeNow in
      observe "unlock" key false None t ;;
      ret None
    else
      let* (owner, err) := lockOwnerToken in
      match err with
      | Some e => finishRelease key false ;; ret (Some e)
      | None =>
          let* err := unlockOwned ctx key owner in
          finishRelease key (noErr err) ;;
          ret err
      end.

Definition TryLock (key : string) (ttl : Z) : M (Cache S) (bool * option error) :=
  inContext (fun ctx => tryLock ctx key ttl).
Definition Unlock (key : string) : M (Cache S) (option error) :=
  inContext (fun ctx => unlock ctx key).
End Direct.
