(* ===== verification/LockLaws.v ===== *)
(** * Locks: mutual exclusion, owner-safe release, the local lifecycle, waiting

    Backend calls are atomic, so the interleavings of any number of processes
    that share a store are the sequences of facade steps of [lockTrace]; each
    step may come from a different [Cache].  The local lifecycle table is
    verified separately as a transition system of concurrent calls. *)

From S2P Require Import Prelude GoStd CacheCore MemoryStore Cache CacheLaws Locks.

(** ** Steps against the lock contract *)

Section Owned.
Context {S : Type} `{LockContract S}.
Implicit Types c : Cache S.

Definition lock_ran (w : World) c (w' : World) c' : Prop :=
  later w w' /\ lc_ok (c_store c') /\ frame c c'.

Lemma lock_ran_refl w c : world_ok w -> lc_ok (c_store c) -> lock_ran w c w c.
Proof. intros. split; [by apply later_refl|]. by split. Qed.

Lemma lock_ran_trans w1 c1 w2 c2 w3 c3 :
  lock_ran w1 c1 w2 c2 -> lock_ran w2 c2 w3 c3 -> lock_ran w1 c1 w3 c3.
Proof.
  intros (?&?&?) (?&?&?). split; [by eapply later_trans|]. split; [done|]. by eapply frame_trans.
Qed.

Lemma observe_lock_ran op key hit err start w c u w' c' :
  world_ok w -> lc_ok (c_store c) -> observe op key hit err start w c = (u, w', c') ->
  lock_ran w c w' c' /\ c_store c' = c_store c.
Proof.
  intros Hw Hs E. apply observe_inv in E as (Hl & Es & Hf & _); [|done].
  split; [|done]. split; [done|]. split; [by rewrite Es | done].
Qed.

Lemma storeAcquire_post ctx key owner ttl w c r w' c' :
  world_ok w -> lc_ok (c_store c) -> ttl_ok ttl -> storeAcquire ctx key owner ttl w c = (r, w', c') ->
  lock_ran w c w' c' /\
  add_post lc_peek lc_occupied lc_grain (lockPrefix +:+ key) owner ttl w (c_store c) r w' (c_store c').
Proof.
  intros Hw Hs Ht. unfold storeAcquire. go_simpl. rewrite (lc_lockStore (c_store c)) by done.
  intros E. apply onStore_inv in E as (s' & E & ->).
  apply lc_acquire in E as (? & ? & ?); [|done..]. split; [|done]. by split.
Qed.

(** The outcome of one attempt: the owner is recorded, or nothing changes. *)
Definition acquire_post key owner ttl (w : World) c (r : bool * option error) (w' : World) c' : Prop :=
  if ttl <=? 0 then fst r = false /\ is_Some (snd r) /\ c' = c /\ w' = w
  else add_post lc_peek lc_occupied lc_grain (lockPrefix +:+ key) owner ttl w (c_store c) r w' (c_store c').

Lemma tryLockOwned_post ctx key owner ttl w c r w' c' :
  world_ok w -> lc_ok (c_store c) -> ttl < horizon -> tryLockOwned ctx key owner ttl w c = (r, w', c') ->
  lock_ran w c w' c' /\ acquire_post key owner ttl w c r w' c'.
Proof.
  intros Hw Hs Ht. unfold tryLockOwned, acquire_post. destruct (Z.leb_spec ttl 0).
  { intros [= <- <- <-]. split; [by apply lock_ran_refl|]. simpl. eauto. }
  go_simpl. destruct (storeAcquire _ _ _ _ _ c) as [[[created err] w1] c1] eqn:E.
  pose proof (later_tick w Hw) as Hl0.
  apply storeAcquire_post in E as [Hr Hp]; [|by eauto with go|done|by split].
  destruct (observe _ _ _ _ _ w1 c1) as [[u w2] c2] eqn:Eo. intros [= <- <- <-].
  destruct Hr as (Hl1 & Hs1 & Hf1).
  apply observe_lock_ran in Eo as [(Hl2 & Hs2 & Hf2) Es]; [|by eauto with go|done]. rewrite Es. split.
  - split; [by do 2 (eapply later_trans; [done|])|]. split; [done | by eapply frame_trans].
  - by eapply add_post_widen.
Qed.

Lemma unlockOwned_post ctx key owner w c err w' c' :
  world_ok w -> lc_ok (c_store c) -> unlockOwned ctx key owner w c = (err, w', c') ->
  lock_ran w c w' c' /\
  exists released,
    release_post lc_peek (lockPrefix +:+ key) owner w (c_store c) (released, err) w' (c_store c').
Proof.
  intros Hw Hs. unfold unlockOwned. go_simpl. rewrite (lc_lockStore (c_store c)) by done.
  destruct (onStore _ _ c) as [[[released e] w1] c1] eqn:E.
  pose proof (later_tick w Hw) as Hl0.
  apply onStore_inv in E as (s1 & E & ->). apply lc_release in E as (Hl1 & Hs1 & Hp); [|by eauto with go|done].
  destruct (observe _ _ _ _ _ w1 _) as [[u w2] c2] eqn:Eo. intros [= <- <- <-].
  apply observe_lock_ran in Eo as [(Hl2 & Hs2 & Hf2) Es]; [|by eauto with go|done]. rewrite Es. split.
  - split; [by do 2 (eapply later_trans; [done|])|]. by split.
  - exists released. by eapply release_post_widen.
Qed.
End Owned.

(** ** Interleavings of processes that share a store *)

Inductive lockEvent :=
| EvAcquire (key : string) (owner : bytes) (ttl : Z) (r : bool * option error)
| EvRelease (key : string) (owner : bytes) (err : option error)
| EvOther.

Section Traces.
Context {S : Type} `{LockContract S}.

(** One atomic step of some process: an attempt, a release, or anything that
    leaves the lock keys alone, such as operations on values and the passing of
    time. *)
Inductive lockStep : World -> S -> lockEvent -> World -> S -> Prop :=
| step_acquire ctx key owner ttl c r w w' c' :
    ttl < horizon -> tryLockOwned ctx key owner ttl w c = (r, w', c') ->
    lockStep w (c_store c) (EvAcquire key owner ttl r) w' (c_store c')
| step_release ctx key owner c err w w' c' :
    unlockOwned ctx key owner w c = (err, w', c') ->
    lockStep w (c_store c) (EvRelease key owner err) w' (c_store c')
| step_other w w' s s' :
    later w w' -> lc_ok s' -> (forall key, same_key lc_peek w' s s' (lockPrefix +:+ key)) ->
    lockStep w s EvOther w' s'.

Inductive lockTrace : World -> S -> list lockEvent -> World -> S -> Prop :=
| trace_nil w s : lockTrace w s [] w s
| trace_cons w s ev w1 s1 tr w2 s2 :
    lockStep w s ev w1 s1 -> lockTrace w1 s1 tr w2 s2 -> lockTrace w s (ev :: tr) w2 s2.

(** Two lock names whose records the backend keeps apart. *)
Definition lock_apart (key k : string) : Prop := apart (S := S) (lockPrefix +:+ key) (lockPrefix +:+ k).

(** An attempt on the key or on one kept apart from it; a release that is not of
    the key with the holder's token. *)
Definition not_released_by (key : string) (owner : bytes) (ev : lockEvent) : Prop :=
  match ev with
  | EvAcquire k _ _ _ => k = key \/ lock_apart key k
  | EvRelease k o _ => k = key /\ o <> owner \/ lock_apart key k
  | EvOther => True
  end.

(** An event on the key itself or on one kept apart from it. *)
Definition kept_apart (key : string) (ev : lockEvent) : Prop :=
  match ev with EvAcquire k _ _ _ | EvRelease k _ _ => k = key \/ lock_apart key k | EvOther => True end.

Definition released_by (key : string) (owner : bytes) (ev : lockEvent) : Prop :=
  match ev with EvRelease k o _ => k = key /\ o = owner | _ => False end.
#[export] Instance released_by_dec key owner ev : Decision (released_by key owner ev).
Proof. destruct ev; apply _. Defined.

Lemma not_released key owner tr :
  Forall (kept_apart key) tr -> ~ Exists (released_by key owner) tr -> Forall (not_released_by key owner) tr.
Proof.
  intros Hap Hno. rewrite list.Forall_forall in *. intros ev Hin. specialize (Hap ev Hin).
  assert (~ released_by key owner ev) as Hr by (intros Hr; apply Hno, list.Exists_exists; eauto).
  destruct ev as [k o ttl r|k o err|]; [done| |done]. destruct Hap as [->|]; [|by right]. left. split; [done|].
  intros ->. by apply Hr.
Qed.

Definition won (key : string) (ev : lockEvent) : Prop :=
  match ev with EvAcquire k _ _ (true, _) => k = key | _ => False end.

(** [owner] holds [key] since [w0] for [ttl]; says something of lock names the
    backend can record only. *)
Definition holds (key : string) (owner : bytes) (ttl : Z) (w0 w : World) (s : S) : Prop :=
  kept lc_peek lc_grain ttl w0 w s (lockPrefix +:+ key) owner.

Lemma step_world w s ev w' s' :
  world_ok w -> lc_ok s -> lockStep w s ev w' s' -> later w w' /\ lc_ok s'.
Proof.
  intros Hw Hs Hst. destruct Hst as [ctx key owner ttl c r w w' c' Ht E|ctx key owner c err w w' c' E|w w' s s' Hl Hs' _].
  - by apply tryLockOwned_post in E as [(? & ? & _) _].
  - by apply unlockOwned_post in E as [(? & ? & _) _].
  - done.
Qed.

(** While the lock is held, a step neither ends the hold nor wins the key. *)
Lemma step_holds key owner ttl w0 w s ev w' s' :
  world_ok w -> lc_ok s -> storable (S := S) (lockPrefix +:+ key) ttl ->
  holds key owner ttl w0 w s -> lockStep w s ev w' s' ->
  not_released_by key owner ev -> now w' <= now w0 + ttl ->
  holds key owner ttl w0 w' s' /\ ~ won key ev.
Proof.
  intros Hw Hs Hsk Hh Hst Hnr Hn. pose proof (step_world _ _ _ _ _ Hw Hs Hst) as [Hl _].
  pose proof (later_now _ _ Hl) as Hle.
  assert (Hkeep : same_key lc_peek w' s s' (lockPrefix +:+ key) -> holds key owner ttl w0 w' s').
  { intros Hsame. by eapply kept_later. }
  pose proof (Hh Hsk) as (Hvis & _ & _).
  destruct Hst as [ctx k o ottl c r w w' c' Ht E|ctx k o c err w w' c' E|w w' s s' Hl' Hs' Hsame].
  - apply tryLockOwned_post in E as [_ Hp]; [|done..]. unfold acquire_post in Hp.
    destruct (ottl <=? 0).
    { destruct r as [[] e], Hp as (? & _ & -> & ->); [done|]. split; [by apply Hkeep; intros t Ht'|]. by intros []. }
    destruct Hp as [Hk Hp].
    assert (Hfree : free lc_occupied w w' (c_store c) (lockPrefix +:+ k) -> k <> key).
    { intros (t & Ht' & Hfree) ->. apply Hfree. eapply (lc_peek_occupied _ _ _ owner). apply Hvis. lia. }
    destruct r as [[] [e|]].
    + by destruct Hp.
    + destruct Hp as [Hp _]. specialize (Hfree Hp).
      destruct Hnr as [?|Hap]; [done|]. split; [by apply Hkeep, Hk | done].
    + destruct Hp as [_ Hp]. split; [|by intros []]. apply Hkeep. destruct Hp as [?|[Hp _]]; [done|].
      specialize (Hfree Hp). destruct Hnr as [?|Hap]; [done|]. by apply Hk.
    + destruct Hp as [_ Hp]. split; [by apply Hkeep|]. by intros [].
  - apply unlockOwned_post in E as [_ (released & Hk & Hp)]; [|done..]. split; [|by intros []].
    apply Hkeep. destruct Hnr as [[-> Hne]|Hap]; [|by apply Hk].
    assert (Hmine : ~ own lc_peek w w' (c_store c) (lockPrefix +:+ key) o).
    { intros [(t & Ht' & Ev)|(t & Ht' & Ev)]; rewrite Hvis in Ev by lia; congruence. }
    by destruct released, err as [e|]; destruct Hp as [? Hp]; try destruct Hp as [Hp|[]].
  - split; [|by intros []]. apply Hkeep, Hsame.
Qed.

Lemma trace_world w s tr w' s' : world_ok w -> lc_ok s -> lockTrace w s tr w' s' -> later w w' /\ lc_ok s'.
Proof.
  intros Hw Hs Htr. induction Htr as [|w s ev w1 s1 tr w2 s2 Hst Htr IH]; [split; [by apply later_refl | done]|].
  destruct (step_world _ _ _ _ _ Hw Hs Hst) as [Hl Hs1]. destruct IH as [Hl2 ?]; [by eauto with go|done|].
  split; [by eapply later_trans | done].
Qed.

Lemma trace_later w s tr w' s' : world_ok w -> lc_ok s -> lockTrace w s tr w' s' -> later w w'.
Proof. intros Hw Hs Htr. by apply (trace_world _ _ _ _ _ Hw Hs Htr). Qed.

Lemma trace_app w s tr tr' w' s' :
  lockTrace w s (tr ++ tr') w' s' -> exists w1 s1, lockTrace w s tr w1 s1 /\ lockTrace w1 s1 tr' w' s'.
Proof.
  revert w s. induction tr as [|ev tr IH]; intros w s Htr; [exists w, s; split; [constructor | done]|].
  inversion Htr as [|? ? ? w2 s2 ? ? ? Hst Hrest]; subst. destruct (IH _ _ Hrest) as (w1 & s1 & Ht1 & Ht2).
  exists w1, s1. split; [by econstructor | done].
Qed.

Lemma trace_holds key owner ttl w0 w s tr w' s' :
  world_ok w -> lc_ok s -> storable (S := S) (lockPrefix +:+ key) ttl ->
  holds key owner ttl w0 w s -> lockTrace w s tr w' s' ->
  Forall (not_released_by key owner) tr -> now w' <= now w0 + ttl ->
  holds key owner ttl w0 w' s' /\ Forall (fun ev => ~ won key ev) tr.
Proof.
  intros Hw Hs Hsk Hh Htr. induction Htr as [|w s ev w1 s1 tr w2 s2 Hst Htr IH]; intros Hnr Hn.
  { by split. }
  apply list.Forall_cons in Hnr as [Hnr1 Hnr].
  destruct (step_world _ _ _ _ _ Hw Hs Hst) as [Hl Hs1].
  pose proof (later_now _ _ (trace_later _ _ _ _ _ (later_world_ok _ _ Hl) Hs1 Htr)).
  destruct (step_holds key owner ttl w0 w s ev w1 s1) as [Hh1 Hwon]; [done..|lia|].
  destruct (IH (later_world_ok _ _ Hl) Hs1 Hh1 Hnr Hn) as [Hh2 Hf]. split; [done|]. by constructor.
Qed.
End Traces.

(** ** Waiting *)

Section Waiting.
Context {S : Type} `{LockContract S}.
Implicit Types c : Cache S.

(** How a waiting acquisition ends: with the lock recorded under the owner, with
    the context's error once its deadline has passed, or with an error of the
    backend (or of the TTL check). *)
Definition lock_outcome key owner ttl (d : Z) (e : error) (w : World)
    (r : bool * option error) (w' : World) c' : Prop :=
  match r with
  | (true, None) => exists w1 w2, later w w1 /\ later w2 w' /\
      holds key owner ttl w1 w2 (c_store c')
  | (false, Some e') => e' = e /\ d <= now w' \/
      exists w1 c1 w2 c2 ctx, tryLockOwned ctx key owner ttl w1 c1 = ((false, Some e'), w2, c2)
  | _ => False
  end.

Lemma lock_outcome_since key owner ttl d e w0 w r w' c' :
  later w0 w -> lock_outcome key owner ttl d e w r w' c' ->
  lock_outcome key owner ttl d e w0 r w' c'.
Proof.
  intros Hl. destruct r as [[] [e'|]]; simpl; try done.
  intros (w1 & w2 & ? & ?). exists w1, w2. split; [by eapply later_trans | done].
Qed.

(** A failed attempt is a tryLockOwned that reported [false]. *)
Lemma acquire_error key owner ttl w c locked e w' c' :
  acquire_post key owner ttl w c (locked, Some e) w' c' -> locked = false.
Proof.
  unfold acquire_post. destruct (ttl <=? 0); [by intros [? _]|]. intros [_ Hp].
  by destruct locked, Hp.
Qed.

Lemma acquire_won key owner ttl w c w' c' :
  acquire_post key owner ttl w c (true, None) w' c' -> holds key owner ttl w w' (c_store c').
Proof. unfold acquire_post. destruct (ttl <=? 0); [by intros [? _]|]. by intros [_ [_ ?]]. Qed.

(** One iteration of the loop ends it, or costs at least the interval. *)
Lemma lock_iteration fuel ctx d e key owner ttl retry start w c :
  ctx_done ctx = Some (d, e) -> d < horizon -> 0 < retry -> ttl < horizon ->
  world_ok w -> lc_ok (c_store c) ->
  (exists r w' c',
     lockOwnedLoop (Datatypes.S fuel) ctx key owner ttl retry start w c = (Some r, w', c') /\
     lock_ran w c w' c' /\ lock_outcome key owner ttl d e w r w' c') \/
  (exists w' c',
     lockOwnedLoop (Datatypes.S fuel) ctx key owner ttl retry start w c =
       lockOwnedLoop fuel ctx key owner ttl retry start w' c' /\
     lock_ran w c w' c' /\ now w + retry <= now w' /\ now w + retry <= d).
Proof.
  intros Hd Hh Hr Ht Hw Hs. cbn [lockOwnedLoop]. go_simpl.
  destruct (tryLockOwned ctx key owner ttl w c) as [[[locked err] w1] c1] eqn:E. pose proof E as E0.
  apply tryLockOwned_post in E as [Hran Hp]; [|done..].
  pose proof Hran as (Hl1 & Hs1 & Hf1). pose proof (later_world_ok _ _ Hl1) as Hw1.
  destruct err as [e'|].
  { apply acquire_error in Hp as ->. left.
    destruct (observe _ _ _ _ _ w1 c1) as [[u w2] c2] eqn:Eo. apply observe_lock_ran in Eo as [Hr2 _]; [|done..].
    eexists _, _, _. split; [reflexivity|]. split; [by eapply lock_ran_trans|]. right. by eexists _, _, _, _, _. }
  destruct locked.
  { left. destruct (observe _ _ _ _ _ w1 c1) as [[u w2] c2] eqn:Eo.
    apply observe_lock_ran in Eo as [Hr2 Es]; [|done..]. eexists _, _, _. split; [reflexivity|].
    split; [by eapply lock_ran_trans|]. exists w, w1. split; [by apply later_refl|].
    split; [by destruct Hr2|]. rewrite Es. by apply acquire_won in Hp. }
  destruct (waitRetry ctx retry w1 c1) as [[dn w2] c2] eqn:Ew.
  eapply waitRetry_post in Ew as (-> & Hl2 & Hdone); [|done..].
  assert (Hran2 : lock_ran w c w2 c1) by (split; [by eapply later_trans | by split]).
  pose proof (later_now _ _ Hl1).
  destruct dn as [e'|]; [left | right; exists w2, c1; split; [done|]; split; [done | lia]].
  destruct Hdone as [-> Hdone]. destruct (observe _ _ _ _ _ w2 c1) as [[u w3] c3] eqn:Eo.
  apply observe_lock_ran in Eo as [Hr3 _]; [|by eauto with go|done].
  eexists _, _, _. split; [reflexivity|]. split; [by eapply lock_ran_trans|].
  destruct Hr3 as [Hl3 _]. apply later_now in Hl3. left. split; [done | lia].
Qed.

Lemma lockOwnedLoop_returns n ctx d e key owner ttl retry start w c :
  ctx_done ctx = Some (d, e) -> d < horizon -> 0 < retry -> ttl < horizon ->
  world_ok w -> lc_ok (c_store c) -> d < now w + retry * Z.of_nat n ->
  exists r w' c',
    lockOwnedLoop (Datatypes.S n) ctx key owner ttl retry start w c = (Some r, w', c') /\
    lock_ran w c w' c' /\ lock_outcome key owner ttl d e w r w' c'.
Proof.
  intros Hd Hh Hr Ht. revert w c. induction n as [|n IH]; intros w c Hw Hs Hn;
    [destruct (lock_iteration 0 ctx d e key owner ttl retry start w c)
       as [?|(w2 & c2 & _ & _ & _ & ?)]; [done.. | lia]|].
  destruct (lock_iteration (Datatypes.S n) ctx d e key owner ttl retry start w c)
    as [?|(w2 & c2 & -> & Hran & Hn2 & _)]; [done..|].
  pose proof Hran as (Hl & Hs2 & Hf).
  destruct (IH w2 c2) as (r & w' & c' & -> & Hran' & Hout); [by eauto with go|done|lia|].
  exists r, w', c'. split; [done|]. split; [by eapply lock_ran_trans|].
  by eapply lock_outcome_since in Hout.
Qed.
End Waiting.

(** ** Guarantees over a shared store *)

Section Shared.
Context {S : Type} `{LockContract S}.
Implicit Types c : Cache S.

(** C3: mutual exclusion and owner-safe release.  From the moment an attempt wins a key,
    and for its whole TTL, whatever the clients of the store do in whatever interleaving
    (attempts and releases under any tokens, also expired ones of earlier holders, and
    operations on keys kept apart), the key is won again only after a release with the
    winner's own token; without one the winner's token stays recorded.  An attempt or a
    release is one step of the store: in the backends with a server for clients of any
    process, in the memory and file stores for those of one process. *)
Theorem mutual_exclusion ctx key owner ttl w c w1 c1 tr w2 s2 :
  world_ok w -> lc_ok (c_store c) -> storable (S := S) (lockPrefix +:+ key) ttl -> ttl < horizon ->
  tryLockOwned ctx key owner ttl w c = ((true, None), w1, c1) ->
  lockTrace w1 (c_store c1) tr w2 s2 -> Forall (kept_apart key) tr -> now w2 <= now w + ttl ->
  (forall before ev after, tr = before ++ ev :: after -> won key ev -> Exists (released_by key owner) before) /\
  (Exists (released_by key owner) tr \/ lc_peek s2 (now w2) (lockPrefix +:+ key) = Some owner).
Proof.
  intros Hw Hs Hsk Ht E Htr Hap Hn. apply tryLockOwned_post in E as [(Hl & Hs1 & _) Hp]; [|done..].
  apply acquire_won in Hp. pose proof (later_world_ok _ _ Hl) as Hw1. split.
  - intros before ev after -> Hwon. destruct (decide (Exists (released_by key owner) before)) as [|Hno]; [done|]. exfalso.
    rewrite cons_middle, (assoc_L (++)) in Htr, Hap. apply trace_app in Htr as (w3 & s3 & Htr & Hrest).
    apply list.Forall_app in Hap as [Hap _]. destruct (trace_world _ _ _ _ _ Hw1 Hs1 Htr) as [Hl3 Hs3].
    pose proof (later_now _ _ (trace_later _ _ _ _ _ (later_world_ok _ _ Hl3) Hs3 Hrest)).
    destruct (trace_holds key owner ttl w w1 (c_store c1) (before ++ [ev]) w3 s3) as [_ Hf]; [done..| |lia|].
    { apply not_released; [done|]. intros [?|Hev]%Exists_app; [done|]. apply Exists_cons in Hev as [Hev|Hev%Exists_nil]; [|done].
      by destruct ev. }
    apply list.Forall_app in Hf as [_ Hf]. by apply list.Forall_cons in Hf as [? _].
  - destruct (decide (Exists (released_by key owner) tr)) as [|Hno]; [by left|]. right.
    destruct (trace_holds key owner ttl w w1 (c_store c1) tr w2 s2) as [Hh _]; [done..|by apply not_released|done|].
    destruct (Hh Hsk) as [Hvis _]. apply Hvis. apply later_now in Hl.
    pose proof (later_now _ _ (trace_later _ _ _ _ _ Hw1 Hs1 Htr)). lia.
Qed.

(** Iterations enough for a wait of [d - t] at intervals of [retry]. *)
Definition lockFuel (d t retry : Z) : nat := Datatypes.S (Datatypes.S (Z.to_nat ((d - t) / retry))).

(** C11: a blocking acquisition whose context has a deadline returns, within
    [(deadline - start) / interval + 2] attempts, and never without a reason: it
    holds the lock under its token, or reports the context's error after the
    deadline has passed, or an attempt failed with the error it reports. *)
Theorem lockOwnedSince_returns ctx d e key owner ttl retryInterval start w c :
  ctx_done ctx = Some (d, e) -> d < horizon -> ttl < horizon -> world_ok w -> lc_ok (c_store c) ->
  exists r w' c',
    lockOwnedSince (lockFuel d (now w) (retryInterval_or_default retryInterval))
      ctx key owner ttl retryInterval start w c = (Some r, w', c') /\
    lock_ran w c w' c' /\ lock_outcome key owner ttl d e w r w' c'.
Proof.
  intros Hd Hh Ht Hw Hs. set (retry := retryInterval_or_default retryInterval).
  assert (0 < retry) as Hr.
  { unfold retry, retryInterval_or_default. destruct (Z.leb_spec retryInterval 0); [done | lia]. }
  apply lockOwnedLoop_returns; [done..|].
  pose proof (Z.mul_succ_div_gt (d - now w) retry Hr).
  destruct (Z.le_gt_cases 0 ((d - now w) / retry)); [nia|].
  replace (Z.to_nat ((d - now w) / retry)) with 0%nat by lia. nia.
Qed.
End Shared.

(** ** The local lifecycle *)

Section Lifecycle.
Context {S : Type} `{Store S}.
Implicit Types c : Cache S.

(** The calls of one [Cache] in progress, by goroutine. *)
Inductive phase := InAcquire (key : string) | InRelease (key : string).

Definition phase_key (p : phase) : string := match p with InAcquire k | InRelease k => k end.

Definition phase_status (p : phase) : cacheDirectLockStatus :=
  match p with InAcquire _ => cacheDirectLockAcquiring | InRelease _ => cacheDirectLockReleasing end.

(** The critical sections of [tryLock], [lock] and [unlock], interleaved with
    each other and with code that leaves the table alone (the backend calls). *)
Inductive dlStep (w : World) : Cache S * gmap nat phase -> Cache S * gmap nat phase -> Prop :=
| dl_beginAcquire i key c c' th begun :
    th !! i = None -> beginAcquire key w c = (begun, w, c') ->
    dlStep w (c, th) (c', if begun : bool then <[i := InAcquire key]> th else th)
| dl_finishAcquire i key c c' th acquired :
    th !! i = Some (InAcquire key) -> finishAcquire key acquired w c = (tt, w, c') ->
    dlStep w (c, th) (c', base.delete i th)
| dl_beginRelease i key c c' th begun :
    th !! i = None -> beginRelease key w c = (begun, w, c') ->
    dlStep w (c, th) (c', if begun : bool then <[i := InRelease key]> th else th)
| dl_finishRelease i key c c' th succeeded :
    th !! i = Some (InRelease key) -> finishRelease key succeeded w c = (tt, w, c') ->
    dlStep w (c, th) (c', base.delete i th)
| dl_elsewhere c c' th :
    c_directLocks c' = c_directLocks c -> dlStep w (c, th) (c', th).

(** The table says exactly which keys have a call in progress, and no key has
    two. *)
Definition dl_inv (st : Cache S * gmap nat phase) : Prop :=
  (forall i p, st.2 !! i = Some p -> c_directLocks st.1 !! phase_key p = Some (phase_status p)) /\
  (forall i j p q, st.2 !! i = Some p -> st.2 !! j = Some q -> phase_key p = phase_key q -> i = j) /\
  (forall k, c_directLocks st.1 !! k <> None -> c_directLocks st.1 !! k <> Some cacheDirectLockHeld ->
     exists i p, st.2 !! i = Some p /\ phase_key p = k).

Lemma dl_begin i p locks th :
  th !! i = None -> (forall j q, th !! j = Some q -> phase_key q <> phase_key p) ->
  forall c c', c_directLocks c = locks ->
  c_directLocks c' = <[phase_key p := phase_status p]> locks ->
  dl_inv (c, th) -> dl_inv (c', <[i := p]> th).
Proof.
  intros Hi Hfree c c' Hlocks Hlocks' (H1 & H2 & H3). unfold dl_inv. simpl in *.
  rewrite Hlocks', Hlocks in *. split; [|split].
  - intros j q Hj. apply lookup_insert_Some in Hj as [[<- <-]|[Hne Hj]]; [by rewrite lookup_insert_eq|].
    rewrite lookup_insert_ne; [by eapply H1|]. intros E. by eapply Hfree.
  - intros j1 j2 q1 q2 Hj1 Hj2 E.
    apply lookup_insert_Some in Hj1 as [[<- <-]|[? Hj1]], Hj2 as [[<- <-]|[? Hj2]]; [done| | |by eapply H2].
    + exfalso. by eapply Hfree.
    + exfalso. by eapply Hfree.
  - intros k Hk Hh. destruct (decide (k = phase_key p)) as [->|Hne].
    { exists i, p. by rewrite lookup_insert_eq. }
    rewrite lookup_insert_ne in Hk, Hh by done. destruct (H3 k Hk Hh) as (j & q & Hj & Hq).
    exists j, q. rewrite lookup_insert_ne; [done|]. intros ->. congruence.
Qed.

Lemma dl_finish i p th (c c' : Cache S) :
  th !! i = Some p ->
  (forall k, k <> phase_key p -> c_directLocks c' !! k = c_directLocks c !! k) ->
  (c_directLocks c' !! phase_key p = None \/ c_directLocks c' !! phase_key p = Some cacheDirectLockHeld) ->
  dl_inv (c, th) -> dl_inv (c', base.delete i th).
Proof.
  intros Hi Hother Hself (H1 & H2 & H3). unfold dl_inv. simpl in *. split; [|split].
  - intros j q [Hne Hj]%lookup_delete_Some. rewrite Hother; [by eapply H1|].
    intros E. apply Hne. by eapply H2.
  - intros j1 j2 q1 q2 [_ Hj1]%lookup_delete_Some [_ Hj2]%lookup_delete_Some. by eapply H2.
  - intros k Hk Hh. destruct (decide (k = phase_key p)) as [->|Hne]; [by destruct Hself|].
    rewrite Hother in Hk, Hh by done. destruct (H3 k Hk Hh) as (j & q & Hj & Hq).
    exists j, q. split; [|done]. apply lookup_delete_Some. split; [|done]. intros ->. congruence.
Qed.

Lemma dl_step_inv w st st' : dl_inv st -> dlStep w st st' -> dl_inv st'.
Proof.
  intros Hinv Hst. destruct Hst as [i key c c' th begun Hi E|i key c c' th b Hi E|i key c c' th begun Hi E|i key c c' th b Hi E|c c' th E].
  - unfold beginAcquire in E. go_simpl_in E. destruct (c_directLocks c !! key) as [st|] eqn:Ek.
    + by simplify_eq.
    + injection E as <- <-. eapply (dl_begin i (InAcquire key)); [done| |done|done|done].
      intros j q Hj Hq. destruct Hinv as (H1 & _). apply H1 in Hj. simpl in *. congruence.
  - injection E as <-. eapply (dl_finish i (InAcquire key)); [done| | |done]; simpl; destruct b.
    + intros k Hk. by rewrite lookup_insert_ne.
    + intros k Hk. by rewrite lookup_delete_ne.
    + right. by rewrite lookup_insert_eq.
    + left. by rewrite lookup_delete_eq.
  - unfold beginRelease in E. go_simpl_in E. destruct (decide _) as [Ek|]; [|by simplify_eq].
    injection E as <- <-. eapply (dl_begin i (InRelease key)); [done| |done|done|done].
    intros j q Hj Hq. destruct Hinv as (H1 & _). apply H1 in Hj. simpl in *. destruct q; simplify_eq/=; congruence.
  - injection E as <-. eapply (dl_finish i (InRelease key)); [done| | |done]; simpl; destruct b.
    + intros k Hk. by rewrite lookup_delete_ne.
    + intros k Hk. by rewrite lookup_insert_ne.
    + left. by rewrite lookup_delete_eq.
    + right. by rewrite lookup_insert_eq.
  - unfold dl_inv in *. simpl in *. by rewrite E.
Qed.

(** C12: in every interleaving of [TryLock], [Lock] and [Unlock] calls on one
    [Cache], starting from [NewCache], at most one call per key is between the
    begin and the finish of its lifecycle step, so its backend calls for a key
    never overlap; and when no call is in progress every remaining entry of the
    table is a held lock. *)
Theorem lifecycle_exclusive w store st :
  rtc (dlStep w) (NewCache store, ∅) st ->
  (forall i j p q, st.2 !! i = Some p -> st.2 !! j = Some q -> phase_key p = phase_key q -> i = j) /\
  (st.2 = ∅ -> forall k status, c_directLocks st.1 !! k = Some status -> status = cacheDirectLockHeld).
Proof.
  intros Hr. assert (dl_inv st) as (_ & H2 & H3).
  { assert (Hinit : dl_inv (NewCache store, ∅)).
    { split; [|split]; simpl; [intros i p Hi | intros i j p q Hi | intros k Hk].
      - by rewrite lookup_empty in Hi.
      - by rewrite lookup_empty in Hi.
      - by rewrite lookup_empty in Hk. }
    induction Hr as [|x y z Hxy Hyz IH]; [done|]. apply IH. by eapply dl_step_inv. }
  split; [done|]. intros Hth k status Hk. destruct (decide (status = cacheDirectLockHeld)) as [|Hne]; [done|].
  destruct (H3 k) as (i & p & Hi & _); [congruence|congruence|]. by rewrite Hth, lookup_empty in Hi.
Qed.
End Lifecycle.

(** ** TryLock and Unlock move the lifecycle *)

Section Table.
Context {S : Type} `{Store S}.
Implicit Types c : Cache S.

(** The fields other than the store and the events. *)
Definition same_table c c' : Prop :=
  c_directLocks c' = c_directLocks c /\ c_lockOwner c' = c_lockOwner c /\
  c_defaultTTL c' = c_defaultTTL c /\ c_ctx c' = c_ctx c.

Lemma observe_table op key hit err start w c u w' c' :
  observe op key hit err start w c = (u, w', c') -> same_table c c' /\ c_store c' = c_store c.
Proof. unfold observe. go_simpl. destruct (c_observer c); intros [= <- <- <-]; done. Qed.

Lemma onStore_table {A} (m : M S A) w c a w' c' : onStore m w c = (a, w', c') -> same_table c c'.
Proof. intros E. by apply onStore_inv in E as (s' & _ & ->). Qed.

Lemma same_table_trans c1 c2 c3 : same_table c1 c2 -> same_table c2 c3 -> same_table c1 c3.
Proof. intros (?&?&?&?) (?&?&?&?). repeat split; congruence. Qed.

Lemma tryLockOwned_table ctx key owner ttl w c r w' c' :
  tryLockOwned ctx key owner ttl w c = (r, w', c') -> same_table c c'.
Proof.
  unfold tryLockOwned. destruct (ttl <=? 0); [by intros [= <- <- <-]|].
  unfold storeAcquire. go_simpl. destruct (Store_lockStore (c_store c)) as [ops|];
    destruct (onStore _ _ c) as [[[created err] w1] c1] eqn:E; apply onStore_table in E;
    destruct (observe _ _ _ _ _ w1 c1) as [[u w2] c2] eqn:Eo; apply observe_table in Eo as [Eo _];
    intros [= <- <- <-]; by eapply same_table_trans.
Qed.

Lemma unlockOwned_table ctx key owner w c r w' c' :
  unlockOwned ctx key owner w c = (r, w', c') -> same_table c c'.
Proof.
  unfold unlockOwned. go_simpl. destruct (Store_lockStore (c_store c)) as [ops|].
  - destruct (onStore _ _ c) as [[[released err] w1] c1] eqn:E; apply onStore_table in E;
    destruct (observe _ _ _ _ _ w1 c1) as [[u w2] c2] eqn:Eo; apply observe_table in Eo as [Eo _];
    intros [= <- <- <-]; by eapply same_table_trans.
  - destruct (onStore _ _ c) as [[err w1] c1] eqn:E; apply onStore_table in E;
    destruct (observe _ _ _ _ _ w1 c1) as [[u w2] c2] eqn:Eo; apply observe_table in Eo as [Eo _];
    intros [= <- <- <-]; by eapply same_table_trans.
Qed.

(** The table after an attempt, and after the release of a held key. *)
Definition tableAfterTry (key : string) (acquired : bool) (locks : gmap string cacheDirectLockStatus) :=
  if acquired then <[key := cacheDirectLockHeld]> locks else locks.
Definition tableAfterUnlock (key : string) (released : bool) (locks : gmap string cacheDirectLockStatus) :=
  if released then base.delete key locks else locks.

(** The token is drawn once and then kept. *)
Lemma lockOwnerToken_inv w c r w' c' :
  lockOwnerToken w c = (r, w', c') ->
  c_store c' = c_store c /\ c_directLocks c' = c_directLocks c /\ c_lockOwner c' = Some r /\
  (forall r0, c_lockOwner c = Some r0 -> r = r0 /\ c' = c /\ w' = w).
Proof.
  unfold lockOwnerToken. go_simpl. destruct (c_lockOwner c) as [r0|] eqn:Eo.
  - intros [= <- <- <-]. repeat split; congruence.
  - unfold newLockOwnerToken, newLockOwnerTokenFrom. go_simpl. simpl.
    destruct (w_rand w (w_draw w) 32) as [token|err]; intros [= <- <- <-]; by repeat split.
Qed.

(** [TryLock] through a [Cache] whose driver is not the null store: while the
    cache has an active lifecycle for the key, from its acquisition until
    [Unlock] and even if the backend's entry has expired meanwhile, it reports
    [false] and does not touch the store; otherwise the key becomes held in the
    table exactly when the attempt succeeds, and no other key's entry moves. *)
Theorem tryLock_lifecycle ctx key ttl w c owner locked err w' c' :
  usesDirectLockLifecycle c = true -> c_lockOwner c = Some (owner, None) ->
  tryLock ctx key ttl w c = ((locked, err), w', c') ->
  if decide (c_directLocks c !! key = None)
  then c_directLocks c' = tableAfterTry key (locked && noErr err) (c_directLocks c)
  else locked = false /\ err = None /\ c_store c' = c_store c /\ c_directLocks c' = c_directLocks c.
Proof.
  intros Hd Ho. unfold tryLock. go_simpl.
  destruct (lockOwnerToken w c) as [[[o oe] w1] c1] eqn:E.
  apply lockOwnerToken_inv in E as (_ & _ & _ & E). destruct (E _ Ho) as ([= -> ->] & -> & ->).
  rewrite Hd. cbn [negb]. unfold beginAcquire. go_simpl.
  destruct (decide (c_directLocks c !! key = None)) as [Ek|Ek].
  - rewrite Ek. simpl.
    destruct (tryLockOwned _ _ _ _ _ _) as [[[l e] w2] c2] eqn:E2. apply tryLockOwned_table in E2 as (Et & _).
    intros [= <- <- <- <-]. unfold finishAcquire. go_simpl. simpl. rewrite Et. simpl.
    unfold tableAfterTry. rewrite (andb_comm l). destruct (noErr e && l).
    + by rewrite insert_insert_eq.
    + by rewrite delete_insert_id.
  - destruct (c_directLocks c !! key) as [st|]; [simpl | done].
    destruct (observe _ _ _ _ _ _ c) as [[u w2] c2] eqn:Eo. intros [= <- <- <- <-].
    by apply observe_table in Eo as [(-> & _) ->].
Qed.

(** [Unlock] without a held lifecycle for the key (never acquired here, or
    already unlocked) succeeds and does not touch the store; with one, it closes
    the lifecycle when the backend call succeeds and keeps it, so that the call
    can be repeated, when the backend call fails. *)
Theorem unlock_lifecycle ctx key w c owner err w' c' :
  usesDirectLockLifecycle c = true -> c_lockOwner c = Some (owner, None) ->
  unlock ctx key w c = (err, w', c') ->
  if decide (c_directLocks c !! key = Some cacheDirectLockHeld)
  then c_directLocks c' = tableAfterUnlock key (noErr err) (c_directLocks c)
  else err = None /\ c_store c' = c_store c /\ c_directLocks c' = c_directLocks c.
Proof.
  intros Hd Ho. unfold unlock. go_simpl. rewrite Hd. cbn [negb]. unfold beginRelease. go_simpl.
  destruct (decide (c_directLocks c !! key = Some cacheDirectLockHeld)) as [Ek|Ek]; simpl.
  - set (c0 := set_directLocks _ c).
    destruct (lockOwnerToken w c0) as [[[o oe] w1] c1] eqn:E.
    apply lockOwnerToken_inv in E as (_ & _ & _ & E).
    destruct (E _ Ho) as ([= -> ->] & -> & ->).
    destruct (unlockOwned ctx key owner w c0) as [[e w2] c2] eqn:E2. apply unlockOwned_table in E2 as (Et & _).
    intros [= <- <- <-]. unfold finishRelease. go_simpl. simpl. rewrite Et. simpl.
    unfold tableAfterUnlock. destruct (noErr e).
    + by rewrite delete_insert_eq.
    + rewrite insert_insert_eq. by apply insert_id.
  - destruct (observe _ _ _ _ _ _ c) as [[u w2] c2] eqn:Eo. intros [= <- <- <-].
    by apply observe_table in Eo as [(-> & _) ->].
Qed.
End Table.

(** ** Witnesses *)

Module LockRuns.
Definition win := tryLockOwned Background "job" [x01] Minute world_example cache_example.
Definition lose := tryLockOwned Background "job" [x02] Minute (wv win) (sv win).
Definition rel := unlockOwned Background "job" [x02] (wv lose) (sv lose).
Definition own := unlockOwned Background "job" [x01] (wv rel) (sv rel).
Definition next := tryLockOwned Background "job" [x02] Minute (wv own) (sv own).
Definition events : list lockEvent :=
  [EvAcquire "job" [x02] Minute (false, None); EvRelease "job" [x02] None; EvRelease "job" [x01] None;
   EvAcquire "job" [x02] Minute (true, None)].

Definition deadline : Context := mkContext (Some (2 * Second, DeadlineExceeded)).

Definition owned : Cache (memoryStore GoMap.engine) := set_lockOwner (Some ([x01], None)) cache_example.
Definition try1 := tryLock Background "job" Minute world_example owned.
Definition try2 := tryLock Background "job" Minute (wv try1) (sv try1).
Definition un2 := unlock Background "job" (wv try1) (sv try1).
End LockRuns.

Lemma win_ok : lc_ok (c_store cache_example).
Proof. split; [exact I | split; reflexivity]. Qed.

(** Another client's attempt and release, then the owner's release, after which the other
    client wins. *)
Lemma mutual_exclusion_witness :
  rv LockRuns.lose = (false, None) /\ won "job" (EvAcquire "job" [x02] Minute (rv LockRuns.next)) /\
  (forall before ev after, LockRuns.events = before ++ ev :: after -> won "job" ev -> Exists (released_by "job" [x01]) before) /\
  (Exists (released_by "job" [x01]) LockRuns.events \/
   lc_peek (c_store (sv LockRuns.next)) (now (wv LockRuns.next)) "__lock:job" = Some [x01]).
Proof.
  assert (En : rv LockRuns.next = (true, None)) by (vm_compute; reflexivity).
  split; [vm_compute; reflexivity|]. split; [by rewrite En|].
  refine (mutual_exclusion Background "job" [x01] Minute world_example cache_example
    (wv LockRuns.win) (sv LockRuns.win) LockRuns.events (wv LockRuns.next) (c_store (sv LockRuns.next))
    world_example_ok win_ok I _ (run_eta LockRuns.win (true, None) _) _ _ _).
  - reflexivity.
  - vm_compute; reflexivity.
  - eapply trace_cons; [eapply (step_acquire Background "job" [x02] Minute (sv LockRuns.win))|].
    + reflexivity.
    + apply (run_eta LockRuns.lose). vm_compute; reflexivity.
    + eapply trace_cons; [eapply (step_release Background "job" [x02])|].
      { apply (run_eta LockRuns.rel). vm_compute; reflexivity. }
      eapply trace_cons; [eapply (step_release Background "job" [x01])|].
      { apply (run_eta LockRuns.own). vm_compute; reflexivity. }
      eapply trace_cons; [eapply (step_acquire Background "job" [x02] Minute (sv LockRuns.own))|apply trace_nil].
      { reflexivity. }
      apply (run_eta LockRuns.next). exact En.
  - repeat (constructor; [by left|]). constructor.
  - apply Z.leb_le. vm_compute; reflexivity.
Defined.

Lemma lockOwnedSince_returns_witness :
  exists r w' c',
    lockOwnedSince (lockFuel (2 * Second) (now (wv LockRuns.win)) (25 * Millisecond))
      LockRuns.deadline "job" [x02] Minute 0 0 (wv LockRuns.win) (sv LockRuns.win) = (Some r, w', c') /\
    lock_ran (wv LockRuns.win) (sv LockRuns.win) w' c' /\
    lock_outcome "job" [x02] Minute (2 * Second) DeadlineExceeded (wv LockRuns.win) r w' c'.
Proof.
  refine (lockOwnedSince_returns LockRuns.deadline (2 * Second) DeadlineExceeded "job" [x02] Minute 0 0
    (wv LockRuns.win) (sv LockRuns.win) eq_refl _ _ _ _).
  - reflexivity.
  - reflexivity.
  - exact world_example_ok.
  - split; [exact I | split; reflexivity].
Defined.

Lemma lifecycle_exclusive_witness :
  exists st : Cache (memoryStore GoMap.engine) * gmap nat phase,
    st.2 = <[1%nat := InAcquire "job"]> ∅ /\
    forall i j p q, st.2 !! i = Some p -> st.2 !! j = Some q -> phase_key p = phase_key q -> i = j.
Proof.
  eexists (_, _). split; [reflexivity|].
  refine (proj1 (lifecycle_exclusive world_example (newMemoryStore 0 0 : memoryStore GoMap.engine) _ _)).
  eapply rtc_l; [|apply rtc_refl].
  apply (dl_beginAcquire world_example 1 "job" _ _ ∅ true); reflexivity.
Defined.

Lemma tryLock_lifecycle_witness :
  rv LockRuns.try2 = (false, None) /\ c_store (sv LockRuns.try2) = c_store (sv LockRuns.try1).
Proof.
  split; [vm_compute; reflexivity|].
  refine (proj1 (proj2 (proj2 (tryLock_lifecycle Background "job" Minute (wv LockRuns.try1)
    (sv LockRuns.try1) [x01] false None (wv LockRuns.try2) (sv LockRuns.try2) _ _
    (run_eta LockRuns.try2 (false, None) _))))).
  - vm_compute; reflexivity.
  - vm_compute; reflexivity.
  - vm_compute; reflexivity.
Defined.

Lemma unlock_lifecycle_witness :
  rv LockRuns.un2 = None /\
  c_directLocks (sv LockRuns.un2) = base.delete "job" (c_directLocks (sv LockRuns.try1)).
Proof.
  split; [vm_compute; reflexivity|].
  refine (unlock_lifecycle Background "job" (wv LockRuns.try1) (sv LockRuns.try1) [x01] None
    (wv LockRuns.un2) (sv LockRuns.un2) _ _ (run_eta LockRuns.un2 None _)); vm_compute; reflexivity.
Defined.
