(* ===== verification/LockHandle.v ===== *)
(** * lock_handle.go: LockHandle

    A handle owns one token and one [held] flag, shared by its [WithContext]
    clones.  [operationMu] serialises [Acquire], [Release] and the acquisition
    phase of [Get] and [Block]; a callback runs outside the mutex and may use
    the handle and the cache, so it is a computation over both. *)

From S2P Require Import Prelude GoStd CacheCore MemoryStore Cache CacheLaws Locks LockLaws.

Record LockHandle := mkLockHandle {
  h_key : string; h_ttl : Z; h_held : bool; h_owner : bytes; h_ownerErr : option error;
  h_ctx : option Context
}.

Definition set_held (b : bool) (l : LockHandle) : LockHandle :=
  mkLockHandle (h_key l) (h_ttl l) b (h_owner l) (h_ownerErr l) (h_ctx l).

Definition set_handle_ctx (ctx : option Context) (l : LockHandle) : LockHandle :=
  mkLockHandle (h_key l) (h_ttl l) (h_held l) (h_owner l) (h_ownerErr l) ctx.

(** The handle and the cache it points to. *)
Record Handled (S : Type) := mkHandled { hd_cache : Cache S; hd_handle : LockHandle }.
Arguments mkHandled {S}.
Arguments hd_cache {S}.
Arguments hd_handle {S}.

Section Handle.
Context {S : Type} `{Store S}.

Definition onCache {A} (m : M (Cache S) A) : M (Handled S) A :=
  zoom hd_cache (fun c x => mkHandled c (hd_handle x)) m.

Definition storeHeld (b : bool) : M (Handled S) unit :=
  modify (fun x => mkHandled (hd_cache x) (set_held b (hd_handle x))).

Definition NewLockHandle (key : string) (ttl : Z) : M (Cache S) LockHandle :=
  let* (owner, ownerErr) := newLockOwnerToken in
  ret (mkLockHandle key ttl false owner ownerErr None).

Definition handleContext (x : Handled S) : Context :=
  match h_ctx (hd_handle x) with None => context (hd_cache x) | Some ctx => ctx end.

Definition handle_Acquire : M (Handled S) (bool * option error) :=
  let* x := get in
  let l := hd_handle x in
  match h_ownerErr l with
  | Some e => ret (false, Some e)
  | None =>
      if h_held l then ret (false, None)
      else
        let* (locked, err) := onCache (tryLockOwned (handleContext x) (h_key l) (h_owner l) (h_ttl l)) in
        (if locked && noErr err then storeHeld true else ret tt) ;;
        ret (locked, err)
  end.

(** [Release] on the handle, or on its clone with context [ctx]. *)
Definition releaseIn (ctx : Context) : M (Handled S) (option error) :=
  let* x := get in
  let l := hd_handle x in
  if negb (h_held l) then ret None
  else
    storeHeld false ;;
    let* err := onCache (unlockOwned ctx (h_key l) (h_owner l)) in
    match err with
    | Some e => storeHeld true ;; ret (Some e)
    | None => ret None
    end.

Definition handle_Release : M (Handled S) (option error) :=
  let* x := get in releaseIn (handleContext x).

(** [WithContext]: a method run on the clone, which shares the flag and the owner
    with the handle and differs in its context only. *)
Definition handle_WithContext {A} (ctx : Context) (m : M (Handled S) A) : M (Handled S) A :=
  let* x := get in
  modify (fun x => mkHandled (hd_cache x) (set_handle_ctx (Some ctx) (hd_handle x))) ;;
  let* a := m in
  modify (fun x' => mkHandled (hd_cache x') (set_handle_ctx (h_ctx (hd_handle x)) (hd_handle x'))) ;;
  ret a.

(** [defer release; return true, fn(ctx)]: the result is fixed before the
    deferred release runs, whose error is dropped. *)
Definition runThenRelease (ctx : Context) (fn : option (Context -> M (Handled S) (option error)))
    : M (Handled S) (bool * option error) :=
  let* err :=
    match fn with
    | None => ret (Some (ErrorString "cache lock handle requires a callback"))
    | Some fn => fn ctx
    end in
  let* _ := releaseIn ctx in
  ret (true, err).

Definition handle_get (ctx : Context) (fn : option (Context -> M (Handled S) (option error)))
    : M (Handled S) (bool * option error) :=
  let* x := get in
  let l := hd_handle x in
  match h_ownerErr l with
  | Some e => ret (false, Some e)
  | None =>
      if h_held l then ret (false, None)
      else
        let* (locked, err) := onCache (tryLockOwned ctx (h_key l) (h_owner l) (h_ttl l)) in
        if negb (noErr err) || negb locked then ret (locked, err)
        else storeHeld true ;; runThenRelease ctx fn
  end.

(** [None] when the fuel of the acquisition loop runs out. *)
Definition handle_block (fuel : nat) (ctx : Context) (retryInterval : Z)
    (fn : option (Context -> M (Handled S) (option error))) : M (Handled S) (option (bool * option error)) :=
  let* x := get in
  let l := hd_handle x in
  match h_ownerErr l with
  | Some e => ret (Some (false, Some e))
  | None =>
      if h_held l then ret (Some (false, None))
      else
        let* r := onCache (lockOwned fuel ctx (h_key l) (h_owner l) (h_ttl l) retryInterval) in
        match r with
        | None => ret None
        | Some (locked, err) =>
            if negb (noErr err) || negb locked then ret (Some (locked, err))
            else
              storeHeld true ;;
              let* r := runThenRelease ctx fn in
              ret (Some r)
        end
  end.

(** The adapter of a callback without a context; nil gives an error. *)
Definition adaptCallback (fn : option (M (Handled S) (option error)))
    : option (Context -> M (Handled S) (option error)) :=
  Some (fun _ => match fn with
                 | None => ret (Some (ErrorString "cache lock handle requires a callback"))
                 | Some fn => fn
                 end).

Definition handle_Get (fn : option (M (Handled S) (option error))) : M (Handled S) (bool * option error) :=
  let* x := get in handle_get (handleContext x) (adaptCallback fn).

Definition handle_Block (fuel : nat) (timeout retryInterval : Z)
    (fn : option (M (Handled S) (option error))) : M (Handled S) (option (bool * option error)) :=
  let* x := get in
  if timeout >? 0 then
    let* t := timeNow in
    handle_block fuel (WithTimeout (handleContext x) t timeout) retryInterval (adaptCallback fn)
  else handle_block fuel (handleContext x) retryInterval (adaptCallback fn).
End Handle.

(** ** Get runs its callback under the lock *)

Section HandleLaws.
Context {S : Type} `{LockContract S}.
Implicit Types x : Handled S.

Lemma onCache_inv {A} (m : M (Cache S) A) w x a w' x' :
  onCache m w x = (a, w', x') ->
  exists c', m w (hd_cache x) = (a, w', c') /\ x' = mkHandled c' (hd_handle x).
Proof.
  unfold onCache, zoom. destruct (m w (hd_cache x)) as [[a1 w1] c1]. intros [= <- <- <-]. eauto.
Qed.

(** The deferred release of [get] and [block] is [l.WithContext(ctx).Release()]. *)
Lemma releaseIn_clone ctx w x : releaseIn ctx w x = handle_WithContext ctx handle_Release w x.
Proof.
  unfold handle_WithContext, handle_Release, releaseIn, storeHeld, onCache, handleContext. go_simpl. simpl.
  destruct x as [c [k t held o oe hctx]]. simpl. destruct held; simpl; [|done].
  destruct (unlockOwned ctx k o w c) as [[[e|] w1] c1]; done.
Qed.

Definition handle_ok x : Prop := lc_ok (c_store (hd_cache x)) /\ h_ttl (hd_handle x) < horizon.


(** The handle's flag after a release says whether the backend still has to be
    asked again. *)
Lemma releaseIn_held ctx w x r w' x' :
  world_ok w -> lc_ok (c_store (hd_cache x)) -> releaseIn ctx w x = (r, w', x') ->
  h_held (hd_handle x') = (h_held (hd_handle x) && negb (noErr r)) /\
  h_owner (hd_handle x') = h_owner (hd_handle x) /\ lc_ok (c_store (hd_cache x')) /\ later w w'.
Proof.
  intros Hw Hs. unfold releaseIn. go_simpl. destruct (h_held (hd_handle x)) eqn:Eh; simpl.
  - unfold storeHeld. go_simpl. destruct (onCache _ w _) as [[err w1] x1] eqn:E.
    apply onCache_inv in E as (c1 & E & ->). apply unlockOwned_post in E as [(Hl & Hs1 & _) _]; [|done..].
    destruct err as [e|]; intros [= <- <- <-]; (split; [done|]); (split; [done|]); done.
  - intros [= <- <- <-]. rewrite Eh. split; [done|]. split; [done|]. split; [done | by apply later_refl].
Qed.

(** A second [Acquire] through a handle that is held reports false, touches
    neither the store nor the flag, and a repeated [Release] after a successful
    one is a no-op that succeeds. *)
Theorem handle_single_ownership w x w' x' :
  handle_Acquire w x = ((true, None), w', x') ->
  h_held (hd_handle x) = false /\ h_held (hd_handle x') = true /\
  (forall w2, handle_Acquire w2 x' = ((false, None), w2, x')) /\
  (forall w2 w3 x3, handle_Release w2 x' = (None, w3, x3) ->
     forall w4, handle_Release w4 x3 = (None, w4, x3)).
Proof.
  unfold handle_Acquire. go_simpl.
  destruct (h_ownerErr (hd_handle x)) as [e|] eqn:Eo; [by intros|].
  destruct (h_held (hd_handle x)) eqn:Eh; [by intros|].
  destruct (onCache _ w x) as [[[l e] w1] x1] eqn:E. apply onCache_inv in E as (c1 & E & ->).
  unfold storeHeld. go_simpl. destruct l, e; simpl; intros [= <- <-]. split; [done|]. split; [done|]. simpl.
  rewrite Eo. split; [done|]. intros w2 w3 x3. unfold handle_Release, releaseIn, storeHeld. go_simpl. simpl.
  destruct (onCache _ w2 _) as [[err w4] x4] eqn:E4. apply onCache_inv in E4 as (c4 & E4 & ->).
  destruct err as [e|]; [done|]. by intros [= <- <-].
Qed.
End HandleLaws.

(** ** Block releases under the context of its own timeout *)

Section BlockTimeout.
Context {S : Type} `{LockContract S}.
Implicit Types x : Handled S.

(** A backend that refuses to work for a context that is done, before anything is
    sent, as network clients do. *)
Definition honours_context : Prop :=
  forall ctx k owner w (s : S) e, world_ok w -> lc_ok s -> ctxErr ctx (now w) = Some e ->
    exists w' s', LockRelease lc_ops ctx k owner w s = ((false, Some e), w', s') /\
      forall k', same_key lc_peek w' s s' k'.

Lemma ctxErr_mono ctx t t' : t <= t' -> ctxErr ctx t <> None -> ctxErr ctx t' = ctxErr ctx t.
Proof.
  unfold ctxErr. destruct (ctx_done ctx) as [[d e]|]; [|done].
  destruct (Z.leb_spec d t), (Z.leb_spec d t'); try done; lia.
Qed.

Lemma WithTimeout_done parent t d t' : t + d <= t' -> is_Some (ctxErr (WithTimeout parent t d) t').
Proof.
  unfold WithTimeout, ctxErr. intros Ht. destruct (ctx_done parent) as [[p e]|] eqn:Ep.
  - destruct (Z.leb_spec p (t + d)); simpl; rewrite ?Ep.
    + destruct (Z.leb_spec p t'); [eauto | lia].
    + destruct (Z.leb_spec (t + d) t'); [eauto | lia].
  - simpl. destruct (Z.leb_spec (t + d) t'); [eauto | lia].
Qed.

(** Under a context that is done, the backend refuses the release. *)
Lemma unlockOwned_refused ctx key owner w c :
  honours_context -> world_ok w -> lc_ok (c_store c) -> is_Some (ctxErr ctx (now w)) ->
  exists e w' c', unlockOwned ctx key owner w c = (Some e, w', c') /\
    forall k, same_key lc_peek w' (c_store c) (c_store c') k.
Proof.
  intros Hh Hw Hs [e He]. unfold unlockOwned. go_simpl. rewrite (lc_lockStore (c_store c)) by done.
  pose proof (later_tick w Hw) as Hl. pose proof (later_now _ _ Hl).
  destruct (Hh ctx (lockPrefix +:+ key) owner (tickWorld w) (c_store c) e) as (w1 & s1 & E & Hsame);
    [by eauto with go|done|by rewrite (ctxErr_mono ctx (now w)) by (done || congruence)|].
  pose proof E as E'. apply lc_release in E' as (Hl1 & Hs1 & _); [|by eauto with go|done].
  unfold onStore, zoom. fold (tickWorld w). rewrite E.
  destruct (observe _ _ _ _ _ w1 _) as [[u w2] c2] eqn:Eo. eexists _, _, _. split; [reflexivity|].
  apply observe_lock_ran in Eo as [(Hl2 & _) Es]; [|by eauto with go|done]. rewrite Es.
  intros k. by eapply same_key_widen.
Qed.

(** A waiting acquisition that reports an error reports false. *)
Lemma lockOwnedLoop_error fuel ctx key owner ttl retry start w (c : Cache S) locked e w' c' :
  lockOwnedLoop fuel ctx key owner ttl retry start w c = (Some (locked, Some e), w', c') -> locked = false.
Proof.
  revert w c. induction fuel as [|fuel IH]; intros w c; cbn [lockOwnedLoop]; go_simpl; [done|].
  destruct (tryLockOwned _ _ _ _ w c) as [[[l err] w1] c1]. destruct err as [e1|].
  { destruct (observe _ _ _ _ _ w1 c1) as [[u w2] c2]. by intros [= <- _ _ _]. }
  destruct l.
  { by destruct (observe _ _ _ _ _ w1 c1) as [[u w2] c2]. }
  destruct (waitRetry ctx retry w1 c1) as [[[e1|] w2] c2]; [|by apply IH].
  destruct (observe _ _ _ _ _ w2 c2) as [[u w3] c3]. by intros [= <- _ _ _].
Qed.

(** A [Block] with a timeout releases under the context of that timeout: when
    the callback ends after the timeout counted from the start of [Block], and
    the backend honours contexts, the release fails, the failure is not reported,
    every key, the lock's too, is left as the callback left it, and the handle stays held. *)
Theorem Block_release_times_out fuel timeout retryInterval fn w x err w' x' :
  honours_context -> world_ok w -> handle_ok x -> 0 < timeout ->
  (forall w1 x1 e w2 x2, fn w1 x1 = (e, w2, x2) ->
     world_ok w2 /\ lc_ok (c_store (hd_cache x2)) /\ h_held (hd_handle x2) = true /\
     now w + timeout <= now w2) ->
  handle_Block fuel timeout retryInterval (Some fn) w x = (Some (true, err), w', x') ->
  h_held (hd_handle x') = true /\
  exists w1 x1 w2 x2, fn w1 x1 = (err, w2, x2) /\
    forall k, same_key lc_peek w' (c_store (hd_cache x2)) (c_store (hd_cache x')) k.
Proof.
  intros Hh Hw Hok Ht Hfn. unfold handle_Block. go_simpl. destruct (Z.gtb_spec timeout 0); [|lia].
  set (ctx := WithTimeout _ _ _). unfold handle_block. go_simpl.
  destruct (h_ownerErr (hd_handle x)) as [e|]; [by intros|].
  destruct (h_held (hd_handle x)); [by intros|].
  destruct (onCache _ _ x) as [[r w1] x1] eqn:E. destruct r as [[locked e]|]; [|by intros].
  destruct (negb (noErr e) || negb locked) eqn:Eb.
  { intros [= -> -> <- <-]. destruct err as [e|]; [|done].
    apply onCache_inv in E as (c1 & E & _). by apply lockOwnedLoop_error in E. }
  unfold runThenRelease, adaptCallback, storeHeld. go_simpl. simpl.
  set (x1' := mkHandled (hd_cache x1) (set_held true (hd_handle x1))).
  destruct (fn w1 x1') as [[e2 w2] x2] eqn:Ef. destruct (Hfn _ _ _ _ _ Ef) as (Hw2 & Hs2 & Hh2 & Hn2).
  destruct (releaseIn ctx w2 x2) as [[r w3] x3] eqn:Er. intros [= -> <- <-].
  unfold releaseIn, storeHeld in Er. go_simpl_in Er. rewrite Hh2 in Er. simpl in Er.
  destruct (onCache _ w2 _) as [[e3 w4] x4] eqn:E4. apply onCache_inv in E4 as (c4 & E4 & ->). simpl in E4.
  edestruct (unlockOwned_refused ctx) as (e5 & w5 & c5 & E5 & Hsame); [exact Hh|exact Hw2|exact Hs2|by apply WithTimeout_done|].
  rewrite E5 in E4. injection E4 as <- <- <-. injection Er as <- <- <-. split; [done|].
  by exists w1, x1', w2, x2.
Qed.
End BlockTimeout.

(** ** Witnesses *)

(** The memory store behind a client that checks the context before a release. *)
Module Strict.
Abbreviation mem := (memoryStore GoMap.engine).

Definition LockRelease (ctx : Context) (key : string) (owner : bytes) : M mem (bool * option error) :=
  let* t := timeNow in
  match ctxErr ctx t with
  | Some e => ret (false, Some e)
  | None => mem_LockRelease ctx key owner
  end.

Definition ops : LockStore mem := mkLockStore _ mem_LockAcquire LockRelease.

Definition store : Store mem := {|
  Store_Driver := fun _ => DriverRedis;
  Store_Ready := fun _ => ret None;
  Store_Get := mem_Get; Store_Set := mem_Set; Store_Add := mem_Add;
  Store_Increment := mem_Increment; Store_Decrement := mem_Decrement;
  Store_Delete := mem_Delete; Store_DeleteMany := mem_DeleteMany; Store_Flush := mem_Flush;
  Store_lockStore := fun _ => Some ops;
  Store_Inspector := fun _ => None
|}.

Lemma release ctx k owner w (s : mem) r w' s' :
  world_ok w -> mem_ok s -> LockRelease ctx k owner w s = (r, w', s') ->
  later w w' /\ mem_ok s' /\ release_post mem_peek k owner w s r w' s'.
Proof.
  intros Hw Hs. unfold LockRelease. go_simpl. pose proof (later_tick w Hw) as Hl.
  destruct (ctxErr ctx (now w)) as [e|].
  - intros [= <- <- <-]. split; [done|]. split; [done|]. auto with go.
  - intros E. apply mem_release in E as (Hl2 & Hs2 & Hp); [|by eauto with go|done].
    split; [by eapply later_trans|]. split; [done|].
    eapply release_post_widen; [done| |done]. apply later_refl. by eapply later_world_ok.
Qed.

Definition locks : @LockContract mem store _ :=
  @Build_LockContract mem store _ ops mem_ok (fun _ _ => eq_refl) mem_peek mem_occupied 0
    mem_peek_occupied mem_add release.

Lemma honours : honours_context (H := store) (H1 := locks).
Proof.
  intros ctx k owner w s e Hw Hs He. exists (tickWorld w), s.
  change (LockRelease ctx k owner w s = ((false, Some e), tickWorld w, s) /\
    forall k', same_key mem_peek (tickWorld w) s s k').
  unfold LockRelease. go_simpl. rewrite He. split; [done|]. intros k'. apply same_key_refl.
Qed.

(** A handle on the example cache, and callbacks that finish at once and late. *)
Definition handled : Handled mem :=
  mkHandled cache_example (mkLockHandle "job" Minute false [x01] None None).
Definition quick (_ : Context) : M (Handled mem) (option error) := ret None.
Definition late : Z := 2 * Second.
Definition slow : M (Handled mem) (option error) :=
  fun _ _ => (None, sleepWorld late world_example,
              mkHandled cache_example (mkLockHandle "job" Minute true [x01] None None)).

Definition got := handle_get (H := store) Background (Some quick) world_example handled.
Definition acquired := handle_Acquire (H := store) world_example handled.
Definition blocked := handle_Block (H := store) 3 Second 0 (Some slow) world_example handled.
End Strict.

Lemma handled_ok : handle_ok (H := Strict.store) (H1 := Strict.locks) Strict.handled.
Proof. split; [split; [exact I | split; reflexivity] | reflexivity]. Qed.


Lemma handle_single_ownership_witness :
  h_held (hd_handle (sv Strict.acquired)) = true /\
  forall w2, handle_Acquire (H := Strict.store) w2 (sv Strict.acquired) = ((false, None), w2, sv Strict.acquired).
Proof.
  split; [vm_compute; reflexivity|].
  refine (proj1 (proj2 (proj2 (handle_single_ownership (H := Strict.store) world_example Strict.handled
    (wv Strict.acquired) (sv Strict.acquired) (run_eta Strict.acquired (true, None) _))))).
  vm_compute; reflexivity.
Defined.

Lemma Block_release_times_out_witness :
  rv Strict.blocked = Some (true, None) /\ h_held (hd_handle (sv Strict.blocked)) = true.
Proof.
  split; [vm_compute; reflexivity|].
  refine (proj1 (Block_release_times_out (H := Strict.store) (H1 := Strict.locks) 3 Second 0 Strict.slow
    world_example Strict.handled None (wv Strict.blocked) (sv Strict.blocked)
    Strict.honours world_example_ok handled_ok _ _ (run_eta Strict.blocked (Some (true, None)) _))).
  - reflexivity.
  - intros w1 x1 e w2 x2 [= <- <- <-]. split; [|split; [|split]].
    + apply (later_world_ok world_example), later_sleep; [exact world_example_ok | reflexivity].
    + split; [exact I | split; reflexivity].
    + reflexivity.
    + apply Z.leb_le. vm_compute; reflexivity.
  - vm_compute; reflexivity.
Defined.
