(* ===== verification/Remember.v ===== *)
(** * cache.go: read-through, stale fallback and refresh-ahead helpers

    A callback is a computation over the facade, [None] for nil.  The goroutine
    that [maybeTriggerRefreshAhead] starts is returned as a computation, to be
    run at any later point. *)

From S2P Require Import Prelude GoStd CacheCore MemoryStore Cache CacheLaws Locks LockLaws.

Section Definitions.
Context {S : Type} `{Store S}.

(** [func(context.Context) (T, error)] *)
Definition callback (T : Type) : Type := Context -> M (Cache S) (T * option error).

Definition needsCallback (what : string) : error := ErrorString ("cache " +:+ what +:+ " requires a callback").

(** The closure of the exported helpers around a [func() (T, error)]. *)
Definition adaptFn {T} (what : string) (zero : T) (fn : option (M (Cache S) (T * option error)))
    : option (callback T) :=
  Some (fun _ => match fn with None => ret (zero, Some (needsCallback what)) | Some f => f end).

(** ** Remember *)

Definition rememberBytes (ctx : Context) (key : string) (ttl : Z) (fn : option (callback bytes))
    : M (Cache S) (bytes * option error) :=
  let* start := timeNow in
  let* (body, ok, err) := getBytes ctx key in
  match err with
  | Some e => observe "remember" key ok (Some e) start ;; ret ([], Some e)
  | None =>
      if ok : bool then observe "remember" key true None start ;; ret (body, None)
      else
        match fn with
        | None =>
            observe "remember" key false (Some (needsCallback "remember")) start ;;
            ret ([], Some (needsCallback "remember"))
        | Some fn =>
            let* (body, err) := fn ctx in
            match err with
            | Some e => observe "remember" key false (Some e) start ;; ret ([], Some e)
            | None =>
                let* err := setBytes ctx key body ttl in
                match err with
                | Some e => observe "remember" key false (Some e) start ;; ret ([], Some e)
                | None => observe "remember" key true None start ;; ret (body, None)
                end
            end
        end
  end.

Definition RememberBytes (key : string) (ttl : Z) (fn : option (M (Cache S) (bytes * option error)))
    : M (Cache S) (bytes * option error) :=
  inContext (fun ctx => rememberBytes ctx key ttl (adaptFn "remember" [] fn)).

(** ** RememberStale *)

Definition rememberStaleBytes (ctx : Context) (key : string) (ttl staleTTL : Z) (fn : option (callback bytes))
    : M (Cache S) (bytes * bool * option error) :=
  let* start := timeNow in
  let staleKey := key +:+ staleSuffix in
  let* (body, ok, err) := getBytes ctx key in
  match err with
  | Some e => observe "remember_stale" key false (Some e) start ;; ret ([], false, Some e)
  | None =>
      if ok : bool then observe "remember_stale" key true None start ;; ret (body, false, None)
      else
        match fn with
        | None =>
            observe "remember_stale" key false (Some (needsCallback "remember stale")) start ;;
            ret ([], false, Some (needsCallback "remember stale"))
        | Some fn =>
            let* (value, err) := fn ctx in
            match err with
            | None =>
                let* err := setBytes ctx key value ttl in
                match err with
                | Some e => observe "remember_stale" key false (Some e) start ;; ret ([], false, Some e)
                | None =>
                    let staleTTL := if staleTTL <=? 0 then ttl else staleTTL in
                    (if staleTTL >? 0 then let* _ := setBytes ctx staleKey value staleTTL in ret tt
                     else ret tt) ;;
                    observe "remember_stale" key true None start ;;
                    ret (value, false, None)
                end
            | Some e =>
                let* (staleBody, staleOK, staleErr) := getBytes ctx staleKey in
                if noErr staleErr && staleOK then
                  observe "remember_stale" key true None start ;;
                  ret (staleBody, true, None)
                else
                  let e := match staleErr with Some se => ErrorJoin e se | None => e end in
                  observe "remember_stale" key false (Some e) start ;;
                  ret ([], false, Some e)
            end
        end
  end.

Definition RememberStaleBytes (key : string) (ttl staleTTL : Z) (fn : option (M (Cache S) (bytes * option error)))
    : M (Cache S) (bytes * bool * option error) :=
  inContext (fun ctx => rememberStaleBytes ctx key ttl staleTTL (adaptFn "remember stale" [] fn)).

(** ** Refresh-ahead *)

Definition setRefreshAheadValue (ctx : Context) (key : string) (value : bytes) (ttl : Z)
    : M (Cache S) (option error) :=
  let* err := setBytes ctx key value ttl in
  match err with
  | Some e => ret (Some e)
  | None =>
      let* t := timeNow in
      let* c := get in
      let expiresAt := UnixNano (t + resolveTTL c ttl) in
      setBytes ctx (key +:+ refreshMetaSuffix) (bytes_of_string (FormatInt expiresAt)) ttl
  end.

(** The goroutine. *)
Definition refreshGoroutine (key : string) (ttl refreshAhead : Z) (fn : option (callback bytes))
    : M (Cache S) unit :=
  let lockKey := refreshLockPrefix +:+ key in
  let* (locked, err) := TryLock lockKey refreshAhead in
  if negb (noErr err) || negb locked then ret tt
  else
    match fn with
    | None => ret tt
    | Some fn =>
        let* (value, err) := fn Background in
        match err with
        | Some _ => ret tt
        | None => let* _ := setRefreshAheadValue Background key value ttl in ret tt
        end
    end ;;
    let* _ := Unlock lockKey in ret tt.

Definition maybeTriggerRefreshAhead (key : string) (ttl refreshAhead : Z) (fn : option (callback bytes))
    : M (Cache S) (option (M (Cache S) unit)) :=
  let metaKey := key +:+ refreshMetaSuffix in
  let* (meta, ok, err) := getBytes Background metaKey in
  if negb (noErr err) || negb ok then ret None
  else
    match ParseInt (string_of_bytes meta) with
    | None => ret None
    | Some expiresAt =>
        let* t := timeNow in
        if durationSub expiresAt t >? refreshAhead then ret None
        else ret (Some (refreshGoroutine key ttl refreshAhead fn))
    end.

Definition refreshAheadBytes (ctx : Context) (key : string) (ttl refreshAhead : Z) (fn : option (callback bytes))
    : M (Cache S) (bytes * option error * option (M (Cache S) unit)) :=
  if ttl <=? 0 then ret ([], Some (ErrorString "cache refresh ahead requires ttl > 0"), None)
  else if refreshAhead <=? 0 then
    ret ([], Some (ErrorString "cache refresh ahead requires refreshAhead > 0"), None)
  else
    let* start := timeNow in
    let* (body, ok, err) := getBytes ctx key in
    match err with
    | Some e => observe "refresh_ahead" key false (Some e) start ;; ret ([], Some e, None)
    | None =>
        if ok : bool then
          let* task := maybeTriggerRefreshAhead key ttl refreshAhead fn in
          observe "refresh_ahead" key true None start ;;
          ret (body, None, task)
        else
          match fn with
          | None =>
              observe "refresh_ahead" key false (Some (needsCallback "refresh ahead")) start ;;
              ret ([], Some (needsCallback "refresh ahead"), None)
          | Some fn =>
              let* (value, err) := fn ctx in
              match err with
              | Some e => observe "refresh_ahead" key false (Some e) start ;; ret ([], Some e, None)
              | None =>
                  let* err := setRefreshAheadValue ctx key value ttl in
                  match err with
                  | Some e => observe "refresh_ahead" key false (Some e) start ;; ret ([], Some e, None)
                  | None => observe "refresh_ahead" key true None start ;; ret (value, None, None)
                  end
              end
          end
    end.

Definition RefreshAheadBytes (key : string) (ttl refreshAhead : Z) (fn : option (M (Cache S) (bytes * option error)))
    : M (Cache S) (bytes * option error * option (M (Cache S) unit)) :=
  inContext (fun ctx => refreshAheadBytes ctx key ttl refreshAhead (adaptFn "refresh ahead" [] fn)).

(** ** Typed variants *)

Context {T : Type} `{JSON T}.

(** [func(ctx) ([]byte, error) { val, err := fn(); ...; return codec.Encode(val) }] *)
Definition encodingFn (what : string) (codec : ValueCodec T) (fn : option (M (Cache S) (T * option error)))
    : option (callback bytes) :=
  Some (fun _ =>
    match fn with
    | None => ret ([], Some (needsCallback what))
    | Some f =>
        let* (val, err) := f in
        match err with Some e => ret ([], Some e) | None => ret (Encode codec val) end
    end).

Definition rememberValueWithCodecContext (ctx : Context) (key : string) (ttl : Z)
    (fn : option (M (Cache S) (T * option error))) (codec : ValueCodec T) : M (Cache S) (T * option error) :=
  let* (body, ok, err) := getBytes ctx key in
  match err with
  | Some e => ret (zeroValue, Some e)
  | None =>
      if ok : bool then ret (Decode codec body)
      else
        match fn with
        | None => ret (zeroValue, Some (needsCallback "remember value"))
        | Some f =>
            let* (val, err) := f in
            match err with
            | Some e => ret (zeroValue, Some e)
            | None =>
                match Encode codec val with
                | (_, Some e) => ret (zeroValue, Some e)
                | (encoded, None) =>
                    let* err := setBytes ctx key encoded ttl in
                    match err with Some e => ret (zeroValue, Some e) | None => ret (val, None) end
                end
            end
        end
  end.

(** [func() (T, error) { return fn(ctx) }] *)
Definition bindFn (ctx : Context) (what : string) (fn : option (callback T))
    : option (M (Cache S) (T * option error)) :=
  Some (match fn with None => ret (zeroValue, Some (needsCallback what)) | Some f => f ctx end).

Definition rememberValue (ctx : Context) (key : string) (ttl : Z) (fn : option (callback T))
    : M (Cache S) (T * option error) :=
  rememberValueWithCodecContext ctx key ttl (bindFn ctx "remember" fn) defaultValueCodec.

Definition rememberStaleValueWithCodecContext (ctx : Context) (key : string) (ttl staleTTL : Z)
    (fn : option (M (Cache S) (T * option error))) (codec : ValueCodec T) : M (Cache S) (T * bool * option error) :=
  let* (body, stale, err) := rememberStaleBytes ctx key ttl staleTTL (encodingFn "remember stale" codec fn) in
  match err with
  | Some e => ret (zeroValue, stale, Some e)
  | None =>
      match Decode codec body with
      | (_, Some e) => ret (zeroValue, stale, Some e)
      | (out, None) => ret (out, stale, None)
      end
  end.

Definition rememberStaleValue (ctx : Context) (key : string) (ttl staleTTL : Z) (fn : option (callback T))
    : M (Cache S) (T * bool * option error) :=
  rememberStaleValueWithCodecContext ctx key ttl staleTTL (bindFn ctx "remember stale" fn) defaultValueCodec.

(** A nil context is [None]. *)
Definition refreshAheadValueWithCodec (ctx : option Context) (key : string) (ttl refreshAhead : Z)
    (fn : option (M (Cache S) (T * option error))) (codec : ValueCodec T)
    : M (Cache S) (T * option error * option (M (Cache S) unit)) :=
  let ctx := match ctx with None => Background | Some ctx => ctx end in
  let* (body, err, task) := refreshAheadBytes ctx key ttl refreshAhead (encodingFn "refresh ahead" codec fn) in
  match err with
  | Some e => ret (zeroValue, Some e, task)
  | None =>
      match Decode codec body with
      | (_, Some e) => ret (zeroValue, Some e, task)
      | (out, None) => ret (out, None, task)
      end
  end.

Definition refreshAheadValue (ctx : Context) (key : string) (ttl refreshAhead : Z) (fn : option (callback T))
    : M (Cache S) (T * option error * option (M (Cache S) unit)) :=
  refreshAheadValueWithCodec (Some ctx) key ttl refreshAhead (bindFn ctx "refresh ahead" fn) defaultValueCodec.

Definition Remember (key : string) (ttl : Z) (fn : option (M (Cache S) (T * option error))) :=
  inContext (fun ctx => rememberValue ctx key ttl (adaptFn "remember" zeroValue fn)).
Definition RememberStale (key : string) (ttl staleTTL : Z) (fn : option (M (Cache S) (T * option error))) :=
  inContext (fun ctx => rememberStaleValue ctx key ttl staleTTL (adaptFn "remember stale" zeroValue fn)).
Definition RefreshAhead (key : string) (ttl refreshAhead : Z) (fn : option (M (Cache S) (T * option error))) :=
  inContext (fun ctx => refreshAheadValue ctx key ttl refreshAhead (adaptFn "refresh ahead" zeroValue fn)).
Definition RefreshAheadValueWithCodec (key : string) (ttl refreshAhead : Z)
    (fn : option (M (Cache S) (T * option error))) (codec : ValueCodec T) :=
  inContext (fun ctx => refreshAheadValueWithCodec (Some ctx) key ttl refreshAhead fn codec).
End Definitions.

(** ** Laws *)

Section RememberLaws.
Context {S : Type} `{StoreContract S}.
Implicit Types c : Cache S.

(** A callback may use the cache, its locks included; it leaves it usable. *)
Definition reached (w : World) c (w' : World) c' : Prop :=
  later w w' /\ cache_ok c' /\ c_defaultTTL c' = c_defaultTTL c.

Definition behaved {T} (fn : callback T) : Prop :=
  forall ctx w c r w' c', world_ok w -> cache_ok c -> fn ctx w c = (r, w', c') -> reached w c w' c'.

Lemma ran_reached w c w' c' : ran w c w' c' -> reached w c w' c'.
Proof. intros (? & ? & ? & _). by split. Qed.

Lemma reached_trans w1 c1 w2 c2 w3 c3 : reached w1 c1 w2 c2 -> reached w2 c2 w3 c3 -> reached w1 c1 w3 c3.
Proof. intros (? & ? & ?) (? & ? & ?). split; [by eapply later_trans|]. split; [done | congruence]. Qed.

Lemma reached_tick w c w' c' : world_ok w -> reached (tickWorld w) c w' c' -> reached w c w' c'.
Proof.
  intros Hw (? & ? & ?). split; [|done]. eapply later_trans; [by apply later_tick | done].
Qed.

Lemma reached_world_ok w c w' c' : reached w c w' c' -> world_ok w'.
Proof. intros [? _]. by eapply later_world_ok. Qed.

Lemma reached_ttl w c w' c' ttl : reached w c w' c' -> resolveTTL c' ttl = resolveTTL c ttl.
Proof. unfold resolveTTL. by intros (_ & _ & ->). Qed.

(** The last observation of a composed operation. *)
Lemma observe_reached op key hit err start w0 c0 w c u w' c' :
  reached w0 c0 w c -> observe op key hit err start w c = (u, w', c') ->
  reached w0 c0 w' c' /\ later w w' /\ c_store c' = c_store c.
Proof.
  intros Hr E. pose proof (reached_world_ok _ _ _ _ Hr). destruct Hr as (? & ? & ?).
  apply observe_ran in E as [(? & ? & ? & _) ?]; [|done..].
  split; [|done]. split; [by eapply later_trans|]. split; [done | congruence].
Qed.

(** How [rememberBytes] ends; on a hit or a read error the callback plays no part. *)
Inductive remember_spec (ctx : Context) (key : string) (ttl : Z) (fn : callback bytes)
    (w : World) c : bytes * option error -> World -> Cache S -> Prop :=
| remember_hit v w' c' :
    seen sc_peek w w' (c_store c) key (Some v) ->
    (forall k, same_key sc_peek w' (c_store c) (c_store c') k) ->
    (forall fn', rememberBytes ctx key ttl fn' w c = ((v, None), w', c')) ->
    remember_spec ctx key ttl fn w c (v, None) w' c'
| remember_read_error e w' c' :
    (forall k, same_key sc_peek w' (c_store c) (c_store c') k) ->
    (forall fn', rememberBytes ctx key ttl fn' w c = (([], Some e), w', c')) ->
    remember_spec ctx key ttl fn w c ([], Some e) w' c'
| remember_load_error w1 c1 v e w2 c2 w' c' :
    reached w c w1 c1 -> seen sc_peek w w1 (c_store c) key None ->
    fn ctx w1 c1 = ((v, Some e), w2, c2) -> later w2 w' -> c_store c' = c_store c2 ->
    remember_spec ctx key ttl fn w c ([], Some e) w' c'
| remember_write_error w1 c1 v e w2 c2 w' c' :
    reached w c w1 c1 -> seen sc_peek w w1 (c_store c) key None ->
    fn ctx w1 c1 = ((v, None), w2, c2) -> later w2 w' ->
    (forall k, apart (S := S) k key -> same_key sc_peek w' (c_store c2) (c_store c') k) ->
    remember_spec ctx key ttl fn w c ([], Some e) w' c'
| remember_computed w1 c1 v w2 c2 w' c' :
    reached w c w1 c1 -> seen sc_peek w w1 (c_store c) key None ->
    fn ctx w1 c1 = ((v, None), w2, c2) -> later w2 w' ->
    kept sc_peek sc_grain (resolveTTL c ttl) w2 w' (c_store c') key v ->
    (forall k, apart (S := S) k key -> same_key sc_peek w' (c_store c2) (c_store c') k) ->
    remember_spec ctx key ttl fn w c (v, None) w' c'.

Lemma rememberBytes_post ctx key ttl fn w c r w' c' :
  world_ok w -> cache_ok c -> ttl < horizon -> behaved fn ->
  rememberBytes ctx key ttl (Some fn) w c = (r, w', c') ->
  reached w c w' c' /\ remember_spec ctx key ttl fn w c r w' c'.
Proof.
  intros Hw Hc Ht Hfn. unfold rememberBytes at 1. go_simpl.
  destruct (getBytes ctx key _ c) as [[[[b ok] err] w1] c1] eqn:E. pose proof E as E0.
  apply getBytes_post in E as [Hr [Hk Hp]]; [|by eauto with go|done].
  pose proof (later_tick w Hw) as Hl0.
  assert (Hr1 : reached w c w1 c1) by by apply reached_tick, ran_reached.
  assert (Hw1 : later w1 w1) by (apply later_refl; by eapply reached_world_ok).
  destruct err as [e|].
  { destruct (observe _ _ _ _ _ w1 c1) as [[u w2] c2] eqn:Eo. intros [= <- <- <-].
    pose proof Eo as Eo'. eapply observe_reached in Eo as (? & ? & Es); [|done]. split; [done|].
    apply remember_read_error.
    - rewrite Es. intros k. by eapply same_key_widen.
    - intros fn'. unfold rememberBytes. go_simpl. by rewrite E0, Eo'. }
  destruct ok.
  { destruct (observe _ _ _ _ _ w1 c1) as [[u w2] c2] eqn:Eo. intros [= <- <- <-].
    pose proof Eo as Eo'. eapply observe_reached in Eo as (? & ? & Es); [|done]. split; [done|].
    apply remember_hit.
    - by eapply seen_widen.
    - rewrite Es. intros k. by eapply same_key_widen.
    - intros fn'. unfold rememberBytes. go_simpl. by rewrite E0, Eo'. }
  assert (Hmiss : seen sc_peek w w1 (c_store c) key None) by by eapply seen_widen.
  destruct (fn ctx w1 c1) as [[[v err] w2] c2] eqn:Ef.
  pose proof (Hfn _ _ _ _ _ _ (reached_world_ok _ _ _ _ Hr1) (proj1 (proj2 Hr1)) Ef) as Hr2.
  pose proof (reached_trans _ _ _ _ _ _ Hr1 Hr2) as Hr12.
  destruct err as [e|].
  { destruct (observe _ _ _ _ _ w2 c2) as [[u w3] c3] eqn:Eo. intros [= <- <- <-].
    eapply observe_reached in Eo as (? & ? & Es); [|done]. split; [done|]. by eapply (remember_load_error _ _ _ _ _ _ w1 c1). }
  destruct (setBytes ctx key v ttl w2 c2) as [[err w3] c3] eqn:Es.
  apply setBytes_post in Es as [Hr3 Hset]; [|by eapply reached_world_ok|by destruct Hr2 as (_ & ? & _)|done].
  rewrite (reached_ttl w c w2 c2) in Hset by done.
  pose proof (reached_trans _ _ _ _ _ _ Hr12 (ran_reached _ _ _ _ Hr3)) as Hr13.
  pose proof (ran_later _ _ _ _ Hr3) as Hl3.
  destruct err as [e|]; destruct (observe _ _ _ _ _ w3 c3) as [[u w4] c4] eqn:Eo; intros [= <- <- <-];
    eapply observe_reached in Eo as (? & ? & Eq); try done; (split; [done|]).
  - eapply (remember_write_error _ _ _ _ _ _ w1 c1); [done..|by eapply later_trans|]. rewrite Eq. intros k Hne.
    eapply same_key_widen; [|done]. by apply Hset.
  - destruct Hset as [Hk3 Hst]. eapply (remember_computed _ _ _ _ _ _ w1 c1); [done..|by eapply later_trans| |].
    + rewrite Eq. eapply kept_later; [done|by apply later_now|]. by intros t.
    + rewrite Eq. intros k Hne. eapply same_key_widen; [|done]. by apply Hk3.
Qed.

(** C8: a value computed by [rememberBytes] on a miss, under a key the backend can
    record for the effective TTL, is memoized: a second call that ends within the effective TTL returns it, or a backend error, and does
    not run its callback: with any other callback its result, the store and the
    observations would have been the same. *)
Theorem remember_memoizes ctx ctx' key ttl fn fn' w c v w1 c1 w2 r w3 c3 :
  world_ok w -> cache_ok c -> storable (S := S) key (resolveTTL c ttl) -> ttl < horizon -> behaved fn -> behaved fn' ->
  (forall t, now w <= t <= now w1 -> sc_peek (c_store c) t key = None) ->
  rememberBytes ctx key ttl (Some fn) w c = ((v, None), w1, c1) -> later w1 w2 ->
  rememberBytes ctx' key ttl (Some fn') w2 c1 = (r, w3, c3) -> now w3 <= now w + resolveTTL c ttl ->
  (r = (v, None) \/ exists e, r = ([], Some e)) /\
  forall fn'', rememberBytes ctx' key ttl fn'' w2 c1 = (r, w3, c3).
Proof.
  intros Hw Hc Hsk Ht Hfn Hfn' Habs E1 Hl E2 Hn.
  apply rememberBytes_post in E1 as [Hr1 Hspec]; [|done..].
  assert (Hst : exists w0, later w w0 /\ kept sc_peek sc_grain (resolveTTL c ttl) w0 w1 (c_store c1) key v).
  { inversion Hspec as [? ? ? Hseen| | | |w0 c0 ? w02 c02 ? ? Hr0 Hmiss Ef Hl2 Hst]; subst.
    - destruct Hseen as (t & Htt & Ev). by rewrite Habs in Ev.
    - exists w02. split; [|done]. eapply later_trans; [by destruct Hr0|].
      apply Hfn in Ef as [? _]; [done|by eapply reached_world_ok|by destruct Hr0 as (_ & ? & _)]. }
  destruct Hst as (w0 & Hl0 & Hst). destruct (Hst Hsk) as [Hvis _]. apply later_now in Hl0. pose proof (later_now _ _ Hl).
  apply rememberBytes_post in E2 as [_ Hspec2]; [|by eauto with go|by destruct Hr1 as (_ & ? & _)|done|done].
  assert (Hno : forall w4, later w4 w3 -> seen sc_peek w2 w4 (c_store c1) key None -> False).
  { intros w4 Hl4 (t & Htt & Ev). apply later_now in Hl4. by rewrite Hvis in Ev by lia. }
  assert (Hcall : forall w4 c4 x w5 c5, reached w2 c1 w4 c4 -> fn' ctx' w4 c4 = (x, w5, c5) ->
            later w5 w3 -> later w4 w3).
  { intros w4 c4 x w5 c5 Hr4 Ef Hl5. eapply later_trans; [|done].
    apply Hfn' in Ef as [? _]; [done|by eapply reached_world_ok|by destruct Hr4 as (_ & ? & _)]. }
  destruct Hspec2 as [v' w3 c3 (t & Htt & Ev) _ Hany|e w3 c3 _ Hany|w4 c4 ? e w5 c5 w3 c3 ? ? ? ? _
    |w4 c4 ? e w5 c5 w3 c3|w4 c4 ? w5 c5 w3 c3].
  - split; [left | done]. rewrite Hvis in Ev by lia. congruence.
  - split; [right; eauto | done].
  - exfalso. eapply Hno; [|done]. by eapply Hcall.
  - exfalso. eapply Hno; [|done]. by eapply Hcall.
  - exfalso. eapply Hno; [|done]. by eapply Hcall.
Qed.

(** ** Stale copies *)

(** A read of [k] reported [e]. *)
Definition read_fails (ctx : Context) (k : string) (e : error) : Prop :=
  exists w0 c0 b ok w1 c1, @getBytes S _ ctx k w0 c0 = ((b, ok, Some e), w1, c1).

(** The loader fails and leaves the stale copy of [key] alone. *)
Definition loader_fails (ctx : Context) (key : string) (fn : callback bytes) : Prop :=
  forall w1 c1, world_ok w1 -> cache_ok c1 ->
    exists v e w2 c2, fn ctx w1 c1 = ((v, Some e), w2, c2) /\ reached w1 c1 w2 c2 /\
      same_key sc_peek w2 (c_store c1) (c_store c2) (key +:+ staleSuffix).

(** C10: when the fresh key is absent, the loader fails and the stale copy is
    still visible, [rememberStaleBytes] serves the copy and says it is stale; the
    only other outcomes are errors of the backend, reading the fresh key, or
    reading the copy, which is joined to the loader's error. *)
Theorem rememberStale_fallback ctx key ttl staleTTL fn w c b r w' c' :
  world_ok w -> cache_ok c -> loader_fails ctx key fn ->
  (forall t, now w <= t <= now w' -> sc_peek (c_store c) t key = None) ->
  (forall t, now w <= t <= now w' -> sc_peek (c_store c) t (key +:+ staleSuffix) = Some b) ->
  rememberStaleBytes ctx key ttl staleTTL (Some fn) w c = (r, w', c') ->
  r = (b, true, None) \/
  (exists e, r = ([], false, Some e) /\ read_fails ctx key e) \/
  (exists e se, r = ([], false, Some (ErrorJoin e se)) /\ read_fails ctx (key +:+ staleSuffix) se).
Proof.
  intros Hw Hc Hfn Habs Hst. unfold rememberStaleBytes. go_simpl.
  pose proof (later_tick w Hw) as Hl0.
  destruct (getBytes ctx key _ c) as [[[[b1 ok] err] w1] c1] eqn:E. pose proof E as E0.
  apply getBytes_post in E as [Hr [Hk Hp]]; [|by eauto with go|done].
  pose proof (ran_later _ _ _ _ Hr) as Hl1.
  pose proof (later_now _ _ Hl0). pose proof (later_now _ _ Hl1).
  destruct err as [e|].
  { destruct (observe _ _ _ _ _ w1 c1) as [[u w2] c2]. intros [= <- <- <-]. right. left.
    exists e. split; [done|]. by repeat eexists. }
  destruct ok.
  { destruct (observe _ _ _ _ _ w1 c1) as [[u w2] c2] eqn:Eo. intros [= <- <- <-]. exfalso.
    apply observe_ran in Eo as [[Hl2 _] _]; [|by eapply ran_world_ok|by eapply ran_ok].
    apply later_now in Hl2. destruct Hp as (t & Htt & Ev).
    change (now (tickWorld w) <= t <= now w1) in Htt. by rewrite Habs in Ev by lia. }
  destruct (Hfn w1 c1) as (v & e & w2 & c2 & -> & Hr2 & Hkeep); [by eapply ran_world_ok|by eapply ran_ok|].
  pose proof (later_now _ _ (proj1 Hr2)). destruct Hr2 as (Hl2 & Hc2 & _).
  destruct (getBytes ctx _ w2 c2) as [[[[b2 ok2] err2] w3] c3] eqn:E2. pose proof E2 as E20.
  apply getBytes_post in E2 as [Hr3 [_ Hp3]]; [|by eauto with go|done].
  pose proof (later_now _ _ (ran_later _ _ _ _ Hr3)).
  destruct err2 as [se|]; cbn [noErr andb].
  { destruct (observe _ _ _ _ _ w3 c3) as [[u w4] c4]. intros [= <- <- <-]. right. right.
    exists e, se. split; [done|]. by repeat eexists. }
  assert (Hsee : forall t, now w2 <= t <= now w' -> sc_peek (c_store c2) t (key +:+ staleSuffix) = Some b).
  { intros t Htt. rewrite Hkeep by lia. rewrite Hk by lia. apply Hst. lia. }
  destruct ok2; destruct (observe _ _ _ _ _ w3 c3) as [[u w4] c4] eqn:Eo; intros [= <- <- <-];
    apply observe_ran in Eo as [[Hl4 _] _]; try (by eapply ran_world_ok); try (by eapply ran_ok);
    apply later_now in Hl4; destruct Hp3 as (t & Htt & Ev); rewrite Hsee in Ev by lia; [|done].
  left. by injection Ev as ->.
Qed.

(** ** Refresh-ahead *)

Lemma setRefreshAhead_post ctx key v ttl w c w' c' :
  world_ok w -> cache_ok c -> ttl_ok ttl -> apart (S := S) key (key +:+ refreshMetaSuffix) ->
  setRefreshAheadValue ctx key v ttl w c = (None, w', c') ->
  ran w c w' c' /\ kept sc_peek sc_grain ttl w w' (c_store c') key v /\
  exists x, now w + ttl <= x <= now w' + ttl /\ in_int64 x /\
    kept sc_peek sc_grain ttl w w' (c_store c') (key +:+ refreshMetaSuffix) (bytes_of_string (FormatInt x)).
Proof.
  intros Hw Hc [Ht0 Ht] Hap. unfold setRefreshAheadValue. go_simpl.
  destruct (setBytes ctx key v ttl w c) as [[err w1] c1] eqn:E1. destruct err as [e|]; [done|].
  apply setBytes_post in E1 as [Hr1 [_ Hst1]]; [|done..].
  pose proof (ran_world_ok _ _ _ _ Hr1) as Hw1. pose proof (later_tick w1 Hw1) as Hl1.
  intros E2. apply setBytes_post in E2 as [Hr2 [Hk2 Hst2]]; [|by eauto with go|by eapply ran_ok|done].
  rewrite !resolveTTL_pos in * by done.
  pose proof (ran_later _ _ _ _ Hr1) as Hl0. pose proof (ran_later _ _ _ _ Hr2) as Hl2.
  pose proof (later_now _ _ Hl0). pose proof (later_now _ _ Hl1). pose proof (later_now _ _ Hl2).
  pose proof (now_range _ Hw). pose proof (now_range _ Hw1).
  assert (Hin : in_int64 (now w1 + ttl)) by (unfold in_int64, int64_min, int64_max, horizon in *; lia).
  assert (UnixNano (now w1 + ttl) = now w1 + ttl) as Eu by by apply wrap64_id. rewrite Eu in *.
  assert (Hl02 : later w1 w') by (by eapply later_trans).
  split; [|split].
  - destruct Hr1 as (? & ? & ?), Hr2 as (? & ? & ?). split; [by eapply later_trans|].
    split; [done | by eapply frame_trans].
  - eapply kept_later; [done | by apply later_now|]. by apply Hk2.
  - exists (now w1 + ttl). split; [lia|]. split; [done|]. eapply kept_widen; [done|by eapply later_trans|].
    apply later_refl. by eapply later_world_ok.
Qed.

Lemma durationSub_exact x t : in_int64 x -> 0 < x -> 0 < t < horizon -> durationSub x t = x - t.
Proof. unfold durationSub, in_int64, int64_min, int64_max, horizon. lia. Qed.

(** The near-expiry check reads the metadata and the clock. *)
Lemma maybeTrigger_ran key ttl refreshAhead fn w c task w' c' :
  world_ok w -> cache_ok c -> maybeTriggerRefreshAhead key ttl refreshAhead fn w c = (task, w', c') ->
  ran w c w' c'.
Proof.
  intros Hw Hc. unfold maybeTriggerRefreshAhead. go_simpl.
  destruct (getBytes _ _ w c) as [[[[meta ok] err] w1] c1] eqn:E.
  apply getBytes_post in E as [Hr _]; [|done..].
  destruct (negb (noErr err) || negb ok); [by intros [= <- <- <-]|].
  destruct (ParseInt _) as [x|]; [|by intros [= <- <- <-]].
  assert (ran w c (tickWorld w1) c1) as Hr'.
  { destruct Hr as (Hl & ?). split; [|done]. eapply later_trans; [done|]. by eauto with go. }
  destruct (_ >? _); by intros [= <- <- <-].
Qed.

(** With metadata [x] readable throughout, the decision compares the remaining
    life at an instant of the check with [refreshAhead]. *)
Lemma maybeTrigger_decides key ttl refreshAhead fn x w c task w' c' :
  world_ok w -> cache_ok c -> in_int64 x -> 0 < x ->
  (forall t, now w <= t <= now w' ->
     sc_peek (c_store c) t (key +:+ refreshMetaSuffix) = Some (bytes_of_string (FormatInt x))) ->
  maybeTriggerRefreshAhead key ttl refreshAhead fn w c = (task, w', c') ->
  (task = None /\ exists b ok e w1 c1, getBytes Background (key +:+ refreshMetaSuffix) w c = ((b, ok, Some e), w1, c1)) \/
  exists t, now w <= t <= now w' /\
    task = if x - t >? refreshAhead then None else Some (refreshGoroutine key ttl refreshAhead fn).
Proof.
  intros Hw Hc Hx Hpos Hmeta. unfold maybeTriggerRefreshAhead. go_simpl.
  destruct (getBytes _ _ w c) as [[[[meta ok] err] w1] c1] eqn:E. pose proof E as E0.
  apply getBytes_post in E as [Hr [_ Hp]]; [|done..]. pose proof (later_now _ _ (ran_later _ _ _ _ Hr)).
  pose proof (ran_world_ok _ _ _ _ Hr) as Hw1. pose proof (later_now _ _ (later_tick w1 Hw1)).
  destruct err as [e|]; cbn [noErr negb orb].
  { intros [= <- <- <-]. left. split; [done|]. by repeat eexists. }
  destruct ok; cbn [negb orb].
  - destruct (ParseInt (string_of_bytes meta)) as [y|] eqn:Ep; [|].
    + intros E. right. exists (now w1).
      assert (w' = tickWorld w1) as -> by (by destruct (_ >? _); injection E).
      destruct Hp as (t & Ht & Ev). rewrite Hmeta in Ev by lia. injection Ev as <-.
      rewrite string_of_bytes_of_string, ParseInt_FormatInt in Ep by done. injection Ep as <-.
      rewrite durationSub_exact in E by (done || by apply now_range).
      split; [lia|]. by destruct (_ >? _); injection E.
    + intros [= <- <- <-]. destruct Hp as (t & Ht & Ev). rewrite Hmeta in Ev by lia. injection Ev as <-.
      by rewrite string_of_bytes_of_string, ParseInt_FormatInt in Ep by done.
  - intros [= <- <- <-]. destruct Hp as (t & Ht & Ev). by rewrite Hmeta in Ev by lia.
Qed.

(** A successful [refreshAheadBytes] was a hit, followed by the near-expiry
    check, or a load. *)
Lemma refreshAhead_post ctx key ttl refreshAhead fn w c v task w' c' :
  world_ok w -> cache_ok c -> ttl_ok ttl -> behaved fn -> apart (S := S) key (key +:+ refreshMetaSuffix) ->
  refreshAheadBytes ctx key ttl refreshAhead (Some fn) w c = ((v, None, task), w', c') ->
  (exists w1 c1 w2 c2,
     getBytes ctx key (tickWorld w) c = ((v, true, None), w1, c1) /\
     ran w c w1 c1 /\ seen sc_peek w w1 (c_store c) key (Some v) /\
     (forall k, same_key sc_peek w1 (c_store c) (c_store c1) k) /\
     maybeTriggerRefreshAhead key ttl refreshAhead (Some fn) w1 c1 = (task, w2, c2) /\
     now w2 <= now w') \/
  (seen sc_peek w w' (c_store c) key None /\ task = None /\ cache_ok c' /\
   exists w0 x, later w w0 /\ now w0 + ttl <= x <= now w' + ttl /\ in_int64 x /\
     kept sc_peek sc_grain ttl w0 w' (c_store c') key v /\
     kept sc_peek sc_grain ttl w0 w' (c_store c') (key +:+ refreshMetaSuffix) (bytes_of_string (FormatInt x))).
Proof.
  intros Hw Hc Ht Hfn Hap. unfold refreshAheadBytes. destruct (ttl <=? 0); [by intros|].
  destruct (refreshAhead <=? 0); [by intros|]. go_simpl. pose proof (later_tick w Hw) as Hl0.
  destruct (getBytes ctx key _ c) as [[[[b ok] err] w1] c1] eqn:E. pose proof E as E0.
  apply getBytes_post in E as [Hr [Hk Hp]]; [|by eauto with go|done].
  pose proof (ran_world_ok _ _ _ _ Hr) as Hw1. pose proof (ran_ok _ _ _ _ Hr) as Hc1.
  assert (Hr1 : ran w c w1 c1) by (destruct Hr as [? ?]; split; [by eapply later_trans | done]).
  destruct err as [e|]; [by destruct (observe _ _ _ _ _ w1 c1) as [[u w2] c2]|].
  assert (Hw11 : later w1 w1) by by apply later_refl.
  destruct ok.
  - destruct (maybeTriggerRefreshAhead _ _ _ _ w1 c1) as [[tk w2] c2] eqn:Em.
    assert (ran w1 c1 w2 c2) as Hr2.
    { eapply maybeTrigger_ran; [done|done|exact Em]. }
    destruct (observe _ _ _ _ _ w2 c2) as [[u w3] c3] eqn:Eo. intros [= <- <- <- <-]. left.
    apply observe_ran in Eo as [[Hl3 _] _]; [|by eapply ran_world_ok|by eapply ran_ok].
    exists w1, c1, w2, c2. split; [done|]. split; [done|]. split; [by eapply seen_widen|]. split; [done|].
    split; [done | by apply later_now].
  - destruct (fn ctx w1 c1) as [[[v' err] w2] c2] eqn:Ef.
    pose proof (Hfn _ _ _ _ _ _ Hw1 Hc1 Ef) as (Hl2 & Hc2 & _).
    destruct err as [e|]; [by destruct (observe _ _ _ _ _ w2 c2) as [[u w3] c3]|].
    destruct (setRefreshAheadValue ctx key v' ttl w2 c2) as [[err w3] c3] eqn:Es.
    destruct err as [e|]; [by destruct (observe _ _ _ _ _ w3 c3) as [[u w4] c4]|].
    apply setRefreshAhead_post in Es as (Hr3 & Hst & x & Hx & Hxin & Hmeta); [|by eauto with go|done..].
    destruct (observe _ _ _ _ _ w3 c3) as [[u w4] c4] eqn:Eo. intros [= <- <- <- <-]. right.
    apply observe_ran in Eo as [[Hl4 [Hc4 _]] Es]; [|by eapply ran_world_ok|by eapply ran_ok].
    pose proof (ran_later _ _ _ _ Hr3) as Hl3. pose proof (later_now _ _ Hl4).
    split; [eapply seen_widen; [done|done|]; by do 2 (eapply later_trans; [done|])|].
    split; [done|]. split; [done|]. exists w2, x. rewrite Es.
    split; [eapply later_trans; [by eapply ran_later | done]|]. split; [lia|]. split; [done|].
    assert (later w2 w2) by (apply later_refl; by eauto with go).
    split; eapply kept_widen; done.
Qed.

(** The read of the expiry metadata that a hit of [refreshAheadBytes] makes, after the
    read of the value. *)
Definition meta_read (ctx : Context) (key : string) (w : World) c : bytes * bool * option error :=
  let '(_, w1, c1) := getBytes ctx key (tickWorld w) c in
  let '(r, _, _) := getBytes Background (key +:+ refreshMetaSuffix) w1 c1 in r.

(** C9: near-expiry detection.  After a miss that loaded [v], a later hit within
    the TTL returns [v], and starts a background refresh exactly when the
    value's remaining life is at most [refreshAhead]: never while more than that
    remains (counted from the start of the load), and always, unless this very hit's read
    of the expiry metadata reports an error, once no more than that remains (counted from
    its end).  The load itself starts none.  The backend must be able to record the value
    and its metadata key for the TTL, and keep them apart. *)
Theorem refreshAhead_trigger ctx ctx' key ttl refreshAhead fn fn' w c v task w1 c1 w2 v2 task2 w3 c3 :
  world_ok w -> cache_ok c -> ttl_ok ttl -> behaved fn -> behaved fn' ->
  storable (S := S) key ttl -> storable (S := S) (key +:+ refreshMetaSuffix) ttl ->
  apart (S := S) key (key +:+ refreshMetaSuffix) ->
  (forall t, now w <= t <= now w1 -> sc_peek (c_store c) t key = None) ->
  refreshAheadBytes ctx key ttl refreshAhead (Some fn) w c = ((v, None, task), w1, c1) -> later w1 w2 ->
  refreshAheadBytes ctx' key ttl refreshAhead (Some fn') w2 c1 = ((v2, None, task2), w3, c3) ->
  now w3 <= now w + ttl ->
  task = None /\ v2 = v /\
  (now w3 + refreshAhead < now w + ttl -> task2 = None) /\
  (now w1 + ttl <= now w2 + refreshAhead ->
     task2 = Some (refreshGoroutine key ttl refreshAhead (Some fn')) \/
     exists b ok e, meta_read ctx' key w2 c1 = (b, ok, Some e)).
Proof.
  intros Hw Hc Ht Hfn Hfn' Hsk Hsm Hap Habs E1 Hl E2 Hn. pose proof (later_now _ _ Hl).
  apply refreshAhead_post in E1 as [(w0 & c0 & w0' & c0' & _ & Hr0 & (t & Htt & Ev) & _ & Em & Hn0)|
    (_ & -> & Hc1 & w0 & x & Hl0 & Hx & Hxin & Hst & Hmst)]; [| |done..].
  { apply maybeTrigger_ran in Em; [|by eapply ran_world_ok|by eapply ran_ok].
    pose proof (later_now _ _ (ran_later _ _ _ _ Em)). by rewrite Habs in Ev by lia. }
  destruct (Hst Hsk) as [Hvis _], (Hmst Hsm) as [Hmvis _]. apply later_now in Hl0. split; [done|].
  apply refreshAhead_post in E2 as [(w4 & c4 & w5 & c5 & Eg & Hr4 & (t & Htt & Ev) & Hk4 & Em & Hn5)|
    ((t & Htt & Ev) & _)]; [|by rewrite Hvis in Ev by lia|by eauto with go|done..].
  pose proof Em as Em'. apply maybeTrigger_ran in Em' as Hr5; [|by eapply ran_world_ok|by eapply ran_ok].
  pose proof (later_now _ _ (ran_later _ _ _ _ Hr4)). pose proof (later_now _ _ (ran_later _ _ _ _ Hr5)).
  split; [rewrite Hvis in Ev by lia; congruence|].
  pose proof (now_range _ Hw).
  eapply (maybeTrigger_decides _ _ _ _ x) in Em as [[-> (b & ok & e & w6 & c6 & Hf)]|(t' & Htt' & ->)];
    [| |by eapply ran_world_ok|by eapply ran_ok|done|unfold ttl_ok in *; lia|
     intros t' Ht'; rewrite Hk4 by lia; apply Hmvis; lia].
  - split; [done|]. intros _. right. exists b, ok, e. unfold meta_read. by rewrite Eg, Hf.
  - destruct (Z.gtb_spec (x - t') refreshAhead); split; intros; try done; try lia. by left.
Qed.
End RememberLaws.

(** ** Witnesses *)

Module RememberRuns.
Definition load : callback (S := memoryStore GoMap.engine) bytes := fun _ => ret (Ada, None).
Definition fail : callback (S := memoryStore GoMap.engine) bytes :=
  fun _ => ret ([], Some (ErrorString "upstream down")).

Definition first := rememberBytes Background "k" 0 (Some load) world_example cache_example.
Definition second := rememberBytes Background "k" 0 (Some fail) (wv first) (sv first).

Definition copied := setBytes Background "k:__stale" Ada 0 world_example cache_example.
Definition stale := rememberStaleBytes Background "k" Minute Minute (Some fail) (wv copied) (sv copied).

Definition loaded := refreshAheadBytes Background "k" Minute Second (Some load) world_example cache_example.
Definition hit := refreshAheadBytes Background "k" Minute Second (Some load) (wv loaded) (sv loaded).
(** Half a second before the value expires. *)
Definition late : World := sleepWorld (Minute - 500 * Millisecond) (wv loaded).
Definition lateHit := refreshAheadBytes Background "k" Minute Second (Some load) late (sv loaded).
End RememberRuns.

Lemma load_behaved : behaved RememberRuns.load.
Proof. intros ctx w c r w' c' Hw Hc [= <- <- <-]. split; [by apply later_refl | by split]. Qed.

Lemma fail_behaved : behaved RememberRuns.fail.
Proof. intros ctx w c r w' c' Hw Hc [= <- <- <-]. split; [by apply later_refl | by split]. Qed.

Lemma remember_memoizes_witness :
  rv RememberRuns.second = (Ada, None) /\
  forall fn, rememberBytes Background "k" 0 fn (wv RememberRuns.first) (sv RememberRuns.first)
             = (rv RememberRuns.second, wv RememberRuns.second, sv RememberRuns.second).
Proof.
  split; [vm_compute; reflexivity|].
  refine (proj2 (remember_memoizes Background Background "k" 0 RememberRuns.load RememberRuns.fail
    world_example cache_example Ada (wv RememberRuns.first) (sv RememberRuns.first) (wv RememberRuns.first)
    _ _ _ world_example_ok cache_example_ok I _ load_behaved fail_behaved _
    (run_eta RememberRuns.first (Ada, None) _) _ (run_eta RememberRuns.second _ eq_refl) _)).
  - reflexivity.
  - reflexivity.
  - vm_compute; reflexivity.
  - apply later_refl. exact world_example_ok.
  - apply Z.leb_le. vm_compute; reflexivity.
Defined.

Lemma rememberStale_fallback_witness :
  rv RememberRuns.stale = (Ada, true, None) /\
  (rv RememberRuns.stale = (Ada, true, None) \/
   (exists e, rv RememberRuns.stale = ([], false, Some e) /\
     read_fails (S := memoryStore GoMap.engine) Background "k" e) \/
   (exists e se, rv RememberRuns.stale = ([], false, Some (ErrorJoin e se)) /\
     read_fails (S := memoryStore GoMap.engine) Background "k:__stale" se)).
Proof.
  split; [vm_compute; reflexivity|].
  refine (rememberStale_fallback Background "k" Minute Minute RememberRuns.fail
    (wv RememberRuns.copied) (sv RememberRuns.copied) Ada _ (wv RememberRuns.stale) (sv RememberRuns.stale)
    world_example_ok _ _ _ _ (run_eta RememberRuns.stale _ eq_refl)).
  - split; [split; [exact I|]|]; split; reflexivity.
  - intros w1 c1 Hw Hc. exists [], (ErrorString "upstream down"), w1, c1.
    split; [reflexivity|]. split; [split; [by apply later_refl | by split] | by intros t].
  - intros t _. reflexivity.
  - assert (E : rv RememberRuns.copied = None) by (vm_compute; reflexivity).
    destruct (setBytes_post Background "k:__stale" Ada 0 world_example cache_example None _ _
      world_example_ok cache_example_ok eq_refl (run_eta RememberRuns.copied None E)) as [_ [_ Hkept]]. destruct (Hkept I) as [Hvis _].
    intros t [Ht1 Ht2]. apply Hvis. split; [exact Ht1|]. etransitivity; [exact Ht2|].
    apply Z.leb_le. vm_compute; reflexivity.
Defined.

Lemma refreshAhead_trigger_witness :
  ((rv RememberRuns.hit).1 = (Ada, None) /\ (rv RememberRuns.hit).2 = None) /\
  ((rv RememberRuns.lateHit).1 = (Ada, None) /\
   (rv RememberRuns.lateHit).2 = Some (refreshGoroutine "k" Minute Second (Some RememberRuns.load))).
Proof.
  pose proof (fun w2 v2 task2 w3 c3 => refreshAhead_trigger Background Background "k" Minute Second
    RememberRuns.load RememberRuns.load world_example cache_example Ada None
    (wv RememberRuns.loaded) (sv RememberRuns.loaded) w2 v2 task2 w3 c3
    world_example_ok cache_example_ok (conj eq_refl eq_refl) load_behaved load_behaved I I
    ltac:(discriminate) (fun _ _ => eq_refl) (run_eta RememberRuns.loaded (Ada, None, None) ltac:(vm_compute; reflexivity))) as Hrun.
  split; (split; [vm_compute; reflexivity|]).
  - assert (rv RememberRuns.hit = (Ada, None, (rv RememberRuns.hit).2)) as E by (vm_compute; reflexivity).
    refine (proj1 (proj2 (proj2 (Hrun (wv RememberRuns.loaded) Ada _ (wv RememberRuns.hit) (sv RememberRuns.hit)
      _ (run_eta RememberRuns.hit _ E) _))) _).
    + apply later_refl. exact world_example_ok.
    + apply Z.leb_le. vm_compute; reflexivity.
    + apply Z.ltb_lt. vm_compute; reflexivity.
  - assert ((rv RememberRuns.lateHit).1 = (Ada, None)) as E1 by (vm_compute; reflexivity).
    assert (rv RememberRuns.lateHit = (Ada, None, (rv RememberRuns.lateHit).2)) as E
      by (rewrite <- E1; apply surjective_pairing).
    destruct (proj2 (proj2 (proj2 (Hrun RememberRuns.late Ada _ (wv RememberRuns.lateHit) (sv RememberRuns.lateHit)
      ltac:(apply later_sleep; [exact world_example_ok | reflexivity]) (run_eta RememberRuns.lateHit _ E)
      ltac:(apply Z.leb_le; vm_compute; reflexivity)))) ltac:(apply Z.leb_le; vm_compute; reflexivity)) as [->|(b & ok & e & Hm)].
    + reflexivity.
    + assert (Hnone : (meta_read Background "k" RememberRuns.late (sv RememberRuns.loaded)).2 = None)
        by (vm_compute; reflexivity). rewrite Hm in Hnone. discriminate.
Defined.
