(* ===== verification/RateLimit.v ===== *)
(** * cache.go: counters and the fixed-window rate limiter

    [rateLimit] increments one counter per window.  The theorem is about whole
    histories: calls by any number of processes that share the store, with other
    work in between, within one window. *)

From S2P Require Import Prelude GoStd CacheCore MemoryStore Cache CacheLaws.

Record RateLimitStatus := mkRateLimitStatus {
  Allowed : bool; Count : Z; Remaining : Z; ResetAt : Z
}.

Definition emptyStatus : RateLimitStatus := mkRateLimitStatus false 0 0 0.

(** [fmt.Sprintf("%s:%d", key, bucket)] *)
Definition bucketKeyOf (key : string) (bucket : Z) : string := key +:+ ":" +:+ FormatInt bucket.

Definition rateLimit {S} `{Store S} (ctx : Context) (key : string) (limit window : Z)
    : M (Cache S) (RateLimitStatus * option error) :=
  if limit <=? 0 then ret (emptyStatus, Some (ErrorString "cache rate limit requires limit > 0"))
  else if window <=? 0 then ret (emptyStatus, Some (ErrorString "cache rate limit requires window > 0"))
  else
    let* t := timeNow in
    let bucket := Z.quot (UnixNano t) window in
    let bucketKey := bucketKeyOf key bucket in
    let* (count, err) := increment ctx bucketKey 1 window in
    match err with
    | Some e => ret (emptyStatus, Some e)
    | None =>
        let remaining := wrap64 (limit - count) in
        let remaining := if remaining <? 0 then 0 else remaining in
        let resetAt := wrap64 (wrap64 (bucket + 1) * window) in
        ret (mkRateLimitStatus (count <=? limit) count remaining resetAt, None)
    end.

Definition RateLimit {S} `{Store S} (key : string) (limit window : Z) : M (Cache S) (RateLimitStatus * option error) :=
  inContext (fun ctx => rateLimit ctx key limit window).

Section Counters.
Context {S : Type} `{CounterContract S}.
Implicit Types c : Cache S.

Lemma increment_facade ctx k delta ttl w c r w' c' :
  world_ok w -> cc_ok (c_store c) -> ttl_ok ttl -> increment ctx k delta ttl w c = (r, w', c') ->
  later w w' /\ cc_ok (c_store c') /\
  increment_post cc_peek cc_grain k delta ttl w (c_store c) r w' (c_store c').
Proof.
  intros Hw Hs Ht. unfold increment. go_simpl. rewrite resolveTTL_pos by by destruct Ht.
  destruct (onStore _ _ c) as [[[n e] w1] c1] eqn:E. apply onStore_inv in E as (s1 & E & ->).
  pose proof (later_tick w Hw) as Hl0.
  apply cc_increment in E as (Hl & Hs1 & Hp); [|by eauto with go|done..].
  destruct (observe _ _ _ _ _ w1 _) as [[u w2] c2] eqn:Eo. intros [= <- <- <-].
  apply observe_inv in Eo as (Hl2 & Es & _); [|by eauto with go]. rewrite Es.
  split; [by do 2 (eapply later_trans; [done|])|]. split; [done|]. by eapply increment_post_widen.
Qed.

(** ** One window *)

Variables (key : string) (limit window b : Z).
Hypotheses (Hlimit : 0 < limit <= int64_max) (Hwindow : ttl_ok window)
  (Hbucket : storable (S := S) (bucketKeyOf key b) window).

(** Calls of [rateLimit] on the key, interleaved with anything that leaves the
    window's counter alone, whichever [Cache] it goes through. *)
Inductive rateTrace : World -> Cache S -> list RateLimitStatus -> World -> Cache S -> Prop :=
| rate_nil w c : rateTrace w c [] w c
| rate_call ctx w c st w1 c1 sts w2 c2 :
    rateLimit ctx key limit window w c = ((st, None), w1, c1) ->
    rateTrace w1 c1 sts w2 c2 -> rateTrace w c (st :: sts) w2 c2
| rate_other w c w1 c1 sts w2 c2 :
    later w w1 -> cc_ok (c_store c1) ->
    same_key cc_peek w1 (c_store c) (c_store c1) (bucketKeyOf key b) ->
    rateTrace w1 c1 sts w2 c2 -> rateTrace w c sts w2 c2.

(** After [m] calls in the window the counter reads [m] until the window ends. *)
Definition counted (m : Z) (w : World) c : Prop :=
  forall t, now w <= t < (b + 1) * window ->
    cc_peek (c_store c) t (bucketKeyOf key b) =
      if m =? 0 then None else Some (bytes_of_string (FormatInt m)).

(** The status of the [n]-th call of a window. *)
Definition nth_status (n : Z) (st : RateLimitStatus) : Prop :=
  Count st = n /\ Allowed st = (n <=? limit) /\ Remaining st = Z.max 0 (limit - n) /\
  ResetAt st = (b + 1) * window.

Lemma bucket_of t : 0 < t < horizon -> b * window <= t < (b + 1) * window -> Z.quot (UnixNano t) window = b.
Proof.
  intros Ht Hb. destruct Hwindow as [Hw _]. unfold UnixNano.
  rewrite wrap64_id by (unfold in_int64, int64_min, int64_max, horizon in *; lia).
  rewrite Z.quot_div_nonneg by lia. symmetry. apply (Z.div_unique _ _ _ (t - b * window)); lia.
Qed.

Lemma counts_numeral m v n :
  0 <= m <= int64_max -> v = (if m =? 0 then None else Some (bytes_of_string (FormatInt m))) ->
  counts v n -> n = m.
Proof.
  intros Hm -> Hc. destruct (Z.eqb_spec m 0); simpl in Hc; [lia|].
  rewrite string_of_bytes_of_string, ParseInt_FormatInt in Hc; [congruence|].
  unfold in_int64, int64_min in *. lia.
Qed.

(** A successful call moves time forward and keeps the store well-formed. *)
Lemma rateLimit_ran ctx w c st w1 c1 :
  world_ok w -> cc_ok (c_store c) -> rateLimit ctx key limit window w c = ((st, None), w1, c1) ->
  later w w1 /\ cc_ok (c_store c1).
Proof.
  intros Hw Hs. unfold rateLimit. destruct (limit <=? 0); [done|]. destruct (window <=? 0); [done|].
  go_simpl. pose proof (later_tick w Hw) as Hl0.
  destruct (increment _ _ _ _ _ c) as [[[n e] w3] c3] eqn:Ei.
  apply increment_facade in Ei as (Hl & Hs3 & _); [|by eauto with go|done|done].
  destruct e; [done|]. intros [= _ <- <-]. split; [by eapply later_trans | done].
Qed.

Lemma rateLimit_step ctx m w c st w1 c1 :
  world_ok w -> cc_ok (c_store c) -> 0 <= m < int64_max -> counted m w c ->
  b * window <= now w -> now w1 < (b + 1) * window ->
  rateLimit ctx key limit window w c = ((st, None), w1, c1) ->
  counted (m + 1) w1 c1 /\ nth_status (m + 1) st.
Proof.
  intros Hw Hs Hm Hc Hb Hn. pose proof Hwindow as [Hw0 Hwh]. unfold rateLimit.
  destruct (Z.leb_spec limit 0); [lia|]. destruct (Z.leb_spec window 0); [lia|]. go_simpl.
  pose proof (later_tick w Hw) as Hl0. pose proof (later_now _ _ Hl0). pose proof (now_range _ Hw).
  destruct (increment _ _ _ _ _ c) as [[[n e] w2] c2] eqn:E.
  apply increment_facade in E as (Hl & Hs2 & Hp); [|by eauto with go|done|done].
  pose proof (later_now _ _ Hl). destruct e as [e|]; [done|]. intros [= <- <- <-].
  rewrite bucket_of in * by lia. destruct Hp as [_ [(v & k & (t & Htt & Ev) & Hcv & ->) Hkept]].
  destruct (Hkept Hbucket) as [Hvis _].
  rewrite Hc in Ev by lia. apply (counts_numeral m) in Hcv as ->; [|lia|done].
  assert (wrap64 (m + 1) = m + 1) as Em.
  { apply wrap64_id. unfold in_int64, int64_min, int64_max in *. lia. }
  rewrite Em in *. split.
  - intros t' Ht'. destruct (Z.eqb_spec (m + 1) 0); [lia|]. apply Hvis. nia.
  - unfold nth_status. simpl.
    rewrite (wrap64_id (limit - (m + 1))) by (unfold in_int64, int64_min, int64_max in *; lia).
    assert (0 <= b) by nia.
    rewrite (wrap64_id (b + 1)) by (unfold in_int64, int64_min, int64_max, horizon in *; nia).
    rewrite wrap64_id by (unfold in_int64, int64_min, int64_max, horizon in *; nia).
    split; [done|]. split; [done|]. split; [|done]. destruct (Z.ltb_spec (limit - (m + 1)) 0); lia.
Qed.

Lemma rateTrace_later w c sts w' c' :
  world_ok w -> cc_ok (c_store c) -> rateTrace w c sts w' c' -> later w w'.
Proof.
  intros Hw Hs Htr. induction Htr as [|ctx w c st w1 c1 sts w2 c2 E Htr IH|w c w1 c1 sts w2 c2 Hl Hs1 _ Htr IH].
  - by apply later_refl.
  - apply rateLimit_ran in E as [? ?]; [|done..]. eapply later_trans; [done|]. apply IH; by eauto with go.
  - eapply later_trans; [done|]. apply IH; by eauto with go.
Qed.

Lemma rateTrace_counts m w c sts w' c' :
  world_ok w -> cc_ok (c_store c) -> 0 <= m -> m + len sts <= int64_max -> counted m w c ->
  b * window <= now w -> now w' < (b + 1) * window -> rateTrace w c sts w' c' ->
  forall i st, sts !! i = Some st -> nth_status (m + Z.of_nat i + 1) st.
Proof.
  intros Hw Hs Hm Hlen Hc Hb Hn Htr. revert m Hm Hlen Hc.
  induction Htr as [w c|ctx w c st w1 c1 sts w2 c2 E Htr IH|w c w1 c1 sts w2 c2 Hl Hs1 Hsame Htr IH];
    intros m Hm Hlen Hc.
  - intros i st Hi. by rewrite lookup_nil in Hi.
  - destruct (rateLimit_ran _ _ _ _ _ _ Hw Hs E) as [Hl1 Hs1].
    pose proof (later_now _ _ Hl1). pose proof (later_world_ok _ _ Hl1) as Hw1.
    pose proof (later_now _ _ (rateTrace_later _ _ _ _ _ Hw1 Hs1 Htr)).
    unfold len in *. simpl in Hlen.
    destruct (rateLimit_step ctx m w c st w1 c1) as [Hc1 Hst]; [done|done|lia|done|lia|lia|done|].
    intros [|i] st' Hi; simpl in Hi.
    + injection Hi as <-. by replace (m + Z.of_nat 0 + 1) with (m + 1) by lia.
    + replace (m + Z.of_nat (Datatypes.S i) + 1) with (m + 1 + Z.of_nat i + 1) by lia.
      by apply IH; (done || lia).
  - pose proof (later_now _ _ Hl). pose proof (later_world_ok _ _ Hl) as Hw1.
    apply IH; try done; [lia|]. intros t Ht. rewrite Hsame by lia. apply Hc. lia.
Qed.

End Counters.

(** ** Witness: a limit of one per minute *)

Module RateRuns.
Definition call1 := rateLimit Background "api" 1 Minute world_example cache_example.
Definition call2 := rateLimit Background "api" 1 Minute (wv call1) (sv call1).
Definition st1 : RateLimitStatus := mkRateLimitStatus true 1 0 Minute.
Definition st2 : RateLimitStatus := mkRateLimitStatus false 2 0 Minute.
End RateRuns.

