(* ===== verification/Api.v ===== *)
(** * The application-facing interfaces

    [src/api_interfaces.go]: an interface is the record of its methods over an object of
    type [C], and the interface composed of others a record of theirs.  [cacheAPI] is the
    assertion at the end of that file, that [Cache] implements all of them; programs
    written against [CacheAPI] are verified in [CacheSpec.v].  Then the package functions
    of [src/cache.go] and the hooks of the integration tests. *)

From S2P Require Import Prelude GoStd CacheCore Shaping Cache Locks Remember RateLimit.

(** ** Interfaces *)

Record CoreAPI (C : Type) := mkCoreAPI {
  api_WithContext : option Context -> C -> C;
  api_Driver : C -> string;
  api_Ready : M C (option error)
}.

Record ReadAPI (C : Type) := mkReadAPI {
  api_GetBytes : string -> M C (bytes * bool * option error);
  api_BatchGetBytes : list string -> M C (gmap string bytes * option error);
  api_GetString : string -> M C (string * bool * option error);
  api_PullBytes : string -> M C (bytes * bool * option error)
}.

(** A map argument is the list of its pairs, in the order of the [range]. *)
Record WriteAPI (C : Type) := mkWriteAPI {
  api_SetBytes : string -> bytes -> Z -> M C (option error);
  api_SetString : string -> string -> Z -> M C (option error);
  api_BatchSetBytes : list (string * bytes) -> Z -> M C (option error);
  api_Add : string -> bytes -> Z -> M C (bool * option error);
  api_Delete : string -> M C (option error);
  api_DeleteMany : list string -> M C (option error);
  api_Flush : M C (option error)
}.

Record CounterAPI (C : Type) := mkCounterAPI {
  api_Increment : string -> Z -> Z -> M C (Z * option error);
  api_Decrement : string -> Z -> Z -> M C (Z * option error)
}.

Record RateLimitAPI (C : Type) := mkRateLimitAPI {
  api_RateLimit : string -> Z -> Z -> M C (RateLimitStatus * option error)
}.

(** [api_Lock] takes the fuel of its waiting loop. *)
Record LockAPI (C : Type) := mkLockAPI {
  api_TryLock : string -> Z -> M C (bool * option error);
  api_Lock : nat -> string -> Z -> Z -> M C (option (bool * option error));
  api_Unlock : string -> M C (option error)
}.

Record RememberAPI (C : Type) := mkRememberAPI {
  api_RememberBytes : string -> Z -> option (M C (bytes * option error)) -> M C (bytes * option error);
  api_RememberStaleBytes :
    string -> Z -> Z -> option (M C (bytes * option error)) -> M C (bytes * bool * option error)
}.

(** With the background refresh, if one is started. *)
Record RefreshAheadAPI (C : Type) := mkRefreshAheadAPI {
  api_RefreshAheadBytes :
    string -> Z -> Z -> option (M C (bytes * option error)) -> M C (bytes * option error * option (M C unit))
}.

Record CacheAPI (C : Type) := mkCacheAPI {
  api_core :> CoreAPI C;
  api_read :> ReadAPI C;
  api_write :> WriteAPI C;
  api_counter :> CounterAPI C;
  api_rateLimit :> RateLimitAPI C;
  api_lock :> LockAPI C;
  api_remember :> RememberAPI C;
  api_refreshAhead :> RefreshAheadAPI C
}.

Arguments api_WithContext {C}.
Arguments api_Driver {C}.
Arguments api_Ready {C}.
Arguments api_GetBytes {C}.
Arguments api_BatchGetBytes {C}.
Arguments api_GetString {C}.
Arguments api_PullBytes {C}.
Arguments api_SetBytes {C}.
Arguments api_SetString {C}.
Arguments api_BatchSetBytes {C}.
Arguments api_Add {C}.
Arguments api_Delete {C}.
Arguments api_DeleteMany {C}.
Arguments api_Flush {C}.
Arguments api_Increment {C}.
Arguments api_Decrement {C}.

(** ** [var _ CacheAPI = ...] *)

Definition cacheAPI {S} `{Store S} : CacheAPI (Cache S) := {|
  api_core := mkCoreAPI _ WithContext Driver Ready;
  api_read := mkReadAPI _ GetBytes BatchGetBytes GetString PullBytes;
  api_write := mkWriteAPI _ SetBytes SetString BatchSetBytes Add Delete DeleteMany Flush;
  api_counter := mkCounterAPI _ Increment Decrement;
  api_rateLimit := mkRateLimitAPI _ RateLimit;
  api_lock := mkLockAPI _ TryLock Lock Unlock;
  api_remember := mkRememberAPI _ RememberBytes RememberStaleBytes;
  api_refreshAhead := mkRefreshAheadAPI _ RefreshAheadBytes
|}.

(** ** Package functions

    The generic functions of [src/cache.go] that remain beside the methods of the same
    names.  Their callers give the cache, and for the last one a context that may be nil. *)

Section Functions.
Context {S : Type} `{Store S} {T : Type} `{JSON T}.
Abbreviation loader := (option (M (Cache S) (T * option error))).

Definition func_GetJSON (key : string) : M (Cache S) (T * bool * option error) := inContext (fun ctx => getJSON ctx key).
Definition func_Get (key : string) : M (Cache S) (T * bool * option error) := inContext (fun ctx => getValue ctx key).
Definition func_SetJSON (key : string) (value : T) (ttl : Z) : M (Cache S) (option error) :=
  inContext (fun ctx => setJSON ctx key value ttl).
Definition func_Set (key : string) (value : T) (ttl : Z) : M (Cache S) (option error) :=
  inContext (fun ctx => setValue ctx key value ttl).
Definition func_Pull (key : string) : M (Cache S) (T * bool * option error) := inContext (fun ctx => pullValue ctx key).
Definition func_Remember (key : string) (ttl : Z) (fn : loader) : M (Cache S) (T * option error) :=
  inContext (fun ctx => rememberValue ctx key ttl (adaptFn "remember" zeroValue fn)).
Definition func_RememberStale (key : string) (ttl staleTTL : Z) (fn : loader) : M (Cache S) (T * bool * option error) :=
  inContext (fun ctx => rememberStaleValue ctx key ttl staleTTL (adaptFn "remember stale" zeroValue fn)).
Definition func_RefreshAhead (key : string) (ttl refreshAhead : Z) (fn : loader) : M (Cache S) (T * option error * option (M (Cache S) unit)) :=
  inContext (fun ctx => refreshAheadValue ctx key ttl refreshAhead (adaptFn "refresh ahead" zeroValue fn)).
Definition func_RefreshAheadValueWithCodec (ctx : option Context) (key : string) (ttl refreshAhead : Z) (fn : loader) (codec : ValueCodec T)
    : M (Cache S) (T * option error * option (M (Cache S) unit)) :=
  refreshAheadValueWithCodec ctx key ttl refreshAhead fn codec.
End Functions.

(** ** [src/integration_hooks.go] *)

Definition IntegrationWrapShapingStore {S} `{Store S} `{Crypto} (inner : S) (codec : string) (max : Z) : wrappedStore S :=
  fst (WrapStore inner (mkBaseConfig 0 EmptyString codec max [])).
Definition IntegrationWrapEncryptingStore {S} `{Store S} `{Crypto} (inner : S) (key : bytes) : wrappedStore S * option error :=
  WrapStore inner (mkBaseConfig 0 EmptyString EmptyString 0 key).
