(* ===== verification/MemoStore.v ===== *)
(** * store_memo.go: read memoization

    [memoStore] decorates any store.  First the whole of it, operation by
    operation; then its locking as a transition system, in which a [Get] is
    three steps (look up the memo and note the generation, read the backing
    store, publish if the generation is unchanged) and a mutation two (change
    the backing store, forget), interleaved among any number of goroutines. *)

From S2P Require Import Prelude GoStd CacheCore InspectHelpers Shaping Wrapping MemoryStore Cache CacheLaws.

Record memoEntry := mkMemoEntry { me_body : bytes; me_ok : bool }.

Record memoStore (S : Type) := mkMemoStore {
  ms_store : S;
  ms_items : gmap string memoEntry;
  ms_generation : Z
}.
Arguments mkMemoStore {S}.
Arguments ms_store {S}.
Arguments ms_items {S}.
Arguments ms_generation {S}.

Definition NewMemoStore {S} (store : S) : memoStore S := mkMemoStore store ∅ 0.

(** ** The critical sections *)

Definition lookupMemo {S} (key : string) (s : memoStore S) : option memoEntry * Z :=
  (ms_items s !! key, ms_generation s).

Definition publish {S} (key : string) (generation : Z) (body : bytes) (exists_ : bool) (s : memoStore S) : memoStore S :=
  if ms_generation s =? generation
  then mkMemoStore (ms_store s) (<[key := mkMemoEntry body exists_]> (ms_items s)) (ms_generation s)
  else s.

Definition deleteItems (keys : list string) (items : gmap string memoEntry) : gmap string memoEntry :=
  foldl (fun m k => base.delete k m) items keys.

Definition forgetMany {S} (keys : list string) (s : memoStore S) : memoStore S :=
  mkMemoStore (ms_store s) (deleteItems keys (ms_items s)) (wrapu64 (ms_generation s + 1)).

Definition forget {S} (key : string) (s : memoStore S) : memoStore S :=
  mkMemoStore (ms_store s) (base.delete key (ms_items s)) (wrapu64 (ms_generation s + 1)).

Definition resetItems {S} (s : memoStore S) : memoStore S :=
  mkMemoStore (ms_store s) ∅ (wrapu64 (ms_generation s + 1)).

Section Memo.
Context {S : Type} `{Store S}.

(** A call of a method of [s.store]. *)
Definition onBacking {A} (m : M S A) : M (memoStore S) A :=
  zoom ms_store (fun x s => mkMemoStore x (ms_items s) (ms_generation s)) m.

Definition memo_Driver (s : memoStore S) : string := Store_Driver (ms_store s).
Definition memo_Ready (ctx : Context) : M (memoStore S) (option error) := onBacking (Store_Ready ctx).

Definition memo_Get (ctx : Context) (key : string) : M (memoStore S) (bytes * bool * option error) :=
  let* s := get in
  match lookupMemo key s with
  | (Some entry, _) => ret (me_body entry, me_ok entry, None)
  | (None, generation) =>
      let* (body, exists_, err) := onBacking (Store_Get ctx key) in
      match err with
      | Some e => ret ([], false, Some e)
      | None =>
          modify (publish key generation body exists_) ;;
          ret (body, exists_, None)
      end
  end.

Definition memo_Set (ctx : Context) (key : string) (value : bytes) (ttl : Z) : M (memoStore S) (option error) :=
  let* err := onBacking (Store_Set ctx key value ttl) in
  match err with
  | Some e => ret (Some e)
  | None => modify (forget key) ;; ret None
  end.

Definition memo_Add (ctx : Context) (key : string) (value : bytes) (ttl : Z) : M (memoStore S) (bool * option error) :=
  let* (created, err) := onBacking (Store_Add ctx key value ttl) in
  match err with
  | Some e => ret (false, Some e)
  | None => (if created : bool then modify (forget key) else ret tt) ;; ret (created, None)
  end.

Definition memo_Delete (ctx : Context) (key : string) : M (memoStore S) (option error) :=
  let* err := onBacking (Store_Delete ctx key) in
  match err with
  | Some e => ret (Some e)
  | None => modify (forget key) ;; ret None
  end.

Definition memo_LockAcquire (ctx : Context) (key : string) (owner : bytes) (ttl : Z)
    : M (memoStore S) (bool * option error) :=
  let* s := get in
  match Store_lockStore (ms_store s) with
  | None => memo_Add ctx key owner ttl
  | Some store =>
      let* (created, err) := onBacking (LockAcquire store ctx key owner ttl) in
      (if noErr err && created then modify (forget key) else ret tt) ;;
      ret (created, err)
  end.

Definition memo_LockRelease (ctx : Context) (key : string) (owner : bytes) : M (memoStore S) (bool * option error) :=
  let* s := get in
  match Store_lockStore (ms_store s) with
  | None =>
      let* err := memo_Delete ctx key in
      match err with Some e => ret (false, Some e) | None => ret (true, None) end
  | Some store =>
      let* (released, err) := onBacking (LockRelease store ctx key owner) in
      (if noErr err && released then modify (forget key) else ret tt) ;;
      ret (released, err)
  end.

Definition memo_Increment (ctx : Context) (key : string) (delta ttl : Z) : M (memoStore S) (Z * option error) :=
  let* (value, err) := onBacking (Store_Increment ctx key delta ttl) in
  match err with
  | Some e => ret (0, Some e)
  | None => modify (forget key) ;; ret (value, None)
  end.

Definition memo_Decrement (ctx : Context) (key : string) (delta ttl : Z) : M (memoStore S) (Z * option error) :=
  let* (value, err) := onBacking (Store_Decrement ctx key delta ttl) in
  match err with
  | Some e => ret (0, Some e)
  | None => modify (forget key) ;; ret (value, None)
  end.

Definition memo_DeleteMany (ctx : Context) (keys : list string) : M (memoStore S) (option error) :=
  let* err := onBacking (Store_DeleteMany ctx keys) in
  match err with
  | Some e => ret (Some e)
  | None => modify (forgetMany keys) ;; ret None
  end.

Definition memo_Flush (ctx : Context) : M (memoStore S) (option error) :=
  let* err := onBacking (Store_Flush ctx) in
  match err with
  | Some e => ret (Some e)
  | None => modify resetItems ;; ret None
  end.

Definition memo_Capabilities (s : memoStore S) : InspectorCapabilities :=
  match Store_Inspector (ms_store s) with
  | None => noCapabilities
  | Some inspector => Capabilities inspector (ms_store s)
  end.

Definition memo_ListPage (ctx : Context) (opts : ListPageOptions) : M (memoStore S) (ListPageResult * option error) :=
  let* s := get in
  match Store_Inspector (ms_store s) with
  | None => ret (emptyListPageResult, Some ErrInspectorUnsupported)
  | Some inspector => onBacking (ListPage inspector ctx opts)
  end.

#[export] Instance memoStore_Store : Store (memoStore S) := {|
  Store_Driver := memo_Driver;
  Store_Ready := memo_Ready;
  Store_Get := memo_Get;
  Store_Set := memo_Set;
  Store_Add := memo_Add;
  Store_Increment := memo_Increment;
  Store_Decrement := memo_Decrement;
  Store_Delete := memo_Delete;
  Store_DeleteMany := memo_DeleteMany;
  Store_Flush := memo_Flush;
  Store_lockStore := fun _ => Some (mkLockStore _ memo_LockAcquire memo_LockRelease);
  Store_Inspector := fun _ => Some (mkInspector _ memo_Capabilities memo_ListPage)
|}.
End Memo.

(** ** Interleavings *)

(** What a goroutine inside a method has done so far. *)
Inductive memoPhase :=
| Looked (key : string) (generation : Z)                       (* missed the memo *)
| Fetched (key : string) (generation : Z) (r : option bytes)   (* read the backing store *)
| Wrote (keys : list string)                                   (* changed these keys there *)
| Wiped.                                                       (* flushed it *)

(** The backing store is seen as a map that changes atomically: by the mutations made
    through the memo store, and at any time by itself ([memo_elsewhere]), when an entry
    expires, another client writes, or a mutation that reports an error takes effect all
    the same.  [sh_writes] counts the completed mutations, and [sh_since] keeps, for each
    key, what the backing store has held since the last mutation of it through the memo
    store. *)
Record shared := mkShared {
  sh_memo : memoStore (gmap string bytes);
  sh_threads : gmap nat memoPhase;
  sh_writes : Z;
  sh_since : string -> list (option bytes)
}.

Definition backing (st : shared) : gmap string bytes := ms_store (sh_memo st).

Definition set_backing (b : gmap string bytes) (s : memoStore (gmap string bytes)) :=
  mkMemoStore b (ms_items s) (ms_generation s).

Definition entryOf (r : option bytes) : memoEntry :=
  mkMemoEntry (default [] r) (match r with Some _ => true | None => false end).

(** What a mutation of [keys] to [b] and a change elsewhere leave of the history. *)
Definition since_write (keys : list string) (b : gmap string bytes) (h : string -> list (option bytes)) : string -> list (option bytes) :=
  fun k => if decide (k ∈ keys) then [b !! k] else h k.
Definition since_change (b : gmap string bytes) (h : string -> list (option bytes)) : string -> list (option bytes) :=
  fun k => b !! k :: h k.

Inductive memoStep : shared -> shared -> Prop :=
| memo_look i key st :
    sh_threads st !! i = None -> (lookupMemo key (sh_memo st)).1 = None ->
    memoStep st (mkShared (sh_memo st)
      (<[i := Looked key (lookupMemo key (sh_memo st)).2]> (sh_threads st)) (sh_writes st) (sh_since st))
| memo_fetch i key g st :
    sh_threads st !! i = Some (Looked key g) ->
    memoStep st (mkShared (sh_memo st) (<[i := Fetched key g (backing st !! key)]> (sh_threads st)) (sh_writes st) (sh_since st))
| memo_fetch_failed i key g st :
    sh_threads st !! i = Some (Looked key g) ->
    memoStep st (mkShared (sh_memo st) (base.delete i (sh_threads st)) (sh_writes st) (sh_since st))
| memo_publish i key g r st :
    sh_threads st !! i = Some (Fetched key g r) ->
    memoStep st (mkShared (publish key g (me_body (entryOf r)) (me_ok (entryOf r)) (sh_memo st))
      (base.delete i (sh_threads st)) (sh_writes st) (sh_since st))
| memo_write i keys b st :
    sh_threads st !! i = None -> (forall k, k ∉ keys -> b !! k = backing st !! k) ->
    memoStep st (mkShared (set_backing b (sh_memo st)) (<[i := Wrote keys]> (sh_threads st)) (sh_writes st)
      (since_write keys b (sh_since st)))
| memo_wipe i b st :
    sh_threads st !! i = None ->
    memoStep st (mkShared (set_backing b (sh_memo st)) (<[i := Wiped]> (sh_threads st)) (sh_writes st) (fun k => [b !! k]))
| memo_forget i keys st :
    sh_threads st !! i = Some (Wrote keys) ->
    memoStep st (mkShared (forgetMany keys (sh_memo st)) (base.delete i (sh_threads st)) (sh_writes st + 1) (sh_since st))
| memo_reset i st :
    sh_threads st !! i = Some Wiped ->
    memoStep st (mkShared (resetItems (sh_memo st)) (base.delete i (sh_threads st)) (sh_writes st + 1) (sh_since st))
| memo_elsewhere b st :
    memoStep st (mkShared (set_backing b (sh_memo st)) (sh_threads st) (sh_writes st) (since_change b (sh_since st))).

Definition memo_init (b : gmap string bytes) : shared := mkShared (NewMemoStore b) ∅ 0 (fun k => [b !! k]).

(** A mutation of [k] has changed the backing store and not yet forgotten. *)
Definition pending (k : string) (st : shared) : Prop :=
  exists i p, sh_threads st !! i = Some p /\
    match p with Wrote keys => k ∈ keys | Wiped => True | _ => False end.

Definition phase_generation (p : memoPhase) : option Z :=
  match p with Looked _ g | Fetched _ g _ => Some g | _ => None end.

(** The generation counts the mutations, no reader is ahead of it, and what is
    memoized, or about to be, is something the backing store has held since the last
    mutation of the key, unless one is pending. *)
Definition memo_inv (st : shared) : Prop :=
  0 <= sh_writes st /\ (forall k, backing st !! k ∈ sh_since st k) /\
  (sh_writes st < uint64_mod ->
   ms_generation (sh_memo st) = sh_writes st /\
   (forall i p g, sh_threads st !! i = Some p -> phase_generation p = Some g -> g <= sh_writes st) /\
   (forall i k g r, sh_threads st !! i = Some (Fetched k g r) -> g = sh_writes st -> r ∈ sh_since st k \/ pending k st) /\
   (forall k e, ms_items (sh_memo st) !! k = Some e -> e ∈ (entryOf <$> sh_since st k) \/ pending k st)).

Lemma lookup_deleteItems ks m k :
  deleteItems ks m !! k = if decide (k ∈ ks) then None else m !! k.
Proof.
  unfold deleteItems. revert m. induction ks as [|k' ks IH]; intros m; cbn [foldl].
  { by rewrite decide_False by apply not_elem_of_nil. }
  rewrite IH. destruct (decide (k ∈ ks)) as [Hk|Hk].
  - by rewrite decide_True by (apply elem_of_cons; by right).
  - destruct (decide (k = k')) as [->|Hne].
    + rewrite decide_True by (apply elem_of_cons; by left). by rewrite lookup_delete_eq.
    + rewrite decide_False by (by intros [?|?]%elem_of_cons). by rewrite lookup_delete_ne.
Qed.

(** Replacing one goroutine's phase keeps the pending mutations of the others. *)
Lemma pending_threads (st st' : shared) i k :
  (forall j, j <> i -> sh_threads st' !! j = sh_threads st !! j) ->
  (forall p, sh_threads st !! i = Some p ->
     match p with Wrote keys => k ∉ keys | Wiped => False | _ => True end) ->
  pending k st -> pending k st'.
Proof.
  intros Hother Hi (j & p & Hj & Hp). destruct (decide (j = i)) as [->|Hne].
  - apply Hi in Hj. by destruct p.
  - exists j, p. by rewrite Hother.
Qed.

(** A step of a reader: the backing store, its history and the counts stay. *)
Lemma memo_inv_reader i st m th :
  memo_inv st -> ms_store m = backing st -> ms_generation m = ms_generation (sh_memo st) ->
  (forall p, sh_threads st !! i = Some p -> phase_generation p <> None) ->
  (forall j, j <> i -> th !! j = sh_threads st !! j) ->
  (sh_writes st < uint64_mod -> forall p, th !! i = Some p ->
     match p with
     | Looked _ g => g <= sh_writes st
     | Fetched k g r => g <= sh_writes st /\ r = backing st !! k
     | _ => False
     end) ->
  (sh_writes st < uint64_mod -> forall k e, ms_items m !! k = Some e ->
     ms_items (sh_memo st) !! k = Some e \/ e ∈ (entryOf <$> sh_since st k) \/ pending k st) ->
  memo_inv (mkShared m th (sh_writes st) (sh_since st)).
Proof.
  intros (H0 & Hcur & Hinv) Hms Hmg Hold Hother Hnew Hitems. split; [done|].
  split; [intros k; unfold backing; simpl; rewrite Hms; apply Hcur|]. simpl. intros Hw.
  destruct (Hinv Hw) as (Hgen & Hg & Hf & Hm). specialize (Hnew Hw). specialize (Hitems Hw).
  set (st' := mkShared _ _ _ _).
  assert (Hpend : forall k, pending k st -> pending k st').
  { intros k. apply (pending_threads _ _ i); [done|]. intros p Hp. apply Hold in Hp. by destruct p. }
  split; [by rewrite Hmg|]. split; [|split].
  - intros j p g Hj Hp. destruct (decide (j = i)) as [->|Hne].
    + apply Hnew in Hj. destruct p; simpl in *; simplify_eq; lia.
    + simpl in Hj. rewrite Hother in Hj by done. by eapply Hg.
  - intros j k g r Hj Eg. destruct (decide (j = i)) as [->|Hne].
    + apply Hnew in Hj as [_ ->]. left. apply Hcur.
    + simpl in Hj. rewrite Hother in Hj by done. destruct (Hf _ _ _ _ Hj Eg); auto.
  - intros k e He. destruct (Hitems k e He) as [He'|[?|?]]; auto. destruct (Hm k e He'); auto.
Qed.

(** The backing store changes; the history of a key is extended, or begins anew with the
    new value while a mutation is pending. *)
Lemma memo_inv_change b st th h :
  memo_inv st -> (forall k, pending k st -> pending k (mkShared (set_backing b (sh_memo st)) th (sh_writes st) h)) ->
  (forall j p, th !! j = Some p -> phase_generation p <> None -> sh_threads st !! j = Some p) ->
  (forall k, b !! k ∈ h k) ->
  (forall k, pending k (mkShared (set_backing b (sh_memo st)) th (sh_writes st) h) \/ forall x, x ∈ sh_since st k -> x ∈ h k) ->
  memo_inv (mkShared (set_backing b (sh_memo st)) th (sh_writes st) h).
Proof.
  intros (H0 & Hcur & Hinv) Hpend Hth Hcur' Hh. split; [done|]. split; [done|]. simpl. intros Hw.
  destruct (Hinv Hw) as (Hgen & Hg & Hf & Hm). set (st' := mkShared _ _ _ _) in *.
  split; [done|]. split; [|split].
  - intros j p g Hj Hp. eapply (Hg j); [|done]. apply Hth; [done | congruence].
  - intros j k g r Hj Eg. apply Hth in Hj; [|done]. destruct (Hf _ _ _ _ Hj Eg) as [?|?]; [|auto]. destruct (Hh k); auto.
  - intros k e He. destruct (Hm k e He) as [Hin|?]; [|auto]. destruct (Hh k) as [?|Hk]; [auto|]. left.
    apply list_elem_of_fmap in Hin as (x & -> & Hx). apply list_elem_of_fmap. eauto.
Qed.

(** A mutation changes the backing store and becomes pending. *)
Lemma memo_inv_write i p b st h :
  memo_inv st -> sh_threads st !! i = None -> phase_generation p = None -> (forall k, b !! k ∈ h k) ->
  (forall k, match p with Wrote keys => k ∈ keys | Wiped => True | _ => False end \/ h k = sh_since st k) ->
  memo_inv (mkShared (set_backing b (sh_memo st)) (<[i := p]> (sh_threads st)) (sh_writes st) h).
Proof.
  intros Hinv Hi Hp Hcur Hh. apply memo_inv_change; [done| | |done|].
  - intros k. apply (pending_threads _ _ i); simpl; [|congruence]. intros j Hj. by rewrite lookup_insert_ne.
  - intros j q Hj Hq. by apply lookup_insert_Some in Hj as [[_ <-]|[_ Hj]].
  - intros k. destruct (Hh k) as [Hk| ->]; [left | by right]. exists i, p. simpl. rewrite lookup_insert_eq. split; [done|]. by destruct p.
Qed.

(** The end of a mutation: its keys are forgotten and the generation moves on, so
    that no read that began before can publish. *)
Lemma memo_inv_forget i p st m :
  memo_inv st -> ms_store m = backing st -> ms_generation m = wrapu64 (ms_generation (sh_memo st) + 1) ->
  sh_threads st !! i = Some p ->
  (forall k e, ms_items m !! k = Some e -> ms_items (sh_memo st) !! k = Some e /\
     match p with Wrote keys => k ∉ keys | _ => False end) ->
  memo_inv (mkShared m (base.delete i (sh_threads st)) (sh_writes st + 1) (sh_since st)).
Proof.
  intros (H0 & Hcur & Hinv) Hms Hmg Hi Hitems. split; simpl; [lia|].
  split; [intros k; unfold backing; simpl; rewrite Hms; apply Hcur|]. intros Hw.
  destruct (Hinv ltac:(lia)) as (Hgen & Hg & Hf & Hm). set (st' := mkShared _ _ _ _).
  split; [rewrite Hmg, Hgen; apply Z.mod_small; lia|]. split; [|split].
  - intros j q g [_ Hj]%lookup_delete_Some Hq. pose proof (Hg _ _ _ Hj Hq). lia.
  - intros j k g r [_ Hj]%lookup_delete_Some Eg. pose proof (Hg _ _ g Hj eq_refl). lia.
  - intros k e He. destruct (Hitems k e He) as [He' Hk]. destruct (Hm k e He') as [?|Hpend]; [by left|].
    right. eapply (pending_threads _ _ i); [| |done]; simpl.
    + intros j Hj. by rewrite lookup_delete_ne.
    + intros q Hq. rewrite Hi in Hq. injection Hq as <-. by destruct p.
Qed.

Lemma memo_step_inv st st' : memo_inv st -> memoStep st st' -> memo_inv st'.
Proof.
  intros Hinv Hst. pose proof Hinv as (H0 & Hcur & Hi2).
  destruct Hst as [i key st Hi Hmiss|i key g st Hi|i key g st Hi|i key g r st Hi|i keys b st Hi Hb|i b st Hi
    |i keys st Hi|i st Hi|b st].
  - apply (memo_inv_reader i); [done|done|done|congruence| | |auto].
    + intros j Hj. by rewrite lookup_insert_ne.
    + intros Hw p. rewrite lookup_insert_eq. intros [= <-]. simpl. destruct (Hi2 Hw) as [-> _]. lia.
  - apply (memo_inv_reader i); [done|done|done| | | |auto].
    + intros p. rewrite Hi. by intros [= <-].
    + intros j Hj. by rewrite lookup_insert_ne.
    + intros Hw p. rewrite lookup_insert_eq. intros [= <-]. split; [|done].
      destruct (Hi2 Hw) as (_ & Hg & _). by eapply (Hg i).
  - apply (memo_inv_reader i); [done|done|done| | | |auto].
    + intros p. rewrite Hi. by intros [= <-].
    + intros j Hj. by rewrite lookup_delete_ne.
    + intros Hw p. by rewrite lookup_delete_eq.
  - apply (memo_inv_reader i); [done|unfold publish, backing; by destruct (_ =? _)
      |unfold publish; by destruct (_ =? _)| | | |].
    + intros p. rewrite Hi. by intros [= <-].
    + intros j Hj. by rewrite lookup_delete_ne.
    + intros Hw p. by rewrite lookup_delete_eq.
    + intros Hw k e. unfold publish. destruct (Z.eqb_spec (ms_generation (sh_memo st)) g) as [Eg|]; [|by left].
      simpl. intros [[<- <-]|[_ ?]]%lookup_insert_Some; [|by left]. right.
      destruct (Hi2 Hw) as (Hgen & _ & Hf & _).
      destruct (Hf _ _ _ _ Hi) as [Hin|?]; [congruence | left; apply list_elem_of_fmap; exists r; by destruct r | by right].
  - apply memo_inv_write; [done..| |]; intros k; unfold since_write; destruct (decide (k ∈ keys)); [by left| |by left|by right].
    rewrite Hb by done. apply Hcur.
  - apply memo_inv_write; [done..| |]; intros k; by left.
  - apply (memo_inv_forget i (Wrote keys)); [done..|]. intros k e. simpl. rewrite lookup_deleteItems.
    by destruct (decide (k ∈ keys)).
  - apply (memo_inv_forget i Wiped); [done..|]. intros k e He. simpl in He. by rewrite lookup_empty in He.
  - apply memo_inv_change; [done|by intros k (i & p & ? & ?); exists i, p|done|..]; intros k; [by left|right]. intros x Hx. by right.
Qed.

Lemma memo_reachable_inv b st : rtc memoStep (memo_init b) st -> memo_inv st.
Proof.
  intros Hr. assert (memo_inv (memo_init b)) as Hinit.
  { split; [done|]. split; [intros k; by left|]. intros _. split; [done|]. simpl.
    split; [|split]; intros *; rewrite lookup_empty; done. }
  induction Hr as [|x y z Hxy Hyz IH]; [done|]. apply IH. by eapply memo_step_inv.
Qed.


(** ** One goroutine at a time *)

Section Sequential.
Context {S : Type} `{StoreContract S}.
Implicit Types s : memoStore S.

Lemma onBacking_inv {A} (m : M S A) w s a w' s' :
  onBacking m w s = (a, w', s') ->
  exists x', m w (ms_store s) = (a, w', x') /\ s' = mkMemoStore x' (ms_items s) (ms_generation s).
Proof.
  unfold onBacking, zoom. destruct (m w (ms_store s)) as [[a1 w1] x1]. intros [= <- <- <-]. eauto.
Qed.

(** [k] was given [v] at [w0] for [ttl], and the memo does not contradict it. *)
Definition memo_knows (k : string) (v : bytes) (ttl : Z) (w0 w : World) s : Prop :=
  stored sc_peek sc_grain ttl w0 w (ms_store s) k v /\ sc_ok (ms_store s) /\ world_ok w /\
  (ms_items s !! k = None \/ ms_items s !! k = Some (mkMemoEntry v true)).

Lemma memo_Set_knows ctx k v ttl w s w' s' :
  world_ok w -> sc_ok (ms_store s) -> storable (S := S) k ttl -> ttl_ok ttl ->
  memo_Set ctx k v ttl w s = (None, w', s') ->
  memo_knows k v ttl w w' s'.
Proof.
  intros Hw Hs Hsk Ht. unfold memo_Set. go_simpl. destruct (onBacking _ w s) as [[err w1] s1] eqn:E.
  apply onBacking_inv in E as (x1 & E & ->). apply sc_set in E as (Hl & Hs1 & _ & Hst); [|done..].
  destruct err as [e|]; [done|]. intros [= <- <-]. unfold memo_knows. simpl.
  split; [by apply Hst|]. split; [done|]. split; [by eauto with go|]. left. by rewrite lookup_delete_eq.
Qed.

(** A read of any key keeps what is known of [k], while the value lives. *)
Lemma memo_Get_knows ctx k' k v ttl w0 w s r w' s' :
  memo_knows k v ttl w0 w s -> memo_Get ctx k' w s = (r, w', s') -> now w' <= now w0 + ttl ->
  memo_knows k v ttl w0 w' s' /\ later w w' /\ (k' = k -> hit_or_error v r).
Proof.
  intros (Hst & Hs & Hw & Hi). unfold memo_Get. go_simpl. unfold lookupMemo.
  destruct (ms_items s !! k') as [e|] eqn:Ek.
  { intros [= <- <- <-] _. split; [done|]. split; [by apply later_refl|]. intros ->. left.
    destruct Hi as [Hi|Hi]; rewrite Hi in Ek; [done|]. by injection Ek as <-. }
  destruct (onBacking _ w s) as [[[[b ok] err] w1] s1] eqn:E.
  apply onBacking_inv in E as (x1 & E & ->). pose proof E as E0.
  apply sc_get in E as (Hl & Hs1 & Hk & Hp); [|done..]. pose proof (later_now _ _ Hl).
  assert (Hst1 : stored sc_peek sc_grain ttl w0 w1 x1 k v) by by eapply stored_later.
  destruct err as [e|].
  { intros [= <- <- <-] _. split; [|split; [done|]].
    - split; [done|]. split; [done|]. by split; [eauto with go|].
    - intros ->. right. eauto. }
  unfold publish. simpl. rewrite Z.eqb_refl. intros [= <- <- <-] Hn.
  assert (Hval : k' = k -> (b, ok) = (v, true)).
  { intros ->. destruct Hst as (Hvis & _). destruct ok; destruct Hp as (t & Ht & Ev);
      rewrite Hvis in Ev by lia; [congruence | done]. }
  split; [|split; [done|]].
  - split; [done|]. split; [done|]. split; [by eauto with go|]. simpl.
    destruct (decide (k' = k)) as [->|Hne]; [|by rewrite lookup_insert_ne].
    rewrite lookup_insert_eq. specialize (Hval eq_refl). right. congruence.
  - intros Ek'. left. specialize (Hval Ek'). congruence.
Qed.

(** The reads of a goroutine, one after the other. *)
Definition memo_reads (reads : list (Context * string)) : M (memoStore S) unit :=
  forEach (fun ck => let* _ := memo_Get ck.1 ck.2 in ret tt) reads.

Lemma memo_Get_ran ctx k w s r w' s' :
  world_ok w -> sc_ok (ms_store s) -> memo_Get ctx k w s = (r, w', s') ->
  later w w' /\ sc_ok (ms_store s').
Proof.
  intros Hw Hs. unfold memo_Get. go_simpl. unfold lookupMemo.
  destruct (ms_items s !! k) as [e|].
  { intros [= <- <- <-]. split; [by apply later_refl | done]. }
  destruct (onBacking _ w s) as [[[[b ok] err] w1] s1] eqn:E.
  apply onBacking_inv in E as (x1 & E & ->). apply sc_get in E as (Hl & Hs1 & _); [|done..].
  destruct err; intros [= <- <- <-]; [done|]. split; [done|]. unfold publish. by destruct (_ =? _).
Qed.

Lemma memo_reads_ran reads w s u w' s' :
  world_ok w -> sc_ok (ms_store s) -> memo_reads reads w s = (u, w', s') ->
  later w w' /\ sc_ok (ms_store s').
Proof.
  unfold memo_reads. revert w s. induction reads as [|[ctx k] reads IH]; intros w s Hw Hs; cbn [forEach]; go_simpl.
  { intros [= _ <- <-]. split; [by apply later_refl | done]. }
  simpl. destruct (memo_Get ctx k w s) as [[r w1] s1] eqn:E1. apply memo_Get_ran in E1 as [Hl Hs1]; [|done..].
  intros E2. apply IH in E2 as [? ?]; [|by eauto with go|done]. split; [by eapply later_trans | done].
Qed.

Lemma memo_reads_knows reads k v ttl w0 w s u w' s' :
  memo_knows k v ttl w0 w s -> memo_reads reads w s = (u, w', s') -> now w' <= now w0 + ttl ->
  memo_knows k v ttl w0 w' s'.
Proof.
  unfold memo_reads. revert w s. induction reads as [|[ctx k1] reads IH]; intros w s Hk; cbn [forEach]; go_simpl.
  { by intros [= _ <- <-]. }
  simpl. destruct (memo_Get ctx k1 w s) as [[r w1] s1] eqn:E1. intros E2 Hn.
  pose proof Hk as (_ & Hs & Hw & _). pose proof E1 as E1'. apply memo_Get_ran in E1' as [Hl Hs1]; [|done..].
  pose proof (later_now _ _ (proj1 (memo_reads_ran reads w1 s1 u w' s' (later_world_ok _ _ Hl) Hs1 E2))).
  eapply IH; [|exact E2|done]. eapply memo_Get_knows in E1 as (? & _); [done|done|lia].
Qed.

(** Read your writes.  Through one memo store, after a successful [Set] of a
    key the backing store can record for the TTL, and
    any reads of any keys, a [Get] that ends within the TTL returns the value
    written or an error, whether it is served from the memo or from the backing
    store, and whatever the memo held before. *)
Theorem memo_read_your_writes ctx k v ttl reads w s w1 s1 u w2 s2 ctx' r w3 s3 :
  world_ok w -> sc_ok (ms_store s) -> storable (S := S) k ttl -> ttl_ok ttl ->
  memo_Set ctx k v ttl w s = (None, w1, s1) ->
  memo_reads reads w1 s1 = (u, w2, s2) -> memo_Get ctx' k w2 s2 = (r, w3, s3) ->
  now w3 <= now w + ttl -> hit_or_error v r.
Proof.
  intros Hw Hs Hsk Ht E1 E2 E3 Hn. apply memo_Set_knows in E1 as Hk; [|done..].
  pose proof Hk as (_ & Hs1 & Hw1 & _).
  destruct (memo_reads_ran reads w1 s1 u w2 s2) as [Hl2 Hs2]; [done..|].
  pose proof E3 as E3'. apply memo_Get_ran in E3' as [Hl3 _]; [|by eauto with go|done].
  apply later_now in Hl3. eapply memo_reads_knows in E2; [|done|lia].
  eapply memo_Get_knows in E3 as (_ & _ & Hr); [by apply Hr|done|lia].
Qed.

(** A memoized hit outlives its TTL.  Once a read has memoized a value that the
    backing store recorded, every
    later [Get] of the key through the memo store returns it without consulting
    the backing store, until a mutation through this memo store forgets it,
    even when the TTL has passed and the backing store itself reports a miss. *)
Theorem memo_hit_outlives_ttl ctx k v ttl w s w1 s1 w2 s2 w3 :
  world_ok w -> sc_ok (ms_store s) -> storable (S := S) k ttl -> ttl_ok ttl ->
  memo_Set ctx k v ttl w s = (None, w1, s1) ->
  memo_Get ctx k w1 s1 = ((v, true, None), w2, s2) -> now w2 <= now w + ttl ->
  later w2 w3 -> now w2 + ttl + sc_grain < now w3 ->
  memo_Get ctx k w3 s2 = ((v, true, None), w3, s2) /\
  forall r w4 x4, Store_Get ctx k w3 (ms_store s2) = (r, w4, x4) -> missed r.
Proof.
  intros Hw Hs Hsk Ht E1 E2 Hn Hl Hexp. apply memo_Set_knows in E1 as Hk; [|done..].
  pose proof E2 as E2'. eapply memo_Get_knows in E2' as (Hk2 & _ & _); [|done..].
  split; [|intros r w4 x4 E4; destruct Hk2 as (Hst & Hs2 & _);
           exact (contract_get_expired ctx k v ttl w w2 w3 (ms_store s2) r w4 x4
             (later_world_ok _ _ Hl) Hs2 Hst Hl E4 Hexp)].
  assert (ms_items s2 !! k = Some (mkMemoEntry v true)) as Hi.
  { unfold memo_Get in E2. go_simpl_in E2. unfold lookupMemo in E2.
    destruct (ms_items s1 !! k) as [e|] eqn:Ek.
    - injection E2 as <- Eok <- <-. destruct e as [b ok]. simpl in *. by rewrite Ek, Eok.
    - destruct (onBacking _ w1 s1) as [[[[b ok] err] w5] s5] eqn:E. apply onBacking_inv in E as (x & _ & ->).
      destruct err; [done|]. unfold publish in E2. simpl in E2. rewrite Z.eqb_refl in E2.
      injection E2 as -> -> <- <-. simpl. by rewrite lookup_insert_eq. }
  unfold memo_Get. go_simpl. unfold lookupMemo. by rewrite Hi.
Qed.
End Sequential.

(** ** Witnesses *)

Module MemoRuns.
Definition Grace : bytes := bytes_of_string "Grace".
Definition memo0 : memoStore (memoryStore GoMap.engine) := NewMemoStore (newMemoryStore 0 0).
Definition set1 := memo_Set Background "k" Ada Minute world_example memo0.
Definition reads1 := memo_reads [(Background, "k"); (Background, "other")] (wv set1) (sv set1).
Definition get1 := memo_Get Background "k" (wv reads1) (sv reads1).
Definition get2 := memo_Get Background "k" (wv set1) (sv set1).
Definition memo1 : memoStore (gmap string bytes) :=
  publish "k" 0 Ada true (forgetMany ["k"] (set_backing ∅ (NewMemoStore {["k" := Ada]}))).
Definition memo2 : memoStore (gmap string bytes) := publish "k" 1 [] false memo1.
Definition since1 : string -> list (option bytes) := since_write ["k"] ∅ (fun k => [({["k" := Ada]} : gmap string bytes) !! k]).
Definition expired : World := sleepWorld (2 * Minute) (wv get2).
End MemoRuns.

Lemma memo0_ok : sc_ok (ms_store MemoRuns.memo0).
Proof. split; [exact I | split; reflexivity]. Qed.

Lemma minute_ok : ttl_ok Minute.
Proof. split; reflexivity. Qed.


Lemma memo_read_your_writes_witness :
  rv MemoRuns.get1 = (Ada, true, None) /\ hit_or_error Ada (rv MemoRuns.get1).
Proof.
  split; [vm_compute; reflexivity|].
  refine (memo_read_your_writes Background "k" Ada Minute [(Background, "k"); (Background, "other")]
    world_example MemoRuns.memo0 (wv MemoRuns.set1) (sv MemoRuns.set1) tt (wv MemoRuns.reads1)
    (sv MemoRuns.reads1) Background _ (wv MemoRuns.get1) (sv MemoRuns.get1)
    world_example_ok memo0_ok I minute_ok (run_eta MemoRuns.set1 None _) (run_eta MemoRuns.reads1 tt _)
    (run_eta MemoRuns.get1 _ eq_refl) _).
  - vm_compute; reflexivity.
  - vm_compute; reflexivity.
  - apply Z.leb_le. vm_compute; reflexivity.
Defined.

Lemma memo_hit_outlives_ttl_witness :
  memo_Get Background "k" MemoRuns.expired (sv MemoRuns.get2) =
    ((Ada, true, None), MemoRuns.expired, sv MemoRuns.get2) /\
  forall r w4 x4, Store_Get Background "k" MemoRuns.expired (ms_store (sv MemoRuns.get2)) = (r, w4, x4) -> missed r.
Proof.
  refine (memo_hit_outlives_ttl Background "k" Ada Minute world_example MemoRuns.memo0
    (wv MemoRuns.set1) (sv MemoRuns.set1) (wv MemoRuns.get2) (sv MemoRuns.get2) MemoRuns.expired
    world_example_ok memo0_ok I minute_ok (run_eta MemoRuns.set1 None _)
    (run_eta MemoRuns.get2 (Ada, true, None) _) _ _ _).
  - vm_compute; reflexivity.
  - vm_compute; reflexivity.
  - apply Z.leb_le. vm_compute; reflexivity.
  - apply later_sleep; [exact world_example_ok | reflexivity].
  - apply Z.ltb_lt. vm_compute; reflexivity.
Defined.
