(* ===== verification/Sha256.v ===== *)
(** * crypto/sha256: the digest that names the files of the file store

    [Sum256] of FIPS 180-4 as an executable function on bytes.  The file store
    uses two facts about it: the digest has 32 bytes, and equal digests may only
    come from equal messages as far as anyone knows; the second is not provable
    and is never assumed, the file store keeps apart only the keys whose digests
    differ. *)

From S2P Require Import Prelude GoStd.

Definition mask32 (z : Z) : Z := Z.land z 4294967295.
Definition add32 (a b : Z) : Z := mask32 (a + b).

Definition rotr (n x : Z) : Z := Z.lor (Z.shiftr x n) (mask32 (Z.shiftl x (32 - n))).
Definition bigSigma0 (x : Z) : Z := Z.lxor (Z.lxor (rotr 2 x) (rotr 13 x)) (rotr 22 x).
Definition bigSigma1 (x : Z) : Z := Z.lxor (Z.lxor (rotr 6 x) (rotr 11 x)) (rotr 25 x).
Definition smallSigma0 (x : Z) : Z := Z.lxor (Z.lxor (rotr 7 x) (rotr 18 x)) (Z.shiftr x 3).
Definition smallSigma1 (x : Z) : Z := Z.lxor (Z.lxor (rotr 17 x) (rotr 19 x)) (Z.shiftr x 10).
Definition ch (x y z : Z) : Z := Z.lxor (Z.land x y) (Z.land (Z.lxor x 4294967295) z).
Definition maj (x y z : Z) : Z := Z.lxor (Z.lxor (Z.land x y) (Z.land x z)) (Z.land y z).

(** The first 32 bits of the fractional parts of the cube roots of the first 64
    primes, and of the square roots of the first 8. *)
Definition roundConstants : list Z :=
  [1116352408; 1899447441; 3049323471; 3921009573; 961987163; 1508970993; 2453635748; 2870763221;
   3624381080; 310598401; 607225278; 1426881987; 1925078388; 2162078206; 2614888103; 3248222580;
   3835390401; 4022224774; 264347078; 604807628; 770255983; 1249150122; 1555081692; 1996064986;
   2554220882; 2821834349; 2952996808; 3210313671; 3336571891; 3584528711; 113926993; 338241895;
   666307205; 773529912; 1294757372; 1396182291; 1695183700; 1986661051; 2177026350; 2456956037;
   2730485921; 2820302411; 3259730800; 3345764771; 3516065817; 3600352804; 4094571909; 275423344;
   430227734; 506948616; 659060556; 883997877; 958139571; 1322822218; 1537002063; 1747873779;
   1955562222; 2024104815; 2227730452; 2361852424; 2428436474; 2756734187; 3204031479; 3329325298].

Record digestState := mkDigest { dA : Z; dB : Z; dC : Z; dD : Z; dE : Z; dF : Z; dG : Z; dH : Z }.

Definition initial : digestState :=
  mkDigest 1779033703 3144134277 1013904242 2773480762 1359893119 2600822924 528734635 1541459225.

(** The message, a one bit, zeros, and the length in bits: a multiple of 64
    bytes. *)
Definition pad (msg : bytes) : bytes :=
  msg ++ [x80] ++ replicate (Z.to_nat ((119 - len msg) mod 64)) x00 ++ PutUint64 (8 * len msg).

(** Big-endian words of a block. *)
Fixpoint words (n : nat) (b : bytes) : list Z :=
  match n with
  | O => []
  | Datatypes.S n => Uint32 (take 4 b) :: words n (drop 4 b)
  end.

(** The message schedule; [recent] holds the last sixteen words, newest first. *)
Fixpoint schedule (n : nat) (recent : list Z) : list Z :=
  match n with
  | O => []
  | Datatypes.S n =>
      let at_ i := nth i recent 0 in
      let w := add32 (add32 (smallSigma1 (at_ 1%nat)) (at_ 6%nat))
                     (add32 (smallSigma0 (at_ 14%nat)) (at_ 15%nat)) in
      w :: schedule n (w :: recent)
  end.

Definition round (d : digestState) (kw : Z * Z) : digestState :=
  let t1 := add32 (add32 (add32 (dH d) (bigSigma1 (dE d))) (ch (dE d) (dF d) (dG d))) (add32 kw.1 kw.2) in
  let t2 := add32 (bigSigma0 (dA d)) (maj (dA d) (dB d) (dC d)) in
  mkDigest (add32 t1 t2) (dA d) (dB d) (dC d) (add32 (dD d) t1) (dE d) (dF d) (dG d).

Definition block (d : digestState) (b : bytes) : digestState :=
  let w16 := words 16 b in
  let r := fold_left round (zip roundConstants (w16 ++ schedule 48 (rev w16))) d in
  mkDigest (add32 (dA d) (dA r)) (add32 (dB d) (dB r)) (add32 (dC d) (dC r)) (add32 (dD d) (dD r))
           (add32 (dE d) (dE r)) (add32 (dF d) (dF r)) (add32 (dG d) (dG r)) (add32 (dH d) (dH r)).

Fixpoint blocks (n : nat) (d : digestState) (b : bytes) : digestState :=
  match n with
  | O => d
  | Datatypes.S n => blocks n (block d (take 64 b)) (drop 64 b)
  end.

Definition checkSum (d : digestState) : bytes :=
  PutUint32 (dA d) ++ PutUint32 (dB d) ++ PutUint32 (dC d) ++ PutUint32 (dD d) ++
  PutUint32 (dE d) ++ PutUint32 (dF d) ++ PutUint32 (dG d) ++ PutUint32 (dH d).

Definition Sum256 (data : bytes) : bytes :=
  let padded := pad data in
  checkSum (blocks (length padded / 64) initial padded).

(** [sha256.Size] *)
Definition Size : nat := 32.

Lemma Sum256_length data : length (Sum256 data) = Size.
Proof. unfold Sum256, checkSum, PutUint32. by rewrite !length_app, !bePut_length. Qed.

(** The padding fills whole blocks. *)
Lemma pad_length msg : (length (pad msg) mod 64 = 0)%nat.
Proof.
  unfold pad, PutUint64. rewrite !length_app, length_replicate, bePut_length. unfold len.
  change (length [x80]) with 1%nat. generalize (length msg). intros n.
  pose proof (Z.mod_pos_bound (119 - Z.of_nat n) 64 ltac:(lia)).
  pose proof (Z.div_mod (119 - Z.of_nat n) 64 ltac:(lia)) as E.
  replace (n + (1 + (Z.to_nat ((119 - Z.of_nat n) mod 64) + 8)))%nat
    with (Z.to_nat (2 - (119 - Z.of_nat n) / 64) * 64)%nat by lia.
  apply Nat.Div0.mod_mul.
Qed.

(** Test vectors of the standard: the empty message, one block, two blocks. *)
Example Sum256_empty :
  string_of_bytes (hexEncodeToString (Sum256 []))
  = "e3b0c44298fc1c149afbf4c8996fb92427ae41e4649b934ca495991b7852b855".
Proof. vm_compute. reflexivity. Qed.

Example Sum256_abc :
  string_of_bytes (hexEncodeToString (Sum256 (bytes_of_string "abc")))
  = "ba7816bf8f01cfea414140de5dae2223b00361a396177a9cb410ff61f20015ad".
Proof. vm_compute. reflexivity. Qed.

Example Sum256_two_blocks :
  string_of_bytes (hexEncodeToString
    (Sum256 (bytes_of_string "abcdbcdecdefdefgefghfghighijhijkijkljklmklmnlmnomnopnopq")))
  = "248d6a61d20638b8e5c026930c3e6039a33ce45964ff2167f6ecedd419db06c1".
Proof. vm_compute. reflexivity. Qed.
