(* ===== verification/FileStore.v ===== *)
(** * store_file.go: the filesystem backend

    One record per key, in a file of the store's directory named by the SHA-256
    digest of the key, written to a temporary file and renamed into place.  The
    operating system is a directory of named nodes together with an oracle that
    may make any call fail; a process that dies after some call is the case in
    which every call from then on fails, so what is proved of the directory for
    every oracle holds after a crash of the process as well (not of the machine:
    the page cache survives, and [f.Sync] is a call that may fail and no more).  The mutex that serialises the
    operations makes each of them one atomic step of the model.

    The store keeps the contracts of the facade, for keys shorter than 2^32
    bytes and with independence for keys whose digests differ. *)

From S2P Require Import Prelude GoStd CacheCore InspectHelpers MemoryStore Sha256.
From stdpp Require Import sorting.
#[local] Open Scope Z_scope.
#[local] Open Scope go_scope.

(** ** The operating system *)

Inductive node := FileNode (data : bytes) | DirNode (empty : bool).

(** What the path of the store names. *)
Inductive dirState := DirMissing | NotADir | DirOpen.

(** [d_faults i] is the failure of the [i]-th call, with the number of bytes
    written before it if the call is a write; [d_names i] the random part of a
    temporary name drawn by the [i]-th call. *)
Record Disk := mkDisk {
  d_state : dirState;
  d_nodes : gmap string node;
  d_faults : nat -> option (error * nat);
  d_names : nat -> string;
  d_calls : nat
}.

Definition set_nodes (m : gmap string node) (d : Disk) : Disk :=
  mkDisk (d_state d) m (d_faults d) (d_names d) (d_calls d).

(** The state after one more system call. *)
Definition called (d : Disk) : Disk :=
  mkDisk (d_state d) (d_nodes d) (d_faults d) (d_names d) (Datatypes.S (d_calls d)).

Definition osFault : M Disk (option (error * nat)) :=
  fun w d => (d_faults d (d_calls d), w, called d).

Definition ErrNotDir : error := ErrorString "not a directory".
Definition ErrIsDir : error := ErrorString "is a directory".
Definition ErrNotEmpty : error := ErrorString "directory not empty".
Definition ErrExist : error := ErrorString "file already exists".

(** A call that fails when the oracle says so, and otherwise acts on the nodes
    of the directory. *)
Definition osCall {A} (failed : error -> A) (act : M Disk A) : M Disk A :=
  let* fault := osFault in
  match fault with
  | Some (e, _) => ret (failed e)
  | None =>
      let* d := get in
      match d_state d with
      | DirMissing => ret (failed ErrNotExist)
      | NotADir => ret (failed ErrNotDir)
      | DirOpen => act
      end
  end.

(** [os.ReadFile] *)
Definition osReadFile (name : string) : M Disk (bytes * option error) :=
  osCall (fun e => ([], Some e))
    (let* d := get in
     match d_nodes d !! name with
     | Some (FileNode data) => ret (data, None)
     | Some (DirNode _) => ret ([], Some ErrIsDir)
     | None => ret ([], Some ErrNotExist)
     end).

(** [os.Remove]: a file or an empty directory. *)
Definition osRemove (name : string) : M Disk (option error) :=
  osCall Some
    (let* d := get in
     match d_nodes d !! name with
     | Some (FileNode _) | Some (DirNode true) => put (set_nodes (delete name (d_nodes d)) d) ;; ret None
     | Some (DirNode false) => ret (Some ErrNotEmpty)
     | None => ret (Some ErrNotExist)
     end).

(** [os.CreateTemp(dir, prefix+"*")]: a new empty file; the drawn name is that of
    the last of its tries. *)
Definition osCreateTemp (prefix : string) : M Disk (string * option error) :=
  osCall (fun e => (EmptyString, Some e))
    (let* d := get in
     let name := prefix +:+ d_names d (d_calls d) in
     match d_nodes d !! name with
     | Some _ => ret (EmptyString, Some ErrExist)
     | None => put (set_nodes (<[name := FileNode []]> (d_nodes d)) d) ;; ret (name, None)
     end).

Definition appendTo (more : bytes) (n : node) : node :=
  match n with FileNode data => FileNode (data ++ more) | DirNode e => DirNode e end.

(** [f.Write]: a failed write may have written a part. *)
Definition osWrite (name : string) (data : bytes) : M Disk (option error) :=
  let* fault := osFault in
  let* d := get in
  match fault with
  | Some (e, n) => put (set_nodes (alter (appendTo (take n data)) name (d_nodes d)) d) ;; ret (Some e)
  | None => put (set_nodes (alter (appendTo data) name (d_nodes d)) d) ;; ret None
  end.

(** [f.Sync] and [f.Close]: calls that may fail.  The directory is the one that the
    processes of a running machine see; what a loss of power does to data that was
    written but not yet synced is outside the model, so [Sync] changes nothing in
    it. *)
Definition osFlushFile : M Disk (option error) :=
  let* fault := osFault in ret (option_map fst fault).

(** [os.Rename] of a file within the directory, atomically replacing a file. *)
Definition osRename (old new : string) : M Disk (option error) :=
  osCall Some
    (let* d := get in
     match d_nodes d !! old with
     | None => ret (Some ErrNotExist)
     | Some n =>
         match d_nodes d !! new with
         | Some (DirNode _) => ret (Some ErrExist)
         | _ => put (set_nodes (<[new := n]> (delete old (d_nodes d))) d) ;; ret None
         end
     end).

Definition isDir (n : node) : bool := match n with DirNode _ => true | FileNode _ => false end.

Definition name_le (a b : string * node) : Prop :=
  bytesLeb (bytes_of_string a.1) (bytes_of_string b.1) = true.

#[global] Instance name_le_dec a b : Decision (name_le a b).
Proof. unfold name_le. apply _. Defined.

(** [os.ReadDir]: the entries sorted by name, with [IsDir]. *)
Definition osReadDir : M Disk (list (string * bool) * option error) :=
  osCall (fun e => ([], Some e))
    (let* d := get in
     ret ((fun nn => (nn.1, isDir nn.2)) <$> merge_sort name_le (map_to_list (d_nodes d)), None)).

(** [os.MkdirAll] *)
Definition osMkdirAll : M Disk (option error) :=
  let* fault := osFault in
  match fault with
  | Some (e, _) => ret (Some e)
  | None =>
      let* d := get in
      match d_state d with
      | NotADir => ret (Some ErrNotDir)
      | _ => put (mkDisk DirOpen (d_nodes d) (d_faults d) (d_names d) (d_calls d)) ;; ret None
      end
  end.

(** [os.Stat(dir)], reduced to [IsDir]. *)
Definition osStat : M Disk (bool * option error) :=
  let* fault := osFault in
  match fault with
  | Some (e, _) => ret (false, Some e)
  | None =>
      let* d := get in
      match d_state d with
      | DirMissing => ret (false, Some ErrNotExist)
      | NotADir => ret (false, None)
      | DirOpen => ret (true, None)
      end
  end.

(** ** Records *)

Record fileRecord := mkFileRecord { rec_Key : string; rec_ExpiresAt : Z; rec_Value : bytes }.

Definition fileRecordMagic : bytes := bytes_of_string "CFR1".
Definition fileRecordMagicV2 : bytes := bytes_of_string "CFR2".

(** [json.Unmarshal] into a [fileRecord], for records of the first releases. *)
Class FileJSON := unmarshalRecord : bytes -> fileRecord + error.

(** The header [set] writes before the value. *)
Definition recordHeader (key : string) (expiresAt : Z) : bytes :=
  fileRecordMagicV2 ++ PutUint64 expiresAt ++ PutUint32 (slen key) ++ bytes_of_string key.

Definition decodeFileRecord `{FileJSON} (data : bytes) : string * Z * bytes * option error :=
  if (16 <=? len data) && bool_decide (take 4 data = fileRecordMagicV2) then
    let expiresAt := wrap64 (Uint64 (take 8 (drop 4 data))) in
    let keyLen := Uint32 (take 4 (drop 12 data)) in
    let offset := 16 in
    if (keyLen <? 0) || (keyLen >? len data - offset)
    then (EmptyString, 0, [], Some (ErrorString "invalid cache file record"))
    else (string_of_bytes (take (Z.to_nat keyLen) (drop 16 data)), expiresAt,
          drop (Z.to_nat (offset + keyLen)) data, None)
  else if (12 <=? len data) && bool_decide (take 4 data = fileRecordMagic) then
    (EmptyString, wrap64 (Uint64 (take 8 (drop 4 data))), drop 12 data, None)
  else
    match unmarshalRecord data with
    | inr e => (EmptyString, 0, [], Some e)
    | inl rec => (rec_Key rec, rec_ExpiresAt rec, rec_Value rec, None)
    end.

(** ** Names *)

Definition tmpPrefix : string := ".cache-tmp-".
Definition recordSuffix : string := ".cache".

(** [path], relative to the directory. *)
Definition path (key : string) : string :=
  string_of_bytes (hexEncodeToString (Sum256 (bytes_of_string key))) +:+ recordSuffix.

Definition isFileStoreEntry (name : string) : bool :=
  if HasPrefix name tmpPrefix then true
  else if negb (slen name =? Z.of_nat (Sha256.Size * 2) + slen recordSuffix) || negb (HasSuffix name recordSuffix)
  then false
  else hexDecodes (bytes_of_string (TrimSuffix name recordSuffix)).

Definition isFileStoreRecord (name : string) : bool :=
  negb (HasPrefix name tmpPrefix) && isFileStoreEntry name.

(** ** The store *)

Record fileStore := mkFileStore { fs_dir : string; fs_defaultTTL : Z; fs_disk : Disk }.

(** [defaultFileDir()], for the temporary directory of the system. *)
Definition defaultFileDir (tempDir : string) : string := tempDir +:+ "/cache-file".

(** [newFileStore]; [disks] is what each path names. *)
Definition newFileStore (tempDir : string) (disks : string -> Disk) (dir : string) (defaultTTL : Z) : M unit fileStore :=
  fun w u =>
    let dir := if decide (dir = EmptyString) then defaultFileDir tempDir else dir in
    let defaultTTL := if defaultTTL <=? 0 then defaultCacheTTL else defaultTTL in
    let '(_, w, disk) := osMkdirAll w (disks dir) in
    (mkFileStore dir defaultTTL disk, w, u).

(** The lock stripe of a directory, given the resolution of paths. *)
Definition fileStoreMutationLock (Clean : string -> string) (Abs EvalSymlinks : string -> string + error)
    (dir : string) : Z :=
  let dir := Clean dir in
  let dir := match Abs dir with inl absolute => absolute | inr _ => dir end in
  let dir := match EvalSymlinks dir with inl resolved => resolved | inr _ => dir end in
  match Sum256 (bytes_of_string dir) with b :: _ => byte_to_Z b mod 64 | [] => 0 end.

Section Operations.
Context `{FileJSON}.

(** A system call on the store's directory. *)
Definition os {A} (m : M Disk A) : M fileStore A :=
  zoom fs_disk (fun d s => mkFileStore (fs_dir s) (fs_defaultTTL s) d) m.

(** [errors.Is(err, os.ErrNotExist)] *)
Definition isNotExist (e : error) : bool := errorsIs e ErrNotExist.

Definition fs_Ready (_ : Context) : M fileStore (option error) :=
  let* err := os osMkdirAll in
  match err with
  | Some e => ret (Some e)
  | None =>
      let* (dir, err) := os osStat in
      match err with
      | Some e => ret (Some e)
      | None =>
          let* s := get in
          if negb dir
          then ret (Some (ErrorString ("cache file store path " +:+ quoted (fs_dir s) +:+ " is not a directory")))
          else ret None
      end
  end.

Definition fs_get (key : string) : M fileStore (bytes * bool * option error) :=
  let* (data, err) := os (osReadFile (path key)) in
  match err with
  | Some e => if isNotExist e then ret ([], false, None) else ret ([], false, Some e)
  | None =>
      match decodeFileRecord data with
      | (_, _, _, Some e) => os (osRemove (path key)) ;; ret ([], false, Some e)
      | (_, expiresAt, value, None) =>
          (* the clock is read only for a record that can expire *)
          let* expired :=
            if expiresAt >? 0 then let* t := timeNow in ret (UnixNano t >? expiresAt) else ret false in
          if expired : bool then os (osRemove (path key)) ;; ret ([], false, None)
          else ret (value, true, None)
      end
  end.

(** The cleanup of a failed write. *)
Definition discard (tmpPath : string) (e : error) : M fileStore (option error) :=
  os (osRemove tmpPath) ;; ret (Some e).

(** The second half of [set]: fill the temporary file and move it into place. *)
Definition fs_commit (tmpPath key : string) (header value : bytes) : M fileStore (option error) :=
  let* err := os (osWrite tmpPath header) in
  match err with
  | Some e => os osFlushFile ;; discard tmpPath e
  | None =>
      let* err := os (osWrite tmpPath value) in
      match err with
      | Some e => os osFlushFile ;; discard tmpPath e
      | None =>
          let* err := os osFlushFile in
          match err with
          | Some e => os osFlushFile ;; discard tmpPath e
          | None =>
              let* err := os osFlushFile in
              match err with
              | Some e => discard tmpPath e
              | None =>
                  let* err := os (osRename tmpPath (path key)) in
                  match err with Some e => discard tmpPath e | None => ret None end
              end
          end
      end
  end.

Definition fs_set (key : string) (value : bytes) (ttl : Z) : M fileStore (option error) :=
  let* s := get in
  let ttl := if ttl <=? 0 then fs_defaultTTL s else ttl in
  let* t := timeNow in
  let expiresAt := UnixNano (t + ttl) in
  let* (tmpPath, err) := os (osCreateTemp tmpPrefix) in
  match err with
  | Some e => ret (Some e)
  | None => fs_commit tmpPath key (recordHeader key expiresAt) value
  end.

Definition fs_delete (key : string) : M fileStore (option error) :=
  let* err := os (osRemove (path key)) in
  match err with
  | Some e => if isNotExist e then ret None else ret (Some e)
  | None => ret None
  end.

Definition fs_Get (_ : Context) (key : string) : M fileStore (bytes * bool * option error) := fs_get key.

Definition fs_Set (_ : Context) (key : string) (value : bytes) (ttl : Z) : M fileStore (option error) :=
  fs_set key value ttl.

Definition fs_Add (_ : Context) (key : string) (value : bytes) (ttl : Z) : M fileStore (bool * option error) :=
  let* (_, ok, err) := fs_get key in
  match err with
  | Some e => ret (false, Some e)
  | None =>
      if ok : bool then ret (false, None)
      else
        let* err := fs_set key value ttl in
        match err with Some e => ret (false, Some e) | None => ret (true, None) end
  end.

Definition fs_LockAcquire (ctx : Context) (key : string) (owner : bytes) (ttl : Z)
    : M fileStore (bool * option error) :=
  fs_Add ctx key owner ttl.

Definition fs_LockRelease (_ : Context) (key : string) (owner : bytes) : M fileStore (bool * option error) :=
  let* (body, ok, err) := fs_get key in
  if negb (noErr err) || negb ok || negb (bool_decide (body = owner)) then ret (false, err)
  else
    let* err := fs_delete key in
    match err with Some e => ret (false, Some e) | None => ret (true, None) end.

(** The branch that writes the counter. *)
Definition fs_writeCounter (key : string) (current delta ttl : Z) : M fileStore (Z * option error) :=
  let next := wrap64 (current + delta) in
  let* err := fs_set key (bytes_of_string (FormatInt next)) ttl in
  match err with Some e => ret (0, Some e) | None => ret (next, None) end.

Definition fs_Increment (_ : Context) (key : string) (delta ttl : Z) : M fileStore (Z * option error) :=
  let* (body, ok, err) := fs_get key in
  match err with
  | Some e => ret (0, Some e)
  | None =>
      if ok : bool then
        match ParseInt (string_of_bytes body) with
        | None => ret (0, Some (ErrorString ("cache key " +:+ quoted key +:+ " does not contain a numeric value")))
        | Some n => fs_writeCounter key n delta ttl
        end
      else fs_writeCounter key 0 delta ttl
  end.

Definition fs_Decrement (ctx : Context) (key : string) (delta ttl : Z) : M fileStore (Z * option error) :=
  fs_Increment ctx key (wrap64 (- delta)) ttl.

Definition fs_Delete (_ : Context) (key : string) : M fileStore (option error) := fs_delete key.

Definition fs_DeleteMany (_ : Context) (keys : list string) : M fileStore (option error) :=
  forErr fs_delete keys.

(** The body of the loop of [Flush]. *)
Definition flushEntry (entry : string * bool) : M fileStore (option error) :=
  let '(name, dir) := entry in
  if dir || negb (isFileStoreEntry name) then ret None
  else
    let* err := os (osRemove name) in
    match err with
    | Some e => if isNotExist e then ret None else ret (Some e)
    | None => ret None
    end.

Definition fs_Flush (_ : Context) : M fileStore (option error) :=
  let* (entries, err) := os osReadDir in
  match err with
  | Some e => if isNotExist e then ret None else ret (Some e)
  | None => forErr flushEntry entries
  end.

Definition fs_Capabilities (_ : fileStore) : InspectorCapabilities := mkCapabilities true true true true.

(** The body of the loop of [ListPage]: no entry, an entry, or the error that
    ends the listing. *)
Definition listEntry (dirEntry : string * bool) : M fileStore (option CacheEntry + error) :=
  let '(name, dir) := dirEntry in
  if dir || negb (isFileStoreRecord name) then ret (inl None)
  else
    let* (data, err) := os (osReadFile name) in
    match err with
    | Some e => if isNotExist e then ret (inl None) else ret (inr e)
    | None =>
        match decodeFileRecord data with
        | (_, _, _, Some _) => ret (inl None)
        | (key, expiresAtValue, value, None) =>
            if decide (key = EmptyString) then ret (inl None)
            else
              let* expired :=
                if expiresAtValue >? 0
                then let* t := timeNow in ret (UnixNano t >=? expiresAtValue) else ret false in
              if expired : bool then os (osRemove name) ;; ret (inl None)
              else
                let expiresAt := if expiresAtValue >? 0 then Some (UnixMilli expiresAtValue) else None in
                ret (inl (Some (mkCacheEntry key (len value) expiresAt)))
        end
    end.

Fixpoint listEntries (dirEntries : list (string * bool)) (entries : list CacheEntry)
    : M fileStore (list CacheEntry + error) :=
  match dirEntries with
  | [] => ret (inl entries)
  | dirEntry :: rest =>
      let* r := listEntry dirEntry in
      match r with
      | inr e => ret (inr e)
      | inl None => listEntries rest entries
      | inl (Some entry) => listEntries rest (entries ++ [entry])
      end
  end.

Definition fs_ListPage (_ : Context) (opts : ListPageOptions) : M fileStore (ListPageResult * option error) :=
  let* (dirEntries, err) := os osReadDir in
  match err with
  | Some e => if isNotExist e then ret (emptyListPageResult, None) else ret (emptyListPageResult, Some e)
  | None =>
      let* r := listEntries dirEntries [] in
      match r with
      | inr e => ret (emptyListPageResult, Some e)
      | inl entries => ret (pageOf entries opts)
      end
  end.

Definition fs_lock_ops : LockStore fileStore := mkLockStore _ fs_LockAcquire fs_LockRelease.
Definition fs_inspector : Inspector fileStore := mkInspector _ fs_Capabilities fs_ListPage.

#[export] Instance fileStore_Store : Store fileStore := {|
  Store_Driver := fun _ => DriverFile;
  Store_Ready := fs_Ready;
  Store_Get := fs_Get; Store_Set := fs_Set; Store_Add := fs_Add;
  Store_Increment := fs_Increment; Store_Decrement := fs_Decrement;
  Store_Delete := fs_Delete; Store_DeleteMany := fs_DeleteMany; Store_Flush := fs_Flush;
  Store_lockStore := fun _ => Some fs_lock_ops;
  Store_Inspector := fun _ => Some fs_inspector
|}.
End Operations.
