(* ===== verification/FileLaws.v ===== *)
(** * The file store: atomic writes, record format, scope, contracts

    First the system calls, by their effect on the directory; then the record
    format and the file names; then each operation, ending in the instances of
    the facade's contracts; last what the caller of the store relies on. *)

From S2P Require Import Prelude GoStd CacheCore InspectHelpers MemoryStore Sha256 FileStore.
From stdpp Require Import sorting.
#[local] Open Scope Z_scope.
#[local] Open Scope go_scope.

(** ** System calls *)

(** A call leaves everything but the nodes of the directory alone. *)
Definition same_env (d d' : Disk) : Prop :=
  d_state d' = d_state d /\ d_faults d' = d_faults d.

(** A failure injected by the oracle is not reported as a missing file, and a
    path that is not an open directory has no nodes. *)
Definition disk_ok (d : Disk) : Prop :=
  (d_state d = DirOpen \/ d_nodes d = ∅) /\
  (forall i e n, d_faults d i = Some (e, n) -> isNotExist e = false).

Lemma same_env_refl d : same_env d d.
Proof. done. Qed.

Lemma same_env_trans d1 d2 d3 : same_env d1 d2 -> same_env d2 d3 -> same_env d1 d3.
Proof. intros [? ?] [? ?]. split; congruence. Qed.
#[export] Hint Resolve same_env_refl : go.

(** Reads the outcome of [osCall]: a failure that leaves the nodes alone, and is
    a missing file only when there are none, or the action on an open directory. *)
Lemma osCall_inv {A} (failed : error -> A) act w d a w' d' :
  osCall failed act w d = (a, w', d') ->
  (exists e, a = failed e /\ w' = w /\ d' = called d /\ (disk_ok d -> isNotExist e = true -> d_nodes d = ∅)) \/
  (d_state d = DirOpen /\ act w (called d) = (a, w', d')).
Proof.
  unfold osCall, osFault. go_simpl. destruct (d_faults d (d_calls d)) as [[e n]|] eqn:Ef.
  { intros [= <- <- <-]. left. exists e. repeat split. intros [_ Hf] He. apply Hf in Ef. congruence. }
  simpl. destruct (d_state d) eqn:Es; [| |by right]; intros [= <- <- <-]; left; eexists; repeat split.
  - intros [[?|?] _] _; [congruence | done].
  - done.
Qed.

Lemma osReadFile_inv name w d data err w' d' :
  osReadFile name w d = ((data, err), w', d') ->
  w' = w /\ d' = called d /\
  match err with
  | None => d_nodes d !! name = Some (FileNode data)
  | Some e => data = [] /\ (disk_ok d -> isNotExist e = true -> d_nodes d !! name = None)
  end.
Proof.
  intros E. apply osCall_inv in E as [(e & [= -> ->] & -> & -> & He)|[Ho E]].
  - repeat split. intros Hd Hn. by rewrite He, lookup_empty.
  - go_simpl_in E. simpl in E. destruct (d_nodes d !! name) as [[b|e]|] eqn:En; injection E as <- <- <- <-; done.
Qed.

Lemma osRemove_inv name w d err w' d' :
  osRemove name w d = (err, w', d') ->
  w' = w /\ same_env d d' /\
  match err with
  | None => d_nodes d' = delete name (d_nodes d)
  | Some e => d_nodes d' = d_nodes d /\ (disk_ok d -> isNotExist e = true -> d_nodes d !! name = None)
  end.
Proof.
  intros E. apply osCall_inv in E as [(e & -> & -> & -> & He)|[Ho E]].
  - repeat split. intros Hd Hn. by rewrite He, lookup_empty.
  - go_simpl_in E. simpl in E. destruct (d_nodes d !! name) as [[b|[]]|] eqn:En; by injection E as <- <- <-.
Qed.

Lemma osCreateTemp_inv prefix w d name err w' d' :
  osCreateTemp prefix w d = ((name, err), w', d') ->
  w' = w /\ same_env d d' /\
  match err with
  | None => d_state d = DirOpen /\ HasPrefix name prefix = true /\ d_nodes d !! name = None /\
            d_nodes d' = <[name := FileNode []]> (d_nodes d)
  | Some _ => d_nodes d' = d_nodes d
  end.
Proof.
  intros E. apply osCall_inv in E as [(e & [= -> ->] & -> & -> & He)|[Ho E]].
  - done.
  - go_simpl_in E. simpl in E.
    destruct (d_nodes d !! (prefix +:+ _)) as [n|] eqn:En; injection E as <- <- <- <-; [done|].
    split; [done|]. split; [done|]. split; [done|]. split; [apply HasPrefix_app | done].
Qed.

Lemma osWrite_inv name data w d err w' d' :
  osWrite name data w d = (err, w', d') ->
  w' = w /\ same_env d d' /\ (forall n, n <> name -> d_nodes d' !! n = d_nodes d !! n) /\
  (err = None -> d_nodes d' = alter (appendTo data) name (d_nodes d)).
Proof.
  unfold osWrite, osFault. go_simpl.
  destruct (d_faults d (d_calls d)) as [[e n]|]; intros [= <- <- <-]; repeat split; simpl; try done;
    intros n' Hn; by rewrite lookup_alter_ne.
Qed.

Lemma osFlushFile_inv w d err w' d' : osFlushFile w d = (err, w', d') -> w' = w /\ d' = called d.
Proof. unfold osFlushFile, osFault. go_simpl. by intros [= _ <- <-]. Qed.

Lemma osRename_inv old new w d err w' d' :
  osRename old new w d = (err, w', d') ->
  w' = w /\ same_env d d' /\
  match err with
  | None => exists n, d_nodes d !! old = Some n /\ d_nodes d' = <[new := n]> (delete old (d_nodes d))
  | Some _ => d_nodes d' = d_nodes d
  end.
Proof.
  intros E. apply osCall_inv in E as [(e & -> & -> & -> & He)|[Ho E]].
  - done.
  - go_simpl_in E. simpl in E. destruct (d_nodes d !! old) as [n|] eqn:Eo; [|by injection E as <- <- <-].
    destruct (d_nodes d !! new) as [[b|e]|] eqn:En; injection E as <- <- <-; repeat split; eauto.
Qed.

(** ** Names *)

Lemma path_bytes key :
  bytes_of_string (path key) =
  hexEncodeToString (Sum256 (bytes_of_string key)) ++ bytes_of_string recordSuffix.
Proof. unfold path. by rewrite bytes_of_string_app, bytes_of_string_of_bytes. Qed.

Lemma isHexDigit_not_dot : isHexDigit x2e = false.
Proof. reflexivity. Qed.

(** A record's name starts with a hexadecimal digit, not with a dot. *)
Lemma path_not_tmp key : HasPrefix (path key) tmpPrefix = false.
Proof.
  unfold HasPrefix. rewrite path_bytes. pose proof (Sum256_length (bytes_of_string key)) as Hl.
  pose proof (hexDecodes_encode (Sum256 (bytes_of_string key))) as Hd.
  destruct (Sum256 (bytes_of_string key)) as [|c r]; [done|].
  unfold hexDecodes in Hd. apply andb_true_iff in Hd as [_ Hd]. simpl in Hd.
  apply andb_true_iff in Hd as [Hd _]. simpl.
  destruct (Byte.eqb _ _) eqn:E; [|done]. apply Byte.byte_dec_bl in E. by rewrite <- E in Hd.
Qed.

Lemma path_inj k k' : path k = path k' -> Sum256 (bytes_of_string k) = Sum256 (bytes_of_string k').
Proof.
  intros E. apply (f_equal bytes_of_string) in E. rewrite !path_bytes in E.
  apply app_inv_tail in E. by apply (inj hexEncodeToString).
Qed.

Lemma bHasSuffix_app b p : bHasSuffix (b ++ p) p = true.
Proof. unfold bHasSuffix. rewrite rev_app_distr. apply bHasPrefix_app. Qed.

(** The store recognises the names it writes. *)
Lemma path_recognised key : isFileStoreRecord (path key) = true.
Proof.
  unfold isFileStoreRecord, isFileStoreEntry. rewrite path_not_tmp. cbn [negb andb].
  assert (Hlen : slen (path key) = Z.of_nat (Sha256.Size * 2) + slen recordSuffix).
  { unfold slen. rewrite <- !bytes_of_string_length, path_bytes, length_app, hexEncode_length, Sum256_length.
    by rewrite Nat2Z.inj_add. }
  assert (Hsuf : HasSuffix (path key) recordSuffix = true).
  { unfold HasSuffix. rewrite path_bytes. apply bHasSuffix_app. }
  rewrite Hlen, Z.eqb_refl, Hsuf. cbn [negb orb]. unfold TrimSuffix. rewrite Hsuf, path_bytes.
  rewrite bytes_of_string_of_bytes. replace (take _ _) with (hexEncodeToString (Sum256 (bytes_of_string key))).
  - apply hexDecodes_encode.
  - rewrite <- !bytes_of_string_length, path_bytes, length_app, Nat.add_sub. by rewrite take_app_length.
Qed.

(** ** Records *)

(** The record of the current format. *)
Definition recordBytes (key : string) (expiresAt : Z) (value : bytes) : bytes := recordHeader key expiresAt ++ value.

Section Records.
Context `{FileJSON}.

Lemma decode_record key expiresAt value :
  in_int64 expiresAt -> slen key < 4294967296 ->
  decodeFileRecord (recordBytes key expiresAt value) = (key, expiresAt, value, None).
Proof.
  intros He Hk. unfold decodeFileRecord.
  assert (Hlen : len (recordBytes key expiresAt value) = 16 + slen key + len value).
  { unfold recordBytes, recordHeader, len, slen, PutUint64, PutUint32.
    rewrite !length_app, !bePut_length, bytes_of_string_length. simpl. lia. }
  assert (H0 : 0 <= slen key) by (unfold slen; lia). assert (H1 : 0 <= len value) by (unfold len; lia).
  rewrite Hlen. destruct (Z.leb_spec 16 (16 + slen key + len value)); [|lia].
  assert (Hrec : recordBytes key expiresAt value =
    fileRecordMagicV2 ++ PutUint64 expiresAt ++ PutUint32 (slen key) ++ bytes_of_string key ++ value).
  { unfold recordBytes, recordHeader. by rewrite <- !app_assoc. }
  assert (Ht4 : take 4 (recordBytes key expiresAt value) = fileRecordMagicV2) by (by rewrite Hrec).
  assert (Hd4 : drop 4 (recordBytes key expiresAt value) =
    PutUint64 expiresAt ++ PutUint32 (slen key) ++ bytes_of_string key ++ value) by (by rewrite Hrec).
  assert (Hd12 : drop 12 (recordBytes key expiresAt value) = PutUint32 (slen key) ++ bytes_of_string key ++ value).
  { change 12%nat with (4 + 8)%nat. rewrite <- drop_drop, Hd4. by apply drop_app_length'. }
  assert (Hd16 : drop 16 (recordBytes key expiresAt value) = bytes_of_string key ++ value).
  { change 16%nat with (12 + 4)%nat. rewrite <- drop_drop, Hd12. by apply drop_app_length'. }
  rewrite Ht4, bool_decide_eq_true_2 by done. cbn [andb].
  rewrite Hd4, Hd12, (take_app_length' (PutUint64 _)), (take_app_length' (PutUint32 _)) by done.
  rewrite Uint64_PutUint64, Uint32_PutUint32, wrap64_wrapu64, wrap64_id, Z.mod_small by (done || lia).
  destruct (Z.ltb_spec (slen key) 0); [lia|]. destruct (Z.gtb_spec (slen key) (16 + slen key + len value - 16)); [lia|].
  cbn [orb]. rewrite Hd16.
  assert (Hn : Z.to_nat (slen key) = length (bytes_of_string key)).
  { unfold slen. by rewrite Nat2Z.id, bytes_of_string_length. }
  rewrite Z2Nat.inj_add, <- drop_drop by lia. change (Z.to_nat 16) with 16%nat.
  by rewrite Hd16, Hn, take_app_length, drop_app_length, string_of_bytes_of_string.
Qed.

(** The clock test of [get]. *)
Definition live (expiresAt t : Z) : bool := negb ((expiresAt >? 0) && (t >? expiresAt)).

(** What a read at instant [t] finds in a node. *)
Definition readNode (n : option node) (t : Z) : option bytes :=
  match n with
  | Some (FileNode data) =>
      match decodeFileRecord data with
      | (_, expiresAt, value, None) => if live expiresAt t then Some value else None
      | _ => None
      end
  | _ => None
  end.

(** A node that is not read at [t] is not read later. *)
Lemma readNode_gone n t t' : t <= t' -> (exists data k x v, n = Some (FileNode data) /\
  decodeFileRecord data = (k, x, v, None) /\ live x t = false) -> readNode n t' = None.
Proof.
  intros Ht (data & k & x & v & -> & E & Hl). simpl. rewrite E. unfold live in *.
  destruct (Z.gtb_spec x 0), (Z.gtb_spec t x), (Z.gtb_spec t' x); try done; lia.
Qed.
End Records.

(** ** Operations *)

(** Keys with different digests are different files; the record has a 32-bit
    field for the length of the key. *)
#[export] Instance fileStore_keys : KeySpace fileStore :=
  mkKeySpace _ (fun k' k => Sum256 (bytes_of_string k') <> Sum256 (bytes_of_string k))
             (fun k _ => slen k < 4294967296).

Lemma apart_path k' k : apart (S := fileStore) k' k -> path k' <> path k.
Proof. intros Ha E. by apply path_inj in E. Qed.

Section Operations.
Context `{FileJSON}.
Implicit Types s : fileStore.

Definition nodes s : gmap string node := d_nodes (fs_disk s).

Definition fs_frame s s' : Prop :=
  fs_dir s' = fs_dir s /\ fs_defaultTTL s' = fs_defaultTTL s /\ same_env (fs_disk s) (fs_disk s').

Lemma fs_frame_refl s : fs_frame s s.
Proof. done. Qed.

Lemma fs_frame_trans s1 s2 s3 : fs_frame s1 s2 -> fs_frame s2 s3 -> fs_frame s1 s3.
Proof. intros (? & ? & ?) (? & ? & ?). repeat split; try congruence; by eapply same_env_trans. Qed.

Lemma os_inv {A} (m : M Disk A) w s a w' s' :
  os m w s = (a, w', s') ->
  exists d', m w (fs_disk s) = (a, w', d') /\ s' = mkFileStore (fs_dir s) (fs_defaultTTL s) d'.
Proof. unfold os, zoom. destruct (m w (fs_disk s)) as [[a1 w1] d1]. intros [= <- <- <-]. eauto. Qed.

(** The directory differs at most in the file [tmp]. *)
Definition only s (tmp : string) s' : Prop :=
  fs_frame s s' /\ forall n, n <> tmp -> nodes s' !! n = nodes s !! n.

Lemma only_trans s1 tmp s2 s3 : only s1 tmp s2 -> only s2 tmp s3 -> only s1 tmp s3.
Proof.
  intros [? H1] [? H2]. split; [by eapply fs_frame_trans|]. intros n Hn. rewrite H2 by done. by apply H1.
Qed.

Lemma remove_only name w s err w' s' : os (osRemove name) w s = (err, w', s') -> w' = w /\ only s name s'.
Proof.
  intros E. apply os_inv in E as (d' & E & ->). apply osRemove_inv in E as (-> & He & Hn).
  split; [done|]. split; [done|]. intros n Hne. unfold nodes. simpl.
  destruct err; [by destruct Hn as [-> _] | rewrite Hn; by rewrite lookup_delete_ne].
Qed.

Lemma write_only name data w s err w' s' :
  os (osWrite name data) w s = (err, w', s') ->
  w' = w /\ only s name s' /\ (err = None -> nodes s' = alter (appendTo data) name (nodes s)).
Proof.
  intros E. apply os_inv in E as (d' & E & ->). by apply osWrite_inv in E as (-> & He & Hn & Ha).
Qed.

Lemma flushFile_only name w s err w' s' :
  os osFlushFile w s = (err, w', s') -> w' = w /\ only s name s' /\ nodes s' = nodes s.
Proof. intros E. apply os_inv in E as (d' & E & ->). by apply osFlushFile_inv in E as (-> & ->). Qed.

Lemma discard_only tmp e w s err w' s' :
  discard tmp e w s = (err, w', s') -> err = Some e /\ w' = w /\ only s tmp s'.
Proof.
  unfold discard. go_simpl. destruct (os _ w s) as [[r w1] s1] eqn:E. intros [= <- <- <-].
  by apply remove_only in E as [-> ?].
Qed.

(** [Close] and cleanup after a failed write. *)
Lemma close_discard_only tmp e w s err w' s' :
  (let* _ := os osFlushFile in discard tmp e)%go w s = (err, w', s') -> err = Some e /\ w' = w /\ only s tmp s'.
Proof.
  go_simpl. destruct (os osFlushFile w s) as [[r w1] s1] eqn:E. apply (flushFile_only tmp) in E as (-> & H1 & _).
  intros E. apply discard_only in E as (-> & -> & H2). repeat split; try apply (only_trans _ _ _ _ H1 H2).
Qed.

(** A step that fails after steps that touched only the temporary file. *)
Lemma only_fails s0 tmp s1 (w : World) s' :
  only s0 tmp s1 -> only s1 tmp s' -> w = w /\ fs_frame s0 s' /\ only s0 tmp s'.
Proof. intros H1 H2. pose proof (only_trans _ _ _ _ H1 H2) as H12. split; [done|]. split; [apply H12 | done]. Qed.

Lemma fs_commit_nodes tmp key header value w s err w' s' :
  nodes s !! tmp = Some (FileNode []) -> fs_commit tmp key header value w s = (err, w', s') ->
  w' = w /\ fs_frame s s' /\
  match err with
  | None => nodes s' = <[path key := FileNode (header ++ value)]> (delete tmp (nodes s))
  | Some _ => only s tmp s'
  end.
Proof.
  intros Htmp. unfold fs_commit. go_simpl.
  destruct (os (osWrite tmp header) w s) as [[e1 w1] s1] eqn:E1. apply write_only in E1 as (-> & H1 & A1).
  destruct e1 as [e|].
  { intros E. apply close_discard_only in E as (-> & -> & H2). by eapply only_fails. }
  specialize (A1 eq_refl).
  destruct (os (osWrite tmp value) w s1) as [[e2 w2] s2] eqn:E2. apply write_only in E2 as (-> & H2 & A2).
  assert (H02 : only s tmp s2) by by eapply only_trans.
  destruct e2 as [e|].
  { intros E. apply close_discard_only in E as (-> & -> & H3). by eapply only_fails. }
  specialize (A2 eq_refl).
  destruct (os osFlushFile w s2) as [[e3 w3] s3] eqn:E3. apply (flushFile_only tmp) in E3 as (-> & H3 & A3).
  assert (H03 : only s tmp s3) by by eapply only_trans.
  destruct e3 as [e|].
  { intros E. apply close_discard_only in E as (-> & -> & H4). by eapply only_fails. }
 
  destruct (os osFlushFile w s3) as [[e4 w4] s4] eqn:E4. apply (flushFile_only tmp) in E4 as (-> & H4 & A4).
  assert (H04 : only s tmp s4) by by eapply only_trans.
  destruct e4 as [e|].
  { intros E. apply discard_only in E as (-> & -> & H5). by eapply only_fails. }
 
  destruct (os (osRename tmp _) w s4) as [[e5 w5] s5] eqn:E5.
  apply os_inv in E5 as (d5 & E5 & ->). apply osRename_inv in E5 as (-> & He5 & A5).
  set (s5 := mkFileStore _ _ d5). assert (Hf5 : fs_frame s4 s5) by done.
  destruct e5 as [e|].
  { assert (H5 : only s4 tmp s5) by (split; [done|]; intros n _; unfold nodes; simpl; by rewrite A5).
    assert (H05 : only s tmp s5) by by eapply only_trans.
    intros E. apply discard_only in E as (-> & -> & H6). by eapply only_fails. }
  intros [= <- <- <-]. split; [done|]. split; [eapply fs_frame_trans; [by destruct H04 | done]|].
  destruct A5 as (nd & Hnd & A5). fold (nodes s4) in Hnd, A5. change (d_nodes d5) with (nodes s5) in A5.
  assert (Hs4 : nodes s4 = alter (appendTo value) tmp (alter (appendTo header) tmp (nodes s))) by congruence.
  rewrite A5, Hs4 in *. rewrite !lookup_alter_eq, Htmp in Hnd. injection Hnd as <-.
  f_equal. apply map_eq. intros n. destruct (decide (n = tmp)) as [->|Hne].
  - by rewrite !lookup_delete_eq.
  - by rewrite !lookup_delete_ne, !lookup_alter_ne.
Qed.

(** The expiry [set] records. *)
Definition expiryAt s (w : World) (ttl : Z) : Z :=
  UnixNano (now w + if ttl <=? 0 then fs_defaultTTL s else ttl).

(** A write happens completely or, but for the temporary file, not at all. *)
Lemma fs_set_nodes key value ttl w s err w' s' :
  fs_set key value ttl w s = (err, w', s') ->
  w' = tickWorld w /\ fs_frame s s' /\ (d_state (fs_disk s) = DirOpen \/ nodes s' = nodes s) /\
  match err with
  | None => nodes s' = <[path key := FileNode (recordBytes key (expiryAt s w ttl) value)]> (nodes s)
  | Some _ => forall n, HasPrefix n tmpPrefix = false -> nodes s' !! n = nodes s !! n
  end.
Proof.
  unfold fs_set. go_simpl. fold (expiryAt s w ttl).
  destruct (os (osCreateTemp _) _ s) as [[[tmp e0] w1] s1] eqn:E1.
  apply os_inv in E1 as (d1 & E1 & ->). apply osCreateTemp_inv in E1 as (-> & He1 & Hn1).
  set (s1 := mkFileStore _ _ d1). assert (Hf1 : fs_frame s s1) by done.
  destruct e0 as [e|].
  { intros [= <- <- <-]. split; [done|]. split; [done|]. split; [by right|].
    intros n _. unfold nodes. simpl. by rewrite Hn1. }
  destruct Hn1 as (Hopen & Htmp & Hfresh & Hn1). change (d_nodes d1) with (nodes s1) in Hn1.
  fold (nodes s) in Hfresh, Hn1.
  intros E. apply fs_commit_nodes in E as (-> & Hf & Hn); [|by rewrite Hn1, lookup_insert_eq].
  split; [done|]. split; [by eapply fs_frame_trans|]. split; [by left|].
  destruct err as [e|].
  - intros n Hp. destruct Hn as [_ Hn]. rewrite Hn, Hn1, lookup_insert_ne by congruence. done.
  - rewrite Hn, Hn1, delete_insert_id by done. done.
Qed.

(** ** The view of a reader *)

Definition fs_ok s : Prop := ttl_ok (fs_defaultTTL s) /\ disk_ok (fs_disk s).

Definition fs_peek s (t : Z) (k : string) : option bytes := readNode (nodes s !! path k) t.

Definition fs_occupied s (t : Z) (k : string) : Prop := is_Some (fs_peek s t k).

Lemma fs_peek_occupied s t k b : fs_peek s t k = Some b -> fs_occupied s t k.
Proof. unfold fs_occupied. intros ->. eauto. Qed.

Lemma fs_ok_frame s s' :
  fs_ok s -> fs_frame s s' -> (d_state (fs_disk s) = DirOpen \/ (nodes s = ∅ -> nodes s' = ∅)) -> fs_ok s'.
Proof.
  intros [Ht [Hd Hf]] (_ & Et & Es & Ef) Hn. split; [by rewrite Et|]. split; [|by rewrite Ef].
  rewrite Es. destruct Hn as [Hn|Hn]; [by left|]. destruct Hd as [?|?]; [by left | right; by apply Hn].
Qed.

(** The outcome of a removal: the node is gone, or nothing changed. *)
Definition dropped (name : string) s s' : Prop :=
  fs_frame s s' /\ (nodes s' = nodes s \/ nodes s' = delete name (nodes s)).

Lemma dropped_ok name s s' : fs_ok s -> dropped name s s' -> fs_ok s'.
Proof.
  intros Hs [Hf Hn]. eapply fs_ok_frame; [done|done|]. right. intros E.
  destruct Hn as [-> | ->]; rewrite E; [done | apply delete_empty].
Qed.

Lemma remove_dropped name w s err w' s' :
  os (osRemove name) w s = (err, w', s') ->
  w' = w /\ dropped name s s' /\
  match err with
  | None => nodes s' = delete name (nodes s)
  | Some e => nodes s' = nodes s /\ (fs_ok s -> isNotExist e = true -> nodes s !! name = None)
  end.
Proof.
  intros E. apply os_inv in E as (d' & E & ->). apply osRemove_inv in E as (-> & He & Hn).
  split; [done|]. split; [split; [done|] |].
  - destruct err; [left; apply Hn | by right].
  - destruct err; [|done]. destruct Hn as [? Hn]. split; [done|]. intros [_ Hd]. by apply Hn.
Qed.

(** Removing a file no reader sees is invisible. *)
Lemma dropped_same_key name s s' (w' : World) k :
  dropped name s s' -> (forall t, now w' <= t -> readNode (nodes s !! name) t = None) ->
  same_key fs_peek w' s s' k.
Proof.
  intros [_ [Hn|Hn]] Hgone t Ht; unfold fs_peek; rewrite Hn; [done|].
  destruct (decide (name = path k)) as [->|Hne]; [|by rewrite lookup_delete_ne].
  rewrite lookup_delete_eq. symmetry. by apply Hgone.
Qed.

Lemma UnixNano_now w : world_ok w -> UnixNano (now w) = now w.
Proof.
  intros Hw. apply now_range in Hw. apply wrap64_id. unfold in_int64, int64_min, int64_max, horizon in *. lia.
Qed.

Lemma fs_get_spec key w s r w' s' :
  world_ok w -> fs_ok s -> fs_get key w s = (r, w', s') ->
  later w w' /\ fs_ok s' /\ fs_frame s s' /\ get_post fs_peek key w s r w' s'.
Proof.
  intros Hw Hs. unfold fs_get. go_simpl.
  destruct (os (osReadFile _) w s) as [[[data err] w1] s1] eqn:E1.
  apply os_inv in E1 as (d1 & E1 & ->). apply osReadFile_inv in E1 as (-> & -> & Hn).
  set (s1 := mkFileStore _ _ (called _)).
  assert (Hs1 : fs_ok s1) by exact Hs. pose proof (later_refl w Hw) as Hl.
  assert (Hsame : forall k (w0 : World), same_key fs_peek w0 s s1 k) by by intros k w0 t.
  destruct err as [e|].
  { destruct Hn as [-> Hn]. destruct (isNotExist e) eqn:Ee; intros [= <- <- <-]; repeat (split; [done|]); [|done].
    exists (now w). split; [lia|]. unfold fs_peek. change (nodes s) with (d_nodes (fs_disk s)).
    rewrite Hn; [done | by destruct Hs | done]. }
  fold (nodes s) in Hn. destruct (decodeFileRecord data) as [[[k x] v] [e|]] eqn:Ed.
  { destruct (os (osRemove _) w s1) as [[r2 w2] s2] eqn:E2. apply remove_dropped in E2 as (-> & Hd & _).
    intros [= <- <- <-]. split; [done|]. split; [by eapply dropped_ok|]. split; [by destruct Hd|]. split; [|done].
    intros k'. eapply (dropped_same_key _ s1); [done|]. intros t _. change (nodes s1) with (nodes s).
    rewrite Hn. simpl. by rewrite Ed. }
  assert (Hread : forall t, readNode (nodes s !! path key) t = if live x t then Some v else None).
  { intros t. rewrite Hn. simpl. by rewrite Ed. }
  unfold live in Hread. destruct (Z.gtb_spec x 0) as [Hx|Hx]; cbn [andb] in Hread.
  2: { intros [= <- <- <-]. repeat (split; [done|]). exists (now w). split; [lia|]. apply Hread. }
  pose proof (later_tick w Hw) as Hlt. pose proof (later_now _ _ Hlt). rewrite UnixNano_now by done.
  destruct (Z.gtb_spec (now w) x) as [Hexp|Hlive].
  - destruct (os (osRemove _) _ s1) as [[r2 w2] s2] eqn:E2. apply remove_dropped in E2 as (-> & Hd & _).
    intros [= <- <- <-]. split; [done|]. split; [by eapply dropped_ok|]. split; [by destruct Hd|]. split.
    + intros k'. eapply (dropped_same_key _ s1); [done|]. intros t Ht. change (nodes s1) with (nodes s).
      rewrite Hread. destruct (Z.gtb_spec t x); [done | lia].
    + exists (now w). split; [lia|]. unfold fs_peek. rewrite Hread. by destruct (Z.gtb_spec (now w) x); [|lia].
  - intros [= <- <- <-]. repeat (split; [done|]). exists (now w). split; [lia|]. unfold fs_peek.
    rewrite Hread. by destruct (Z.gtb_spec (now w) x); [lia|].
Qed.

(** ** The contracts *)

Lemma fs_set_spec key v ttl w s err w' s' :
  world_ok w -> fs_ok s -> ttl_ok ttl -> fs_set key v ttl w s = (err, w', s') ->
  later w w' /\ fs_ok s' /\ set_post fs_peek 0 key v ttl w s err w' s'.
Proof.
  intros Hw Hs [Ht0 Ht] E. apply fs_set_nodes in E as (-> & Hf & Ho & Hn).
  pose proof (later_tick w Hw) as Hl. pose proof (later_now _ _ Hl).
  split; [done|]. split; [eapply fs_ok_frame; [done..|]; destruct Ho as [?| ->]; tauto|].
  destruct err as [e|].
  { assert (forall k, same_key fs_peek (tickWorld w) s s' k) as Hsame.
    { intros k t _. unfold fs_peek. by rewrite Hn by apply path_not_tmp. }
    auto with go. }
  split.
  { intros k Ha t _. unfold fs_peek. rewrite Hn, lookup_insert_ne; [done|]. by apply not_eq_sym, apart_path. }
  intros Hk. assert (expiryAt s w ttl = now w + ttl) as Ex.
  { unfold expiryAt. destruct (Z.leb_spec ttl 0); [lia|]. pose proof (now_range _ Hw). apply wrap64_id.
    unfold in_int64, int64_min, int64_max, horizon in *. lia. }
  rewrite Ex in Hn. pose proof (now_range _ Hw).
  assert (Hpeek : forall t, fs_peek s' t key = if now w + ttl >=? t then Some v else None).
  { intros t. unfold fs_peek. rewrite Hn, lookup_insert_eq. cbn [readNode].
    rewrite decode_record; [|by rewrite <- Ex; apply wrap64_range|done].
    unfold live. destruct (Z.gtb_spec (now w + ttl) 0), (Z.gtb_spec t (now w + ttl)), (Z.geb_spec (now w + ttl) t); done || lia. }
  split; [|split]; intros t; [intros Htt|intros Htt Hg|intros b Htt]; rewrite Hpeek;
    destruct (Z.geb_spec (now w + ttl) t); try done; try lia. congruence.
Qed.

Lemma fs_delete_spec key w s err w' s' :
  world_ok w -> fs_ok s -> fs_delete key w s = (err, w', s') ->
  later w w' /\ fs_ok s' /\ delete_post fs_peek key w s err w' s'.
Proof.
  intros Hw Hs. unfold fs_delete. go_simpl.
  destruct (os (osRemove _) w s) as [[r w1] s1] eqn:E. apply remove_dropped in E as (-> & Hd & Hn).
  pose proof (later_refl w Hw) as Hl. pose proof (dropped_ok _ _ _ Hs Hd) as Hs1.
  assert (Hother : forall k, apart (S := fileStore) k key -> same_key fs_peek w s s1 k).
  { intros k Ha t _. unfold fs_peek. destruct Hd as [_ [-> | ->]]; [done|].
    rewrite lookup_delete_ne; [done|]. by apply not_eq_sym, apart_path. }
  destruct r as [e|].
  - destruct Hn as [Hn Hmiss]. destruct (isNotExist e) eqn:Ee; intros [= <- <- <-];
      (split; [done|]); (split; [done|]); (split; [done|]).
    + intros t _. unfold fs_peek. rewrite Hn, Hmiss by done. done.
    + left. intros k t _. unfold fs_peek. by rewrite Hn.
  - intros [= <- <- <-]. split; [done|]. split; [done|]. split; [done|].
    intros t _. unfold fs_peek. by rewrite Hn, lookup_delete_eq.
Qed.

Lemma fs_add_spec ctx key v ttl w s r w' s' :
  world_ok w -> fs_ok s -> ttl_ok ttl -> fs_Add ctx key v ttl w s = (r, w', s') ->
  later w w' /\ fs_ok s' /\ add_post fs_peek fs_occupied 0 key v ttl w s r w' s'.
Proof.
  intros Hw Hs Ht. unfold fs_Add. go_simpl.
  destruct (fs_get key w s) as [[[[b ok] err] w1] s1] eqn:E1.
  apply fs_get_spec in E1 as (Hl1 & Hs1 & _ & Hk1 & Hp); [|done..]. pose proof (later_world_ok _ _ Hl1) as Hw1.
  destruct err as [e|].
  { intros [= <- <- <-]. do 2 (split; [done|]). auto with go. }
  destruct ok.
  { intros [= <- <- <-]. do 2 (split; [done|]). split; [by intros|]. split; [|done].
    destruct Hp as (t & Htt & Ep). exists t. split; [done|]. unfold fs_occupied. rewrite Ep. eauto. }
  destruct (fs_set key v ttl w1 s1) as [[err w2] s2] eqn:E2.
  apply fs_set_spec in E2 as (Hl2 & Hs2 & Hk2 & Hst); [|done..].
  assert (Hl : later w w2) by by eapply later_trans.
  assert (Hsame : forall k, same_key fs_peek w2 s1 s2 k -> same_key fs_peek w2 s s2 k).
  { intros k Hk. eapply same_key_trans; [by eapply same_key_widen|done]. }
  assert (Hfree : free fs_occupied w w2 s key).
  { destruct Hp as (t & Htt & Ep). exists t. apply later_now in Hl2. split; [lia|].
    unfold fs_occupied. rewrite Ep. by intros []. }
  assert (Hkept : kept fs_peek 0 ttl w1 w2 s2 key v -> kept fs_peek 0 ttl w w2 s2 key v).
  { intros Hk. eapply kept_widen; [done|done|]. by apply later_refl, later_world_ok with w1. }
  destruct err as [e|]; intros [= <- <- <-]; (split; [done|]); (split; [done|]); (split; [by auto|]).
  - split; [done|]. destruct Hst; auto.
  - auto.
Qed.

Lemma fs_release_spec ctx key owner w s r w' s' :
  world_ok w -> fs_ok s -> fs_LockRelease ctx key owner w s = (r, w', s') ->
  later w w' /\ fs_ok s' /\ release_post fs_peek key owner w s r w' s'.
Proof.
  intros Hw Hs. unfold fs_LockRelease. go_simpl.
  destruct (fs_get key w s) as [[[[b ok] err] w1] s1] eqn:E1.
  apply fs_get_spec in E1 as (Hl1 & Hs1 & _ & Hk1 & Hp); [|done..]. pose proof (later_world_ok _ _ Hl1) as Hw1.
  destruct err as [e|]; cbn [noErr negb orb].
  { intros [= <- <- <-]. do 2 (split; [done|]). auto with go. }
  destruct ok; cbn [negb orb].
  2: { intros [= <- <- <-]. do 2 (split; [done|]). split; [by intros|]. split; [by exists None | done]. }
  destruct (bool_decide_reflect (b = owner)) as [->|Hne]; cbn [negb].
  2: { intros [= <- <- <-]. do 2 (split; [done|]). split; [by intros|]. split; [|done].
       exists (Some b). split; [congruence | done]. }
  destruct (fs_delete key w1 s1) as [[err w2] s2] eqn:E2.
  apply fs_delete_spec in E2 as (Hl2 & Hs2 & Hk2 & Hd); [|done..].
  assert (Hl : later w w2) by by eapply later_trans.
  assert (Hsame : forall k, same_key fs_peek w2 s1 s2 k -> same_key fs_peek w2 s s2 k).
  { intros k Hk. eapply same_key_trans; [by eapply same_key_widen|done]. }
  assert (Hseen : own fs_peek w w2 s key owner).
  { left. eapply seen_widen; [done|by apply later_refl|done]. }
  destruct err as [e|]; intros [= <- <- <-]; (split; [done|]); (split; [done|]); (split; [by auto|]).
  - split; [done|]. destruct Hd; auto.
  - auto.
Qed.

Lemma fs_writeCounter_spec key c delta ttl w0 s0 w s r w' s' :
  world_ok w0 -> later w0 w -> fs_ok s -> ttl_ok ttl -> (forall k, same_key fs_peek w s0 s k) ->
  (exists v, seen fs_peek w0 w s0 key v /\ counts v c) ->
  fs_writeCounter key c delta ttl w s = (r, w', s') ->
  later w0 w' /\ fs_ok s' /\ increment_post fs_peek 0 key delta ttl w0 s0 r w' s'.
Proof.
  intros Hw0 Hl0 Hs Ht Hk (v & Hv & Hc). pose proof (later_world_ok _ _ Hl0) as Hw.
  unfold fs_writeCounter. go_simpl. destruct (fs_set key _ ttl w s) as [[err w1] s1] eqn:E.
  apply fs_set_spec in E as (Hl & Hs1 & Hk1 & Hst); [|done..].
  assert (Hsame : forall k, same_key fs_peek w1 s s1 k -> same_key fs_peek w1 s0 s1 k).
  { intros k ?. eapply same_key_trans; [by eapply same_key_widen|done]. }
  destruct err as [e|]; intros [= <- <- <-]; (split; [by eapply later_trans|]); (split; [done|]);
    (split; [by auto|]).
  - done.
  - split.
    + exists v, c. split; [|done]. eapply seen_widen; [done|by apply later_refl|done].
    + eapply kept_widen; [done|done|]. apply later_refl. by eauto with go.
Qed.

Lemma fs_increment_spec ctx key delta ttl w s r w' s' :
  world_ok w -> fs_ok s -> ttl_ok ttl -> fs_Increment ctx key delta ttl w s = (r, w', s') ->
  later w w' /\ fs_ok s' /\ increment_post fs_peek 0 key delta ttl w s r w' s'.
Proof.
  intros Hw Hs Ht. unfold fs_Increment. go_simpl.
  destruct (fs_get key w s) as [[[[b ok] err] w1] s1] eqn:E1.
  apply fs_get_spec in E1 as (Hl1 & Hs1 & _ & Hk1 & Hp); [|done..].
  destruct err as [e|].
  { intros [= <- <- <-]. do 2 (split; [done|]). by split. }
  destruct ok.
  - destruct (ParseInt (string_of_bytes b)) as [n|] eqn:En.
    + apply fs_writeCounter_spec; try done. by exists (Some b).
    + intros [= <- <- <-]. do 2 (split; [done|]). by split.
  - apply fs_writeCounter_spec; try done. by exists None.
Qed.

Lemma fs_decrement_spec ctx key delta ttl w s r w' s' :
  world_ok w -> fs_ok s -> ttl_ok ttl -> fs_Decrement ctx key delta ttl w s = (r, w', s') ->
  later w w' /\ fs_ok s' /\ increment_post fs_peek 0 key (wrap64 (- delta)) ttl w s r w' s'.
Proof. apply fs_increment_spec. Qed.

(** ** Removal loops *)

(** Files only disappear. *)
Definition shrinks s s' : Prop := forall n, nodes s' !! n = nodes s !! n \/ nodes s' !! n = None.

Lemma dropped_shrinks name s s' : dropped name s s' -> shrinks s s'.
Proof.
  intros [_ [Hn|Hn]] n; rewrite Hn; [by left|].
  destruct (decide (name = n)) as [->|]; [right; apply lookup_delete_eq | left; by rewrite lookup_delete_ne].
Qed.

(** An iteration on [a] removes the file [target a], if any, and no other. *)
Definition removes_at (target : option string) (r : option error * World * fileStore) (w : World) s : Prop :=
  wv r = w /\ fs_ok (sv r) /\ fs_frame s (sv r) /\ shrinks s (sv r) /\
  (forall n, target <> Some n -> nodes (sv r) !! n = nodes s !! n) /\
  (rv r = None -> forall n, target = Some n -> nodes (sv r) !! n = None).

Lemma forErr_removes {A} (body : A -> M fileStore (option error)) (target : A -> option string) :
  (forall a w s, fs_ok s -> removes_at (target a) (body a w s) w s) ->
  forall l w s err w' s', fs_ok s -> forErr body l w s = (err, w', s') ->
  w' = w /\ fs_ok s' /\ fs_frame s s' /\ shrinks s s' /\
  (forall n, (forall a, a ∈ l -> target a <> Some n) -> nodes s' !! n = nodes s !! n) /\
  (err = None -> forall a n, a ∈ l -> target a = Some n -> nodes s' !! n = None).
Proof.
  intros Hbody l. induction l as [|a l IH]; intros w s err w' s' Hs; cbn [forErr]; go_simpl.
  { intros [= <- <- <-]. split; [done|]. split; [done|]. split; [done|]. split; [by left|]. split; [done|].
    intros _ a n Ha. by apply elem_of_nil in Ha. }
  specialize (Hbody a w s Hs). destruct (body a w s) as [[e w1] s1] eqn:E1.
  destruct Hbody as (Hw1 & Hs1 & Hf1 & Hsh1 & Ho1 & Hr1). unfold wv, sv, rv in *. simpl in *. subst w1.
  assert (Hin : forall n, (forall b, b ∈ a :: l -> target b <> Some n) ->
    target a <> Some n /\ (forall b, b ∈ l -> target b <> Some n)).
  { intros n Hn. split; [apply Hn, elem_of_cons; by left | intros b Hb; apply Hn, elem_of_cons; by right]. }
  destruct e as [e|].
  { intros [= <- <- <-]. split; [done|]. split; [done|]. split; [done|]. split; [done|].
    split; [|done]. intros n [Ha _]%Hin. by apply Ho1. }
  intros E2. apply IH in E2 as (-> & Hs2 & Hf2 & Hsh2 & Ho2 & Hr2); [|done].
  split; [done|]. split; [done|]. split; [by eapply fs_frame_trans|]. split; [|split].
  - intros n. destruct (Hsh2 n) as [-> | ?]; [apply Hsh1 | by right].
  - intros n [Ha Hl]%Hin. rewrite Ho2 by done. by apply Ho1.
  - intros -> b n [->|Hb]%elem_of_cons Ht; [|by eapply Hr2].
    destruct (Hsh2 n) as [-> | ?]; [by apply Hr1 | done].
Qed.

(** A removal that ignores missing files, as [delete] and [Flush] do. *)
Lemma remove_ignoring name w s :
  fs_ok s ->
  removes_at (Some name) ((let* err := os (osRemove name) in
    match err with
    | Some e => if isNotExist e then ret None else ret (Some e)
    | None => ret None
    end)%go w s) w s.
Proof.
  intros Hs. go_simpl. destruct (os (osRemove name) w s) as [[err w1] s1] eqn:E.
  apply remove_dropped in E as (-> & Hd & Hn). pose proof (dropped_ok _ _ _ Hs Hd).
  assert (Ho : forall n, Some name <> Some n -> nodes s1 !! n = nodes s !! n).
  { intros n Hne. destruct Hd as [_ [-> | ->]]; [done|]. rewrite lookup_delete_ne; congruence. }
  pose proof (dropped_shrinks _ _ _ Hd). destruct Hd as [Hf _].
  destruct err as [e|]; [destruct (isNotExist e) eqn:Ee|]; (do 5 (split; [done|])); unfold rv; simpl; [|done|].
  - intros _ n [= <-]. destruct Hn as [-> Hn]. by apply Hn.
  - intros _ n [= <-]. by rewrite Hn, lookup_delete_eq.
Qed.

Lemma fs_deleteMany_spec ctx keys w s err w' s' :
  world_ok w -> fs_ok s -> fs_DeleteMany ctx keys w s = (err, w', s') ->
  later w w' /\ fs_ok s' /\ deleteMany_post fs_peek keys w s err w' s'.
Proof.
  intros Hw Hs E. apply (forErr_removes _ (fun key => Some (path key))) in E as (-> & Hs' & _ & _ & Ho & Hr);
    [|intros; by apply remove_ignoring|done].
  split; [by apply later_refl|]. split; [done|]. split.
  - intros k Hk t _. unfold fs_peek. rewrite Ho; [done|]. intros a Ha E. apply (inj Some) in E.
    by apply (apart_path k a); [apply Hk|].
  - destruct err as [e|]; [done|]. intros k Hk t _. unfold fs_peek. by erewrite Hr.
Qed.

(** The file [Flush] removes at a directory entry. *)
Definition flushTarget (entry : string * bool) : option string :=
  if entry.2 || negb (isFileStoreEntry entry.1) then None else Some entry.1.

Lemma flushEntry_removes entry w s : fs_ok s -> removes_at (flushTarget entry) (flushEntry entry w s) w s.
Proof.
  intros Hs. destruct entry as [name dir]. unfold flushEntry, flushTarget. simpl.
  destruct (dir || negb (isFileStoreEntry name)); [|by apply remove_ignoring].
  split; [done|]. split; [done|]. split; [done|]. split; [by left|]. by split.
Qed.

Lemma osReadDir_inv w d entries err w' d' :
  osReadDir w d = ((entries, err), w', d') ->
  w' = w /\ d' = called d /\
  match err with
  | None => NoDup (entries.*1) /\
            (forall name dir, (name, dir) ∈ entries <-> exists n, d_nodes d !! name = Some n /\ dir = isDir n)
  | Some e => entries = [] /\ (disk_ok d -> isNotExist e = true -> d_nodes d = ∅)
  end.
Proof.
  intros E. apply osCall_inv in E as [(e & [= -> ->] & -> & -> & He)|[Ho E]]; [done|].
  go_simpl_in E. injection E as <- <- <- <-. split; [done|]. split; [done|]. simpl.
  set (l := merge_sort name_le (map_to_list (d_nodes d))).
  assert (Hp : l ≡ₚ map_to_list (d_nodes d)) by apply merge_sort_Permutation.
  split.
  - rewrite <- list_fmap_compose. simpl. change (NoDup (l.*1)). rewrite Hp. apply NoDup_fst_map_to_list.
  - intros name dir. rewrite list_elem_of_fmap. setoid_rewrite Hp. split.
    + intros ([n' nd] & [= -> ->] & Hin). apply elem_of_map_to_list in Hin. eauto.
    + intros (nd & Hnd & ->). exists (name, nd). split; [done|]. by apply elem_of_map_to_list.
Qed.

(** What [Flush] does to the directory. *)
Lemma fs_flush_nodes ctx w s err w' s' :
  fs_ok s -> fs_Flush ctx w s = (err, w', s') ->
  w' = w /\ fs_ok s' /\ fs_frame s s' /\ shrinks s s' /\
  (forall n nd, isFileStoreEntry n = false \/ nodes s !! n = Some (DirNode nd) -> nodes s' !! n = nodes s !! n) /\
  (err = None -> forall n b, isFileStoreEntry n = true -> nodes s' !! n <> Some (FileNode b)).
Proof.
  intros Hs. unfold fs_Flush. go_simpl. destruct (os osReadDir w s) as [[[entries e] w1] s1] eqn:E1.
  apply os_inv in E1 as (d1 & E1 & ->). apply osReadDir_inv in E1 as (-> & -> & Hd).
  set (s1 := mkFileStore _ _ (called _)).
  assert (Hs1 : fs_ok s1) by exact Hs.
  destruct e as [e|].
  { destruct Hd as [_ Hd]. destruct (isNotExist e) eqn:Ee; intros [= <- <- <-]; (do 3 (split; [done|]));
      (split; [by left|]); (split; [done|]); [|done].
    intros _ n b _. change (nodes s1) with (d_nodes (fs_disk s)). rewrite Hd, lookup_empty; [done| |done].
    by destruct Hs. }
  destruct Hd as [_ Hd]. intros E2.
  apply (forErr_removes _ flushTarget) in E2 as (-> & Hs' & Hf & Hsh & Ho & Hr);
    [|intros; by apply flushEntry_removes|done].
  split; [done|]. split; [done|]. split; [done|]. split; [done|]. split.
  - intros n nd Hn. rewrite Ho; [done|]. intros [name dir] Hin. unfold flushTarget. simpl.
    destruct (dir || negb (isFileStoreEntry name)) eqn:Eb; [done|]. intros [= ->].
    apply orb_false_iff in Eb as [-> Eb]. apply Hd in Hin as (nd' & Hnd & Hdir).
    destruct Hn as [Hn|Hn]; [by rewrite Hn in Eb|]. fold (nodes s) in Hnd. rewrite Hn in Hnd. by injection Hnd as <-.
  - intros -> n b Hn Hb. assert (nodes s !! n = Some (FileNode b)) as Hb0.
    { destruct (Hsh n) as [E|E]; rewrite Hb in E; [by rewrite E | done]. }
    rewrite (Hr eq_refl (n, false) n) in Hb; [done| |].
    + apply Hd. by exists (FileNode b).
    + unfold flushTarget. simpl. by rewrite Hn.
Qed.

Lemma path_entry key : isFileStoreEntry (path key) = true.
Proof. pose proof (path_recognised key) as E. unfold isFileStoreRecord in E. by apply andb_true_iff in E as [_ ?]. Qed.

Lemma fs_flush_spec ctx w s err w' s' :
  world_ok w -> fs_ok s -> fs_Flush ctx w s = (err, w', s') ->
  later w w' /\ fs_ok s' /\ flush_post fs_peek err w' s'.
Proof.
  intros Hw Hs E. apply fs_flush_nodes in E as (-> & Hs' & _ & _ & _ & Hr); [|done].
  split; [by apply later_refl|]. split; [done|]. destruct err as [e|]; [done|]. intros k t _. unfold fs_peek.
  destruct (nodes s' !! path k) as [[b|?]|] eqn:En; [|done..]. exfalso. by eapply Hr, En; [|apply path_entry].
Qed.

#[export] Instance fileStore_contract : StoreContract fileStore := {|
  sc_ok := fs_ok;
  sc_peek := fs_peek;
  sc_occupied := fs_occupied;
  sc_grain := 0;
  sc_grain_nonneg := Z.le_refl 0;
  sc_peek_occupied := fs_peek_occupied;
  sc_get := fun ctx k w s r w' s' Hw Hs E =>
    let '(conj Hl (conj Hs' (conj _ Hp))) := fs_get_spec k w s r w' s' Hw Hs E in conj Hl (conj Hs' Hp);
  sc_set := fun ctx => fs_set_spec;
  sc_add := fs_add_spec;
  sc_delete := fun ctx => fs_delete_spec;
  sc_deleteMany := fs_deleteMany_spec;
  sc_flush := fs_flush_spec
|}.

#[export] Instance fileStore_locks : LockContract fileStore := {|
  lc_ops := fs_lock_ops;
  lc_ok := fs_ok;
  lc_lockStore := fun _ _ => eq_refl;
  lc_peek := fs_peek;
  lc_occupied := fs_occupied;
  lc_peek_occupied := fs_peek_occupied;
  lc_grain := 0;
  lc_acquire := fs_add_spec;
  lc_release := fs_release_spec
|}.

#[export] Instance fileStore_counters : CounterContract fileStore := {|
  cc_ok := fs_ok;
  cc_peek := fs_peek;
  cc_grain := 0;
  cc_increment := fs_increment_spec;
  cc_decrement := fs_decrement_spec
|}.
End Operations.

(** ** Listing *)

Section Listing.
Context `{FileJSON}.
Implicit Types s : fileStore.

(** The file [name] holds a record of [k] that expires at [x]. *)
Definition holdsRecord s (name k : string) (x : Z) (v : bytes) : Prop :=
  exists data, nodes s !! name = Some (FileNode data) /\ decodeFileRecord data = (k, x, v, None).

(** The clock test of [ListPage]: strictly before the expiry. *)
Definition listable (x t : Z) : Prop := x <= 0 \/ t < x.

(** Entry [e] describes the record in [name]. *)
Definition describes s (name : string) (w w' : World) (e : CacheEntry) : Prop :=
  exists x v t, holdsRecord s name (Key e) x v /\ SizeBytes e = len v /\
    now w <= t <= now w' /\ listable x t.

Lemma listEntry_spec name dir w s r w' s' :
  world_ok w -> fs_ok s -> listEntry (name, dir) w s = (r, w', s') ->
  later w w' /\ fs_ok s' /\ dropped name s s' /\
  match r with
  | inl (Some e) => dir = false /\ isFileStoreRecord name = true /\ Key e <> EmptyString /\ describes s name w w' e
  | inl None => dir = false -> isFileStoreRecord name = true ->
      forall k x v, holdsRecord s name k x v -> k <> EmptyString -> ~ listable x (now w')
  | inr _ => True
  end.
Proof.
  intros Hw Hs. unfold listEntry. pose proof (later_refl w Hw) as Hl.
  assert (Hsame : dropped name s s) by (split; [done | by left]).
  destruct (dir || negb (isFileStoreRecord name)) eqn:Eb.
  { intros [= <- <- <-]. do 3 (split; [done|]). intros -> Hr. by rewrite Hr in Eb. }
  apply orb_false_iff in Eb as [-> Hr]. apply negb_false_iff in Hr. go_simpl.
  destruct (os (osReadFile name) w s) as [[[data err] w1] s1] eqn:E1.
  apply os_inv in E1 as (d1 & E1 & ->). apply osReadFile_inv in E1 as (-> & -> & Hn).
  set (s1 := mkFileStore _ _ (called _)). assert (Hs1 : fs_ok s1) by exact Hs.
  assert (Hd1 : dropped name s s1) by (split; [done | by left]).
  destruct err as [e|].
  { destruct Hn as [-> Hn]. destruct (isNotExist e) eqn:Ee; intros [= <- <- <-]; do 3 (split; [done|]); [|done].
    intros _ _ k x v (data & Hd & _). unfold nodes in Hd. rewrite Hn in Hd; [done | by destruct Hs | done]. }
  fold (nodes s) in Hn.
  assert (Hone : forall k x v, holdsRecord s name k x v -> decodeFileRecord data = (k, x, v, None)).
  { intros k x v (data' & Hd & E). rewrite Hn in Hd. by injection Hd as ->. }
  destruct (decodeFileRecord data) as [[[k x] v] [e|]] eqn:Ed.
  { intros [= <- <- <-]. do 3 (split; [done|]). intros _ _ k' x' v' Hh. by apply Hone in Hh. }
  destruct (decide (k = EmptyString)) as [->|Hk].
  { intros [= <- <- <-]. do 3 (split; [done|]). intros _ _ k' x' v' Hh. apply Hone in Hh. congruence. }
  assert (Hh : holdsRecord s name k x v) by by exists data.
  destruct (Z.gtb_spec x 0) as [Hx|Hx].
  2: { intros [= <- <- <-]. do 3 (split; [done|]). split; [done|]. split; [done|]. split; [done|].
       exists x, v, (now w). split; [done|]. split; [done|]. split; [lia | by left]. }
  pose proof (later_tick w Hw) as Hlt. pose proof (later_now _ _ Hlt). rewrite UnixNano_now by done.
  destruct (Z.geb_spec (now w) x).
  - destruct (os (osRemove name) _ s1) as [[r2 w2] s2] eqn:E2. apply remove_dropped in E2 as (-> & Hd & _).
    intros [= <- <- <-]. split; [done|]. split; [by eapply dropped_ok|]. split; [done|].
    intros _ _ k' x' v' Hh'. apply Hone in Hh'. unfold listable. injection Hh' as <- <- <-. lia.
  - intros [= <- <- <-]. do 3 (split; [done|]). split; [done|]. split; [done|]. split; [done|].
    exists x, v, (now w). split; [done|]. split; [done|]. split; [lia | right; lia].
Qed.

Lemma dropped_other name s s' n : dropped name s s' -> n <> name -> nodes s' !! n = nodes s !! n.
Proof. intros [_ [-> | ->]] Hn; [done|]. by rewrite lookup_delete_ne. Qed.

(** Records that carry a key are filed under that key. *)
Definition named s : Prop := forall name k x v,
  isFileStoreRecord name = true -> holdsRecord s name k x v -> k <> EmptyString -> name = path k.

Lemma named_shrinks s s' : shrinks s s' -> named s -> named s'.
Proof.
  intros Hsh Hn name k x v Hrec (data & Hd & E) Hk. destruct (Hsh name) as [Eq|Eq]; rewrite Hd in Eq; [|done].
  eapply Hn; [done| |done]. by exists data.
Qed.

Lemma listEntries_spec l acc w s entries w' s' :
  world_ok w -> fs_ok s -> NoDup (l.*1) -> listEntries l acc w s = (inl entries, w', s') ->
  later w w' /\ fs_ok s' /\ exists new, entries = acc ++ new /\
  (forall e, e ∈ new -> exists name, (name, false) ∈ l /\ isFileStoreRecord name = true /\
     Key e <> EmptyString /\ describes s name w w' e) /\
  (forall name k x v, (name, false) ∈ l -> isFileStoreRecord name = true -> holdsRecord s name k x v ->
     k <> EmptyString -> listable x (now w') -> k ∈ Key <$> new) /\
  (named s -> NoDup (Key <$> new)).
Proof.
  revert acc w s. induction l as [|[name dir] l IH]; intros acc w s Hw Hs Hd; cbn [listEntries]; go_simpl.
  { intros [= <- <- <-]. split; [by apply later_refl|]. split; [done|]. exists []. rewrite app_nil_r.
    split; [done|]. split; [|split; [|intros _; constructor]].
    - intros e He. by apply elem_of_nil in He.
    - intros name k x v Hin. by apply elem_of_nil in Hin. }
  apply list.NoDup_cons in Hd as [Hnew Hd]. destruct (listEntry (name, dir) w s) as [[r w1] s1] eqn:E1.
  apply listEntry_spec in E1 as (Hl1 & Hs1 & Hdr & Hr); [|done..].
  assert (Hother : forall n k x v, n ∈ l.*1 -> holdsRecord s1 n k x v <-> holdsRecord s n k x v).
  { intros n k x v Hin. unfold holdsRecord. rewrite (dropped_other name s s1); [done|done|]. by intros ->. }
  assert (Hin1 : forall n b, (n, b) ∈ l -> n ∈ l.*1).
  { intros n b Hin. by apply (list_elem_of_fmap_2 fst) in Hin. }
  destruct r as [oe|e]; [|done]. intros E2.
  assert (Hrest : exists acc', listEntries l acc' w1 s1 = (inl entries, w', s') /\
    acc' = acc ++ match oe with Some e => [e] | None => [] end).
  { destruct oe; eexists; split; [exact E2|done|exact E2|by rewrite app_nil_r]. }
  clear E2. destruct Hrest as (acc' & E2 & ->).
  apply IH in E2 as (Hl2 & Hs2 & new & -> & Hsound & Hcomplete & Hnodup); [|by eauto with go|done..].
  pose proof (later_now _ _ Hl1). pose proof (later_now _ _ Hl2).
  split; [by eapply later_trans|]. split; [done|].
  exists (match oe with Some e => [e] | None => [] end ++ new). split; [by rewrite app_assoc|]. split; [|split].
  - intros e [He|He]%elem_of_app.
    + destruct oe as [e'|]; [|by apply elem_of_nil in He]. apply list_elem_of_singleton in He as ->.
      destruct Hr as (-> & Hrec & Hk & x & v & t & Hdesc). exists name. split; [apply elem_of_cons; by left|].
      split; [done|]. split; [done|]. exists x, v, t. destruct Hdesc as (? & ? & ? & ?). repeat split; (done || lia).
    + destruct (Hsound e He) as (n & Hin & Hrec & Hk & x & v & t & Hh & Hsz & Ht & Hlive). exists n.
      split; [apply elem_of_cons; by right|]. split; [done|]. split; [done|]. exists x, v, t.
      split; [by eapply Hother; [eapply Hin1|]|]. split; [done|]. split; [lia | done].
  - intros n k x v [[= -> <-]|Hin]%elem_of_cons Hrec Hh Hk Hlive; rewrite fmap_app, elem_of_app.
    + left. destruct oe as [e|].
      * destruct Hr as (_ & _ & _ & x' & v' & t & (data & Hn & Ed) & _).
        destruct Hh as (data' & Hn' & Ed'). rewrite Hn in Hn'. injection Hn' as <-. rewrite Ed in Ed'.
        injection Ed' as <- _ _. apply elem_of_cons. by left.
      * exfalso. eapply (Hr eq_refl Hrec); [done|done|]. unfold listable in *. lia.
    + right. eapply Hcomplete; [done|done| |done|done]. by eapply Hother; [eapply Hin1|].
  - intros Hnm. specialize (Hnodup (named_shrinks _ _ (dropped_shrinks _ _ _ Hdr) Hnm)).
    destruct oe as [e|]; [|done]. destruct Hr as (_ & Hrec & Hk & x & v & t & Hh & _). simpl.
    apply list.NoDup_cons. split; [|done]. intros (e' & Ek & He')%list_elem_of_fmap.
    destruct (Hsound e' He') as (n & Hin & Hrec' & Hk' & x' & v' & t' & Hh' & _).
    apply Hother in Hh'; [|by eapply Hin1]. rewrite <- Ek in Hh', Hk'.
    apply Hnew. rewrite (Hnm _ _ _ _ Hrec Hh Hk), <- (Hnm _ _ _ _ Hrec' Hh' Hk'). by eapply Hin1.
Qed.
End Listing.

(** ** What a user of the file store may rely on *)

Section Guarantees.
Context `{FileJSON}.
Implicit Types s : fileStore.

(** The record written by [set] decodes to the key, the expiry and the value
    it was made from, for every value, every [int64] expiry and every key whose
    length fits its 32-bit field; a record of the previous binary format still
    decodes, to the same value and expiry without a key. *)
Theorem fileRecord_roundtrip key expiresAt value :
  in_int64 expiresAt -> slen key < 4294967296 ->
  decodeFileRecord (recordHeader key expiresAt ++ value) = (key, expiresAt, value, None) /\
  decodeFileRecord (fileRecordMagic ++ PutUint64 expiresAt ++ value) = (EmptyString, expiresAt, value, None).
Proof.
  intros He Hk. split; [by apply decode_record|]. unfold decodeFileRecord.
  set (data := fileRecordMagic ++ _).
  assert (Hlen : len data = 12 + len value).
  { unfold data, len, PutUint64. rewrite !length_app, bePut_length. simpl. lia. }
  assert (Ht4 : take 4 data = fileRecordMagic) by done.
  assert (Hd4 : drop 4 data = PutUint64 expiresAt ++ value) by done.
  rewrite Ht4, (bool_decide_eq_false_2 (_ = fileRecordMagicV2)), andb_false_r by done.
  rewrite Hlen, bool_decide_eq_true_2 by done. assert (0 <= len value) by (unfold len; lia).
  destruct (Z.leb_spec 12 (12 + len value)); [|lia]. cbn [andb].
  rewrite Hd4, take_app_length', Uint64_PutUint64, wrap64_wrapu64, wrap64_id by done.
  change 12%nat with (4 + 8)%nat. rewrite <- drop_drop, Hd4. by rewrite drop_app_length'.
Qed.

(** The same store on a machine that fails every system call from the [n]-th
    on: a process that dies there leaves the directory this machine leaves. *)
Definition crashing (n : nat) s : fileStore :=
  let d := fs_disk s in
  mkFileStore (fs_dir s) (fs_defaultTTL s)
    (mkDisk (d_state d) (d_nodes d)
       (fun i => if (i <? n)%nat then d_faults d i else Some (ErrorString "crash", O))
       (d_names d) (d_calls d)).

(** C5: a [set] is atomic.  Whatever system calls fail on the way, and at
    whatever call the process dies, either the whole new record is in place under
    the key's name, every other file of the directory is as before and success
    is reported; or an error is reported (if anyone is left to report it) and
    every reader of every key, at every instant, finds what it would have found
    without the write.  (The process dies, not the machine: see [osFlushFile].) *)
Theorem fs_set_atomic n key value ttl w s err w' s' :
  fs_set key value ttl w (crashing n s) = (err, w', s') ->
  match err with
  | None => nodes s' = <[path key := FileNode (recordHeader key (expiryAt s w ttl) ++ value)]> (nodes s)
  | Some _ => forall k t, fs_peek s' t k = fs_peek s t k
  end.
Proof.
  intros E. apply fs_set_nodes in E as (_ & _ & _ & Hn). destruct err as [e|]; [|done].
  intros k t. unfold fs_peek. by rewrite Hn by apply path_not_tmp.
Qed.


(** Opening a store keeps the files of the directory. *)
Lemma newFileStore_spec tempDir disks dir defaultTTL w s2 w' :
  dir <> EmptyString -> defaultTTL < horizon -> disk_ok (disks dir) ->
  newFileStore tempDir disks dir defaultTTL w tt = (s2, w', tt) ->
  w' = w /\ fs_ok s2 /\ nodes s2 = d_nodes (disks dir).
Proof.
  intros Hdir Ht [Hst Hf]. unfold newFileStore. rewrite decide_False by done.
  assert (Hok : ttl_ok (if defaultTTL <=? 0 then defaultCacheTTL else defaultTTL)).
  { unfold ttl_ok. destruct (Z.leb_spec defaultTTL 0); [done | lia]. }
  unfold osMkdirAll, osFault. go_simpl. destruct (d_faults _ _) as [[e i]|]; simpl.
  { by intros [= <- <-]. }
  destruct (d_state (disks dir)) eqn:Eo; intros [= <- <-]; (split; [done|]); (split; [|done]); (split; [done|]);
    (split; [|done]); simpl; rewrite ?Eo; (by left) || done.
Qed.

Lemma SliceEntries_nil offset limit : SliceEntries [] offset limit = emptyListPageResult.
Proof.
  unfold SliceEntries. change (len (@nil CacheEntry)) with 0. pose proof (NormalizeListLimit_range limit).
  rewrite drop_nil, take_nil.
  destruct (Z.ltb_spec offset 0); destruct (Z.gtb_spec (if offset <? 0 then 0 else offset) 0);
    destruct (Z.gtb_spec (offset + NormalizeListLimit limit) 0);
    repeat match goal with |- context [if ?b then _ else _] => destruct b eqn:? end; try done; lia.
Qed.


(** [ListPage] lists the directory: each entry is a readable record of its
    key, with the size of its value, that had not expired at an instant of the
    call, no key is listed twice, and every key whose record carries the key and
    outlives the call is listed; the page is the requested slice of the sorted,
    filtered entries. *)
Theorem fs_ListPage_snapshot ctx opts w s page w' s' :
  world_ok w -> fs_ok s -> named s -> fs_ListPage ctx opts w s = ((page, None), w', s') ->
  exists entries,
    NoDup (Key <$> entries) /\
    (forall e, e ∈ entries -> exists t v, now w <= t <= now w' /\
       fs_peek s t (Key e) = Some v /\ SizeBytes e = len v) /\
    (forall k x v, holdsRecord s (path k) k x v -> k <> EmptyString -> listable x (now w') ->
       k ∈ Key <$> entries) /\
    page = match DecodeOffsetCursor (opt_Cursor opts) with
           | (offset, None) => SliceEntries (FilterAndSortEntries entries (ListFilterTerm opts)) offset (opt_Limit opts)
           | (_, Some _) => emptyListPageResult
           end.
Proof.
  intros Hw Hs Hnm. unfold fs_ListPage. go_simpl. destruct (os osReadDir w s) as [[[l e] w1] s1] eqn:E1.
  apply os_inv in E1 as (d1 & E1 & ->). apply osReadDir_inv in E1 as (-> & -> & Hd).
  set (s1 := mkFileStore _ _ (called _)). destruct e as [e|].
  { destruct Hd as [_ Hd]. destruct (isNotExist e) eqn:Ee; [|done]. intros [= <- <- <-]. exists [].
    split; [constructor|]. split; [intros e' He'; by apply elem_of_nil in He'|]. split.
    - intros k x v (data & Hdt & _). unfold nodes in Hdt. rewrite Hd, lookup_empty in Hdt; [done| |done]. by destruct Hs.
    - destruct (DecodeOffsetCursor _) as [o [?|]]; [done|]. by rewrite SliceEntries_nil. }
  destruct Hd as [Hnd Hd]. destruct (listEntries l [] w s1) as [[[entries|e] w2] s2] eqn:E2; [|done].
  apply listEntries_spec in E2 as (_ & _ & new & -> & Hsound & Hcomplete & Hnodup); [|done..].
  change (holdsRecord s1) with (holdsRecord s) in Hcomplete. simpl. intros E. exists new.
  split; [by apply Hnodup|]. split; [|split].
  - intros e He. destruct (Hsound e He) as (name & Hin & Hrec & Hk & x & v & t & Hh & Hsz & Ht & Hlive).
    assert (w2 = w') as -> by (by unfold pageOf in E; destruct (DecodeOffsetCursor _) as [? []]; injection E).
    change (holdsRecord s name (Key e) x v) in Hh. pose proof (Hnm _ _ _ _ Hrec Hh Hk) as ->.
    exists t, v. split; [done|]. split; [|done]. destruct Hh as (data & Hdt & Ed). unfold fs_peek. rewrite Hdt.
    cbn [readNode]. rewrite Ed. unfold live, listable in *.
    destruct (Z.gtb_spec x 0), (Z.gtb_spec t x); done || lia.
  - intros k x v Hh Hk Hlive. pose proof Hh as (data & Hdt & _).
    assert (w2 = w') as -> by (by unfold pageOf in E; destruct (DecodeOffsetCursor _) as [? []]; injection E).
    eapply Hcomplete; [|apply path_recognised|done|done|done]. apply Hd. by exists (FileNode data).
  - unfold pageOf in E. destruct (DecodeOffsetCursor _) as [? []]; by injection E as <- _ _.
Qed.
End Guarantees.

(** ** Witnesses *)

Module FileRuns.
#[export] Instance noJSON : FileJSON := fun _ => inr (ErrorString "invalid character").

Definition disk0 : Disk :=
  mkDisk DirOpen {["README" := FileNode []]} (fun _ => None) (fun i => FormatInt (Z.of_nat i)) 0.
Definition store0 : fileStore := mkFileStore "/var/cache" Minute disk0.

Definition value : bytes := bytes_of_string "Ada".
Definition set1 := fs_Set Background "user:1" value Minute world_example store0.
Definition crash1 := fs_set "user:1" value Minute world_example (crashing 4 store0).
Definition flush1 := fs_Flush Background (wv set1) (sv set1).

(** Another process opens the directory. *)
Definition disks1 (_ : string) : Disk := fs_disk (sv set1).
Definition reopened := newFileStore "/tmp" disks1 "/var/cache" 0 (wv set1) tt.
Definition get1 := fs_Get Background "user:1" (wv reopened) (rv reopened).

Definition list1 := fs_ListPage Background (mkListPageOptions EmptyString EmptyString EmptyString 10) (wv set1) (sv set1).

(** A clock that stands still at the instant the value expires. *)
Definition stopped : World := mkWorld (fun _ => 1000000 + Minute) 0 (w_rand world_example) (fun _ => true) 0.
Definition list2 := fs_ListPage Background (mkListPageOptions EmptyString EmptyString EmptyString 10) stopped (sv set1).
End FileRuns.
#[local] Existing Instance FileRuns.noJSON.

Lemma run_eta_unit {A} (x : A * World * unit) : x = (rv x, wv x, tt).
Proof. by destruct x as [[? ?] []]. Qed.

Lemma store0_ok : fs_ok FileRuns.store0.
Proof. split; [split; reflexivity|]. split; [by left | done]. Qed.

Lemma fileRecord_roundtrip_witness :
  decodeFileRecord (recordHeader "user:1" 5 ++ FileRuns.value) = ("user:1", 5, FileRuns.value, None).
Proof.
  refine (proj1 (fileRecord_roundtrip "user:1" 5 FileRuns.value _ _)).
  - split; discriminate.
  - reflexivity.
Defined.

(** The process dies before the rename. *)
Lemma fs_set_atomic_witness :
  rv FileRuns.crash1 = Some (ErrorString "crash") /\
  forall k t, fs_peek (sv FileRuns.crash1) t k = fs_peek FileRuns.store0 t k.
Proof.
  split; [vm_compute; reflexivity|].
  refine (fs_set_atomic 4 "user:1" FileRuns.value Minute world_example FileRuns.store0
    (Some (ErrorString "crash")) (wv FileRuns.crash1) (sv FileRuns.crash1) (run_eta FileRuns.crash1 _ _)).
  vm_compute; reflexivity.
Defined.

Lemma set1_ok : rv FileRuns.set1 = None /\ fs_ok (sv FileRuns.set1).
Proof.
  assert (E : rv FileRuns.set1 = None) by (vm_compute; reflexivity). split; [exact E|].
  apply (fs_set_spec "user:1" FileRuns.value Minute world_example FileRuns.store0 None (wv FileRuns.set1) (sv FileRuns.set1));
    [exact world_example_ok | exact store0_ok | split; reflexivity | exact (run_eta FileRuns.set1 None E)].
Qed.



Lemma set1_named : named (sv FileRuns.set1).
Proof.
  intros name k x v Hrec (data & Hn & Ed) Hk.
  destruct (fs_set_nodes "user:1" FileRuns.value Minute world_example FileRuns.store0 None
    (wv FileRuns.set1) (sv FileRuns.set1) (run_eta FileRuns.set1 None (proj1 set1_ok))) as (_ & _ & _ & Hs).
  rewrite Hs in Hn. apply lookup_insert_Some in Hn as [[<- Hn]|[_ Hn]].
  - assert (data = recordBytes "user:1" (expiryAt FileRuns.store0 world_example Minute) FileRuns.value) as -> by congruence.
    rewrite decode_record in Ed; [|by split|done]. congruence.
  - change (nodes FileRuns.store0) with ({["README" := FileNode []]} : gmap string node) in Hn.
    apply lookup_singleton_Some in Hn as [<- _]. clear -Hrec. vm_compute in Hrec. discriminate.
Qed.

Lemma fs_ListPage_snapshot_witness :
  Key <$> Entries (rv FileRuns.list1).1 = ["user:1"] /\
  exists entries,
    NoDup (Key <$> entries) /\
    (forall e, e ∈ entries -> exists t v,
       now (wv FileRuns.set1) <= t <= now (wv FileRuns.list1) /\
       fs_peek (sv FileRuns.set1) t (Key e) = Some v /\ SizeBytes e = len v).
Proof.
  split; [vm_compute; reflexivity|].
  destruct (fs_ListPage_snapshot Background (mkListPageOptions EmptyString EmptyString EmptyString 10)
    (wv FileRuns.set1) (sv FileRuns.set1) (rv FileRuns.list1).1 (wv FileRuns.list1) (sv FileRuns.list1)
    world_example_ok (proj2 set1_ok) set1_named) as (entries & Hd & Hs & _).
  - apply (run_eta FileRuns.list1). vm_compute; reflexivity.
  - exists entries. split; [exact Hd | exact Hs].
Defined.

(** At the instant of its expiry a record is still served by [Get], whose
    test is [now > expiry], but a [ListPage] at that instant, whose test is
    [now >= expiry], omits it and deletes its file, so that the same [Get]
    after it misses. *)
Theorem fs_ListPage_removes_live :
  rv (fs_Get Background "user:1" FileRuns.stopped (sv FileRuns.set1)) = (FileRuns.value, true, None) /\
  rv FileRuns.list2 = (emptyListPageResult, None) /\
  now (wv FileRuns.list2) = now FileRuns.stopped /\
  rv (fs_Get Background "user:1" (wv FileRuns.list2) (sv FileRuns.list2)) = ([], false, None).
Proof. vm_compute. repeat split; reflexivity. Qed.
