(* ===== verification/Backends.v ===== *)
(** * store_null.go, error_store.go, config.go, factory.go: construction

    The store that forgets, the store that only reports why it could not be
    built, and the factory that chooses a backend, normalises its configuration
    and wraps it.  A Go value of interface type [Store] is one of several
    concrete types: [sum_Store] is the method dispatch on a sum of two, and keeps
    the contracts both sides keep. *)

From S2P Require Import Prelude GoStd CacheCore Transport Shaping Wrapping MemoryStore FileStore FileLaws.

(** ** Values of interface type *)

Section Sum.
Context {A B : Type} `{Store A} `{Store B}.

(** Calling a method on the dynamic value. *)
Definition callSum {R} (op : forall T, Store T -> M T R) : M (A + B) R :=
  fun w x =>
    match x with
    | inl a => let '(r, w', a') := op A _ w a in (r, w', inl a')
    | inr b => let '(r, w', b') := op B _ w b in (r, w', inr b')
    end.

Definition caseSum {R} (f : forall T, Store T -> T -> R) (x : A + B) : R :=
  match x with inl a => f A _ a | inr b => f B _ b end.

Definition sum_lock_ops : LockStore (A + B) :=
  let call (m : forall T, LockStore T -> M T (bool * option error)) :=
    callSum (fun T (_ : Store T) => fun w s =>
      match Store_lockStore s with Some l => m T l w s | None => ((false, None), w, s) end) in
  mkLockStore _
    (fun ctx key owner ttl => call (fun T l => LockAcquire l ctx key owner ttl))
    (fun ctx key owner => call (fun T l => LockRelease l ctx key owner)).

Definition sum_lockStore (x : A + B) : option (LockStore (A + B)) :=
  if caseSum (fun T _ s => match Store_lockStore s with Some _ => true | None => false end) x
  then Some sum_lock_ops else None.

Definition sum_Inspector (x : A + B) : option (Inspector (A + B)) :=
  if caseSum (fun T _ s => match Store_Inspector s with Some _ => true | None => false end) x then
    Some (mkInspector _
      (caseSum (fun T _ s =>
         match Store_Inspector s with Some i => Capabilities i s | None => noCapabilities end))
      (fun ctx opts => callSum (fun T _ => fun w s =>
         match Store_Inspector s with
         | Some i => ListPage i ctx opts w s
         | None => ((emptyListPageResult, Some ErrInspectorUnsupported), w, s)
         end)))
  else None.

#[export] Instance sum_Store : Store (A + B) := {|
  Store_Driver := caseSum (fun T _ s => Store_Driver s);
  Store_Ready := fun ctx => callSum (fun T _ => Store_Ready ctx);
  Store_Get := fun ctx k => callSum (fun T _ => Store_Get ctx k);
  Store_Set := fun ctx k v ttl => callSum (fun T _ => Store_Set ctx k v ttl);
  Store_Add := fun ctx k v ttl => callSum (fun T _ => Store_Add ctx k v ttl);
  Store_Increment := fun ctx k d ttl => callSum (fun T _ => Store_Increment ctx k d ttl);
  Store_Decrement := fun ctx k d ttl => callSum (fun T _ => Store_Decrement ctx k d ttl);
  Store_Delete := fun ctx k => callSum (fun T _ => Store_Delete ctx k);
  Store_DeleteMany := fun ctx ks => callSum (fun T _ => Store_DeleteMany ctx ks);
  Store_Flush := fun ctx => callSum (fun T _ => Store_Flush ctx);
  Store_lockStore := sum_lockStore;
  Store_Inspector := sum_Inspector
|}.
End Sum.

(** ** nullStore *)

Record nullStore := mkNullStore {}.

Definition newNullStore : nullStore := mkNullStore.

Definition null_lock_ops : LockStore nullStore :=
  mkLockStore _ (fun _ _ _ _ => ret (true, None)) (fun _ _ _ => ret (true, None)).

#[export] Instance nullStore_Store : Store nullStore := {|
  Store_Driver := fun _ => DriverNull;
  Store_Ready := fun _ => ret None;
  Store_Get := fun _ _ => ret ([], false, None);
  Store_Set := fun _ _ _ _ => ret None;
  Store_Add := fun _ _ _ _ => ret (true, None);
  Store_Increment := fun _ _ _ _ => ret (0, None);
  Store_Decrement := fun _ _ _ _ => ret (0, None);
  Store_Delete := fun _ _ => ret None;
  Store_DeleteMany := fun _ _ => ret None;
  Store_Flush := fun _ => ret None;
  Store_lockStore := fun _ => Some null_lock_ops;
  Store_Inspector := fun _ => None
|}.

(** ** errorStore *)

Record errorStore := mkErrorStore { err_driver : string; err_err : error }.

Definition err_fail {A} (zero : A) : M errorStore (A * option error) := fun w s => ((zero, Some (err_err s)), w, s).
Definition err_only : M errorStore (option error) := fun w s => (Some (err_err s), w, s).
Definition err_Increment (_ : Context) (_ : string) (_ _ : Z) : M errorStore (Z * option error) := err_fail 0.

#[export] Instance errorStore_Store : Store errorStore := {|
  Store_Driver := err_driver;
  Store_Ready := fun _ => err_only;
  Store_Get := fun _ _ => err_fail ([], false);
  Store_Set := fun _ _ _ _ => err_only;
  Store_Add := fun _ _ _ _ => err_fail false;
  Store_Increment := err_Increment;
  Store_Decrement := fun ctx key delta ttl => err_Increment ctx key (wrap64 (- delta)) ttl;
  Store_Delete := fun _ _ => err_only;
  Store_DeleteMany := fun _ _ => err_only;
  Store_Flush := fun _ => err_only;
  Store_lockStore := fun _ =>
    Some (mkLockStore _ (fun _ _ _ _ => err_fail false) (fun _ _ _ => err_fail false));
  Store_Inspector := fun _ => None
|}.

(** ** Configuration *)

Definition defaultCachePrefix : string := "app".

Record StoreConfig := mkStoreConfig {
  cfg_base : BaseConfig;
  MemoryCleanupInterval : Z;
  FileDir : string
}.

(** [StoreConfig{}] *)
Definition zeroConfig : StoreConfig := mkStoreConfig (mkBaseConfig 0 EmptyString EmptyString 0 []) 0 EmptyString.

(** What the process finds around it: the temporary directory and what each
    path names. *)
Record Environment := mkEnvironment { env_tempDir : string; env_disks : string -> Disk }.

Definition withDefaults (env : Environment) (c : StoreConfig) : StoreConfig :=
  let b := cfg_base c in
  let b := if DefaultTTL b <=? 0
           then mkBaseConfig defaultCacheTTL (Prefix b) (Compression b) (MaxValueBytes b) (EncryptionKey b) else b in
  let interval := if MemoryCleanupInterval c <=? 0 then defaultMemoryCleanupInterval else MemoryCleanupInterval c in
  let b := if decide (Prefix b = EmptyString)
           then mkBaseConfig (DefaultTTL b) defaultCachePrefix (Compression b) (MaxValueBytes b) (EncryptionKey b) else b in
  let dir := if decide (FileDir c = EmptyString) then defaultFileDir (env_tempDir env) else FileDir c in
  let b := if decide (Compression b = EmptyString)
           then mkBaseConfig (DefaultTTL b) (Prefix b) CompressionNone (MaxValueBytes b) (EncryptionKey b) else b in
  mkStoreConfig b interval dir.

(** ** The factory *)

Section Factory.
Context {G : Type} `{GoCache G} `{FileJSON} `{Crypto} `{Gzip}.

(** The backends of the root package, and what the factory returns. *)
Definition rootStore : Type := nullStore + (fileStore + memoryStore G).
Definition builtStore : Type := wrappedStore rootStore + errorStore.

(** The [errorStore] for a driver of another module. *)
Definition removed_driver (driver : string) : option string :=
  if decide (driver = DriverMemcached) then
    Some "root memcached driver removed; use github.com/goforj/cache/driver/memcachedcache"
  else if decide (driver = DriverDynamo) then
    Some "root dynamo driver removed; use github.com/goforj/cache/driver/dynamocache"
  else if decide (driver = DriverSQL) then
    Some "root sql driver removed; use github.com/goforj/cache/driver/sqlitecache, /driver/postgrescache, or /driver/mysqlcache"
  else if decide (driver = DriverRedis) then
    Some "root redis driver removed; use github.com/goforj/cache/driver/rediscache"
  else if decide (driver = DriverNATS) then
    Some "root nats driver removed; use github.com/goforj/cache/driver/natscache"
  else None.

(** [cachecore.WrapStore], and the [errorStore] when it fails. *)
Definition finish (driver : string) (cfg : StoreConfig) (store : rootStore) : M unit builtStore :=
  match WrapStore store (cfg_base cfg) with
  | (_, Some err) => ret (inr (mkErrorStore driver err))
  | (wrapped, None) => ret (inl wrapped)
  end.

Definition newStoreForDriver (env : Environment) (_ : Context) (driver : string) (cfg : StoreConfig)
    : M unit builtStore :=
  let cfg := withDefaults env cfg in
  if decide (driver = DriverNull) then finish driver cfg (inl newNullStore)
  else if decide (driver = DriverFile) then
    let* store := newFileStore (env_tempDir env) (env_disks env) (FileDir cfg) (DefaultTTL (cfg_base cfg)) in
    finish driver cfg (inr (inl store))
  else if decide (driver = DriverMemory) then
    finish driver cfg (inr (inr (newMemoryStore (DefaultTTL (cfg_base cfg)) (MemoryCleanupInterval cfg))))
  else match removed_driver driver with
       | Some msg => ret (inr (mkErrorStore driver (ErrorString msg)))
       | None =>
           ret (inr (mkErrorStore driver (ErrorString "unknown driver; use explicit root constructor or driver module")))
       end.

Definition NewMemoryStore env ctx := newStoreForDriver env ctx DriverMemory zeroConfig.
Definition NewMemoryStoreWithConfig env ctx cfg := newStoreForDriver env ctx DriverMemory cfg.
Definition NewFileStore env ctx (dir : string) :=
  newStoreForDriver env ctx DriverFile (mkStoreConfig (cfg_base zeroConfig) 0 dir).
Definition NewFileStoreWithConfig env ctx cfg := newStoreForDriver env ctx DriverFile cfg.
Definition NewNullStore env ctx := newStoreForDriver env ctx DriverNull zeroConfig.
Definition NewNullStoreWithConfig env ctx cfg := newStoreForDriver env ctx DriverNull cfg.
End Factory.

(** ** Contracts of a dynamic value *)

#[export] Instance sum_keys {A B} `{KeySpace A} `{KeySpace B} : KeySpace (A + B) :=
  mkKeySpace _ (fun k' k => apart (S := A) k' k /\ apart (S := B) k' k)
             (fun k ttl => storable (S := A) k ttl /\ storable (S := B) k ttl).

Section SumContract.
Context {A B : Type} `{Store A} `{KeySpace A} `{!StoreContract A} `{Store B} `{KeySpace B} `{!StoreContract B}.

Definition sum_ok (x : A + B) : Prop := match x with inl a => sc_ok a | inr b => sc_ok b end.
Definition sum_peek (x : A + B) : Z -> string -> option bytes :=
  match x with inl a => sc_peek a | inr b => sc_peek b end.
Definition sum_occupied (x : A + B) : Z -> string -> Prop :=
  match x with inl a => sc_occupied a | inr b => sc_occupied b end.
Definition sum_grain : Z := Z.max (sc_grain (S := A)) (sc_grain (S := B)).

Lemma callSum_inv {R} (op : forall T, Store T -> M T R) w (x : A + B) r w' x' :
  callSum op w x = (r, w', x') ->
  match x with
  | inl a => exists a', x' = inl a' /\ op A _ w a = (r, w', a')
  | inr b => exists b', x' = inr b' /\ op B _ w b = (r, w', b')
  end.
Proof.
  unfold callSum. destruct x as [a|b]; destruct (op _ _ w _) as [[? ?] ?]; intros [= <- <- <-]; eauto.
Qed.

(** The law of either side, seen from the sum. *)
Tactic Notation "by_sum" constr(op) uconstr(law) uconstr(transport) :=
  let E := fresh "E" in let Hp := fresh "Hp" in
  intros E; apply (callSum_inv op) in E;
  match goal with x : (A + B)%type |- _ =>
    destruct x; destruct E as (? & -> & E); (apply law in E as (? & ? & Hp); [|done..]);
    (split; [done|]); (split; [done|]); eapply (transport id); try (exact Hp || (rewrite list_fmap_id; exact Hp)); try done; unfold sum_grain;
    (lia || by intros ? ? [? ?])
  end.

#[export] Program Instance sum_contract : StoreContract (A + B) := {|
  sc_ok := sum_ok;
  sc_peek := sum_peek;
  sc_occupied := sum_occupied;
  sc_grain := sum_grain
|}.
Next Obligation. unfold sum_grain. pose proof (sc_grain_nonneg (S := A)). lia. Qed.
Next Obligation. intros [x|x] t k v; apply sc_peek_occupied. Qed.
Next Obligation. intros ctx k w x r w' x' Hw Hok.
  by_sum (fun T (_ : Store T) => Store_Get ctx k) sc_get get_post_map. Qed.
Next Obligation. intros ctx k v ttl w x r w' x' Hw Hok Ht.
  by_sum (fun T (_ : Store T) => Store_Set ctx k v ttl) sc_set set_post_map. Qed.
Next Obligation. intros ctx k v ttl w x r w' x' Hw Hok Ht.
  by_sum (fun T (_ : Store T) => Store_Add ctx k v ttl) sc_add add_post_map. Qed.
Next Obligation. intros ctx k w x r w' x' Hw Hok.
  by_sum (fun T (_ : Store T) => Store_Delete ctx k) sc_delete delete_post_map. Qed.
Next Obligation. intros ctx ks w x r w' x' Hw Hok.
  by_sum (fun T (_ : Store T) => Store_DeleteMany ctx ks) sc_deleteMany deleteMany_post_map. Qed.
Next Obligation. intros ctx w x r w' x' Hw Hok.
  by_sum (fun T (_ : Store T) => Store_Flush ctx) sc_flush flush_post_map. Qed.
End SumContract.

(** ** Contracts of the factory's results *)

(** The null store promises nothing about values: no state of it is [sc_ok]. *)
#[export] Instance nullStore_keys : KeySpace nullStore := allKeys.
#[export] Program Instance nullStore_contract : StoreContract nullStore := {|
  sc_ok := fun _ => False;
  sc_peek := fun _ _ _ => None;
  sc_occupied := fun _ _ _ => False;
  sc_grain := 0
|}.
Solve All Obligations with done.

(** The error store holds nothing and reports its error. *)
#[export] Instance errorStore_keys : KeySpace errorStore := allKeys.
#[export] Program Instance errorStore_contract : StoreContract errorStore := {|
  sc_ok := fun _ => True;
  sc_peek := fun _ _ _ => None;
  sc_occupied := fun _ _ _ => False;
  sc_grain := 0
|}.
Next Obligation. done. Qed.
Next Obligation. done. Qed.
Next Obligation. intros * Hw _ [= <- <- <-]. by split; [apply later_refl|]. Qed.
Next Obligation. intros * Hw _ _ [= <- <- <-]. split; [by apply later_refl|]. auto with go. Qed.
Next Obligation. intros * Hw _ _ [= <- <- <-]. split; [by apply later_refl|]. auto with go. Qed.
Next Obligation. intros * Hw _ [= <- <- <-]. split; [by apply later_refl|]. auto with go. Qed.
Next Obligation. intros * Hw _ [= <- <- <-]. by split; [apply later_refl|]. Qed.
Next Obligation. intros * Hw _ [= <- <- <-]. by split; [apply later_refl|]. Qed.

Section FactoryLaws.
Context {G : Type} `{GoCacheLaws G} `{FileJSON} `{CryptoLaws} `{GzipLaws}.

(** The drivers the root package builds. *)
Definition rootDriver (driver : string) : Prop :=
  driver = DriverNull \/ driver = DriverFile \/ driver = DriverMemory.

(** Every operation of the value, those of its lock interface included, reports [e]
    and a zero result, and changes nothing; it offers no inspection. *)
Definition reports (x : builtStore (G := G)) (e : error) : Prop :=
  Store_Inspector x = None /\
  (exists locks, Store_lockStore x = Some locks /\ forall ctx k v ttl w,
     LockAcquire locks ctx k v ttl w x = ((false, Some e), w, x) /\
     LockRelease locks ctx k v w x = ((false, Some e), w, x)) /\
  forall ctx k v d ttl ks w,
    Store_Ready ctx w x = (Some e, w, x) /\
    Store_Get ctx k w x = (([], false, Some e), w, x) /\
    Store_Set ctx k v ttl w x = (Some e, w, x) /\
    Store_Add ctx k v ttl w x = ((false, Some e), w, x) /\
    Store_Increment ctx k d ttl w x = ((0, Some e), w, x) /\
    Store_Decrement ctx k d ttl w x = ((0, Some e), w, x) /\
    Store_Delete ctx k w x = (Some e, w, x) /\
    Store_DeleteMany ctx ks w x = (Some e, w, x) /\
    Store_Flush ctx w x = (Some e, w, x).

Lemma finish_inv driver cfg (store : rootStore) w x w' u :
  finish driver cfg store w tt = (x, w', u) ->
  w' = w /\
  match ValidateBaseConfig (cfg_base cfg) with
  | Some e => x = inr (mkErrorStore driver e)
  | None => exists wrapped, WrapStore store (cfg_base cfg) = (wrapped, None) /\ x = inl wrapped
  end.
Proof.
  unfold finish. destruct (WrapStore store (cfg_base cfg)) as [wrapped [e|]] eqn:E; intros [= <- <- _].
  - apply WrapStore_error in E as [-> _]. done.
  - split; [done|]. destruct (ValidateBaseConfig (cfg_base cfg)) as [e|] eqn:Hv; [|eauto].
    unfold WrapStore in E. by rewrite Hv in E.
Qed.

(** What the factory returns, by driver and configuration. *)
Lemma newStoreForDriver_inv env ctx driver cfg w x w' u :
  newStoreForDriver env ctx driver cfg w tt = (x, w', u) ->
  let cfg := withDefaults env cfg in
  (~ rootDriver driver /\ exists msg, x = inr (mkErrorStore driver (ErrorString msg))) \/
  (exists e, rootDriver driver /\ ValidateBaseConfig (cfg_base cfg) = Some e /\ x = inr (mkErrorStore driver e)) \/
  (exists (store : rootStore) wrapped,
     rootDriver driver /\ Store_Driver store = driver /\ ValidateBaseConfig (cfg_base cfg) = None /\
     WrapStore store (cfg_base cfg) = (wrapped, None) /\ x = inl wrapped /\
     match store with
     | inl _ => driver = DriverNull
     | inr (inl f) => newFileStore (env_tempDir env) (env_disks env) (FileDir cfg) (DefaultTTL (cfg_base cfg)) w tt = (f, w', tt)
     | inr (inr m) => m = newMemoryStore (DefaultTTL (cfg_base cfg)) (MemoryCleanupInterval cfg)
     end).
Proof.
  unfold newStoreForDriver, rootDriver. set (c := withDefaults env cfg). go_simpl.
  assert (Hfin : forall (store : rootStore) w1, finish driver c store w1 tt = (x, w', u) ->
    Store_Driver store = driver -> rootDriver driver ->
    (exists e, rootDriver driver /\ ValidateBaseConfig (cfg_base c) = Some e /\ x = inr (mkErrorStore driver e)) \/
    (exists wrapped, ValidateBaseConfig (cfg_base c) = None /\
       WrapStore store (cfg_base c) = (wrapped, None) /\ x = inl wrapped /\ w' = w1)).
  { intros store w1 E Hd Hr. apply finish_inv in E as [-> E].
    destruct (ValidateBaseConfig (cfg_base c)) as [e|]; [by left; exists e|]. right. destruct E as (wr & ? & ?). eauto. }
  destruct (decide (driver = DriverNull)) as [->|Hn]; [|destruct (decide (driver = DriverFile)) as [->|Hf];
    [|destruct (decide (driver = DriverMemory)) as [->|Hm]]].
  - intros E. apply Hfin in E as [?|(wr & ? & ? & ? & ?)]; [by auto| |done|by left].
    right; right. exists (inl newNullStore), wr. split; [by left | done].
  - destruct (newFileStore _ _ _ _ w tt) as [[f w1] []] eqn:Ef. intros E.
    apply Hfin in E as [?|(wr & ? & ? & ? & ->)]; [by auto| |done|by right; left].
    right; right. exists (inr (inl f)), wr. split; [by right; left | done].
  - intros E. apply Hfin in E as [?|(wr & ? & ? & ? & ?)]; [by auto| |done|by right; right].
    right; right. eexists (inr (inr _)), wr. split; [by right; right | done].
  - intros E. left. split; [by intros [?|[?|?]]|].
    destruct (removed_driver driver); injection E as <- _ _; eauto.
Qed.

Lemma wrapped_driver (store : rootStore (G := G)) cfg x : WrapStore store cfg = (x, None) -> Store_Driver x = Store_Driver store.
Proof.
  unfold WrapStore. destruct (ValidateBaseConfig cfg); [done|].
  destruct (_ || _), (_ >? 0); try (by intros [= <-]);
    unfold newEncryptingStore; repeat case_match; intros E; by simplify_eq.
Qed.

Lemma errorStore_reports driver e : reports (inr (mkErrorStore driver e)) e.
Proof. split; [done|]. split; [|done]. by eexists. Qed.


(** A store built for the file or the memory driver, with any accepted and
    transparent shaping, keeps what is written to it: a value whose [Set]
    succeeded is what a [Get] that ends within its TTL returns, unless that read
    reports an error. *)
Theorem newStoreForDriver_set_get env ctx driver cfg w0 x w u ctx1 ctx2 k v ttl w1 x1 w2 r w3 x3 :
  driver = DriverFile \/ driver = DriverMemory ->
  disk_ok (env_disks env (FileDir (withDefaults env cfg))) ->
  DefaultTTL (cfg_base cfg) < horizon -> transparent (cfg_base (withDefaults env cfg)) ->
  newStoreForDriver (G := G) env ctx driver cfg w0 tt = (inl x, w, u) -> world_ok w ->
  storable (S := builtStore (G := G)) k ttl -> ttl_ok ttl ->
  Store_Set ctx1 k v ttl w (inl x : builtStore (G := G)) = (None, w1, x1) -> later w1 w2 ->
  Store_Get ctx2 k w2 x1 = (r, w3, x3) -> now w3 <= now w + ttl -> hit_or_error v r.
Proof.
  intros Hd Hdisk Hdef Htr E Hw Hk Ht E1 Hl E2 Hn.
  assert (Hok : sc_ok (inl x : builtStore (G := G))).
  { apply newStoreForDriver_inv in E as [[_ [msg [=]]]|[(e & _ & _ & [=])|(s & x' & _ & Hdr & _ & Hwr & [= <-] & Hs)]].
    eapply (WrapStore_ok s); [|done|done].
    assert (HT : DefaultTTL (cfg_base (withDefaults env cfg)) < horizon).
    { unfold withDefaults. repeat (case_match; simpl); try done; unfold defaultCacheTTL, Minute, Second, horizon; lia. }
    destruct s as [n|[f|m]].
    - destruct Hd as [->| ->]; discriminate.
    - eapply newFileStore_spec in Hs as (_ & ? & _); [done| |done|done].
      unfold withDefaults. simpl. destruct (decide (FileDir cfg = EmptyString)); [|done].
      unfold defaultFileDir. by destruct (env_tempDir env).
    - subst m. by apply newMemoryStore_ok. }
  destruct (sc_set _ _ _ _ _ _ _ _ _ Hw Hok Ht E1) as (_ & Hok1 & _ & Hst).
  exact (contract_get_stored ctx2 k v ttl w w1 w2 x1 r w3 x3 (later_world_ok _ _ Hl) Hok1 (Hst Hk) Hl E2 Hn).
Qed.
End FactoryLaws.

(** ** Witnesses *)

Module FactoryRuns.
Abbreviation built := (builtStore (G := GoMap.engine)).
#[export] Existing Instances Toy.gzip Toy.gzip_ok Toy.crypto Toy.crypto_ok FileRuns.noJSON.

Definition env : Environment := mkEnvironment "/tmp" (fun _ => FileRuns.disk0).

Definition redis : built * World * unit := newStoreForDriver env Background DriverRedis zeroConfig world_example tt.

(** A file store with compression, a size limit and encryption. *)
Definition config : StoreConfig := mkStoreConfig cfg_example 0 EmptyString.
Definition file : built * World * unit := newStoreForDriver env Background DriverFile config world_example tt.

(** The wrapped store the factory returned. *)
Definition unwrap (x : built) : wrappedStore (rootStore (G := GoMap.engine)) :=
  match x with inl y => y | inr e => Failing (mkFailingStore (err_driver e) (err_err e)) end.
Definition store : wrappedStore (rootStore (G := GoMap.engine)) := unwrap (rv file).

Definition set1 := Store_Set Background "user:1" FileRuns.value Minute (wv file) (inl store : built).
Definition get1 := Store_Get Background "user:1" (wv set1) (sv set1).
End FactoryRuns.
#[local] Existing Instances Toy.gzip Toy.gzip_ok Toy.crypto Toy.crypto_ok FileRuns.noJSON.


Lemma newStoreForDriver_set_get_witness :
  rv FactoryRuns.get1 = (FileRuns.value, true, None) /\ hit_or_error FileRuns.value (rv FactoryRuns.get1).
Proof.
  split; [vm_compute; reflexivity|].
  pose proof (run_eta FactoryRuns.get1 (rv FactoryRuns.get1) eq_refl) as Eget. unfold FactoryRuns.get1 in Eget at 1.
  assert (Eset : rv FactoryRuns.set1 = None) by (vm_compute; reflexivity).
  apply run_eta in Eset. unfold FactoryRuns.set1 in Eset at 1.
  refine (newStoreForDriver_set_get FactoryRuns.env Background DriverFile FactoryRuns.config world_example
    FactoryRuns.store (wv FactoryRuns.file) tt Background Background "user:1" FileRuns.value Minute
    (wv FactoryRuns.set1) (sv FactoryRuns.set1) (wv FactoryRuns.set1) (rv FactoryRuns.get1)
    (wv FactoryRuns.get1) (sv FactoryRuns.get1) _ _ _ _ _ _ _ _ Eset _ Eget _).
  - by left.
  - split; [by left | done].
  - reflexivity.
  - by left.
  - reflexivity.
  - exact world_example_ok.
  - split; [|exact I]. split; [exact I|]. split; [reflexivity | exact I].
  - split; reflexivity.
  - apply later_refl. exact world_example_ok.
  - apply Z.leb_le. vm_compute; reflexivity.
Defined.
