(* ===== verification/CacheFake.v ===== *)
(** * cachefake/fake.go: the counting test double

    A store that records which operation touched which key before it passes the
    call on, and the assertions over the record.  The closure [onCount] shares
    the counters of its [Fake]; the model keeps them in the counting store, where
    both the store and the assertions reach them.  Proved: the double is
    transparent (same results, same effects on the inner store, for every
    sequence of calls) and exact (every count is the number of calls made). *)

From S2P Require Import Prelude GoStd CacheCore InspectHelpers Shaping Wrapping MemoryStore Cache FileStore FileLaws Backends.

(** [type Op string] *)
Definition OpGet : string := "get".
Definition OpSet : string := "set".
Definition OpAdd : string := "add".
Definition OpInc : string := "inc".
Definition OpDec : string := "dec".
Definition OpDelete : string := "delete".
Definition OpDeleteMany : string := "delete_many".
Definition OpFlush : string := "flush".

Abbreviation opCounts := (gmap string (gmap string Z)).

(** [record]: a missing inner map is made first; the count is a Go [int]. *)
Definition record (op key : string) (counts : opCounts) : opCounts :=
  let m := default ∅ (counts !! op) in
  <[op := <[key := wrap64 (default 0 (m !! key) + 1)]> m]> counts.

(** [cs_counts] is [None] while [onCount] is nil. *)
Record countingStore (S : Type) := mkCountingStore { cs_inner : S; cs_counts : option opCounts }.
Arguments mkCountingStore {S}.
Arguments cs_inner {S}.
Arguments cs_counts {S}.

Section Counting.
Context {S : Type} `{Store S}.

Definition bump (op key : string) : M (countingStore S) unit :=
  modify (fun s => mkCountingStore (cs_inner s) (record op key <$> cs_counts s)).

Definition inner {A} (m : M S A) : M (countingStore S) A :=
  zoom cs_inner (fun i s => mkCountingStore i (cs_counts s)) m.

Definition counting_DeleteMany (ctx : Context) (keys : list string) : M (countingStore S) (option error) :=
  forEach (fun k => bump OpDeleteMany k) keys ;; inner (Store_DeleteMany ctx keys).

(** It implements neither [lockStore] nor [Inspector]. *)
#[export] Instance countingStore_Store : Store (countingStore S) := {|
  Store_Driver := fun s => Store_Driver (cs_inner s);
  Store_Ready := fun ctx => inner (Store_Ready ctx);
  Store_Get := fun ctx key => bump OpGet key ;; inner (Store_Get ctx key);
  Store_Set := fun ctx key val ttl => bump OpSet key ;; inner (Store_Set ctx key val ttl);
  Store_Add := fun ctx key val ttl => bump OpAdd key ;; inner (Store_Add ctx key val ttl);
  Store_Increment := fun ctx key delta ttl => bump OpInc key ;; inner (Store_Increment ctx key delta ttl);
  Store_Decrement := fun ctx key delta ttl => bump OpDec key ;; inner (Store_Decrement ctx key delta ttl);
  Store_Delete := fun ctx key => bump OpDelete key ;; inner (Store_Delete ctx key);
  Store_DeleteMany := counting_DeleteMany;
  Store_Flush := fun ctx => bump OpFlush EmptyString ;; inner (Store_Flush ctx);
  Store_lockStore := fun _ => None;
  Store_Inspector := fun _ => None
|}.
End Counting.

(** ** The fake *)

Definition Fake (S : Type) : Type := Cache (countingStore S).

(** The counters of the fake. *)
Definition fake_counts {S} (f : Fake S) : opCounts := default ∅ (cs_counts (c_store f)).

Definition Count {S} (f : Fake S) (op key : string) : Z :=
  match fake_counts f !! op with None => 0 | Some m => default 0 (m !! key) end.

Definition Total {S} (f : Fake S) (op : string) : Z :=
  map_fold (fun _ v sum => wrap64 (sum + v)) 0 (default ∅ (fake_counts f !! op)).

Definition Reset {S} (f : Fake S) : Fake S :=
  set_store (mkCountingStore (cs_inner (c_store f)) (Some ∅)) f.

(** The assertions: the message given to [t.Fatalf], if any. *)
Definition AssertCalled {S} (f : Fake S) (op key : string) (times : Z) : option string :=
  let got := Count f op key in
  if got =? times then None
  else Some ("expected " +:+ op +:+ " " +:+ quoted key +:+ " called " +:+ FormatInt times +:+ " times, got " +:+ FormatInt got).

Definition AssertNotCalled {S} (f : Fake S) (op key : string) : option string :=
  let got := Count f op key in
  if got =? 0 then None
  else Some ("expected " +:+ op +:+ " " +:+ quoted key +:+ " not called, got " +:+ FormatInt got).

Definition AssertTotal {S} (f : Fake S) (op : string) (times : Z) : option string :=
  let got := Total f op in
  if got =? times then None
  else Some ("expected " +:+ op +:+ " total=" +:+ FormatInt times +:+ ", got " +:+ FormatInt got).

Section New.
Context {G : Type} `{GoCache G} `{FileJSON} `{Crypto} `{Gzip}.

(** [New]; the caller's cache is the fake itself. *)
Definition New (env : Environment) : M unit (Fake (builtStore (G := G))) :=
  let* store := NewMemoryStore env Background in
  ret (NewCache (mkCountingStore store (Some ∅))).
End New.

(** ** Sequences of calls *)

Inductive storeCall :=
| CallGet (ctx : Context) (key : string)
| CallSet (ctx : Context) (key : string) (val : bytes) (ttl : Z)
| CallAdd (ctx : Context) (key : string) (val : bytes) (ttl : Z)
| CallInc (ctx : Context) (key : string) (delta ttl : Z)
| CallDec (ctx : Context) (key : string) (delta ttl : Z)
| CallDelete (ctx : Context) (key : string)
| CallDeleteMany (ctx : Context) (keys : list string)
| CallFlush (ctx : Context).

Inductive callResult :=
| ResGet (r : bytes * bool * option error)
| ResErr (r : option error)
| ResAdd (r : bool * option error)
| ResNum (r : Z * option error).

(** The entries a call adds to the record. *)
Definition callRecords (c : storeCall) : list (string * string) :=
  match c with
  | CallGet _ k => [(OpGet, k)]
  | CallSet _ k _ _ => [(OpSet, k)]
  | CallAdd _ k _ _ => [(OpAdd, k)]
  | CallInc _ k _ _ => [(OpInc, k)]
  | CallDec _ k _ _ => [(OpDec, k)]
  | CallDelete _ k => [(OpDelete, k)]
  | CallDeleteMany _ ks => (fun k => (OpDeleteMany, k)) <$> ks
  | CallFlush _ => [(OpFlush, EmptyString)]
  end.

Section Calls.
Context {S : Type} `{Store S}.

Definition runCall (c : storeCall) : M S callResult :=
  match c with
  | CallGet ctx k => let* r := Store_Get ctx k in ret (ResGet r)
  | CallSet ctx k v ttl => let* r := Store_Set ctx k v ttl in ret (ResErr r)
  | CallAdd ctx k v ttl => let* r := Store_Add ctx k v ttl in ret (ResAdd r)
  | CallInc ctx k d ttl => let* r := Store_Increment ctx k d ttl in ret (ResNum r)
  | CallDec ctx k d ttl => let* r := Store_Decrement ctx k d ttl in ret (ResNum r)
  | CallDelete ctx k => let* r := Store_Delete ctx k in ret (ResErr r)
  | CallDeleteMany ctx ks => let* r := Store_DeleteMany ctx ks in ret (ResErr r)
  | CallFlush ctx => let* r := Store_Flush ctx in ret (ResErr r)
  end.

Fixpoint runCalls (cs : list storeCall) : M S (list callResult) :=
  match cs with
  | [] => ret []
  | c :: rest => let* r := runCall c in let* rs := runCalls rest in ret (r :: rs)
  end.
End Calls.

(** ** Laws *)

Section FakeLaws.
Context {S : Type} `{Store S}.
Implicit Types s : countingStore S.

Definition recordAll (rs : list (string * string)) (counts : opCounts) : opCounts :=
  fold_left (fun c r => record r.1 r.2 c) rs counts.

Lemma bumps op ks w s :
  forEach (fun k => bump op k) ks w s =
  (tt, w, mkCountingStore (cs_inner s) (recordAll ((fun k => (op, k)) <$> ks) <$> cs_counts s)).
Proof.
  revert s. induction ks as [|k ks IH]; intros [i c]; cbn [forEach]; go_simpl.
  - simpl. by destruct c.
  - unfold bump. go_simpl. rewrite IH. simpl. by destruct c.
Qed.

(** A call through the double is the call on the inner store, recorded. *)
Lemma runCall_counting c w s :
  runCall c w s =
  let '(r, w', i') := runCall c w (cs_inner s) in
  (r, w', mkCountingStore i' (recordAll (callRecords c) <$> cs_counts s)).
Proof.
  destruct s as [i counts]. destruct c as [| | | | | |ctx ks|]; simpl.
  7: { unfold counting_DeleteMany, inner. go_simpl. rewrite bumps. simpl.
       by destruct (Store_DeleteMany ctx ks w i) as [[r w'] i']. }
  all: unfold inner, bump; go_simpl; simpl;
    match goal with |- context [match ?x with _ => _ end] => by destruct x as [[? ?] ?] end.
Qed.

Lemma runCalls_counting cs w s :
  runCalls cs w s =
  let '(rs, w', i') := runCalls cs w (cs_inner s) in
  (rs, w', mkCountingStore i' (recordAll (concat (callRecords <$> cs)) <$> cs_counts s)).
Proof.
  revert w s. induction cs as [|c cs IH]; intros w s; cbn [runCalls]; go_simpl.
  { destruct s as [i [counts|]]; done. }
  rewrite runCall_counting. destruct (runCall c w (cs_inner s)) as [[r w1] i1]. rewrite IH. simpl.
  destruct (runCalls cs w1 i1) as [[rs w2] i2]. do 2 f_equal. unfold recordAll.
  destruct (cs_counts s); [|done]. simpl. by rewrite fold_left_app.
Qed.

(** ** Counters *)

(** [f.counts[op][key]] *)
Definition count (counts : opCounts) (op key : string) : Z :=
  match counts !! op with None => 0 | Some m => default 0 (m !! key) end.

Definition total (counts : opCounts) (op : string) : Z :=
  map_fold (fun _ v sum => wrap64 (sum + v)) 0 (default ∅ (counts !! op)).

(** The number of entries for an operation and a key, or for an operation. *)
Definition entriesFor (op key : string) (rs : list (string * string)) : Z :=
  len (filter (fun r => r = (op, key)) rs).
Definition entriesOf (op : string) (rs : list (string * string)) : Z := len (filter (fun r => r.1 = op) rs).

Lemma record_count op key counts op' key' :
  count (record op key counts) op' key' =
  if decide ((op', key') = (op, key)) then wrap64 (count counts op key + 1) else count counts op' key'.
Proof.
  unfold count, record. destruct (decide (op' = op)) as [->|Hop].
  - rewrite lookup_insert_eq. destruct (decide (key' = key)) as [->|Hk].
    + rewrite lookup_insert_eq, decide_True by done. simpl. by destruct (counts !! op).
    + rewrite lookup_insert_ne, decide_False by congruence. by destruct (counts !! op).
  - rewrite lookup_insert_ne, decide_False by congruence. done.
Qed.

Lemma wrap64_idem z : wrap64 (wrap64 z) = wrap64 z.
Proof. apply wrap64_id, wrap64_range. Qed.

Lemma recordAll_count rs counts op key :
  wrap64 (count (recordAll rs counts) op key) = wrap64 (count counts op key + entriesFor op key rs).
Proof.
  revert counts. induction rs as [|[op' key'] rs IH]; intros counts; simpl.
  { f_equal. unfold entriesFor, len. simpl. lia. }
  rewrite IH, record_count. unfold entriesFor, len. rewrite filter_cons.
  destruct (decide ((op, key) = (op', key'))) as [[= <- <-]|Hne].
  - rewrite decide_True by done. rewrite wrap64_add_l. f_equal. simpl. lia.
  - rewrite decide_False by congruence. done.
Qed.

(** A sum modulo 2^64 does not depend on the order. *)
Lemma sum_insert (m : gmap string Z) k v :
  m !! k = None ->
  map_fold (fun _ v sum => wrap64 (sum + v)) 0 (<[k := v]> m) =
  wrap64 (map_fold (fun _ v sum => wrap64 (sum + v)) 0 m + v).
Proof.
  intros Hk. rewrite map_fold_insert_L; [done| |done].
  intros k1 k2 v1 v2 y _ _ _. rewrite !wrap64_add_l. f_equal. lia.
Qed.

Lemma record_total op key counts op' :
  total (record op key counts) op' =
  if decide (op' = op) then wrap64 (total counts op + 1) else total counts op'.
Proof.
  unfold total, record. destruct (decide (op' = op)) as [->|Hop]; [|by rewrite lookup_insert_ne by done].
  rewrite lookup_insert_eq. simpl. set (m := default ∅ (counts !! op)).
  destruct (m !! key) as [v|] eqn:Ek; simpl.
  - rewrite <- (insert_delete_id m key v Ek) at 2. rewrite <- insert_delete_eq.
    rewrite !sum_insert by apply lookup_delete_eq. rewrite wrap64_add_l, Z.add_comm, wrap64_add_l.
    f_equal. lia.
  - by rewrite sum_insert.
Qed.

Lemma recordAll_total rs counts op :
  wrap64 (total (recordAll rs counts) op) = wrap64 (total counts op + entriesOf op rs).
Proof.
  revert counts. induction rs as [|[op' key'] rs IH]; intros counts; simpl.
  { f_equal. unfold entriesOf, len. simpl. lia. }
  rewrite IH, record_total. unfold entriesOf, len. rewrite filter_cons. simpl.
  destruct (decide (op = op')) as [<-|Hne].
  - rewrite decide_True by done. rewrite wrap64_add_l. f_equal. simpl. lia.
  - rewrite decide_False by congruence. done.
Qed.

Lemma count_range rs op key : in_int64 (count (recordAll rs ∅) op key).
Proof.
  assert (Hr : forall counts, (forall op key, in_int64 (count counts op key)) ->
    forall op key, in_int64 (count (recordAll rs counts) op key)).
  { induction rs as [|[op' key'] rs' IH]; intros counts Hc; [done|]. simpl. apply IH. intros op1 key1.
    rewrite record_count. destruct (decide _); [apply wrap64_range | apply Hc]. }
  apply Hr. intros op1 key1. unfold count. by rewrite lookup_empty.
Qed.

Lemma total_range counts op : in_int64 (total counts op).
Proof.
  unfold total. apply (map_fold_weak_ind (fun r _ => in_int64 r)); [done|].
  intros k v m r _ _. apply wrap64_range.
Qed.

(** C19: the double is transparent and exact.  After a reset, any sequence of store
    calls through the fake returns the results, and leaves the inner store, that
    the same calls on the inner store alone would; and [Count] and [Total] are
    the numbers of calls made (as Go [int]s, so modulo 2^64), a [DeleteMany]
    counting once per key. *)
Theorem fake_exact cs w (f : Fake S) rs w' f' :
  onStore (runCalls cs) w (Reset f) = (rs, w', f') ->
  runCalls cs w (cs_inner (c_store f)) = (rs, w', cs_inner (c_store f')) /\
  (forall op key, Count f' op key = wrap64 (entriesFor op key (concat (callRecords <$> cs)))) /\
  (forall op, Total f' op = wrap64 (entriesOf op (concat (callRecords <$> cs)))).
Proof.
  unfold onStore, zoom. simpl. rewrite runCalls_counting. simpl.
  destruct (runCalls cs w (cs_inner (c_store f))) as [[rs1 w1] i1]. intros [= <- <- <-]. simpl.
  split; [done|]. set (records := concat (callRecords <$> cs)). split.
  - intros op key. change (count (recordAll records ∅) op key = wrap64 (entriesFor op key records)).
    rewrite <- (wrap64_id (count _ op key)) by apply count_range. by rewrite recordAll_count.
  - intros op. change (total (recordAll records ∅) op = wrap64 (entriesOf op records)).
    rewrite <- (wrap64_id (total _ op)) by apply total_range. by rewrite recordAll_total.
Qed.
End FakeLaws.

(** ** Witness *)

#[local] Existing Instances Toy.gzip Toy.crypto FileRuns.noJSON.

Module FakeRuns.
Definition fake : Fake (builtStore (G := GoMap.engine)) := rv (New FactoryRuns.env world_example tt).
Definition calls : list storeCall :=
  [CallSet Background "a" FileRuns.value Minute; CallGet Background "a"; CallDeleteMany Background ["a"; "b"];
   CallGet Background "a"].
Abbreviation run := (onStore (runCalls calls) world_example (Reset fake)).
End FakeRuns.

Lemma fake_exact_witness :
  Count (sv FakeRuns.run) OpGet "a" = 2 /\ Total (sv FakeRuns.run) OpDeleteMany = 2 /\
  forall op key, Count (sv FakeRuns.run) op key
    = wrap64 (entriesFor op key (concat (callRecords <$> FakeRuns.calls))).
Proof.
  split; [vm_compute; reflexivity|]. split; [vm_compute; reflexivity|].
  exact (proj1 (proj2 (fake_exact FakeRuns.calls world_example FakeRuns.fake (rv FakeRuns.run)
    (wv FakeRuns.run) (sv FakeRuns.run) (run_eta FakeRuns.run (rv FakeRuns.run) eq_refl)))).
Defined.
