(* ===== verification/RedisStore.v ===== *)
(** * Package rediscache: the store over a Redis client

    [driver/rediscache/store.go].  go-redis and the server behind it are not part
    of the repository: [RedisClient] has the methods of the Go interfaces [Client]
    and [lockClient] as parameters, and [RedisLaws] states what the Redis
    documentation promises of the commands they send.  The store itself is the
    prefixing of keys, the choice of commands and the handling of their replies. *)

From Stdlib Require Import Strings.Ascii.
From S2P Require Import Prelude GoStd CacheCore Transport InspectHelpers Shaping Wrapping MemoryStore.

(** ** The client *)

(** [Client], and the result of the type assertion [client.(lockClient)]: the
    [Eval] method, whose reply the store reads with [Int64()].  The methods return
    the values that [Result()], [Bytes()] and [Err()] give. *)
Class RedisClient (R : Type) := {
  rc_Ping : Context -> M R (option error);
  rc_Get : Context -> string -> M R (bytes * option error);
  rc_Set : Context -> string -> bytes -> Z -> M R (option error);
  rc_SetNX : Context -> string -> bytes -> Z -> M R (bool * option error);
  rc_IncrBy : Context -> string -> Z -> M R (Z * option error);
  rc_Expire : Context -> string -> Z -> M R (bool * option error);
  rc_Del : Context -> list string -> M R (Z * option error);
  rc_Scan : Context -> Z -> string -> Z -> M R (list string * Z * option error);
  rc_lockClient : option (Context -> string -> list string -> list bytes -> M R (Z * option error));
  (** A bound on the calls of [Scan] until an iteration that is at this cursor
      ends; the iterations of the store run with it as fuel. *)
  rc_scanCalls : R -> Z -> nat
}.

(** ** The store *)

Definition redisDefaultTTL : Z := 5 * Minute.
Definition redisDefaultPrefix : string := "app".
Definition redisReadTimeout : Z := 3 * Second.
Definition redisWriteTimeout : Z := 3 * Second.
Definition redisMinRetryBackoff : Z := 8 * Millisecond.
Definition redisMaxRetryBackoff : Z := 512 * Millisecond.

Definition errLockScriptsRequired : error :=
  ErrorString "redis cache locking requires a client with Eval support".

Definition errClientUnavailable : error := ErrorString "redis cache client unavailable".

Definition line (s : string) : string := s +:+ String newline EmptyString.
Definition quote (s : string) : string :=
  let q := String (Ascii.ascii_of_nat 34) EmptyString in q +:+ s +:+ q.

Definition releaseLockScript : string :=
  line EmptyString +:+
  line ("if redis.call(" +:+ quote "get" +:+ ", KEYS[1]) == ARGV[1] then") +:+
  line ("  return redis.call(" +:+ quote "del" +:+ ", KEYS[1])") +:+
  line "end" +:+
  line "return 0".

Record redisStore (R : Type) := mkRedisStore {
  rs_client : option R;
  rs_defaultTTL : Z;
  rs_prefix : string
}.
Arguments mkRedisStore {R}.
Arguments rs_client {R}.
Arguments rs_defaultTTL {R}.
Arguments rs_prefix {R}.

Definition redis_cacheKey (prefix key : string) : string := prefix +:+ ":" +:+ key.

Section Redis.
Context {R : Type} `{RedisClient R}.
Implicit Types s : redisStore R.

(** [if s.client == nil { return ..., errors.New(...) }], then calls of the
    client's methods. *)
Definition onClient {A} (unavailable : A) (body : redisStore R -> M R A) : M (redisStore R) A :=
  fun w s =>
    match rs_client s with
    | None => (unavailable, w, s)
    | Some client =>
        let '(a, w', client') := body s w client in
        (a, w', mkRedisStore (Some client') (rs_defaultTTL s) (rs_prefix s))
    end.

Definition redis_Ready (ctx : Context) : M (redisStore R) (option error) :=
  onClient (Some errClientUnavailable) (fun _ => rc_Ping ctx).

Definition clientGet (prefix : string) (ctx : Context) (key : string) : M R (bytes * bool * option error) :=
  let* (value, err) := rc_Get ctx (redis_cacheKey prefix key) in
  match err with
  | Some e => if errorsIs e RedisNil then ret ([], false, None) else ret ([], false, Some e)
  | None => ret (value, true, None)
  end.

Definition redis_Get (ctx : Context) (key : string) : M (redisStore R) (bytes * bool * option error) :=
  onClient ([], false, Some errClientUnavailable) (fun s => clientGet (rs_prefix s) ctx key).

Definition redis_ttl s (ttl : Z) : Z := if ttl <=? 0 then rs_defaultTTL s else ttl.

Definition redis_Set (ctx : Context) (key : string) (value : bytes) (ttl : Z) : M (redisStore R) (option error) :=
  onClient (Some errClientUnavailable) (fun s =>
    rc_Set ctx (redis_cacheKey (rs_prefix s) key) value (redis_ttl s ttl)).

Definition redis_Add (ctx : Context) (key : string) (value : bytes) (ttl : Z)
    : M (redisStore R) (bool * option error) :=
  onClient (false, Some errClientUnavailable) (fun s =>
    let* (created, err) := rc_SetNX ctx (redis_cacheKey (rs_prefix s) key) value (redis_ttl s ttl) in
    match err with
    | Some e => ret (false, Some e)
    | None => ret (created, None)
    end).

Definition redis_LockAcquire (ctx : Context) (key : string) (owner : bytes) (ttl : Z)
    : M (redisStore R) (bool * option error) :=
  let* s := get in
  match rs_client s with
  | None => ret (false, Some errClientUnavailable)
  | Some client =>
      match rc_lockClient with
      | None => ret (false, Some errLockScriptsRequired)
      | Some _ => redis_Add ctx key owner ttl
      end
  end.

Definition redis_LockRelease (ctx : Context) (key : string) (owner : bytes)
    : M (redisStore R) (bool * option error) :=
  onClient (false, Some errClientUnavailable) (fun s =>
    match rc_lockClient with
    | None => ret (false, Some errLockScriptsRequired)
    | Some eval =>
        let* (released, err) := eval ctx releaseLockScript [redis_cacheKey (rs_prefix s) key] [owner] in
        match err with
        | Some e => ret (false, Some e)
        | None => ret (released =? 1, None)
        end
    end).

Definition clientIncrement s (ctx : Context) (key : string) (delta ttl : Z) : M R (Z * option error) :=
  let cacheKey := redis_cacheKey (rs_prefix s) key in
  let* (value, err) := rc_IncrBy ctx cacheKey delta in
  match err with
  | Some e => ret (0, Some e)
  | None =>
      let ttl := redis_ttl s ttl in
      if ttl >? 0 then
        let* (_, expireErr) := rc_Expire ctx cacheKey ttl in
        match expireErr with
        | Some e => ret (0, Some (ErrorWrap "expire cache key: " e))
        | None => ret (value, None)
        end
      else ret (value, None)
  end.

Definition redis_Increment (ctx : Context) (key : string) (delta ttl : Z) : M (redisStore R) (Z * option error) :=
  onClient (0, Some errClientUnavailable) (fun s => clientIncrement s ctx key delta ttl).

Definition redis_Decrement (ctx : Context) (key : string) (delta ttl : Z) : M (redisStore R) (Z * option error) :=
  redis_Increment ctx key (wrap64 (- delta)) ttl.

Definition redis_Delete (ctx : Context) (key : string) : M (redisStore R) (option error) :=
  onClient (Some errClientUnavailable) (fun s =>
    let* (_, err) := rc_Del ctx [redis_cacheKey (rs_prefix s) key] in ret err).

Definition redis_DeleteMany (ctx : Context) (keys : list string) : M (redisStore R) (option error) :=
  onClient (Some errClientUnavailable) (fun s =>
    if len keys =? 0 then ret None
    else let* (_, err) := rc_Del ctx (redis_cacheKey (rs_prefix s) <$> keys) in ret err).

(** ** Iterations

    The loops over [Scan] end when the server returns cursor 0: [None] when they
    have not after [fuel] calls. *)

Definition deleteScanned (ctx : Context) (keys : list string) : M R (option error) :=
  if len keys >? 0 then let* (_, err) := rc_Del ctx keys in ret err else ret None.

Fixpoint flushLoop (fuel : nat) (ctx : Context) (pattern : string) (cursor : Z) : M R (option (option error)) :=
  match fuel with
  | O => ret None
  | Datatypes.S fuel =>
      let* (keys, next, err) := rc_Scan ctx cursor pattern 200 in
      match err with
      | Some e => ret (Some (Some e))
      | None =>
          let* err := deleteScanned ctx keys in
          match err with
          | Some e => ret (Some (Some e))
          | None => if next =? 0 then ret (Some None) else flushLoop fuel ctx pattern next
          end
      end
  end.

Fixpoint scanLoop (fuel : nat) (ctx : Context) (pattern : string) (cursor : Z) (keys : list string)
    : M R (option (list string * option error)) :=
  match fuel with
  | O => ret None
  | Datatypes.S fuel =>
      let* (scanned, next, err) := rc_Scan ctx cursor pattern 200 in
      match err with
      | Some e => ret (Some ([], Some e))
      | None =>
          let keys := keys ++ scanned in
          if next =? 0 then ret (Some (keys, None)) else scanLoop fuel ctx pattern next keys
      end
  end.

(** A server that never ends the iteration; [flushLoop_ends] excludes it. *)
Definition errIterating : error := ErrorString "iteration has not ended".

Definition redis_Flush (ctx : Context) : M (redisStore R) (option error) :=
  onClient (Some errClientUnavailable) (fun s =>
    let* client := get in
    let* r := flushLoop (rc_scanCalls client 0) ctx (redis_cacheKey (rs_prefix s) "*") 0 in
    ret (default (Some errIterating) r)).

Definition redis_Capabilities (_ : redisStore R) : InspectorCapabilities := mkCapabilities true true true false.

(** The entry of one scanned key, when its value can be read. *)
Definition scannedEntry (prefix : string) (ctx : Context) (fullKey : string) : M R (option CacheEntry) :=
  let key := TrimPrefix fullKey (prefix +:+ ":") in
  let* (body, ok, err) := clientGet prefix ctx key in
  if negb (noErr err) || negb ok then ret None
  else ret (Some (mkCacheEntry key (len body) None)).

Fixpoint scannedEntries (prefix : string) (ctx : Context) (keys : list string) : M R (list CacheEntry) :=
  match keys with
  | [] => ret []
  | fullKey :: rest =>
      let* e := scannedEntry prefix ctx fullKey in
      let* es := scannedEntries prefix ctx rest in
      ret (option_list e ++ es)
  end.

Definition redis_ListPage (ctx : Context) (opts : ListPageOptions)
    : M (redisStore R) (ListPageResult * option error) :=
  onClient (emptyListPageResult, Some errClientUnavailable) (fun s =>
    let filter := ListFilterTerm opts in
    let* client := get in
    let* r := scanLoop (rc_scanCalls client 0) ctx (redis_cacheKey (rs_prefix s) "*") 0 [] in
    match default ([], Some errIterating) r with
    | (_, Some e) => ret (emptyListPageResult, Some e)
    | (keys, None) =>
        let* entries := scannedEntries (rs_prefix s) ctx keys in
        let entries := FilterAndSortEntries entries filter in
        match DecodeOffsetCursor (opt_Cursor opts) with
        | (_, Some e) => ret (emptyListPageResult, Some e)
        | (offset, None) => ret (SliceEntries entries offset (opt_Limit opts), None)
        end
    end).

Definition redis_lock_ops : LockStore (redisStore R) := mkLockStore _ redis_LockAcquire redis_LockRelease.

#[export] Instance redisStore_Store : Store (redisStore R) := {|
  Store_Driver := fun _ => DriverRedis;
  Store_Ready := redis_Ready;
  Store_Get := redis_Get;
  Store_Set := redis_Set;
  Store_Add := redis_Add;
  Store_Increment := redis_Increment;
  Store_Decrement := redis_Decrement;
  Store_Delete := redis_Delete;
  Store_DeleteMany := redis_DeleteMany;
  Store_Flush := redis_Flush;
  Store_lockStore := fun _ => Some redis_lock_ops;
  Store_Inspector := fun _ => Some (mkInspector _ redis_Capabilities redis_ListPage)
|}.
End Redis.

(** ** Construction *)

(** [redis.Options], of which [redisClientOptions] sets these; the dialer it also
    sets, which opens the TCP or TLS connection, belongs to the client. *)
Record redisOptions (TLS : Type) := mkRedisOptions {
  ro_Addr : string; ro_Username : string; ro_Password : string; ro_DB : Z;
  ro_TLSConfig : option TLS;
  ro_ReadTimeout : Z; ro_WriteTimeout : Z; ro_MinRetryBackoff : Z; ro_MaxRetryBackoff : Z
}.

Record redisConfig (R TLS : Type) := mkRedisConfig {
  rcfg_base : BaseConfig;
  rcfg_Addr : string; rcfg_Username : string; rcfg_Password : string; rcfg_DB : Z;
  rcfg_TLSConfig : option TLS;
  rcfg_Client : option R
}.
Arguments mkRedisOptions {TLS}.
Arguments mkRedisConfig {R TLS}.
Arguments rcfg_base {R TLS}.
Arguments rcfg_Addr {R TLS}.
Arguments rcfg_Username {R TLS}.
Arguments rcfg_Password {R TLS}.
Arguments rcfg_DB {R TLS}.
Arguments rcfg_TLSConfig {R TLS}.
Arguments rcfg_Client {R TLS}.

Section New.
Context {R TLS : Type} `{RedisClient R} `{Crypto}.
(** [redis.NewClient] *)
Variable redis_NewClient : redisOptions TLS -> R.

Definition redisClientOptions (cfg : redisConfig R TLS) : redisOptions TLS :=
  mkRedisOptions (rcfg_Addr cfg) (rcfg_Username cfg) (rcfg_Password cfg) (rcfg_DB cfg) (rcfg_TLSConfig cfg)
    redisReadTimeout redisWriteTimeout redisMinRetryBackoff redisMaxRetryBackoff.

Definition redis_backend (cfg : redisConfig R TLS) : redisStore R :=
  let ttl := if DefaultTTL (rcfg_base cfg) <=? 0 then redisDefaultTTL else DefaultTTL (rcfg_base cfg) in
  let prefix := if decide (Prefix (rcfg_base cfg) = EmptyString) then redisDefaultPrefix else Prefix (rcfg_base cfg) in
  let client :=
    match rcfg_Client cfg with
    | Some client => Some client
    | None => if decide (rcfg_Addr cfg = EmptyString) then None else Some (redis_NewClient (redisClientOptions cfg))
    end in
  mkRedisStore client ttl prefix.

Definition redis_New (cfg : redisConfig R TLS) : wrappedStore (redisStore R) :=
  let '(wrapped, _) := WrapStore (redis_backend cfg) (rcfg_base cfg) in wrapped.
End New.

(** ** What Redis promises *)

(** The glob patterns of [SCAN ... MATCH]: [*] stands for any characters, [?] for
    one.  Patterns with brackets or backslashes are not interpreted here. *)
Fixpoint glob (pattern : string) : string -> bool :=
  match pattern with
  | EmptyString => fun s => bool_decide (s = EmptyString)
  | String c rest =>
      if decide (c = "*"%char) then
        (fix any (s : string) : bool :=
           glob rest s || match s with String _ s' => any s' | EmptyString => false end)
      else fun s =>
        match s with
        | String d s' => (bool_decide (c = "?"%char) || bool_decide (c = d)) && glob rest s'
        | EmptyString => false
        end
  end.

Fixpoint allChars (p : Ascii.ascii -> bool) (s : string) : bool :=
  match s with EmptyString => true | String c s' => p c && allChars p s' end.

Definition simpleChar (c : Ascii.ascii) : bool := negb (bool_decide (c = "["%char) || bool_decide (c = "\"%char)).

(** The pattern has no brackets or backslashes. *)
Definition simplePattern (pattern : string) : Prop := allChars simpleChar pattern = true.

Section Laws.
Context {R : Type} `{RedisClient R}.

(** A server keeps all keys apart and expires in whole milliseconds. *)
#[local] Instance serverKeys : KeySpace R := mkKeySpace R (fun k' k => k' <> k) (fun _ ttl => ttl mod Millisecond = 0).

(** The documented behaviour of the commands, on a server that any number of
    stores share and on the time line of its clients.  [rl_peek] is the string
    value of a key at an instant. *)
Class RedisLaws := {
  rl_ok : R -> Prop;
  rl_peek : R -> Z -> string -> option bytes;
  (** The keys that an iteration at a cursor has yet to return. *)
  rl_left : R -> Z -> string -> bool;
  rl_grain : Z;
  rl_grain_nonneg : 0 <= rl_grain;
  (** GET *)
  rl_get ctx k w r b err w' r' :
    world_ok w -> rl_ok r -> rc_Get ctx k w r = ((b, err), w', r') ->
    later w w' /\ rl_ok r' /\ (forall k', same_key rl_peek w' r r' k') /\
    match err with
    | None => seen rl_peek w w' r k (Some b)
    | Some e => errorsIs e RedisNil = true -> seen rl_peek w w' r k None
    end;
  (** SET with an expiry; SET with NX and an expiry *)
  rl_set ctx k v ttl w r err w' r' :
    world_ok w -> rl_ok r -> ttl_ok ttl -> rc_Set ctx k v ttl w r = (err, w', r') ->
    later w w' /\ rl_ok r' /\ set_post rl_peek rl_grain k v ttl w r err w' r';
  rl_setNX ctx k v ttl w r x err w' r' :
    world_ok w -> rl_ok r -> ttl_ok ttl -> rc_SetNX ctx k v ttl w r = ((x, err), w', r') ->
    later w w' /\ rl_ok r' /\
    add_post rl_peek (fun r t k => is_Some (rl_peek r t k)) rl_grain k v ttl w r
      (if noErr err then x else false, err) w' r';
  (** INCRBY keeps the expiry of the key; a counter it creates has none *)
  rl_incrBy ctx k delta w r n err w' r' :
    world_ok w -> rl_ok r -> rc_IncrBy ctx k delta w r = ((n, err), w', r') ->
    later w w' /\ rl_ok r' /\ (forall k', k' <> k -> same_key rl_peek w' r r' k') /\
    (err = None -> in_int64 n /\
     (forall t b, now w' <= t -> rl_peek r' t k = Some b -> b = bytes_of_string (FormatInt n)) /\
     exists v c, seen rl_peek w w' r k v /\ counts v c /\ n = c + delta /\
       (v = None -> forall t, now w' <= t -> is_Some (rl_peek r' t k)));
  (** EXPIRE, in whole seconds, of the value the key has *)
  rl_expire ctx k ttl w r x err w' r' :
    world_ok w -> rl_ok r -> ttl_ok ttl -> rc_Expire ctx k ttl w r = ((x, err), w', r') ->
    later w w' /\ rl_ok r' /\ (forall k', k' <> k -> same_key rl_peek w' r r' k') /\
    match x, err with
    | _, Some _ => True
    | true, None => exists v, seen rl_peek w w' r k (Some v) /\
        (forall t b, now w' <= t -> rl_peek r' t k = Some b -> b = v) /\
        (ttl mod Second = 0 -> stored rl_peek rl_grain ttl w w' r' k v)
    | false, None => seen rl_peek w w' r k None /\ removed rl_peek w' r' k
    end;
  (** DEL removes all the keys or, when it fails, may have removed none *)
  rl_del ctx ks w r n err w' r' :
    world_ok w -> rl_ok r -> rc_Del ctx ks w r = ((n, err), w', r') ->
    later w w' /\ rl_ok r' /\ deleteMany_post rl_peek ks w r err w' r' /\
    (err <> None -> (forall k', same_key rl_peek w' r r' k') \/ forall k, k ∈ ks -> removed rl_peek w' r' k) /\
    (forall c k, rl_left r c k = true -> rl_left r' c k = true \/ k ∈ ks) /\
    (forall c, (rc_scanCalls r' c <= rc_scanCalls r c)%nat);
  (** A script runs atomically: this one compares and deletes *)
  rl_eval eval ctx k owner w r n err w' r' :
    world_ok w -> rl_ok r -> rc_lockClient = Some eval ->
    eval ctx releaseLockScript [k] [owner] w r = ((n, err), w', r') ->
    later w w' /\ rl_ok r' /\
    release_post rl_peek k owner w r (if noErr err then n =? 1 else false, err) w' r';
  (** SCAN: an iteration ends, and has by then returned every matching key that
      was present all along. *)
  rl_scan_start w r k : rl_ok r -> rl_left r 0 k = false -> removed rl_peek w r k;
  rl_scan_calls r : (0 < rc_scanCalls r 0)%nat;
  rl_scan ctx cursor pattern count w r keys next err w' r' :
    world_ok w -> rl_ok r -> rc_Scan ctx cursor pattern count w r = ((keys, next, err), w', r') ->
    later w w' /\ rl_ok r' /\ (forall k, same_key rl_peek w' r r' k) /\
    (err = None -> simplePattern pattern ->
     (forall k, k ∈ keys -> glob pattern k = true) /\
     (forall k, rl_left r cursor k = true -> glob pattern k = true ->
        k ∈ keys \/ removed rl_peek w' r' k \/ next <> 0 /\ rl_left r' next k = true)) /\
    (err = None -> next <> 0 -> (0 < rc_scanCalls r' next < rc_scanCalls r cursor)%nat)
}.
End Laws.
Arguments RedisLaws R {_}.
