(* ===== verification/RedisContract.v ===== *)
(** * The Redis store keeps the contracts

    Over a server that behaves as documented ([RedisLaws]), the store of
    [RedisStore] keeps the store and lock contracts for keys under its prefix and
    leaves every other key of the server alone; its loops over [Scan] end.  The
    prefix must stand for itself as a glob pattern, which the last part shows to
    be necessary. *)

From Stdlib Require Import Strings.Ascii.
From S2P Require Import Prelude GoStd CacheCore Transport InspectHelpers Shaping Wrapping MemoryStore RedisStore.

(** ** Patterns *)

(** A text without metacharacters stands for itself. *)
Definition literalChar (c : Ascii.ascii) : bool :=
  simpleChar c && negb (bool_decide (c = "*"%char) || bool_decide (c = "?"%char)).
Definition literal (prefix : string) : Prop := allChars literalChar prefix = true.

Lemma glob_star s : glob "*" s = true.
Proof.
  change (glob "*") with (fix any (s : string) : bool :=
    bool_decide (s = EmptyString) || match s with String _ s' => any s' | EmptyString => false end).
  induction s as [|c s IH]; [done|]. cbn. by rewrite IH.
Qed.

Lemma glob_literal p rest s :
  literal p -> glob (p +:+ rest) s = true <-> exists s', s = p +:+ s' /\ glob rest s' = true.
Proof.
  revert s. induction p as [|c p IH]; intros s Hp.
  { split; [by exists s | by intros (s' & -> & ?)]. }
  unfold literal in Hp. simpl in Hp. apply andb_true_iff in Hp as [Hc Hp].
  unfold literalChar in Hc. apply andb_true_iff in Hc as [_ Hc]. apply negb_true_iff, orb_false_iff in Hc as [H1 H2].
  simpl. rewrite decide_False by by apply bool_decide_eq_false in H1. rewrite H2. simpl.
  destruct s as [|d s].
  { split; [done|]. by intros (s' & [=] & _). }
  rewrite andb_true_iff, IH, bool_decide_eq_true by done. split.
  - intros [-> (s' & -> & ?)]. by exists s'.
  - intros (s' & [= -> ->] & ?). split; [done|]. by exists s'.
Qed.

Lemma literal_colon p : literal p -> literal (p +:+ ":").
Proof. unfold literal. induction p as [|c p IH]; simpl; [done|]. intros [-> ?]%andb_true_iff. by apply IH. Qed.

Lemma cacheKey_assoc p k : redis_cacheKey p k = (p +:+ ":") +:+ k.
Proof. apply string_app_assoc. Qed.

(** The pattern of [Flush] and [ListPage] matches the keys under the prefix. *)
Lemma glob_cacheKey p s : literal p -> glob (redis_cacheKey p "*") s = true <-> exists k, s = redis_cacheKey p k.
Proof.
  intros Hp. rewrite cacheKey_assoc, glob_literal by by apply literal_colon.
  split.
  - intros (k & -> & _). exists k. by rewrite cacheKey_assoc.
  - intros (k & ->). exists k. split; [apply cacheKey_assoc | apply glob_star].
Qed.

Lemma simple_cacheKey p : literal p -> simplePattern (redis_cacheKey p "*").
Proof.
  unfold literal, simplePattern, redis_cacheKey. induction p as [|c p IH]; [done|].
  simpl. unfold literalChar at 1. intros [[-> _]%andb_true_iff ?]%andb_true_iff. by apply IH.
Qed.

#[export] Instance cacheKey_inj p : Inj (=) (=) (redis_cacheKey p).
Proof.
  intros k k' E. rewrite !cacheKey_assoc in E. apply (f_equal (fun s => TrimPrefix s (p +:+ ":"))) in E.
  by rewrite !TrimPrefix_app in E.
Qed.

Section Contract.
Context {R : Type} `{RedisLaws R}.
#[local] Existing Instance serverKeys.
Implicit Types (s : redisStore R) (r : R).

#[export] Instance redisStore_keys : KeySpace (redisStore R) :=
  mkKeySpace _ (fun k' k => k' <> k) (fun _ ttl => ttl mod Millisecond = 0).

(** A store with a client, whose prefix is no pattern. *)
Definition redis_ok s : Prop :=
  ttl_ok (rs_defaultTTL s) /\ literal (rs_prefix s) /\ exists r, rs_client s = Some r /\ rl_ok r.

Definition server_occupied r t k : Prop := is_Some (rl_peek r t k).

Definition redis_peek s (t : Z) (k : string) : option bytes :=
  match rs_client s with
  | Some r => rl_peek r t (redis_cacheKey (rs_prefix s) k)
  | None => None
  end.
Definition redis_occupied s t k : Prop := is_Some (redis_peek s t k).

Lemma redis_ok_inv s : redis_ok s -> exists r d p, s = mkRedisStore (Some r) d p /\ rl_ok r /\ ttl_ok d /\ literal p.
Proof. destruct s as [c d p]. intros (Hd & Hp & r & Hc & Hr). simpl in Hc. subst c. by exists r, d, p. Qed.

Lemma redis_ok_with r d p : rl_ok r -> ttl_ok d -> literal p -> redis_ok (mkRedisStore (Some r) d p).
Proof. intros. split; [done|]. split; [done|]. by exists r. Qed.

Lemma onClient_inv {A} z (body : redisStore R -> M R A) w r d p a w' s' :
  onClient z body w (mkRedisStore (Some r) d p) = (a, w', s') ->
  exists r', body (mkRedisStore (Some r) d p) w r = (a, w', r') /\ s' = mkRedisStore (Some r') d p.
Proof.
  unfold onClient. simpl. destruct (body _ w r) as [[a1 w1] r1]. intros [= <- <- <-]. eauto.
Qed.

Lemma redis_ttl_ok s ttl : ttl_ok ttl -> redis_ttl s ttl = ttl.
Proof. intros [? _]. unfold redis_ttl. by destruct (Z.leb_spec ttl 0); [lia|]. Qed.

(** An operation of the server on the prefixed key is one of the store on the key. *)
Section Prefixed.
Context (d : Z) (p : string).
#[local] Abbreviation over := (fun r => mkRedisStore (Some r) d p).
#[local] Abbreviation key := (redis_cacheKey p).

Lemma over_peek r t k : redis_peek (over r) t k = rl_peek r t (key k).
Proof. done. Qed.

Lemma over_occupied r t k : redis_occupied (over r) t k <-> server_occupied r t (key k).
Proof. done. Qed.

Lemma over_apart k' k : apart (S := redisStore R) k' k -> apart (S := R) (key k') (key k).
Proof. intros Hne E. by apply Hne, (inj key). Qed.

Lemma over_storable k ttl : storable (S := redisStore R) k ttl -> storable (S := R) (key k) ttl.
Proof. done. Qed.
End Prefixed.
#[local] Hint Resolve over_peek over_occupied over_apart over_storable Z.le_refl : core.

Lemma clientGet_spec p ctx k w r x w' r' :
  world_ok w -> rl_ok r -> clientGet p ctx k w r = (x, w', r') ->
  later w w' /\ rl_ok r' /\ get_post rl_peek (redis_cacheKey p k) w r x w' r'.
Proof.
  intros Hw Hr. unfold clientGet. go_simpl. destruct (rc_Get ctx _ w r) as [[[b err] w1] r1] eqn:E.
  apply rl_get in E as (Hl & Hr1 & Hs & Hp); [|done..].
  destruct err as [e|]; [destruct (errorsIs e RedisNil)|]; intros [= <- <- <-]; repeat (split; [done|]); auto.
Qed.

Lemma redis_get ctx k w s x w' s' :
  world_ok w -> redis_ok s -> redis_Get ctx k w s = (x, w', s') ->
  later w w' /\ redis_ok s' /\ get_post redis_peek k w s x w' s'.
Proof.
  intros Hw (r & d & p & -> & Hr & Hd & Hp)%redis_ok_inv E. apply onClient_inv in E as (r' & E & ->).
  apply clientGet_spec in E as (Hl & Hr' & Hpost); [|done..]. split; [done|].
  split; [by apply redis_ok_with|]. by apply (get_post_map (redis_cacheKey p) (fun r => mkRedisStore (Some r) d p) rl_peek).
Qed.

Lemma redis_set ctx k v ttl w s err w' s' :
  world_ok w -> redis_ok s -> ttl_ok ttl -> redis_Set ctx k v ttl w s = (err, w', s') ->
  later w w' /\ redis_ok s' /\ set_post redis_peek rl_grain k v ttl w s err w' s'.
Proof.
  intros Hw (r & d & p & -> & Hr & Hd & Hp)%redis_ok_inv Ht E. apply onClient_inv in E as (r' & E & ->).
  rewrite redis_ttl_ok in E by done. apply rl_set in E as (Hl & Hr' & Hpost); [|done..]. split; [done|].
  split; [by apply redis_ok_with|].
  eapply (set_post_map (redis_cacheKey p) (fun r => mkRedisStore (Some r) d p) rl_peek); eauto.
Qed.

Lemma redis_add ctx k v ttl w s x w' s' :
  world_ok w -> redis_ok s -> ttl_ok ttl -> redis_Add ctx k v ttl w s = (x, w', s') ->
  later w w' /\ redis_ok s' /\ add_post redis_peek redis_occupied rl_grain k v ttl w s x w' s'.
Proof.
  intros Hw (r & d & p & -> & Hr & Hd & Hp)%redis_ok_inv Ht E. apply onClient_inv in E as (r' & E & ->).
  go_simpl_in E. rewrite redis_ttl_ok in E by done.
  destruct (rc_SetNX _ _ _ _ w r) as [[[created err] w1] r1] eqn:E1.
  apply rl_setNX in E1 as (Hl & Hr1 & Hpost); [|done..].
  assert (x = (if noErr err then created else false, err) /\ w1 = w' /\ r1 = r') as (-> & -> & ->).
  { destruct err; by injection E as <- <- <-. }
  split; [done|]. split; [by apply redis_ok_with|].
  eapply (add_post_map (redis_cacheKey p) (fun r => mkRedisStore (Some r) d p) rl_peek _ server_occupied); eauto.
Qed.

Lemma redis_release ctx k owner w s x w' s' :
  world_ok w -> redis_ok s -> rc_lockClient (R := R) <> None -> redis_LockRelease ctx k owner w s = (x, w', s') ->
  later w w' /\ redis_ok s' /\ release_post redis_peek k owner w s x w' s'.
Proof.
  intros Hw (r & d & p & -> & Hr & Hd & Hp)%redis_ok_inv Hev E. apply onClient_inv in E as (r' & E & ->).
  destruct rc_lockClient as [eval|] eqn:Eev; [|done]. go_simpl_in E. simpl in E.
  destruct (eval _ _ _ _ w r) as [[[n err] w1] r1] eqn:E1.
  eapply rl_eval in E1 as (Hl & Hr1 & Hpost); [|done..].
  assert (x = (if noErr err then n =? 1 else false, err) /\ w1 = w' /\ r1 = r') as (-> & -> & ->).
  { destruct err; by injection E as <- <- <-. }
  split; [done|]. split; [by apply redis_ok_with|].
  eapply (release_post_map (redis_cacheKey p) (fun r => mkRedisStore (Some r) d p) rl_peek); eauto.
Qed.

Lemma redis_delete ctx k w s err w' s' :
  world_ok w -> redis_ok s -> redis_Delete ctx k w s = (err, w', s') ->
  later w w' /\ redis_ok s' /\ delete_post redis_peek k w s err w' s'.
Proof.
  intros Hw (r & d & p & -> & Hr & Hd & Hp)%redis_ok_inv E. apply onClient_inv in E as (r' & E & ->).
  go_simpl_in E. destruct (rc_Del ctx _ w r) as [[[n e] w1] r1] eqn:E1. injection E as <- <- <-.
  apply rl_del in E1 as (Hl & Hr1 & [Hk Hpost] & Herr & _); [|done..]. split; [done|].
  split; [by apply redis_ok_with|].
  assert (Hin : redis_cacheKey p k ∈ [redis_cacheKey p k]) by (apply elem_of_cons; by left).
  eapply (delete_post_map (redis_cacheKey p) (fun r => mkRedisStore (Some r) d p) rl_peek); eauto. split.
  - intros k' Ha. apply Hk. by intros k0 ->%list_elem_of_singleton.
  - destruct e as [e|]; [|by apply Hpost]. destruct Herr as [?|Hrm]; [done|by left|right; by apply Hrm].
Qed.

Lemma redis_deleteMany ctx ks w s err w' s' :
  world_ok w -> redis_ok s -> redis_DeleteMany ctx ks w s = (err, w', s') ->
  later w w' /\ redis_ok s' /\ deleteMany_post redis_peek ks w s err w' s'.
Proof.
  intros Hw (r & d & p & -> & Hr & Hd & Hp)%redis_ok_inv E. apply onClient_inv in E as (r' & E & ->).
  simpl in E. destruct (Z.eqb_spec (len ks) 0) as [Hlen|Hlen].
  { injection E as <- <- <-. split; [by apply later_refl|]. split; [by apply redis_ok_with|].
    destruct ks as [|? ?]; [|unfold len in Hlen; simpl in Hlen; lia].
    split; [by intros k _ t | by intros k ?%elem_of_nil]. }
  go_simpl_in E. destruct (rc_Del ctx _ w r) as [[[n e] w1] r1] eqn:E1. injection E as <- <- <-.
  apply rl_del in E1 as (Hl & Hr1 & Hpost & _); [|done..]. split; [done|]. split; [by apply redis_ok_with|].
  eapply (deleteMany_post_map (redis_cacheKey p) (fun r => mkRedisStore (Some r) d p) rl_peek); eauto.
Qed.

(** ** The iterations end *)

(** Every key that matches the pattern is gone, or the iteration has yet to return
    it. *)
Definition swept pattern cursor (w : World) r : Prop :=
  forall k, glob pattern k = true -> removed rl_peek w r k \/ rl_left r cursor k = true.

(** What one turn of the loop of [Flush] deletes. *)
Lemma deleteScanned_spec ctx keys w r err w' r' :
  world_ok w -> rl_ok r -> deleteScanned ctx keys w r = (err, w', r') ->
  later w w' /\ rl_ok r' /\ (forall k, k ∉ keys -> same_key rl_peek w' r r' k) /\
  (err = None -> forall k, k ∈ keys -> removed rl_peek w' r' k) /\
  (forall c k, rl_left r c k = true -> rl_left r' c k = true \/ k ∈ keys) /\
  (forall c, (rc_scanCalls r' c <= rc_scanCalls r c)%nat).
Proof.
  intros Hw Hr. unfold deleteScanned. destruct (Z.gtb_spec (len keys) 0) as [Hk|Hk].
  - go_simpl. destruct (rc_Del ctx keys w r) as [[[n e] w1] r1] eqn:E. intros [= <- <- <-].
    apply rl_del in E as (? & ? & [Hs Hd] & _ & ? & ?); [|done..]. repeat (split; [done|]).
    split; [intros k Hk'; apply Hs; by intros k0 Hk0 -> | by split; [intros ->|]].
  - intros [= <- <- <-]. destruct keys as [|? ?]; [|unfold len in Hk; simpl in Hk; lia].
    split; [by apply later_refl|]. split; [done|]. split; [by intros k _ t|].
    split; [by intros _ k ?%elem_of_nil|]. auto.
Qed.

(** One turn of the loop of [Flush]. *)
Lemma flush_turn ctx pattern cursor w r keys next w1 r1 w2 r2 :
  world_ok w -> rl_ok r -> simplePattern pattern -> swept pattern cursor w r ->
  rc_Scan ctx cursor pattern 200 w r = ((keys, next, None), w1, r1) ->
  deleteScanned ctx keys w1 r1 = (None, w2, r2) ->
  (next = 0 -> forall k, glob pattern k = true -> removed rl_peek w2 r2 k) /\
  (next <> 0 -> swept pattern next w2 r2 /\ (0 < rc_scanCalls r1 next < rc_scanCalls r cursor)%nat /\
                (rc_scanCalls r2 next <= rc_scanCalls r1 next)%nat).
Proof.
  intros Hw Hr Hp Hsw E1 E2. apply rl_scan in E1 as (Hl1 & Hr1 & Hs1 & Hm & Hc); [|done..].
  destruct (Hm eq_refl Hp) as [_ Hleft].
  apply deleteScanned_spec in E2 as (Hl2 & Hr2 & Hs2 & Hgone & Hl & Hc2); [|by eauto with go|done].
  assert (Hrm : forall k, removed rl_peek w1 r1 k -> removed rl_peek w2 r2 k).
  { intros k Hk. destruct (decide (k ∈ keys)); [by apply Hgone|].
    eapply removed_same_key; [by eapply removed_widen | by apply Hs2]. }
  assert (Hturn : forall k, glob pattern k = true -> removed rl_peek w2 r2 k \/ next <> 0 /\ rl_left r2 next k = true).
  { intros k Hg. destruct (Hsw k Hg) as [Hk|Hk].
    - left. apply Hrm. eapply removed_same_key; [by eapply removed_widen | done].
    - destruct (Hleft k Hk Hg) as [Hin|[?|[Hn Hk']]]; [auto..|]. destruct (Hl _ _ Hk') as [?|?]; auto. }
  split.
  - intros Hn k Hg. by destruct (Hturn k Hg) as [?|[? _]].
  - intros Hn. split; [|auto]. intros k Hg. destruct (Hturn k Hg) as [?|[_ ?]]; auto.
Qed.

Lemma flushLoop_ends fuel ctx pattern cursor w r x w' r' :
  world_ok w -> rl_ok r -> simplePattern pattern -> swept pattern cursor w r ->
  (0 < fuel)%nat -> (rc_scanCalls r cursor <= fuel)%nat ->
  flushLoop fuel ctx pattern cursor w r = (x, w', r') ->
  later w w' /\ rl_ok r' /\
  exists err, x = Some err /\ (err = None -> forall k, glob pattern k = true -> removed rl_peek w' r' k).
Proof.
  revert cursor w r. induction fuel as [|fuel IH]; intros cursor w r Hw Hr Hp Hsw Hf Hc; [lia|].
  cbn [flushLoop]. go_simpl.
  destruct (rc_Scan ctx cursor _ 200 w r) as [[[[keys next] err] w1] r1] eqn:E1.
  pose proof E1 as E1'. apply rl_scan in E1' as (Hl1 & Hr1 & _); [|done..].
  destruct err as [e|].
  { intros [= <- <- <-]. split; [done|]. split; [done|]. by eexists. }
  destruct (deleteScanned ctx keys w1 r1) as [[err w2] r2] eqn:E2. pose proof E2 as E2'.
  apply deleteScanned_spec in E2' as (Hl2 & Hr2 & _); [|by eauto with go|done].
  assert (Hl : later w w2) by by eapply later_trans.
  destruct err as [e|].
  { intros [= <- <- <-]. split; [done|]. split; [done|]. by eexists. }
  eapply flush_turn in E1 as [Hend Hgo]; [|done..].
  destruct (Z.eqb_spec next 0) as [->|Hn].
  { intros [= <- <- <-]. split; [done|]. split; [done|]. eauto. }
  destruct (Hgo Hn) as (Hsw2 & ? & ?). intros E.
  apply IH in E as (? & ? & ?); [|by eauto with go|done|done|done|lia|lia]. split; [by eapply later_trans | done].
Qed.

(** [Flush] removes what its pattern matches, whatever the prefix means. *)
Lemma flush_removes ctx w r d p err w' s' :
  world_ok w -> rl_ok r -> simplePattern (redis_cacheKey p "*") ->
  redis_Flush ctx w (mkRedisStore (Some r) d p) = (err, w', s') ->
  exists r', s' = mkRedisStore (Some r') d p /\ later w w' /\ rl_ok r' /\
    (err = None -> forall k, glob (redis_cacheKey p "*") k = true -> removed rl_peek w' r' k).
Proof.
  intros Hw Hr Hp (r' & E & ->)%onClient_inv. exists r'. split; [done|]. go_simpl_in E. cbn [rs_prefix] in E.
  destruct (flushLoop _ ctx _ 0 w r) as [[x w1] r1] eqn:E1. injection E as <- <- <-.
  apply flushLoop_ends in E1 as (Hl & Hr1 & e & -> & He); [done|done|done|done| |apply rl_scan_calls|done].
  intros k _. destruct (rl_left r 0 _) eqn:El; [by right|left; by eapply rl_scan_start].
Qed.

Lemma redis_flush ctx w s err w' s' :
  world_ok w -> redis_ok s -> redis_Flush ctx w s = (err, w', s') ->
  later w w' /\ redis_ok s' /\ flush_post redis_peek err w' s'.
Proof.
  intros Hw (r & d & p & -> & Hr & Hd & Hp)%redis_ok_inv E.
  apply flush_removes in E as (r' & -> & Hl & Hr' & He); [|done|done|by apply simple_cacheKey].
  split; [done|]. split; [by apply redis_ok_with|].
  eapply (flush_post_map (redis_cacheKey p) (fun r => mkRedisStore (Some r) d p) rl_peek); eauto.
  destruct err; [done|]. intros k. apply He; [done|]. apply glob_cacheKey; eauto.
Qed.

Lemma redis_peek_occupied s t k b : redis_peek s t k = Some b -> redis_occupied s t k.
Proof. unfold redis_occupied. intros ->. eauto. Qed.

#[export] Instance redisStore_contract : StoreContract (redisStore R) := {|
  sc_ok := redis_ok;
  sc_peek := redis_peek;
  sc_occupied := redis_occupied;
  sc_grain := rl_grain;
  sc_grain_nonneg := rl_grain_nonneg;
  sc_peek_occupied := redis_peek_occupied;
  sc_get := redis_get;
  sc_set := redis_set;
  sc_add := redis_add;
  sc_delete := redis_delete;
  sc_deleteMany := redis_deleteMany;
  sc_flush := redis_flush
|}.

(** With a client that supports scripts. *)
Definition redis_lock_ok s : Prop := redis_ok s /\ rc_lockClient (R := R) <> None.

Lemma redis_acquire ctx k owner ttl w s x w' s' :
  world_ok w -> redis_lock_ok s -> ttl_ok ttl -> redis_LockAcquire ctx k owner ttl w s = (x, w', s') ->
  later w w' /\ redis_lock_ok s' /\ add_post redis_peek redis_occupied rl_grain k owner ttl w s x w' s'.
Proof.
  intros Hw [Hs Hev] Ht. unfold redis_LockAcquire. go_simpl.
  pose proof Hs as (r & d & p & -> & _)%redis_ok_inv. simpl.
  destruct rc_lockClient as [eval|] eqn:E; [|done]. intros E1.
  apply redis_add in E1 as (? & ? & ?); [|done..]. split; [done|]. split; [|done]. split; [done | congruence].
Qed.

#[export] Program Instance redisStore_locks : LockContract (redisStore R) := {|
  lc_ops := redis_lock_ops;
  lc_ok := redis_lock_ok;
  lc_lockStore := fun _ _ => eq_refl;
  lc_peek := redis_peek;
  lc_occupied := redis_occupied;
  lc_peek_occupied := redis_peek_occupied;
  lc_grain := rl_grain;
  lc_acquire := redis_acquire
|}.
Next Obligation.
  intros ctx k owner w s x w' s' Hw [Hs Hev] E. apply redis_release in E as (? & ? & ?); [|done..].
  split; [done|]. by split.
Qed.

(** ** Namespaces *)

(** A key of the server that the store with prefix [p] does not use. *)
Definition foreign (p K : string) : Prop := forall k, K <> redis_cacheKey p k.

Lemma flushLoop_foreign fuel ctx p cursor w r x w' r' K :
  world_ok w -> rl_ok r -> literal p -> foreign p K ->
  flushLoop fuel ctx (redis_cacheKey p "*") cursor w r = (x, w', r') ->
  later w w' /\ rl_ok r' /\ same_key rl_peek w' r r' K.
Proof.
  intros Hw Hr Hp HK. revert cursor w r Hw Hr. induction fuel as [|fuel IH]; intros cursor w r Hw Hr; cbn [flushLoop]; go_simpl.
  { intros [= <- <- <-]. split; [by apply later_refl|]. split; [done | by intros t]. }
  destruct (rc_Scan ctx cursor _ 200 w r) as [[[[keys next] err] w1] r1] eqn:E1.
  apply rl_scan in E1 as (Hl1 & Hr1 & Hs1 & Hm & _); [|done..].
  destruct err as [e|]; [by intros [= <- <- <-]|].
  destruct (Hm eq_refl (simple_cacheKey p Hp)) as [Hin _].
  destruct (deleteScanned ctx keys w1 r1) as [[err w2] r2] eqn:E2.
  apply deleteScanned_spec in E2 as (Hl2 & Hr2 & Hs2 & _); [|by eauto with go|done].
  assert (Hs : same_key rl_peek w2 r r2 K).
  { eapply same_key_trans; [by eapply same_key_widen|]. apply Hs2.
    intros [k ?]%Hin%glob_cacheKey; [|done]. by eapply HK. }
  assert (Hl : later w w2) by by eapply later_trans.
  destruct err as [e|]; [by intros [= <- <- <-]|].
  destruct (next =? 0); [by intros [= <- <- <-]|]. intros E.
  apply IH in E as (Hl3 & ? & ?); [|by eauto with go|done]. split; [by eapply later_trans|]. split; [done|].
  eapply same_key_trans; [by eapply same_key_widen | done].
Qed.

(** The operations that may write. *)
Inductive redisOp :=
| RSet (ctx : Context) (key : string) (value : bytes) (ttl : Z)
| RAdd (ctx : Context) (key : string) (value : bytes) (ttl : Z)
| RLockAcquire (ctx : Context) (key : string) (owner : bytes) (ttl : Z)
| RLockRelease (ctx : Context) (key : string) (owner : bytes)
| RIncrement (ctx : Context) (key : string) (delta ttl : Z)
| RDecrement (ctx : Context) (key : string) (delta ttl : Z)
| RDelete (ctx : Context) (key : string)
| RDeleteMany (ctx : Context) (keys : list string)
| RFlush (ctx : Context).

Definition redisOpTTL (op : redisOp) : Z :=
  match op with
  | RSet _ _ _ ttl | RAdd _ _ _ ttl | RLockAcquire _ _ _ ttl | RIncrement _ _ _ ttl | RDecrement _ _ _ ttl => ttl
  | _ => 0
  end.

Definition runRedisOp (op : redisOp) : M (redisStore R) unit :=
  match op with
  | RSet ctx k v ttl => let* _ := redis_Set ctx k v ttl in ret tt
  | RAdd ctx k v ttl => let* _ := redis_Add ctx k v ttl in ret tt
  | RLockAcquire ctx k o ttl => let* _ := redis_LockAcquire ctx k o ttl in ret tt
  | RLockRelease ctx k o => let* _ := redis_LockRelease ctx k o in ret tt
  | RIncrement ctx k d ttl => let* _ := redis_Increment ctx k d ttl in ret tt
  | RDecrement ctx k d ttl => let* _ := redis_Decrement ctx k d ttl in ret tt
  | RDelete ctx k => let* _ := redis_Delete ctx k in ret tt
  | RDeleteMany ctx ks => let* _ := redis_DeleteMany ctx ks in ret tt
  | RFlush ctx => let* _ := redis_Flush ctx in ret tt
  end.

Lemma redis_ttl_range s ttl : redis_ok s -> ttl < horizon -> ttl_ok (redis_ttl s ttl).
Proof. intros [Hd _] Ht. unfold redis_ttl. destruct (Z.leb_spec ttl 0); [done | by split]. Qed.

(** The server after a body that keeps the foreign keys. *)
Definition kept_foreign K (w : World) r (w' : World) r' : Prop :=
  later w w' /\ rl_ok r' /\ same_key rl_peek w' r r' K.

Lemma kept_foreign_refl K w r : world_ok w -> rl_ok r -> kept_foreign K w r w r.
Proof. intros. split; [by apply later_refl|]. split; [done | by intros t]. Qed.

Lemma kept_foreign_trans K w r w1 r1 w2 r2 :
  kept_foreign K w r w1 r1 -> kept_foreign K w1 r1 w2 r2 -> kept_foreign K w r w2 r2.
Proof.
  intros (Hl & _ & Hs) (Hl' & ? & Hs'). split; [by eapply later_trans|]. split; [done|].
  eapply same_key_trans; [by eapply same_key_widen | done].
Qed.

Lemma increment_foreign ctx k delta ttl w r s x w' r' K :
  world_ok w -> rl_ok r -> redis_ok s -> ttl < horizon -> foreign (rs_prefix s) K ->
  clientIncrement s ctx k delta ttl w r = (x, w', r') -> kept_foreign K w r w' r'.
Proof.
  intros Hw Hr Hs Ht HK. unfold clientIncrement. go_simpl.
  destruct (rc_IncrBy _ _ _ w r) as [[[n err] w1] r1] eqn:E1.
  apply rl_incrBy in E1 as (Hl & Hr1 & Hs1 & _); [|done..].
  assert (H1 : kept_foreign K w r w1 r1) by (split; [done|]; split; [done|]; by apply Hs1).
  destruct err as [e|]; [by intros [= <- <- <-]|].
  destruct (redis_ttl s ttl >? 0); [|by intros [= <- <- <-]].
  destruct (rc_Expire _ _ _ w1 r1) as [[[b err] w2] r2] eqn:E2.
  apply rl_expire in E2 as (Hl2 & Hr2 & Hs2 & _); [|by eauto with go|done|by apply redis_ttl_range].
  assert (H2 : kept_foreign K w1 r1 w2 r2) by (split; [done|]; split; [done|]; by apply Hs2).
  destruct err; intros [= <- <- <-]; by eapply kept_foreign_trans.
Qed.

Lemma add_foreign ctx k v ttl w r d p K x w' s' :
  world_ok w -> rl_ok r -> ttl_ok d -> literal p -> ttl < horizon -> foreign p K ->
  redis_Add ctx k v ttl w (mkRedisStore (Some r) d p) = (x, w', s') ->
  exists r', s' = mkRedisStore (Some r') d p /\ kept_foreign K w r w' r'.
Proof.
  intros Hw Hr Hd Hp Ht HK (r' & E & ->)%onClient_inv. exists r'. split; [done|]. go_simpl_in E.
  destruct (rc_SetNX _ _ _ _ w r) as [[[created err] w1] r1] eqn:E1.
  apply rl_setNX in E1 as (Hl & Hr1 & Hk & _); [|done|done|by (apply redis_ttl_range; [apply redis_ok_with|])].
  destruct err; injection E as <- <- <-; (split; [done|]); (split; [done|]); exact (Hk _ (HK k)).
Qed.

Lemma discard_inv {T A} (m : M T A) w y w' y' :
  (let* _ := m in ret tt)%go w y = (tt, w', y') -> exists x, m w y = (x, w', y').
Proof. go_simpl. destruct (m w y) as [[x w1] y1]. intros [= <- <-]. eauto. Qed.


(** ** Counters *)

(** C21: a successful [Increment] returns the number the counter had, 0 when it did
    not exist, plus [delta], exactly and without wrap-around; nothing else is
    visible under the key afterwards, and with an effective TTL of whole seconds
    the counter then lives for that TTL.  Because the expiry is set by a second
    command, a counter that existed may expire between the two: then it is gone. *)
Theorem redis_Increment_counts ctx k delta ttl w s n w' s' :
  world_ok w -> redis_ok s -> ttl < horizon -> redis_Increment ctx k delta ttl w s = ((n, None), w', s') ->
  in_int64 n /\
  exists v c, seen redis_peek w w' s k v /\ counts v c /\ n = c + delta /\
    (forall t b, now w' <= t -> redis_peek s' t k = Some b -> b = bytes_of_string (FormatInt n)) /\
    (redis_ttl s ttl mod Second = 0 ->
       stored redis_peek rl_grain (redis_ttl s ttl) w w' s' k (bytes_of_string (FormatInt n)) \/
       v <> None /\ removed redis_peek w' s' k).
Proof.
  intros Hw Hs Ht E. pose proof (redis_ttl_range s ttl Hs Ht) as Httl.
  apply redis_ok_inv in Hs as (r & d & p & -> & Hr & _ & _). apply onClient_inv in E as (r' & E & ->).
  set (T := redis_ttl (mkRedisStore (Some r) d p) ttl) in *.
  unfold clientIncrement in E. go_simpl_in E. fold T in E. cbn [rs_prefix] in E.
  destruct (rc_IncrBy _ _ _ w r) as [[[m err] w1] r1] eqn:E1. destruct err as [e|]; [done|].
  apply rl_incrBy in E1 as (Hl1 & Hr1 & _ & (Hin & Hval & v & c & Hv & Hc & -> & Hnew)%(fun f => f eq_refl)); [|done..].
  destruct (Z.gtb_spec T 0); [|by destruct Httl; lia].
  destruct (rc_Expire _ _ _ w1 r1) as [[[x err] w2] r2] eqn:E2. destruct err as [e|]; [done|].
  injection E as <- <- <-. apply rl_expire in E2 as (Hl2 & Hr2 & _ & Hx); [|by eauto with go|done|done].
  pose proof (later_now _ _ Hl1). pose proof (later_now _ _ Hl2).
  split; [done|]. exists v, c. split; [|split; [done|split; [done|]]].
  { eapply (seen_map (redis_cacheKey p) (fun r => mkRedisStore (Some r) d p) rl_peek); [done|].
    eapply seen_widen; [done|by apply later_refl|done]. }
  destruct x.
  - destruct Hx as (b & (t & Htt & Eb) & Honly & Hst). apply Hval in Eb as ->; [|lia]. split.
    + intros t' b' Ht'. apply Honly. done.
    + intros Hsec. left. eapply (stored_map (redis_cacheKey p) (fun r => mkRedisStore (Some r) d p) rl_peek); [done|done|].
      eapply stored_widen; [by apply Hst|done|]. apply later_refl. by eauto with go.
  - destruct Hx as [(t & Htt & En) Hrm]. split.
    + intros t' b' Ht' Eb. by rewrite over_peek, Hrm in Eb.
    + intros _. right. split; [|by apply (removed_map (redis_cacheKey p) (fun r => mkRedisStore (Some r) d p) rl_peek)].
      intros ->. destruct (Hnew eq_refl t) as [? Hsome]; [lia | congruence].
Qed.

End Contract.

(** The scope of [Flush] is a pattern, not a prefix.  A store whose prefix is
    [team?] shares a server with one whose prefix is [team1]: when its [Flush]
    succeeds, every key of the other store is gone. *)
Theorem redis_Flush_pattern {R} `{RedisLaws R} ctx (r : R) d d' w w' s' :
  world_ok w -> rl_ok r -> redis_Flush ctx w (mkRedisStore (Some r) d "team?") = (None, w', s') ->
  exists r', rs_client s' = Some r' /\
    forall k, removed redis_peek w' (mkRedisStore (Some r') d' "team1") k.
Proof.
  intros Hw Hr E. apply flush_removes in E as (r' & -> & Hl & _ & He); [|done..].
  exists r'. split; [done|]. intros k t Ht. unfold redis_peek. simpl.
  apply He; [done| |done]. apply glob_star.
Qed.

(** A store built by [New] over a server, with any of gzip, size limit and
    encryption and a prefix without glob metacharacters, returns what was written:
    a [Get] that ends within a TTL of whole milliseconds after a successful [Set]
    reads the value or reports an error.  A configuration that cannot be wrapped
    makes [Set] fail, although [New] drops the error.  The value is any, except
    that with a size limit and neither compression nor encryption it must not itself start with
    the compression marker. *)
Theorem redis_New_set_get {R TLS} `{RedisLaws R} `{GzipLaws} `{CryptoLaws} (NewClient : redisOptions TLS -> R)
    (cfg : redisConfig R TLS) r ctx ctx' k v ttl w w1 x1 w2 res w3 x3 :
  rcfg_Client cfg = Some r -> rl_ok r -> literal (Prefix (rcfg_base cfg)) ->
  DefaultTTL (rcfg_base cfg) < horizon -> readable (rcfg_base cfg) v ->
  world_ok w -> ttl_ok ttl -> ttl mod Millisecond = 0 ->
  Store_Set ctx k v ttl w (redis_New NewClient cfg) = (None, w1, x1) -> later w1 w2 ->
  Store_Get ctx' k w2 x1 = (res, w3, x3) -> now w3 <= now w + ttl -> hit_or_error v res.
Proof.
  intros Hc Hr Hp Hd Htr Hw Ht Hms E1 Hl E2 Hn. unfold redis_New in E1.
  assert (Hok : redis_ok (redis_backend NewClient cfg)).
  { unfold redis_backend. rewrite Hc. split; [|split; [|by exists r]]; simpl.
    - destruct (Z.leb_spec (DefaultTTL (rcfg_base cfg)) 0); [by split | by split].
    - by destruct (decide _). }
  destruct (WrapStore _ _) as [x [e|]] eqn:Ew.
  { by apply WrapStore_error in Ew as [_ ->]. }
  exact (WrapStore_roundtrip _ (redis_backend NewClient cfg) _ x k ttl (contract_roundtrips (S := redisStore R) k ttl Hms Ht) Hok Ew
    ctx ctx' v w x w1 x1 w2 res w3 x3 Htr eq_refl Hw E1 Hl E2 Hn).
Qed.

(** ** A server, for the witnesses *)

Module RedisServer.
(** Values with the instant they expire at, if any; scripts other than the
    store's are not run, and one call of SCAN returns every match. *)
Record server := mkServer { kv : gmap string (bytes * option Z); expireFails : bool }.

Definition alive (t : Z) (e : option Z) : bool := match e with None => true | Some x => t <=? x end.
Definition peek (r : server) (t : Z) (k : string) : option bytes :=
  match kv r !! k with Some (v, e) => if alive t e then Some v else None | None => None end.
Definition put_ k v e (r : server) : server := mkServer (<[k := (v, e)]> (kv r)) (expireFails r).
Definition drop (ks : list string) (r : server) : server :=
  mkServer (filter (fun kx => kx.1 ∉ ks) (kv r)) (expireFails r).

Definition Eval (_ : Context) (script : string) (keys : list string) (args : list bytes) : M server (Z * option error) :=
  fun w r =>
    match keys, args with
    | [k], [owner] =>
        if decide (script = releaseLockScript) then
          if decide (peek r (now w) k = Some owner) then ((1, None), w, drop [k] r) else ((0, None), w, r)
        else ((0, Some (ErrorString "unknown script")), w, r)
    | _, _ => ((0, Some (ErrorString "wrong number of arguments")), w, r)
    end.

#[export] Instance client : RedisClient server := {|
  rc_Ping := fun _ => ret None;
  rc_Get := fun _ k w r =>
    (match peek r (now w) k with Some v => (v, None) | None => ([], Some RedisNil) end, w, r);
  rc_Set := fun _ k v ttl w r => (None, w, put_ k v (Some (now w + ttl)) r);
  rc_SetNX := fun _ k v ttl w r =>
    match peek r (now w) k with
    | Some _ => ((false, None), w, r)
    | None => ((true, None), w, put_ k v (Some (now w + ttl)) r)
    end;
  rc_IncrBy := fun _ k delta w r =>
    let '(c, e) :=
      match peek r (now w) k with
      | Some v => (ParseInt (string_of_bytes v), match kv r !! k with Some (_, e) => e | None => None end)
      | None => (Some 0, None)
      end in
    match c with
    | Some c =>
        if decide (in_int64 (c + delta))
        then ((c + delta, None), w, put_ k (bytes_of_string (FormatInt (c + delta))) e r)
        else ((0, Some (ErrorString "ERR increment or decrement would overflow")), w, r)
    | None => ((0, Some (ErrorString "ERR value is not an integer or out of range")), w, r)
    end;
  rc_Expire := fun _ k ttl w r =>
    if expireFails r then ((false, Some (ErrorString "i/o timeout")), w, r)
    else match peek r (now w) k with
         | Some v => ((true, None), w, put_ k v (Some (now w + ttl)) r)
         | None => ((false, None), w, drop [k] r)
         end;
  rc_Del := fun _ ks w r => ((len ks, None), w, drop ks r);
  rc_Scan := fun _ _ pattern _ w r => (((filter (fun k => glob pattern k = true) ((map_to_list (kv r)).*1)), 0, None), w, r);
  rc_lockClient := Some Eval;
  rc_scanCalls := fun _ _ => 1%nat
|}.

Lemma peek_put r k v e t k' :
  peek (put_ k v e r) t k' = if decide (k' = k) then if alive t e then Some v else None else peek r t k'.
Proof.
  unfold peek, put_. simpl. destruct (decide (k' = k)) as [->|Hne]; [by rewrite lookup_insert_eq|].
  by rewrite lookup_insert_ne.
Qed.

Lemma peek_drop r ks t k : peek (drop ks r) t k = if decide (k ∈ ks) then None else peek r t k.
Proof.
  unfold peek, drop. simpl. destruct (decide (k ∈ ks)) as [Hk|Hk].
  - rewrite map_lookup_filter_None_2; [done|]. right. by intros x _ Hn.
  - destruct (kv r !! k) as [[v e]|] eqn:E.
    + by rewrite (map_lookup_filter_Some_2 _ _ k (v, e)).
    + rewrite map_lookup_filter_None_2; [done|]. by left.
Qed.

(** A value put with a TTL is stored for it. *)
Lemma put_stored r k v ttl w : stored peek 0 ttl w w (put_ k v (Some (now w + ttl)) r) k v.
Proof.
  split; [|split]; intros t; [intros Ht|intros Ht Ht'|intros b Ht]; rewrite peek_put, decide_True by done; simpl;
    destruct (Z.leb_spec t (now w + ttl)); done || lia || congruence.
Qed.

Lemma put_others r k v e w k' : k' <> k -> same_key peek w r (put_ k v e r) k'.
Proof. intros Hne t Ht. by rewrite peek_put, decide_False. Qed.

Lemma drop_removed r ks w k : k ∈ ks -> removed peek w (drop ks r) k.
Proof. intros Hk t Ht. by rewrite peek_drop, decide_True. Qed.

Lemma drop_others r ks w k : k ∉ ks -> same_key peek w r (drop ks r) k.
Proof. intros Hk t Ht. by rewrite peek_drop, decide_False. Qed.

Lemma seen_now r k w v : peek r (now w) k = v -> seen peek w w r k v.
Proof. intros E. exists (now w). split; [lia | done]. Qed.

#[local] Existing Instance serverKeys.
#[local] Hint Resolve later_refl put_stored put_others drop_removed drop_others seen_now same_key_refl : core.

Lemma incr_put r k w c delta e :
  in_int64 (c + delta) -> counts (peek r (now w) k) c -> (peek r (now w) k = None -> e = None) ->
  let r' := put_ k (bytes_of_string (FormatInt (c + delta))) e r in
  in_int64 (c + delta) /\
  (forall t b, now w <= t -> peek r' t k = Some b -> b = bytes_of_string (FormatInt (c + delta))) /\
  exists v c0, seen peek w w r k v /\ counts v c0 /\ c + delta = c0 + delta /\
    (v = None -> forall t, now w <= t -> is_Some (peek r' t k)).
Proof.
  intros Hin Hc He. split; [done|]. split.
  - intros t b _. rewrite peek_put, decide_True by done. destruct (alive t e); congruence.
  - exists (peek r (now w) k), c. split; [auto|]. split; [done|]. split; [done|].
    intros Hn t _. rewrite peek_put, decide_True, He by done. simpl. eauto.
Qed.

#[export] Program Instance laws : RedisLaws server := {|
  rl_ok := fun _ => True;
  rl_peek := peek;
  rl_left := fun r _ k => bool_decide (is_Some (kv r !! k));
  rl_grain := 0
|}.
Next Obligation. done. Qed.
Next Obligation.
  intros ctx k w r b err w' r' Hw _. simpl. destruct (peek r (now w) k) eqn:E; intros [= <- <- <- <-]; eauto 10.
Qed.
Next Obligation.
  intros ctx k v ttl w r err w' r' Hw _ _ [= <- <- <-]. split; [auto|]. split; [done|]. split; [auto|]. by intros _.
Qed.
Next Obligation.
  intros ctx k v ttl w r x err w' r' Hw _ _. simpl. destruct (peek r (now w) k) eqn:E; intros [= <- <- <- <-];
    (split; [auto|]); (split; [done|]); (split; [auto|]).
  - split; [|auto]. exists (now w). split; [lia|]. rewrite E. eauto.
  - split; [|by intros _]. exists (now w). split; [lia|]. rewrite E. by intros [].
Qed.
Next Obligation.
  intros ctx k delta w r n err w' r' Hw _. simpl. destruct (peek r (now w) k) as [v|] eqn:E; [destruct (ParseInt _) as [c|] eqn:Ep|];
    [destruct (decide _)| |destruct (decide _)]; intros [= <- <- <- <-];
    (split; [auto|]); (split; [done|]); (split; [auto|]); try done; intros _; apply incr_put; rewrite ?E; done.
Qed.
Next Obligation.
  intros ctx k ttl w r x err w' r' Hw _ _. simpl. destruct (expireFails r); [|destruct (peek r (now w) k) as [v|] eqn:E];
    intros [= <- <- <- <-]; (split; [auto|]); (split; [done|]).
  - split; [auto|done].
  - split; [auto|]. exists v. split; [auto|]. destruct (put_stored r k v ttl w) as (? & ? & ?). done.
  - split; [intros k' Hk; apply drop_others; by rewrite list_elem_of_singleton|]. split; [auto|]. apply drop_removed. by apply list_elem_of_singleton.
Qed.
Next Obligation.
  intros ctx ks w r n err w' r' Hw _ [= <- <- <- <-]. split; [auto|]. split; [done|]. split; [|split; [done|split]].
  - split; [|auto]. intros k Hk. apply drop_others. intros Hin. by apply (Hk k).
  - intros _ k [[v e] Hk]%bool_decide_eq_true. destruct (decide (k ∈ ks)); [by right|left].
    apply bool_decide_eq_true. exists (v, e). by apply map_lookup_filter_Some_2.
  - done.
Qed.
Next Obligation.
  intros eval ctx k owner w r n err w' r' Hw _ [= <-]. unfold Eval. rewrite decide_True by done.
  destruct (decide _) as [E|E]; intros [= <- <- <- <-]; (split; [auto|]); (split; [done|]).
  - split; [intros k' Hk; apply drop_others; by rewrite list_elem_of_singleton|].
    split; [left; auto|]. apply drop_removed. by apply list_elem_of_singleton.
  - split; [auto|]. split; [|auto]. eauto.
Qed.
Next Obligation.
  intros w r k _ Hk t _. apply bool_decide_eq_false in Hk. unfold peek. destruct (kv r !! k); [|done].
  exfalso. eauto.
Qed.
Next Obligation. intros r. simpl. lia. Qed.
Next Obligation.
  intros ctx cursor pattern count w r keys next err w' r' Hw _ [= <- <- <- <- <-].
  split; [auto|]. split; [done|]. split; [auto|]. split; [|done]. intros _ _. split.
  - intros k Hk. by apply list_elem_of_filter in Hk as [? _].
  - intros k [[v e] Hk]%bool_decide_eq_true Hm. left. apply list_elem_of_filter. split; [done|].
    apply elem_of_map_to_list in Hk. by apply (list_elem_of_fmap_2 fst) in Hk.
Qed.
End RedisServer.

(** ** Witnesses *)

Module RedisRuns.
#[export] Existing Instances RedisServer.client RedisServer.laws Toy.gzip Toy.gzip_ok Toy.crypto Toy.crypto_ok.

(** Two keys of a store with prefix [team1], one of them a counter. *)
Definition server0 : RedisServer.server :=
  RedisServer.mkServer {["team1:x" := (bytes_of_string "Ada", None); "team1:hits" := (bytes_of_string "41", None)]} false.
Definition over (p : string) : redisStore RedisServer.server := mkRedisStore (Some server0) Minute p.

Definition flushed := redis_Flush Background world_example (over "team?").
Definition foreignFlush := runRedisOp (RFlush Background) world_example (over "app").
Definition hit := redis_Increment Background "hits" 1 Minute world_example (over "team1").

(** The same increment when [Expire] fails after [IncrBy] has succeeded. *)
Definition server1 : RedisServer.server := RedisServer.mkServer ∅ true.
Definition lost := redis_Increment Background "hits" 1 Minute world_example (mkRedisStore (Some server1) Minute "app").

(** [New] with gzip, a size limit and encryption. *)
Definition config : redisConfig RedisServer.server unit :=
  mkRedisConfig cfg_example EmptyString EmptyString EmptyString 0 None (Some server0).
Definition store := redis_New (fun _ => server0) config.
Definition set1 := Store_Set Background "user:1" (bytes_of_string "Ada") Minute world_example store.
Definition get1 := Store_Get Background "user:1" (wv set1) (sv set1).

Lemma over_ok p : literal p -> redis_ok (over p).
Proof. intros Hp. split; [split; reflexivity|]. split; [exact Hp|]. by exists server0. Qed.
End RedisRuns.
#[local] Existing Instances RedisServer.client RedisServer.laws Toy.gzip Toy.gzip_ok Toy.crypto Toy.crypto_ok.


Lemma redis_Flush_pattern_witness :
  redis_peek (RedisRuns.over "team1") (now world_example) "x" = Some (bytes_of_string "Ada") /\
  exists r', rs_client (sv RedisRuns.flushed) = Some r' /\
    forall k, removed redis_peek (wv RedisRuns.flushed) (mkRedisStore (Some r') Minute "team1") k.
Proof.
  split; [reflexivity|].
  refine (redis_Flush_pattern Background RedisRuns.server0 Minute Minute world_example (wv RedisRuns.flushed)
    (sv RedisRuns.flushed) world_example_ok I _).
  apply (run_eta RedisRuns.flushed). vm_compute; reflexivity.
Defined.

Lemma redis_Increment_counts_witness :
  in_int64 42 /\ exists v c, seen redis_peek world_example (wv RedisRuns.hit) (RedisRuns.over "team1") "hits" v /\
    counts v c /\ 42 = c + 1 /\
    (forall t b, now (wv RedisRuns.hit) <= t -> redis_peek (sv RedisRuns.hit) t "hits" = Some b ->
       b = bytes_of_string (FormatInt 42)) /\
    (redis_ttl (RedisRuns.over "team1") Minute mod Second = 0 ->
       stored redis_peek rl_grain (redis_ttl (RedisRuns.over "team1") Minute) world_example (wv RedisRuns.hit)
         (sv RedisRuns.hit) "hits" (bytes_of_string (FormatInt 42)) \/
       v <> None /\ removed redis_peek (wv RedisRuns.hit) (sv RedisRuns.hit) "hits").
Proof.
  refine (redis_Increment_counts Background "hits" 1 Minute world_example (RedisRuns.over "team1") 42
    (wv RedisRuns.hit) (sv RedisRuns.hit) world_example_ok _ _ _).
  - apply RedisRuns.over_ok. reflexivity.
  - reflexivity.
  - apply (run_eta RedisRuns.hit). vm_compute; reflexivity.
Defined.

(** [Increment] is two commands: when the second fails it reports an error although
    the counter has been created, and the counter has no expiry at all. *)
Example increment_without_expiry :
  rv RedisRuns.lost = (0, Some (ErrorWrap "expire cache key: " (ErrorString "i/o timeout"))) /\
  forall t, redis_peek (sv RedisRuns.lost) t "hits" = Some (bytes_of_string "1").
Proof. split; [vm_compute; reflexivity|]. intros t. vm_compute. reflexivity. Qed.

Lemma redis_New_set_get_witness :
  rv RedisRuns.get1 = (bytes_of_string "Ada", true, None) /\ hit_or_error (bytes_of_string "Ada") (rv RedisRuns.get1).
Proof.
  split; [vm_compute; reflexivity|].
  refine (redis_New_set_get (fun _ => RedisRuns.server0) RedisRuns.config RedisRuns.server0 Background Background
    "user:1" (bytes_of_string "Ada") Minute world_example (wv RedisRuns.set1) (sv RedisRuns.set1) (wv RedisRuns.set1)
    (rv RedisRuns.get1) (wv RedisRuns.get1) (sv RedisRuns.get1) eq_refl I _ _ _ world_example_ok _ eq_refl
    (run_eta RedisRuns.set1 None _) _ (run_eta RedisRuns.get1 _ eq_refl) _).
  - reflexivity.
  - reflexivity.
  - by left.
  - split; reflexivity.
  - vm_compute; reflexivity.
  - apply later_refl. exact world_example_ok.
  - apply Z.leb_le. vm_compute; reflexivity.
Defined.
