(* ===== verification/Interference.v ===== *)
(** * Steps among the steps of others

    A server that other clients use at the same time changes between any two requests
    of one client.  [R r r'] says that the others may take it from [r] to [r'].  A
    request of the client is then one step, or one look, somewhere in between. *)

From S2P Require Import Prelude.

Section Interference.
Context {K : Type} (R : relation K).
Implicit Types r : K.

(** Between [r] and [r'] the server was in a state [P], or the client made one step
    [P]; the rest was done by others. *)
Definition during r r' (P : K -> Prop) : Prop := exists r1, R r r1 /\ P r1 /\ R r1 r'.
Definition atomically r r' (P : K -> K -> Prop) : Prop := exists r1 r2, R r r1 /\ P r1 r2 /\ R r2 r'.

(** A request that failed may have been carried out all the same. *)
Definition maybe r r' (P : K -> K -> Prop) : Prop := R r r' \/ atomically r r' P.

Context `{!PreOrder R}.

Lemma during_rely r r' P : during r r' P -> R r r'.
Proof. intros (r1 & Rb & _ & Rc). by transitivity r1. Qed.

Lemma during_from r0 r r' P : R r0 r -> during r r' P -> during r0 r' P.
Proof. intros Ra (r1 & Rb & HP & Rc). exists r1. split; [by transitivity r | done]. Qed.

Lemma during_mono r r' (P Q : K -> Prop) :
  during r r' P -> (forall r1, R r r1 -> P r1 -> Q r1) -> during r r' Q.
Proof. intros (r1 & Rb & HP & Rc) HPQ. exists r1. auto. Qed.

Lemma atomically_from r0 r r' P : R r0 r -> atomically r r' P -> atomically r0 r' P.
Proof. intros Ra (r1 & r2 & Rb & HP & Rc). exists r1, r2. split; [by transitivity r | done]. Qed.

Lemma atomically_mono r r' (P Q : K -> K -> Prop) :
  atomically r r' P -> (forall r1 r2, R r r1 -> P r1 r2 -> Q r1 r2) -> atomically r r' Q.
Proof. intros (r1 & r2 & Rb & HP & Rc) HPQ. exists r1, r2. auto. Qed.

Lemma maybe_from r0 r r' P : R r0 r -> maybe r r' P -> maybe r0 r' P.
Proof. intros Ra [Rb|Rb]; [left; by transitivity r | right; by eapply atomically_from]. Qed.

Lemma maybe_mono r r' (P Q : K -> K -> Prop) :
  maybe r r' P -> (forall r1 r2, R r r1 -> P r1 r2 -> Q r1 r2) -> maybe r r' Q.
Proof. intros [Rb|Rb] HPQ; [by left | right; by eapply atomically_mono]. Qed.

(** What others may still do afterwards. *)
Lemma during_upto r r1 r' P : during r r1 P -> R r1 r' -> during r r' P.
Proof. intros (r2 & Ra & HP & Rb) Rc. exists r2. split; [done|]. split; [done | by transitivity r1]. Qed.

Lemma atomically_upto r r1 r' P : atomically r r1 P -> R r1 r' -> atomically r r' P.
Proof. intros (r2 & r3 & Ra & HP & Rb) Rc. exists r2, r3. split; [done|]. split; [done | by transitivity r1]. Qed.

Lemma maybe_upto r r1 r' P : maybe r r1 P -> R r1 r' -> maybe r r' P.
Proof. intros [Ra|Ra] Rc; [left; by transitivity r1 | right; by eapply atomically_upto]. Qed.
End Interference.
