(* ===== verification/Rows.v ===== *)
(** * Rows that expire

    The SQL and DynamoDB stores keep a value with the millisecond it expires at under
    a primary key.  What their statements do to such rows, in the terms of the
    contracts. *)

From S2P Require Import Prelude GoStd CacheCore.

(** A table, as the map from its primary key to its other columns. *)
Abbreviation rowTable := (gmap string (bytes * Z)).

(** After an error the statement may have run all the same. *)
Definition ran_or_not {A} (failed : Prop) (before after actual : A) : Prop :=
  (~ failed /\ actual = after) \/ (failed /\ (actual = before \/ actual = after)).

(** The expiry of [Add], which truncates the clock before it adds the TTL. *)
Lemma add_expiry t ttl : ttl mod Millisecond = 0 -> UnixMilli (UnixMilli t * Millisecond + ttl) = UnixMilli (t + ttl).
Proof.
  intros E. unfold UnixMilli, Millisecond in *. apply Z.mod_divide in E as [q ->]; [|lia].
  rewrite !Z.div_add by lia. by rewrite Z.div_mul by lia.
Qed.

Lemma add_expiry_future t ttl : 0 < ttl -> UnixMilli t <= UnixMilli (UnixMilli t * Millisecond + ttl).
Proof.
  intros Ht. unfold UnixMilli, Millisecond. rewrite Z.add_comm, Z.div_add by lia.
  pose proof (Z.div_pos ttl 1000000). lia.
Qed.

(** The keys are kept apart, for whole milliseconds. *)
Definition tableKeys {D} : KeySpace D := mkKeySpace D (fun k' k => k' <> k) (fun _ ttl => ttl mod Millisecond = 0).

Section Table.
Context {D : Type} (rows : D -> rowTable).

(** What a read of the table at an instant finds under a primary key. *)
Definition row_peek (d : D) (t : Z) (k : string) : option bytes :=
  match rows d !! k with
  | Some (v, x) => if UnixMilli t >? x then None else Some v
  | None => None
  end.
Definition row_occupied d t k : Prop := is_Some (row_peek d t k).

#[local] Existing Instance tableKeys.

Lemma row_same w (d d' : D) k : rows d' !! k = rows d !! k -> same_key row_peek w d d' k.
Proof. intros E t _. unfold row_peek. by rewrite E. Qed.

Lemma row_removed w (d' : D) k : rows d' !! k = None -> removed row_peek w d' k.
Proof. intros E t _. unfold row_peek. by rewrite E. Qed.

Lemma row_seen w w' d k t v x :
  now w <= t <= now w' -> rows d !! k = Some (v, x) ->
  seen row_peek w w' d k (if UnixMilli t >? x then None else Some v).
Proof. intros Ht E. exists t. split; [done|]. unfold row_peek. by rewrite E. Qed.

(** A row written with the expiry that [time.Now().Add(ttl).UnixMilli()] gives. *)
Lemma row_stored (w w1 w' : World) d' k v ttl x :
  later w w1 -> later w1 w' -> rows d' !! k = Some (v, x) ->
  UnixMilli (now w + ttl) <= x <= UnixMilli (now w1 + ttl) ->
  stored row_peek Millisecond ttl w w' d' k v.
Proof.
  intros Hl Hl' E Hx. eapply expiry_stored; [done..|]. intros t _. unfold row_peek. by rewrite E.
Qed.

(** The statements, as operations on the keys of the table.  [w] is the start of
    the operation and [w1] that of the statement. *)

Lemma ran_cases failed (before after actual : rowTable) :
  ran_or_not failed before after actual -> actual = after \/ failed /\ actual = before.
Proof. unfold ran_or_not. tauto. Qed.

Lemma upsert_post k v x ttl w w1 d err w' d' :
  later w w1 -> later w1 w' -> UnixMilli (now w + ttl) <= x <= UnixMilli (now w1 + ttl) ->
  ran_or_not (err <> None) (rows d) (<[k := (v, x)]> (rows d)) (rows d') ->
  set_post row_peek Millisecond k v ttl w d err w' d'.
Proof.
  intros Hl Hl' Hx [E|[Hf E]]%ran_cases.
  - assert (Hst : kept row_peek Millisecond ttl w w' d' k v).
    { intros _. eapply row_stored; [done|done| |done]. by rewrite E, lookup_insert_eq. }
    split; [|destruct err; [by right | done]].
    intros k' Hne. apply row_same. by rewrite E, lookup_insert_ne by (apply not_eq_sym, Hne).
  - assert (Hs : forall k', same_key row_peek w' d d' k') by (intros k'; apply row_same; by rewrite E).
    destruct err; [|done]. by apply set_post_same.
Qed.

Lemma delete_row_post k w d err w' d' :
  ran_or_not (err <> None) (rows d) (base.delete k (rows d)) (rows d') ->
  delete_post row_peek k w d err w' d'.
Proof.
  intros [E|[Hf E]]%ran_cases.
  - assert (Hr : removed row_peek w' d' k) by (apply row_removed; by rewrite E, lookup_delete_eq).
    split; [|destruct err; [by right | done]].
    intros k' Hne. apply row_same. by rewrite E, lookup_delete_ne by (apply not_eq_sym, Hne).
  - destruct err; [|done]. apply delete_post_same. intros k'. apply row_same. by rewrite E.
Qed.

Lemma delete_rows_post ks w d err w' d' :
  ran_or_not (err <> None) (rows d) (filter (fun kx => kx.1 ∉ ks) (rows d)) (rows d') ->
  deleteMany_post row_peek ks w d err w' d'.
Proof.
  intros [E|[Hf E]]%ran_cases; split.
  - intros k Hk. apply row_same. rewrite E.
    assert (k ∉ ks) as Hn by (intros Hin; by apply (Hk k)).
    destruct (rows d !! k) as [x|] eqn:Ek.
    + by apply map_lookup_filter_Some_2.
    + apply map_lookup_filter_None_2. by left.
  - destruct err; [done|]. intros k Hk. apply row_removed. rewrite E. apply map_lookup_filter_None_2. right.
    by intros x _ Hn.
  - intros k _. apply row_same. by rewrite E.
  - by destruct err.
Qed.

Lemma row_expired (w w' : World) d k v x :
  later w w' -> rows d !! k = Some (v, x) -> UnixMilli (now w) > x -> removed row_peek w' d k.
Proof.
  intros Hl%later_now E Hx t Ht. unfold row_peek. rewrite E.
  pose proof (UnixMilli_mono (now w) t ltac:(lia)). by destruct (Z.gtb_spec (UnixMilli t) x); [|lia].
Qed.

(** What inserting, or not inserting, the row of [Add] amounts to. *)
Section AddRow.
Variables (k : string) (v : bytes) (ttl : Z) (w w' : World) (d d' : D).
#[local] Abbreviation x := (UnixMilli (UnixMilli (now w) * Millisecond + ttl)).
#[local] Abbreviation post := (add_post row_peek row_occupied Millisecond k v ttl w d).
Hypothesis (Hl : later w w').

Lemma row_free : rows d !! k = None \/ (exists v0 x0, rows d !! k = Some (v0, x0) /\ x0 < UnixMilli (now w)) ->
  free row_occupied w w' d k.
Proof.
  apply later_now in Hl. intros Hk. exists (now w). split; [lia|]. unfold row_occupied, row_peek.
  destruct Hk as [-> |(v0 & x0 & -> & Hx)]; [by intros []|].
  destruct (Z.gtb_spec (UnixMilli (now w)) x0); [by intros [] | lia].
Qed.

Lemma row_inserted : world_ok w -> rows d' = <[k := (v, x)]> (rows d) ->
  (forall k', apart (S := D) k' k -> same_key row_peek w' d d' k') /\ kept row_peek Millisecond ttl w w' d' k v.
Proof.
  intros Hw E. split.
  - intros k' Hne. apply row_same. by rewrite E, lookup_insert_ne by (apply not_eq_sym, Hne).
  - intros Hms. eapply (row_stored w w); [by apply later_refl|done|by rewrite E, lookup_insert_eq|].
    rewrite add_expiry by done. lia.
Qed.

Lemma add_inserted : world_ok w -> free row_occupied w w' d k -> rows d' = <[k := (v, x)]> (rows d) ->
  post (true, None) w' d' /\ forall e, post (false, Some e) w' d'.
Proof. intros Hw Hf E. apply row_inserted in E as [? ?]; [|done]. split; [by split|]. intros e. split; [done|]. auto. Qed.

Lemma row_unchanged : rows d' = rows d -> forall k', same_key row_peek w' d d' k'.
Proof. intros E k'. apply row_same. by rewrite E. Qed.

End AddRow.

(** Deleting, or not deleting, a row that holds a token. *)
Section ReleaseRow.
Variables (k : string) (owner : bytes) (w w' : World) (d d' : D).
#[local] Abbreviation post := (release_post row_peek k owner w d).
#[local] Abbreviation mine := (exists x, rows d !! k = Some (owner, x)).
Hypothesis (Hl : later w w').

Lemma release_deleted : mine -> rows d' = base.delete k (rows d) ->
  post (true, None) w' d' /\ forall e, post (false, Some e) w' d'.
Proof.
  intros [x Hx] E. pose proof (later_now _ _ Hl).
  assert (Hown : own row_peek w w' d k owner).
  { pose proof (row_seen w w' d k (now w) owner x ltac:(lia) Hx) as Hsee.
    destruct (UnixMilli (now w) >? x); [by right | by left]. }
  assert (Hr : removed row_peek w' d' k) by (apply row_removed; by rewrite E, lookup_delete_eq).
  assert (forall k', apart (S := D) k' k -> same_key row_peek w' d d' k').
  { intros k' Hne. apply row_same. by rewrite E, lookup_delete_ne by (apply not_eq_sym, Hne). }
  split; [by split|]. intros e. split; [done|]. auto.
Qed.

Lemma release_refused : ~ mine -> rows d' = rows d -> post (false, None) w' d'.
Proof.
  intros Hm E. pose proof (later_now _ _ Hl). pose proof (row_unchanged w' d d' E) as Hs.
  split; [done|]. split; [|done].
  exists (row_peek d (now w) k). split; [|exists (now w); split; [lia|done]]. unfold row_peek.
  destruct (rows d !! k) as [[v x]|] eqn:Ek; [|done]. destruct (UnixMilli (now w) >? x); [done|].
  intros [= ->]. apply Hm. by exists x.
Qed.
End ReleaseRow.
End Table.
