(* ===== verification/SqlStore.v ===== *)
(** * Package sqlcore: the store over a SQL table

    [driver/sqlcore/store.go] and its three wrappers ([driver/sqlitecache],
    [driver/postgrescache], [driver/mysqlcache]).  [database/sql] and the database
    behind it are not part of the repository: [SqlDB] has the methods the store
    calls as parameters, which take the text of a statement and its arguments. *)

From Stdlib Require Import Strings.Ascii.
From stdpp Require Import sorting.
From S2P Require Import Prelude GoStd CacheCore InspectHelpers Shaping MemoryStore Rows.

(** ** database/sql *)

(** The arguments of a statement. *)
Inductive sqlValue := VText (s : string) | VBytes (b : bytes) | VInt (z : Z).

(** [*sql.Rows]: what [Scan] gives at each row, and what [Err] reports after the
    last. *)
Record sqlRows := mkSqlRows { rows_scan : list ((string * bytes * Z) + error); rows_Err : option error }.

(** A prepared statement is executed by its text.  [Exec] gives the result of
    [RowsAffected]; the [tx_] methods run in the transaction that [BeginTx] opened. *)
Class SqlDB (D : Type) := {
  db_Ping : Context -> M D (option error);
  db_Prepare : string -> M D (option error);
  db_Exec : Context -> string -> list sqlValue -> M D ((Z + error) + error);
  db_QueryRow : Context -> string -> list sqlValue -> M D ((bytes * Z) + error);
  db_Query : Context -> string -> list sqlValue -> M D (sqlRows + error);
  db_BeginTx : Context -> M D (option error);
  tx_QueryRow : Context -> string -> list sqlValue -> M D ((bytes * Z) + error);
  tx_Exec : Context -> string -> list sqlValue -> M D ((Z + error) + error);
  tx_Commit : M D (option error);
  tx_Rollback : M D unit
}.

(** The error of an [Exec] whose result is not used. *)
Definition execErr (r : (Z + error) + error) : option error :=
  match r with inl _ => None | inr e => Some e end.

(** ** Statements *)

Definition sqlDefaultTTL : Z := 5 * Minute.
Definition sqlDefaultPrefix : string := "app".
Definition sqlDefaultTable : string := "cache_entries".

Inductive dialect := Postgres | MySQL | Sqlite.

(** The [switch s.driverName] of the statements. *)
Definition dialectOf (driverName : string) : dialect :=
  if decide (driverName = "postgres" \/ driverName = "pgx") then Postgres
  else if decide (driverName = "mysql") then MySQL
  else Sqlite.

Definition ph (driverName : string) (i : Z) : string :=
  if decide (driverName = "postgres" \/ driverName = "pgx") then "$" +:+ Itoa i else "?".

Definition schemaSQL (driverName table : string) : string :=
  let indent := String newline EmptyString +:+ String.string_of_list_byte [x09; x09; x09] in
  let close := String newline EmptyString +:+ String.string_of_list_byte [x09; x09] in
  match dialectOf driverName with
  | Postgres =>
      "CREATE TABLE IF NOT EXISTS " +:+ table +:+ " (" +:+ indent +:+ "k TEXT PRIMARY KEY," +:+ indent +:+
      "v BYTEA NOT NULL," +:+ indent +:+ "ea BIGINT NOT NULL" +:+ close +:+ ");"
  | MySQL =>
      "CREATE TABLE IF NOT EXISTS " +:+ table +:+ " (" +:+ indent +:+ "k VARBINARY(255) PRIMARY KEY," +:+ indent +:+
      "v LONGBLOB NOT NULL," +:+ indent +:+ "ea BIGINT NOT NULL" +:+ close +:+ ") ENGINE=InnoDB;"
  | Sqlite =>
      "CREATE TABLE IF NOT EXISTS " +:+ table +:+ " (" +:+ indent +:+ "k TEXT PRIMARY KEY," +:+ indent +:+
      "v BLOB NOT NULL," +:+ indent +:+ "ea INTEGER NOT NULL" +:+ close +:+ ");"
  end.

Definition upsertSQL (driverName table : string) : string :=
  let p i := ph driverName i in
  let insert := "INSERT INTO " +:+ table +:+ " (k, v, ea) VALUES (" +:+ p 1 +:+ ", " +:+ p 2 +:+ ", " +:+ p 3 +:+ ")" in
  match dialectOf driverName with
  | Postgres => insert +:+ " ON CONFLICT (k) DO UPDATE SET v = " +:+ p 4 +:+ ", ea = " +:+ p 5
  | MySQL => insert +:+ " ON DUPLICATE KEY UPDATE v = " +:+ p 4 +:+ ", ea = " +:+ p 5
  | Sqlite => insert +:+ " ON CONFLICT(k) DO UPDATE SET v = " +:+ p 4 +:+ ", ea = " +:+ p 5
  end.

Definition getSQL (driverName table : string) : string :=
  "SELECT v, ea FROM " +:+ table +:+ " WHERE k = " +:+ ph driverName 1.

Definition addInsertSQL (driverName table : string) : string :=
  "INSERT INTO " +:+ table +:+ " (k, v, ea) VALUES (" +:+ ph driverName 1 +:+ ", " +:+ ph driverName 2 +:+ ", " +:+
  ph driverName 3 +:+ ")".

Definition addReuseExpiredSQL (driverName table : string) : string :=
  "UPDATE " +:+ table +:+ " SET v = " +:+ ph driverName 1 +:+ ", ea = " +:+ ph driverName 2 +:+ " WHERE k = " +:+
  ph driverName 3 +:+ " AND ea < " +:+ ph driverName 4.

Definition deleteSQL (driverName table : string) : string :=
  "DELETE FROM " +:+ table +:+ " WHERE k = " +:+ ph driverName 1.

Definition flushSQL (driverName table : string) : string := "DELETE FROM " +:+ table.

(** The statements that are not prepared, of [LockRelease], [Increment],
    [DeleteMany] and [ListPage]. *)
Definition releaseSQL (driverName table : string) : string :=
  "DELETE FROM " +:+ table +:+ " WHERE k = " +:+ ph driverName 1 +:+ " AND v = " +:+ ph driverName 2.

Definition incrementSelectSQL (driverName table : string) : string :=
  getSQL driverName table +:+
  match dialectOf driverName with Sqlite => EmptyString | _ => " FOR UPDATE" end.

Fixpoint joinComma (xs : list string) : string :=
  match xs with
  | [] => EmptyString
  | [x] => x
  | x :: rest => x +:+ "," +:+ joinComma rest
  end.

Definition deleteManySQL (driverName table : string) (n : nat) : string :=
  "DELETE FROM " +:+ table +:+ " WHERE k IN (" +:+
  joinComma ((fun i => ph driverName (Z.of_nat i + 1)) <$> seq 0 n) +:+ ")".

Definition listSQL (driverName table : string) (filtered : bool) : string :=
  let n := if filtered then 1 else 0 in
  "SELECT k, v, ea FROM " +:+ table +:+ (if filtered then " WHERE k LIKE " +:+ ph driverName 1 else EmptyString) +:+
  " ORDER BY k ASC LIMIT " +:+ ph driverName (n + 1) +:+ " OFFSET " +:+ ph driverName (n + 2).

(** ** Helpers *)

Definition isDuplicateErr (err : error) (driverName : string) : bool :=
  let msg := Error err in
  match dialectOf driverName with
  | Postgres => Contains msg "duplicate key value"
  | MySQL => Contains msg "Duplicate entry"
  | Sqlite => Contains msg "UNIQUE constraint failed" || Contains msg "unique constraint"
  end.

(** [strings.Split(name, ".")]; the part before the first dot is [acc]. *)
Fixpoint splitDots (acc s : string) : list string :=
  match s with
  | EmptyString => [acc]
  | String c rest =>
      if decide (c = "."%char) then acc :: splitDots EmptyString rest
      else splitDots (acc +:+ String c EmptyString) rest
  end.

Definition charIn (lo hi c : ascii) : bool :=
  (nat_of_ascii lo <=? nat_of_ascii c)%nat && (nat_of_ascii c <=? nat_of_ascii hi)%nat.
Definition identStart (c : ascii) : bool :=
  charIn "A" "Z" c || charIn "a" "z" c || bool_decide (c = "_"%char).
Definition identRest (c : ascii) : bool := identStart c || charIn "0" "9" c.

Fixpoint everyChar (p : ascii -> bool) (s : string) : bool :=
  match s with EmptyString => true | String c rest => p c && everyChar p rest end.

(** [sqlIdentPartRE.MatchString(part)] *)
Definition isIdentPart (part : string) : bool :=
  match part with
  | EmptyString => false
  | String c rest => identStart c && everyChar identRest rest
  end.

Definition validateSQLTableName (name : string) : option error :=
  if decide (TrimSpace name = EmptyString) then Some (ErrorString "sql table name is required")
  else if forallb isIdentPart (splitDots EmptyString name) then None
  else Some (ErrorString ("invalid sql table name " +:+ quoted name)).

(** ** The store *)

Record sqlStore (D : Type) := mkSqlStore {
  sq_db : D;
  sq_table : string;
  sq_driverName : string;
  sq_prefix : string;
  sq_defaultTTL : Z;
  sq_getStmt : string;
  sq_upsertStmt : string;
  sq_addInsertStmt : string;
  sq_addReuseStmt : string;
  sq_deleteStmt : string;
  sq_flushStmt : string
}.
Arguments mkSqlStore {D}.
Arguments sq_db {D}.
Arguments sq_table {D}.
Arguments sq_driverName {D}.
Arguments sq_prefix {D}.
Arguments sq_defaultTTL {D}.
Arguments sq_getStmt {D}.
Arguments sq_upsertStmt {D}.
Arguments sq_addInsertStmt {D}.
Arguments sq_addReuseStmt {D}.
Arguments sq_deleteStmt {D}.
Arguments sq_flushStmt {D}.

Definition sql_cacheKey (prefix key : string) : string :=
  if decide (prefix = EmptyString) then key else prefix +:+ ":" +:+ key.

Section Sql.
Context {D : Type} `{SqlDB D}.
Implicit Types s : sqlStore D.

Definition withDB (db : D) s : sqlStore D :=
  mkSqlStore db (sq_table s) (sq_driverName s) (sq_prefix s) (sq_defaultTTL s) (sq_getStmt s) (sq_upsertStmt s)
    (sq_addInsertStmt s) (sq_addReuseStmt s) (sq_deleteStmt s) (sq_flushStmt s).

Definition onDB {A} (m : M D A) : M (sqlStore D) A := zoom sq_db withDB m.

Definition sql_ttl s (ttl : Z) : Z := if ttl <=? 0 then sq_defaultTTL s else ttl.

Definition sql_key s (key : string) : sqlValue := VText (sql_cacheKey (sq_prefix s) key).

Definition sql_Ready (ctx : Context) : M (sqlStore D) (option error) := onDB (db_Ping ctx).

Definition sql_Delete (ctx : Context) (key : string) : M (sqlStore D) (option error) :=
  let* s := get in
  let* r := onDB (db_Exec ctx (sq_deleteStmt s) [sql_key s key]) in
  ret (execErr r).

Definition sql_Get (ctx : Context) (key : string) : M (sqlStore D) (bytes * bool * option error) :=
  let* s := get in
  let* row := onDB (db_QueryRow ctx (sq_getStmt s) [sql_key s key]) in
  match row with
  | inr e => if errorsIs e ErrNoRows then ret ([], false, None) else ret ([], false, Some e)
  | inl (v, exp) =>
      let* t := timeNow in
      if UnixMilli t >? exp then
        let* _ := sql_Delete ctx key in
        ret ([], false, None)
      else ret (v, true, None)
  end.

Definition sql_Set (ctx : Context) (key : string) (value : bytes) (ttl : Z) : M (sqlStore D) (option error) :=
  let* s := get in
  let ttl := sql_ttl s ttl in
  let* t := timeNow in
  let exp := UnixMilli (t + ttl) in
  let* r := onDB (db_Exec ctx (sq_upsertStmt s) [sql_key s key; VBytes value; VInt exp; VBytes value; VInt exp]) in
  ret (execErr r).

Definition sql_Add (ctx : Context) (key : string) (value : bytes) (ttl : Z) : M (sqlStore D) (bool * option error) :=
  let* s := get in
  let ttl := sql_ttl s ttl in
  let* t := timeNow in
  let nowMs := UnixMilli t in
  let exp := UnixMilli (nowMs * Millisecond + ttl) in
  let cacheKey := sql_key s key in
  let* r := onDB (db_Exec ctx (sq_addInsertStmt s) [cacheKey; VBytes value; VInt exp]) in
  match execErr r with
  | Some err =>
      if isDuplicateErr err (sq_driverName s) then
        let* res := onDB (db_Exec ctx (sq_addReuseStmt s) [VBytes value; VInt exp; cacheKey; VInt nowMs]) in
        match res with
        | inr updateErr => ret (false, Some updateErr)
        | inl (inr rowsErr) => ret (false, Some rowsErr)
        | inl (inl rows) => ret (rows >? 0, None)
        end
      else ret (false, Some err)
  | None => ret (true, None)
  end.

Definition sql_LockAcquire (ctx : Context) (key : string) (owner : bytes) (ttl : Z)
    : M (sqlStore D) (bool * option error) := sql_Add ctx key owner ttl.

Definition sql_LockRelease (ctx : Context) (key : string) (owner : bytes) : M (sqlStore D) (bool * option error) :=
  let* s := get in
  let query := releaseSQL (sq_driverName s) (sq_table s) in
  let* result := onDB (db_Exec ctx query [sql_key s key; VBytes owner]) in
  match result with
  | inr err => ret (false, Some err)
  | inl (inr err) => ret (false, Some err)
  | inl (inl rows) => ret (rows >? 0, None)
  end.

(** The number to start from: 0 when there is no row or it has expired. *)
Definition currentOf (key : string) (row : (bytes * Z) + error) : M D (Z + error) :=
  match row with
  | inr e => if errorsIs e ErrNoRows then ret (inl 0) else ret (inr e)
  | inl (v, exp) =>
      let* t := timeNow in
      if UnixMilli t >? exp then ret (inl 0)
      else match ParseInt (string_of_bytes v) with
           | Some n => ret (inl n)
           | None => ret (inr (notNumeric key))
           end
  end.

(** The body of [Increment] between [BeginTx] and the deferred [Rollback]. *)
Definition incrementTx s (ctx : Context) (key : string) (delta ttl : Z) : M D (Z * option error) :=
  let* row := tx_QueryRow ctx (incrementSelectSQL (sq_driverName s) (sq_table s)) [sql_key s key] in
  let* current := currentOf key row in
  match current with
  | inr e => ret (0, Some e)
  | inl current =>
      let next := wrap64 (current + delta) in
      let* t := timeNow in
      let exp := UnixMilli (t + ttl) in
      let body := bytes_of_string (FormatInt next) in
      let* r := tx_Exec ctx (sq_upsertStmt s) [sql_key s key; VBytes body; VInt exp; VBytes body; VInt exp] in
      match execErr r with
      | Some e => ret (0, Some e)
      | None =>
          let* err := tx_Commit in
          match err with
          | Some e => ret (0, Some e)
          | None => ret (next, None)
          end
      end
  end.

Definition sql_Increment (ctx : Context) (key : string) (delta ttl : Z) : M (sqlStore D) (Z * option error) :=
  let* s := get in
  let ttl := sql_ttl s ttl in
  let* err := onDB (db_BeginTx ctx) in
  match err with
  | Some e => ret (0, Some e)
  | None =>
      let* r := onDB (incrementTx s ctx key delta ttl) in
      onDB tx_Rollback ;;
      ret r
  end.

Definition sql_Decrement (ctx : Context) (key : string) (delta ttl : Z) : M (sqlStore D) (Z * option error) :=
  sql_Increment ctx key (wrap64 (- delta)) ttl.

Definition sql_DeleteMany (ctx : Context) (keys : list string) : M (sqlStore D) (option error) :=
  if len keys =? 0 then ret None
  else
    let* s := get in
    let* r := onDB (db_Exec ctx (deleteManySQL (sq_driverName s) (sq_table s) (length keys)) (sql_key s <$> keys)) in
    ret (execErr r).

Definition sql_Flush (ctx : Context) : M (sqlStore D) (option error) :=
  let* s := get in
  let* r := onDB (db_Exec ctx (sq_flushStmt s) []) in
  ret (execErr r).

Definition sql_Capabilities (_ : sqlStore D) : InspectorCapabilities := mkCapabilities true true true true.

(** The loop over [rows.Next()]: the entries so far are [entries]. *)
Fixpoint listRows (prefix : string) (rows : list ((string * bytes * Z) + error)) (entries : list CacheEntry)
    : M (sqlStore D) (list CacheEntry + error) :=
  match rows with
  | [] => ret (inl entries)
  | inr e :: _ => ret (inr e)
  | inl (key, val, exp) :: rest =>
      let* expired :=
        if exp >? 0 then let* t := timeNow in ret (UnixMilli t >? exp) else ret false in
      if expired : bool then listRows prefix rest entries
      else
        let key := TrimPrefix key (prefix +:+ ":") in
        let entry := mkCacheEntry key (len val) (if exp >? 0 then Some exp else None) in
        listRows prefix rest (entries ++ [entry])
  end.

Definition sql_ListPage (ctx : Context) (opts : ListPageOptions) : M (sqlStore D) (ListPageResult * option error) :=
  let limit := NormalizeListLimit (opt_Limit opts) in
  match DecodeOffsetCursor (opt_Cursor opts) with
  | (_, Some e) => ret (emptyListPageResult, Some e)
  | (offset, None) =>
      let* s := get in
      let filter := ListFilterTerm opts in
      let filtered := bool_decide (filter <> EmptyString) in
      let args :=
        if filtered then
          [VText (if decide (sq_prefix s = EmptyString) then "%" +:+ filter +:+ "%"
                  else sq_prefix s +:+ ":%" +:+ filter +:+ "%")]
        else [] in
      let q := listSQL (sq_driverName s) (sq_table s) filtered in
      let* r := onDB (db_Query ctx q (args ++ [VInt (limit + 1); VInt offset])) in
      match r with
      | inr e => ret (emptyListPageResult, Some e)
      | inl rows =>
          let* es := listRows (sq_prefix s) (rows_scan rows) [] in
          match es with
          | inr e => ret (emptyListPageResult, Some e)
          | inl entries =>
              match rows_Err rows with
              | Some e => ret (emptyListPageResult, Some e)
              | None =>
                  if len entries >? limit
                  then ret (mkListPageResult (take (Z.to_nat limit) entries)
                              (EncodeOffsetCursor (wrap64 (offset + limit))) true, None)
                  else ret (mkListPageResult entries EmptyString false, None)
              end
          end
      end
  end.

Definition sql_lock_ops : LockStore (sqlStore D) := mkLockStore _ sql_LockAcquire sql_LockRelease.

#[export] Instance sqlStore_Store : Store (sqlStore D) := {|
  Store_Driver := fun _ => DriverSQL;
  Store_Ready := sql_Ready;
  Store_Get := sql_Get;
  Store_Set := sql_Set;
  Store_Add := sql_Add;
  Store_Increment := sql_Increment;
  Store_Decrement := sql_Decrement;
  Store_Delete := sql_Delete;
  Store_DeleteMany := sql_DeleteMany;
  Store_Flush := sql_Flush;
  Store_lockStore := fun _ => Some sql_lock_ops;
  Store_Inspector := fun _ => Some (mkInspector _ sql_Capabilities sql_ListPage)
|}.
End Sql.

(** ** Construction *)

Record sqlConfig := mkSqlConfig {
  sqcfg_base : BaseConfig; sqcfg_DriverName : string; sqcfg_DSN : string; sqcfg_Table : string
}.

Section New.
Context {D : Type} `{SqlDB D} `{Crypto}.
(** [sql.Open] *)
Variable sql_Open : string -> string -> D + error.

Definition sql_ensureSchema : M (sqlStore D) (option error) :=
  let* s := get in
  let* r := onDB (db_Exec Background (schemaSQL (sq_driverName s) (sq_table s)) []) in
  ret (execErr r).

(** Preparing one statement and keeping it in its field. *)
Definition prepareInto (text : sqlStore D -> string) (keep : string -> sqlStore D -> sqlStore D)
    : M (sqlStore D) (option error) :=
  let* s := get in
  let* err := onDB (db_Prepare (text s)) in
  match err with
  | Some e => ret (Some e)
  | None => modify (keep (text s)) ;; ret None
  end.

Definition sql_prepareStatements : M (sqlStore D) (option error) :=
  let sql f := fun s : sqlStore D => f (sq_driverName s) (sq_table s) in
  forErr (fun step => prepareInto step.1 step.2)
    [(sql getSQL, fun q s => mkSqlStore (sq_db s) (sq_table s) (sq_driverName s) (sq_prefix s) (sq_defaultTTL s)
        q (sq_upsertStmt s) (sq_addInsertStmt s) (sq_addReuseStmt s) (sq_deleteStmt s) (sq_flushStmt s));
     (sql upsertSQL, fun q s => mkSqlStore (sq_db s) (sq_table s) (sq_driverName s) (sq_prefix s) (sq_defaultTTL s)
        (sq_getStmt s) q (sq_addInsertStmt s) (sq_addReuseStmt s) (sq_deleteStmt s) (sq_flushStmt s));
     (sql addInsertSQL, fun q s => mkSqlStore (sq_db s) (sq_table s) (sq_driverName s) (sq_prefix s) (sq_defaultTTL s)
        (sq_getStmt s) (sq_upsertStmt s) q (sq_addReuseStmt s) (sq_deleteStmt s) (sq_flushStmt s));
     (sql addReuseExpiredSQL, fun q s => mkSqlStore (sq_db s) (sq_table s) (sq_driverName s) (sq_prefix s) (sq_defaultTTL s)
        (sq_getStmt s) (sq_upsertStmt s) (sq_addInsertStmt s) q (sq_deleteStmt s) (sq_flushStmt s));
     (sql deleteSQL, fun q s => mkSqlStore (sq_db s) (sq_table s) (sq_driverName s) (sq_prefix s) (sq_defaultTTL s)
        (sq_getStmt s) (sq_upsertStmt s) (sq_addInsertStmt s) (sq_addReuseStmt s) q (sq_flushStmt s));
     (sql flushSQL, fun q s => mkSqlStore (sq_db s) (sq_table s) (sq_driverName s) (sq_prefix s) (sq_defaultTTL s)
        (sq_getStmt s) (sq_upsertStmt s) (sq_addInsertStmt s) (sq_addReuseStmt s) (sq_deleteStmt s) q)].

(** [New]: a nil store is [None]. *)
Definition sql_New (cfg : sqlConfig) : M unit (option (wrappedStore (sqlStore D)) * option error) :=
  match ValidateBaseConfig (sqcfg_base cfg) with
  | Some e => ret (None, Some e)
  | None =>
      if decide (sqcfg_DriverName cfg = EmptyString \/ sqcfg_DSN cfg = EmptyString) then
        ret (None, Some (ErrorString "sql driver requires driver name and dsn"))
      else
        match sql_Open (sqcfg_DriverName cfg) (sqcfg_DSN cfg) with
        | inr e => ret (None, Some e)
        | inl db => fun w u =>
            let '(pingErr, w, db) := db_Ping Background w db in
            match pingErr with
            | Some e => ((None, Some e), w, u)
            | None =>
                let table := if decide (sqcfg_Table cfg = EmptyString) then sqlDefaultTable else sqcfg_Table cfg in
                match validateSQLTableName table with
                | Some e => ((None, Some e), w, u)
                | None =>
                    let base := sqcfg_base cfg in
                    let ttl := if DefaultTTL base <=? 0 then sqlDefaultTTL else DefaultTTL base in
                    let prefix := if decide (Prefix base = EmptyString) then sqlDefaultPrefix else Prefix base in
                    let s := mkSqlStore db table (sqcfg_DriverName cfg) prefix ttl
                               EmptyString EmptyString EmptyString EmptyString EmptyString EmptyString in
                    let '(err, w, s) := sql_ensureSchema w s in
                    match err with
                    | Some e => ((None, Some e), w, u)
                    | None =>
                        let '(err, w, s) := sql_prepareStatements w s in
                        match err with
                        | Some e => ((None, Some e), w, u)
                        | None => let '(wrapped, err) := WrapStore s base in ((Some wrapped, err), w, u)
                        end
                    end
                end
            end
        end
  end.

(** [sqlitecache.New], [postgrescache.New] and [mysqlcache.New] *)
Definition sqlite_New (base : BaseConfig) (dsn table : string) := sql_New (mkSqlConfig base "sqlite" dsn table).
Definition postgres_New (base : BaseConfig) (dsn table : string) := sql_New (mkSqlConfig base "pgx" dsn table).
Definition mysql_New (base : BaseConfig) (dsn table : string) := sql_New (mkSqlConfig base "mysql" dsn table).
End New.

(** ** What the database promises *)

(** One table, as the map from its primary key to its other columns: the value and
    the expiry in milliseconds. *)
Abbreviation sqlTable := rowTable.

(** The documented behaviour of the statements above on the table [table] of a
    database reached through [driverName], each statement atomic and isolated.
    [dl_open] is the table as the open transaction sees it. *)
Class SqlLaws (D : Type) `{SqlDB D} (driverName table : string) := {
  dl_ok : D -> Prop;
  dl_rows : D -> sqlTable;
  dl_open : D -> option sqlTable;
  (** SELECT of one row *)
  dl_get ctx k w d r w' d' :
    world_ok w -> dl_ok d -> db_QueryRow ctx (getSQL driverName table) [VText k] w d = (r, w', d') ->
    later w w' /\ dl_ok d' /\ dl_rows d' = dl_rows d /\
    match r with
    | inl row => dl_rows d !! k = Some row
    | inr e => errorsIs e ErrNoRows = true -> dl_rows d !! k = None
    end;
  (** INSERT, replacing the row with the same primary key *)
  dl_upsert ctx k v x w d r w' d' :
    world_ok w -> dl_ok d ->
    db_Exec ctx (upsertSQL driverName table) [VText k; VBytes v; VInt x; VBytes v; VInt x] w d = (r, w', d') ->
    later w w' /\ dl_ok d' /\ ran_or_not (execErr r <> None) (dl_rows d) (<[k := (v, x)]> (dl_rows d)) (dl_rows d');
  (** INSERT of a new row: the driver's message for a duplicate key *)
  dl_insert ctx k v x w d r w' d' :
    world_ok w -> dl_ok d ->
    db_Exec ctx (addInsertSQL driverName table) [VText k; VBytes v; VInt x] w d = (r, w', d') ->
    later w w' /\ dl_ok d' /\
    match execErr r with
    | None => dl_rows d !! k = None /\ dl_rows d' = <[k := (v, x)]> (dl_rows d)
    | Some e =>
        if isDuplicateErr e driverName then is_Some (dl_rows d !! k) /\ dl_rows d' = dl_rows d
        else dl_rows d' = dl_rows d \/ dl_rows d !! k = None /\ dl_rows d' = <[k := (v, x)]> (dl_rows d)
    end;
  (** UPDATE of a row with an expiry in the past *)
  dl_reuse ctx k v x n w d r w' d' :
    world_ok w -> dl_ok d -> n <= x ->
    db_Exec ctx (addReuseExpiredSQL driverName table) [VBytes v; VInt x; VText k; VInt n] w d = (r, w', d') ->
    later w w' /\ dl_ok d' /\
    let stale := exists v0 x0, dl_rows d !! k = Some (v0, x0) /\ x0 < n in
    match r with
    | inl (inl rows) =>
        if rows >? 0 then stale /\ dl_rows d' = <[k := (v, x)]> (dl_rows d)
        else ~ stale /\ dl_rows d' = dl_rows d
    | _ => dl_rows d' = dl_rows d \/ stale /\ dl_rows d' = <[k := (v, x)]> (dl_rows d)
    end;
  (** DELETE of one row, of a row with a given value, of several rows, of all *)
  dl_delete ctx k w d r w' d' :
    world_ok w -> dl_ok d -> db_Exec ctx (deleteSQL driverName table) [VText k] w d = (r, w', d') ->
    later w w' /\ dl_ok d' /\
    ran_or_not (execErr r <> None) (dl_rows d) (base.delete k (dl_rows d)) (dl_rows d');
  dl_release ctx k v w d r w' d' :
    world_ok w -> dl_ok d -> db_Exec ctx (releaseSQL driverName table) [VText k; VBytes v] w d = (r, w', d') ->
    later w w' /\ dl_ok d' /\
    let mine := exists x, dl_rows d !! k = Some (v, x) in
    match r with
    | inl (inl rows) =>
        if rows >? 0 then mine /\ dl_rows d' = base.delete k (dl_rows d) else ~ mine /\ dl_rows d' = dl_rows d
    | _ => dl_rows d' = dl_rows d \/ mine /\ dl_rows d' = base.delete k (dl_rows d)
    end;
  dl_deleteMany ctx ks w d r w' d' :
    world_ok w -> dl_ok d -> ks <> [] ->
    db_Exec ctx (deleteManySQL driverName table (length ks)) (VText <$> ks) w d = (r, w', d') ->
    later w w' /\ dl_ok d' /\
    ran_or_not (execErr r <> None) (dl_rows d) (filter (fun kx => kx.1 ∉ ks) (dl_rows d)) (dl_rows d');
  dl_flush ctx w d r w' d' :
    world_ok w -> dl_ok d -> db_Exec ctx (flushSQL driverName table) [] w d = (r, w', d') ->
    later w w' /\ dl_ok d' /\ ran_or_not (execErr r <> None) (dl_rows d) ∅ (dl_rows d');
  (** A transaction works on its own view; [Commit] publishes it at once, and
      [Rollback], which does nothing after [Commit], drops it. *)
  dl_begin ctx w d err w' d' :
    world_ok w -> dl_ok d -> db_BeginTx ctx w d = (err, w', d') ->
    later w w' /\ dl_ok d' /\ dl_rows d' = dl_rows d /\ (err = None -> dl_open d' = Some (dl_rows d'));
  dl_txGet ctx k w d view r w' d' :
    world_ok w -> dl_ok d -> dl_open d = Some view ->
    tx_QueryRow ctx (incrementSelectSQL driverName table) [VText k] w d = (r, w', d') ->
    later w w' /\ dl_ok d' /\ dl_rows d' = dl_rows d /\ dl_open d' = Some view /\
    match r with
    | inl row => view !! k = Some row
    | inr e => errorsIs e ErrNoRows = true -> view !! k = None
    end;
  dl_txUpsert ctx k v x w d view r w' d' :
    world_ok w -> dl_ok d -> dl_open d = Some view ->
    tx_Exec ctx (upsertSQL driverName table) [VText k; VBytes v; VInt x; VBytes v; VInt x] w d = (r, w', d') ->
    later w w' /\ dl_ok d' /\ dl_rows d' = dl_rows d /\
    (execErr r = None -> dl_open d' = Some (<[k := (v, x)]> view));
  dl_commit w d view err w' d' :
    world_ok w -> dl_ok d -> dl_open d = Some view -> tx_Commit w d = (err, w', d') ->
    later w w' /\ dl_ok d' /\ ran_or_not (err <> None) (dl_rows d) view (dl_rows d');
  dl_rollback w d u w' d' :
    world_ok w -> dl_ok d -> tx_Rollback w d = (u, w', d') ->
    later w w' /\ dl_ok d' /\ dl_rows d' = dl_rows d;
  (** Preparing, pinging and creating the table if it does not exist *)
  dl_prepare q w d err w' d' :
    world_ok w -> dl_ok d -> db_Prepare q w d = (err, w', d') ->
    later w w' /\ dl_ok d' /\ dl_rows d' = dl_rows d;
  dl_ping ctx w d err w' d' :
    world_ok w -> dl_ok d -> db_Ping ctx w d = (err, w', d') ->
    later w w' /\ dl_ok d' /\ dl_rows d' = dl_rows d;
  dl_schema ctx w d r w' d' :
    world_ok w -> dl_ok d -> db_Exec ctx (schemaSQL driverName table) [] w d = (r, w', d') ->
    later w w' /\ dl_ok d' /\ dl_rows d' = dl_rows d;
  (** SELECT of a page without a filter, in the order of the primary key *)
  dl_order : string -> string -> Prop;
  dl_sorted : D -> list (string * (bytes * Z));
  dl_sorted_rows d :
    dl_ok d -> dl_sorted d ≡ₚ map_to_list (dl_rows d) /\ StronglySorted (fun a b => dl_order a.1 b.1) (dl_sorted d);
  dl_page ctx limit offset w d r w' d' :
    world_ok w -> dl_ok d -> 0 <= limit -> 0 <= offset ->
    db_Query ctx (listSQL driverName table false) [VInt limit; VInt offset] w d = (r, w', d') ->
    later w w' /\ dl_ok d' /\ dl_rows d' = dl_rows d /\
    match r with
    | inr _ => True
    | inl rows =>
        rows_Err rows = None ->
        rows_scan rows = (fun kx => inl (kx.1, kx.2.1, kx.2.2)) <$>
          take (Z.to_nat limit) (drop (Z.to_nat offset) (dl_sorted d))
    end
}.
