(* ===== verification/SqlContract.v ===== *)
(** * The SQL store keeps the contracts

    Over a database that runs the statements as documented ([SqlLaws]), the store
    of [SqlStore] keeps the store, lock and counter contracts with a clock grain of
    one millisecond.  The last part shows where it departs from its own comments:
    [Flush] clears the whole table, and [ListPage] stops at expired rows. *)

From Stdlib Require Import Strings.Ascii.
From stdpp Require Import sorting.
From S2P Require Import Prelude GoStd CacheCore Transport InspectHelpers Shaping Wrapping MemoryStore Rows SqlStore.

Section Contract.
Context {D : Type} {drv tbl : string} `{SqlLaws D drv tbl}.
#[local] Existing Instance tableKeys.
#[local] Abbreviation row_peek := (Rows.row_peek (dl_rows (D := D))).
#[local] Abbreviation row_occupied := (Rows.row_occupied (dl_rows (D := D))).
Implicit Types (s : sqlStore D) (d : D).

#[export] Instance sqlStore_keys : KeySpace (sqlStore D) :=
  mkKeySpace _ (fun k' k => k' <> k) (fun _ ttl => ttl mod Millisecond = 0).

(** The statements have been prepared for this driver and table. *)
Definition prepared s : Prop :=
  sq_driverName s = drv /\ sq_table s = tbl /\ sq_getStmt s = getSQL drv tbl /\ sq_upsertStmt s = upsertSQL drv tbl /\
  sq_addInsertStmt s = addInsertSQL drv tbl /\ sq_addReuseStmt s = addReuseExpiredSQL drv tbl /\
  sq_deleteStmt s = deleteSQL drv tbl /\ sq_flushStmt s = flushSQL drv tbl.

Definition sql_ok s : Prop := ttl_ok (sq_defaultTTL s) /\ prepared s /\ dl_ok (sq_db s).

Definition sql_peek s (t : Z) (k : string) : option bytes := row_peek (sq_db s) t (sql_cacheKey (sq_prefix s) k).
Definition sql_occupied s t k : Prop := is_Some (sql_peek s t k).

Lemma withDB_id s : withDB (sq_db s) s = s.
Proof. by destruct s. Qed.

Lemma onDB_inv {A} (m : M D A) w s a w' s' :
  onDB m w s = (a, w', s') -> exists d', m w (sq_db s) = (a, w', d') /\ s' = withDB d' s.
Proof. unfold onDB, zoom. destruct (m w (sq_db s)) as [[a1 w1] d1]. intros [= <- <- <-]. eauto. Qed.

Lemma withDB_ok d s : sql_ok s -> dl_ok d -> sql_ok (withDB d s).
Proof. by intros (? & ? & _). Qed.

Lemma sql_ttl_ok s ttl : ttl_ok ttl -> sql_ttl s ttl = ttl.
Proof. intros [? _]. unfold sql_ttl. by destruct (Z.leb_spec ttl 0); [lia|]. Qed.

#[export] Instance sql_cacheKey_inj p : Inj (=) (=) (sql_cacheKey p).
Proof.
  intros k k'. unfold sql_cacheKey. destruct (decide (p = EmptyString)); [done|]. intros E.
  apply (f_equal (fun x => TrimPrefix x p)) in E. rewrite !TrimPrefix_app in E.
  by apply (f_equal (fun x => TrimPrefix x ":")) in E; rewrite !TrimPrefix_app in E.
Qed.

(** The view of the store, for [Transport]. *)
Section View.
Variable s : sqlStore D.
Lemma view_peek d t k : sql_peek (withDB d s) t k = row_peek d t (sql_cacheKey (sq_prefix s) k).
Proof. done. Qed.
Lemma view_occupied d t k : sql_occupied (withDB d s) t k <-> row_occupied d t (sql_cacheKey (sq_prefix s) k).
Proof. done. Qed.
Lemma view_apart k' k :
  apart (S := sqlStore D) k' k -> apart (S := D) (sql_cacheKey (sq_prefix s) k') (sql_cacheKey (sq_prefix s) k).
Proof. intros Hne E. by apply Hne, (inj (sql_cacheKey (sq_prefix s))). Qed.
Lemma view_storable k ttl :
  storable (S := sqlStore D) k ttl -> storable (S := D) (sql_cacheKey (sq_prefix s) k) ttl.
Proof. done. Qed.
End View.
#[local] Hint Resolve view_peek view_occupied view_apart view_storable Z.le_refl : core.

(** The law of the table, seen from the store. *)
Tactic Notation "by_view" uconstr(transport) constr(s) :=
  rewrite <- (withDB_id s) at 1;
  eapply (transport (sql_cacheKey (sq_prefix s)) (fun d => withDB d s) row_peek); eauto.

Lemma sql_delete ctx k w s err w' s' :
  world_ok w -> sql_ok s -> sql_Delete ctx k w s = (err, w', s') ->
  later w w' /\ sql_ok s' /\ delete_post sql_peek k w s err w' s'.
Proof.
  intros Hw Hs. unfold sql_Delete. go_simpl. destruct (onDB _ w s) as [[r w1] s1] eqn:E. intros [= <- <- <-].
  apply onDB_inv in E as (d1 & E & ->). pose proof Hs as (_ & (_ & _ & _ & _ & _ & _ & Hst & _) & Hd).
  rewrite Hst in E. apply dl_delete in E as (Hl & Hd1 & Hr); [|done..].
  split; [done|]. split; [by apply withDB_ok|]. by_view delete_post_map s. by apply delete_row_post.
Qed.

Lemma sql_set ctx k v ttl w s err w' s' :
  world_ok w -> sql_ok s -> ttl_ok ttl -> sql_Set ctx k v ttl w s = (err, w', s') ->
  later w w' /\ sql_ok s' /\ set_post sql_peek Millisecond k v ttl w s err w' s'.
Proof.
  intros Hw Hs Ht. unfold sql_Set. go_simpl. rewrite sql_ttl_ok by done.
  destruct (onDB _ _ s) as [[r w1] s1] eqn:E. intros [= <- <- <-].
  apply onDB_inv in E as (d1 & E & ->). pose proof Hs as (_ & (_ & _ & _ & Hst & _) & Hd).
  pose proof (later_tick w Hw) as Hl0.
  rewrite Hst in E. apply dl_upsert in E as (Hl & Hd1 & Hr); [|by eauto with go|done].
  split; [by eapply later_trans|]. split; [by apply withDB_ok|]. by_view set_post_map s.
  eapply upsert_post; [apply later_refl, Hw|by eapply later_trans| |done]. lia.
Qed.

Lemma sql_get ctx k w s r w' s' :
  world_ok w -> sql_ok s -> sql_Get ctx k w s = (r, w', s') ->
  later w w' /\ sql_ok s' /\ get_post sql_peek k w s r w' s'.
Proof.
  intros Hw Hs. unfold sql_Get. go_simpl. destruct (onDB _ w s) as [[row w1] s1] eqn:E.
  apply onDB_inv in E as (d1 & E & ->). pose proof Hs as (_ & (_ & _ & Hst & _) & Hd).
  rewrite Hst in E. apply dl_get in E as (Hl & Hd1 & Hrows & Hr); [|done..].
  assert (Hs1 : sql_ok (withDB d1 s)) by by apply withDB_ok.
  assert (Hsame : forall k' (w0 : World), same_key sql_peek w0 s (withDB d1 s) k').
  { intros k' w0 t _. unfold sql_peek, row_peek. simpl. by rewrite Hrows. }
  assert (Hsee : forall t, now w <= t <= now w1 -> seen sql_peek w w1 s k (sql_peek s t k)) by (intros t Ht; by exists t).
  destruct row as [[v x]|e].
  2: { destruct (errorsIs e ErrNoRows) eqn:Ee; intros [= <- <- <-];
         (split; [done|]); (split; [done|]); (split; [by intros|]); [|done].
       apply later_now in Hl. exists (now w). split; [lia|]. unfold sql_peek, row_peek. by rewrite Hr. }
  assert (Hpeek : forall t, sql_peek s t k = if UnixMilli t >? x then None else Some v).
  { intros t. unfold sql_peek, row_peek. by rewrite Hr. }
  pose proof (later_world_ok _ _ Hl) as Hw1. pose proof (later_tick w1 Hw1) as Hl1.
  assert (Hl2 : later w (tickWorld w1)) by by eapply later_trans.
  pose proof (later_now _ _ Hl). pose proof (later_now _ _ Hl1).
  destruct (Z.gtb_spec (UnixMilli (now w1)) x) as [Hx|Hx].
  - destruct (sql_Delete ctx k _ _) as [[err w2] s2] eqn:E2. intros [= <- <- <-].
    apply sql_delete in E2 as (Hl3 & Hs2 & Hdel); [|by eauto with go|done]. pose proof (later_now _ _ Hl3).
    split; [by eapply later_trans|]. split; [done|]. split.
    + intros k'. eapply same_key_trans; [apply Hsame|]. eapply delete_removed_same; [|exact Hdel|]; [done|].
      eapply removed_same_key; [|apply Hsame]. intros t Ht. rewrite Hpeek.
      pose proof (UnixMilli_mono (now w1) t ltac:(lia)). by destruct (Z.gtb_spec (UnixMilli t) x); [|lia].
    + exists (now w1). split; [lia|]. rewrite Hpeek. by destruct (Z.gtb_spec (UnixMilli (now w1)) x); [|lia].
  - intros [= <- <- <-]. split; [done|]. split; [done|]. split; [done|].
    exists (now w1). split; [lia|]. rewrite Hpeek. by destruct (Z.gtb_spec (UnixMilli (now w1)) x); [lia|].
Qed.

(** The reply to the statement that reclaims an expired row. *)
Section Reuse.
Variables (k : string) (v : bytes) (ttl : Z) (w w' : World) (d d' : D).
#[local] Abbreviation x := (UnixMilli (UnixMilli (now w) * Millisecond + ttl)).
#[local] Abbreviation post := (add_post row_peek row_occupied Millisecond k v ttl w d).
Hypothesis (Hl : later w w').

Definition reuseReply (r : (Z + error) + error) : bool * option error :=
  match r with
  | inl (inl rows) => (rows >? 0, None)
  | inl (inr e) | inr e => (false, Some e)
  end.

Lemma reuse_post r :
  world_ok w -> is_Some (dl_rows d !! k) ->
  (let stale := exists v0 x0, dl_rows d !! k = Some (v0, x0) /\ x0 < UnixMilli (now w) in
   match r with
   | inl (inl rows) =>
       if rows >? 0 then stale /\ dl_rows d' = <[k := (v, x)]> (dl_rows d) else ~ stale /\ dl_rows d' = dl_rows d
   | _ => dl_rows d' = dl_rows d \/ stale /\ dl_rows d' = <[k := (v, x)]> (dl_rows d)
   end) -> post (reuseReply r) w' d'.
Proof.
  intros Hw [[v0 x0] Hsome] Hr. cbv zeta in Hr. set (stale := exists v0 x0, _) in Hr.
  assert (Hstale : stale -> free row_occupied w w' d k) by (intros Hk; apply row_free; [done|by right]).
  assert (Hfail : forall e, dl_rows d' = dl_rows d \/ stale /\ dl_rows d' = <[k := (v, x)]> (dl_rows d) ->
    post (false, Some e) w' d').
  { intros e [E|[Hk E]]; [by apply add_post_same, row_unchanged | by apply add_inserted; [..|apply Hstale|]]. }
  destruct r as [[rows|e]|e]; simpl; [|by apply Hfail..].
  destruct (rows >? 0); destruct Hr as [Hk E]; [by apply add_inserted; [..|apply Hstale|]|].
  split; [intros; by apply row_unchanged|]. split; [|by apply row_unchanged].
  apply later_now in Hl. exists (now w). split; [lia|]. unfold row_occupied, row_peek. rewrite Hsome.
  destruct (Z.gtb_spec (UnixMilli (now w)) x0); [|eauto]. exfalso. apply Hk. exists v0, x0. split; [done | lia].
Qed.
End Reuse.

Lemma sql_add ctx k v ttl w s r w' s' :
  world_ok w -> sql_ok s -> ttl_ok ttl -> sql_Add ctx k v ttl w s = (r, w', s') ->
  later w w' /\ sql_ok s' /\ add_post sql_peek sql_occupied Millisecond k v ttl w s r w' s'.
Proof.
  intros Hw Hs Ht. unfold sql_Add. go_simpl. rewrite sql_ttl_ok by done. pose proof (later_tick w Hw) as Hl0.
  set (x := UnixMilli (UnixMilli (now w) * Millisecond + ttl)).
  assert (Hx : UnixMilli (now w) <= x) by (apply add_expiry_future; by destruct Ht).
  destruct (onDB _ _ s) as [[r1 w1] s1] eqn:E. apply onDB_inv in E as (d1 & E & ->).
  pose proof Hs as (_ & (Hdrv & _ & _ & _ & Hst & Hst2 & _) & Hd). rewrite Hst in E.
  apply dl_insert in E as (Hl & Hd1 & Hr); [|by eauto with go|done].
  assert (Hl1 : later w w1) by by eapply later_trans. pose proof (later_world_ok _ _ Hl1) as Hw1.
  set (key := sql_cacheKey (sq_prefix s) k) in *.
  assert (Hdone : forall (r' : bool * option error) w2 d2, later w w2 -> dl_ok d2 ->
    add_post row_peek row_occupied Millisecond key v ttl w (sq_db s) r' w2 d2 ->
    later w w2 /\ sql_ok (withDB d2 s) /\ add_post sql_peek sql_occupied Millisecond k v ttl w s r' w2 (withDB d2 s)).
  { intros r' w2 d2 Hl2 Hd2 Hp. split; [done|]. split; [by apply withDB_ok|].
    rewrite <- (withDB_id s) at 1.
    eapply (add_post_map (sql_cacheKey (sq_prefix s)) (fun d => withDB d s) row_peek _ row_occupied); eauto. }
  destruct (execErr r1) as [e|].
  2: { intros [= <- <- <-]. destruct Hr as [Hk Hr]. apply Hdone; [done|done|].
       eapply add_inserted; [done|done|apply row_free; [done|by left]|done]. }
  rewrite Hdrv in *. destruct (isDuplicateErr e drv).
  2: { intros [= <- <- <-]. apply Hdone; [done|done|]. destruct Hr as [Hr|[Hk Hr]].
       - apply add_post_same. by apply row_unchanged.
       - eapply add_inserted; [done|done|apply row_free; [done|by left]|done]. }
  destruct Hr as [Hsome Hr]. destruct (onDB _ w1 _) as [[r2 w2] s2] eqn:E. apply onDB_inv in E as (d2 & E & ->).
  simpl in E. rewrite Hst2 in E. apply dl_reuse in E as (Hl2 & Hd2 & Hr2); [|done..]. rewrite Hr in Hr2.
  assert (Hl3 : later w w2) by by eapply later_trans.
  apply (reuse_post key v ttl w w2) in Hr2; [|done..]. apply Hdone in Hr2; [|done..].
  destruct r2 as [[rows|e2]|e2]; by intros [= <- <- <-].
Qed.

Lemma sql_release ctx k owner w s r w' s' :
  world_ok w -> sql_ok s -> sql_LockRelease ctx k owner w s = (r, w', s') ->
  later w w' /\ sql_ok s' /\ release_post sql_peek k owner w s r w' s'.
Proof.
  intros Hw Hs. unfold sql_LockRelease. go_simpl. destruct (onDB _ w s) as [[r1 w1] s1] eqn:E.
  apply onDB_inv in E as (d1 & E & ->). pose proof Hs as (_ & (Hdrv & Htbl & _) & Hd). rewrite Hdrv, Htbl in E.
  apply dl_release in E as (Hl & Hd1 & Hr); [|done..]. cbv zeta in Hr. set (mine := exists x, _) in Hr.
  set (key := sql_cacheKey (sq_prefix s) k) in *.
  assert (Hfail : forall e, dl_rows d1 = dl_rows (sq_db s) \/ mine /\ dl_rows d1 = base.delete key (dl_rows (sq_db s)) ->
    release_post row_peek key owner w (sq_db s) (false, Some e) w1 d1).
  { intros e [E1|[Hm E1]]; [by apply release_post_same, row_unchanged | by apply release_deleted]. }
  assert (Hpost : release_post row_peek key owner w (sq_db s) (reuseReply r1) w1 d1).
  { destruct r1 as [[rows|e]|e]; simpl; [|by apply Hfail..].
    destruct (rows >? 0); destruct Hr as [Hm Hr]; [by apply release_deleted | by apply release_refused]. }
  intros E1. assert (r = reuseReply r1 /\ w' = w1 /\ s' = withDB d1 s) as (-> & -> & ->).
  { destruct r1 as [[rows|e]|e]; by injection E1 as <- <- <-. }
  split; [done|]. split; [by apply withDB_ok|]. by_view release_post_map s.
Qed.

Lemma sql_deleteMany ctx ks w s err w' s' :
  world_ok w -> sql_ok s -> sql_DeleteMany ctx ks w s = (err, w', s') ->
  later w w' /\ sql_ok s' /\ deleteMany_post sql_peek ks w s err w' s'.
Proof.
  intros Hw Hs. unfold sql_DeleteMany. destruct (Z.eqb_spec (len ks) 0) as [Hlen|Hlen].
  { intros [= <- <- <-]. split; [by apply later_refl|]. split; [done|].
    destruct ks as [|? ?]; [|unfold len in Hlen; simpl in Hlen; lia].
    split; [by intros k _ t | by intros k ?%elem_of_nil]. }
  go_simpl. destruct (onDB _ w s) as [[r w1] s1] eqn:E. intros [= <- <- <-].
  apply onDB_inv in E as (d1 & E & ->). pose proof Hs as (_ & (Hdrv & Htbl & _) & Hd). rewrite Hdrv, Htbl in E.
  unfold sql_key in E. rewrite (list_fmap_compose (sql_cacheKey (sq_prefix s)) VText) in E.
  rewrite <- (length_fmap (sql_cacheKey (sq_prefix s)) ks) in E.
  apply dl_deleteMany in E as (Hl & Hd1 & Hr); [|done|done|by destruct ks].
  split; [done|]. split; [by apply withDB_ok|]. by_view deleteMany_post_map s. by apply delete_rows_post.
Qed.

Lemma sql_flush_rows ctx w s err w' s' :
  world_ok w -> sql_ok s -> sql_Flush ctx w s = (err, w', s') ->
  later w w' /\ sql_ok s' /\ (err = None -> dl_rows (sq_db s') = ∅).
Proof.
  intros Hw Hs. unfold sql_Flush. go_simpl. destruct (onDB _ w s) as [[r w1] s1] eqn:E. intros [= <- <- <-].
  apply onDB_inv in E as (d1 & E & ->). pose proof Hs as (_ & (_ & _ & _ & _ & _ & _ & _ & Hst) & Hd). rewrite Hst in E.
  apply dl_flush in E as (Hl & Hd1 & Hr); [|done..]. split; [done|]. split; [by apply withDB_ok|].
  intros Hn. by apply ran_cases in Hr as [?|[? _]].
Qed.

Lemma sql_flush ctx w s err w' s' :
  world_ok w -> sql_ok s -> sql_Flush ctx w s = (err, w', s') ->
  later w w' /\ sql_ok s' /\ flush_post sql_peek err w' s'.
Proof.
  intros Hw Hs E. apply sql_flush_rows in E as (? & ? & Hr); [|done..]. split; [done|]. split; [done|].
  destruct err; [done|]. intros k t _. unfold sql_peek, row_peek. by rewrite Hr, lookup_empty.
Qed.

(** ** Counters *)

(** The number that the transaction of [Increment] starts from. *)
Lemma currentOf_spec ctx key k w w1 d view row w2 d2 c w3 d3 :
  later w w1 -> dl_ok d -> dl_open d = Some view -> view = dl_rows d ->
  tx_QueryRow ctx (incrementSelectSQL drv tbl) [VText k] w1 d = (row, w2, d2) ->
  currentOf key row w2 d2 = (c, w3, d3) ->
  later w w3 /\ dl_ok d3 /\ dl_rows d3 = dl_rows d /\ dl_open d3 = Some view /\
  match c with inl n => exists v, seen row_peek w w3 d k v /\ counts v n | inr _ => True end.
Proof.
  intros Hl Hd Ho Hv E1 E2. pose proof (later_world_ok _ _ Hl) as Hw1.
  eapply dl_txGet in E1 as (Hl2 & Hd2 & Hrows & Ho2 & Hr); [|done..].
  assert (Hl02 : later w w2) by by eapply later_trans.
  pose proof (later_now _ _ Hl). pose proof (later_now _ _ Hl2).
  destruct row as [[v x]|e].
  - unfold currentOf in E2. go_simpl_in E2. pose proof (later_tick w2 (later_world_ok _ _ Hl2)) as Hl3. pose proof (later_now _ _ Hl3).
    assert (Hl03 : later w (tickWorld w2)) by by eapply later_trans. rewrite Hv in Hr.
    assert (Hsee : seen row_peek w (tickWorld w2) d k (if UnixMilli (now w2) >? x then None else Some v)).
    { apply row_seen; [lia | done]. }
    destruct (UnixMilli (now w2) >? x); [|destruct (ParseInt (string_of_bytes v)) as [n|] eqn:En];
      injection E2 as <- <- <-; repeat (split; [done|]); [by exists None|by exists (Some v)|done].
  - unfold currentOf in E2. destruct (errorsIs e ErrNoRows); injection E2 as <- <- <-; repeat (split; [done|]); [|done].
    exists None. split; [|done]. exists (now w). split; [lia|]. unfold row_peek. by rewrite <- Hv, Hr.
Qed.

Lemma incrementTx_spec ctx key delta ttl w w1 s d r w' d' :
  later w w1 -> ttl_ok ttl -> prepared s -> dl_ok d -> dl_open d = Some (dl_rows d) ->
  incrementTx s ctx key delta ttl w1 d = (r, w', d') ->
  later w w' /\ dl_ok d' /\
  increment_post row_peek Millisecond (sql_cacheKey (sq_prefix s) key) delta ttl w d r w' d'.
Proof.
  intros Hl Ht (Hdrv & Htbl & _ & Hst & _) Hd Ho. unfold incrementTx. go_simpl. rewrite Hdrv, Htbl.
  set (k := sql_cacheKey (sq_prefix s) key).
  destruct (tx_QueryRow _ _ _ w1 d) as [[row w2] d2] eqn:E1.
  destruct (currentOf key row w2 d2) as [[c w3] d3] eqn:E2.
  eapply currentOf_spec in E2 as (Hl3 & Hd3 & Hrows3 & Ho3 & Hc); [|done..].
  assert (Hfail : forall e w4 d4, dl_rows d4 = dl_rows d -> increment_post row_peek Millisecond k delta ttl w d (0, Some e) w4 d4).
  { intros e w4 d4 E. split; [|done]. intros k' _. apply row_same. by rewrite E. }
  destruct c as [n|e]; [|intros [= <- <- <-]; auto].
  destruct Hc as (v & Hv & Hc). set (m := wrap64 (n + delta)). pose proof (later_tick w3 (later_world_ok _ _ Hl3)) as Hl4.
  rewrite Hst. destruct (tx_Exec _ _ _ _ d3) as [[r5 w5] d5] eqn:E5.
  eapply dl_txUpsert in E5 as (Hl5 & Hd5 & Hrows5 & Ho5); [|by eauto with go|done..]. rewrite Hrows3 in Hrows5.
  assert (Hl05 : later w w5) by by do 2 (eapply later_trans; [done|]).
  destruct (execErr r5) as [e|]; [intros [= <- <- <-]; auto|]. specialize (Ho5 eq_refl).
  destruct (tx_Commit w5 d5) as [[err w6] d6] eqn:E6.
  eapply dl_commit in E6 as (Hl6 & Hd6 & Hr6); [|by eauto with go|done..]. rewrite Hrows5 in Hr6.
  assert (Hl06 : later w w6) by by eapply later_trans.
  assert (Hset : set_post row_peek Millisecond k (bytes_of_string (FormatInt m)) ttl w d err w6 d6).
  { eapply (upsert_post _ _ _ _ _ w w3); [done|by do 2 (eapply later_trans; [done|])| |done].
    apply later_now in Hl3. split; apply UnixMilli_mono; lia. }
  destruct Hset as [Hk Hset]. destruct err as [e|]; intros [= <- <- <-]; (split; [done|]); (split; [done|]); [by split|].
  split; [done|]. split; [|done]. exists v, n. split; [|done]. destruct Hv as (t & Htt & Ev). exists t.
  apply later_now in Hl4, Hl5, Hl6. split; [lia | done].
Qed.

(** What is known of a counter depends on the rows only. *)
Lemma increment_rows d d' e e' k delta ttl w r w' :
  dl_rows d = dl_rows e -> dl_rows e' = dl_rows d' ->
  increment_post row_peek Millisecond k delta ttl w d r w' d' -> increment_post row_peek Millisecond k delta ttl w e r w' e'.
Proof. intros E E'. unfold increment_post, kept, stored, same_key, seen, row_peek. by rewrite E, E'. Qed.

Lemma sql_increment ctx k delta ttl w s r w' s' :
  world_ok w -> sql_ok s -> ttl_ok ttl -> sql_Increment ctx k delta ttl w s = (r, w', s') ->
  later w w' /\ sql_ok s' /\ increment_post sql_peek Millisecond k delta ttl w s r w' s'.
Proof.
  intros Hw Hs Ht. unfold sql_Increment. go_simpl. rewrite sql_ttl_ok by done.
  destruct (onDB (db_BeginTx ctx) w s) as [[err w1] s1] eqn:E. apply onDB_inv in E as (d1 & E & ->).
  pose proof Hs as (_ & Hprep & Hd). apply dl_begin in E as (Hl1 & Hd1 & Hrows & Ho); [|done..].
  destruct err as [e|].
  { intros [= <- <- <-]. split; [done|]. split; [by apply withDB_ok|]. split; [|done].
    intros k' _ t _. unfold sql_peek, row_peek. simpl. by rewrite Hrows. }
  destruct (onDB _ w1 _) as [[r2 w2] s2] eqn:E. apply onDB_inv in E as (d2 & E & ->). simpl in E.
  eapply incrementTx_spec in E as (Hl2 & Hd2 & Hp); [|done..|by apply Ho].
  destruct (onDB tx_Rollback w2 _) as [[u w3] s3] eqn:E. apply onDB_inv in E as (d3 & E & ->). simpl in E.
  apply dl_rollback in E as (Hl3 & Hd3 & Hrows3); [|by eauto with go|done]. intros [= <- <- <-].
  change (withDB d3 (withDB d2 (withDB d1 s))) with (withDB d3 s).
  split; [by eapply later_trans|]. split; [by apply withDB_ok|].
  by_view increment_post_map s. eapply (increment_rows d1 d2); [done|done|].
  by eapply increment_post_widen in Hp; [|apply later_refl|].
Qed.

Lemma sql_decrement ctx k delta ttl w s r w' s' :
  world_ok w -> sql_ok s -> ttl_ok ttl -> sql_Decrement ctx k delta ttl w s = (r, w', s') ->
  later w w' /\ sql_ok s' /\ increment_post sql_peek Millisecond k (wrap64 (- delta)) ttl w s r w' s'.
Proof. apply sql_increment. Qed.

Lemma sql_peek_occupied s t k b : sql_peek s t k = Some b -> sql_occupied s t k.
Proof. unfold sql_occupied. intros ->. eauto. Qed.

#[export] Instance sqlStore_contract : StoreContract (sqlStore D) := {|
  sc_ok := sql_ok;
  sc_peek := sql_peek;
  sc_occupied := sql_occupied;
  sc_grain := Millisecond;
  sc_grain_nonneg := ltac:(done);
  sc_peek_occupied := sql_peek_occupied;
  sc_get := sql_get;
  sc_set := sql_set;
  sc_add := sql_add;
  sc_delete := sql_delete;
  sc_deleteMany := sql_deleteMany;
  sc_flush := sql_flush
|}.

#[export] Instance sqlStore_locks : LockContract (sqlStore D) := {|
  lc_ops := sql_lock_ops;
  lc_ok := sql_ok;
  lc_lockStore := fun _ _ => eq_refl;
  lc_peek := sql_peek;
  lc_occupied := sql_occupied;
  lc_peek_occupied := sql_peek_occupied;
  lc_grain := Millisecond;
  lc_acquire := sql_add;
  lc_release := sql_release
|}.

#[export] Instance sqlStore_counters : CounterContract (sqlStore D) := {|
  cc_ok := sql_ok;
  cc_peek := sql_peek;
  cc_grain := Millisecond;
  cc_increment := sql_increment;
  cc_decrement := sql_decrement
|}.
End Contract.

(** ** Table names *)

(** [strings.Join(parts, ".")], which [strings.Split] inverts. *)
Fixpoint joinDots (parts : list string) : string :=
  match parts with
  | [] => EmptyString
  | [x] => x
  | x :: rest => x +:+ "." +:+ joinDots rest
  end.

Lemma splitDots_cons acc s : exists x rest, splitDots acc s = x :: rest.
Proof. revert acc. induction s as [|c s IH]; intros acc; simpl; [eauto|]. destruct (decide _); eauto. Qed.

Lemma joinDots_splitDots acc s : joinDots (splitDots acc s) = acc +:+ s.
Proof.
  revert acc. induction s as [|c s IH]; intros acc; cbn [splitDots].
  - symmetry. apply string_app_nil.
  - destruct (decide (c = "."%char)) as [->|Hc].
    + destruct (splitDots_cons EmptyString s) as (x & rest & E). rewrite E.
      change (acc +:+ "." +:+ joinDots (x :: rest) = acc +:+ "." +:+ s). by rewrite <- E, IH.
    + rewrite IH. by rewrite <- string_app_assoc.
Qed.

(** What a table name may be, said without the code: identifiers of letters, digits
    and underscores that do not start with a digit, with dots between them. *)
Definition letters : list ascii := String.list_ascii_of_string "ABCDEFGHIJKLMNOPQRSTUVWXYZabcdefghijklmnopqrstuvwxyz_".
Definition letters_digits : list ascii := letters ++ String.list_ascii_of_string "0123456789".

Definition identifier (p : string) : Prop :=
  exists c rest, p = String c rest /\ c ∈ letters /\ Forall (fun d => d ∈ letters_digits) (String.list_ascii_of_string rest).

Inductive tableName : string -> Prop :=
| name_part p : identifier p -> tableName p
| name_dot p rest : identifier p -> tableName rest -> tableName (p +:+ "." +:+ rest).

(** The regular expression accepts these characters and no others. *)
Lemma identStart_letters c : identStart c = bool_decide (c ∈ letters).
Proof. by destruct c as [[] [] [] [] [] [] [] []]. Qed.

Lemma identRest_letters c : identRest c = bool_decide (c ∈ letters_digits).
Proof. by destruct c as [[] [] [] [] [] [] [] []]. Qed.

Lemma everyChar_Forall p (P : ascii -> Prop) s :
  (forall c, p c = true <-> P c) -> everyChar p s = true <-> Forall P (String.list_ascii_of_string s).
Proof.
  intros Hp. induction s as [|c s IH]; cbn; [by split; [constructor|]|].
  rewrite andb_true_iff, list.Forall_cons, Hp, IH. done.
Qed.

Lemma isIdentPart_identifier p : isIdentPart p = true <-> identifier p.
Proof.
  unfold isIdentPart, identifier. destruct p as [|c p]; [split; [done | by intros (? & ? & ? & _)]|].
  rewrite andb_true_iff, identStart_letters, bool_decide_eq_true,
    (everyChar_Forall _ (fun d => d ∈ letters_digits)) by (intros d; by rewrite identRest_letters, bool_decide_eq_true).
  split; [intros [? ?]; eauto | by intros (? & ? & [= <- <-] & ? & ?)].
Qed.

Lemma parts_tableName parts :
  parts <> [] -> Forall (fun part => isIdentPart part = true) parts -> tableName (joinDots parts).
Proof.
  intros Hne Hp. induction Hp as [|x rest Hx Hrest IH]; [done|]. apply isIdentPart_identifier in Hx.
  destruct rest as [|y rest]; [by apply name_part|]. by apply (name_dot x (joinDots (y :: rest))), IH.
Qed.

(** An identifier has no dot and no space. *)
Lemma identifier_chars (p : ascii -> Prop) s :
  identifier s -> Forall p letters_digits -> Forall p (String.list_ascii_of_string s).
Proof.
  intros (c & rest & -> & Hc & Hrest) Hp. rewrite list.Forall_forall in Hp. cbn. constructor.
  - apply Hp, elem_of_app. by left.
  - eapply list.Forall_impl; [done|]. apply Hp.
Qed.

Lemma splitDots_part acc p s :
  Forall (fun c => c <> "."%char) (String.list_ascii_of_string p) -> splitDots acc (p +:+ s) = splitDots (acc +:+ p) s.
Proof.
  revert acc. induction p as [|c p IH]; intros acc Hp; cbn in Hp; [by rewrite string_app_nil|].
  apply list.Forall_cons in Hp as [Hc Hp]. change (String c p +:+ s) with (String c (p +:+ s)). cbn [splitDots].
  rewrite decide_False, IH by done. by rewrite <- string_app_assoc.
Qed.

Lemma tableName_parts name : tableName name -> forallb isIdentPart (splitDots EmptyString name) = true.
Proof.
  assert (Hdot : forall p, identifier p -> Forall (fun c => c <> "."%char) (String.list_ascii_of_string p)).
  { intros p Hp. apply identifier_chars; [done|]. by apply (bool_decide_unpack _). }
  induction 1 as [p Hp|p rest Hp Hrest IH].
  - rewrite <- (string_app_nil p), splitDots_part by auto. change (isIdentPart p && true = true).
    by rewrite (proj2 (isIdentPart_identifier _)).
  - rewrite splitDots_part by auto. change (isIdentPart p && forallb isIdentPart (splitDots EmptyString rest) = true).
    by rewrite (proj2 (isIdentPart_identifier _)), IH.
Qed.

Lemma list_ascii_app a b :
  String.list_ascii_of_string (a +:+ b) = String.list_ascii_of_string a ++ String.list_ascii_of_string b.
Proof. induction a as [|c a IH]; [done|]. exact (f_equal (cons c) IH). Qed.

Lemma tableName_chars (p : ascii -> Prop) name :
  tableName name -> p "."%char -> Forall p letters_digits -> Forall p (String.list_ascii_of_string name).
Proof.
  intros Hn Hdot Hp. induction Hn as [q Hq|q rest Hq Hrest IH]; [by apply identifier_chars|].
  rewrite list_ascii_app. apply list.Forall_app. split; [by apply identifier_chars|]. cbn. by constructor.
Qed.

Lemma tableName_TrimSpace name : tableName name -> TrimSpace name = name /\ name <> EmptyString.
Proof.
  intros Hn. split; [|by destruct Hn as [? (? & ? & -> & _)|? ? (? & ? & -> & _)]].
  apply TrimSpace_plain. apply (tableName_chars (fun c => plainByte (byte_of_ascii c) = true)) in Hn;
    [|done|by apply (bool_decide_unpack _)].
  rewrite forallb_forall. intros b Hb. unfold bytes_of_string, String.list_byte_of_string in Hb.
  apply in_map_iff in Hb as (c & <- & Hc). rewrite list.Forall_forall in Hn. by apply Hn, list_elem_of_In.
Qed.

(** [validateSQLTableName] accepts exactly the table names. *)
Lemma validateSQLTableName_exact name : validateSQLTableName name = None <-> tableName name.
Proof.
  unfold validateSQLTableName. split.
  - destruct (decide _); [done|]. destruct (forallb isIdentPart _) eqn:E; [intros _|done].
    rewrite <- (joinDots_splitDots EmptyString name : _ = name). apply parts_tableName.
    + by destruct (splitDots_cons EmptyString name) as (x & rest & ->).
    + apply list.Forall_forall. intros part Hin. rewrite forallb_forall in E. by apply E, list_elem_of_In.
  - intros Hn. destruct (tableName_TrimSpace name Hn) as [-> Hne]. rewrite decide_False by done.
    by rewrite tableName_parts.
Qed.

(** C22: only identifiers reach the statements.  [New] builds a store only for a table
    name (the default one where none is configured) that consists of identifiers of ASCII
    letters, digits and underscores, none starting with a digit, with dots between them, so
    that it can close no quotation and start no other statement when it is interpolated; for any
    other name [New] returns an error and no store, having done nothing with the database
    but [Open] and [Ping].  The check refuses no such name. *)
Theorem sql_New_table_safe {D} `{SqlDB D} `{Crypto} (Open : string -> string -> D + error) cfg w u :
  let table := if decide (sqcfg_Table cfg = EmptyString) then sqlDefaultTable else sqcfg_Table cfg in
  (forall x err w' u', sql_New Open cfg w u = ((Some x, err), w', u') -> tableName table) /\
  (~ tableName table -> exists e w', sql_New Open cfg w u = ((None, Some e), w', u) /\
     (w' = w \/ exists db ping db', Open (sqcfg_DriverName cfg) (sqcfg_DSN cfg) = inl db /\
                                   db_Ping Background w db = (ping, w', db'))) /\
  (tableName table -> validateSQLTableName table = None).
Proof.
  intros table.
  assert (Hno : ~ tableName table -> exists e w', sql_New Open cfg w u = ((None, Some e), w', u) /\
     (w' = w \/ exists db ping db', Open (sqcfg_DriverName cfg) (sqcfg_DSN cfg) = inl db /\
                                   db_Ping Background w db = (ping, w', db'))).
  { intros Hn. unfold sql_New. fold table. destruct (ValidateBaseConfig _); [by eauto|].
    destruct (decide (sqcfg_DriverName cfg = EmptyString \/ _)); [by eauto|]. destruct (Open _ _) as [db|] eqn:Eo; [|by eauto].
    destruct (db_Ping Background w db) as [[ping w1] db1] eqn:Ep. destruct ping as [e|]; [by eauto 10|].
    destruct (validateSQLTableName table) eqn:Ev; [by eauto 10|]. by apply validateSQLTableName_exact in Ev. }
  split; [|split; [exact Hno | apply validateSQLTableName_exact]].
  intros x err w' u' E. destruct (validateSQLTableName table) eqn:Ev; [|by apply validateSQLTableName_exact].
  destruct Hno as (e1 & w1 & E1 & _); [|congruence]. rewrite <- validateSQLTableName_exact. congruence.
Qed.

(** A name that would end the statement and start another is refused; a qualified one is not. *)
Example table_names :
  validateSQLTableName "cache; DROP TABLE users" <> None /\ validateSQLTableName "1st" <> None /\
  validateSQLTableName "a..b" <> None /\ validateSQLTableName "public.cache_entries" = None.
Proof. repeat split; vm_compute; congruence. Qed.

(** ** Construction *)

Section Built.
Context {D : Type} {drv tbl : string} `{SqlLaws D drv tbl} `{GzipLaws} `{CryptoLaws}.
Implicit Types s : sqlStore D.

Lemma prepareInto_inv text keep w s w' s' :
  world_ok w -> dl_ok (sq_db s) -> prepareInto text keep w s = (None, w', s') ->
  exists d', s' = keep (text s) (withDB d' s) /\ later w w' /\ dl_ok d'.
Proof.
  intros Hw Hd. unfold prepareInto. go_simpl. destruct (onDB _ w s) as [[err w1] s1] eqn:E.
  apply onDB_inv in E as (d1 & E & ->). apply dl_prepare in E as (Hl & Hd1 & _); [|done..].
  destruct err; [done|]. intros [= <- <-]. by exists d1.
Qed.

(** The head of a loop over statements that all could be prepared. *)
Lemma prepare_step text keep rest w s w' s' :
  world_ok w -> dl_ok (sq_db s) ->
  forErr (fun step => prepareInto step.1 step.2) ((text, keep) :: rest) w s = (None, w', s') ->
  exists d1 w1, later w w1 /\ dl_ok d1 /\
    forErr (fun step => prepareInto step.1 step.2) rest w1 (keep (text s) (withDB d1 s)) = (None, w', s').
Proof.
  intros Hw Hd. cbn [forErr fst snd]. go_simpl.
  destruct (prepareInto text keep w s) as [[[e|] w1] s1] eqn:E; [done|].
  apply prepareInto_inv in E as (d1 & -> & ? & ?); [|done..]. eauto 10.
Qed.

(** The store after a statement has been kept, field by field. *)
Ltac prepared_fields :=
  match goal with E : forErr _ _ _ _ = _ |- _ =>
    cbn [withDB sq_db sq_table sq_driverName sq_prefix sq_defaultTTL sq_getStmt sq_upsertStmt sq_addInsertStmt
         sq_addReuseStmt sq_deleteStmt sq_flushStmt] in E
  end.

Lemma sql_prepareStatements_inv w d p ttl w' s' :
  world_ok w -> dl_ok d ->
  sql_prepareStatements w (mkSqlStore d tbl drv p ttl EmptyString EmptyString EmptyString EmptyString EmptyString EmptyString)
    = (None, w', s') ->
  exists d', later w w' /\ dl_ok d' /\
    s' = mkSqlStore d' tbl drv p ttl (getSQL drv tbl) (upsertSQL drv tbl) (addInsertSQL drv tbl)
           (addReuseExpiredSQL drv tbl) (deleteSQL drv tbl) (flushSQL drv tbl).
Proof.
  intros Hw Hd E. unfold sql_prepareStatements in E.
  do 6 (apply prepare_step in E as (? & ? & ? & ? & E); [|by eauto with go|done]; prepared_fields).
  cbn [forErr] in E. unfold ret in E.
  match type of E with (_, ?a, ?b) = _ => assert (w' = a) as -> by congruence; assert (s' = b) as -> by congruence end.
  eexists. split; [by do 5 (eapply later_trans; [done|])|]. by split.
Qed.


(** ** Departures *)

(** The scope of [Flush] is the table, not the namespace.  When it succeeds,
    every key of every other store on the same table is gone too, whatever its
    prefix. *)
Theorem sql_Flush_table ctx w s other w' s' :
  world_ok w -> sql_ok (drv := drv) (tbl := tbl) s -> sql_Flush ctx w s = (None, w', s') ->
  forall k, removed sql_peek w' (withDB (sq_db s') other) k.
Proof.
  intros Hw Hs E k t _. apply sql_flush_rows in E as (_ & _ & Hr); [|done..].
  unfold sql_peek, row_peek. simpl. by rewrite Hr.
Qed.

(** Each expired row costs an entry. *)
Lemma listRows_length p rows es w s r w' s' :
  world_ok w -> listRows p rows es w s = (inl r, w', s') ->
  (length r <= length es + length rows)%nat /\
  ((exists k v x, inl (k, v, x) ∈ rows /\ 0 < x < UnixMilli (now w)) -> (length r < length es + length rows)%nat).
Proof.
  intros Hw. revert es w s Hw. induction rows as [|row rows IH]; intros es w s Hw; cbn [listRows].
  { intros [= <- <- <-]. simpl. split; [lia|]. by intros (k & v & x & Hin%elem_of_nil & _). }
  destruct row as [[[k v] x]|e]; [|done]. go_simpl.
  destruct (Z.gtb_spec x 0) as [Hx|Hx].
  - pose proof (later_tick w Hw) as Hl. pose proof (later_now _ _ Hl).
    destruct (Z.gtb_spec (UnixMilli (now w)) x) as [He|He]; intros E; apply IH in E as [Hle Hlt]; try (by eauto with go).
    + simpl. split; [lia|]. intros _. lia.
    + rewrite length_app in Hle, Hlt. simpl in *. split; [lia|]. intros (k0 & v0 & x0 & [E|Hin]%elem_of_cons & Hx0).
      { assert (x0 = x) by congruence. lia. }
      assert (length r < length es + 1 + length rows)%nat; [|lia]. apply Hlt. exists k0, v0, x0. split; [done|].
      pose proof (UnixMilli_mono _ _ (later_now _ _ Hl)). change (0 < x0 < UnixMilli (now (tickWorld w))). lia.
  - intros E. apply IH in E as [Hle Hlt]; [|done]. rewrite length_app in Hle, Hlt. simpl in *. split; [lia|].
    intros (k0 & v0 & x0 & [E|Hin]%elem_of_cons & Hx0).
    { assert (x0 = x) by congruence. lia. }
    assert (length r < length es + 1 + length rows)%nat; [|lia]. apply Hlt. by exists k0, v0, x0.
Qed.

(** A page that meets an expired row is the last one.  [ListPage] asks for one
    row more than the limit to learn whether there are more, and drops expired rows
    before it counts: one of them among the rows of the page makes it report that
    there is nothing more, however many live rows follow. *)
Theorem sql_ListPage_stops_early ctx opts offset w s page w' s' k v x :
  world_ok w -> sql_ok (drv := drv) (tbl := tbl) s -> ListFilterTerm opts = EmptyString ->
  DecodeOffsetCursor (opt_Cursor opts) = (offset, None) ->
  (k, (v, x)) ∈ take (Z.to_nat (NormalizeListLimit (opt_Limit opts) + 1)) (drop (Z.to_nat offset) (dl_sorted (sq_db s))) ->
  0 < x < UnixMilli (now w) ->
  sql_ListPage ctx opts w s = ((page, None), w', s') -> HasMore page = false /\ NextCursor page = EmptyString.
Proof.
  intros Hw Hs Hf Hc Hin Hx. unfold sql_ListPage. rewrite Hc, Hf. go_simpl.
  set (limit := NormalizeListLimit (opt_Limit opts)) in *.
  pose proof (NormalizeListLimit_range (opt_Limit opts) : 1 <= limit <= 500) as Hlim.
  assert (0 <= offset) as Hoff by (eapply DecodeOffsetCursor_range in Hc; lia).
  pose proof Hs as (_ & (-> & -> & _) & Hd). cbn [bool_decide negb]. rewrite bool_decide_false by (by intros []). simpl app.
  destruct (onDB _ w s) as [[r w1] s1] eqn:E. apply onDB_inv in E as (d1 & E & ->).
  apply dl_page in E as (Hl & Hd1 & _ & Hr); [|done|done|lia|done]. destruct r as [rows|e]; [|done].
  destruct (listRows _ _ _ w1 _) as [[es w2] s2] eqn:E2. destruct es as [es|e]; [|done].
  destruct (rows_Err rows); [done|]. specialize (Hr eq_refl).
  assert (length es <= Z.to_nat limit)%nat as Hlen.
  { apply listRows_length in E2 as [_ Hlt]; [|by eauto with go]. simpl in Hlt.
    assert (length es < length (rows_scan rows))%nat as H'.
    { apply Hlt. exists k, v, x. rewrite Hr. apply later_now in Hl.
      pose proof (UnixMilli_mono (now w) (now w1) ltac:(lia)). split; [|lia].
      apply list_elem_of_fmap. by exists (k, (v, x)). }
    rewrite Hr, length_fmap, length_take in H'. lia. }
  destruct (Z.gtb_spec (len es) limit); [unfold len in *; lia|]. by intros [= <- _ _].
Qed.
End Built.

(** ** A table, for the witnesses *)

Module SqliteTable.
(** One table of a SQLite database, and the view of its open transaction. *)
Record db := mkDB { rows : sqlTable; open : option sqlTable }.

Definition drv : string := "sqlite".
Definition tbl : string := "cache_entries".
Definition duplicate : error := ErrorString "UNIQUE constraint failed: cache_entries.k".
Definition unknown : error := ErrorString "SQL logic error".

Definition asText (x : sqlValue) : option string := match x with VText k => Some k | _ => None end.

Definition drop_ (ks : list string) (m : sqlTable) : sqlTable := filter (fun kx => kx.1 ∉ ks) m.

(** The table after a statement and the rows affected, or its error. *)
Definition run (q : string) (args : list sqlValue) (m : sqlTable) : (sqlTable * Z) + error :=
  match args with
  | [] => if decide (q = flushSQL drv tbl) then inl (∅, Z.of_nat (size m))
          else if decide (q = schemaSQL drv tbl) then inl (m, 0) else inr unknown
  | [VText k; VBytes v; VInt x; VBytes _; VInt _] =>
      if decide (q = upsertSQL drv tbl) then inl (<[k := (v, x)]> m, 1) else inr unknown
  | [VText k; VBytes v; VInt x] =>
      if decide (q = addInsertSQL drv tbl) then
        match m !! k with Some _ => inr duplicate | None => inl (<[k := (v, x)]> m, 1) end
      else inr unknown
  | [VBytes v; VInt x; VText k; VInt n] =>
      if decide (q = addReuseExpiredSQL drv tbl) then
        match m !! k with
        | Some (_, x0) => if x0 <? n then inl (<[k := (v, x)]> m, 1) else inl (m, 0)
        | None => inl (m, 0)
        end
      else inr unknown
  | [VText k; VBytes v] =>
      if decide (q = releaseSQL drv tbl) then
        match m !! k with
        | Some (v0, _) => if decide (v0 = v) then inl (base.delete k m, 1) else inl (m, 0)
        | None => inl (m, 0)
        end
      else inr unknown
  | _ =>
      match mapM asText args with
      | Some ks =>
          if decide (q = deleteManySQL drv tbl (length ks)) then inl (drop_ ks m, 0)
          else match ks with
               | [k] => if decide (q = deleteSQL drv tbl) then inl (base.delete k m, 0) else inr unknown
               | _ => inr unknown
               end
      | None => inr unknown
      end
  end.

Definition Exec (_ : Context) (q : string) (args : list sqlValue) : M db ((Z + error) + error) :=
  fun w d =>
    match run q args (rows d) with
    | inl (m, n) => (inl (inl n), w, mkDB m (open d))
    | inr e => (inr e, w, d)
    end.

Definition row (q text : string) (args : list sqlValue) (m : sqlTable) : (bytes * Z) + error :=
  match args with
  | [VText k] => if decide (q = text) then match m !! k with Some r => inl r | None => inr ErrNoRows end else inr unknown
  | _ => inr unknown
  end.

Definition key_le (a b : string * (bytes * Z)) : Prop := bytesLeb (bytes_of_string a.1) (bytes_of_string b.1) = true.
#[export] Instance key_le_dec a b : Decision (key_le a b).
Proof. unfold key_le. apply _. Defined.
#[export] Instance key_le_trans : Transitive key_le.
Proof. intros a b c. apply bytesLeb_trans. Qed.
#[export] Instance key_le_total : Total key_le.
Proof. intros a b. apply bytesLeb_total. Qed.
Definition sorted (m : sqlTable) : list (string * (bytes * Z)) := merge_sort key_le (map_to_list m).

Definition Query (_ : Context) (q : string) (args : list sqlValue) : M db (sqlRows + error) :=
  fun w d =>
    match args with
    | [VInt limit; VInt offset] =>
        if decide (q = listSQL drv tbl false) then
          (inl (mkSqlRows ((fun kx => inl (kx.1, kx.2.1, kx.2.2)) <$>
                 take (Z.to_nat limit) (drop (Z.to_nat offset) (sorted (rows d)))) None), w, d)
        else (inr unknown, w, d)
    | _ => (inr unknown, w, d)
    end.

#[export] Instance sqlite : SqlDB db := {|
  db_Ping := fun _ => ret None;
  db_Prepare := fun _ => ret None;
  db_Exec := Exec;
  db_QueryRow := fun _ q args w d => (row q (getSQL drv tbl) args (rows d), w, d);
  db_Query := Query;
  db_BeginTx := fun _ w d => (None, w, mkDB (rows d) (Some (rows d)));
  tx_QueryRow := fun _ q args w d =>
    (match open d with Some m => row q (incrementSelectSQL drv tbl) args m | None => inr unknown end, w, d);
  tx_Exec := fun _ q args w d =>
    match open d with
    | None => (inr unknown, w, d)
    | Some m => match run q args m with
                | inl (m', n) => (inl (inl n), w, mkDB (rows d) (Some m'))
                | inr e => (inr e, w, d)
                end
    end;
  tx_Commit := fun w d =>
    match open d with Some m => (None, w, mkDB m None) | None => (Some unknown, w, d) end;
  tx_Rollback := fun w d => (tt, w, mkDB (rows d) None)
|}.

Lemma ran_without_error {A} (before after : A) : ran_or_not (@None error <> None) before after after.
Proof. left. split; [congruence | done]. Qed.

Lemma mapM_asText ks : mapM asText (VText <$> ks) = Some ks.
Proof. induction ks as [|k ks IH]; [done|]. cbn [fmap list_fmap mapM]. simpl. by rewrite IH. Qed.

Lemma run_deleteMany ks m : ks <> [] -> run (deleteManySQL drv tbl (length ks)) (VText <$> ks) m = inl (drop_ ks m, 0).
Proof.
  intros Hks. destruct ks as [|a [|b ks]]; [done|..].
  - unfold run. cbn [fmap list_fmap]. change (mapM asText [VText a]) with (Some [a]). cbn [length]. by rewrite decide_True.
  - pose proof (mapM_asText (a :: b :: ks)) as E. cbn [fmap list_fmap] in E |- *. unfold run. rewrite E. by rewrite decide_True.
Qed.

(** The statements of the store, one by one. *)
Section Run.
Implicit Types (k : string) (v : bytes) (m : sqlTable).

Lemma row_get q k m : row q q [VText k] m = match m !! k with Some r => inl r | None => inr ErrNoRows end.
Proof. unfold row. by rewrite decide_True. Qed.

Lemma run_upsert k v x m :
  run (upsertSQL drv tbl) [VText k; VBytes v; VInt x; VBytes v; VInt x] m = inl (<[k := (v, x)]> m, 1).
Proof. unfold run. by rewrite decide_True. Qed.

Lemma run_insert k v x m :
  run (addInsertSQL drv tbl) [VText k; VBytes v; VInt x] m =
  match m !! k with Some _ => inr duplicate | None => inl (<[k := (v, x)]> m, 1) end.
Proof. unfold run. by rewrite decide_True. Qed.

Lemma run_reuse k v x n m :
  run (addReuseExpiredSQL drv tbl) [VBytes v; VInt x; VText k; VInt n] m =
  match m !! k with
  | Some (_, x0) => if x0 <? n then inl (<[k := (v, x)]> m, 1) else inl (m, 0)
  | None => inl (m, 0)
  end.
Proof. unfold run. by rewrite decide_True. Qed.

Lemma run_release k v m :
  run (releaseSQL drv tbl) [VText k; VBytes v] m =
  match m !! k with
  | Some (v0, _) => if decide (v0 = v) then inl (base.delete k m, 1) else inl (m, 0)
  | None => inl (m, 0)
  end.
Proof. unfold run. by rewrite decide_True. Qed.

Lemma run_delete k m : run (deleteSQL drv tbl) [VText k] m = inl (base.delete k m, 0).
Proof.
  unfold run. change (mapM asText [VText k]) with (Some [k]). cbv beta iota.
  rewrite decide_False by (vm_compute; discriminate). by rewrite decide_True.
Qed.

Lemma run_flush m : run (flushSQL drv tbl) [] m = inl (∅, Z.of_nat (size m)).
Proof. unfold run. by rewrite decide_True. Qed.

Lemma run_schema m : run (schemaSQL drv tbl) [] m = inl (m, 0).
Proof. unfold run. rewrite decide_False by (vm_compute; discriminate). by rewrite decide_True. Qed.
End Run.

Lemma Exec_inv ctx q args w d r w' d' :
  Exec ctx q args w d = (r, w', d') ->
  w' = w /\ match run q args (rows d) with
            | inl (m, n) => r = inl (inl n) /\ d' = mkDB m (open d)
            | inr e => r = inr e /\ d' = d
            end.
Proof. unfold Exec. destruct (run q args (rows d)) as [[m n]|e]; intros; by simplify_eq. Qed.

#[local] Hint Resolve later_refl ran_without_error : core.

#[export] Program Instance laws : SqlLaws db drv tbl := {|
  dl_ok := fun _ => True;
  dl_rows := rows;
  dl_open := open;
  dl_order := fun a b => bytesLeb (bytes_of_string a) (bytes_of_string b) = true;
  dl_sorted := fun d => sorted (rows d)
|}.
Next Obligation.
  intros ctx k w d r w' d' Hw _ E. cbn [db_QueryRow sqlite] in E. rewrite row_get in E.
  assert (w' = w /\ d' = d) as [-> ->] by (split; congruence). do 3 (split; [auto|]).
  by destruct (rows d !! k); simplify_eq.
Qed.
Next Obligation.
  intros ctx k v x w d r w' d' Hw _ E. apply Exec_inv in E as [-> E]. rewrite run_upsert in E. destruct E as [-> ->]. auto.
Qed.
Next Obligation.
  intros ctx k v x w d r w' d' Hw _ E. apply Exec_inv in E as [-> E]. rewrite run_insert in E.
  destruct (rows d !! k) eqn:Ek; destruct E as [-> ->]; (split; [auto|]); (split; [done|]); [|done].
  change (is_Some (Some p) /\ rows d = rows d). eauto.
Qed.
Next Obligation.
  intros ctx k v x n w d r w' d' Hw _ _ E. apply Exec_inv in E as [-> E]. rewrite run_reuse in E.
  split; [auto|]. split; [done|]. cbv zeta.
  destruct (rows d !! k) as [[v0 x0]|] eqn:Ek; [destruct (Z.ltb_spec x0 n)|]; destruct E as [-> ->]; simpl;
    (split; [|done]); [eauto|..]; intros (v1 & x1 & E1 & ?); simplify_eq; lia.
Qed.
Next Obligation.
  intros ctx k w d r w' d' Hw _ E. apply Exec_inv in E as [-> E]. rewrite run_delete in E. destruct E as [-> ->]. auto.
Qed.
Next Obligation.
  intros ctx k v w d r w' d' Hw _ E. apply Exec_inv in E as [-> E]. rewrite run_release in E.
  split; [auto|]. split; [done|]. cbv zeta.
  destruct (rows d !! k) as [[v0 x0]|] eqn:Ek; [destruct (decide (v0 = v)) as [->|]|]; destruct E as [-> ->]; simpl;
    (split; [|done]); [eauto|..]; intros (x1 & E1); simplify_eq.
Qed.
Next Obligation.
  intros ctx ks w d r w' d' Hw _ Hks E. apply Exec_inv in E as [-> E]. rewrite run_deleteMany in E by done.
  destruct E as [-> ->]. auto.
Qed.
Next Obligation.
  intros ctx w d r w' d' Hw _ E. apply Exec_inv in E as [-> E]. rewrite run_flush in E. destruct E as [-> ->]. auto.
Qed.
Next Obligation. intros ctx w d err w' d' Hw _ [= <- <- <-]. auto. Qed.
Next Obligation.
  intros ctx k w d view r w' d' Hw _ Ho E. cbn [tx_QueryRow sqlite] in E. rewrite Ho, row_get in E.
  assert (w' = w /\ d' = d) as [-> ->] by (split; congruence). do 4 (split; [auto|]).
  by destruct (view !! k); simplify_eq.
Qed.
Next Obligation.
  intros ctx k v x w d view r w' d' Hw _ Ho E. cbn [tx_Exec sqlite] in E. rewrite Ho, run_upsert in E.
  simplify_eq. auto.
Qed.
Next Obligation. intros w d view err w' d' Hw _ Ho E. cbn in E. rewrite Ho in E. simplify_eq. auto. Qed.
Next Obligation. intros w d u w' d' Hw _ [= <- <- <-]. auto. Qed.
Next Obligation. intros q w d err w' d' Hw _ [= <- <- <-]. auto. Qed.
Next Obligation. intros ctx w d err w' d' Hw _ [= <- <- <-]. auto. Qed.
Next Obligation.
  intros ctx w d r w' d' Hw _ E. apply Exec_inv in E as [-> E]. rewrite run_schema in E. destruct E as [-> ->]. auto.
Qed.
Next Obligation.
  intros d _. split; [apply merge_sort_Permutation | apply (StronglySorted_merge_sort key_le)].
Qed.
Next Obligation.
  intros ctx limit offset w d r w' d' Hw _ _ _ E. cbn [db_Query sqlite] in E. unfold Query in E.
  rewrite decide_True in E by done. simplify_eq. auto.
Qed.
End SqliteTable.

(** ** Witnesses *)

Module SqlRuns.
#[export] Existing Instances SqliteTable.sqlite SqliteTable.laws Toy.gzip Toy.gzip_ok Toy.crypto Toy.crypto_ok.

(** The value the runs store. *)
Definition Ada : bytes := bytes_of_string "Ada".

(** A row that has expired and two that never do. *)
Definition forever : Z := 9000000000000.
Definition db0 : SqliteTable.db :=
  SqliteTable.mkDB {["app:a" := (Ada, 1); "app:b" := (Ada, forever); "app:c" := (Ada, forever)]} None.
Definition clock : World := sleepWorld Minute world_example.

Lemma clock_ok : world_ok clock.
Proof. apply (later_world_ok world_example), later_sleep; [exact world_example_ok | reflexivity]. Qed.

Definition over (d : SqliteTable.db) (p : string) : sqlStore SqliteTable.db :=
  mkSqlStore d SqliteTable.tbl SqliteTable.drv p Minute (getSQL SqliteTable.drv SqliteTable.tbl)
    (upsertSQL SqliteTable.drv SqliteTable.tbl) (addInsertSQL SqliteTable.drv SqliteTable.tbl)
    (addReuseExpiredSQL SqliteTable.drv SqliteTable.tbl) (deleteSQL SqliteTable.drv SqliteTable.tbl)
    (flushSQL SqliteTable.drv SqliteTable.tbl).

Lemma sql_over_ok d p : sql_ok (drv := SqliteTable.drv) (tbl := SqliteTable.tbl) (over d p).
Proof. split; [split; reflexivity|]. split; [|exact I]. unfold prepared, over. by repeat split. Qed.

Definition flushed := sql_Flush Background clock (over db0 "other").
Definition opts : ListPageOptions := mkListPageOptions EmptyString EmptyString EmptyString 1.
Definition page := sql_ListPage Background opts clock (over db0 "app").

Definition openDB (_ _ : string) : SqliteTable.db + error := inl (SqliteTable.mkDB ∅ None).
Definition config : sqlConfig := mkSqlConfig cfg_example "sqlite" "file::memory:" EmptyString.
Definition built := sql_New openDB config world_example tt.
Definition store : wrappedStore (sqlStore SqliteTable.db) := default (Plain (over db0 "app")) (rv built).1.
Definition set1 := Store_Set Background "user:1" Ada Minute (wv built) store.
Definition get1 := Store_Get Background "user:1" (wv set1) (sv set1).
End SqlRuns.
#[local] Strategy -1000 [SqlRuns.built SqlRuns.set1 SqlRuns.get1 SqlRuns.flushed SqlRuns.page].
#[local] Existing Instances SqliteTable.sqlite SqliteTable.laws Toy.gzip Toy.gzip_ok Toy.crypto Toy.crypto_ok.


Lemma sql_Flush_table_witness :
  sql_peek (SqlRuns.over SqlRuns.db0 "app") (now SqlRuns.clock) "b" = Some SqlRuns.Ada /\
  forall k, removed sql_peek (wv SqlRuns.flushed) (withDB (sq_db (sv SqlRuns.flushed)) (SqlRuns.over SqlRuns.db0 "app")) k.
Proof.
  split; [vm_compute; reflexivity|].
  assert (E : rv SqlRuns.flushed = None) by (vm_compute; reflexivity). apply run_eta in E. unfold SqlRuns.flushed in E at 1.
  exact (sql_Flush_table (drv := SqliteTable.drv) (tbl := SqliteTable.tbl) Background SqlRuns.clock
    (SqlRuns.over SqlRuns.db0 "other") (SqlRuns.over SqlRuns.db0 "app") (wv SqlRuns.flushed) (sv SqlRuns.flushed)
    SqlRuns.clock_ok (SqlRuns.sql_over_ok _ _) E).
Defined.

(** Two live rows, of which the first page lists one and reports no more. *)
Lemma sql_ListPage_stops_early_witness :
  rv SqlRuns.page = (mkListPageResult [mkCacheEntry "b" 3 (Some SqlRuns.forever)] EmptyString false, None) /\
  HasMore (rv SqlRuns.page).1 = false /\ NextCursor (rv SqlRuns.page).1 = EmptyString.
Proof.
  split; [vm_compute; reflexivity|].
  assert (E : rv SqlRuns.page = ((rv SqlRuns.page).1, None)) by (vm_compute; reflexivity).
  apply run_eta in E. unfold SqlRuns.page in E at 1.
  refine (sql_ListPage_stops_early (drv := SqliteTable.drv) (tbl := SqliteTable.tbl) Background SqlRuns.opts 0 SqlRuns.clock
    (SqlRuns.over SqlRuns.db0 "app") (rv SqlRuns.page).1 (wv SqlRuns.page) (sv SqlRuns.page) "app:a" SqlRuns.Ada 1
    SqlRuns.clock_ok (SqlRuns.sql_over_ok _ _) _ _ _ _ E).
  - vm_compute; reflexivity.
  - vm_compute; reflexivity.
  - vm_compute. apply elem_of_cons. left. reflexivity.
  - vm_compute. split; reflexivity.
Defined.
