(* ===== verification/SqlShared.v ===== *)
(** * The SQL store among other clients

    A table is made to be shared: other processes run their statements between any two
    statements of one operation.  [SharedLaws] is what a database promises then: every
    statement outside a transaction is one step, and a transaction that commits does so
    in one step, in which the row it has read is still the row it read (the row is
    locked by SELECT ... FOR UPDATE, or, in SQLite, the write fails when it is not).
    Nothing is promised about a row that was not there to be locked.

    [Add], the locks and [Increment] are then single steps on the rows that exist.
    The last part shows the two places where an operation of the store can undo the
    work of another client. *)

From S2P Require Import Prelude GoStd CacheCore Interference Shaping MemoryStore Rows SqlStore SqlContract.

(** ** Steps on a table *)

Implicit Types (k : string) (v : bytes) (m : sqlTable).

(** The row under [k] expired before millisecond [n]. *)
Definition stale k (n : Z) m : Prop := exists v0 x0, m !! k = Some (v0, x0) /\ x0 < n.

(** The key is free at instant [t]: a reader finds nothing under it. *)
Definition freeAt k (t : Z) m : Prop := m !! k = None \/ stale k (UnixMilli t) m.

Definition writeStep k (row : bytes * Z) m1 m2 : Prop := m2 = <[k := row]> m1.
Definition removeStep k m1 m2 : Prop := m2 = base.delete k m1.
Definition insertStep k row m1 m2 : Prop := m1 !! k = None /\ writeStep k row m1 m2.
Definition reuseStep k row n m1 m2 : Prop := stale k n m1 /\ writeStep k row m1 m2.
Definition releaseStep k v m1 m2 : Prop := (exists x, m1 !! k = Some (v, x)) /\ removeStep k m1 m2.

(** What an open transaction has read and what it will write. *)
Record txState := mkTx { txn_read : option (string * (bytes * Z)); txn_write : option (string * (bytes * Z)) }.

(** The commit of a transaction that read [rd] and writes [row] under [k]. *)
Definition commitStep (rd : option (string * (bytes * Z))) k row m1 m2 : Prop :=
  (forall k0 row0, rd = Some (k0, row0) -> m1 !! k0 = Some row0) /\ writeStep k row m1 m2.

(** ** The database *)

(** What can be said of a database: its committed rows, the open transaction of this
    client, and what other clients may do to the rows. *)
Class SharedView (D : Type) := {
  sh_ok : D -> Prop;
  sh_rows : D -> sqlTable;
  sh_tx : D -> option txState;
  sh_rely : relation sqlTable
}.

Abbreviation during := (Interference.during sh_rely).
Abbreviation atomically := (Interference.atomically sh_rely).
Abbreviation maybe := (Interference.maybe sh_rely).

Class SharedLaws (D : Type) `{SqlDB D} `{SharedView D} (driverName table : string) := {
  #[global] sh_order :: PreOrder (sh_rely (D := D));
  sh_get ctx k w (d : D) : world_ok w -> sh_ok d ->
    wp (db_QueryRow ctx (getSQL driverName table) [VText k]) (fun r w' d' => later w w' /\ sh_ok d' /\
      during (sh_rows d) (sh_rows d') (fun m =>
        match r with
        | inl row => m !! k = Some row
        | inr e => errorsIs e ErrNoRows = true -> m !! k = None
        end)) w d;
  sh_delete ctx k w (d : D) : world_ok w -> sh_ok d ->
    wp (db_Exec ctx (deleteSQL driverName table) [VText k]) (fun r w' d' => later w w' /\ sh_ok d' /\
      match execErr r with
      | None => atomically (sh_rows d) (sh_rows d') (removeStep k)
      | Some _ => maybe (sh_rows d) (sh_rows d') (removeStep k)
      end) w d;
  sh_insert ctx k v x w (d : D) : world_ok w -> sh_ok d ->
    wp (db_Exec ctx (addInsertSQL driverName table) [VText k; VBytes v; VInt x]) (fun r w' d' => later w w' /\ sh_ok d' /\
      match execErr r with
      | None => atomically (sh_rows d) (sh_rows d') (insertStep k (v, x))
      | Some e =>
          if isDuplicateErr e driverName then during (sh_rows d) (sh_rows d') (fun m => is_Some (m !! k))
          else maybe (sh_rows d) (sh_rows d') (insertStep k (v, x))
      end) w d;
  sh_reuse ctx k v x n w (d : D) : world_ok w -> sh_ok d -> n <= x ->
    wp (db_Exec ctx (addReuseExpiredSQL driverName table) [VBytes v; VInt x; VText k; VInt n])
      (fun r w' d' => later w w' /\ sh_ok d' /\
      match r with
      | inl (inl rows) =>
          if rows >? 0 then atomically (sh_rows d) (sh_rows d') (reuseStep k (v, x) n)
          else during (sh_rows d) (sh_rows d') (fun m => ~ stale k n m)
      | _ => maybe (sh_rows d) (sh_rows d') (reuseStep k (v, x) n)
      end) w d;
  sh_release ctx k v w (d : D) : world_ok w -> sh_ok d ->
    wp (db_Exec ctx (releaseSQL driverName table) [VText k; VBytes v]) (fun r w' d' => later w w' /\ sh_ok d' /\
      match r with
      | inl (inl rows) =>
          if rows >? 0 then atomically (sh_rows d) (sh_rows d') (releaseStep k v)
          else during (sh_rows d) (sh_rows d') (fun m => ~ exists x, m !! k = Some (v, x))
      | _ => maybe (sh_rows d) (sh_rows d') (releaseStep k v)
      end) w d;
  sh_begin ctx w (d : D) : world_ok w -> sh_ok d ->
    wp (db_BeginTx ctx) (fun err w' d' => later w w' /\ sh_ok d' /\ sh_rely (sh_rows d) (sh_rows d') /\
      (err = None -> sh_tx d' = Some (mkTx None None))) w d;
  sh_txGet ctx k w (d : D) : world_ok w -> sh_ok d -> sh_tx d = Some (mkTx None None) ->
    wp (tx_QueryRow ctx (incrementSelectSQL driverName table) [VText k]) (fun r w' d' => later w w' /\ sh_ok d' /\
      match r with
      | inl row => sh_tx d' = Some (mkTx (Some (k, row)) None) /\
          during (sh_rows d) (sh_rows d') (fun m => m !! k = Some row)
      | inr e => sh_tx d' = Some (mkTx None None) /\
          during (sh_rows d) (sh_rows d') (fun m => errorsIs e ErrNoRows = true -> m !! k = None)
      end) w d;
  sh_txUpsert ctx k v x w (d : D) rd : world_ok w -> sh_ok d -> sh_tx d = Some (mkTx rd None) ->
    wp (tx_Exec ctx (upsertSQL driverName table) [VText k; VBytes v; VInt x; VBytes v; VInt x])
      (fun r w' d' => later w w' /\ sh_ok d' /\ sh_rely (sh_rows d) (sh_rows d') /\
        (execErr r = None -> sh_tx d' = Some (mkTx rd (Some (k, (v, x)))))) w d;
  sh_commit w (d : D) rd k row : world_ok w -> sh_ok d -> sh_tx d = Some (mkTx rd (Some (k, row))) ->
    wp tx_Commit (fun err w' d' => later w w' /\ sh_ok d' /\
      match err with
      | None => atomically (sh_rows d) (sh_rows d') (commitStep rd k row)
      | Some _ => maybe (sh_rows d) (sh_rows d') (commitStep rd k row)
      end) w d;
  sh_rollback w (d : D) : world_ok w -> sh_ok d ->
    wp tx_Rollback (fun _ w' d' => later w w' /\ sh_ok d' /\ sh_rely (sh_rows d) (sh_rows d')) w d
}.

(** ** What an operation does to the table *)

Section Posts.
Context {D : Type} `{SharedView D}.

(** A lock attempt begun at instant [t]. *)
Definition lockStep k (row : bytes * Z) (t : Z) m1 m2 : Prop := freeAt k t m1 /\ writeStep k row m1 m2.

(** Contention: the key was taken, or somebody removed the row that was in the way
    after the INSERT had met it. *)
Definition contended k (t : Z) m m' : Prop :=
  during m m' (fun m1 => ~ freeAt k t m1) \/
  exists m1, sh_rely m m1 /\ is_Some (m1 !! k) /\ during m1 m' (fun m2 => m2 !! k = None).

Definition acquire_post k row t m (r : bool * option error) m' : Prop :=
  match r with
  | (true, None) => atomically m m' (lockStep k row t)
  | (false, None) => contended k t m m'
  | (won, Some _) => won = false /\ maybe m m' (lockStep k row t)
  end.

Definition release_post k v m (r : bool * option error) m' : Prop :=
  match r with
  | (true, None) => atomically m m' (releaseStep k v)
  | (false, None) => during m m' (fun m1 => ~ exists x, m1 !! k = Some (v, x))
  | (won, Some _) => won = false /\ maybe m m' (releaseStep k v)
  end.

(** The number a row counts as at instant [t]. *)
Definition numberOf (t : Z) (row : bytes * Z) : option Z :=
  if UnixMilli t >? row.2 then Some 0 else ParseInt (string_of_bytes row.1).

(** The step of an increment from [m], by an operation between [t0] and [t1]: it
    counts from the row it replaces, unless there was none when it looked. *)
Definition countStep k (delta n t0 t1 : Z) m m1 m2 : Prop :=
  ((exists row t c, t0 <= t <= t1 /\ m1 !! k = Some row /\ numberOf t row = Some c /\ n = wrap64 (c + delta)) \/
   n = wrap64 delta /\ during m m1 (fun m0 => m0 !! k = None)) /\
  exists x, writeStep k (bytes_of_string (FormatInt n), x) m1 m2.

Definition count_post k delta t0 t1 m (r : Z * option error) m' : Prop :=
  match r with
  | (n, None) => atomically m m' (countStep k delta n t0 t1 m)
  | (n, Some _) => n = 0 /\ maybe m m' (fun m1 m2 => exists n', countStep k delta n' t0 t1 m m1 m2)
  end.
End Posts.

(** ** The operations *)

Section Operations.
Context {D : Type} {drv tbl : string} `{SharedLaws D drv tbl}.
Implicit Types (s : sqlStore D) (d : D).

#[local] Abbreviation prepared := (SqlContract.prepared (drv := drv) (tbl := tbl)).
#[local] Abbreviation keyOf s key := (sql_cacheKey (sq_prefix s) key).
#[local] Abbreviation during_rely := (Interference.during_rely sh_rely).
#[local] Abbreviation during_from := (Interference.during_from sh_rely).
#[local] Abbreviation during_upto := (Interference.during_upto sh_rely).
#[local] Abbreviation atomically_from := (Interference.atomically_from sh_rely).
#[local] Abbreviation atomically_mono := (Interference.atomically_mono sh_rely).
#[local] Abbreviation atomically_upto := (Interference.atomically_upto sh_rely).
#[local] Abbreviation maybe_from := (Interference.maybe_from sh_rely).
#[local] Abbreviation maybe_mono := (Interference.maybe_mono sh_rely).
#[local] Abbreviation maybe_upto := (Interference.maybe_upto sh_rely).

(** The store after its database has moved on. *)
Definition on_rows s s' (P : sqlTable -> sqlTable -> Prop) : Prop :=
  exists d', s' = withDB d' s /\ sh_ok d' /\ P (sh_rows (sq_db s)) (sh_rows d').

Lemma wp_onDB {A} (body : M D A) Q w s :
  wp body (fun a w' d' => Q a w' (withDB d' s)) w (sq_db s) -> wp (onDB body) Q w s.
Proof. unfold wp, onDB, zoom. by destruct (body w (sq_db s)) as [[a w'] d']. Qed.

Lemma prepared_withDB d s : prepared s -> prepared (withDB d s).
Proof. done. Qed.

Lemma live_not_free k t m : is_Some (m !! k) -> ~ stale k (UnixMilli t) m -> ~ freeAt k t m.
Proof. intros [row Hrow] Hs [Hn|Hn]; [congruence | done]. Qed.

(** The INSERT met a row, and the UPDATE after it found none that has expired. *)
Lemma reuse_contended k t m m1 m' :
  during m m1 (fun m0 => is_Some (m0 !! k)) -> during m1 m' (fun m2 => ~ stale k (UnixMilli t) m2) -> contended k t m m'.
Proof.
  intros (m0 & Ra & Hsome & Rb) (m2 & Rc & Hlive & Rd).
  assert (sh_rely m0 m2) as Rbc by by transitivity m1.
  destruct (m2 !! k) eqn:Ek.
  - left. exists m2. split; [by transitivity m0|]. split; [|done]. apply live_not_free; [by rewrite Ek | done].
  - right. exists m0. split; [done|]. split; [done|]. by exists m2.
Qed.

(** A statement of the store, by its law. *)
Ltac statement law :=
  apply wp_bind, wp_onDB; (eapply wp_mono; [by apply law; eauto with go|]);
  let Hl := fresh "Hl" in let Hd := fresh "Hd" in let Hx := fresh "Hx" in
  intros ? ? ? (Hl & Hd & Hx).

(** The operation returns, and the database is [d]. *)
Ltac returned d :=
  apply wp_ret; split; [eauto using later_trans with go|]; exists d; split; [done|]; split; [done|].

Lemma sql_Add_wp ctx key v ttl w s :
  world_ok w -> sh_ok (sq_db s) -> prepared s -> 0 < sql_ttl s ttl ->
  let x := UnixMilli (UnixMilli (now w) * Millisecond + sql_ttl s ttl) in
  wp (sql_Add ctx key v ttl) (fun r w' s' => later w w' /\
    on_rows s s' (fun m m' => acquire_post (keyOf s key) (v, x) (now w) m r m')) w s.
Proof.
  intros Hw Hd (Edrv & _ & _ & _ & Eins & Ereuse & _) Httl x. pose proof (later_tick w Hw) as Hl0.
  assert (Hx : UnixMilli (now w) <= x) by by apply add_expiry_future.
  unfold sql_Add. apply wp_get, wp_timeNow. cbv zeta. fold x. rewrite Eins, Ereuse, Edrv.
  statement (sh_insert (driverName := drv) (table := tbl)). destruct (execErr a) as [e|].
  2: { returned s'. eapply atomically_mono; [done|]. intros m1 m2 _ [Hn Hm]. split; [by left | done]. }
  destruct (isDuplicateErr e drv).
  2: { returned s'. split; [done|]. eapply maybe_mono; [done|]. intros m1 m2 _ [Hn Hm]. split; [by left | done]. }
  assert (sh_rely (sh_rows (sq_db s)) (sh_rows s')) as Ra by by eapply during_rely.
  statement (sh_reuse (driverName := drv) (table := tbl)).
  assert (Hreuse : forall m1 m2, reuseStep (keyOf s key) (v, x) (UnixMilli (now w)) m1 m2 ->
    lockStep (keyOf s key) (v, x) (now w) m1 m2) by (intros m1 m2 [Hn Hm]; split; [by right | done]).
  assert (Hfail : maybe (sh_rows s') (sh_rows s'0) (reuseStep (keyOf s key) (v, x) (UnixMilli (now w))) ->
    maybe (sh_rows (sq_db s)) (sh_rows s'0) (lockStep (keyOf s key) (v, x) (now w))).
  { intros Hm. eapply maybe_mono; [by eapply maybe_from|]. auto. }
  destruct a0 as [[rows|e1]|e1]; [|by returned s'0; split; [|apply Hfail]..].
  destruct (rows >? 0); returned s'0.
  - eapply atomically_mono; [by eapply atomically_from|]. auto.
  - by eapply reuse_contended.
Qed.

Lemma sql_LockRelease_wp ctx key v w s :
  world_ok w -> sh_ok (sq_db s) -> prepared s ->
  wp (sql_LockRelease ctx key v) (fun r w' s' => later w w' /\
    on_rows s s' (fun m m' => release_post (keyOf s key) v m r m')) w s.
Proof.
  intros Hw Hd (Edrv & Etbl & _). unfold sql_LockRelease. apply wp_get. cbv zeta. rewrite Edrv, Etbl.
  statement (sh_release (driverName := drv) (table := tbl)).
  destruct a as [[rows|e]|e]; [destruct (rows >? 0)|..]; by returned s'.
Qed.

Lemma currentOf_wp key row w d :
  world_ok w ->
  wp (currentOf key row) (fun c w' d' => later w w' /\ d' = d /\
    match c, row with
    | inl c, inl r => exists t, now w <= t <= now w' /\ numberOf t r = Some c
    | inl c, inr e => errorsIs e ErrNoRows = true /\ c = 0
    | inr _, _ => True
    end) w d.
Proof.
  intros Hw. unfold currentOf. destruct row as [[v x]|e].
  2: { destruct (errorsIs e ErrNoRows); apply wp_ret; by auto with go. }
  apply wp_timeNow. pose proof (later_tick w Hw) as Hl. pose proof (later_now _ _ Hl).
  destruct (UnixMilli (now w) >? x) eqn:Ex.
  - apply wp_ret. split; [done|]. split; [done|]. exists (now w). split; [lia|]. unfold numberOf. cbn [fst snd]. by rewrite Ex.
  - destruct (ParseInt (string_of_bytes v)) as [c|] eqn:Ep; apply wp_ret; (split; [done|]); (split; [done|]); [|done].
    exists (now w). split; [lia|]. unfold numberOf. cbn [fst snd]. by rewrite Ex.
Qed.

(** The commit of a transaction that read [row] at the table [m0], somewhere after [m]. *)
Lemma commit_counts k delta c n x row t t0 t1 m m0 m1 m2 :
  sh_rely m m0 -> sh_rely m0 m1 -> n = wrap64 (c + delta) ->
  match row with
  | inl r => t0 <= t <= t1 /\ numberOf t r = Some c
  | inr _ => c = 0 /\ m0 !! k = None
  end ->
  commitStep (match row : (bytes * Z) + error with inl r => Some (k, r) | inr _ => None end)
    k (bytes_of_string (FormatInt n), x) m1 m2 ->
  countStep k delta n t0 t1 m m1 m2.
Proof.
  intros Ra Rb -> Hrow [Hread Hw]. split; [|by exists x]. destruct row as [r|e].
  - left. exists r, t, c. destruct Hrow as [Ht Hn]. split; [done|]. split; [by apply Hread | done].
  - right. destruct Hrow as [-> Hn]. split; [done|]. exists m0. auto.
Qed.

Lemma count_failed k delta t0 t1 m e m' : sh_rely m m' -> count_post k delta t0 t1 m (0, Some e) m'.
Proof. intros Ra. split; [done | by left]. Qed.

Lemma incrementTx_wp ctx key delta ttl w s d :
  world_ok w -> sh_ok d -> prepared s -> sh_tx d = Some (mkTx None None) ->
  wp (incrementTx s ctx key delta ttl) (fun r w' d' => later w w' /\ sh_ok d' /\
    count_post (keyOf s key) delta (now w) (now w') (sh_rows d) r (sh_rows d')) w d.
Proof.
  intros Hw Hd (Edrv & Etbl & _ & Eup & _) Htx. unfold incrementTx. rewrite Edrv, Etbl, Eup.
  apply wp_bind. eapply wp_mono; [by apply (sh_txGet (driverName := drv) (table := tbl))|].
  intros row w1 d1 (Hl1 & Hd1 & Hrow).
  apply wp_bind. eapply wp_mono; [apply (currentOf_wp key row); by eauto with go|].
  intros c w2 ? (Hl2 & -> & Hc). pose proof (later_trans _ _ _ Hl1 Hl2) as Hl12.
  set (rd := match row with inl r => Some (keyOf s key, r) | inr _ => None end).
  assert (sh_tx d1 = Some (mkTx rd None) /\ exists m0, sh_rely (sh_rows d) m0 /\ sh_rely m0 (sh_rows d1) /\
    match row with inl r => True | inr e => errorsIs e ErrNoRows = true -> m0 !! keyOf s key = None end)
    as (Htx1 & m0 & Ra & Rb & Hm0).
  { destruct row; destruct Hrow as [? (m0 & ? & ? & ?)]; (split; [done|]); by exists m0. }
  assert (sh_rely (sh_rows d) (sh_rows d1)) as R1 by by transitivity m0.
  destruct c as [c|e]; [|apply wp_ret; split; [done|]; split; [done|]; by apply count_failed].
  cbv zeta. apply wp_timeNow. pose proof (later_tick w2 (later_world_ok _ _ Hl2)) as Hl3.
  apply wp_bind. eapply wp_mono; [apply (sh_txUpsert (driverName := drv) (table := tbl)); by eauto with go|].
  intros r w4 d4 (Hl4 & Hd4 & R4 & Htx4). assert (sh_rely (sh_rows d) (sh_rows d4)) as R14 by by transitivity (sh_rows d1).
  assert (later w w4) as Hl24 by eauto using later_trans.
  destruct (execErr r) as [e|]; [apply wp_ret; split; [done|]; split; [done|]; by apply count_failed|].
  apply wp_bind. eapply wp_mono; [apply (sh_commit (driverName := drv) (table := tbl)); by eauto with go|].
  intros err w5 d5 (Hl5 & Hd5 & Hcommit). assert (later w w5) as Hl by eauto using later_trans.
  pose proof (later_now _ _ Hl2). pose proof (later_now _ _ (later_trans _ _ _ Hl3 (later_trans _ _ _ Hl4 Hl5))).
  pose proof (later_now _ _ Hl1).
  assert (Hstep : forall m1 m2, sh_rely (sh_rows d4) m1 ->
    commitStep rd (keyOf s key) (bytes_of_string (FormatInt (wrap64 (c + delta))), UnixMilli (now w2 + ttl)) m1 m2 ->
    countStep (keyOf s key) delta (wrap64 (c + delta)) (now w) (now w5) (sh_rows d) m1 m2).
  { intros m1 m2 R45 Hs. assert (sh_rely m0 m1) as R01 by (etransitivity; [exact Rb|]; by transitivity (sh_rows d4)).
    destruct row as [r0|e].
    - destruct Hc as (t & Ht & Hn). eapply (commit_counts _ _ c _ _ (inl r0) t _ _ _ m0); [done..| |exact Hs]. split; [lia | done].
    - destruct Hc as [He ->]. eapply (commit_counts _ _ 0 _ _ (inr e) 0 _ _ _ m0); [done..| |exact Hs]. auto. }
  destruct err as [e|]; apply wp_ret; (split; [done|]); (split; [done|]).
  - split; [done|]. eapply maybe_from; [exact R14|]. eapply maybe_mono; [exact Hcommit|]. eauto.
  - eapply atomically_from; [exact R14|]. eapply atomically_mono; [exact Hcommit|]. eauto.
Qed.

Lemma count_widen k delta t0 t1 u0 u1 m m1 r m' m2 :
  count_post k delta t0 t1 m1 r m' -> u0 <= t0 -> t1 <= u1 -> sh_rely m m1 -> sh_rely m' m2 ->
  count_post k delta u0 u1 m r m2.
Proof.
  intros Hp H0' H1' Ra Rb.
  assert (Hs : forall n a b, countStep k delta n t0 t1 m1 a b -> countStep k delta n u0 u1 m a b).
  { intros n a b [[(row & t & c & Ht & Hrow)|[Hn Hd]] Hw]; (split; [|done]).
    - left. exists row, t, c. split; [lia | done].
    - right. split; [done|]. by eapply during_from. }
  destruct r as [n [e|]].
  - destruct Hp as [-> Hp]. split; [done|]. eapply maybe_mono; [by eapply maybe_from, maybe_upto|].
    intros a b _ [n Hn]. eauto.
  - eapply atomically_mono; [by eapply atomically_from, atomically_upto|]. eauto.
Qed.

Lemma sql_Increment_wp ctx key delta ttl w s :
  world_ok w -> sh_ok (sq_db s) -> prepared s ->
  wp (sql_Increment ctx key delta ttl) (fun r w' s' => later w w' /\
    on_rows s s' (fun m m' => count_post (keyOf s key) delta (now w) (now w') m r m')) w s.
Proof.
  intros Hw Hd Hp. unfold sql_Increment. apply wp_get. cbv zeta.
  statement (sh_begin (driverName := drv) (table := tbl)). destruct Hx as [Ra Htx].
  destruct a as [e|]; [returned s'; by apply count_failed|].
  apply wp_bind, wp_onDB. eapply wp_mono; [apply (incrementTx_wp ctx key delta _ w' s); by eauto with go|].
  intros r w1 d1 (Hl1 & Hd1 & Hr). statement (sh_rollback (driverName := drv) (table := tbl)).
  pose proof (later_now _ _ Hl). pose proof (later_now _ _ Hl0).
  returned s'0. by eapply count_widen.
Qed.
End Operations.

(** ** A table with a second client *)

Module SharedTable.
(** A table of a PostgreSQL database: its committed rows, the open transaction of this
    client, and the writes the other clients will make, one before each request of
    this one.  A write to the row the transaction holds waits. *)
Record db := mkDB { rows : sqlTable; txn : option txState; others : list (string * option (bytes * Z)) }.

Definition drv : string := "pgx".
Definition tbl : string := "cache_entries".
Definition duplicate : error := ErrorString "ERROR: duplicate key value violates unique constraint (SQLSTATE 23505)".
Definition unknown : error := ErrorString "ERROR: syntax error (SQLSTATE 42601)".
Definition busy : error := ErrorString "ERROR: canceling statement due to lock timeout (SQLSTATE 55P03)".

Definition held (d : db) k : Prop :=
  match txn d with Some (mkTx (Some (k', _)) _) => k' = k | _ => False end.
#[export] Instance held_dec d k : Decision (held d k).
Proof. unfold held. destruct (txn d) as [[[[k' r]|] wr]|]; apply _. Defined.

Definition other k (r : option (bytes * Z)) m : sqlTable :=
  match r with Some row => <[k := row]> m | None => base.delete k m end.

(** The next write of the others, when nothing keeps it waiting. *)
Definition settle (d : db) : db :=
  match others d with
  | [] => d
  | (k, r) :: rest => if decide (held d k) then d else mkDB (other k r (rows d)) (txn d) rest
  end.

(** The statements of the store, outside a transaction. *)
Definition run (q : string) (args : list sqlValue) m : (sqlTable * Z) + error :=
  match args with
  | [VText k; VBytes v; VInt x] =>
      if decide (q = addInsertSQL drv tbl) then
        match m !! k with Some _ => inr duplicate | None => inl (<[k := (v, x)]> m, 1) end
      else inr unknown
  | [VBytes v; VInt x; VText k; VInt n] =>
      if decide (q = addReuseExpiredSQL drv tbl) then
        match m !! k with
        | Some (_, x0) => if x0 <? n then inl (<[k := (v, x)]> m, 1) else inl (m, 0)
        | None => inl (m, 0)
        end
      else inr unknown
  | [VText k; VBytes v] =>
      if decide (q = releaseSQL drv tbl) then
        match m !! k with
        | Some (v0, _) => if decide (v0 = v) then inl (base.delete k m, 1) else inl (m, 0)
        | None => inl (m, 0)
        end
      else inr unknown
  | [VText k] => if decide (q = deleteSQL drv tbl) then inl (base.delete k m, 1) else inr unknown
  | _ => inr unknown
  end.

Definition request {A} (f : db -> A * db) : M db A := fun w d => let '(a, d') := f (settle d) in (a, w, d').

Definition Exec (_ : Context) (q : string) (args : list sqlValue) : M db ((Z + error) + error) :=
  request (fun d =>
    match txn d with
    | Some _ => (inr busy, d)
    | None => match run q args (rows d) with
              | inl (m, n) => (inl (inl n), mkDB m None (others d))
              | inr e => (inr e, d)
              end
    end).

Definition QueryRow (_ : Context) (q : string) (args : list sqlValue) : M db ((bytes * Z) + error) :=
  request (fun d =>
    match args with
    | [VText k] =>
        if decide (q = getSQL drv tbl)
        then (match rows d !! k with Some r => inl r | None => inr ErrNoRows end, d) else (inr unknown, d)
    | _ => (inr unknown, d)
    end).

Definition txQueryRow (_ : Context) (q : string) (args : list sqlValue) : M db ((bytes * Z) + error) :=
  request (fun d =>
    match args, txn d with
    | [VText k], Some t =>
        if decide (q = incrementSelectSQL drv tbl) then
          match rows d !! k with
          | Some r => (inl r, mkDB (rows d) (Some (mkTx (Some (k, r)) (txn_write t))) (others d))
          | None => (inr ErrNoRows, d)
          end
        else (inr unknown, d)
    | _, _ => (inr unknown, d)
    end).

Definition txExec (_ : Context) (q : string) (args : list sqlValue) : M db ((Z + error) + error) :=
  request (fun d =>
    match args, txn d with
    | [VText k; VBytes v; VInt x; VBytes _; VInt _], Some t =>
        if decide (q = upsertSQL drv tbl)
        then (inl (inl 1), mkDB (rows d) (Some (mkTx (txn_read t) (Some (k, (v, x))))) (others d))
        else (inr unknown, d)
    | _, _ => (inr unknown, d)
    end).

Definition Commit : M db (option error) :=
  request (fun d =>
    match txn d with
    | Some (mkTx _ (Some (k, row))) => (None, mkDB (<[k := row]> (rows d)) None (others d))
    | Some _ => (None, mkDB (rows d) None (others d))
    | None => (Some unknown, d)
    end).

#[export] Instance postgres : SqlDB db := {|
  db_Ping := fun _ => ret None;
  db_Prepare := fun _ => ret None;
  db_Exec := Exec;
  db_QueryRow := QueryRow;
  db_Query := fun _ _ _ => ret (inr unknown);
  db_BeginTx := fun _ => request (fun d => (None, mkDB (rows d) (Some (mkTx None None)) (others d)));
  tx_QueryRow := txQueryRow;
  tx_Exec := txExec;
  tx_Commit := Commit;
  tx_Rollback := request (fun d => (tt, mkDB (rows d) None (others d)))
|}.

Definition otherStep m1 m2 : Prop := exists k r, m2 = other k r m1.

#[export] Instance view : SharedView db := {|
  sh_ok := fun d => forall k r wr, txn d = Some (mkTx (Some (k, r)) wr) -> rows d !! k = Some r;
  sh_rows := rows;
  sh_tx := txn;
  sh_rely := rtc otherStep
|}.

Lemma settle_tx d : txn (settle d) = txn d.
Proof. unfold settle. destruct (others d) as [|[k r] rest]; [done|]. by destruct (decide (held d k)). Qed.

Lemma settle_rely d : sh_rely (rows d) (rows (settle d)).
Proof.
  unfold settle. destruct (others d) as [|[k r] rest]; [done|]. destruct (decide (held d k)); [done|].
  apply rtc_once. by exists k, r.
Qed.

Lemma settle_ok d : sh_ok d -> sh_ok (settle d).
Proof.
  unfold settle. destruct (others d) as [|[k r] rest]; [done|]. destruct (decide (held d k)) as [|Hn]; [done|].
  intros Hd k0 r0 wr Ht. simpl in *. assert (k0 <> k) as Hne by (intros ->; apply Hn; unfold held; by rewrite Ht).
  specialize (Hd _ _ _ Ht). destruct r; simpl; [by rewrite lookup_insert_ne | by rewrite lookup_delete_ne].
Qed.

(** A request is made on the settled database. *)
Lemma sql_wp_request {A} (f : db -> A * db) (Q : A -> World -> db -> Prop) w d :
  (forall d1, sh_ok d1 -> sh_rely (rows d) (rows d1) -> txn d1 = txn d -> let '(a, d') := f d1 in Q a w d') ->
  sh_ok d -> wp (request f) Q w d.
Proof.
  intros Hf Hd. unfold wp, request. specialize (Hf (settle d) (settle_ok d Hd) (settle_rely d) (settle_tx d)).
  by destruct (f (settle d)).
Qed.

Lemma looked d d1 (P : sqlTable -> Prop) : sh_rely (rows d) (rows d1) -> P (rows d1) -> during (rows d) (rows d1) P.
Proof. intros Ra HP. exists (rows d1). split; [done|]. split; [done | apply rtc_refl]. Qed.

Lemma stepped d d1 m' (P : sqlTable -> sqlTable -> Prop) :
  sh_rely (rows d) (rows d1) -> P (rows d1) m' -> atomically (rows d) m' P.
Proof. intros Ra HP. exists (rows d1), m'. split; [done|]. split; [done | apply rtc_refl]. Qed.

Lemma no_tx_ok m q : sh_ok (mkDB m None q).
Proof. by intros k r wr. Qed.

#[local] Hint Resolve later_refl looked stepped no_tx_ok : core.
#[local] Hint Extern 1 (sh_ok _) => done : core.

(** Outside a transaction. *)
Lemma exec_wp ctx q args Q w d :
  (forall d1, sh_rely (rows d) (rows d1) -> sh_ok d1 ->
     Q (inr busy) w d1 /\
     match run q args (rows d1) with
     | inl (m, n) => Q (inl (inl n)) w (mkDB m None (others d1))
     | inr e => Q (inr e) w d1
     end) -> sh_ok d -> wp (Exec ctx q args) Q w d.
Proof.
  intros HQ Hd. apply sql_wp_request; [|done]. intros d1 Hd1 Ra _. destruct (HQ d1 Ra Hd1) as [Hb Hr].
  destruct (txn d1); [done|]. by destruct (run q args (rows d1)) as [[m n]|e].
Qed.

#[local] Obligation Tactic := idtac.
#[export] Program Instance laws : SharedLaws db drv tbl.
Next Obligation.
  intros ctx k w d Hw Hd. apply sql_wp_request; [|done]. intros d1 Hd1 Ra _. rewrite decide_True by done.
  destruct (rows d1 !! k) eqn:Ek; auto 6.
Qed.
Next Obligation.
  intros ctx k w d Hw Hd. apply exec_wp; [|done]. intros d1 Ra Hd1. unfold run. rewrite decide_True by done.
  split; (split; [auto|]); (split; [auto|]); [by left|]. by eapply stepped.
Qed.
Next Obligation.
  intros ctx k v x w d Hw Hd. apply exec_wp; [|done]. intros d1 Ra Hd1. unfold run. rewrite decide_True by done.
  split; [split; [auto|]; split; [auto|]; by left|].
  destruct (rows d1 !! k) eqn:Ek; (split; [auto|]); (split; [auto|]); simpl.
  - apply looked; [done|]. by rewrite Ek.
  - by eapply stepped.
Qed.
Next Obligation.
  intros ctx k v x n w d Hw Hd Hx. apply exec_wp; [|done]. intros d1 Ra Hd1. unfold run. rewrite decide_True by done.
  split; [split; [auto|]; split; [auto|]; by left|].
  destruct (rows d1 !! k) as [[v0 x0]|] eqn:Ek; [destruct (Z.ltb_spec x0 n)|]; (split; [auto|]); (split; [auto|]); simpl.
  - eapply stepped; [done|]. split; [by exists v0, x0 | done].
  - apply (looked d d1); [done|]. intros (v1 & x1 & E & ?). simplify_eq. lia.
  - apply (looked d d1); [done|]. intros (v1 & x1 & E & ?). simplify_eq.
Qed.
Next Obligation.
  intros ctx k v w d Hw Hd. apply exec_wp; [|done]. intros d1 Ra Hd1. unfold run. rewrite decide_True by done.
  split; [split; [auto|]; split; [auto|]; by left|].
  destruct (rows d1 !! k) as [[v0 x0]|] eqn:Ek; [destruct (decide (v0 = v)) as [->|]|]; (split; [auto|]); (split; [auto|]); simpl.
  - eapply stepped; [done|]. split; [by exists x0 | done].
  - apply (looked d d1); [done|]. intros (x1 & E). simplify_eq.
  - apply (looked d d1); [done|]. intros (x1 & E). simplify_eq.
Qed.
Next Obligation. intros ctx w d Hw Hd. apply sql_wp_request; [|done]. intros d1 Hd1 Ra _. split; [auto|]. by split. Qed.
Next Obligation.
  intros ctx k w d Hw Hd Ht. apply sql_wp_request; [|done]. intros d1 Hd1 Ra Ht1. simpl in Ht. rewrite Ht1, Ht, decide_True by done.
  destruct (rows d1 !! k) eqn:Ek; (split; [auto|]).
  - split; [by intros k0 r0 wr [= <- <- <-]|]. split; [done|]. by apply looked.
  - split; [done|]. split; [simpl; congruence|]. by apply looked.
Qed.
Next Obligation.
  intros ctx k v x w d rd Hw Hd Ht. apply sql_wp_request; [|done]. intros d1 Hd1 Ra Ht1. simpl in Ht.
  rewrite Ht1, Ht, decide_True by done. split; [auto|]. split; [|by split]. intros k0 r0 wr [= -> <-].
  apply (Hd1 _ _ None). congruence.
Qed.
Next Obligation.
  intros w d rd k row Hw Hd Ht. apply sql_wp_request; [|done]. intros d1 Hd1 Ra Ht1. simpl in Ht. rewrite Ht1, Ht.
  split; [auto|]. split; [done|]. eapply stepped; [done|]. split; [|done]. intros k0 row0 ->.
  apply (Hd1 _ _ (Some (k, row))). congruence.
Qed.
Next Obligation. intros w d Hw Hd. apply sql_wp_request; [|done]. intros d1 Hd1 Ra _. split; [auto|]. by split. Qed.
End SharedTable.

(** ** What other clients cannot break *)


(** So is a release: it removes the row exactly when it holds the owner's token. *)
Theorem sql_LockRelease_atomic {D drv tbl} `{SharedLaws D drv tbl} ctx key owner w (s : sqlStore D) r w' s' :
  world_ok w -> sh_ok (sq_db s) -> SqlContract.prepared (drv := drv) (tbl := tbl) s ->
  sql_LockRelease ctx key owner w s = (r, w', s') ->
  on_rows s s' (fun m m' => release_post (sql_cacheKey (sq_prefix s) key) owner m r m').
Proof. intros Hw Hd Hp E. eapply wp_run in E; [|by apply (sql_LockRelease_wp ctx key owner w s)]. by destruct E as [_ E]. Qed.


(** ** Runs *)

Module SharedRuns.
Import SharedTable.
#[local] Existing Instances postgres view laws.

Definition over (d : db) : sqlStore db :=
  mkSqlStore d tbl drv "app" Minute (getSQL drv tbl) (upsertSQL drv tbl) (addInsertSQL drv tbl)
    (addReuseExpiredSQL drv tbl) (deleteSQL drv tbl) (flushSQL drv tbl).

Lemma over_prepared d : SqlContract.prepared (drv := drv) (tbl := tbl) (over d).
Proof. repeat split. Qed.

Definition ada : bytes := bytes_of_string "ada".
Definition bob : bytes := bytes_of_string "bob".
Definition number (n : Z) : bytes := bytes_of_string (FormatInt n).
Definition far : Z := 9000000000000.
Definition elsewhere : string * option (bytes * Z) := ("app:else", None).

(** A lock whose holder went away, while others work on another key. *)
Definition lapsed_lock : sqlStore db := over (mkDB {["app:job" := (bob, 1)]} None [elsewhere; elsewhere]).
Definition acquired := sql_LockAcquire Background "job" ada Minute SqlRuns.clock lapsed_lock.

(** A counter another client wants to change once it has been read. *)
Definition counter : sqlStore db :=
  over (mkDB {["app:hits" := (number 41, far)]} None [elsewhere; elsewhere; ("app:hits", Some (number 50, far))]).
Definition counted := sql_Increment Background "hits" 1 Minute SqlRuns.clock counter.

(** No transaction is open. *)
Lemma free_ok (d : db) : txn d = None -> sh_ok d.
Proof. intros E k r wr. congruence. Qed.
End SharedRuns.

#[local] Existing Instances SharedTable.postgres SharedTable.view SharedTable.laws.



(** ** What other clients lose *)

Module SharedLosses.
Import SharedTable SharedRuns.
#[local] Existing Instances postgres view laws.

(** The counter does not exist yet: there is no row to lock, and the increment of
    another client, to 5, is committed before this one writes. *)
Definition fresh_counter : sqlStore db :=
  over (mkDB ∅ None [elsewhere; elsewhere; ("app:hits", Some (number 5, far))]).
Definition lost := sql_Increment Background "hits" 1 Minute SqlRuns.clock fresh_counter.

(** [Get] has read a row that expired; before it deletes the row, bob takes the lock. *)
Definition stale_lock : sqlStore db :=
  over (mkDB {["app:job" := (ada, 1)]} None [elsewhere; ("app:job", Some (bob, far))]).
Definition missed := sql_Get Background "job" SqlRuns.clock stale_lock.
Definition second := sql_LockAcquire Background "job" ada Minute (wv missed) (sv missed).

(** The other client's count is gone. *)
Example sql_Increment_lost_update :
  rv lost = (1, None) /\ fst <$> rows (sq_db (sv lost)) !! "app:hits" = Some (number 1) /\ others (sq_db (sv lost)) = [].
Proof. vm_compute. auto. Qed.

(** Bob's lock is gone although it has not expired, and a third client takes it. *)
Example sql_Get_drops_lock :
  rv missed = ([], false, None) /\ rows (sq_db (sv missed)) !! "app:job" = None /\ rv second = (true, None).
Proof. vm_compute. auto. Qed.
End SharedLosses.
