(* ===== verification/MemcachedStore.v ===== *)
(** * Package memcachedcache: the store over Memcached's text protocol

    [driver/memcachedcache/store.go].  The store speaks the protocol itself, over
    pooled TCP connections: requests and replies are byte strings here as they are
    there.  The servers and the network between are not part of the repository:
    [McNet] has the operations on connections that the store uses as parameters. *)

From S2P Require Import Prelude GoStd CacheCore InspectHelpers Shaping.

(** ** Connections *)

(** [net.Conn] and the [bufio.Reader] on it, by number.  What can be read from a
    connection before it is written to again is [nc_incoming], after which a read
    reports [nc_readError]; [nc_consume] takes the first bytes of it. *)
Class McNet (N : Type) := {
  nc_Dial : Context -> string -> M N (nat + error);
  nc_Write : nat -> bytes -> M N (option error);
  nc_Close : nat -> M N unit;
  nc_incoming : N -> nat -> bytes;
  nc_readError : N -> nat -> error;
  nc_consume : nat -> nat -> M N unit;
  (** The nested calls that fit on a goroutine's stack: a deeper recursion ends
      the program. *)
  nc_stack : nat
}.

(** The text up to and with the first newline, and the rest. *)
Fixpoint untilNewline (b : bytes) : option (bytes * bytes) :=
  match b with
  | [] => None
  | c :: rest =>
      if decide (c = x0a) then Some ([c], rest)
      else match untilNewline rest with Some (l, r) => Some (c :: l, r) | None => None end
  end.

Section Reader.
Context {N : Type} `{McNet N}.

(** [reader.ReadString('\n')]; the callers drop what was read before an error. *)
Definition ReadString (id : nat) : M N (string + error) :=
  let* n := get in
  match untilNewline (nc_incoming n id) with
  | Some (l, _) => nc_consume id (length l) ;; ret (inl (string_of_bytes l))
  | None => nc_consume id (length (nc_incoming n id)) ;; ret (inr (nc_readError n id))
  end.

(** [io.ReadFull(reader, buf)] with [len(buf) = size] *)
Definition ReadFull (id size : nat) : M N (bytes + error) :=
  let* n := get in
  let b := nc_incoming n id in
  if decide (size <= length b)%nat then nc_consume id size ;; ret (inl (take size b))
  else nc_consume id (length b) ;; ret (inr (nc_readError n id)).
End Reader.

(** ** The store *)

Definition mcDefaultTTL : Z := 5 * Minute.
Definition mcDefaultPrefix : string := "app".
Definition expiredMemcachedTimestamp : Z := 30 * 24 * 60 * 60 + 1.

Record memcachedConn := mkMemcachedConn { mc_addr : string; mc_conn : nat }.

(** A pool is a channel with room for 16 connections.  [ms_net] is the network the
    store runs on. *)
Definition poolSize : nat := 16.

Record mcStore (N : Type) := mkMcStore {
  ms_addrs : list string;
  ms_defaultTTL : Z;
  ms_prefix : string;
  ms_pools : gmap string (list memcachedConn);
  ms_rr : Z;
  ms_net : N
}.
Arguments mkMcStore {N}.
Arguments ms_addrs {N}.
Arguments ms_defaultTTL {N}.
Arguments ms_prefix {N}.
Arguments ms_pools {N}.
Arguments ms_rr {N}.
Arguments ms_net {N}.

Definition mc_cacheKey (prefix key : string) : string :=
  if decide (prefix = EmptyString) then key else prefix +:+ ":" +:+ key.

Definition crlf : string := String (Ascii.ascii_of_nat 13) (String newline EmptyString).

(** The error of [strconv.Atoi] and [strconv.ParseInt]. *)
Definition numError (fn s : string) : error :=
  let digits := match bytes_of_string s with x2b :: r | x2d :: r => r | r => r end in
  let reason := match digits with
                | [] => "invalid syntax"
                | _ => if forallb isDigit digits then "value out of range" else "invalid syntax"
                end in
  ErrorString ("strconv." +:+ fn +:+ ": parsing " +:+ quoted s +:+ ": " +:+ reason).

(** [seconds := int(ttl.Seconds()); if seconds < 1 { seconds = 1 }] *)
Definition mc_seconds (ttl : Z) : Z :=
  let seconds := floatToInt (Seconds ttl) in if seconds <? 1 then 1 else seconds.

(** [make] with a negative length panics; the panic is this value here. *)
Definition errMakeslice : error := ErrorString "runtime error: makeslice: len out of range".

Section Memcached.
Context {N : Type} `{McNet N}.
#[local] Abbreviation store := (mcStore N).
Implicit Types s : mcStore N.

Definition withNet (n : N) s : store :=
  mkMcStore (ms_addrs s) (ms_defaultTTL s) (ms_prefix s) (ms_pools s) (ms_rr s) n.
Definition withPool (addr : string) (pool : list memcachedConn) s : store :=
  mkMcStore (ms_addrs s) (ms_defaultTTL s) (ms_prefix s) (<[addr := pool]> (ms_pools s)) (ms_rr s) (ms_net s).
Definition withRR (rr : Z) s : store :=
  mkMcStore (ms_addrs s) (ms_defaultTTL s) (ms_prefix s) (ms_pools s) rr (ms_net s).

Definition onNet {A} (m : M N A) : M store A := zoom ms_net withNet m.

(** *** The pool *)

(** The loop of [acquire], at index [i] with [n] addresses left. *)
Fixpoint acquireFrom (n : nat) (ctx : Context) (start i : Z) (errs : string) : M store (memcachedConn + error) :=
  match n with
  | O => ret (inr (ErrorString ("memcached dial failed: " +:+ errs)))
  | S n' =>
      let* s := get in
      let addr := nth (Z.to_nat ((start + i) mod len (ms_addrs s))) (ms_addrs s) EmptyString in
      match ms_pools s !! addr with
      | Some (mc :: pool) => modify (withPool addr pool) ;; ret (inl mc)
      | _ =>
          let* conn := onNet (nc_Dial ctx addr) in
          match conn with
          | inl id => ret (inl (mkMemcachedConn addr id))
          | inr e => acquireFrom n' ctx start (i + 1) (errs +:+ addr +:+ ": " +:+ Error e +:+ "; ")
          end
      end
  end.

Definition acquire (ctx : Context) : M store (memcachedConn + error) :=
  let* s := get in
  if len (ms_addrs s) =? 0 then ret (inr (ErrorString "memcached: no addresses configured"))
  else
    let rr := (ms_rr s + 1) mod 2 ^ 32 in
    modify (withRR rr) ;;
    let start := ((rr - 1) mod 2 ^ 32) mod len (ms_addrs s) in
    acquireFrom (length (ms_addrs s)) ctx start 0 EmptyString.

Definition release (mc : memcachedConn) (bad : bool) : M store unit :=
  if bad then onNet (nc_Close (mc_conn mc))
  else
    let* s := get in
    match ms_pools s !! mc_addr mc with
    | None => onNet (nc_Close (mc_conn mc))
    | Some pool =>
        if decide (length pool < poolSize)%nat then modify (withPool (mc_addr mc) (pool ++ [mc]))
        else onNet (nc_Close (mc_conn mc))
    end.

(** The frame of the operations: a connection is acquired and, by the deferred
    call, released; [body] gives its result and the value of [bad] at its return. *)
Definition withConn {A} (ctx : Context) (fail : error -> A) (body : memcachedConn -> M store (A * bool)) : M store A :=
  let* r := acquire ctx in
  match r with
  | inr e => ret (fail e)
  | inl mc =>
      let* (a, bad) := body mc in
      release mc bad ;; ret a
  end.

(** A write, a line and a block of bytes whose failure makes the connection bad. *)
Definition writing {A} (mc : memcachedConn) (text : bytes) (fail : error -> A) (k : M store (A * bool))
    : M store (A * bool) :=
  let* err := onNet (nc_Write (mc_conn mc) text) in
  match err with Some e => ret (fail e, true) | None => k end.

Definition readingLine {A} (mc : memcachedConn) (fail : error -> A) (k : string -> M store (A * bool))
    : M store (A * bool) :=
  let* r := onNet (ReadString (mc_conn mc)) in
  match r with inr e => ret (fail e, true) | inl line => k line end.

Definition readingFull {A} (mc : memcachedConn) (size : nat) (fail : error -> A) (k : bytes -> M store (A * bool))
    : M store (A * bool) :=
  let* r := onNet (ReadFull (mc_conn mc) size) in
  match r with inr e => ret (fail e, true) | inl b => k b end.

Definition nthField (fields : list string) (i : nat) : string := nth i fields EmptyString.

Definition mc_ttl s (ttl : Z) : Z := if ttl <=? 0 then ms_defaultTTL s else ttl.

(** *** Operations *)

Definition mc_Ready (ctx : Context) : M store (option error) :=
  withConn ctx Some (fun mc =>
    writing mc (bytes_of_string ("version" +:+ crlf)) Some (
    readingLine mc Some (fun line =>
    if HasPrefix line "VERSION " then ret (None, false)
    else ret (Some (ErrorString ("memcached readiness failed: " +:+ TrimSpace line)), true)))).

(** The value of a [VALUE] line with [bytesLen] bytes, and the two lines after it. *)
Definition readingValue {A} (mc : memcachedConn) (bytesLen : Z) (fail : error -> A)
    (k : bytes -> M store (A * bool)) : M store (A * bool) :=
  if bytesLen <? 0 then ret (fail errMakeslice, false)
  else
    readingFull mc (Z.to_nat bytesLen) fail (fun value =>
    readingLine mc fail (fun _ =>
    readingLine mc fail (fun _ => k value))).

Definition mc_Get (ctx : Context) (key : string) : M store (bytes * bool * option error) :=
  let fail := fun e : error => ([], false, Some e) in
  withConn ctx fail (fun mc =>
    let* s := get in
    let full := mc_cacheKey (ms_prefix s) key in
    writing mc (bytes_of_string ("get " +:+ full +:+ crlf)) fail (
    readingLine mc fail (fun line =>
    if decide (line = "END" +:+ crlf) then ret (([], false, None), false)
    else
      let fields := Fields (TrimSpace line) in
      if (len fields <? 4) || negb (bool_decide (nthField fields 0 = "VALUE"))
      then ret (fail (ErrorString ("unexpected response: " +:+ TrimSpace line)), false)
      else
        match Atoi (nthField fields 3) with
        | None => ret (fail (ErrorWrap "parse length: " (numError "Atoi" (nthField fields 3))), false)
        | Some bytesLen => readingValue mc bytesLen fail (fun value => ret ((value, true, None), false))
        end))).

(** The request of the storage commands: a header line, the value and a line end,
    written one after the other. *)
Definition storing {A} (mc : memcachedConn) (verb full : string) (seconds : Z) (value : bytes)
    (fail : error -> A) (k : string -> M store (A * bool)) : M store (A * bool) :=
  writing mc (bytes_of_string (verb +:+ " " +:+ full +:+ " 0 " +:+ Itoa seconds +:+ " " +:+ Itoa (len value) +:+ crlf)) fail (
  writing mc value fail (
  writing mc (bytes_of_string crlf) fail (
  readingLine mc fail k))).

Definition mc_Set (ctx : Context) (key : string) (value : bytes) (ttl : Z) : M store (option error) :=
  let* s := get in
  let ttl := mc_ttl s ttl in
  withConn ctx Some (fun mc =>
    storing mc "set" (mc_cacheKey (ms_prefix s) key) (mc_seconds ttl) value Some (fun line =>
    if HasPrefix line "STORED" then ret (None, false)
    else ret (Some (ErrorString ("memcached set failed: " +:+ TrimSpace line)), true))).

Definition mc_Add (ctx : Context) (key : string) (value : bytes) (ttl : Z) : M store (bool * option error) :=
  let* s := get in
  let ttl := mc_ttl s ttl in
  let fail := fun e : error => (false, Some e) in
  withConn ctx fail (fun mc =>
    storing mc "add" (mc_cacheKey (ms_prefix s) key) (mc_seconds ttl) value fail (fun line =>
    if HasPrefix line "STORED" then ret ((true, None), false)
    else if HasPrefix line "NOT_STORED" then ret ((false, None), false)
    else ret (fail (ErrorString ("memcached add failed: " +:+ TrimSpace line)), true))).

Definition mc_LockAcquire (ctx : Context) (key : string) (owner : bytes) (ttl : Z) : M store (bool * option error) :=
  mc_Add ctx key owner ttl.

(** The second half of [LockRelease]: the value read is the owner's. *)
Definition expiring (mc : memcachedConn) (full token : string) (fail : error -> bool * option error)
    : M store (bool * option error * bool) :=
  writing mc (bytes_of_string ("cas " +:+ full +:+ " 0 " +:+ Itoa expiredMemcachedTimestamp +:+ " 0 " +:+ token
                               +:+ crlf +:+ crlf)) fail (
  readingLine mc fail (fun line =>
  if HasPrefix line "EXISTS" || HasPrefix line "NOT_FOUND" then ret ((false, None), false)
  else if HasPrefix line "STORED" then ret ((true, None), false)
  else ret (fail (ErrorString ("memcached lock release failed: " +:+ TrimSpace line)), true))).

Definition mc_LockRelease (ctx : Context) (key : string) (owner : bytes) : M store (bool * option error) :=
  let fail := fun e : error => (false, Some e) in
  withConn ctx fail (fun mc =>
    let* s := get in
    let full := mc_cacheKey (ms_prefix s) key in
    writing mc (bytes_of_string ("gets " +:+ full +:+ crlf)) fail (
    readingLine mc fail (fun line =>
    if decide (line = "END" +:+ crlf) then ret ((false, None), false)
    else
      let fields := Fields (TrimSpace line) in
      if negb (len fields =? 5) || negb (bool_decide (nthField fields 0 = "VALUE"))
      then ret (fail (ErrorString ("unexpected response: " +:+ TrimSpace line)), true)
      else
        match Atoi (nthField fields 3) with
        | None => ret (fail (ErrorWrap "parse length: " (numError "Atoi" (nthField fields 3))), true)
        | Some bytesLen =>
            readingValue mc bytesLen fail (fun value =>
            if decide (value = owner) then expiring mc full (nthField fields 4) fail
            else ret ((false, None), false))
        end))).

(** The refresh of the expiration that ends [incr]. *)
Definition touching (mc : memcachedConn) (full : string) (ttl val : Z) (fail : error -> Z * option error)
    : M store (Z * option error * bool) :=
  writing mc (bytes_of_string ("touch " +:+ full +:+ " " +:+ Itoa (mc_seconds ttl) +:+ crlf)) fail (
  readingLine mc fail (fun touchLine =>
  if negb (HasPrefix touchLine "TOUCHED") && negb (HasPrefix touchLine "NOT_FOUND")
  then ret (fail (ErrorString ("memcached touch failed: " +:+ TrimSpace touchLine)), true)
  else ret ((val, None), false))).

(** [incr] with room for [fuel] nested calls; [None] when the stack is exhausted. *)
Fixpoint mc_incr (fuel : nat) (ctx : Context) (key : string) (delta ttl : Z) (verb : string)
    : M store (option (Z * option error)) :=
  match fuel with
  | O => ret None
  | S fuel' =>
      let* s := get in
      let ttl := mc_ttl s ttl in
      let fail := fun e : error => (0, Some e) in
      let stop := fun r : Z * option error * bool => (Some r.1, r.2) in
      withConn ctx (fun e => Some (fail e)) (fun mc =>
        let full := mc_cacheKey (ms_prefix s) key in
        writing mc (bytes_of_string (verb +:+ " " +:+ full +:+ " " +:+ FormatInt delta +:+ crlf)) (fun e => Some (fail e)) (
        readingLine mc (fun e => Some (fail e)) (fun line =>
        let line := TrimSpace line in
        if decide (line = "NOT_FOUND") then
          let* err := mc_Set ctx key (bytes_of_string "0") ttl in
          match err with
          | Some e => ret (Some (fail e), false)
          | None => let* r := mc_incr fuel' ctx key delta ttl verb in ret (r, false)
          end
        else if HasPrefix line "ERROR" then ret (Some (fail (ErrorString line)), true)
        else
          match ParseInt line with
          | None => ret (Some (fail (numError "ParseInt" line)), true)
          | Some val =>
              if ttl >? 0 then let* r := touching mc full ttl val fail in ret (stop r)
              else ret (Some (val, None), false)
          end)))
  end.

Definition errStackOverflow : error := ErrorString "stack overflow".

Definition counting (verb : string) (ctx : Context) (key : string) (delta ttl : Z) : M store (Z * option error) :=
  let* r := mc_incr nc_stack ctx key delta ttl verb in
  ret (default (0, Some errStackOverflow) r).

Definition mc_decrement : Context -> string -> Z -> Z -> M store (Z * option error) := counting "decr".

Definition mc_Increment (ctx : Context) (key : string) (delta ttl : Z) : M store (Z * option error) :=
  if delta <? 0 then mc_decrement ctx key (wrap64 (- delta)) ttl else counting "incr" ctx key delta ttl.

Definition mc_Decrement (ctx : Context) (key : string) (delta ttl : Z) : M store (Z * option error) :=
  if delta <? 0 then mc_Increment ctx key (wrap64 (- delta)) ttl else mc_decrement ctx key delta ttl.

Definition mc_Delete (ctx : Context) (key : string) : M store (option error) :=
  withConn ctx Some (fun mc =>
    let* s := get in
    writing mc (bytes_of_string ("delete " +:+ mc_cacheKey (ms_prefix s) key +:+ crlf)) Some (
    readingLine mc Some (fun _ => ret (None, false)))).

Definition mc_DeleteMany (ctx : Context) (keys : list string) : M store (option error) :=
  forErr (mc_Delete ctx) keys.

Definition mc_Flush (ctx : Context) : M store (option error) :=
  withConn ctx Some (fun mc =>
    writing mc (bytes_of_string ("flush_all" +:+ crlf)) Some (
    readingLine mc Some (fun line =>
    if HasPrefix line "OK" then ret (None, false)
    else ret (Some (ErrorString ("memcached flush failed: " +:+ TrimSpace line)), true)))).

Definition mc_lock_ops : LockStore store := mkLockStore _ mc_LockAcquire mc_LockRelease.

#[export] Instance mcStore_Store : Store store := {|
  Store_Driver := fun _ => DriverMemcached;
  Store_Ready := mc_Ready;
  Store_Get := mc_Get;
  Store_Set := mc_Set;
  Store_Add := mc_Add;
  Store_Increment := mc_Increment;
  Store_Decrement := mc_Decrement;
  Store_Delete := mc_Delete;
  Store_DeleteMany := mc_DeleteMany;
  Store_Flush := mc_Flush;
  Store_lockStore := fun _ => Some mc_lock_ops;
  Store_Inspector := fun _ => None
|}.
End Memcached.

(** ** Construction *)

Record mcConfig := mkMcConfig { mccfg_base : BaseConfig; mccfg_Addresses : list string }.

Section New.
Context {N : Type} `{McNet N} `{Crypto}.

(** The store that [New] wraps, on the network [n]. *)
Definition mc_backend (cfg : mcConfig) (n : N) : mcStore N :=
  let addrs := if len (mccfg_Addresses cfg) =? 0 then ["127.0.0.1:11211"] else mccfg_Addresses cfg in
  let ttl := if DefaultTTL (mccfg_base cfg) <=? 0 then mcDefaultTTL else DefaultTTL (mccfg_base cfg) in
  let prefix := if decide (Prefix (mccfg_base cfg) = EmptyString) then mcDefaultPrefix else Prefix (mccfg_base cfg) in
  let pools := foldl (fun pools addr => <[addr := []]> pools) ∅ addrs in
  mkMcStore addrs ttl prefix pools 0 n.

Definition mc_New (cfg : mcConfig) (n : N) : wrappedStore (mcStore N) :=
  let '(wrapped, _) := WrapStore (mc_backend cfg n) (mccfg_base cfg) in wrapped.
End New.
