(* ===== verification/MemcachedProtocol.v ===== *)
(** * Memcached's text protocol, and what the servers promise

    The protocol of [memcached/doc/protocol.txt] for the commands the driver sends:
    how a server splits what it receives into requests, what it replies and what it
    then holds.  [McLaws] states that the parameter [McNet] of the store is a network
    with such servers, where a connection may fail at any point and a server may
    evict any item at any time. *)

From stdpp Require Import fin_maps.
From S2P Require Import Prelude GoStd CacheCore MemcachedStore.

(** ** Requests *)

Inductive mcCommand :=
| McVersion
| McGet (withCas : bool) (k : string)
| McStore (adding : bool) (k : string) (seconds : Z) (v : bytes)
| McCas (k : string) (seconds : Z) (v token : bytes)
| McCount (up : bool) (k : string) (delta : Z)
| McTouch (k : string) (seconds : Z)
| McDelete (k : string)
| McFlushAll
| McUnknown.

(** The words of a line, which single spaces separate. *)
Fixpoint splitWords (cur b : bytes) : list bytes :=
  match b with
  | [] => [cur]
  | c :: rest => if decide (c = x20) then cur :: splitWords [] rest else splitWords (cur ++ [c]) rest
  end.

(** A line without its end. *)
Definition chomp (line : bytes) : bytes :=
  take (length line - (if bHasSuffix line [x0d; x0a] then 2 else 1)) line.

Definition word (s : string) : bytes := bytes_of_string s.

(** The block of [size] bytes and a line end that follows a storage command. *)
Definition dataBlock (size : Z) (rest : bytes) (k : bytes -> mcCommand) : option (mcCommand * bytes) :=
  if decide (Z.of_nat (length rest) < size + 2) then None
  else Some (k (take (Z.to_nat size) rest), drop (Z.to_nat size + 2) rest).

(** The request whose first line has these words, and what follows it in [rest];
    [None] when there is more of it to come. *)
Definition requestOf (words : list bytes) (rest : bytes) : option (mcCommand * bytes) :=
  let number b := ParseIntBytes b in
  let name b := string_of_bytes b in
  match words with
  | [verb] =>
      if decide (verb = word "version") then Some (McVersion, rest)
      else if decide (verb = word "flush_all") then Some (McFlushAll, rest)
      else Some (McUnknown, rest)
  | [verb; key] =>
      if decide (verb = word "get") then Some (McGet false (name key), rest)
      else if decide (verb = word "gets") then Some (McGet true (name key), rest)
      else if decide (verb = word "delete") then Some (McDelete (name key), rest)
      else Some (McUnknown, rest)
  | [verb; key; n] =>
      match number n with
      | Some z =>
          if decide (verb = word "touch") then Some (McTouch (name key) z, rest)
          else if decide (verb = word "incr" /\ 0 <= z) then Some (McCount true (name key) z, rest)
          else if decide (verb = word "decr" /\ 0 <= z) then Some (McCount false (name key) z, rest)
          else Some (McUnknown, rest)
      | None => Some (McUnknown, rest)
      end
  | [verb; key; _; secs; size] =>
      match number secs, number size with
      | Some z, Some n =>
          if decide (verb = word "set") then dataBlock n rest (McStore false (name key) z)
          else if decide (verb = word "add") then dataBlock n rest (McStore true (name key) z)
          else Some (McUnknown, rest)
      | _, _ => Some (McUnknown, rest)
      end
  | [verb; key; _; secs; size; token] =>
      match number secs, number size with
      | Some z, Some n =>
          if decide (verb = word "cas") then dataBlock n rest (fun v => McCas (name key) z v token)
          else Some (McUnknown, rest)
      | _, _ => Some (McUnknown, rest)
      end
  | _ => Some (McUnknown, rest)
  end.

Definition parseRequest (b : bytes) : option (mcCommand * bytes) :=
  match untilNewline b with
  | None => None
  | Some (line, rest) => requestOf (splitWords [] (chomp line)) rest
  end.

(** ** Items *)

Record mcItem := mkMcItem {
  it_value : bytes; it_flags : Z; it_expires : option Z; it_cas : bytes
}.
Abbreviation mcItems := (gmap string mcItem).

(** An expiration time is a number of seconds from now up to 30 days, and a Unix
    time beyond. *)
Definition expiry (t secs : Z) : option Z :=
  if secs =? 0 then None
  else Some (if secs <=? 30 * 24 * 60 * 60 then t + secs * Second else secs * Second).

Definition alive (t : Z) (it : mcItem) : bool :=
  match it_expires it with None => true | Some x => t <? x end.

(** The item a request at instant [t] finds. *)
Definition liveItem (m : mcItems) (t : Z) (k : string) : option mcItem :=
  match m !! k with Some it => if alive t it then Some it else None | None => None end.

(** ** Replies *)

Definition reply (s : string) : bytes := bytes_of_string (s +:+ crlf).

Definition valueReply (withCas : bool) (k : string) (it : mcItem) : bytes :=
  word "VALUE " ++ bytes_of_string k ++ word " " ++ FormatIntBytes (it_flags it) ++ word " " ++ FormatIntBytes (len (it_value it)) ++
  (if withCas then word " " ++ it_cas it else []) ++ bytes_of_string crlf ++
  it_value it ++ bytes_of_string crlf ++ reply "END".

(** Text with no line end in it. *)
Definition oneLine (b : bytes) : bool := forallb (fun c => negb (Byte.eqb c x0a)) b.

(** A counter is a decimal number of 64 bits; a decremented one may keep its length
    by trailing spaces. *)
Definition counterOf (b : bytes) : option Z :=
  match parseDigits 0 (bytes_of_string (TrimSpace (string_of_bytes b))) with
  | Some n => if n <? uint64_mod then Some n else None
  | None => None
  end.

(** Each change gives the item a number of its own. *)
Definition newCas (m : mcItems) (u : bytes) : Prop := forall (k : string) it, m !! k = Some it -> it_cas it <> u.

(** A request executed at instant [t] on the items [m]: what is sent back, and the
    items afterwards.  A server that replies with an error has not carried out the
    command, but it may have dropped the item. *)
Inductive mcReplies (t : Z) (m : mcItems) : mcCommand -> bytes -> mcItems -> Prop :=
| reply_version v : oneLine (word v) = true -> mcReplies t m McVersion (reply ("VERSION " +:+ v)) m
| reply_end cas k : liveItem m t k = None -> mcReplies t m (McGet cas k) (reply "END") m
| reply_value cas k it :
    liveItem m t k = Some it -> 0 <= it_flags it < 2 ^ 32 -> len (it_value it) <= int64_max ->
    it_cas it <> [] -> forallb isDigit (it_cas it) = true ->
    mcReplies t m (McGet cas k) (valueReply cas k it) m
| reply_stored k secs v u :
    newCas m u ->
    mcReplies t m (McStore false k secs v) (reply "STORED") (<[k := mkMcItem v 0 (expiry t secs) u]> m)
| reply_added k secs v u :
    liveItem m t k = None -> newCas m u ->
    mcReplies t m (McStore true k secs v) (reply "STORED") (<[k := mkMcItem v 0 (expiry t secs) u]> m)
| reply_not_added k secs v it :
    liveItem m t k = Some it -> mcReplies t m (McStore true k secs v) (reply "NOT_STORED") m
| reply_swapped k secs v it u :
    liveItem m t k = Some it -> newCas m u ->
    mcReplies t m (McCas k secs v (it_cas it)) (reply "STORED") (<[k := mkMcItem v 0 (expiry t secs) u]> m)
| reply_exists k secs v token it :
    liveItem m t k = Some it -> token <> it_cas it -> mcReplies t m (McCas k secs v token) (reply "EXISTS") m
| reply_no_item k secs v token :
    liveItem m t k = None -> mcReplies t m (McCas k secs v token) (reply "NOT_FOUND") m
| reply_counted (up : bool) k delta it n u pad :
    liveItem m t k = Some it -> counterOf (it_value it) = Some n ->
    newCas m u ->
    let n' := if up then (n + delta) mod uint64_mod else Z.max 0 (n - delta) in
    mcReplies t m (McCount up k delta) (reply (FormatInt n'))
      (<[k := mkMcItem (FormatIntBytes n' ++ replicate pad x20) (it_flags it) (it_expires it) u]> m)
| reply_no_counter up k delta : liveItem m t k = None -> mcReplies t m (McCount up k delta) (reply "NOT_FOUND") m
| reply_touched k secs it u :
    liveItem m t k = Some it ->
    mcReplies t m (McTouch k secs) (reply "TOUCHED")
      (<[k := mkMcItem (it_value it) (it_flags it) (expiry t secs) u]> m)
| reply_not_touched k secs : liveItem m t k = None -> mcReplies t m (McTouch k secs) (reply "NOT_FOUND") m
| reply_deleted k it : liveItem m t k = Some it -> mcReplies t m (McDelete k) (reply "DELETED") (base.delete k m)
| reply_not_deleted k : liveItem m t k = None -> mcReplies t m (McDelete k) (reply "NOT_FOUND") m
| reply_flushed : mcReplies t m McFlushAll (reply "OK") ∅
| reply_error c msg (m' : mcItems) :
    m' ⊆ m -> oneLine (word msg) = true ->
    mcReplies t m c (reply ("ERROR" +:+ msg)) m'
| reply_client_error c msg (m' : mcItems) :
    m' ⊆ m -> oneLine (word msg) = true -> mcReplies t m c (reply ("CLIENT_ERROR" +:+ msg)) m'
| reply_server_error c msg (m' : mcItems) :
    m' ⊆ m -> oneLine (word msg) = true -> mcReplies t m c (reply ("SERVER_ERROR" +:+ msg)) m'.

(** ** Servers on a network *)

Class McLaws (N : Type) `{McNet N} := {
  ml_ok : N -> Prop;
  (** The address an open connection leads to, the part of a request sent over it,
      and the items of the server at an address *)
  ml_peer : N -> nat -> option string;
  ml_sent : N -> nat -> bytes;
  ml_items : N -> string -> mcItems;
  ml_dial ctx addr w n r w' n' :
    world_ok w -> ml_ok n -> nc_Dial ctx addr w n = (r, w', n') ->
    later w w' /\ ml_ok n' /\ (forall a, ml_items n' a ⊆ ml_items n a) /\
    (forall id, r <> inl id -> ml_peer n' id = ml_peer n id /\ ml_sent n' id = ml_sent n id /\
       nc_incoming n' id = nc_incoming n id) /\
    match r with
    | inl id => ml_peer n id = None /\ ml_peer n' id = Some addr /\ ml_sent n' id = [] /\ nc_incoming n' id = []
    | inr _ => True
    end;
  ml_close id w n u w' n' :
    world_ok w -> ml_ok n -> nc_Close id w n = (u, w', n') ->
    later w w' /\ ml_ok n' /\ (forall a, ml_items n' a ⊆ ml_items n a) /\
    (forall id', id' <> id -> ml_peer n' id' = ml_peer n id' /\ ml_sent n' id' = ml_sent n id' /\
       nc_incoming n' id' = nc_incoming n id');
  ml_consume id size w n u w' n' :
    world_ok w -> ml_ok n -> nc_consume id size w n = (u, w', n') ->
    later w w' /\ ml_ok n' /\ (forall a, ml_items n' a ⊆ ml_items n a) /\
    (forall id', id' <> id -> ml_peer n' id' = ml_peer n id' /\ ml_sent n' id' = ml_sent n id' /\
       nc_incoming n' id' = nc_incoming n id') /\
    ml_peer n' id = ml_peer n id /\ ml_sent n' id = ml_sent n id /\ nc_incoming n' id = drop size (nc_incoming n id);
  (** A write with which there is more of the request to come *)
  ml_partial id b w n a err w' n' :
    world_ok w -> ml_ok n -> ml_peer n id = Some a -> nc_incoming n id = [] ->
    parseRequest (ml_sent n id ++ b) = None -> nc_Write id b w n = (err, w', n') ->
    later w w' /\ ml_ok n' /\ (forall a', ml_items n' a' ⊆ ml_items n a') /\
    (forall id', id' <> id -> ml_peer n' id' = ml_peer n id' /\ ml_sent n' id' = ml_sent n id' /\
       nc_incoming n' id' = nc_incoming n id') /\
    (err = None -> ml_peer n' id = Some a /\ ml_sent n' id = ml_sent n id ++ b /\ nc_incoming n' id = []);
  (** A write that completes a request: the server executes it once or not at all,
      and all or a part of its reply arrives *)
  ml_request id b c w n a err w' n' :
    world_ok w -> ml_ok n -> ml_peer n id = Some a -> nc_incoming n id = [] ->
    parseRequest (ml_sent n id ++ b) = Some (c, []) -> nc_Write id b w n = (err, w', n') ->
    later w w' /\ ml_ok n' /\ (forall a', a' <> a -> ml_items n' a' ⊆ ml_items n a') /\
    (forall id', id' <> id -> ml_peer n' id' = ml_peer n id' /\ ml_sent n' id' = ml_sent n id' /\
       nc_incoming n' id' = nc_incoming n id') /\
    exists rs,
      (rs = [] /\ ml_items n' a ⊆ ml_items n a \/
       exists t m m', now w <= t <= now w' /\ m ⊆ ml_items n a /\ mcReplies t m c rs m' /\ ml_items n' a ⊆ m') /\
      (err = None -> ml_peer n' id = Some a /\ ml_sent n' id = [] /\ nc_incoming n' id `prefix_of` rs)
}.
