(* ===== verification/MemcachedContract.v ===== *)
(** * The Memcached store over servers that keep the protocol

    Theorems about [MemcachedStore.v] against the protocol of [MemcachedProtocol.v]:
    the requests parse as the intended commands and the replies are read to their
    end, so that every pooled connection is between two requests; what [Get] returns
    is what was last stored; [LockRelease] removes only the caller's lock; and what
    goes wrong with several servers, long durations and unusual keys. *)

From stdpp Require Import fin_maps.
From S2P Require Import Prelude GoStd CacheCore InspectHelpers Shaping Wrapping MemcachedStore MemcachedProtocol.

(** ** Text *)

(** Words with single spaces between. *)
Fixpoint joinWords (ws : list bytes) : bytes :=
  match ws with
  | [] => []
  | [x] => x
  | x :: rest => x ++ x20 :: joinWords rest
  end.

(** Words that both sides split alike. *)
Definition plainWord (x : bytes) : Prop := x <> [] /\ forallb plainByte x = true.

Lemma plain_no_space x : forallb plainByte x = true -> x20 ∉ x.
Proof. rewrite forallb_forall. intros H Hin%list_elem_of_In. by apply H in Hin. Qed.

Lemma plain_oneLine x : forallb plainByte x = true -> oneLine x = true.
Proof.
  unfold oneLine. rewrite !forallb_forall. intros H c Hin. apply H in Hin.
  destruct (Byte.eqb c x0a) eqn:E; [|done]. apply Byte.byte_dec_bl in E as ->. done.
Qed.

Lemma oneLine_app a b : oneLine (a ++ b) = oneLine a && oneLine b.
Proof. apply forallb_app. Qed.

Lemma untilNewline_line l rest : oneLine l = true -> untilNewline (l ++ x0a :: rest) = Some (l ++ [x0a], rest).
Proof.
  induction l as [|c l IH]; [done|]. simpl. intros [Hc Hl]%andb_true_iff. rewrite decide_False, IH; [done..|].
  by intros ->.
Qed.

Lemma untilNewline_none l : oneLine l = true -> untilNewline l = None.
Proof.
  induction l as [|c l IH]; [done|]. simpl. intros [Hc Hl]%andb_true_iff. rewrite decide_False, IH; [done..|].
  by intros ->.
Qed.

Lemma untilNewline_app b l r : untilNewline b = Some (l, r) -> b = l ++ r.
Proof.
  revert l r. induction b as [|c b IH]; [done|]. intros l r. simpl.
  destruct (decide (c = x0a)); [by intros [= <- <-]|].
  destruct (untilNewline b) as [[l' r']|]; [|done]. intros [= <- <-]. simpl. f_equal. by apply IH.
Qed.

(** Reading from a part of a text gives what reading from all of it gives. *)
Lemma untilNewline_more b x l r : untilNewline b = Some (l, r) -> untilNewline (b ++ x) = Some (l, r ++ x).
Proof.
  revert l r. induction b as [|c b IH]; [done|]. intros l r. simpl.
  destruct (decide (c = x0a)); [by intros [= <- <-]|].
  destruct (untilNewline b) as [[l' r']|]; [|done]. intros [= <- <-]. by rewrite (IH l' r').
Qed.

Lemma untilNewline_prefix b b' l r :
  b `prefix_of` b' -> untilNewline b = Some (l, r) -> exists r', untilNewline b' = Some (l, r') /\ r `prefix_of` r'.
Proof. intros [x ->] E. exists (r ++ x). split; [by apply untilNewline_more | by exists x]. Qed.

Lemma take_drop_prefix {A} (b b' : list A) size :
  b `prefix_of` b' -> (size <= length b)%nat -> take size b = take size b' /\ drop size b `prefix_of` drop size b'.
Proof.
  intros [x ->] Hs. rewrite take_app_le by done. split; [done|]. exists x. by apply drop_app_le.
Qed.

Lemma splitWords_word cur a : x20 ∉ a -> splitWords cur a = [cur ++ a].
Proof.
  revert cur. induction a as [|c a IH]; intros cur Ha; simpl; [by rewrite app_nil_r|].
  apply not_elem_of_cons in Ha as [Hc Ha]. rewrite decide_False by done. rewrite IH by done. by rewrite <- (assoc_L (++)).
Qed.

Lemma splitWords_space cur a r : x20 ∉ a -> splitWords cur (a ++ x20 :: r) = (cur ++ a) :: splitWords [] r.
Proof.
  revert cur. induction a as [|c a IH]; intros cur Ha; simpl; [by rewrite app_nil_r|].
  apply not_elem_of_cons in Ha as [Hc Ha]. rewrite decide_False by done. rewrite IH by done. by rewrite <- (assoc_L (++)).
Qed.

Lemma splitWords_join ws : ws <> [] -> Forall plainWord ws -> splitWords [] (joinWords ws) = ws.
Proof.
  induction ws as [|x ws IH]; [done|]. intros _ [[_ Hx] Hws]%Forall_cons_1. apply plain_no_space in Hx.
  destruct ws as [|y ws]; [by apply (splitWords_word [])|].
  change (joinWords _) with (x ++ x20 :: joinWords (y :: ws)). rewrite splitWords_space by done. by rewrite IH.
Qed.

Lemma joinWords_oneLine ws : Forall plainWord ws -> oneLine (joinWords ws) = true.
Proof.
  induction ws as [|x ws IH]; [done|]. intros [[_ Hx] Hws]%Forall_cons_1. apply plain_oneLine in Hx.
  destruct ws as [|y ws]; [done|]. change (joinWords _) with (x ++ x20 :: joinWords (y :: ws)).
  rewrite oneLine_app, Hx. simpl. by apply IH.
Qed.

Lemma chomp_line l : chomp (l ++ [x0d; x0a]) = l.
Proof.
  unfold chomp, bHasSuffix. rewrite rev_app_distr. simpl. rewrite length_app. simpl.
  replace (length l + 2 - 2)%nat with (length l) by lia. by rewrite take_app_length.
Qed.

(** The server splits the first line of a request into the words that it was made of. *)
Lemma parseRequest_words ws rest :
  ws <> [] -> Forall plainWord ws -> parseRequest (joinWords ws ++ [x0d; x0a] ++ rest) = requestOf ws rest.
Proof.
  intros Hne Hws. unfold parseRequest.
  replace (joinWords ws ++ [x0d; x0a] ++ rest) with ((joinWords ws ++ [x0d]) ++ x0a :: rest) by by rewrite <- (assoc_L (++)).
  rewrite untilNewline_line by (rewrite oneLine_app, joinWords_oneLine; done).
  rewrite <- (assoc_L (++)). simpl app at 2. rewrite chomp_line. by rewrite splitWords_join.
Qed.

(** The driver splits the first line of a reply in the same way. *)
Lemma bFields_join ws : Forall plainWord ws -> bFields [] (joinWords ws) = ws.
Proof.
  induction ws as [|x ws IH]; [done|]. intros [[Hne Hx] Hws]%Forall_cons_1. destruct x as [|c x]; [done|].
  destruct ws as [|y ws].
  - change (joinWords [c :: x]) with (c :: x). rewrite <- (app_nil_r (c :: x)) at 1. by rewrite (bFields_plain [] _ []).
  - change (joinWords _) with ((c :: x) ++ x20 :: joinWords (y :: ws)). rewrite bFields_plain by done. cbn [app field]. by rewrite IH.
Qed.

Lemma plainWord_ends x : plainWord x ->
  (exists c r, x = c :: r /\ plainByte c = true) /\ (exists r c, x = r ++ [c] /\ plainByte c = true).
Proof.
  intros [Hne Hx]. rewrite forallb_forall in Hx. split.
  - destruct x as [|c r]; [done|]. exists c, r. split; [done|]. apply Hx. by left.
  - destruct (exists_last Hne) as (r & c & ->). exists r, c. split; [done|]. apply Hx, in_app_iff. right. by left.
Qed.

Lemma joinWords_ends ws : ws <> [] -> Forall plainWord ws ->
  (exists c r, joinWords ws = c :: r /\ plainByte c = true) /\ (exists r c, joinWords ws = r ++ [c] /\ plainByte c = true).
Proof.
  induction ws as [|x ws IH]; [done|]. intros _ [Hx Hws]%Forall_cons_1. pose proof (plainWord_ends x Hx) as [(c & r & E & Hc) He].
  destruct ws as [|y ws]; [by eauto|]. destruct (IH ltac:(done) Hws) as [_ (r' & c' & E' & Hc')].
  change (joinWords _) with (x ++ x20 :: joinWords (y :: ws)). split.
  - rewrite E. eauto.
  - rewrite E'. exists (x ++ x20 :: r'), c'. by rewrite <- (assoc_L (++)).
Qed.

Lemma Fields_words ws :
  ws <> [] -> Forall plainWord ws ->
  Fields (TrimSpace (string_of_bytes (joinWords ws ++ [x0d; x0a]))) = string_of_bytes <$> ws.
Proof.
  intros Hne Hws. destruct (joinWords_ends ws Hne Hws). rewrite TrimSpace_line by done.
  unfold Fields. rewrite bytes_of_string_of_bytes. by rewrite bFields_join.
Qed.

(** ** Requests *)

Lemma bytes_crlf : bytes_of_string crlf = [x0d; x0a].
Proof. done. Qed.

Lemma bytes_space : bytes_of_string " " = [x20].
Proof. done. Qed.

Lemma FormatIntBytes_word z : plainWord (FormatIntBytes z).
Proof.
  split; [|apply FormatIntBytes_plain]. intros E. apply (FormatInt_not_empty z). unfold FormatInt. by rewrite E.
Qed.

Lemma mc_seconds_range ttl : 1 <= mc_seconds ttl /\ in_int64 (mc_seconds ttl).
Proof.
  unfold mc_seconds. assert (in_int64 (floatToInt (Seconds ttl))) as Hr.
  { unfold floatToInt. destruct (Seconds ttl) as [[]|[]| |neg m e]; try done. apply wrap64_range. }
  destruct (Z.ltb_spec (floatToInt (Seconds ttl)) 1); [by split|]. by split.
Qed.

(** Texts become words. *)
Ltac as_words :=
  rewrite ?bytes_of_string_app, ?bytes_of_string_of_bytes, ?bytes_crlf, ?bytes_space; cbn [joinWords];
  repeat (rewrite <- (assoc_L (++)) || (progress cbn [app])); try reflexivity.

Ltac decide_words :=
  repeat (rewrite decide_True by done ||
          rewrite decide_False by (let E := fresh in intros E; vm_compute in E; congruence)).

Ltac plain_words :=
  repeat (apply Forall_cons_2; [solve [assumption | apply FormatIntBytes_word | split; [done | reflexivity]]|]);
  apply Forall_nil_2.

Section Requests.
Context (full : string) (Hkey : plainWord (bytes_of_string full)).
#[local] Abbreviation key := (bytes_of_string full).

(** A request of one line. *)
Lemma parse_words ws text c :
  text = joinWords ws ++ [x0d; x0a] ++ [] -> ws <> [] -> Forall plainWord ws -> requestOf ws [] = Some (c, []) ->
  parseRequest text = Some (c, []).
Proof. intros -> ??. by rewrite parseRequest_words. Qed.

Lemma name_key : string_of_bytes key = full.
Proof. apply string_of_bytes_of_string. Qed.

Lemma parse_version : parseRequest (bytes_of_string ("version" +:+ crlf)) = Some (McVersion, []).
Proof. reflexivity. Qed.

Lemma parse_flush : parseRequest (bytes_of_string ("flush_all" +:+ crlf)) = Some (McFlushAll, []).
Proof. reflexivity. Qed.

Lemma parse_get : parseRequest (bytes_of_string ("get " +:+ full +:+ crlf)) = Some (McGet false full, []).
Proof.
  apply (parse_words [word "get"; key]); [by as_words | done | plain_words|].
  unfold requestOf. decide_words. by rewrite name_key.
Qed.

Lemma parse_gets : parseRequest (bytes_of_string ("gets " +:+ full +:+ crlf)) = Some (McGet true full, []).
Proof.
  apply (parse_words [word "gets"; key]); [by as_words | done | plain_words|].
  unfold requestOf. decide_words. by rewrite name_key.
Qed.

Lemma parse_delete : parseRequest (bytes_of_string ("delete " +:+ full +:+ crlf)) = Some (McDelete full, []).
Proof.
  apply (parse_words [word "delete"; key]); [by as_words | done | plain_words|].
  unfold requestOf. decide_words. by rewrite name_key.
Qed.

Lemma parse_touch secs : in_int64 secs ->
  parseRequest (bytes_of_string ("touch " +:+ full +:+ " " +:+ Itoa secs +:+ crlf)) = Some (McTouch full secs, []).
Proof.
  intros Hs. unfold Itoa, FormatInt.
  apply (parse_words [word "touch"; key; FormatIntBytes secs]);
    [by as_words | done | plain_words|].
  unfold requestOf. rewrite ParseIntBytes_FormatIntBytes by done. decide_words. by rewrite name_key.
Qed.

(** A negative number is no counter's delta. *)
Lemma parse_count (up : bool) delta : in_int64 delta ->
  parseRequest (bytes_of_string ((if up then "incr" else "decr") +:+ " " +:+ full +:+ " " +:+ FormatInt delta +:+ crlf)) =
  Some (if decide (0 <= delta) then McCount up full delta else McUnknown, []).
Proof.
  intros Hd. unfold FormatInt.
  apply (parse_words [word (if up then "incr" else "decr"); key; FormatIntBytes delta]);
    [by as_words | done | destruct up; plain_words|].
  unfold requestOf. rewrite ParseIntBytes_FormatIntBytes by done. rewrite name_key.
  destruct up, (decide (0 <= delta)); repeat case_decide; try done;
    repeat match goal with
    | E : word _ = word _ /\ _ |- _ => destruct E as [E ?]
    | E : word _ = word _ |- _ => first [done | vm_compute in E; discriminate | clear E]
    end; tauto.
Qed.

(** The header of a storage command, and what has followed it so far. *)
Definition storeHeader (adding : bool) (secs : Z) (v : bytes) : bytes :=
  bytes_of_string ((if adding then "add" else "set") +:+ " " +:+ full +:+ " 0 " +:+ Itoa secs +:+ " " +:+ Itoa (len v) +:+ crlf).

Lemma parse_header (adding : bool) secs v rest :
  in_int64 secs -> len v <= int64_max ->
  parseRequest (storeHeader adding secs v ++ rest) = dataBlock (len v) rest (McStore adding full secs).
Proof.
  intros Hs Hv. unfold storeHeader, Itoa, FormatInt.
  set (ws := [word (if adding then "add" else "set"); key; [x30]; FormatIntBytes secs; FormatIntBytes (len v)]).
  assert (in_int64 (len v)) by (unfold in_int64, int64_min, len in *; lia).
  transitivity (parseRequest (joinWords ws ++ [x0d; x0a] ++ rest)).
  { f_equal. rewrite !bytes_of_string_app, !bytes_of_string_of_bytes, bytes_crlf.
    change (bytes_of_string " 0 ") with [x20; x30; x20]. rewrite !bytes_space.
    unfold ws. cbn [joinWords]. repeat (rewrite <- (assoc_L (++)) || (progress cbn [app])). reflexivity. }
  rewrite parseRequest_words; [|done|unfold ws; destruct adding; plain_words].
  unfold ws, requestOf. rewrite !ParseIntBytes_FormatIntBytes by done. rewrite name_key.
  by destruct adding; decide_words.
Qed.

Lemma parse_storage adding secs v :
  in_int64 secs -> len v <= int64_max ->
  parseRequest (storeHeader adding secs v) = None /\
  parseRequest (storeHeader adding secs v ++ v) = None /\
  parseRequest ((storeHeader adding secs v ++ v) ++ [x0d; x0a]) = Some (McStore adding full secs v, []).
Proof.
  intros Hs Hv. rewrite <- (app_nil_r (storeHeader _ _ _)) at 1. rewrite <- (assoc_L (++)).
  rewrite !parse_header by done. unfold dataBlock, len. rewrite length_app. cbn [length].
  rewrite !decide_True by lia. rewrite decide_False by lia. rewrite Nat2Z.id.
  rewrite take_app_length. rewrite drop_ge by (rewrite length_app; simpl; lia). done.
Qed.

Lemma parse_cas token :
  plainWord (bytes_of_string token) ->
  parseRequest (bytes_of_string ("cas " +:+ full +:+ " 0 " +:+ Itoa expiredMemcachedTimestamp +:+ " 0 " +:+ token
                                 +:+ crlf +:+ crlf)) =
  Some (McCas full expiredMemcachedTimestamp [] (bytes_of_string token), []).
Proof.
  intros Ht. set (secs := FormatIntBytes expiredMemcachedTimestamp).
  set (ws := [word "cas"; key; [x30]; secs; [x30]; bytes_of_string token]).
  transitivity (parseRequest (joinWords ws ++ [x0d; x0a] ++ [x0d; x0a])).
  { f_equal. unfold Itoa, FormatInt. rewrite !bytes_of_string_app, bytes_of_string_of_bytes, bytes_crlf.
    change (bytes_of_string " 0 ") with [x20; x30; x20].
    unfold ws. cbn [joinWords]. repeat (rewrite <- (assoc_L (++)) || (progress cbn [app])). reflexivity. }
  rewrite parseRequest_words; [|done|unfold ws, secs; plain_words].
  unfold ws, secs, requestOf. rewrite ParseIntBytes_FormatIntBytes by done. change (ParseIntBytes [x30]) with (Some 0).
  decide_words. by rewrite name_key.
Qed.
End Requests.

(** ** Connections *)

Section Connections.
Context {N : Type} `{McLaws N}.
#[local] Abbreviation store := (mcStore N).
Implicit Types (s : store) (n : N).

(** Nothing of the connection has changed. *)
Definition conn_same n n' (id : nat) : Prop :=
  ml_peer n' id = ml_peer n id /\ ml_sent n' id = ml_sent n id /\ nc_incoming n' id = nc_incoming n id.

(** The servers hold nothing new: items may have been evicted. *)
Definition fewer n n' : Prop := forall a, ml_items n' a ⊆ ml_items n a.

(** The connection waits for the rest of a reply, of which all or a part arrives.
    With nothing left of the reply it is between two requests. *)
Definition replying n (a : string) (id : nat) (rest : bytes) : Prop :=
  ml_peer n id = Some a /\ ml_sent n id = [] /\ nc_incoming n id `prefix_of` rest.

Definition unpooled s (id : nat) : Prop :=
  forall a pool, ms_pools s !! a = Some pool -> id ∉ mc_conn <$> pool.

(** The invariant: every pooled connection leads to the address of its pool, is in
    it once, and is between two requests. *)
Definition pool_ok n (a : string) (pool : list memcachedConn) : Prop :=
  NoDup (mc_conn <$> pool) /\ Forall (fun mc => mc_addr mc = a /\ replying n a (mc_conn mc) []) pool.

Definition mc_ok s : Prop :=
  ml_ok (ms_net s) /\ forall a pool, ms_pools s !! a = Some pool -> pool_ok (ms_net s) a pool.

(** [H] are the connections in use. *)
Definition mc_inv (H : nat -> Prop) w s : Prop :=
  world_ok w /\ mc_ok s /\ forall id, H id -> is_Some (ml_peer (ms_net s) id) /\ unpooled s id.

Definition same_config s s' : Prop :=
  ms_addrs s' = ms_addrs s /\ ms_defaultTTL s' = ms_defaultTTL s /\ ms_prefix s' = ms_prefix s.

(** Running code that does not touch the connections [H]. *)
Definition mc_ran (H : nat -> Prop) w s w' s' : Prop :=
  later w w' /\ same_config s s' /\ mc_inv H w' s' /\ forall id, H id -> conn_same (ms_net s) (ms_net s') id.

Lemma conn_same_trans n1 n2 n3 id : conn_same n1 n2 id -> conn_same n2 n3 id -> conn_same n1 n3 id.
Proof. intros (?&?&?) (?&?&?). repeat split; congruence. Qed.

Lemma fewer_refl n : fewer n n.
Proof. by intros a. Qed.

Lemma fewer_trans n1 n2 n3 : fewer n1 n2 -> fewer n2 n3 -> fewer n1 n3.
Proof. intros H1 H2 a. by transitivity (ml_items n2 a). Qed.

Lemma replying_same n n' a id rest : conn_same n n' id -> replying n a id rest -> replying n' a id rest.
Proof. intros (E1 & E2 & E3) (?&?&?). unfold replying. by rewrite E1, E2, E3. Qed.

Lemma mc_ran_refl U w s : mc_inv U w s -> mc_ran U w s w s.
Proof. intros Hi. split; [apply later_refl, Hi|]. split; [done|]. by split. Qed.

Lemma mc_ran_trans U w1 s1 w2 s2 w3 s3 : mc_ran U w1 s1 w2 s2 -> mc_ran U w2 s2 w3 s3 -> mc_ran U w1 s1 w3 s3.
Proof.
  intros (Hl & (?&?&?) & Hi & Hc) (Hl' & (?&?&?) & Hi' & Hc'). split; [by eapply later_trans|].
  split; [split; [|split]; congruence|]. split; [done|]. intros id Hid. eapply conn_same_trans; eauto.
Qed.

Lemma mc_ran_inv U w s w' s' : mc_ran U w s w' s' -> mc_inv U w' s'.
Proof. by intros (?&?&?&?). Qed.

(** The pools are not touched, and of the network no connection in use or pooled. *)
Lemma net_quiet U w s w' n' :
  mc_inv U w s -> later w w' -> ml_ok n' ->
  (forall id, U id \/ ~ unpooled s id -> conn_same (ms_net s) n' id) -> mc_ran U w s w' (withNet n' s).
Proof.
  intros (Hw & (Hn & Hp) & Hu) Hl Hn' Hsame. split; [done|]. split; [done|]. split; [|by intros; apply Hsame; left].
  split; [by eapply later_world_ok|]. split.
  - split; [exact Hn'|]. intros a pool Hpool. destruct (Hp a pool Hpool) as [Hnd Hf]. split; [done|].
    apply list.Forall_forall. intros mc Hmc. rewrite list.Forall_forall in Hf. destruct (Hf mc Hmc) as [Ha Hr].
    split; [done|]. eapply replying_same; [|done]. apply Hsame. right. intros Hun.
    apply (Hun a pool Hpool), list_elem_of_fmap. eauto.
  - intros id Hid. destruct (Hu id Hid) as [Hs Hu']. split; [|exact Hu'].
    destruct (Hsame id (or_introl Hid)) as [E _]. simpl. by rewrite E.
Qed.

(** Only connection [id], which is neither, is touched. *)
Lemma net_step U w s id w' n' :
  mc_inv U w s -> ~ U id -> unpooled s id -> later w w' -> ml_ok n' ->
  (forall id', id' <> id -> conn_same (ms_net s) n' id') ->
  mc_ran U w s w' (withNet n' s) /\ unpooled (withNet n' s) id.
Proof.
  intros Hi Hid Hun Hl Hn' Hsame. split; [|exact Hun]. apply net_quiet; [done..|].
  intros id' [Hu|Hu]; apply Hsame; intros ->; done.
Qed.

(** What a caller knows after a step on its connection. *)
Definition moved U mc w s w' s' : Prop :=
  mc_ran U w s w' s' /\ unpooled s' (mc_conn mc) /\ fewer (ms_net s) (ms_net s').

(** The caller's hold on a connection. *)
Definition holds U s mc (rest : bytes) : Prop :=
  ~ U (mc_conn mc) /\ unpooled s (mc_conn mc) /\ replying (ms_net s) (mc_addr mc) (mc_conn mc) rest.

(** *** Reading *)

Lemma wp_readingLine {A} U mc (fail : error -> A) k Q w s rest :
  mc_inv U w s -> holds U s mc rest ->
  (forall e w1 s1, moved U mc w s w1 s1 -> Q (fail e, true) w1 s1) ->
  (forall l rest' w1 s1, untilNewline rest = Some (l, rest') -> moved U mc w s w1 s1 -> holds U s1 mc rest' ->
     wp (k (string_of_bytes l)) Q w1 s1) ->
  wp (readingLine mc fail k) Q w s.
Proof.
  intros Hi (Hu & Hun & Hpeer & Hsent & Hin) Hbad Hgood. unfold wp, readingLine, onNet, ReadString. go_simpl.
  destruct (untilNewline (nc_incoming _ _)) as [[l r]|] eqn:El.
  - destruct (nc_consume _ _ w _) as [[u w1] n1] eqn:E.
    apply ml_consume in E as (Hl & Hn & Hf & Hsame & Ep & Es & Ei); [|apply Hi..].
    destruct (net_step U w s (mc_conn mc) w1 n1) as [Hran Hun1]; [done..|].
    destruct (untilNewline_prefix _ _ _ _ Hin El) as (rest' & El' & Hpre).
    apply (Hgood l rest' w1 (withNet n1 s) El'); [by split|]. split; [done|]. split; [done|].
    unfold replying; cbn [withNet ms_net]. rewrite Ep, Es. split; [done|]. split; [done|]. rewrite Ei.
    apply untilNewline_app in El as ->. by rewrite drop_app_length.
  - destruct (nc_consume _ _ w _) as [[u w1] n1] eqn:E.
    apply ml_consume in E as (Hl & Hn & Hf & Hsame & _); [|apply Hi..].
    destruct (net_step U w s (mc_conn mc) w1 n1) as [Hran Hun1]; [done..|].
    apply Hbad. by split.
Qed.

Lemma wp_readingFull {A} U mc size (fail : error -> A) k Q w s rest :
  mc_inv U w s -> holds U s mc rest ->
  (forall e w1 s1, moved U mc w s w1 s1 -> Q (fail e, true) w1 s1) ->
  (forall w1 s1, (size <= length rest)%nat -> moved U mc w s w1 s1 -> holds U s1 mc (drop size rest) ->
     wp (k (take size rest)) Q w1 s1) ->
  wp (readingFull mc size fail k) Q w s.
Proof.
  intros Hi (Hu & Hun & Hpeer & Hsent & Hin) Hbad Hgood. unfold wp, readingFull, onNet, ReadFull. go_simpl.
  destruct (decide _) as [Hs|Hs].
  - destruct (nc_consume _ _ w _) as [[u w1] n1] eqn:E.
    apply ml_consume in E as (Hl & Hn & Hf & Hsame & Ep & Es & Ei); [|apply Hi..].
    destruct (net_step U w s (mc_conn mc) w1 n1) as [Hran Hun1]; [done..|].
    destruct (take_drop_prefix _ _ size Hin Hs) as [-> Hpre]. apply prefix_length in Hin as Hlen.
    apply (Hgood w1 (withNet n1 s)); [lia|by split|]. split; [done|]. split; [done|].
    unfold replying; cbn [withNet ms_net]. rewrite Ep, Es. split; [done|]. split; [done|]. by rewrite Ei.
  - destruct (nc_consume _ _ w _) as [[u w1] n1] eqn:E.
    apply ml_consume in E as (Hl & Hn & Hf & Hsame & _); [|apply Hi..].
    destruct (net_step U w s (mc_conn mc) w1 n1) as [Hran Hun1]; [done..|].
    apply Hbad. by split.
Qed.

(** *** Writing *)

(** The server at [a] has executed [c] once, replying [rs], or not at all. *)
Definition executed (a : string) (c : mcCommand) (rs : bytes) w n w' n' : Prop :=
  (forall a', a' <> a -> ml_items n' a' ⊆ ml_items n a') /\
  (rs = [] /\ ml_items n' a ⊆ ml_items n a \/
   exists t m m', now w <= t <= now w' /\ m ⊆ ml_items n a /\ mcReplies t m c rs m' /\ ml_items n' a ⊆ m').

(** As [moved], for a step in which the server may execute the request. *)
Definition asked U mc c rs w s w' s' : Prop :=
  mc_ran U w s w' s' /\ unpooled s' (mc_conn mc) /\ executed (mc_addr mc) c rs w (ms_net s) w' (ms_net s').

(** The caller has sent the part [b] of a request. *)
Definition sending U s mc (b : bytes) : Prop :=
  ~ U (mc_conn mc) /\ unpooled s (mc_conn mc) /\
  ml_peer (ms_net s) (mc_conn mc) = Some (mc_addr mc) /\ ml_sent (ms_net s) (mc_conn mc) = b /\
  nc_incoming (ms_net s) (mc_conn mc) = [].

Lemma holds_sending U s mc : holds U s mc [] -> sending U s mc [].
Proof. intros (?&?&?&?&?%prefix_nil_inv). by repeat split. Qed.

Lemma wp_sending {A} U mc b text c (fail : error -> A) k Q w s :
  mc_inv U w s -> sending U s mc b -> parseRequest (b ++ text) = Some (c, []) ->
  (forall e rs w1 s1, asked U mc c rs w s w1 s1 -> Q (fail e, true) w1 s1) ->
  (forall rs w1 s1, asked U mc c rs w s w1 s1 -> holds U s1 mc rs -> wp k Q w1 s1) ->
  wp (writing mc text fail k) Q w s.
Proof.
  intros Hi (Hu & Hun & Hpeer & <- & Hin) Hp Hbad Hgood.
  unfold wp, writing, onNet. go_simpl. destruct (nc_Write _ _ w _) as [[err w1] n1] eqn:E.
  apply (ml_request _ _ _ _ _ _ _ _ _ (proj1 Hi) (proj1 (proj1 (proj2 Hi))) Hpeer Hin Hp) in E
    as (Hl & Hn & Hother & Hsame & rs & Hex & Hend).
  destruct (net_step U w s (mc_conn mc) w1 n1) as [Hran Hun1]; [done..|].
  assert (asked U mc c rs w s w1 (withNet n1 s)) as Hask by (split; [done|]; split; [done|]; by split).
  destruct err as [e|]; [by eapply Hbad|]. apply (Hgood rs w1 _ Hask). split; [done|]. split; [done|]. by apply Hend.
Qed.

Lemma wp_writing {A} U mc text c (fail : error -> A) k Q w s :
  mc_inv U w s -> holds U s mc [] -> parseRequest text = Some (c, []) ->
  (forall e rs w1 s1, asked U mc c rs w s w1 s1 -> Q (fail e, true) w1 s1) ->
  (forall rs w1 s1, asked U mc c rs w s w1 s1 -> holds U s1 mc rs -> wp k Q w1 s1) ->
  wp (writing mc text fail k) Q w s.
Proof. intros Hi Hh%holds_sending. by apply (wp_sending U mc []). Qed.

Lemma wp_sending_part {A} U mc b text (fail : error -> A) k Q w s :
  mc_inv U w s -> sending U s mc b -> parseRequest (b ++ text) = None ->
  (forall e w1 s1, moved U mc w s w1 s1 -> Q (fail e, true) w1 s1) ->
  (forall w1 s1, moved U mc w s w1 s1 -> sending U s1 mc (b ++ text) -> wp k Q w1 s1) ->
  wp (writing mc text fail k) Q w s.
Proof.
  intros Hi (Hu & Hun & Hpeer & <- & Hin) Hp Hbad Hgood.
  unfold wp, writing, onNet. go_simpl. destruct (nc_Write _ _ w _) as [[err w1] n1] eqn:E.
  apply (ml_partial _ _ _ _ _ _ _ _ (proj1 Hi) (proj1 (proj1 (proj2 Hi))) Hpeer Hin Hp) in E
    as (Hl & Hn & Hf & Hsame & Hend).
  destruct (net_step U w s (mc_conn mc) w1 n1) as [Hran Hun1]; [done..|].
  destruct err as [e|]; [by apply Hbad|]. apply Hgood; [by split|]. split; [done|]. split; [done|].
  by destruct (Hend eq_refl) as (?&?&?).
Qed.

(** *** One exchange *)

Lemma moved_trans U mc w s w1 s1 w2 s2 : moved U mc w s w1 s1 -> moved U mc w1 s1 w2 s2 -> moved U mc w s w2 s2.
Proof. intros (?&_&?) (?&?&?). split; [by eapply mc_ran_trans|]. split; [done|]. by eapply fewer_trans. Qed.

Lemma executed_widen a c rs w0 n0 w n w1 n1 w2 n2 :
  executed a c rs w n w1 n1 -> now w0 <= now w -> fewer n0 n -> now w1 <= now w2 -> fewer n1 n2 ->
  executed a c rs w0 n0 w2 n2.
Proof.
  intros [Ho He] Hl Hf Hl' Hf'. split.
  - intros a' Ha. etransitivity; [apply Hf'|]. etransitivity; [by apply Ho | apply Hf].
  - destruct He as [[-> He]|(t & m & m' & Ht & Hm & Hx & Hm')].
    + left. split; [done|]. etransitivity; [apply Hf'|]. etransitivity; [done | apply Hf].
    + right. exists t, m, m'. split; [lia|]. split; [etransitivity; [done | apply Hf]|]. split; [done|].
      etransitivity; [apply Hf' | done].
Qed.

Lemma mc_ran_now U w s w' s' : mc_ran U w s w' s' -> now w <= now w'.
Proof. by intros ([_ ?] & _). Qed.

Lemma moved_asked U mc c rs w s w1 s1 w2 s2 :
  moved U mc w s w1 s1 -> asked U mc c rs w1 s1 w2 s2 -> asked U mc c rs w s w2 s2.
Proof.
  intros (Hr & _ & Hf) (Hr' & Hu & He). split; [by eapply mc_ran_trans|]. split; [done|].
  eapply executed_widen; [done | by eapply mc_ran_now | done | lia | apply fewer_refl].
Qed.

Lemma asked_moved U mc c rs w s w1 s1 w2 s2 :
  asked U mc c rs w s w1 s1 -> moved U mc w1 s1 w2 s2 -> asked U mc c rs w s w2 s2.
Proof.
  intros (Hr & _ & He) (Hr' & Hu & Hf). split; [by eapply mc_ran_trans|]. split; [done|].
  eapply executed_widen; [done | lia | apply fewer_refl | by eapply mc_ran_now | done].
Qed.

(** A step in which the request was not completed. *)
Lemma moved_unasked U mc c w s w1 s1 : moved U mc w s w1 s1 -> asked U mc c [] w s w1 s1.
Proof. intros (?&?&Hf). split; [done|]. split; [done|]. split; [by intros; apply Hf|]. left. split; [done|]. apply Hf. Qed.

Lemma asked_inv U mc c rs w s w1 s1 : asked U mc c rs w s w1 s1 -> mc_inv U w1 s1.
Proof. intros [Hr _]. by eapply mc_ran_inv. Qed.

Lemma moved_inv U mc w s w1 s1 : moved U mc w s w1 s1 -> mc_inv U w1 s1.
Proof. intros [Hr _]. by eapply mc_ran_inv. Qed.

(** A request of one line and the first line of its reply. *)
Lemma wp_exchange {A} U mc text c (fail : error -> A) k Q w s :
  mc_inv U w s -> holds U s mc [] -> parseRequest text = Some (c, []) ->
  (forall e rs w1 s1, asked U mc c rs w s w1 s1 -> Q (fail e, true) w1 s1) ->
  (forall rs l rest w1 s1, asked U mc c rs w s w1 s1 -> untilNewline rs = Some (l, rest) -> holds U s1 mc rest ->
     wp (k (string_of_bytes l)) Q w1 s1) ->
  wp (writing mc text fail (readingLine mc fail k)) Q w s.
Proof.
  intros Hi Hh Hp Hbad Hgood. eapply wp_writing; [done..|]. intros rs w1 s1 Ha Hh1.
  eapply wp_readingLine; [by eapply asked_inv|done|..].
  - intros e w2 s2 Hm. eapply Hbad. by eapply asked_moved.
  - intros l rest w2 s2 El Hm Hh2. eapply Hgood; [by eapply asked_moved|done..].
Qed.

Lemma wp_storing {A} U mc (adding : bool) full secs v (fail : error -> A) k Q w s :
  mc_inv U w s -> holds U s mc [] -> plainWord (bytes_of_string full) -> in_int64 secs -> len v <= int64_max ->
  (forall e rs w1 s1, asked U mc (McStore adding full secs v) rs w s w1 s1 -> Q (fail e, true) w1 s1) ->
  (forall rs l rest w1 s1, asked U mc (McStore adding full secs v) rs w s w1 s1 -> untilNewline rs = Some (l, rest) ->
     holds U s1 mc rest -> wp (k (string_of_bytes l)) Q w1 s1) ->
  wp (storing mc (if adding then "add" else "set") full secs v fail k) Q w s.
Proof.
  intros Hi Hh%holds_sending Hkey Hs Hv Hbad Hgood.
  destruct (parse_storage full Hkey adding secs v Hs Hv) as (P1 & P2 & P3). unfold storing.
  eapply (wp_sending_part U mc [] (storeHeader full adding secs v)); [done|done|exact P1|..].
  { intros. eapply Hbad. by apply moved_unasked. }
  intros w1 s1 M1 S1. simpl app in S1. eapply wp_sending_part; [by eapply moved_inv|done|exact P2|..].
  { intros. eapply Hbad. apply moved_unasked. by eapply moved_trans. }
  intros w2 s2 M2 S2. assert (moved U mc w s w2 s2) as M by by eapply moved_trans.
  eapply wp_sending; [by eapply moved_inv|done|exact P3|..].
  { intros. eapply Hbad. by eapply moved_asked. }
  intros rs w3 s3 Ha Hh3. apply (moved_asked _ _ _ _ _ _ _ _ _ _ M) in Ha.
  eapply wp_readingLine; [by eapply asked_inv|done|..].
  - intros e w4 s4 Hm. eapply Hbad. by eapply asked_moved.
  - intros l rest w4 s4 El Hm Hh4. eapply Hgood; [by eapply asked_moved|done..].
Qed.

(** *** The pool *)

Lemma pool_head U w s addr mc pool :
  mc_inv U w s -> ms_pools s !! addr = Some (mc :: pool) ->
  mc_ran U w s w (withPool addr pool s) /\ holds U (withPool addr pool s) mc [].
Proof.
  intros (Hw & (Hn & Hp) & Hu) E. destruct (Hp _ _ E) as [[Hnin Hnd]%list.NoDup_cons [[Ha Hr] Hf]%Forall_cons_1].
  assert (unpooled (withPool addr pool s) (mc_conn mc)) as Hun.
  { intros a pool' E'. simpl in E'. apply lookup_insert_Some in E' as [[<- <-]|[Hne E']]; [done|].
    intros (mc' & Ec & Hin)%list_elem_of_fmap. destruct (Hp _ _ E') as [_ Hf']. rewrite list.Forall_forall in Hf'.
    destruct (Hf' mc' Hin) as [_ (Hpeer' & _)]. destruct Hr as (Hpeer & _). congruence. }
  assert (forall id, unpooled s id -> unpooled (withPool addr pool s) id) as Hmono.
  { intros id Hid a pool' E'. simpl in E'. apply lookup_insert_Some in E' as [[<- <-]|[Hne E']]; [|by apply (Hid a)].
    intros Hin. apply (Hid addr _ E). simpl. by apply elem_of_cons; right. }
  split.
  - split; [by apply later_refl|]. split; [done|]. split; [|done]. split; [done|]. split.
    + split; [done|]. intros a pool' E'. simpl in E'. apply lookup_insert_Some in E' as [[<- <-]|[Hne E']]; [done|]. by apply Hp.
    + intros id Hid. destruct (Hu id Hid). auto.
  - split; [|by rewrite Ha]. intros Hid. destruct (Hu _ Hid) as [_ Hun']. apply (Hun' addr _ E). simpl. by apply elem_of_cons; left.
Qed.

Lemma closed_ran U w s id w' n' u :
  mc_inv U w s -> ~ U id -> unpooled s id -> nc_Close id w (ms_net s) = (u, w', n') ->
  mc_ran U w s w' (withNet n' s) /\ fewer (ms_net s) n'.
Proof.
  intros Hi Hid Hun E. apply ml_close in E as (Hl & Hn & Hf & Hs); [|apply Hi..]. split; [|done].
  by apply (net_step U w s id).
Qed.

Lemma wp_acquireFrom U ctx (Q : memcachedConn + error -> World -> store -> Prop) (left_ : nat) start i errs w s :
  mc_inv U w s -> ms_addrs s <> [] ->
  (forall e w1 s1, mc_ran U w s w1 s1 -> fewer (ms_net s) (ms_net s1) -> Q (inr e) w1 s1) ->
  (forall mc w1 s1, mc_ran U w s w1 s1 -> fewer (ms_net s) (ms_net s1) -> mc_addr mc ∈ ms_addrs s -> holds U s1 mc [] ->
     Q (inl mc) w1 s1) ->
  wp (acquireFrom left_ ctx start i errs) Q w s.
Proof.
  revert i errs w s. induction left_ as [|left_ IH]; intros i errs w s Hi Hne Hbad Hgood.
  { apply Hbad; [by apply mc_ran_refl|]. apply fewer_refl. }
  set (addr := nth (Z.to_nat ((start + i) mod len (ms_addrs s))) (ms_addrs s) EmptyString).
  assert (addr ∈ ms_addrs s) as Haddr.
  { apply list_elem_of_In, nth_In. destruct (ms_addrs s) as [|x l]; [done|]. unfold len.
    pose proof (Z.mod_pos_bound (start + i) (Z.of_nat (length (x :: l))) ltac:(simpl; lia)). lia. }
  assert (forall pool, ms_pools s !! addr = pool -> (forall mc l, pool <> Some (mc :: l)) ->
    wp (let* conn := onNet (nc_Dial ctx addr) in
        match conn with
        | inl id => ret (inl (mkMemcachedConn addr id))
        | inr e => acquireFrom left_ ctx start (i + 1) (errs +:+ addr +:+ ": " +:+ Error e +:+ "; ")
        end) Q w s) as Hdial.
  { intros pool Hpool Hnil. unfold wp, onNet. go_simpl. destruct (nc_Dial ctx addr w _) as [[r w1] n1] eqn:E.
    apply ml_dial in E as (Hl & Hn & Hf & Hs & Hid); [|apply Hi..].
    assert (mc_ran U w s w1 (withNet n1 s)) as Hran.
    { apply net_quiet; [done..|]. intros id Hor. apply Hs. intros ->. destruct Hid as (Hnone & _).
      destruct Hi as (_ & (_ & Hp) & Hu). destruct Hor as [Hor|Hor].
      - destruct (Hu _ Hor) as [[? ?] _]. congruence.
      - apply Hor. intros a pool' E' (mc & Em & Hin)%list_elem_of_fmap. destruct (Hp _ _ E') as [_ Hall].
        rewrite list.Forall_forall in Hall. destruct (Hall mc Hin) as [_ (Hpeer & _)]. congruence. }
    destruct r as [id|e].
    - destruct Hid as (Hnone & Hpeer & Hsent & Hin). apply Hgood; [done..|]. split; [|split].
      + simpl. intros Hu. destruct Hi as (_ & _ & Hu'). destruct (Hu' _ Hu) as [[? ?] _]. congruence.
      + simpl. intros a pool' E' (mc & Em & Hmc)%list_elem_of_fmap. destruct Hi as (_ & (_ & Hp) & _).
        destruct (Hp _ _ E') as [_ Hall]. rewrite list.Forall_forall in Hall.
        destruct (Hall mc Hmc) as [_ (Hpeer' & _)]. congruence.
      + unfold replying. simpl. by rewrite Hpeer, Hsent, Hin.
    - apply IH; [by eapply mc_ran_inv|done|..].
      + intros e' w2 s2 Hr2 Hf2. apply Hbad; [by eapply mc_ran_trans|]. by eapply fewer_trans.
      + intros mc w2 s2 Hr2 Hf2 Hin Hh. apply Hgood; [by eapply mc_ran_trans|by eapply fewer_trans|done|done]. }
  unfold wp. cbn [acquireFrom]. go_simpl. fold addr. destruct (ms_pools s !! addr) as [[|mc pool]|] eqn:Epool.
  - exact (Hdial _ eq_refl ltac:(done)).
  - destruct (pool_head U w s addr mc pool Hi Epool) as [Hran Hh]. apply Hgood; [done|by apply fewer_refl| |done].
    destruct Hi as (_ & (_ & Hp) & _). by destruct (Hp _ _ Epool) as [_ [[-> _] _]%Forall_cons_1].
  - exact (Hdial _ eq_refl ltac:(done)).
Qed.

Lemma wp_acquire U ctx (Q : memcachedConn + error -> World -> store -> Prop) w s :
  mc_inv U w s ->
  (forall e w1 s1, mc_ran U w s w1 s1 -> fewer (ms_net s) (ms_net s1) -> Q (inr e) w1 s1) ->
  (forall mc w1 s1, mc_ran U w s w1 s1 -> fewer (ms_net s) (ms_net s1) -> mc_addr mc ∈ ms_addrs s -> holds U s1 mc [] ->
     Q (inl mc) w1 s1) ->
  wp (acquire ctx) Q w s.
Proof.
  intros Hi Hbad Hgood. unfold wp, acquire. go_simpl. destruct (Z.eqb_spec (len (ms_addrs s)) 0) as [Hz|Hz].
  { apply Hbad; [by apply mc_ran_refl|]. apply fewer_refl. }
  set (rr := (ms_rr s + 1) mod 2 ^ 32).
  assert (mc_ran U w s w (withRR rr s)) as Hr by (split; [apply later_refl, Hi|]; split; [done|]; split; [exact Hi|done]).
  apply (wp_acquireFrom U ctx Q _ _ _ _ w (withRR rr s)); [done| |..].
  - simpl. intros E. by rewrite E in Hz.
  - intros e w1 s1 ??. apply Hbad; [eapply mc_ran_trans; [exact Hr|done]|done].
  - intros mc w1 s1 ????. apply Hgood; [eapply mc_ran_trans; [exact Hr|done]|done..].
Qed.

Lemma pool_put U w s mc pool :
  mc_inv U w s -> holds U s mc [] -> ms_pools s !! mc_addr mc = Some pool ->
  mc_ran U w s w (withPool (mc_addr mc) (pool ++ [mc]) s).
Proof.
  intros (Hw & (Hn & Hp) & Hu) (Hnu & Hun & Hr) E. split; [by apply later_refl|]. split; [done|]. split; [|done].
  split; [done|]. split.
  - split; [done|]. intros a pool' E'. simpl in E'. apply lookup_insert_Some in E' as [[<- <-]|[Hne E']]; [|by apply Hp].
    destruct (Hp _ _ E) as [Hnd Hf]. split.
    + rewrite fmap_app. apply list.NoDup_app. split; [done|]. split; [|apply NoDup_singleton].
      intros id Hid ->%list_elem_of_singleton. by apply (Hun _ _ E).
    + apply list.Forall_app. split; [done|]. by apply list.Forall_singleton.
  - intros id Hid. destruct (Hu id Hid) as [Hs Hunp]. split; [done|]. intros a pool' E'. simpl in E'.
    apply lookup_insert_Some in E' as [[<- <-]|[Hne E']]; [|by apply (Hunp a)].
    rewrite fmap_app. intros [Hin|Hin%list_elem_of_singleton]%elem_of_app; [by apply (Hunp _ _ E)|]. by subst id.
Qed.

(** A connection is released between two requests, unless it is bad. *)
Lemma wp_release U mc (bad : bool) (Q : unit -> World -> store -> Prop) w s :
  mc_inv U w s -> ~ U (mc_conn mc) -> (if bad then unpooled s (mc_conn mc) else holds U s mc []) ->
  (forall u w1 s1, mc_ran U w s w1 s1 -> fewer (ms_net s) (ms_net s1) -> Q u w1 s1) ->
  wp (release mc bad) Q w s.
Proof.
  intros Hi Hnu Hrel Hq.
  assert (unpooled s (mc_conn mc)) as Hun by (destruct bad; [done | apply Hrel]).
  assert (wp (onNet (nc_Close (mc_conn mc))) Q w s) as Hclose.
  { unfold wp, onNet. go_simpl. destruct (nc_Close _ w _) as [[u w1] n1] eqn:E.
    apply (closed_ran U) in E as [Hr Hf]; [|done..]. by apply Hq. }
  destruct bad; [exact Hclose|]. unfold wp, release. go_simpl.
  destruct (ms_pools s !! mc_addr mc) as [pool|] eqn:E; [|exact Hclose].
  destruct (decide _); [|exact Hclose]. apply Hq; [by apply pool_put|]. apply fewer_refl.
Qed.

Lemma wp_withConn {A} U ctx (fail : error -> A) body (Q : A -> World -> store -> Prop) w s :
  mc_inv U w s ->
  (forall e w1 s1, mc_ran U w s w1 s1 -> fewer (ms_net s) (ms_net s1) -> Q (fail e) w1 s1) ->
  (forall mc w1 s1, mc_ran U w s w1 s1 -> fewer (ms_net s) (ms_net s1) -> mc_addr mc ∈ ms_addrs s -> holds U s1 mc [] ->
     wp (body mc) (fun r w2 s2 =>
       mc_inv U w2 s2 /\ (if r.2 : bool then unpooled s2 (mc_conn mc) else holds U s2 mc []) /\
       forall w3 s3, mc_ran U w2 s2 w3 s3 -> fewer (ms_net s2) (ms_net s3) -> Q r.1 w3 s3) w1 s1) ->
  wp (withConn ctx fail body) Q w s.
Proof.
  intros Hi Hbad Hgood. unfold withConn. apply wp_bind. apply (wp_acquire U); [done|by intros; apply Hbad|].
  intros mc w1 s1 Hr Hf Ha Hh. apply wp_bind. eapply wp_mono; [by apply Hgood|].
  intros [x bad] w2 s2 (Hi2 & Hrel & Hq). apply wp_bind. eapply (wp_release U); [done|apply Hh|done|].
  intros u w3 s3 Hr3 Hf3. by apply Hq.
Qed.
End Connections.

(** ** Replies *)

Lemma reply_line s : oneLine (word s) = true -> untilNewline (reply s) = Some (reply s, []).
Proof.
  intros Hs. unfold reply. rewrite bytes_of_string_app, bytes_crlf.
  change [x0d; x0a] with ([x0d] ++ x0a :: []). rewrite (assoc_L (++)). rewrite untilNewline_line; [done|].
  rewrite oneLine_app. unfold word in Hs. by rewrite Hs.
Qed.

(** The texts of errors. *)
Definition errorText (s : string) : Prop :=
  exists msg, oneLine (word msg) = true /\
    (s = "ERROR" +:+ msg \/ s = "CLIENT_ERROR" +:+ msg \/ s = "SERVER_ERROR" +:+ msg).

Lemma oneLine_string a b : oneLine (word (a +:+ b)) = oneLine (word a) && oneLine (word b).
Proof. unfold word. by rewrite bytes_of_string_app, oneLine_app. Qed.

Lemma errorText_line s : errorText s -> oneLine (word s) = true.
Proof. intros (msg & Hm & [-> | [-> | ->]]); by rewrite oneLine_string, Hm. Qed.

Lemma oneLine_FormatInt z : oneLine (word (FormatInt z)) = true.
Proof. unfold word, FormatInt. rewrite bytes_of_string_of_bytes. apply plain_oneLine, FormatIntBytes_plain. Qed.

(** Except for values, a reply is one line. *)
Lemma replies_one_line t m c rs m' :
  mcReplies t m c rs m' -> (forall cas k, c <> McGet cas k) -> untilNewline rs = Some (rs, []).
Proof.
  intros Hr Hc. destruct Hr; try (by apply reply_line); try (by destruct (Hc cas k)); apply reply_line;
    rewrite ?oneLine_string; try done; apply oneLine_FormatInt.
Qed.

(** What can be the reply to a read. *)
Definition valueWords (withCas : bool) (k : string) (it : mcItem) : list bytes :=
  [word "VALUE"; bytes_of_string k; FormatIntBytes (it_flags it); FormatIntBytes (len (it_value it))] ++
  (if withCas then [it_cas it] else []).

Lemma valueReply_words cas k it :
  valueReply cas k it = joinWords (valueWords cas k it) ++ [x0d; x0a] ++ it_value it ++ [x0d; x0a] ++ reply "END".
Proof.
  unfold valueReply, valueWords, word. rewrite bytes_crlf, bytes_space. destruct cas; cbn [joinWords app];
    repeat (rewrite <- (assoc_L (++)) || (progress cbn [app])); done.
Qed.

Lemma digits_plain x : forallb isDigit x = true -> forallb plainByte x = true.
Proof.
  rewrite !forallb_forall. intros Hx c Hc. apply Hx in Hc. unfold isDigit in Hc. apply andb_true_iff in Hc as [H1 H2].
  apply Z.leb_le in H1, H2. unfold plainByte. apply andb_true_iff. split; [|by apply Z.ltb_lt; lia].
  destruct c; try done; exfalso; vm_compute in H1, H2; done.
Qed.

Lemma valueWords_plain cas k it :
  plainWord (bytes_of_string k) -> it_cas it <> [] -> forallb isDigit (it_cas it) = true -> Forall plainWord (valueWords cas k it).
Proof.
  intros Hk Hne Hc. assert (plainWord (it_cas it)) by (split; [done | by apply digits_plain]).
  unfold valueWords. destruct cas; cbn [app]; plain_words.
Qed.

(** The first line of a reply to a read, as the driver tells the cases apart. *)
Inductive getLine (t : Z) (m : mcItems) (cas : bool) (k : string) (l rest : bytes) : Prop :=
| get_end : l = reply "END" -> rest = [] -> liveItem m t k = None -> getLine t m cas k l rest
| get_value it :
    liveItem m t k = Some it -> string_of_bytes l <> "END" +:+ crlf ->
    Fields (TrimSpace (string_of_bytes l)) = string_of_bytes <$> valueWords cas k it ->
    in_int64 (len (it_value it)) -> forallb isDigit (it_cas it) = true -> it_cas it <> [] ->
    rest = it_value it ++ [x0d; x0a] ++ reply "END" -> getLine t m cas k l rest
| get_error s :
    errorText s -> l = reply s -> rest = [] -> string_of_bytes l <> "END" +:+ crlf ->
    nthField (Fields (TrimSpace (string_of_bytes l))) 0 <> "VALUE" -> getLine t m cas k l rest.

Lemma error_reply s : errorText s ->
  string_of_bytes (reply s) <> "END" +:+ crlf /\ nthField (Fields (TrimSpace (string_of_bytes (reply s)))) 0 <> "VALUE".
Proof.
  intros (msg & _ & Hs).
  assert (exists c b, reply s = c :: b /\ plainByte c = true /\ (c = x43 \/ c = x53 \/ exists b', c = x45 /\ b = x52 :: b')) as
    (c & b & E & Hc & Hcase).
  { destruct Hs as [-> | [-> | ->]]; unfold reply; rewrite !bytes_of_string_app; simpl; eexists _, _; (split; [done|]);
      (split; [done|]); eauto. }
  rewrite E. split.
  - intros E'. apply (f_equal bytes_of_string) in E'. rewrite bytes_of_string_of_bytes in E'.
    destruct Hcase as [-> | [-> | (b' & -> & ->)]]; done.
  - destruct (Fields_head c b Hc) as (y & r & ->). unfold nthField. cbn [nth]. intros E'. apply (f_equal bytes_of_string) in E'.
    rewrite bytes_of_string_of_bytes in E'. destruct Hcase as [-> | [-> | (b' & -> & _)]]; done.
Qed.

Lemma replies_get t m cas k rs m' l rest :
  plainWord (bytes_of_string k) -> mcReplies t m (McGet cas k) rs m' -> untilNewline rs = Some (l, rest) ->
  m' ⊆ m /\ getLine t m cas k l rest.
Proof.
  intros Hk Hr El.
  assert (forall s, errorText s -> rs = reply s -> getLine t m cas k l rest) as Herr.
  { intros s Hs ->. pose proof (error_reply s Hs) as [? ?].
    rewrite reply_line in El by (by apply errorText_line). injection El as <- <-. by eapply get_error. }
  inversion Hr as [| ? ? Hnone | ? ? it Hlive Hflags Hlen Hne Hcas | | | | | | | | | | | | | |
    ? msg ? Hsub Hm | ? msg ? Hsub Hm | ? msg ? Hsub Hm]; subst.
  - split; [done|]. rewrite reply_line in El by done. injection El as <- <-. by apply get_end.
  - split; [done|]. assert (Forall plainWord (valueWords cas k it)) as Hw by by apply valueWords_plain.
    rewrite valueReply_words in El. revert El.
    replace (joinWords (valueWords cas k it) ++ [x0d; x0a] ++ it_value it ++ [x0d; x0a] ++ reply "END")
      with ((joinWords (valueWords cas k it) ++ [x0d]) ++ x0a :: it_value it ++ [x0d; x0a] ++ reply "END")
      by (rewrite <- (assoc_L (++)); done).
    rewrite untilNewline_line by (rewrite oneLine_app, joinWords_oneLine; done). intros El.
    assert (l = joinWords (valueWords cas k it) ++ [x0d; x0a]) as -> by (change [x0d; x0a] with ([x0d] ++ [x0a]); rewrite (assoc_L (++)); congruence).
    assert (rest = it_value it ++ [x0d; x0a] ++ reply "END") as -> by congruence. eapply get_value; [done| |by apply Fields_words|split; [unfold int64_min, len; lia|done]|done|done|done].
    intros E. apply (f_equal bytes_of_string) in E. rewrite bytes_of_string_of_bytes in E. by destruct cas.
  - split; [done|]. eapply Herr; [|done]. exists msg. auto.
  - split; [done|]. eapply Herr; [|done]. exists msg. auto.
  - split; [done|]. eapply Herr; [|done]. exists msg. auto.
Qed.

(** The key that a request may change; [flush_all] adds nothing. *)
Definition commandKey (c : mcCommand) : option string :=
  match c with
  | McStore _ k _ _ | McCas k _ _ _ | McCount _ k _ | McTouch k _ | McDelete k => Some k
  | McVersion | McGet _ _ | McFlushAll | McUnknown => None
  end.

Lemma replies_only t m c rs m' (k : string) it :
  mcReplies t m c rs m' -> commandKey c <> Some k -> m' !! k = Some it -> m !! k = Some it.
Proof.
  intros Hr Hk E. destruct Hr; simpl in Hk; try done; rewrite ?lookup_insert_ne, ?lookup_delete_ne in E by congruence;
    try done; by eapply lookup_weaken.
Qed.

(** ** Operations *)

Section Operations.
Context {N : Type} `{McLaws N}.
#[local] Abbreviation store := (mcStore N).
Implicit Types (s : store) (n : N).

(** A request for which one server, or none, was asked once; [P] of its reply. *)
Definition tried (c : mcCommand) (P : bytes -> Prop) w s w' s' : Prop :=
  exists a rs, executed a c rs w (ms_net s) w' (ms_net s') /\ (rs = [] \/ a ∈ ms_addrs s) /\ P rs.

Lemma fewer_tried c (P : bytes -> Prop) w s w' s' : fewer (ms_net s) (ms_net s') -> P [] -> tried c P w s w' s'.
Proof. intros Hf HP. exists EmptyString, []. split; [|by auto]. split; [by intros; apply Hf|]. left. split; [done|]. apply Hf. Qed.

Lemma asked_tried U mc c rs (P : bytes -> Prop) w0 s0 w s w1 s1 w2 s2 :
  mc_ran U w0 s0 w s -> fewer (ms_net s0) (ms_net s) -> mc_addr mc ∈ ms_addrs s0 -> asked U mc c rs w s w1 s1 ->
  mc_ran U w1 s1 w2 s2 -> fewer (ms_net s1) (ms_net s2) -> P rs ->
  mc_ran U w0 s0 w2 s2 /\ tried c P w0 s0 w2 s2.
Proof.
  intros Hr0 Hf0 Ha (Hr & _ & He) Hr2 Hf2 HP. split; [by do 2 (eapply mc_ran_trans; [done|])|].
  exists (mc_addr mc), rs. split; [|by auto].
  eapply executed_widen; [done | by eapply mc_ran_now | done | by eapply mc_ran_now | done].
Qed.

(** The servers hold nothing new except under [K]. *)
Definition only (K : option string) n n' : Prop :=
  forall a k it, K <> Some k -> ml_items n' a !! k = Some it -> ml_items n a !! k = Some it.

Lemma fewer_only K n n' : fewer n n' -> only K n n'.
Proof. intros Hf a k it _ E. by eapply lookup_weaken. Qed.

Lemma only_key_trans K n1 n2 n3 : only K n1 n2 -> only K n2 n3 -> only K n1 n3.
Proof. intros H1 H2 a k it Hk E. eauto. Qed.

Lemma executed_only a c rs w n w' n' : executed a c rs w n w' n' -> only (commandKey c) n n'.
Proof.
  intros [Ho He] a' k it Hk E. destruct (decide (a' = a)) as [->|Hne]; [|by eapply lookup_weaken, Ho].
  destruct He as [[_ ?]|(t & m & m' & _ & Hm & Hr & Hm')]; [by eapply lookup_weaken|].
  eapply lookup_weaken; [|done]. eapply replies_only; [done..|]. by eapply lookup_weaken.
Qed.

Lemma tried_only c P w s w' s' : tried c P w s w' s' -> only (commandKey c) (ms_net s) (ms_net s').
Proof. intros (a & rs & He & _). by eapply executed_only. Qed.

Lemma asked_line U mc c rs w s w1 s1 l rest :
  asked U mc c rs w s w1 s1 -> (forall cas k, c <> McGet cas k) -> untilNewline rs = Some (l, rest) -> l = rs /\ rest = [].
Proof.
  intros (_ & _ & _ & [[-> _]|(t & m & m' & _ & _ & Hr & _)]) Hc El; [done|].
  apply replies_one_line in Hr; [|done]. rewrite Hr in El. by injection El as <- <-.
Qed.

Lemma asked_get U mc cas k rs w s w1 s1 :
  plainWord (bytes_of_string k) -> asked U mc (McGet cas k) rs w s w1 s1 -> fewer (ms_net s) (ms_net s1).
Proof.
  intros Hk (_ & _ & Ho & He) a. destruct (decide (a = mc_addr mc)) as [->|Hne]; [|by apply Ho].
  destruct He as [[_ ?]|(t & m & m' & _ & Hm & Hr & Hm')]; [done|].
  assert (m' ⊆ m) by (inversion Hr; by subst). by do 2 (etransitivity; [done|]).
Qed.

(** The end of an exchange, after which the connection is released. *)
Ltac asked_done Hask :=
  split; [by eapply asked_inv|]; split; [first [done | apply Hask]|];
  let w3 := fresh "w" in let s3 := fresh "s" in intros w3 s3 ? ?; by eapply asked_tried.

(** The operations on one key, whose full name is [full]. *)
Section Keyed.
Context (U : nat -> Prop) (ctx : Context) (key : string).
#[local] Abbreviation full s := (mc_cacheKey (ms_prefix s) key).
#[local] Abbreviation plain s := (plainWord (bytes_of_string (full s))).

Lemma ms_prefix_ran w s w' s' : mc_ran U w s w' s' -> ms_prefix s' = ms_prefix s.
Proof. by intros (_ & (_ & _ & ?) & _). Qed.

Lemma mc_Set_wp v ttl w s :
  mc_inv U w s -> plain s -> len v <= int64_max ->
  wp (mc_Set ctx key v ttl) (fun err w' s' => mc_ran U w s w' s' /\
    tried (McStore false (full s) (mc_seconds (mc_ttl s ttl)) v)
      (fun rs => err = None -> HasPrefix (string_of_bytes rs) "STORED" = true) w s w' s') w s.
Proof.
  intros Hi Hk Hv. unfold mc_Set. apply wp_bind. unfold wp at 1, get. apply (wp_withConn U); [done|..].
  { intros e w1 s1 Hr Hf. split; [done|]. by apply fewer_tried. }
  intros mc w1 s1 Hr Hf Ha Hh. apply (wp_storing U mc false); [by eapply mc_ran_inv|done|done|apply mc_seconds_range|done|..].
  - intros e rs w2 s2 Hask. asked_done Hask.
  - intros rs l rest w2 s2 Hask El Hh2. destruct (asked_line _ _ _ _ _ _ _ _ _ _ Hask ltac:(done) El) as [-> ->].
    unfold wp. destruct (HasPrefix _ _) eqn:Ep; asked_done Hask.
Qed.

Lemma mc_Add_wp v ttl w s :
  mc_inv U w s -> plain s -> len v <= int64_max ->
  wp (mc_Add ctx key v ttl) (fun r w' s' => mc_ran U w s w' s' /\
    tried (McStore true (full s) (mc_seconds (mc_ttl s ttl)) v)
      (fun rs => r = (true, None) -> HasPrefix (string_of_bytes rs) "STORED" = true) w s w' s') w s.
Proof.
  intros Hi Hk Hv. unfold mc_Add. apply wp_bind. unfold wp at 1, get. apply (wp_withConn U); [done|..].
  { intros e w1 s1 Hr Hf. split; [done|]. by apply fewer_tried. }
  intros mc w1 s1 Hr Hf Ha Hh. apply (wp_storing U mc true); [by eapply mc_ran_inv|done|done|apply mc_seconds_range|done|..].
  - intros e rs w2 s2 Hask. asked_done Hask.
  - intros rs l rest w2 s2 Hask El Hh2. destruct (asked_line _ _ _ _ _ _ _ _ _ _ Hask ltac:(done) El) as [-> ->].
    unfold wp. destruct (HasPrefix _ "STORED") eqn:Ep; [|destruct (HasPrefix _ "NOT_STORED")]; asked_done Hask.
Qed.

(** A read that finds the value of a live item. *)
Definition got (r : bytes * bool * option error) w s w' : Prop :=
  match r with
  | (b, true, None) =>
      exists a t m it, a ∈ ms_addrs s /\ now w <= t <= now w' /\ m ⊆ ml_items (ms_net s) a /\
        liveItem m t (full s) = Some it /\ b = it_value it
  | (_, ok, Some _) => ok = false
  | _ => True
  end.

Lemma wp_readingValue {A} mc v size (fail : error -> A) k Q w s :
  mc_inv U w s -> holds U s mc (v ++ [x0d; x0a] ++ reply "END") -> size = len v ->
  (forall e w1 s1, moved U mc w s w1 s1 -> Q (fail e, true) w1 s1) ->
  (forall w1 s1, moved U mc w s w1 s1 -> holds U s1 mc [] -> wp (k v) Q w1 s1) ->
  wp (readingValue mc size fail k) Q w s.
Proof.
  intros Hi Hh -> Hbad Hgood. unfold readingValue, len. rewrite (proj2 (Z.ltb_ge _ _)) by lia. rewrite Nat2Z.id.
  eapply wp_readingFull; [done..|]. rewrite take_app_length, drop_app_length. intros w1 s1 _ M1 H1.
  eapply wp_readingLine; [by eapply moved_inv|done|by intros; eapply Hbad, moved_trans|].
  intros l rest w2 s2 E2 M2 H2. change (untilNewline _) with (Some ([x0d; x0a], reply "END")) in E2. injection E2 as <- <-.
  assert (moved U mc w s w2 s2) as M by by eapply moved_trans.
  eapply wp_readingLine; [by eapply moved_inv|done|by intros; eapply Hbad, moved_trans|].
  intros l rest w3 s3 E3 M3 H3. change (untilNewline _) with (Some (reply "END", @nil byte)) in E3. injection E3 as <- <-.
  apply Hgood; [by eapply moved_trans|done].
Qed.

(** The first line of the reply to a read tells what the server has found. *)
Lemma asked_getLine mc cas k rs w s w1 s1 l rest :
  plainWord (bytes_of_string k) -> asked U mc (McGet cas k) rs w s w1 s1 -> untilNewline rs = Some (l, rest) ->
  exists t m, now w <= t <= now w1 /\ m ⊆ ml_items (ms_net s) (mc_addr mc) /\ getLine t m cas k l rest.
Proof.
  intros Hk (_ & _ & _ & [[-> _]|(t & m & m' & Ht & Hm & Hr & _)]) El; [done|].
  exists t, m. split; [done|]. split; [done|]. by eapply replies_get.
Qed.

Lemma Atoi_FormatIntBytes z : in_int64 z -> Atoi (string_of_bytes (FormatIntBytes z)) = Some z.
Proof. apply ParseInt_FormatInt. Qed.

Lemma mc_Get_wp w s :
  mc_inv U w s -> plain s ->
  wp (mc_Get ctx key) (fun r w' s' => mc_ran U w s w' s' /\ fewer (ms_net s) (ms_net s') /\ got r w s w') w s.
Proof.
  intros Hi Hk. unfold mc_Get. apply (wp_withConn U); [done|by intros|].
  intros mc w1 s1 Hr Hf Ha Hh. apply wp_bind. unfold wp at 1, get. rewrite (ms_prefix_ran _ _ _ _ Hr).
  set (Q := fun (r : bytes * bool * option error * bool) w2 s2 => _).
  assert (forall r (bad : bool) w2 s2, mc_ran U w1 s1 w2 s2 -> fewer (ms_net s1) (ms_net s2) ->
    (if bad then unpooled s2 (mc_conn mc) else holds U s2 mc []) ->
    (forall w3, now w2 <= now w3 -> got r w s w3) -> Q (r, bad) w2 s2) as Hleaf.
  { intros r bad w2 s2 Hr2 Hf2 Hrel Hgot. split; [by eapply mc_ran_inv|]. split; [done|]. intros w3 s3 Hr3 Hf3.
    split; [by do 2 (eapply mc_ran_trans; [done|])|]. split; [by do 2 (eapply fewer_trans; [done|])|].
    apply Hgot. by eapply mc_ran_now. }
  eapply wp_exchange; [by eapply mc_ran_inv|done|by apply parse_get|..].
  { intros e rs w2 s2 Hask. apply Hleaf; [apply Hask|by eapply asked_get|apply Hask|done]. }
  intros rs l rest w2 s2 Hask El Hh2.
  destruct (asked_getLine mc false _ rs w1 s1 w2 s2 l rest Hk Hask El) as (t & m & Ht & Hm & Hline).
  pose proof (asked_get _ _ _ _ _ _ _ _ _ Hk Hask) as Hf2. destruct Hask as (Hr2 & _).
  destruct Hline as [-> -> Hnone | it Hlive Hne HF Hlen _ _ -> | e He -> -> Hne HF].
  - rewrite decide_True by done. by apply Hleaf.
  - rewrite decide_False by done. cbv zeta. rewrite HF. cbn [valueWords app fmap list_fmap nthField nth].
    rewrite bool_decide_true by done. cbn [negb orb]. rewrite Atoi_FormatIntBytes by done.
    eapply wp_readingValue; [by eapply mc_ran_inv|done|done|..].
    + intros e w3 s3 (Hr3 & Hu3 & Hf3). apply Hleaf; [by eapply mc_ran_trans|by eapply fewer_trans|done|done].
    + intros w3 s3 (Hr3 & Hu3 & Hf3) Hh3. apply Hleaf; [by eapply mc_ran_trans|by eapply fewer_trans|done|].
      intros w4 Hw4. exists (mc_addr mc), t, m, it. split; [done|].
      apply mc_ran_now in Hr, Hr3. split; [lia|]. split; [|done]. etransitivity; [done | apply Hf].
  - rewrite decide_False by done. cbv zeta. rewrite (bool_decide_false _ HF), orb_true_r. by apply Hleaf.
Qed.

Lemma mc_Delete_wp w s :
  mc_inv U w s -> plain s ->
  wp (mc_Delete ctx key) (fun err w' s' => mc_ran U w s w' s' /\
    tried (McDelete (full s)) (fun rs => err = None -> rs <> []) w s w' s') w s.
Proof.
  intros Hi Hk. unfold mc_Delete. apply (wp_withConn U); [done|..].
  { intros e w1 s1 Hr Hf. split; [done|]. by apply fewer_tried. }
  intros mc w1 s1 Hr Hf Ha Hh. apply wp_bind. unfold wp at 1, get. rewrite (ms_prefix_ran _ _ _ _ Hr).
  eapply wp_exchange; [by eapply mc_ran_inv|done|by apply parse_delete|..].
  { intros e rs w2 s2 Hask. asked_done Hask. }
  intros rs l rest w2 s2 Hask El Hh2. destruct (asked_line _ _ _ _ _ _ _ _ _ _ Hask ltac:(done) El) as [-> ->].
  unfold wp, ret. assert (rs <> []) by (by intros ->). asked_done Hask.
Qed.

(** The connection in use stays as it is while the store serves another call. *)
Definition inUse (mc : memcachedConn) (id : nat) : Prop := U id \/ id = mc_conn mc.

Lemma inUse_inv mc w s : mc_inv U w s -> holds U s mc [] -> mc_inv (inUse mc) w s.
Proof.
  intros (Hw & Hs & Hu) (_ & Hun & Hr). split; [done|]. split; [done|]. intros id [Hid| ->]; [by apply Hu|].
  split; [|done]. destruct Hr as [-> _]. done.
Qed.

Lemma inUse_ran mc w s w' s' :
  mc_ran (inUse mc) w s w' s' -> holds U s mc [] -> mc_ran U w s w' s' /\ holds U s' mc [].
Proof.
  intros (Hl & Hc & (Hw & Hs & Hu) & Hsame) (Hnu & Hun & Hr). split.
  - split; [done|]. split; [done|]. split; [split; [done|]; split; [done|]; by intros; apply Hu; left|].
    intros; apply Hsame. by left.
  - split; [done|]. destruct (Hu (mc_conn mc)) as [_ ?]; [by right|]. split; [done|].
    eapply replying_same; [|done]. apply Hsame. by right.
Qed.

Lemma wp_touching mc ttl val fail w s :
  mc_inv U w s -> holds U s mc [] -> plain s ->
  wp (touching mc (full s) ttl val fail) (fun r w' s' =>
    mc_ran U w s w' s' /\ (if r.2 then unpooled s' (mc_conn mc) else holds U s' mc []) /\
    only (Some (full s)) (ms_net s) (ms_net s')) w s.
Proof.
  intros Hi Hh Hk. eapply wp_exchange; [done|done|apply parse_touch; [done|apply mc_seconds_range]|..].
  - intros e rs w1 s1 (Hr & Hun & He). split; [done|]. split; [done|]. by apply executed_only in He.
  - intros rs l rest w1 s1 Hask El Hh1. destruct (asked_line _ _ _ _ _ _ _ _ _ _ Hask ltac:(done) El) as [-> ->].
    destruct Hask as (Hr & Hun & He%executed_only). unfold wp, ret.
    destruct (_ && _); (split; [done|]); split; done.
Qed.

(** The compare-and-swap of [LockRelease] names an item whose value is the owner's. *)
Definition releasing (owner rs : bytes) w s w' s' : Prop :=
  exists a t m it, a ∈ ms_addrs s /\ now w <= t <= now w' /\ m ⊆ ml_items (ms_net s) a /\
    liveItem m t (full s) = Some it /\ it_value it = owner /\
    executed a (McCas (full s) expiredMemcachedTimestamp [] (it_cas it)) rs w (ms_net s) w' (ms_net s').

Lemma wp_expiring mc token fail w s :
  mc_inv U w s -> holds U s mc [] -> plain s -> plainWord (bytes_of_string token) -> (forall e, (fail e).1 = false) ->
  wp (expiring mc (full s) token fail) (fun r w' s' =>
    (if r.2 then unpooled s' (mc_conn mc) else holds U s' mc []) /\
    exists rs, asked U mc (McCas (full s) expiredMemcachedTimestamp [] (bytes_of_string token)) rs w s w' s' /\
      (r.1 = (true, None) -> HasPrefix (string_of_bytes rs) "STORED" = true)) w s.
Proof.
  intros Hi Hh Hk Ht Hfail. eapply wp_exchange; [done|done|by apply parse_cas|..].
  - intros e rs w1 s1 Hask. split; [apply Hask|]. exists rs. split; [done|]. simpl. intros E. specialize (Hfail e). by rewrite E in Hfail.
  - intros rs l rest w1 s1 Hask El Hh1. destruct (asked_line _ _ _ _ _ _ _ _ _ _ Hask ltac:(done) El) as [-> ->].
    unfold wp. destruct (_ || _); [by split; [|exists rs]|]. destruct (HasPrefix _ "STORED") eqn:Ep; [by split; [|exists rs]|].
    split; [apply Hask|]. exists rs. split; [done|]. simpl. intros E.
    specialize (Hfail (ErrorString ("memcached lock release failed: " +:+ TrimSpace (string_of_bytes rs)))). by rewrite E in Hfail.
Qed.

Lemma mc_LockRelease_wp owner w s :
  mc_inv U w s -> plain s ->
  wp (mc_LockRelease ctx key owner) (fun r w' s' => mc_ran U w s w' s' /\
    (fewer (ms_net s) (ms_net s') \/ exists rs, releasing owner rs w s w' s') /\
    (r = (true, None) -> exists rs, releasing owner rs w s w' s' /\ HasPrefix (string_of_bytes rs) "STORED" = true)) w s.
Proof.
  intros Hi Hk. unfold mc_LockRelease. set (fail := fun e : error => (false, Some e)).
  apply (wp_withConn U); [done|by intros e w1 s1 Hr Hf; split; [|split; [left|]]|].
  intros mc w1 s1 Hr Hf Ha Hh. apply wp_bind. unfold wp at 1, get. pose proof (ms_prefix_ran _ _ _ _ Hr) as Ep. rewrite Ep.
  set (Q := fun (r : bool * option error * bool) w2 s2 => _).
  assert (forall r (bad : bool) w2 s2, mc_ran U w1 s1 w2 s2 -> fewer (ms_net s1) (ms_net s2) ->
    (if bad then unpooled s2 (mc_conn mc) else holds U s2 mc []) -> r <> (true, None) -> Q (r, bad) w2 s2) as Hleaf.
  { intros r bad w2 s2 Hr2 Hf2 Hrel Hne. split; [by eapply mc_ran_inv|]. split; [done|]. intros w3 s3 Hr3 Hf3.
    split; [by do 2 (eapply mc_ran_trans; [done|])|]. split; [|done]. left. by do 2 (eapply fewer_trans; [done|]). }
  eapply wp_exchange; [by eapply mc_ran_inv|done|by apply parse_gets|..].
  { intros e rs w2 s2 Hask. apply Hleaf; [apply Hask|by eapply asked_get|apply Hask|done]. }
  intros rs l rest w2 s2 Hask El Hh2.
  destruct (asked_getLine mc true _ rs w1 s1 w2 s2 l rest Hk Hask El) as (t & m & Ht & Hm & Hline).
  pose proof (asked_get _ _ _ _ _ _ _ _ _ Hk Hask) as Hf2. destruct Hask as (Hr2 & Hun2 & _).
  destruct Hline as [-> -> Hnone | it Hlive Hne HF Hlen Hdig Hcas -> | e He -> -> Hne HF].
  - rewrite decide_True by done. by apply Hleaf.
  - rewrite decide_False by done. cbv zeta. rewrite HF. cbn [valueWords app fmap list_fmap nthField nth].
    rewrite bool_decide_true by done. cbn [negb orb]. rewrite Atoi_FormatIntBytes by done.
    eapply wp_readingValue; [by eapply mc_ran_inv|done|done|..].
    { intros e w3 s3 (Hr3 & Hu3 & Hf3). apply Hleaf; [by eapply mc_ran_trans|by eapply fewer_trans|done|done]. }
    intros w3 s3 (Hr3 & Hu3 & Hf3) Hh3.
    assert (mc_ran U w1 s1 w3 s3) as Hr13 by by eapply mc_ran_trans.
    assert (fewer (ms_net s1) (ms_net s3)) as Hf13 by by eapply fewer_trans.
    assert (mc_ran U w s w3 s3) as Hr03 by by eapply mc_ran_trans.
    assert (fewer (ms_net s) (ms_net s3)) as Hf03 by by eapply fewer_trans.
    destruct (decide (it_value it = owner)) as [Eo|Eo]; [|by apply Hleaf].
    pose proof (ms_prefix_ran _ _ _ _ Hr03) as Ep3. rewrite <- Ep3 in Hk |- *.
    eapply wp_mono; [apply wp_expiring; [by eapply mc_ran_inv|done|done| |done]|].
    { rewrite bytes_of_string_of_bytes. split; [done | by apply digits_plain]. }
    rewrite bytes_of_string_of_bytes, Ep3. intros [r bad] w4 s4 (Hrel & rs' & Hask & Hst).
    split; [by eapply asked_inv|]. split; [done|]. intros w5 s5 Hr5 Hf5. destruct Hask as (Hr4 & _ & He).
    split; [by do 2 (eapply mc_ran_trans; [done|])|].
    assert (releasing owner rs' w s w5 s5) as Hrel'.
    2: { split; [right; by exists rs'|]. intros E. exists rs'. split; [done | by apply Hst]. }
    exists (mc_addr mc), t, m, it. split; [done|]. pose proof (mc_ran_now _ _ _ _ _ Hr). pose proof (mc_ran_now _ _ _ _ _ Hr3).
    pose proof (mc_ran_now _ _ _ _ _ Hr4). pose proof (mc_ran_now _ _ _ _ _ Hr5). split; [lia|].
    split; [etransitivity; [done | apply Hf]|]. split; [done|]. split; [done|].
    eapply executed_widen; [done | by eapply mc_ran_now | done | lia | done].
  - rewrite decide_False by done. cbv zeta. rewrite (bool_decide_false _ HF), orb_true_r. by apply Hleaf.
Qed.
End Keyed.

(** The operations without a key. *)
Lemma mc_Ready_wp U ctx w s :
  mc_inv U w s -> wp (mc_Ready ctx) (fun _ w' s' => mc_ran U w s w' s' /\ tried McVersion (fun _ => True) w s w' s') w s.
Proof.
  intros Hi. unfold mc_Ready. apply (wp_withConn U); [done|..].
  { intros e w1 s1 Hr Hf. split; [done|]. by apply fewer_tried. }
  intros mc w1 s1 Hr Hf Ha Hh. eapply wp_exchange; [by eapply mc_ran_inv|done|by apply parse_version|..].
  { intros e rs w2 s2 Hask. asked_done Hask. }
  intros rs l rest w2 s2 Hask El Hh2. destruct (asked_line _ _ _ _ _ _ _ _ _ _ Hask ltac:(done) El) as [-> ->].
  unfold wp. destruct (HasPrefix _ _); asked_done Hask.
Qed.

Lemma mc_Flush_wp U ctx w s :
  mc_inv U w s ->
  wp (mc_Flush ctx) (fun err w' s' => mc_ran U w s w' s' /\
    tried McFlushAll (fun rs => err = None -> HasPrefix (string_of_bytes rs) "OK" = true) w s w' s') w s.
Proof.
  intros Hi. unfold mc_Flush. apply (wp_withConn U); [done|..].
  { intros e w1 s1 Hr Hf. split; [done|]. by apply fewer_tried. }
  intros mc w1 s1 Hr Hf Ha Hh. eapply wp_exchange; [by eapply mc_ran_inv|done|by apply parse_flush|..].
  { intros e rs w2 s2 Hask. asked_done Hask. }
  intros rs l rest w2 s2 Hask El Hh2. destruct (asked_line _ _ _ _ _ _ _ _ _ _ Hask ltac:(done) El) as [-> ->].
  unfold wp. destruct (HasPrefix _ _) eqn:Ep; asked_done Hask.
Qed.

(** The counters: nested calls run while the connection is in use. *)
Lemma mc_incr_wp fuel U ctx key delta ttl (up : bool) w s :
  mc_inv U w s -> plainWord (bytes_of_string (mc_cacheKey (ms_prefix s) key)) -> in_int64 delta ->
  wp (mc_incr fuel ctx key delta ttl (if up then "incr" else "decr")) (fun r w' s' =>
    mc_ran U w s w' s' /\ only (Some (mc_cacheKey (ms_prefix s) key)) (ms_net s) (ms_net s')) w s.
Proof.
  revert U ttl w s. induction fuel as [|fuel IH]; intros U ttl w s Hi Hk Hd.
  { split; [by apply mc_ran_refl|]. apply fewer_only, fewer_refl. }
  cbn [mc_incr]. apply wp_bind. unfold wp at 1, get. set (T := mc_ttl s ttl). set (K := mc_cacheKey (ms_prefix s) key) in *.
  apply (wp_withConn U); [done|..].
  { intros e w1 s1 Hr Hf. split; [done|]. by apply fewer_only. }
  intros mc w1 s1 Hr Hf Ha Hh. set (Q := fun (r : option (Z * option error) * bool) w2 s2 => _).
  assert (forall r (bad : bool) w2 s2, mc_ran U w1 s1 w2 s2 -> only (Some K) (ms_net s1) (ms_net s2) ->
    (if bad then unpooled s2 (mc_conn mc) else holds U s2 mc []) -> Q (r, bad) w2 s2) as Hleaf.
  { intros r bad w2 s2 Hr2 Ho2 Hrel. split; [by eapply mc_ran_inv|]. split; [done|]. intros w3 s3 Hr3 Hf3.
    split; [by do 2 (eapply mc_ran_trans; [done|])|].
    eapply only_key_trans; [by apply fewer_only|]. eapply only_key_trans; [done|]. by apply fewer_only. }
  set (c := if decide (0 <= delta) then McCount up K delta else McUnknown).
  assert (forall a rs n w' n', executed a c rs w1 n w' n' -> only (Some K) n n') as Honly.
  { intros a rs n w' n' He%executed_only. unfold c in He. destruct (decide _); [done|]. intros a' k it _. by apply He. }
  eapply wp_exchange; [by eapply mc_ran_inv|done|by apply parse_count|..].
  { intros e rs w2 s2 (Hr2 & Hun & He). apply Hleaf; [done|by eapply Honly|done]. }
  intros rs l rest w2 s2 Hask El Hh2.
  destruct (asked_line _ _ _ _ _ _ _ _ _ _ Hask ltac:(by unfold c; destruct (decide _)) El) as [-> ->].
  destruct Hask as (Hr2 & Hun & He%Honly). cbv zeta.
  assert (ms_prefix s2 = ms_prefix s) as Ep by (rewrite (ms_prefix_ran _ _ _ _ _ Hr2); by eapply ms_prefix_ran).
  assert (plainWord (bytes_of_string (mc_cacheKey (ms_prefix s2) key))) as Hk2 by by rewrite Ep.
  destruct (decide (TrimSpace _ = _)) as [_|_].
  - apply wp_bind. eapply wp_mono; [apply (mc_Set_wp (inUse U mc)); [by eapply inUse_inv, Hh2; eapply mc_ran_inv|done|done]|].
    intros err w3 s3 [Hr3 Ht3%tried_only]. rewrite Ep in Ht3. destruct (inUse_ran _ _ _ _ _ _ Hr3 Hh2) as [Hr3' Hh3].
    destruct err as [e|].
    + apply Hleaf; [by eapply mc_ran_trans|by eapply only_key_trans|done].
    + assert (ms_prefix s3 = ms_prefix s) as Ep3 by (rewrite <- Ep; by eapply ms_prefix_ran).
      apply wp_bind. eapply wp_mono; [apply (IH (inUse U mc)); [by eapply mc_ran_inv|by rewrite Ep3|done]|].
      intros r w4 s4 [Hr4 Ho4]. rewrite Ep3 in Ho4. destruct (inUse_ran _ _ _ _ _ _ Hr4 Hh3) as [Hr4' Hh4].
      apply Hleaf; [by do 2 (eapply mc_ran_trans; [done|])|by do 2 (eapply only_key_trans; [done|])|done].
  - destruct (HasPrefix _ _); [by apply Hleaf|]. destruct (ParseInt _) as [val|]; [|by apply Hleaf].
    destruct (T >? 0); [|by apply Hleaf]. apply wp_bind.
    pose proof (wp_touching U key mc T val (fun e => (0, Some e)) w2 s2 ltac:(by eapply mc_ran_inv) Hh2 Hk2) as Htouch.
    rewrite Ep in Htouch. eapply wp_mono; [exact Htouch|]. intros [r bad] w3 s3 (Hr3 & Hrel & Ho3).
    apply Hleaf; [by eapply mc_ran_trans|by eapply only_key_trans|done].
Qed.
End Operations.
