(* ===== verification/MemcachedLaws.v ===== *)
(** * Theorems about the Memcached store

    What the operations of [MemcachedStore.v] guarantee over servers that keep the
    protocol, from the specifications of [MemcachedContract.v]; a network of servers
    that satisfies the laws; and the witnesses. *)

From stdpp Require Import fin_maps.
From S2P Require Import Prelude GoStd CacheCore InspectHelpers Shaping Wrapping MemcachedStore MemcachedProtocol MemcachedContract.

(** ** Programs *)

Inductive mcOp :=
| MReady (ctx : Context)
| MGet (ctx : Context) (k : string)
| MSet (ctx : Context) (k : string) (v : bytes) (ttl : Z)
| MAdd (ctx : Context) (k : string) (v : bytes) (ttl : Z)
| MLockAcquire (ctx : Context) (k : string) (owner : bytes) (ttl : Z)
| MLockRelease (ctx : Context) (k : string) (owner : bytes)
| MIncrement (ctx : Context) (k : string) (delta ttl : Z)
| MDecrement (ctx : Context) (k : string) (delta ttl : Z)
| MDelete (ctx : Context) (k : string)
| MDeleteMany (ctx : Context) (ks : list string)
| MFlush (ctx : Context).

Definition mcOpKeys (op : mcOp) : list string :=
  match op with
  | MReady _ | MFlush _ => []
  | MGet _ k | MSet _ k _ _ | MAdd _ k _ _ | MLockAcquire _ k _ _ | MLockRelease _ k _
  | MIncrement _ k _ _ | MDecrement _ k _ _ | MDelete _ k => [k]
  | MDeleteMany _ ks => ks
  end.

(** The keys an operation may write. *)
Definition mcOpWrites (op : mcOp) : list string := match op with MGet _ _ => [] | _ => mcOpKeys op end.

(** What Go's types guarantee of the other arguments. *)
Definition mcOpTyped (op : mcOp) : Prop :=
  match op with
  | MSet _ _ v _ | MAdd _ _ v _ | MLockAcquire _ _ v _ => len v <= int64_max
  | MIncrement _ _ delta _ | MDecrement _ _ delta _ => in_int64 delta
  | _ => True
  end.

(** Keys that are plain words under a prefix: at least one character, ASCII, and
    no white space. *)
Definition plainKey (prefix key : string) : Prop := plainWord (bytes_of_string (mc_cacheKey prefix key)).

Section Programs.
Context {N : Type} `{McLaws N}.
#[local] Abbreviation store := (mcStore N).
Implicit Types (s : store) (n : N).

Definition discarding {A} (m : M store A) : M store unit := m ;; ret tt.

Definition runMcOp (op : mcOp) : M store unit :=
  match op with
  | MReady ctx => discarding (mc_Ready ctx)
  | MGet ctx k => discarding (mc_Get ctx k)
  | MSet ctx k v ttl => discarding (mc_Set ctx k v ttl)
  | MAdd ctx k v ttl => discarding (mc_Add ctx k v ttl)
  | MLockAcquire ctx k owner ttl => discarding (mc_LockAcquire ctx k owner ttl)
  | MLockRelease ctx k owner => discarding (mc_LockRelease ctx k owner)
  | MIncrement ctx k delta ttl => discarding (mc_Increment ctx k delta ttl)
  | MDecrement ctx k delta ttl => discarding (mc_Decrement ctx k delta ttl)
  | MDelete ctx k => discarding (mc_Delete ctx k)
  | MDeleteMany ctx ks => discarding (mc_DeleteMany ctx ks)
  | MFlush ctx => discarding (mc_Flush ctx)
  end.

Definition runMcOps : list mcOp -> M store unit := forEach runMcOp.

(** No connection is in use between two calls. *)
Definition idle (_ : nat) : Prop := False.

Lemma idle_inv w s : world_ok w -> mc_ok s -> mc_inv idle w s.
Proof. by intros. Qed.

(** The servers hold nothing new under keys outside [ks]. *)
Definition wrote (ks : list string) s s' : Prop :=
  forall k a it, k ∉ ks -> ml_items (ms_net s') a !! mc_cacheKey (ms_prefix s) k = Some it ->
    ml_items (ms_net s) a !! mc_cacheKey (ms_prefix s) k = Some it.

#[local] Instance mc_cacheKey_inj p : Inj (=) (=) (mc_cacheKey p).
Proof.
  intros a b. unfold mc_cacheKey. destruct (decide _); [done|]. intros E.
  rewrite !(string_app_assoc p ":") in E. by apply (inj (String.append _)) in E.
Qed.

Lemma only_wrote k s s' : only (Some (mc_cacheKey (ms_prefix s) k)) (ms_net s) (ms_net s') -> wrote [k] s s'.
Proof.
  intros Ho k' a it Hk E. eapply Ho; [|done]. intros [= ->%(inj (mc_cacheKey _))]. apply Hk. by apply elem_of_cons; left.
Qed.

Lemma quiet_wrote ks s s' : only None (ms_net s) (ms_net s') -> wrote ks s s'.
Proof. intros Ho k a it _ E. by eapply Ho. Qed.

Lemma wrote_trans ks ks' s1 s2 s3 :
  ms_prefix s2 = ms_prefix s1 -> wrote ks s1 s2 -> wrote ks' s2 s3 -> wrote (ks ++ ks') s1 s3.
Proof.
  intros Ep H1 H2 k a it Hk E. rewrite not_elem_of_app in Hk. destruct Hk. unfold wrote in H2. rewrite Ep in H2. eauto.
Qed.

(** An operation as a program sees it. *)
Definition opDone (ks : list string) w s w' s' : Prop := mc_ran idle w s w' s' /\ wrote ks s s'.

Lemma wp_discarding {A} (m : M store A) ks P w s :
  wp m P w s -> (forall a w' s', P a w' s' -> opDone ks w s w' s') -> wp (discarding m) (fun _ => opDone ks w s) w s.
Proof. intros Hm HP. apply wp_bind. by eapply wp_mono. Qed.

Lemma counting_wp ctx k delta ttl (up : bool) w s :
  mc_inv idle w s -> plainKey (ms_prefix s) k -> in_int64 delta ->
  wp (counting (if up then "incr" else "decr") ctx k delta ttl) (fun _ w' s' =>
    mc_ran idle w s w' s' /\ only (Some (mc_cacheKey (ms_prefix s) k)) (ms_net s) (ms_net s')) w s.
Proof. intros. unfold counting. apply wp_bind. eapply wp_mono; [by apply mc_incr_wp|]. by intros. Qed.

Lemma mc_Increment_wp ctx k delta ttl w s :
  mc_inv idle w s -> plainKey (ms_prefix s) k -> in_int64 delta ->
  wp (mc_Increment ctx k delta ttl) (fun _ w' s' =>
    mc_ran idle w s w' s' /\ only (Some (mc_cacheKey (ms_prefix s) k)) (ms_net s) (ms_net s')) w s.
Proof.
  intros Hi Hk Hd. unfold mc_Increment, mc_decrement.
  destruct (delta <? 0); [apply (counting_wp _ _ _ _ false)|apply (counting_wp _ _ _ _ true)]; try done. apply wrap64_range.
Qed.

Lemma mc_Decrement_wp ctx k delta ttl w s :
  mc_inv idle w s -> plainKey (ms_prefix s) k -> in_int64 delta ->
  wp (mc_Decrement ctx k delta ttl) (fun _ w' s' =>
    mc_ran idle w s w' s' /\ only (Some (mc_cacheKey (ms_prefix s) k)) (ms_net s) (ms_net s')) w s.
Proof.
  intros Hi Hk Hd. unfold mc_Decrement.
  destruct (delta <? 0); [apply mc_Increment_wp | apply (counting_wp _ _ _ _ false)]; try done. apply wrap64_range.
Qed.

Lemma mc_DeleteMany_wp ctx ks w s :
  mc_inv idle w s -> Forall (plainKey (ms_prefix s)) ks ->
  wp (mc_DeleteMany ctx ks) (fun _ w' s' => opDone ks w s w' s') w s.
Proof.
  revert w s. induction ks as [|k ks IH]; intros w s Hi Hks.
  { split; [by apply mc_ran_refl|]. by intros k a it. }
  apply Forall_cons_1 in Hks as [Hk Hks]. unfold mc_DeleteMany. cbn [forErr]. apply wp_bind.
  eapply wp_mono; [by apply mc_Delete_wp|]. intros err w1 s1 [Hr Ht%tried_only]. apply only_wrote in Ht.
  pose proof (ms_prefix_ran _ _ _ _ _ Hr) as Ep. destruct err as [e|].
  - split; [done|]. intros k' a it Hin E. eapply Ht; [|done]. intros ->%list_elem_of_singleton. apply Hin. by left.
  - eapply wp_mono; [apply IH; [by eapply mc_ran_inv | by rewrite Ep]|]. intros _ w2 s2 [Hr2 Hw2].
    split; [by eapply mc_ran_trans|]. by apply (wrote_trans [k] ks s s1).
Qed.

Lemma runMcOp_wp op w s :
  mc_inv idle w s -> Forall (plainKey (ms_prefix s)) (mcOpKeys op) -> mcOpTyped op ->
  wp (runMcOp op) (fun _ => opDone (mcOpWrites op) w s) w s.
Proof.
  intros Hi Hk Ht.
  destruct op as [ctx|ctx k|ctx k v ttl|ctx k v ttl|ctx k v ttl|ctx k v|ctx k d ttl|ctx k d ttl|ctx k|ctx ks|ctx];
    simpl in Hk, Ht; try apply Forall_cons_1 in Hk as [Hk _].
  - eapply wp_discarding; [by apply mc_Ready_wp|]. intros a w' s' [Hr Ho%tried_only]. split; [done|]. by apply quiet_wrote.
  - eapply wp_discarding; [by apply mc_Get_wp|]. intros a w' s' (Hr & Hf & _). split; [done|]. by apply quiet_wrote, fewer_only.
  - eapply wp_discarding; [by apply mc_Set_wp|]. intros a w' s' [Hr Ho%tried_only]. split; [done|]. by apply only_wrote.
  - eapply wp_discarding; [by apply mc_Add_wp|]. intros a w' s' [Hr Ho%tried_only]. split; [done|]. by apply only_wrote.
  - eapply wp_discarding; [by apply mc_Add_wp|]. intros a w' s' [Hr Ho%tried_only]. split; [done|]. by apply only_wrote.
  - eapply wp_discarding; [by apply mc_LockRelease_wp|].
    intros a w' s' (Hr & [Hf|(rs & ? & t & m & it & _ & _ & _ & _ & _ & He%executed_only)] & _); (split; [done|]);
      apply only_wrote; [by apply fewer_only|done].
  - eapply wp_discarding; [by apply mc_Increment_wp|]. intros a w' s' [Hr Ho]. split; [done|]. by apply only_wrote.
  - eapply wp_discarding; [by apply mc_Decrement_wp|]. intros a w' s' [Hr Ho]. split; [done|]. by apply only_wrote.
  - eapply wp_discarding; [by apply mc_Delete_wp|]. intros a w' s' [Hr Ho%tried_only]. split; [done|]. by apply only_wrote.
  - eapply wp_discarding; [by apply mc_DeleteMany_wp|]. by intros a w' s'.
  - eapply wp_discarding; [by apply mc_Flush_wp|]. intros a w' s' [Hr Ho%tried_only]. split; [done|]. by apply quiet_wrote.
Qed.

Lemma runMcOps_wp ops w s :
  mc_inv idle w s -> Forall (fun op => Forall (plainKey (ms_prefix s)) (mcOpKeys op) /\ mcOpTyped op) ops ->
  wp (runMcOps ops) (fun _ => opDone (ops ≫= mcOpWrites) w s) w s.
Proof.
  revert w s. induction ops as [|op ops IH]; intros w s Hi Hops.
  { split; [by apply mc_ran_refl|]. by intros k a it. }
  apply Forall_cons_1 in Hops as [[Hk Ht] Hops]. unfold runMcOps. cbn [forEach]. apply wp_bind.
  eapply wp_mono; [by apply runMcOp_wp|]. intros _ w1 s1 [Hr Hw1]. pose proof (ms_prefix_ran _ _ _ _ _ Hr) as Ep.
  eapply wp_mono; [apply IH; [by eapply mc_ran_inv | by rewrite Ep]|]. intros _ w2 s2 [Hr2 Hw2].
  split; [by eapply mc_ran_trans|]. cbn [mbind list_bind]. by eapply (wrote_trans _ _ s s1).
Qed.

(** C26: framing.  After any sequence of operations on plain keys, whatever failed on
    the way, every pooled connection leads to the server of its pool, is pooled
    once, has no unread part of a reply and no unfinished request: no operation ever
    reads the reply to another one. *)
Theorem mc_pool_in_sync ops w s u w' s' :
  world_ok w -> mc_ok s ->
  Forall (fun op => Forall (plainKey (ms_prefix s)) (mcOpKeys op) /\ mcOpTyped op) ops ->
  runMcOps ops w s = (u, w', s') ->
  forall a pool, ms_pools s' !! a = Some pool ->
    NoDup (mc_conn <$> pool) /\
    Forall (fun mc => mc_addr mc = a /\ ml_peer (ms_net s') (mc_conn mc) = Some a /\
      nc_incoming (ms_net s') (mc_conn mc) = [] /\ ml_sent (ms_net s') (mc_conn mc) = []) pool.
Proof.
  intros Hw Hs Hops E a pool Hpool. pose proof (wp_run _ _ _ _ _ _ _ (runMcOps_wp ops w s (idle_inv w s Hw Hs) Hops) E) as [Hr _].
  apply mc_ran_inv in Hr as (_ & (_ & Hp) & _). destruct (Hp a pool Hpool) as [Hnd Hf]. split; [done|].
  eapply list.Forall_impl; [exact Hf|]. intros mc (? & ? & ? & ?%prefix_nil_inv). done.
Qed.

(** *** One server *)

Lemma liveItem_weaken m m' t k it : m ⊆ m' -> liveItem m t k = Some it -> liveItem m' t k = Some it.
Proof.
  unfold liveItem. intros Hm. destruct (m !! k) as [it'|] eqn:E; [|done]. by rewrite (lookup_weaken _ _ _ _ E Hm).
Qed.

Lemma liveItem_lookup m t k it : liveItem m t k = Some it -> m !! k = Some it /\ alive t it = true.
Proof. unfold liveItem. destruct (m !! k) as [it'|]; [|done]. destruct (alive t it') eqn:E; [|done]. by intros [= ->]. Qed.

(** A reply that starts with STORED to a storage command. *)
Lemma stored_inv t m adding k secs v rs m' :
  mcReplies t m (McStore adding k secs v) rs m' -> HasPrefix (string_of_bytes rs) "STORED" = true ->
  exists u, m' = <[k := mkMcItem v 0 (expiry t secs) u]> m.
Proof.
  intros Hr Hp. inversion Hr; subst; try (eexists; reflexivity); exfalso; revert Hp; unfold reply; rewrite ?bytes_of_string_app;
    by vm_compute.
Qed.

(** The item a successful [Set] leaves, if it is not evicted. *)
Lemma set_item v secs k P w s w' s' a it :
  tried (McStore false k secs v) P w s w' s' -> ms_addrs s = [a] ->
  (forall rs, P rs -> HasPrefix (string_of_bytes rs) "STORED" = true) -> ml_items (ms_net s') a !! k = Some it ->
  it_value it = v /\ exists t, now w <= t <= now w' /\ it_expires it = expiry t secs.
Proof.
  intros (a' & rs & [_ He] & Ha & HP) Ea Hst E. apply Hst in HP.
  destruct He as [[-> _]|(t & m & m' & Ht & Hm & Hr & Hm')]; [done|].
  destruct Ha as [->|Ha]; [done|]. rewrite Ea in Ha. apply list_elem_of_singleton in Ha as ->.
  apply stored_inv in Hr as (u & ->); [|done]. eapply lookup_weaken in E; [|done].
  rewrite lookup_insert_eq in E. injection E as <-. eauto.
Qed.


(** A lifetime of more than 30 days is none.  The server takes the number of
    seconds for a Unix time, which has passed: [Set] succeeds and the value is never
    found. *)
Theorem mc_Set_beyond_month a ctx k v ttl w s w' s' :
  world_ok w -> mc_ok s -> ms_addrs s = [a] -> plainKey (ms_prefix s) k -> len v <= int64_max ->
  30 * 24 * 60 * 60 < mc_seconds (mc_ttl s ttl) -> mc_seconds (mc_ttl s ttl) * Second <= now w ->
  mc_Set ctx k v ttl w s = (None, w', s') ->
  forall t, now w' <= t -> liveItem (ml_items (ms_net s') a) t (mc_cacheKey (ms_prefix s) k) = None.
Proof.
  intros Hw Hs Ha Hk Hv Hlong Hpast E t Ht.
  pose proof (wp_run _ _ _ _ _ _ _ (mc_Set_wp idle ctx k v ttl w s (idle_inv _ _ Hw Hs) Hk Hv) E) as [Hr Htry].
  destruct (liveItem _ _ _) as [it|] eqn:El; [exfalso|done]. apply liveItem_lookup in El as [El Hal].
  eapply set_item in El as [_ (t0 & Ht0 & Eexp)]; [|exact Htry|done|by intros; auto].
  apply mc_ran_now in Hr. unfold alive in Hal. rewrite Eexp in Hal. unfold expiry in Hal.
  rewrite (proj2 (Z.eqb_neq _ _)) in Hal by lia. rewrite (proj2 (Z.leb_gt _ _)) in Hal by lia. apply Z.ltb_lt in Hal. lia.
Qed.

(** *** Locks *)

Lemma swapped_inv t m k secs v token rs m' :
  mcReplies t m (McCas k secs v token) rs m' -> HasPrefix (string_of_bytes rs) "STORED" = true ->
  exists u, m' = <[k := mkMcItem v 0 (expiry t secs) u]> m.
Proof.
  intros Hr Hp. inversion Hr; subst; try (eexists; reflexivity); exfalso; revert Hp; unfold reply; rewrite ?bytes_of_string_app;
    by vm_compute.
Qed.

(** A release removes only the caller's lock.  When [LockRelease] reports true,
    the server held the caller's token during the call, and the lock is not visible
    afterwards; and whatever it reports, an item with another value stays or is
    evicted, but is never replaced. *)
Theorem mc_LockRelease_owner ctx k owner w s ok err w' s' :
  world_ok w -> mc_ok s -> plainKey (ms_prefix s) k -> expiredMemcachedTimestamp * Second <= now w ->
  mc_LockRelease ctx k owner w s = ((ok, err), w', s') ->
  let K := mc_cacheKey (ms_prefix s) k in
  (ok = true -> err = None -> exists a t it, a ∈ ms_addrs s /\ now w <= t <= now w' /\
     liveItem (ml_items (ms_net s) a) t K = Some it /\ it_value it = owner /\
     forall t', now w' <= t' -> liveItem (ml_items (ms_net s') a) t' K = None) /\
  (forall a it it', ml_items (ms_net s) a !! K = Some it -> it_value it <> owner ->
     ml_items (ms_net s') a !! K = Some it' -> it' = it).
Proof.
  intros Hw Hs Hk Hnow E K. subst K.
  pose proof (wp_run _ _ _ _ _ _ _ (mc_LockRelease_wp idle ctx k owner w s (idle_inv _ _ Hw Hs) Hk) E) as (Hr & Heff & Hok).
  apply mc_ran_now in Hr. split.
  - intros -> ->. destruct (Hok eq_refl) as (rs & (a & t & m & it & Ha & Ht & Hm & Hlive & Hv & [_ He]) & Hst).
    exists a, t, it. split; [done|]. split; [done|]. split; [by eapply liveItem_weaken|]. split; [done|].
    intros t' Ht'. destruct He as [[-> _]|(t2 & m2 & m2' & Ht2 & Hm2 & Hrep & Hm2')]; [done|].
    apply swapped_inv in Hrep as (u & ->); [|done].
    destruct (liveItem _ t' _) as [it'|] eqn:El; [exfalso|done]. apply liveItem_lookup in El as [El Hal].
    pose proof (lookup_weaken _ _ _ _ El Hm2') as El2. rewrite lookup_insert_eq in El2. injection El2 as <-.
    unfold alive in Hal. simpl in Hal. apply Z.ltb_lt in Hal. unfold expiredMemcachedTimestamp, Second in *. lia.
  - intros a it it' Eit Hne Eit'. destruct Heff as [Hf|(rs & a' & t & m & it0 & _ & _ & Hm & Hlive & Hv & He)].
    { specialize (Hf a). eapply lookup_weaken in Eit'; [|done]. congruence. }
    destruct (decide (a = a')) as [->|Ha].
    + apply liveItem_lookup in Hlive as [Hl0 _]. eapply lookup_weaken in Hl0; [|done]. congruence.
    + destruct He as [Ho _]. eapply lookup_weaken in Eit'; [|by apply Ho]. congruence.
Qed.
End Programs.

(** ** A network of servers *)

(** Servers that execute every request at once, evict nothing and are always
    reached. *)
Module McCluster.
Record conn := mkConn { c_peer : string; c_sent : bytes; c_in : bytes }.
Record net := mkNet { n_conn : nat -> option conn; n_next : nat; n_items : string -> mcItems; n_cas : nat }.

Definition token (j : nat) : bytes := replicate (Datatypes.S j) x31.
Definition maxItem : Z := 1048576.

Definition serve (t : Z) (cas : nat) (c : mcCommand) (m : mcItems) : bytes * mcItems :=
  let put k v secs := (reply "STORED", <[k := mkMcItem v 0 (expiry t secs) (token cas)]> m) in
  let tooLarge := (reply ("SERVER_ERROR" +:+ " object too large for cache"), m) in
  match c with
  | McVersion => (reply ("VERSION " +:+ "1.6.31"), m)
  | McGet withCas k => match liveItem m t k with None => (reply "END", m) | Some it => (valueReply withCas k it, m) end
  | McStore adding k secs v =>
      if decide (maxItem < len v) then tooLarge
      else if adding then match liveItem m t k with None => put k v secs | Some _ => (reply "NOT_STORED", m) end
      else put k v secs
  | McCas k secs v u =>
      if decide (maxItem < len v) then tooLarge
      else match liveItem m t k with
           | None => (reply "NOT_FOUND", m)
           | Some it => if decide (u = it_cas it) then put k v secs else (reply "EXISTS", m)
           end
  | McCount up k delta =>
      match liveItem m t k with
      | None => (reply "NOT_FOUND", m)
      | Some it =>
          match counterOf (it_value it) with
          | None => (reply ("CLIENT_ERROR" +:+ " cannot increment or decrement non-numeric value"), m)
          | Some n =>
              let n' := if up : bool then (n + delta) mod uint64_mod else Z.max 0 (n - delta) in
              (reply (FormatInt n'), <[k := mkMcItem (FormatIntBytes n') (it_flags it) (it_expires it) (token cas)]> m)
          end
      end
  | McTouch k secs =>
      match liveItem m t k with
      | None => (reply "NOT_FOUND", m)
      | Some it => (reply "TOUCHED", <[k := mkMcItem (it_value it) (it_flags it) (expiry t secs) (token cas)]> m)
      end
  | McDelete k =>
      match liveItem m t k with None => (reply "NOT_FOUND", m) | Some _ => (reply "DELETED", base.delete k m) end
  | McFlushAll => (reply "OK", ∅)
  | McUnknown => (reply ("ERROR" +:+ EmptyString), m)
  end.

(** All requests in [text]: the replies, what is left of the text, and the items. *)
Fixpoint serveAll (fuel : nat) (t : Z) (cas : nat) (text : bytes) (m : mcItems) : bytes * bytes * mcItems * nat :=
  match fuel with
  | O => ([], text, m, cas)
  | Datatypes.S fuel' =>
      match parseRequest text with
      | None => ([], text, m, cas)
      | Some (c, rest) =>
          let '(rs, m1) := serve t cas c m in
          let '(more, rem, m2, cas2) := serveAll fuel' t (Datatypes.S cas) rest m1 in
          (rs ++ more, rem, m2, cas2)
      end
  end.

Definition setConn (id : nat) (c : option conn) (n : net) : net :=
  mkNet (fun id' => if decide (id' = id) then c else n_conn n id') (n_next n) (n_items n) (n_cas n).

Definition Dial (_ : Context) (addr : string) : M net (nat + error) := fun w n =>
  (inl (n_next n), w,
   mkNet (fun id => if decide (id = n_next n) then Some (mkConn addr [] []) else n_conn n id)
     (Datatypes.S (n_next n)) (n_items n) (n_cas n)).

Definition Write (id : nat) (b : bytes) : M net (option error) := fun w n =>
  match n_conn n id with
  | None => (Some (ErrorString "use of closed network connection"), w, n)
  | Some c =>
      let text := c_sent c ++ b in
      let '(rs, rem, m, cas) := serveAll (Datatypes.S (length text)) (now w) (n_cas n) text (n_items n (c_peer c)) in
      (None, w,
       mkNet (fun id' => if decide (id' = id) then Some (mkConn (c_peer c) rem (c_in c ++ rs)) else n_conn n id')
         (n_next n) (fun a => if decide (a = c_peer c) then m else n_items n a) cas)
  end.

Definition Close (id : nat) : M net unit := fun w n => (tt, w, setConn id None n).

Definition incoming (n : net) (id : nat) : bytes := match n_conn n id with Some c => c_in c | None => [] end.

Definition consume (id size : nat) : M net unit := fun w n =>
  (tt, w, match n_conn n id with
          | Some c => setConn id (Some (mkConn (c_peer c) (c_sent c) (drop size (c_in c)))) n
          | None => n
          end).

#[export] Instance cluster : McNet net := {|
  nc_Dial := Dial; nc_Write := Write; nc_Close := Close; nc_incoming := incoming;
  nc_readError := fun _ _ => ErrorString "EOF"; nc_consume := consume; nc_stack := 100
|}.

(** *** Its laws *)

Definition itemsOk (cas : nat) (m : mcItems) : Prop :=
  forall (k : string) it, m !! k = Some it ->
    0 <= it_flags it < 2 ^ 32 /\ len (it_value it) <= int64_max /\ exists j, (j < cas)%nat /\ it_cas it = token j.

Definition netOk (n : net) : Prop :=
  (forall id, (n_next n <= id)%nat -> n_conn n id = None) /\ forall a, itemsOk (n_cas n) (n_items n a).

Lemma formatDigits_length fuel z acc : (length (formatDigits fuel z acc) <= fuel + length acc)%nat.
Proof.
  revert z acc. induction fuel as [|f IH]; intros z acc; [done|]. cbn [formatDigits].
  destruct (z <? 10); [simpl; lia|]. etransitivity; [apply IH|]. simpl. lia.
Qed.

Lemma FormatIntBytes_length z : len (FormatIntBytes z) <= int64_max.
Proof.
  unfold FormatIntBytes, len, int64_max. destruct (z <? 0); cbn [length].
  - pose proof (formatDigits_length 20 (- z) []) as Hl. cbn [length] in Hl. lia.
  - pose proof (formatDigits_length 20 z []) as Hl. cbn [length] in Hl. lia.
Qed.

Lemma token_new cas m : itemsOk cas m -> newCas m (token cas).
Proof.
  intros Hm k it E E'. destruct (Hm k it E) as (_ & _ & j & Hj & Ej). rewrite Ej in E'.
  apply (f_equal length) in E'. unfold token in E'. rewrite !length_replicate in E'. lia.
Qed.

Lemma itemsOk_insert cas m k v flags x :
  itemsOk cas m -> 0 <= flags < 2 ^ 32 -> len v <= int64_max ->
  itemsOk (Datatypes.S cas) (<[k := mkMcItem v flags x (token cas)]> m).
Proof.
  intros Hm Hf Hv k' it E. apply lookup_insert_Some in E as [[<- <-]|[_ E]].
  - split; [done|]. split; [done|]. exists cas. split; [lia|done].
  - destruct (Hm k' it E) as (? & ? & j & ? & ?). split; [done|]. split; [done|]. exists j. split; [lia|done].
Qed.

Lemma itemsOk_sub cas m m' : itemsOk cas m -> m' ⊆ m -> itemsOk (Datatypes.S cas) m'.
Proof.
  intros Hm Hs k it E. destruct (Hm k it) as (? & ? & j & ? & ?); [by eapply lookup_weaken|].
  split; [done|]. split; [done|]. exists j. split; [lia|done].
Qed.

Lemma token_digits j : forallb isDigit (token j) = true.
Proof. unfold token. apply forallb_forall. intros c Hc. apply list_elem_of_In, elem_of_replicate in Hc as [-> _]. done. Qed.

Lemma serve_replies t cas c m :
  itemsOk cas m -> mcReplies t m c (serve t cas c m).1 (serve t cas c m).2 /\ itemsOk (Datatypes.S cas) (serve t cas c m).2.
Proof.
  intros Hm. pose proof (token_new cas m Hm) as Hnew. pose proof (itemsOk_sub cas m m Hm ltac:(done)) as Hm'.
  assert (forall (k : string) it, liveItem m t k = Some it -> 0 <= it_flags it < 2 ^ 32 /\ len (it_value it) <= int64_max /\
    exists j, it_cas it = token j) as Hit.
  { intros k it (E & _)%liveItem_lookup. destruct (Hm k it E) as (? & ? & j & _ & ?). eauto. }
  destruct c as [|withCas k|adding k secs v|k secs v u|up k delta|k secs|k| |]; cbn [serve].
  - split; [by constructor|done].
  - destruct (liveItem m t k) as [it|] eqn:E; (split; [|done]); [|by constructor].
    destruct (Hit k it E) as (? & ? & j & Ej). constructor; try done; rewrite Ej; [done | apply token_digits].
  - destruct (decide _) as [|Hv]; [split; [by apply (reply_server_error _ _ _ " object too large for cache")|done]|].
    assert (len v <= int64_max) by (unfold maxItem, int64_max in *; lia).
    destruct adding; [destruct (liveItem m t k) as [it|] eqn:E; [split; [by econstructor|done]|]|];
      (split; [by constructor|by apply itemsOk_insert]).
  - destruct (decide _) as [|Hv]; [split; [by apply (reply_server_error _ _ _ " object too large for cache")|done]|].
    assert (len v <= int64_max) by (unfold maxItem, int64_max in *; lia).
    destruct (liveItem m t k) as [it|] eqn:E; [|split; [by constructor|done]].
    destruct (decide _) as [->|]; [|split; [by econstructor|done]].
    split; [by econstructor|by apply itemsOk_insert].
  - destruct (liveItem m t k) as [it|] eqn:E; [|split; [by constructor|done]].
    destruct (counterOf _) as [n|] eqn:En.
    2:{ split; [by apply (reply_client_error _ _ _ " cannot increment or decrement non-numeric value")|done]. }
    split; [|apply itemsOk_insert; [done|by eapply Hit|apply FormatIntBytes_length]].
    pose proof (reply_counted t m up k delta it n (token cas) 0 E En Hnew) as Hr. simpl in Hr. by rewrite app_nil_r in Hr.
  - destruct (liveItem m t k) as [it|] eqn:E; [|split; [by constructor|done]].
    split; [by econstructor|]. apply itemsOk_insert; [done|by eapply Hit..].
  - destruct (liveItem m t k) as [it|] eqn:E; [|split; [by constructor|done]].
    split; [by econstructor|]. eapply itemsOk_sub; [done|]. apply delete_subseteq.
  - split; [by constructor|]. eapply itemsOk_sub; [done|]. apply map_empty_subseteq.
  - split; [by apply (reply_error _ _ _ EmptyString)|done].
Qed.

(** A write that leaves a request unfinished, and one that completes it. *)
Lemma Write_partial id b w n c :
  n_conn n id = Some c -> parseRequest (c_sent c ++ b) = None ->
  Write id b w n =
  (None, w, mkNet (fun id' => if decide (id' = id) then Some (mkConn (c_peer c) (c_sent c ++ b) (c_in c ++ [])) else n_conn n id')
     (n_next n) (fun a => if decide (a = c_peer c) then n_items n (c_peer c) else n_items n a) (n_cas n)).
Proof. intros E Hp. unfold Write. rewrite E. cbn [serveAll]. by rewrite Hp. Qed.

Lemma Write_request id b w n c cmd :
  n_conn n id = Some c -> parseRequest (c_sent c ++ b) = Some (cmd, []) ->
  let '(rs, m) := serve (now w) (n_cas n) cmd (n_items n (c_peer c)) in
  Write id b w n =
  (None, w, mkNet (fun id' => if decide (id' = id) then Some (mkConn (c_peer c) [] (c_in c ++ rs)) else n_conn n id')
     (n_next n) (fun a => if decide (a = c_peer c) then m else n_items n a) (Datatypes.S (n_cas n))).
Proof.
  intros E Hp. destruct (serve _ _ _ _) as [rs m] eqn:Es. unfold Write. rewrite E. cbn [serveAll]. rewrite Hp, Es.
  assert (serveAll (length (c_sent c ++ b)) (now w) (Datatypes.S (n_cas n)) [] m = ([], [], m, Datatypes.S (n_cas n))) as ->
    by by destruct (length _).
  rewrite (app_nil_r rs). done.
Qed.

Lemma items_kept (n : net) p a : (if decide (a = p) then n_items n p else n_items n a) = n_items n a.
Proof. by destruct (decide (a = p)) as [->|]. Qed.

#[export] Program Instance laws : McLaws net := {|
  ml_ok := netOk;
  ml_peer := fun n id => c_peer <$> n_conn n id;
  ml_sent := fun n id => match n_conn n id with Some c => c_sent c | None => [] end;
  ml_items := n_items
|}.
Next Obligation.
  intros ctx addr w n r w' n' Hw [Hf Hi] [= <- <- <-]. split; [by apply later_refl|]. split.
  { split; [|done]. intros id Hid. simpl in *. rewrite decide_False by lia. apply Hf. lia. }
  split; [done|]. split; simpl.
  - intros id Hne. rewrite !decide_False by congruence. simpl. unfold incoming. simpl. by rewrite decide_False by congruence.
  - rewrite Hf by lia. simpl. unfold incoming. simpl. by rewrite !decide_True by done.
Qed.
Next Obligation.
  intros id w n u w' n' Hw [Hf Hi] [= <- <- <-]. split; [by apply later_refl|]. split.
  { split; [|done]. intros id' Hid. simpl in *. destruct (decide _); [done|]. by apply Hf. }
  split; [done|]. intros id' Hne. simpl. unfold incoming. simpl. by rewrite !decide_False by done.
Qed.
Next Obligation.
  intros id size w n u w' n' Hw [Hf Hi] [= <- <- <-]. split; [by apply later_refl|].
  destruct (n_conn n id) as [c|] eqn:E.
  - split.
    { split; [|done]. intros id' Hid. simpl in *. destruct (decide _) as [->|]; [|by apply Hf]. by rewrite Hf in E. }
    split; [done|]. split.
    + intros id' Hne. simpl. unfold incoming. simpl. by rewrite !decide_False by done.
    + simpl. unfold incoming. simpl. rewrite !decide_True by done. simpl. by rewrite E.
  - split; [done|]. split; [done|]. split; [done|]. simpl. unfold incoming. rewrite E. by destruct size.
Qed.
Next Obligation.
  intros id b w n a err w' n' Hw [Hf Hi] Hpeer Hin Hp E. destruct (n_conn n id) as [c|] eqn:Ec; [|done].
  simpl in Hpeer. injection Hpeer as <-. unfold nc_incoming in Hin; simpl in Hin. unfold incoming in Hin. rewrite Ec in Hin.
  simpl in E. rewrite (Write_partial _ _ _ _ _ Ec Hp) in E. injection E as <- <- <-.
  split; [by apply later_refl|]. split.
  { split; [|by intros a'; simpl; rewrite items_kept]. intros id' Hid. simpl in *. destruct (decide _) as [->|]; [|by apply Hf]. by rewrite Hf in Ec. }
  split; [intros a'; simpl; by rewrite items_kept|]. split.
  - intros id' Hne. simpl. unfold incoming. simpl. by rewrite !decide_False by done.
  - intros _. simpl. unfold incoming. simpl. rewrite !decide_True by done. simpl. by rewrite Hin.
Qed.
Next Obligation.
  intros id b c w n a err w' n' Hw [Hf Hi] Hpeer Hin Hp E. destruct (n_conn n id) as [cn|] eqn:Ec; [|done].
  simpl in Hpeer. injection Hpeer as <-. unfold nc_incoming in Hin; simpl in Hin. unfold incoming in Hin. rewrite Ec in Hin.
  simpl in E. pose proof (Write_request _ _ w _ _ _ Ec Hp) as Ew. pose proof (serve_replies (now w) _ c _ (Hi (c_peer cn))) as [Hr Hi'].
  destruct (serve _ _ _ _) as [rs m]. rewrite Ew in E. injection E as <- <- <-. cbn [fst snd] in *.
  split; [by apply later_refl|]. split.
  { split.
    - intros id' Hid. simpl in *. destruct (decide _) as [->|]; [|by apply Hf]. by rewrite Hf in Ec.
    - intros a'. simpl. destruct (decide _); [done|]. by eapply itemsOk_sub. }
  split; [intros a' Ha; simpl; by rewrite decide_False by done|]. split.
  - intros id' Hne. simpl. unfold incoming. simpl. by rewrite !decide_False by done.
  - exists rs. split.
    + right. exists (now w), (n_items n (c_peer cn)), m. split; [lia|]. split; [done|]. split; [done|]. simpl. by rewrite decide_True.
    + intros _. simpl. unfold incoming. simpl. rewrite !decide_True by done. simpl. by rewrite Hin.
Qed.
End McCluster.

(** ** Two servers *)

Section TwoServers.
Import McCluster.
Implicit Types (s : mcStore net) (n : net).

Definition serverA : string := "10.0.0.1:11211".
Definition serverB : string := "10.0.0.2:11211".

(** The connection [id] has been used for a request that changed the items of its
    server to [m]. *)
Definition served n n' (id : nat) (p : string) (m : mcItems) : Prop :=
  n_conn n' id = Some (mkConn p [] []) /\ (forall id', id' <> id -> n_conn n' id' = n_conn n id') /\
  n_next n' = n_next n /\ n_items n' p = m /\ forall a, a <> p -> n_items n' a = n_items n a.

Lemma say_line {A} mc sent text c (fail : error -> A) k w s p x m :
  n_conn (ms_net s) (mc_conn mc) = Some (mkConn p sent []) -> parseRequest (sent ++ text) = Some (c, []) ->
  serve (now w) (n_cas (ms_net s)) c (n_items (ms_net s) p) = (reply x, m) -> oneLine (word x) = true ->
  exists n', served (ms_net s) n' (mc_conn mc) p m /\
    writing mc text fail (readingLine mc fail k) w s = k (string_of_bytes (reply x)) w (withNet n' s).
Proof.
  intros Ec Hp Es Hx. pose proof (Write_request _ text w _ _ c Ec Hp) as Ew. cbn [c_peer] in Ew. rewrite Es in Ew.
  unfold writing, readingLine, onNet, ReadString. go_simpl. cbn [nc_Write cluster]. rewrite Ew. cbn [ms_net withNet].
  cbn [nc_incoming cluster]. unfold incoming at 1. cbn [n_conn]. rewrite decide_True by done. cbn [c_in app].
  rewrite (reply_line x Hx). cbn [nc_consume cluster]. unfold consume. cbn [n_conn]. rewrite decide_True by done.
  eexists. split; [|reflexivity]. unfold served. cbn [setConn n_conn n_next n_items]. rewrite decide_True by done.
  cbn [c_peer c_sent c_in app]. rewrite drop_all. split; [done|].
  split; [intros id' Hne; by rewrite !decide_False by done|]. split; [done|]. rewrite decide_True by done. split; [done|].
  intros a Ha. by rewrite decide_False by done.
Qed.

(** A part of a request. *)
Definition partly n n' (id : nat) (p : string) (sent : bytes) : Prop :=
  n_conn n' id = Some (mkConn p sent []) /\ (forall id', id' <> id -> n_conn n' id' = n_conn n id') /\
  n_next n' = n_next n /\ (forall a, n_items n' a = n_items n a) /\ n_cas n' = n_cas n.

Lemma say_part {A} mc sent text (fail : error -> A) k w s p :
  n_conn (ms_net s) (mc_conn mc) = Some (mkConn p sent []) -> parseRequest (sent ++ text) = None ->
  exists n', partly (ms_net s) n' (mc_conn mc) p (sent ++ text) /\ writing mc text fail k w s = k w (withNet n' s).
Proof.
  intros Ec Hp. pose proof (Write_partial _ text w _ _ Ec Hp) as Ew. cbn [c_peer c_sent c_in app] in Ew.
  unfold writing, onNet. go_simpl. cbn [nc_Write cluster]. rewrite Ew. eexists. split; [|reflexivity].
  unfold partly. cbn [n_conn n_next n_items n_cas]. rewrite decide_True by done. split; [done|].
  split; [intros id' Hne; by rewrite decide_False by done|]. split; [done|]. split; [|done]. intros a. apply items_kept.
Qed.

Lemma say_store {A} mc (adding : bool) full secs v (fail : error -> A) k w s p x m :
  plainWord (bytes_of_string full) -> in_int64 secs -> len v <= int64_max ->
  n_conn (ms_net s) (mc_conn mc) = Some (mkConn p [] []) ->
  serve (now w) (n_cas (ms_net s)) (McStore adding full secs v) (n_items (ms_net s) p) = (reply x, m) ->
  oneLine (word x) = true ->
  exists n', served (ms_net s) n' (mc_conn mc) p m /\
    storing mc (if adding then "add" else "set") full secs v fail k w s = k (string_of_bytes (reply x)) w (withNet n' s).
Proof.
  intros Hk Hs Hv Ec Es Hx. destruct (parse_storage full Hk adding secs v Hs Hv) as (P1 & P2 & P3). unfold storing.
  destruct (say_part mc [] (storeHeader full adding secs v) fail
    (writing mc v fail (writing mc (bytes_of_string crlf) fail (readingLine mc fail k))) w s p Ec P1) as (n1 & H1 & E1).
  destruct H1 as (C1 & O1 & X1 & I1 & S1). cbn [app] in C1.
  destruct (say_part mc _ v fail (writing mc (bytes_of_string crlf) fail (readingLine mc fail k)) w (withNet n1 s) p C1 P2)
    as (n2 & (C2 & O2 & X2 & I2 & S2) & E2). cbn [ms_net withNet] in *.
  destruct (say_line mc _ (bytes_of_string crlf) _ fail k w (withNet n2 s) p x m C2 P3) as (n3 & (C3 & O3 & X3 & I3 & S3) & E3);
    [|done|].
  { cbn [ms_net withNet]. by rewrite S2, S1, I2, I1. }
  cbn [ms_net withNet] in *. exists n3. split.
  - split; [done|]. split; [intros id' Hne; by rewrite O3, O2, O1|]. split; [congruence|]. split; [done|].
    intros a Ha. by rewrite S3, I2, I1.
  - etransitivity; [exact E1|]. etransitivity; [exact E2 | exact E3].
Qed.

(** The next call starts with server A or, with parity 1, with server B; server A
    does not have the key, and no connection to it is free. *)
Definition turning (parity : Z) (pool : list memcachedConn) (key : string) s : Prop :=
  ms_addrs s = [serverA; serverB] /\ 0 <= ms_rr s < 2 ^ 32 /\ ms_rr s mod 2 = parity /\
  ms_pools s !! serverA = Some [] /\ ms_pools s !! serverB = Some pool /\
  Forall (fun mc => mc_addr mc = serverB /\ n_conn (ms_net s) (mc_conn mc) = Some (mkConn serverB [] [])) pool /\
  (forall id, (n_next (ms_net s) <= id)%nat -> n_conn (ms_net s) id = None) /\
  n_items (ms_net s) serverA !! mc_cacheKey (ms_prefix s) key = None.

Definition spinning (key : string) s : Prop := turning 0 [] key s \/ exists mc, turning 0 [mc] key s.

Lemma rr_start rr : 0 <= rr < 2 ^ 32 -> ((rr + 1) mod 2 ^ 32 - 1) mod 2 ^ 32 = rr.
Proof. intros Hr. rewrite Zminus_mod_idemp_l. rewrite Z.mod_small; lia. Qed.

(** The address a call starts with, and the two ways to a connection. *)
Lemma acquire_pooled ctx w s addr mc pool :
  ms_addrs s <> [] -> 0 <= ms_rr s < 2 ^ 32 ->
  nth (Z.to_nat (ms_rr s mod len (ms_addrs s))) (ms_addrs s) EmptyString = addr ->
  ms_pools s !! addr = Some (mc :: pool) ->
  acquire ctx w s = (inl mc, w, withPool addr pool (withRR ((ms_rr s + 1) mod 2 ^ 32) s)).
Proof.
  intros Hne Hrr Ha Hp. unfold acquire. go_simpl. rewrite rr_start by done.
  rewrite (proj2 (Z.eqb_neq _ _)) by (unfold len; by destruct (ms_addrs s)).
  destruct (ms_addrs s) as [|x l] eqn:El; [done|]. cbn [length acquireFrom]. go_simpl. cbn [ms_addrs withRR]. rewrite El.
  rewrite Z.add_0_r, Zmod_mod, Ha. cbn [ms_pools withRR]. by rewrite Hp.
Qed.

Lemma acquire_dialled ctx w s addr :
  ms_addrs s <> [] -> 0 <= ms_rr s < 2 ^ 32 ->
  nth (Z.to_nat (ms_rr s mod len (ms_addrs s))) (ms_addrs s) EmptyString = addr ->
  ms_pools s !! addr = Some [] ->
  acquire ctx w s =
  (inl (mkMemcachedConn addr (n_next (ms_net s))), w,
   withNet (Dial ctx addr w (ms_net s)).2 (withRR ((ms_rr s + 1) mod 2 ^ 32) s)).
Proof.
  intros Hne Hrr Ha Hp. unfold acquire. go_simpl. rewrite rr_start by done.
  rewrite (proj2 (Z.eqb_neq _ _)) by (unfold len; by destruct (ms_addrs s)).
  destruct (ms_addrs s) as [|x l] eqn:El; [done|]. cbn [length acquireFrom]. go_simpl. cbn [ms_addrs withRR]. rewrite El.
  rewrite Z.add_0_r, Zmod_mod, Ha. cbn [ms_pools withRR]. by rewrite Hp.
Qed.

Lemma next_rr rr parity :
  0 <= rr < 2 ^ 32 -> rr mod 2 = parity -> 0 <= (rr + 1) mod 2 ^ 32 < 2 ^ 32 /\ ((rr + 1) mod 2 ^ 32) mod 2 = 1 - parity.
Proof.
  intros Hr Hp. split; [apply Z.mod_pos_bound; lia|].
  rewrite Z.mod_mod_divide by (by exists (2 ^ 31)). subst parity. rewrite Zplus_mod.
  pose proof (Z.mod_pos_bound rr 2 ltac:(lia)). by assert (rr mod 2 = 0 \/ rr mod 2 = 1) as [-> | ->] by lia.
Qed.

(** A connection by dialling. *)
Lemma turn_dial ctx w s parity pool key (addr : string) :
  turning parity pool key s -> addr = (if decide (parity = 0) then serverA else serverB) -> ms_pools s !! addr = Some [] ->
  exists mc s1, acquire ctx w s = (inl mc, w, s1) /\ mc_addr mc = addr /\
    n_conn (ms_net s1) (mc_conn mc) = Some (mkConn addr [] []) /\ turning (1 - parity) pool key s1 /\ same_config s s1.
Proof.
  intros (Ha & Hrr & Hpar & HA & HB & Hpool & Hfresh & Hkey) Eaddr Hp.
  assert (parity = 0 \/ parity = 1) as Hcase by (subst parity; pose proof (Z.mod_pos_bound (ms_rr s) 2 ltac:(lia)); lia).
  eexists _, _. split.
  { apply (acquire_dialled ctx w s addr); [by rewrite Ha|done| |done].
    rewrite Ha. change (len _) with 2. rewrite Hpar, Eaddr. by destruct Hcase as [-> | ->]. }
  destruct (next_rr _ _ Hrr Hpar) as [Hrr' Hpar']. split; [done|]. cbn [ms_net withNet]. unfold Dial. cbn [snd n_conn mc_conn].
  rewrite decide_True by done. split; [done|]. split; [|done].
  split; [done|]. split; [done|]. split; [done|]. split; [done|]. split; [done|]. cbn [withNet withRR ms_net n_conn n_next n_items ms_prefix].
  split; [|split; [|done]].
  - eapply list.Forall_impl; [exact Hpool|]. intros mc [? E]. split; [done|]. rewrite decide_False; [done|].
    intros Eid. rewrite Eid, Hfresh in E; [done|lia].
  - intros id Hid. rewrite decide_False by lia. apply Hfresh. lia.
Qed.

(** A request over a connection to [p] that leaves the key absent on server A. *)
Lemma turn_served parity pool key s n' id p m :
  turning parity pool key s -> n_conn (ms_net s) id = Some (mkConn p [] []) -> served (ms_net s) n' id p m ->
  (p = serverA -> m !! mc_cacheKey (ms_prefix s) key = None) -> turning parity pool key (withNet n' s).
Proof.
  intros (Ha & Hrr & Hpar & HA & HB & Hpool & Hfresh & Hkey) Ec (C & O & X & I & R) Hm.
  do 5 (split; [done|]). cbn [withNet ms_net]. split; [|split].
  - eapply list.Forall_impl; [exact Hpool|]. intros mc [? E]. split; [done|].
    destruct (decide (mc_conn mc = id)) as [Eid|Hne]; [|by rewrite O]. rewrite Eid in *. congruence.
  - intros id' Hid. rewrite X in Hid. destruct (decide (id' = id)) as [->|Hne]; [|rewrite O by done; by apply Hfresh].
    by rewrite Hfresh in Ec.
  - destruct (decide (serverA = p)) as [<-|Hne]; [rewrite I; by apply Hm|by rewrite R].
Qed.

(** The [Set] of a call of [incr] goes to server B. *)
Lemma turn_set ctx key v ttl w s pool :
  turning 1 pool key s -> (pool = [] \/ exists mc, pool = [mc]) -> plainKey (ms_prefix s) key -> len v <= maxItem ->
  exists s', mc_Set ctx key v ttl w s = (None, w, s') /\ spinning key s' /\ same_config s s'.
Proof.
  intros Ht Hpool Hk Hv.
  assert (exists mc s1, acquire ctx w s = (inl mc, w, s1) /\ mc_addr mc = serverB /\
    n_conn (ms_net s1) (mc_conn mc) = Some (mkConn serverB [] []) /\ turning 0 [] key s1 /\ same_config s s1)
    as (mc & s1 & Eacq & Emc & Ec & Ht1 & Hcfg).
  { destruct Hpool as [-> | [mc ->]].
    - apply (turn_dial ctx w s 1 [] key serverB Ht); [done|]. by destruct Ht as (_ & _ & _ & _ & ? & _).
    - destruct Ht as (Ha & Hrr & Hpar & HA & HB & [[Hmc Hc] _]%Forall_cons_1 & Hfresh & Hkey).
      destruct (next_rr _ _ Hrr Hpar) as [Hrr' Hpar']. eexists mc, _. split.
      { apply (acquire_pooled ctx w s serverB mc []); [by rewrite Ha|done| |done]. rewrite Ha. change (len _) with 2. by rewrite Hpar. }
      split; [done|]. split; [done|]. split; [|done]. cbn [withPool withRR]. split; [done|]. split; [done|]. split; [done|].
      cbn [withPool withRR ms_pools ms_net ms_prefix]. rewrite lookup_insert_ne by done. rewrite lookup_insert_eq. done. }
  assert (Hk1 : plainKey (ms_prefix s1) key) by (destruct Hcfg as (_ & _ & ->); done).
  assert (exists u, serve (now w) (n_cas (ms_net s1)) (McStore false (mc_cacheKey (ms_prefix s) key) (mc_seconds (mc_ttl s ttl)) v)
    (n_items (ms_net s1) serverB) = (reply "STORED", u)) as [m Es].
  { eexists. cbn [serve]. rewrite decide_False by lia. reflexivity. }
  destruct (say_store mc false (mc_cacheKey (ms_prefix s) key) (mc_seconds (mc_ttl s ttl)) v Some
    (fun line => if HasPrefix line "STORED" then ret (None, false)
                 else ret (Some (ErrorString ("memcached set failed: " +:+ TrimSpace line)), true))
    w s1 serverB "STORED" m) as (n' & Hserved & Est); [done|apply mc_seconds_range|unfold maxItem, int64_max in *; lia|done|done|done|].
  pose proof (turn_served _ _ _ _ _ _ _ _ Ht1 Ec Hserved ltac:(done)) as Ht2.
  unfold mc_Set. go_simpl. unfold withConn. go_simpl. rewrite Eacq. go_simpl_in Est. rewrite Est.
  change (HasPrefix _ _) with true. unfold ret. cbn beta iota. unfold release. go_simpl. rewrite Emc.
  pose proof Ht2 as (Ha2 & Hrr2 & Hpar2 & HA2 & HB2 & Hpool2 & Hfresh2 & Hkey2). rewrite HB2. rewrite decide_True by (unfold poolSize; simpl; lia).
  eexists. split; [reflexivity|]. split; [|done]. right. exists mc. cbn [app].
  split; [done|]. split; [done|]. split; [done|]. cbn [withPool ms_pools ms_net ms_prefix].
  rewrite lookup_insert_ne by done. rewrite lookup_insert_eq. split; [done|]. split; [done|]. split; [|done].
  apply list.Forall_singleton. split; [done|]. apply Hserved.
Qed.

Lemma spinning_turn key s : spinning key s -> exists pool, turning 0 pool key s /\ (pool = [] \/ exists mc, pool = [mc]).
Proof. intros [Ht|[mc Ht]]; eauto. Qed.

(** C28: a counter that does not exist yet is never created over two servers.  The
    calls of [incr] go to one server, which answers NOT_FOUND, and the calls of [Set]
    in between to the other: however deep the recursion, it has not returned. *)
Theorem mc_Increment_diverges ctx key delta ttl (up : bool) fuel w s :
  plainKey (ms_prefix s) key -> 0 <= delta <= int64_max -> spinning key s ->
  rv (mc_incr fuel ctx key delta ttl (if up then "incr" else "decr") w s) = None.
Proof.
  intros Hk Hd. revert ttl w s Hk. induction fuel as [|fuel IH]; intros ttl w s Hk Hs; [done|].
  apply spinning_turn in Hs as (pool & Ht & Hpool).
  destruct (turn_dial ctx w s 0 pool key serverA Ht eq_refl) as (mc & s1 & Eacq & Emc & Ec & Ht1 & Hcfg);
    [by destruct Ht as (_ & _ & _ & ? & _)|].
  assert (plainKey (ms_prefix s1) key) as Hk1 by (destruct Hcfg as (_ & _ & ->); done).
  assert (ms_prefix s1 = ms_prefix s) as Ep by apply Hcfg.
  assert (in_int64 delta) as Hd' by (unfold in_int64, int64_min; lia).
  pose proof (parse_count _ Hk up delta Hd') as Hparse. rewrite decide_True in Hparse by lia.
  assert (serve (now w) (n_cas (ms_net s1)) (McCount up (mc_cacheKey (ms_prefix s) key) delta) (n_items (ms_net s1) serverA)
    = (reply "NOT_FOUND", n_items (ms_net s1) serverA)) as Es.
  { cbn [serve]. unfold liveItem. destruct Ht1 as (_ & _ & _ & _ & _ & _ & _ & Hnone). rewrite Ep in Hnone. by rewrite Hnone. }
  cbn [mc_incr]. unfold withConn. go_simpl. rewrite Eacq.
  match goal with
  | |- context [writing mc ?text ?fail (readingLine mc _ ?k) w s1] =>
      destruct (say_line mc [] text _ fail k w s1 serverA "NOT_FOUND" _ Ec Hparse Es eq_refl) as (n' & Hserved & Esay)
  end.
  rewrite Esay. cbv beta. change (TrimSpace (string_of_bytes (reply "NOT_FOUND"))) with "NOT_FOUND".
  rewrite decide_True by done.
  pose proof (turn_served _ _ _ _ _ _ _ _ Ht1 Ec Hserved ltac:(intros _; by destruct Ht1 as (_ & _ & _ & _ & _ & _ & _ & ?))) as Ht2.
  destruct (turn_set ctx key (bytes_of_string "0") (mc_ttl s ttl) w (withNet n' s1) pool Ht2 Hpool Hk1 ltac:(done))
    as (s3 & Eset & Hspin & Hcfg3).
  rewrite Eset. assert (plainKey (ms_prefix s3) key) as Hk3 by (destruct Hcfg3 as (_ & _ & ->); done).
  pose proof (IH (mc_ttl s ttl) w s3 Hk3 Hspin) as Hinner.
  destruct (mc_incr fuel ctx key delta (mc_ttl s ttl) (if up then "incr" else "decr") w s3) as [[r w4] s4]. unfold rv in Hinner. simpl in Hinner. subst r.
  by destruct (release mc false w4 s4) as [[? ?] ?].
Qed.
End TwoServers.

(** ** Runs *)

Module McRuns.
Export McCluster.

Definition net0 : net := mkNet (fun _ => None) 0 (fun _ => ∅) 0.
Definition base : BaseConfig := mkBaseConfig Minute "app" EmptyString 0 [].
Definition one : mcStore net := mc_backend (mkMcConfig base [serverA]) net0.
Definition two : mcStore net := mc_backend (mkMcConfig base [serverA; serverB]) net0.

(** A day in 2026. *)
Definition clock : World := sleepWorld (1770000000 * Second) world_example.

Lemma mc_clock_ok : world_ok clock.
Proof. apply (later_world_ok world_example), later_sleep; [exact world_example_ok | reflexivity]. Qed.

Lemma backend_ok addrs : (addrs = [serverA] \/ addrs = [serverA; serverB]) -> mc_ok (mc_backend (mkMcConfig base addrs) net0).
Proof.
  intros Ha. split; [split; [done | intros a k it E; by (cbn in E; rewrite lookup_empty in E)]|].
  intros a pool E. assert (pool = []) as ->; [|by split; constructor].
  destruct Ha as [-> | ->].
  - change (({[serverA := []]} : gmap string (list memcachedConn)) !! a = Some pool) in E.
    by apply lookup_singleton_Some in E as [_ <-].
  - change ((<[serverB := []]> {[serverA := []]} : gmap string (list memcachedConn)) !! a = Some pool) in E.
    by apply lookup_insert_Some in E as [[_ <-]|[_ [_ <-]%lookup_singleton_Some]].
Qed.

Definition hello : bytes := bytes_of_string "hello".
Definition set1 := mc_Set Background "user:1" hello Minute clock one.
Definition others : list mcOp :=
  [MIncrement Background "hits" 2 Minute; MDecrement Background "hits" 5 Minute; MLockAcquire Background "job" hello Minute;
   MLockRelease Background "job" hello; MDeleteMany Background ["a"; "b"]; MReady Background; MGet Background "user:1"].
Definition all : list mcOp := MSet Background "user:1" hello Minute :: others.
Definition run0 := runMcOps all clock one.
Definition ops1 := runMcOps others (wv set1) (sv set1).
Definition get1 := mc_Get Background "user:1" (wv ops1) (sv ops1).

Definition month : Z := 31 * 24 * 60 * Minute.
Definition long := mc_Set Background "user:1" hello month clock one.

Definition locked := mc_LockAcquire Background "job" hello Minute clock one.
Definition unlocked := mc_LockRelease Background "job" hello (wv locked) (sv locked).

(** A key with a line end in it, and one with a no-break space. *)
Definition injected : string := "x" +:+ crlf +:+ "flush_all".
Definition spaced : string := "a" +:+ String.string_of_list_byte [xc2; xa0] +:+ "b".
End McRuns.
#[local] Existing Instances McCluster.cluster McCluster.laws.
#[local] Strategy -1000 [McRuns.run0 McRuns.set1 McRuns.ops1 McRuns.get1 McRuns.long McRuns.locked McRuns.unlocked].

(** A decremented counter stops at zero, where the other drivers go below. *)
Example decrement_saturates :
  rv (mc_Decrement Background "hits" 5 Minute McRuns.clock McRuns.one) = (0, None).
Proof. vm_compute. reflexivity. Qed.

(** Over two servers a value that has been written is not found: the calls take
    turns between the servers. *)
Example two_servers_lose_write :
  let set := mc_Set Background "user:1" McRuns.hello Minute McRuns.clock McRuns.two in
  rv set = None /\ rv (mc_Get Background "user:1" (wv set) (sv set)) = ([], false, None).
Proof. vm_compute. done. Qed.

(** A key with a line end in it is sent as two requests: the deletion of such a key
    flushes the server, and the reply to the flush is left for the next call. *)
Example key_is_not_checked :
  let set := mc_Set Background "user:1" McRuns.hello Minute McRuns.clock McRuns.one in
  let del := mc_Delete Background McRuns.injected (wv set) (sv set) in
  let get := mc_Get Background "user:1" (wv del) (sv del) in
  let again := mc_Get Background "user:1" (wv get) (sv get) in
  rv del = None /\ rv get = ([], false, Some (ErrorString "unexpected response: OK")) /\ rv again = ([], false, None).
Proof. vm_compute. done. Qed.

(** A key with a no-break space is one word for the server and two for [strings.Fields]:
    the length is read from the wrong field, and the value is read as empty. *)
Example key_with_nbsp :
  let set := mc_Set Background McRuns.spaced McRuns.hello Minute McRuns.clock McRuns.one in
  rv set = None /\ rv (mc_Get Background McRuns.spaced (wv set) (sv set)) = ([], true, None).
Proof. vm_compute. done. Qed.

(** ** Witnesses *)

Ltac plain_keys :=
  repeat (apply Forall_cons_2 || apply Forall_nil_2); (split; [vm_compute; discriminate | vm_compute; reflexivity]).

Lemma others_ok :
  Forall (fun op => Forall (plainKey (ms_prefix McRuns.one)) (mcOpKeys op) /\ mcOpTyped op /\ "user:1" ∉ mcOpWrites op) McRuns.others.
Proof.
  repeat (apply Forall_cons_2 || apply Forall_nil_2); (split; [plain_keys || by apply Forall_nil_2|]);
    (split; [vm_compute; try done; by split|]); refine (bool_decide_unpack _ _); vm_compute; exact I.
Qed.

Lemma all_ok :
  Forall (fun op => Forall (plainKey (ms_prefix McRuns.one)) (mcOpKeys op) /\ mcOpTyped op) McRuns.all.
Proof.
  apply Forall_cons_2; [split; [plain_keys|by vm_compute]|].
  eapply list.Forall_impl; [exact others_ok|]. by intros op (? & ? & _).
Qed.

Lemma mc_pool_in_sync_witness :
  ms_pools (sv McRuns.run0) !! serverA = Some [mkMemcachedConn serverA 0; mkMemcachedConn serverA 1] /\
  forall a pool, ms_pools (sv McRuns.run0) !! a = Some pool ->
    NoDup (mc_conn <$> pool) /\
    Forall (fun mc => mc_addr mc = a /\ ml_peer (ms_net (sv McRuns.run0)) (mc_conn mc) = Some a /\
      nc_incoming (ms_net (sv McRuns.run0)) (mc_conn mc) = [] /\ ml_sent (ms_net (sv McRuns.run0)) (mc_conn mc) = []) pool.
Proof.
  split; [vm_compute; reflexivity|].
  exact (mc_pool_in_sync McRuns.all McRuns.clock McRuns.one tt (wv McRuns.run0) (sv McRuns.run0)
    McRuns.mc_clock_ok (McRuns.backend_ok _ (or_introl eq_refl)) all_ok (run_eta McRuns.run0 tt eq_refl)).
Defined.


Lemma mc_Set_beyond_month_witness :
  rv McRuns.long = None /\
  forall t, now (wv McRuns.long) <= t -> liveItem (ml_items (ms_net (sv McRuns.long)) serverA) t (mc_cacheKey "app" "user:1") = None.
Proof.
  assert (E : rv McRuns.long = None) by (vm_compute; reflexivity). split; [exact E|].
  apply run_eta in E. unfold McRuns.long in E at 1.
  refine (mc_Set_beyond_month serverA Background "user:1" McRuns.hello McRuns.month McRuns.clock McRuns.one
    (wv McRuns.long) (sv McRuns.long) McRuns.mc_clock_ok (McRuns.backend_ok _ (or_introl eq_refl)) eq_refl _ _ _ _ E).
  - plain_keys.
  - vm_compute. discriminate.
  - vm_compute. reflexivity.
  - vm_compute. discriminate.
Defined.

Lemma mc_LockRelease_owner_witness :
  rv McRuns.unlocked = (true, None) /\
  exists a t it, a ∈ [serverA] /\ now (wv McRuns.locked) <= t <= now (wv McRuns.unlocked) /\
    liveItem (ml_items (ms_net (sv McRuns.locked)) a) t (mc_cacheKey "app" "job") = Some it /\ it_value it = McRuns.hello /\
    forall t', now (wv McRuns.unlocked) <= t' -> liveItem (ml_items (ms_net (sv McRuns.unlocked)) a) t' (mc_cacheKey "app" "job") = None.
Proof.
  assert (E : rv McRuns.unlocked = (true, None)) by (vm_compute; reflexivity). split; [exact E|].
  apply run_eta in E. unfold McRuns.unlocked in E at 1.
  assert (Hok : mc_ok (sv McRuns.locked)).
  { assert (Ei : mc_inv idle McRuns.clock McRuns.one)
      by (apply idle_inv; [exact McRuns.mc_clock_ok | exact (McRuns.backend_ok _ (or_introl eq_refl))]).
    assert (El : rv McRuns.locked = (true, None)) by (vm_compute; reflexivity). apply run_eta in El. unfold McRuns.locked in El at 1.
    refine (proj1 (proj2 (mc_ran_inv _ _ _ _ _ (proj1 (wp_run _ _ _ _ _ _ _
      (mc_Add_wp idle Background "job" McRuns.hello Minute McRuns.clock McRuns.one Ei _ _) El))))); [plain_keys | vm_compute; discriminate]. }
  refine (proj1 (mc_LockRelease_owner Background "job" McRuns.hello (wv McRuns.locked) (sv McRuns.locked) true None
    (wv McRuns.unlocked) (sv McRuns.unlocked) _ Hok _ _ E) eq_refl eq_refl).
  - exact McRuns.mc_clock_ok.
  - plain_keys.
  - vm_compute. discriminate.
Defined.

Lemma mc_Increment_diverges_witness :
  rv (mc_incr 1000 Background "hits" 1 Minute "incr" McRuns.clock McRuns.two) = None.
Proof.
  refine (mc_Increment_diverges Background "hits" 1 Minute true 1000 McRuns.clock McRuns.two _ _ _).
  - plain_keys.
  - vm_compute. split; discriminate.
  - left. split; [reflexivity|]. split; [vm_compute; split; [discriminate | reflexivity]|]. split; [reflexivity|].
    split; [vm_compute; reflexivity|]. split; [vm_compute; reflexivity|]. split; [constructor|]. by split.
Defined.
