(* ===== verification/Base64.v ===== *)
(** * encoding/base64: the URL alphabet without padding

    [base64.RawURLEncoding], with which the NATS driver makes keys safe for
    JetStream subjects.  The decoder is Go's: line breaks are skipped, the unused
    bits of a last, partial group are not checked. *)

From S2P Require Import Prelude GoStd.

Definition urlAlphabet : bytes :=
  bytes_of_string "ABCDEFGHIJKLMNOPQRSTUVWXYZabcdefghijklmnopqrstuvwxyz0123456789-_".

Definition b64char (d : Z) : byte := nth (Z.to_nat d) urlAlphabet x00.

(** The entry of the decoding table. *)
Definition b64digit (c : byte) : option Z :=
  let z := byte_to_Z c in
  if (65 <=? z) && (z <=? 90) then Some (z - 65)
  else if (97 <=? z) && (z <=? 122) then Some (z - 97 + 26)
  else if (48 <=? z) && (z <=? 57) then Some (z - 48 + 52)
  else if z =? 45 then Some 62
  else if z =? 95 then Some 63
  else None.

(** The [n]-th group of six bits of a 24-bit value, counted from the right. *)
Definition sixBits (n val : Z) : Z := Z.land (Z.shiftr val (6 * n)) 63.

Fixpoint rawURLEncode (src : bytes) : bytes :=
  match src with
  | a :: b :: c :: rest =>
      let val := Z.lor (Z.shiftl (byte_to_Z a) 16) (Z.lor (Z.shiftl (byte_to_Z b) 8) (byte_to_Z c)) in
      b64char (sixBits 3 val) :: b64char (sixBits 2 val) :: b64char (sixBits 1 val) :: b64char (sixBits 0 val)
        :: rawURLEncode rest
  | [a; b] =>
      let val := Z.lor (Z.shiftl (byte_to_Z a) 16) (Z.shiftl (byte_to_Z b) 8) in
      [b64char (sixBits 3 val); b64char (sixBits 2 val); b64char (sixBits 1 val)]
  | [a] =>
      let val := Z.shiftl (byte_to_Z a) 16 in [b64char (sixBits 3 val); b64char (sixBits 2 val)]
  | [] => []
  end.

Definition EncodeToString (src : bytes) : string := string_of_bytes (rawURLEncode src).

Definition CorruptInputError (i : Z) : error := ErrorString ("illegal base64 data at input byte " +:+ Itoa i).

(** The digits of the input from index [i] on. *)
Fixpoint b64digits (i : Z) (src : bytes) : list Z + error :=
  match src with
  | [] => inl []
  | c :: rest =>
      match b64digit c with
      | Some d => match b64digits (i + 1) rest with inl ds => inl (d :: ds) | inr e => inr e end
      | None =>
          if bool_decide (c = x0a) || bool_decide (c = x0d) then b64digits (i + 1) rest
          else inr (CorruptInputError i)
      end
  end.

(** The bytes of groups of up to four digits. *)
Fixpoint b64bytes (ds : list Z) : bytes :=
  let quantum a b c d := Z.lor (Z.shiftl a 18) (Z.lor (Z.shiftl b 12) (Z.lor (Z.shiftl c 6) d)) in
  match ds with
  | a :: b :: c :: d :: rest =>
      let val := quantum a b c d in
      byte_of_Z (Z.shiftr val 16) :: byte_of_Z (Z.shiftr val 8) :: byte_of_Z val :: b64bytes rest
  | [a; b; c] => let val := quantum a b c 0 in [byte_of_Z (Z.shiftr val 16); byte_of_Z (Z.shiftr val 8)]
  | [a; b] => let val := quantum a b 0 0 in [byte_of_Z (Z.shiftr val 16)]
  | _ => []
  end.

Definition DecodeString (s : string) : bytes + error :=
  let src := bytes_of_string s in
  match b64digits 0 src with
  | inr e => inr e
  | inl ds => if len ds mod 4 =? 1 then inr (CorruptInputError (len src - 1)) else inl (b64bytes ds)
  end.

(** ** The round trip *)

Lemma lor_shiftl a b n : 0 <= n -> 0 <= b < 2 ^ n -> Z.lor (Z.shiftl a n) b = a * 2 ^ n + b.
Proof.
  intros Hn Hb. rewrite <- Z.shiftl_mul_pow2, Z.add_nocarry_lxor, Z.lxor_lor by
    first [done | apply Z.bits_inj'; intros i Hi; rewrite Z.land_spec, Z.bits_0, Z.shiftl_spec by done;
      destruct (Z.lt_ge_cases i n); [by rewrite (Z.testbit_neg_r a) by lia|];
      rewrite <- (Z.mod_small b (2 ^ n)) by done; by rewrite Z.mod_pow2_bits_high, andb_false_r by lia].
  done.
Qed.

Lemma sixBits_spec n val : 0 <= n -> sixBits n val = (val / 2 ^ (6 * n)) mod 64.
Proof.
  intros Hn. unfold sixBits. rewrite Z.shiftr_div_pow2 by lia. change 63 with (Z.ones 6).
  by rewrite Z.land_ones.
Qed.

Lemma b64digit_char d : 0 <= d < 64 -> b64digit (b64char d) = Some d.
Proof.
  intros Hd. assert (forallb (fun n => bool_decide (b64digit (b64char (Z.of_nat n)) = Some (Z.of_nat n))) (seq 0 64) = true)
    as Hall by (vm_compute; reflexivity).
  rewrite forallb_forall in Hall. specialize (Hall (Z.to_nat d)). rewrite Z2Nat.id in Hall by lia.
  eapply bool_decide_eq_true_1, Hall, in_seq. lia.
Qed.

(** A character of the alphabet that no other part of a NATS key contains. *)
Definition urlChar (c : byte) : bool := match b64digit c with Some _ => true | None => false end.

Lemma b64char_url d : 0 <= d < 64 -> urlChar (b64char d) = true.
Proof. intros Hd. unfold urlChar. by rewrite b64digit_char. Qed.

(** Four digits hold the 24 bits they were taken from. *)
Lemma quantum_sixBits val : 0 <= val < 2 ^ 24 ->
  Z.lor (Z.shiftl (sixBits 3 val) 18)
    (Z.lor (Z.shiftl (sixBits 2 val) 12) (Z.lor (Z.shiftl (sixBits 1 val) 6) (sixBits 0 val))) = val.
Proof.
  intros Hv. rewrite !sixBits_spec by lia.
  change (2 ^ (6 * 0)) with 1. change (2 ^ (6 * 1)) with 64. change (2 ^ (6 * 2)) with 4096.
  change (2 ^ (6 * 3)) with 262144. change (2 ^ 24) with 16777216 in Hv.
  pose proof (Z.mod_pos_bound (val / 1) 64 ltac:(lia)).
  pose proof (Z.mod_pos_bound (val / 64) 64 ltac:(lia)).
  pose proof (Z.mod_pos_bound (val / 4096) 64 ltac:(lia)).
  rewrite (lor_shiftl _ _ 6), (lor_shiftl _ _ 12), (lor_shiftl _ _ 18); change (2 ^ 6) with 64;
    change (2 ^ 12) with 4096; change (2 ^ 18) with 262144; try lia.
  Z.to_euclidean_division_equations. lia.
Qed.

Lemma sixBits_range n val : 0 <= n -> 0 <= sixBits n val < 64.
Proof. intros Hn. rewrite sixBits_spec by done. apply Z.mod_pos_bound. lia. Qed.

Lemma byte_of_shiftr val n b r : 0 <= n -> val = byte_to_Z b * 2 ^ n + r -> 0 <= r < 2 ^ n ->
  byte_of_Z (Z.shiftr val n) = b.
Proof.
  intros Hn -> Hr. rewrite Z.shiftr_div_pow2, Z.div_add_l, Z.div_small, Z.add_0_r by lia. apply byte_of_to_Z.
Qed.

Lemma three_bytes a b c : 0 <= a < 256 -> 0 <= b < 256 -> 0 <= c < 256 ->
  let val := Z.lor (Z.shiftl a 16) (Z.lor (Z.shiftl b 8) c) in
  val = a * 65536 + b * 256 + c /\ 0 <= val < 2 ^ 24.
Proof.
  intros Ha Hb Hc. simpl. rewrite (lor_shiftl b c 8), (lor_shiftl a _ 16);
    change (2 ^ 8) with 256; change (2 ^ 16) with 65536; change (2 ^ 24) with 16777216; lia.
Qed.

(** The 24 bits of three bytes, and the digits of an encoding. *)
Definition tripleVal (a b c : byte) : Z :=
  Z.lor (Z.shiftl (byte_to_Z a) 16) (Z.lor (Z.shiftl (byte_to_Z b) 8) (byte_to_Z c)).

Definition tripleDigits (a b c : byte) : list Z :=
  let val := tripleVal a b c in
  [sixBits 3 val; sixBits 2 val; sixBits 1 val; sixBits 0 val].

Fixpoint digitsOf (src : bytes) : list Z :=
  match src with
  | a :: b :: c :: rest => tripleDigits a b c ++ digitsOf rest
  | [a; b] => take 3 (tripleDigits a b x00)
  | [a] => take 2 (tripleDigits a x00 x00)
  | [] => []
  end.

Lemma rawURLEncode_digits src : rawURLEncode src = b64char <$> digitsOf src.
Proof.
  induction src as [src IH] using list_shorter_ind. destruct src as [|a [|b [|c src]]]; [done| | |].
  - cbn. unfold tripleVal. cbn. by rewrite ?Z.lor_0_r.
  - cbn. unfold tripleVal. cbn. by rewrite ?Z.lor_0_r.
  - cbn. rewrite IH by (simpl; lia). done.
Qed.

Lemma tripleDigits_range a b c : Forall (fun d => 0 <= d < 64) (tripleDigits a b c).
Proof. repeat apply Forall_cons_2; [by apply sixBits_range..|apply Forall_nil_2]. Qed.

Lemma digitsOf_range src : Forall (fun d => 0 <= d < 64) (digitsOf src).
Proof.
  induction src as [src IH] using list_shorter_ind. destruct src as [|a [|b [|c src]]].
  - apply Forall_nil_2.
  - apply (Forall_take _ 2), tripleDigits_range.
  - apply (Forall_take _ 3), tripleDigits_range.
  - apply list.Forall_app. split; [apply tripleDigits_range | apply IH; simpl; lia].
Qed.

Lemma digitsOf_length src : len (digitsOf src) mod 4 <> 1.
Proof.
  induction src as [src IH] using list_shorter_ind. destruct src as [|a [|b [|c src]]]; [done..|].
  specialize (IH src ltac:(simpl; lia)). unfold len in *. cbn [digitsOf]. rewrite length_app.
  replace (Z.of_nat _) with (Z.of_nat (length (digitsOf src)) + 1 * 4) by (simpl; lia). by rewrite Z.mod_add.
Qed.

Lemma b64digits_chars ds : Forall (fun d => 0 <= d < 64) ds -> forall i, b64digits i (b64char <$> ds) = inl ds.
Proof.
  induction 1 as [|d ds Hd Hds IH]; intros i; [done|].
  change (b64char <$> d :: ds) with (b64char d :: (b64char <$> ds)). cbn [b64digits].
  by rewrite b64digit_char, IH.
Qed.

Lemma tripleVal_spec a b c :
  tripleVal a b c = byte_to_Z a * 65536 + byte_to_Z b * 256 + byte_to_Z c /\ 0 <= tripleVal a b c < 2 ^ 24.
Proof. apply three_bytes; apply byte_to_Z_range. Qed.

(** The value's bytes, and the digits that the missing bytes of a last group leave
    0. *)
Lemma tripleVal_bytes a b c :
  byte_of_Z (Z.shiftr (tripleVal a b c) 16) = a /\ byte_of_Z (Z.shiftr (tripleVal a b c) 8) = b /\
  byte_of_Z (tripleVal a b c) = c.
Proof.
  destruct (tripleVal_spec a b c) as [E _]. pose proof (byte_to_Z_range b). pose proof (byte_to_Z_range c).
  assert (forall x y, byte_of_Z (byte_to_Z x + y * 256) = x) as Hlow.
  { intros x y. apply byte_to_Z_inj. rewrite byte_to_of_Z, Z.mod_add by lia. apply Z.mod_small, byte_to_Z_range. }
  split; [|split].
  - apply (byte_of_shiftr _ 16 a (byte_to_Z b * 256 + byte_to_Z c)); [done| |]; rewrite ?E; change (2 ^ 16) with 65536; lia.
  - rewrite E, Z.shiftr_div_pow2 by done. change (2 ^ 8) with 256.
    replace ((_ + _ + _) / 256) with (byte_to_Z b + byte_to_Z a * 256); [apply Hlow|].
    Z.to_euclidean_division_equations. lia.
  - rewrite E. etransitivity; [|apply (Hlow c (byte_to_Z a * 256 + byte_to_Z b))]. f_equal. lia.
Qed.

Lemma sixBits_missing a b : sixBits 0 (tripleVal a b x00) = 0 /\ sixBits 1 (tripleVal a x00 x00) = 0.
Proof.
  destruct (tripleVal_spec a b x00) as [-> _], (tripleVal_spec a x00 x00) as [-> _].
  rewrite !sixBits_spec by lia. change (byte_to_Z x00) with 0. change (2 ^ (6 * 0)) with 1. change (2 ^ (6 * 1)) with 64.
  Z.to_euclidean_division_equations. lia.
Qed.

Lemma b64bytes_digits src : b64bytes (digitsOf src) = src.
Proof.
  induction src as [src IH] using list_shorter_ind. destruct src as [|a [|b [|c src]]]; [done|..].
  - destruct (tripleVal_bytes a x00 x00) as [Ha _], (tripleVal_spec a x00 x00) as [_ Hv].
    destruct (sixBits_missing a x00) as [H0 H1]. apply quantum_sixBits in Hv. rewrite H0, H1 in Hv.
    cbn [digitsOf take tripleDigits b64bytes]. by rewrite Hv, Ha.
  - destruct (tripleVal_bytes a b x00) as (Ha & Hb & _), (tripleVal_spec a b x00) as [_ Hv].
    destruct (sixBits_missing a b) as [H0 _]. apply quantum_sixBits in Hv. rewrite H0 in Hv.
    cbn [digitsOf take tripleDigits b64bytes]. by rewrite Hv, Ha, Hb.
  - destruct (tripleVal_bytes a b c) as (Ha & Hb & Hc), (tripleVal_spec a b c) as [_ Hv].
    apply quantum_sixBits in Hv. cbn [digitsOf app tripleDigits b64bytes].
    rewrite Hv, Ha, Hb, Hc, IH by (simpl; lia). done.
Qed.

Lemma DecodeString_EncodeToString src : DecodeString (EncodeToString src) = inl src.
Proof.
  unfold DecodeString, EncodeToString. rewrite bytes_of_string_of_bytes, rawURLEncode_digits.
  rewrite b64digits_chars by apply digitsOf_range. pose proof (digitsOf_length src).
  destruct (Z.eqb_spec (len (digitsOf src) mod 4) 1); [done|]. by rewrite b64bytes_digits.
Qed.

Lemma rawURLEncode_chars src : Forall (fun c => urlChar c = true) (rawURLEncode src).
Proof.
  rewrite rawURLEncode_digits. apply Forall_fmap. eapply list.Forall_impl; [apply digitsOf_range|].
  intros d Hd. by apply b64char_url.
Qed.

Lemma rawURLEncode_length src : src <> [] -> (2 <= length (rawURLEncode src))%nat.
Proof. destruct src as [|a [|b [|c src]]]; [done|..]; simpl; lia. Qed.
