(* ===== verification/NatsStore.v ===== *)
(** * Package natscache: the store over a JetStream key-value bucket

    [driver/natscache/store.go].  nats.go and the servers behind it are not part of
    the repository: [KeyValue] has the methods of the Go interface of that name as
    parameters.  The store itself is the encoding of keys and values, the expiry it
    keeps inside values, and the conditional writes its locks and counters are made
    of.  [NatsContract.v] states what a bucket promises. *)

From S2P Require Import Prelude GoStd Base64 CacheCore InspectHelpers Shaping.

(** ** The bucket *)

Inductive KeyValueOp := KeyValuePut | KeyValueDelete | KeyValuePurge.

#[global] Instance KeyValueOp_eq_dec : EqDecision KeyValueOp.
Proof. solve_decision. Defined.

(** [nats.KeyValueEntry], of which the store uses these methods. *)
Record kvEntry := mkKvEntry { Value : bytes; Revision : Z; Operation : KeyValueOp }.

#[global] Instance kvEntry_eq_dec : EqDecision kvEntry.
Proof. solve_decision. Defined.

(** [KeyValue].  A pair of a value and a nil error is [inl], an error is [inr].
    [Delete] takes the revision of [nats.LastRevision], when that option is given;
    [ListKeys], always called with [nats.IgnoreDeletes], gives what is received
    from the two channels of the lister. *)
Class KeyValue (K : Type) := {
  kv_Status : M K (option error);
  kv_Get : string -> M K (kvEntry + error);
  kv_Put : string -> bytes -> M K (Z + error);
  kv_Create : string -> bytes -> M K (Z + error);
  kv_Update : string -> bytes -> Z -> M K (Z + error);
  kv_Delete : string -> option Z -> M K (option error);
  kv_Purge : string -> M K (option error);
  kv_ListKeys : M K (list string * list (option error) + error)
}.

(** ** Keys *)

Definition natsEnvelopeMarker : string := "cache-v1".
Definition natsDefaultTTL : Z := 5 * Minute.
Definition natsDefaultPrefix : string := "app".
Definition natsEnvelopeMagic : bytes := bytes_of_string "NCV1".

Definition errKVUnavailable : error := ErrorString "nats cache key-value unavailable".
Definition errRetryLimit : error := ErrorString "nats increment exceeded retry limit".

Definition isMiss (err : error) : bool := errorsIs err ErrKeyNotFound || errorsIs err ErrKeyDeleted.

Definition encodeKeyPart (part : string) : string :=
  if decide (part = EmptyString) then "_" else EncodeToString (bytes_of_string part).

Definition decodeCacheKey (part : string) : string + error :=
  if decide (part = "_") then inl EmptyString
  else match DecodeString part with
       | inl decoded => inl (string_of_bytes decoded)
       | inr e => inr e
       end.

(** ** Values *)

Record envelope := mkEnvelope { env_Marker : string; env_Value : bytes; env_ExpiresAt : Z }.

(** [json.Unmarshal] into an [envelope], the format of the first releases. *)
Class EnvelopeJSON := unmarshalEnvelope : bytes -> envelope + error.

Definition emptyEnvelope : envelope := mkEnvelope EmptyString [] 0.

Definition decodeEnvelope `{EnvelopeJSON} (body : bytes) : envelope * bool * option error :=
  if (len body >=? 12) && bool_decide (take 4 body = natsEnvelopeMagic) then
    (mkEnvelope natsEnvelopeMarker (drop 12 body) (wrap64 (Uint64 (take 8 (drop 4 body)))), true, None)
  else if (len body =? 0) || negb (bool_decide (head body = Some x7b)) then (emptyEnvelope, false, None)
  else match unmarshalEnvelope body with
       | inr e => (emptyEnvelope, false, Some (ErrorWrap "decode nats cache envelope: " e))
       | inl env =>
           if decide (env_Marker env = natsEnvelopeMarker) then (env, true, None)
           else (emptyEnvelope, false, None)
       end.

(** [env.ExpiresAt > 0 && time.Now().UnixMilli() > env.ExpiresAt] *)
Definition envExpired {K} (env : envelope) : M K bool :=
  if env_ExpiresAt env >? 0 then let* t := timeNow in ret (UnixMilli t >? env_ExpiresAt env) else ret false.

(** ** The store *)

Record natsStore (K : Type) := mkNatsStore {
  ns_kv : option K;
  ns_defaultTTL : Z;
  ns_prefix : string;
  ns_scopePrefixStr : string;
  ns_bucketTTL : bool
}.
Arguments mkNatsStore {K}.
Arguments ns_kv {K}.
Arguments ns_defaultTTL {K}.
Arguments ns_prefix {K}.
Arguments ns_scopePrefixStr {K}.
Arguments ns_bucketTTL {K}.

Section Nats.
Context {K : Type} `{KeyValue K} `{EnvelopeJSON}.
Implicit Types s : natsStore K.

Definition nats_scopePrefix s : string := ns_scopePrefixStr s.
Definition nats_cacheKey s (key : string) : string := ns_scopePrefixStr s +:+ encodeKeyPart key.

(** [if s.kv == nil { return ..., errors.New(...) }], then calls of the bucket's
    methods. *)
Definition onKV {A} (unavailable : A) (body : natsStore K -> M K A) : M (natsStore K) A :=
  fun w s =>
    match ns_kv s with
    | None => (unavailable, w, s)
    | Some kv =>
        let '(a, w', kv') := body s w kv in
        (a, w', mkNatsStore (Some kv') (ns_defaultTTL s) (ns_prefix s) (ns_scopePrefixStr s) (ns_bucketTTL s))
    end.

Definition encodeEnvelope s (value : bytes) (ttl : Z) : M K bytes :=
  let ttl := if ttl <=? 0 then ns_defaultTTL s else ttl in
  let* t := timeNow in
  let expiresAt := UnixMilli (t + ttl) in
  ret (natsEnvelopeMagic ++ PutUint64 (wrapu64 expiresAt) ++ value).

(** [if s.bucketTTL { body = cloneBytes(value) } else { body = s.encodeEnvelope(value, ttl) }] *)
Definition nats_body s (value : bytes) (ttl : Z) : M K bytes :=
  if ns_bucketTTL s then ret value else encodeEnvelope s value ttl.

Definition nats_Ready (_ : Context) : M (natsStore K) (option error) :=
  onKV (Some errKVUnavailable) (fun _ => kv_Status).

Definition kvGet s (key : string) : M K (bytes * bool * option error) :=
  let cacheKey := nats_cacheKey s key in
  let* r := kv_Get cacheKey in
  match r with
  | inr e => if isMiss e then ret ([], false, None) else ret ([], false, Some e)
  | inl entry =>
      if decide (Operation entry = KeyValueDelete \/ Operation entry = KeyValuePurge) then ret ([], false, None)
      else if ns_bucketTTL s then ret (Value entry, true, None)
      else match decodeEnvelope (Value entry) with
           | (_, _, Some e) => ret ([], false, Some e)
           | (env, true, None) =>
               let* expired := envExpired env in
               if expired then kv_Purge cacheKey ;; ret ([], false, None) else ret (env_Value env, true, None)
           | (_, false, None) => ret (Value entry, true, None)
           end
  end.

Definition nats_Get (_ : Context) (key : string) : M (natsStore K) (bytes * bool * option error) :=
  onKV ([], false, Some errKVUnavailable) (fun s => kvGet s key).

Definition nats_Set (_ : Context) (key : string) (value : bytes) (ttl : Z) : M (natsStore K) (option error) :=
  onKV (Some errKVUnavailable) (fun s =>
    let* body := nats_body s value ttl in
    let* r := kv_Put (nats_cacheKey s key) body in
    ret (match r with inl _ => None | inr e => Some e end)).

(** [createLock]; [Add] handles the result of [Create] in the same way. *)
Definition createLock (cacheKey : string) (body : bytes) : M K (bool * option error) :=
  let* r := kv_Create cacheKey body in
  match r with
  | inl _ => ret (true, None)
  | inr e => if errorsIs e ErrKeyExists then ret (false, None) else ret (false, Some e)
  end.

Definition nats_Add (_ : Context) (key : string) (value : bytes) (ttl : Z) : M (natsStore K) (bool * option error) :=
  onKV (false, Some errKVUnavailable) (fun s =>
    let* (_, ok, err) := kvGet s key in
    match err with
    | Some e => ret (false, Some e)
    | None =>
        if ok then ret (false, None)
        else
          let* body := nats_body s value ttl in
          createLock (nats_cacheKey s key) body
    end).

Definition addBucketLock s (key : string) (owner : bytes) : M K (bool * option error) :=
  createLock (nats_cacheKey s key) owner.

Definition nats_LockAcquire (_ : Context) (key : string) (owner : bytes) (ttl : Z)
    : M (natsStore K) (bool * option error) :=
  onKV (false, Some errKVUnavailable) (fun s =>
    if ns_bucketTTL s then addBucketLock s key owner
    else
      let* body := encodeEnvelope s owner ttl in
      let cacheKey := nats_cacheKey s key in
      let* r := kv_Get cacheKey in
      match r with
      | inr e => if isMiss e then createLock cacheKey body else ret (false, Some e)
      | inl entry =>
          match decodeEnvelope (Value entry) with
          | (_, _, Some e) => ret (false, Some e)
          | (env, wrapped, None) =>
              let* expired := (if wrapped then envExpired env else ret false) in
              if negb expired then ret (false, None)
              else
                let* u := kv_Update cacheKey body (Revision entry) in
                match u with
                | inl _ => ret (true, None)
                | inr e => if errorsIs e ErrKeyExists then ret (false, None) else ret (false, Some e)
                end
          end
      end).

(** The value the entry holds for a lock, when it is not an expired envelope. *)
Definition lockBody s (entry : kvEntry) : M K (option bytes + error) :=
  if ns_bucketTTL s then ret (inl (Some (Value entry)))
  else match decodeEnvelope (Value entry) with
       | (_, _, Some e) => ret (inr e)
       | (env, true, None) =>
           let* expired := envExpired env in ret (inl (if expired then None else Some (env_Value env)))
       | (_, false, None) => ret (inl (Some (Value entry)))
       end.

Definition nats_LockRelease (_ : Context) (key : string) (owner : bytes) : M (natsStore K) (bool * option error) :=
  onKV (false, Some errKVUnavailable) (fun s =>
    let cacheKey := nats_cacheKey s key in
    let* r := kv_Get cacheKey in
    match r with
    | inr e => if isMiss e then ret (false, None) else ret (false, Some e)
    | inl entry =>
        let* b := lockBody s entry in
        match b with
        | inr e => ret (false, Some e)
        | inl None => ret (false, None)
        | inl (Some body) =>
            if negb (bool_decide (body = owner)) then ret (false, None)
            else
              let* err := kv_Delete cacheKey (Some (Revision entry)) in
              match err with
              | None => ret (true, None)
              | Some e => if isMiss e || errorsIs e ErrKeyExists then ret (false, None) else ret (false, Some e)
              end
        end
    end).

(** *** Counters *)

Definition parseCounter (key : string) (raw : bytes) : Z + error :=
  if len raw >? 0 then
    match ParseInt (string_of_bytes raw) with
    | None => inr (ErrorString ("cache key " +:+ quoted key +:+ " does not contain a numeric value"))
    | Some parsed => inl parsed
    end
  else inl 0.

(** The number and the revision that an attempt starts from: revision 0 when the
    counter has to be created. *)
Definition entryCounter s (cacheKey key : string) (entry : kvEntry) : M K (Z * Z + error) :=
  if decide (Operation entry = KeyValueDelete \/ Operation entry = KeyValuePurge) then ret (inl (0, 0))
  else
    let* r :=
      (if ns_bucketTTL s then ret (inl (Value entry, Revision entry))
       else match decodeEnvelope (Value entry) with
            | (_, _, Some e) => ret (inr e)
            | (env, true, None) =>
                let* expired := envExpired env in
                if expired then kv_Purge cacheKey ;; ret (inl ([], 0))
                else ret (inl (env_Value env, Revision entry))
            | (_, false, None) => ret (inl (Value entry, Revision entry))
            end) in
    match r with
    | inr e => ret (inr e)
    | inl (raw, revision) =>
        match parseCounter key raw with
        | inl current => ret (inl (current, revision))
        | inr e => ret (inr e)
        end
    end.

Definition readCounter s (cacheKey key : string) : M K (Z * Z + error) :=
  let* r := kv_Get cacheKey in
  match r with
  | inr e => if negb (isMiss e) then ret (inr e) else ret (inl (0, 0))
  | inl entry => entryCounter s cacheKey key entry
  end.

(** The conditional write of an attempt: [None] when it lost a race. *)
Definition writeCounter (cacheKey : string) (body : bytes) (revision next : Z) : M K (option (Z * option error)) :=
  if revision =? 0 then
    let* r := kv_Create cacheKey body in
    match r with
    | inl _ => ret (Some (next, None))
    | inr e => if errorsIs e ErrKeyExists then ret None else ret (Some (0, Some e))
    end
  else
    let* r := kv_Update cacheKey body revision in
    match r with
    | inl _ => ret (Some (next, None))
    | inr e => if errorsIs e ErrKeyExists || isMiss e then ret None else ret (Some (0, Some e))
    end.

Fixpoint incrementLoop (attempts : nat) s (key : string) (delta ttl : Z) : M K (Z * option error) :=
  match attempts with
  | O => ret (0, Some errRetryLimit)
  | S attempts =>
      let cacheKey := nats_cacheKey s key in
      let* r := readCounter s cacheKey key in
      match r with
      | inr e => ret (0, Some e)
      | inl (current, revision) =>
          let next := wrap64 (current + delta) in
          let* body := nats_body s (bytes_of_string (FormatInt next)) ttl in
          let* done := writeCounter cacheKey body revision next in
          match done with
          | Some result => ret result
          | None => incrementLoop attempts s key delta ttl
          end
      end
  end.

Definition nats_Increment (_ : Context) (key : string) (delta ttl : Z) : M (natsStore K) (Z * option error) :=
  onKV (0, Some errKVUnavailable) (fun s => incrementLoop 16 s key delta ttl).

Definition nats_Decrement (ctx : Context) (key : string) (delta ttl : Z) : M (natsStore K) (Z * option error) :=
  nats_Increment ctx key (wrap64 (- delta)) ttl.

(** *** Deletion *)

Definition nats_Delete (_ : Context) (key : string) : M (natsStore K) (option error) :=
  onKV (Some errKVUnavailable) (fun s =>
    let* err := kv_Delete (nats_cacheKey s key) None in
    match err with
    | Some e => if isMiss e then ret None else ret (Some e)
    | None => ret None
    end).

Definition nats_DeleteMany (ctx : Context) (keys : list string) : M (natsStore K) (option error) :=
  forErr (nats_Delete ctx) keys.

(** [for err := range lister.Error() { if err != nil { return ..., err } }] *)
Definition listerError (errs : list (option error)) : option error := head (omap id errs).

Definition purgeScoped (scopePrefix key : string) : M K (option error) :=
  if negb (HasPrefix key scopePrefix) then ret None
  else
    let* err := kv_Purge key in
    match err with
    | Some e => if negb (isMiss e) then ret (Some e) else ret None
    | None => ret None
    end.

Definition nats_Flush (_ : Context) : M (natsStore K) (option error) :=
  onKV (Some errKVUnavailable) (fun s =>
    let* lister := kv_ListKeys in
    match lister with
    | inr e => if errorsIs e ErrNoKeysFound then ret None else ret (Some e)
    | inl (keys, errs) =>
        let* err := forErr (purgeScoped (nats_scopePrefix s)) keys in
        match err with
        | Some e => ret (Some e)
        | None => ret (listerError errs)
        end
    end).

(** *** Listing *)

Definition nats_Capabilities s : InspectorCapabilities := mkCapabilities true true true (negb (ns_bucketTTL s)).

(** The expiry that a second read of the entry gives. *)
Definition entryExpiry s (key : string) : M K (option Z) :=
  if ns_bucketTTL s then ret None
  else
    let* r := kv_Get key in
    match r with
    | inr _ => ret None
    | inl kvEntry =>
        match decodeEnvelope (Value kvEntry) with
        | (env, true, None) => ret (if env_ExpiresAt env >? 0 then Some (env_ExpiresAt env) else None)
        | _ => ret None
        end
    end.

Definition listedEntry s (key : string) : M K (option CacheEntry) :=
  if negb (HasPrefix key (nats_scopePrefix s)) then ret None
  else match decodeCacheKey (TrimPrefix key (nats_scopePrefix s)) with
       | inr _ => ret None
       | inl rawKey =>
           let* (body, ok, err) := kvGet s rawKey in
           if negb (noErr err) || negb ok then ret None
           else
             let* expiresAt := entryExpiry s key in
             ret (Some (mkCacheEntry rawKey (len body) expiresAt))
       end.

Fixpoint listedEntries s (keys : list string) : M K (list CacheEntry) :=
  match keys with
  | [] => ret []
  | key :: rest =>
      let* e := listedEntry s key in
      let* es := listedEntries s rest in
      ret (option_list e ++ es)
  end.

Definition nats_ListPage (_ : Context) (opts : ListPageOptions) : M (natsStore K) (ListPageResult * option error) :=
  onKV (emptyListPageResult, Some errKVUnavailable) (fun s =>
    let* lister := kv_ListKeys in
    match lister with
    | inr e => if errorsIs e ErrNoKeysFound then ret (emptyListPageResult, None) else ret (emptyListPageResult, Some e)
    | inl (keys, errs) =>
        let* entries := listedEntries s keys in
        match listerError errs with
        | Some e => ret (emptyListPageResult, Some e)
        | None =>
            let filtered := FilterAndSortEntries entries (ListFilterTerm opts) in
            match DecodeOffsetCursor (opt_Cursor opts) with
            | (_, Some e) => ret (emptyListPageResult, Some e)
            | (offset, None) => ret (SliceEntries filtered offset (opt_Limit opts), None)
            end
        end
    end).

Definition nats_lock_ops : LockStore (natsStore K) := mkLockStore _ nats_LockAcquire nats_LockRelease.

#[export] Instance natsStore_Store : Store (natsStore K) := {|
  Store_Driver := fun _ => DriverNATS;
  Store_Ready := nats_Ready;
  Store_Get := nats_Get;
  Store_Set := nats_Set;
  Store_Add := nats_Add;
  Store_Increment := nats_Increment;
  Store_Decrement := nats_Decrement;
  Store_Delete := nats_Delete;
  Store_DeleteMany := nats_DeleteMany;
  Store_Flush := nats_Flush;
  Store_lockStore := fun _ => Some nats_lock_ops;
  Store_Inspector := fun _ => Some (mkInspector _ nats_Capabilities nats_ListPage)
|}.
End Nats.

(** ** Construction *)

Record natsConfig (K : Type) := mkNatsConfig { ncfg_base : BaseConfig; ncfg_KeyValue : option K; ncfg_BucketTTL : bool }.
Arguments mkNatsConfig {K}.
Arguments ncfg_base {K}.
Arguments ncfg_KeyValue {K}.
Arguments ncfg_BucketTTL {K}.

Definition scopePrefixOf (prefix : string) : string := "p." +:+ encodeKeyPart prefix +:+ ".k.".

Section New.
Context {K : Type} `{KeyValue K} `{EnvelopeJSON} `{Crypto}.

Definition nats_backend (cfg : natsConfig K) : natsStore K :=
  let ttl := if DefaultTTL (ncfg_base cfg) <=? 0 then natsDefaultTTL else DefaultTTL (ncfg_base cfg) in
  let prefix := if decide (Prefix (ncfg_base cfg) = EmptyString) then natsDefaultPrefix else Prefix (ncfg_base cfg) in
  mkNatsStore (ncfg_KeyValue cfg) ttl prefix (scopePrefixOf prefix) (ncfg_BucketTTL cfg).

Definition nats_New (cfg : natsConfig K) : wrappedStore (natsStore K) :=
  let '(wrapped, _) := WrapStore (nats_backend cfg) (ncfg_base cfg) in wrapped.
End New.
