(* ===== verification/NatsContract.v ===== *)
(** * What a JetStream bucket promises, and what the store makes of it

    The store of [NatsStore] over a bucket that other clients use at the same time.
    [BucketLaws] states the documented behaviour of the bucket's operations: each is
    one atomic step among those of the others, and conditional writes compare
    revisions.  The operations of the store are then described as sequences of such
    steps.  [NatsLaws.v] draws the conclusions. *)

From S2P Require Import Prelude GoStd Base64 CacheCore InspectHelpers Shaping Interference NatsStore.

(** ** Keys *)

Lemma encodeKeyPart_chars part : Forall (fun c => urlChar c = true) (bytes_of_string (encodeKeyPart part)).
Proof.
  unfold encodeKeyPart. destruct (decide _) as [_|_]; [by repeat constructor|].
  unfold EncodeToString. rewrite bytes_of_string_of_bytes. apply rawURLEncode_chars.
Qed.

Lemma encodeKeyPart_empty part : encodeKeyPart part <> EmptyString.
Proof.
  unfold encodeKeyPart. destruct (decide _) as [_|Hne]; [done|]. intros E.
  apply (f_equal bytes_of_string) in E. unfold EncodeToString in E. rewrite bytes_of_string_of_bytes in E.
  pose proof (rawURLEncode_length (bytes_of_string part)) as Hl. rewrite E in Hl. simpl in Hl.
  assert (bytes_of_string part <> []) as Hn; [|by specialize (Hl Hn); lia]. by destruct part.
Qed.

Lemma decode_encodeKeyPart part : decodeCacheKey (encodeKeyPart part) = inl part.
Proof.
  unfold decodeCacheKey, encodeKeyPart. destruct (decide (part = EmptyString)) as [->|Hne]; [done|].
  rewrite decide_False.
  - by rewrite DecodeString_EncodeToString, string_of_bytes_of_string.
  - intros E. apply (f_equal bytes_of_string) in E. unfold EncodeToString in E. rewrite bytes_of_string_of_bytes in E.
    pose proof (rawURLEncode_length (bytes_of_string part)) as Hl. rewrite E in Hl. simpl in Hl.
    assert (bytes_of_string part <> []) as Hn; [by destruct part|]. specialize (Hl Hn). lia.
Qed.

#[export] Instance encodeKeyPart_inj : Inj (=) (=) encodeKeyPart.
Proof. intros a b E. pose proof (decode_encodeKeyPart a) as Ha. rewrite E, decode_encodeKeyPart in Ha. congruence. Qed.

(** A dot ends the encoded prefix. *)
Lemma dotted_inj (e e' a a' : bytes) :
  Forall (fun c => urlChar c = true) e -> Forall (fun c => urlChar c = true) e' ->
  e ++ x2e :: a = e' ++ x2e :: a' -> e = e' /\ a = a'.
Proof.
  intros He. revert e'. induction He as [|c e Hc He IH]; intros [|c' e'] He' E; simplify_eq/=; [done|..].
  - apply Forall_cons_1 in He' as [Hc _]. discriminate Hc.
  - apply Forall_cons_1 in He' as [_ He']. by destruct (IH _ He' ltac:(done)) as [-> ->].
Qed.

Lemma scoped_inj p p' a a' : scopePrefixOf p +:+ a = scopePrefixOf p' +:+ a' -> p = p' /\ a = a'.
Proof.
  intros E. apply (f_equal bytes_of_string) in E. unfold scopePrefixOf in E. rewrite !bytes_of_string_app in E.
  rewrite <- !(assoc_L (++)) in E. apply (inj (app _)) in E. change (bytes_of_string ".k.") with [x2e; x6b; x2e] in E.
  apply dotted_inj in E as [Ep Ea]; [|apply encodeKeyPart_chars..].
  apply (inj bytes_of_string), (inj encodeKeyPart) in Ep. split; [done|].
  cbn in Ea. injection Ea as Ea. by apply (inj bytes_of_string).
Qed.

(** ** Values *)

Section Values.
Context `{EnvelopeJSON}.

(** What [encodeEnvelope] makes of a value that expires at millisecond [x]. *)
Definition envelopeOf (x : Z) (v : bytes) : bytes := natsEnvelopeMagic ++ PutUint64 (wrapu64 x) ++ v.

Lemma decode_envelopeOf x v :
  in_int64 x -> decodeEnvelope (envelopeOf x v) = (mkEnvelope natsEnvelopeMarker v x, true, None).
Proof.
  intros Hx. unfold decodeEnvelope.
  assert ((len (envelopeOf x v) >=? 12) = true) as ->.
  { apply Z.geb_le. unfold len, envelopeOf, PutUint64. rewrite !length_app, bePut_length. simpl. lia. }
  assert (drop 4 (envelopeOf x v) = PutUint64 (wrapu64 x) ++ v) as E by done.
  rewrite bool_decide_true by done. cbn [andb].
  rewrite E, take_app_length' by (unfold PutUint64; by rewrite bePut_length).
  change 12%nat with (4 + 8)%nat. rewrite <- drop_drop, E, drop_app_length' by (unfold PutUint64; by rewrite bePut_length).
  by rewrite Uint64_PutUint64, !wrap64_wrapu64, wrap64_id.
Qed.

(** The entry a key has, unless its last message removed it; the revision a
    conditional write compares. *)
Definition current (o : option kvEntry) : option kvEntry :=
  match o with
  | Some e => if decide (Operation e = KeyValuePut) then Some e else None
  | None => None
  end.
Definition revOf (o : option kvEntry) : Z := match o with Some e => Revision e | None => 0 end.

Definition expiredAt (t x : Z) : bool := (x >? 0) && (UnixMilli t >? x).

(** The value a key shows at instant [t], for a bucket with or without a TTL of
    its own. *)
Definition entryView (bucketTTL : bool) (t : Z) (o : option kvEntry) : option bytes :=
  match current o with
  | None => None
  | Some e =>
      if bucketTTL then Some (Value e)
      else match decodeEnvelope (Value e) with
           | (_, _, Some _) => None
           | (env, true, None) => if expiredAt t (env_ExpiresAt env) then None else Some (env_Value env)
           | (_, false, None) => Some (Value e)
           end
  end.

(** The entry is an envelope that has expired at instant [t]. *)
Definition lapsed (bucketTTL : bool) (t : Z) (o : option kvEntry) : Prop :=
  bucketTTL = false /\ exists e env, current o = Some e /\ decodeEnvelope (Value e) = (env, true, None) /\
    expiredAt t (env_ExpiresAt env) = true.

Lemma lapsed_view b t o : lapsed b t o -> entryView b t o = None.
Proof. intros (-> & e & env & Hc & Hd & Hx). unfold entryView. by rewrite Hc, Hd, Hx. Qed.

Lemma lapsed_later b t t' o : lapsed b t o -> t <= t' -> lapsed b t' o.
Proof.
  intros (-> & e & env & Hc & Hd & Hx) Ht. split; [done|]. exists e, env. split; [done|]. split; [done|].
  unfold expiredAt in *. apply andb_true_iff in Hx as [-> Hx%Z.gtb_lt]. simpl. apply Z.gtb_lt.
  pose proof (UnixMilli_mono _ _ Ht). lia.
Qed.
End Values.

(** ** The bucket *)

(** What can be said of a bucket: the last message of each key, what other clients
    (and the expiry of a bucket with a TTL) may do to it between two requests of
    this one, and whether requests can fail. *)
Class KVView (K : Type) := {
  nl_ok : K -> Prop;
  nl_last : K -> string -> option kvEntry;
  nl_rely : K -> K -> Prop;
  nl_faulty : Prop
}.

Abbreviation during := (Interference.during nl_rely).
Abbreviation atomically := (Interference.atomically nl_rely).
Abbreviation maybe := (Interference.maybe nl_rely).

Section Steps.
Context {K : Type} `{KVView K}.
Implicit Types r : K.

Definition others_same (k : string) r1 r2 : Prop := forall k', k' <> k -> nl_last r2 k' = nl_last r1 k'.

Definition putStep (k : string) (v : bytes) r1 r2 : Prop :=
  nl_ok r2 /\ others_same k r1 r2 /\ exists rev, nl_last r2 k = Some (mkKvEntry v rev KeyValuePut).
Definition goneStep (k : string) r1 r2 : Prop :=
  nl_ok r2 /\ others_same k r1 r2 /\ current (nl_last r2 k) = None.

(** Conditional steps. *)
Definition createStep k v r1 r2 : Prop := current (nl_last r1 k) = None /\ putStep k v r1 r2.
Definition updateStep k v rev r1 r2 : Prop := revOf (nl_last r1 k) = rev /\ putStep k v r1 r2.
Definition deleteStep k (last : option Z) r1 r2 : Prop :=
  (forall rev, last = Some rev -> revOf (nl_last r1 k) = rev) /\ goneStep k r1 r2.
End Steps.

(** The documented behaviour of the bucket's operations.  Revisions are the
    positive sequence numbers of messages, so equal revisions of a key are the same
    message. *)
Class BucketLaws (K : Type) `{KeyValue K} `{KVView K} := {
  #[global] nl_rely_order :: PreOrder (nl_rely (K := K));
  nl_rely_ok r r' : nl_rely r r' -> nl_ok r -> nl_ok r';
  nl_revision r r' k e e' :
    nl_ok r -> nl_rely r r' -> nl_last r k = Some e -> nl_last r' k = Some e' -> Revision e = Revision e' -> e = e';
  nl_revision_pos r k e : nl_ok r -> nl_last r k = Some e -> 0 < Revision e;
  nl_status w r : world_ok w -> nl_ok r -> wp kv_Status (fun _ w' r' => later w w' /\ nl_ok r' /\ nl_rely r r') w r;
  (** [Get] finds the last value put, or reports a missing key. *)
  nl_get k w r : world_ok w -> nl_ok r ->
    wp (kv_Get k) (fun x w' r' => later w w' /\ nl_ok r' /\ during r r' (fun r1 =>
      match x with
      | inl e => nl_last r1 k = Some e /\ Operation e = KeyValuePut
      | inr e => isMiss e = true -> current (nl_last r1 k) = None
      end)) w r;
  nl_put k v w r : world_ok w -> nl_ok r ->
    wp (kv_Put k v) (fun x w' r' => later w w' /\ nl_ok r' /\
      match x with
      | inl _ => atomically r r' (putStep k v)
      | inr _ => maybe r r' (putStep k v)
      end) w r;
  (** [Create] writes only when the key is missing; it reports that the key exists
      also when another client changed it meanwhile. *)
  nl_create k v w r : world_ok w -> nl_ok r ->
    wp (kv_Create k v) (fun x w' r' => later w w' /\ nl_ok r' /\
      match x with
      | inl _ => atomically r r' (createStep k v)
      | inr e => maybe r r' (createStep k v) /\
          (errorsIs e ErrKeyExists = true ->
           during r r' (fun r1 => current (nl_last r1 k) <> None \/ nl_last r1 k <> nl_last r k))
      end) w r;
  (** [Update] writes only over the revision it names. *)
  nl_update k v rev w r : world_ok w -> nl_ok r ->
    wp (kv_Update k v rev) (fun x w' r' => later w w' /\ nl_ok r' /\
      match x with
      | inl _ => atomically r r' (updateStep k v rev)
      | inr e => maybe r r' (updateStep k v rev) /\
          (errorsIs e ErrKeyExists || isMiss e = true ->
           during r r' (fun r1 => current (nl_last r1 k) = None \/ revOf (nl_last r1 k) <> rev))
      end) w r;
  (** So does [Delete] with a revision. *)
  nl_delete k last w r : world_ok w -> nl_ok r ->
    wp (kv_Delete k last) (fun x w' r' => later w w' /\ nl_ok r' /\
      match x with
      | None => atomically r r' (deleteStep k last)
      | Some e => maybe r r' (deleteStep k last) /\
          (isMiss e = true -> during r r' (fun r1 => current (nl_last r1 k) = None)) /\
          (errorsIs e ErrKeyExists = true ->
           during r r' (fun r1 => exists rev, last = Some rev /\ revOf (nl_last r1 k) <> rev))
      end) w r;
  nl_purge k w r : world_ok w -> nl_ok r ->
    wp (kv_Purge k) (fun x w' r' => later w w' /\ nl_ok r' /\
      match x with
      | None => atomically r r' (goneStep k)
      | Some e =>
          if isMiss e then during r r' (fun r1 => current (nl_last r1 k) = None)
          else nl_faulty /\ maybe r r' (goneStep k)
      end) w r;
  (** A listing that ends without error has had every key that is present. *)
  nl_list w r : world_ok w -> nl_ok r ->
    wp kv_ListKeys (fun x w' r' => later w w' /\ nl_ok r' /\ during r r' (fun r1 =>
      match x with
      | inl (keys, errs) => listerError errs = None -> forall k, current (nl_last r1 k) <> None -> k ∈ keys
      | inr e => errorsIs e ErrNoKeysFound = true -> forall k, current (nl_last r1 k) = None
      end)) w r
}.

(** ** Sequences of steps *)

Abbreviation during_rely := (Interference.during_rely nl_rely).
Abbreviation during_from := (Interference.during_from nl_rely).
Abbreviation during_mono := (Interference.during_mono nl_rely).
Abbreviation atomically_from := (Interference.atomically_from nl_rely).
Abbreviation atomically_mono := (Interference.atomically_mono nl_rely).
Abbreviation maybe_from := (Interference.maybe_from nl_rely).
Abbreviation maybe_mono := (Interference.maybe_mono nl_rely).

Section Sequences.
Context {K : Type} `{BucketLaws K} `{EnvelopeJSON}.
Implicit Types r : K.

Lemma current_put o e : o = Some e -> Operation e = KeyValuePut -> current o = Some e.
Proof. intros -> Hop. unfold current. by rewrite decide_True. Qed.

(** The message whose revision is compared is the one that was read. *)
Lemma revision_same r r1 k e :
  nl_ok r -> nl_rely r r1 -> nl_last r k = Some e -> revOf (nl_last r1 k) = Revision e -> nl_last r1 k = Some e.
Proof.
  intros Hr Hrel He Hrev. pose proof (nl_revision_pos r k e Hr He) as Hpos.
  destruct (nl_last r1 k) as [e1|] eqn:E1; simpl in Hrev; [|lia]. f_equal.
  symmetry. by eapply nl_revision.
Qed.

(** What an operation may do before the step it is for: an entry that was read, and
    had expired, is purged. *)
Definition cleaned (b : bool) (k : string) (t0 t1 : Z) r r' : Prop :=
  nl_rely r r' \/ (exists t, t0 <= t <= t1 /\ lapsed b t (nl_last r k)) /\ atomically r r' (goneStep k).

Lemma cleaned_widen b k t0 t1 u0 u1 r r' : cleaned b k t0 t1 r r' -> u0 <= t0 -> t1 <= u1 -> cleaned b k u0 u1 r r'.
Proof. intros [?|[(t & Ht & Hl) ?]] ? ?; [by left | right]. split; [|done]. exists t. split; [lia | done]. Qed.

(** An expired entry was purged, unless that failed. *)
Definition purged (k : string) r r' : Prop :=
  atomically r r' (goneStep k) \/ during r r' (fun r1 => current (nl_last r1 k) = None) \/ nl_faulty /\ nl_rely r r'.

Lemma purged_from k r0 r r' : nl_rely r0 r -> purged k r r' -> purged k r0 r'.
Proof.
  intros Ra [Hp|[Hp|[? Hp]]]; [left; by eapply atomically_from | right; left; by eapply during_from|].
  right; right. split; [done|]. by transitivity r.
Qed.

Lemma purge_wp k w r : world_ok w -> nl_ok r ->
  wp (kv_Purge k) (fun _ w' r' => later w w' /\ nl_ok r' /\ purged k r r') w r.
Proof.
  intros Hw Hr. eapply wp_mono; [by apply nl_purge|]. intros err w' r' (Hl & Hr' & Hp). split; [done|]. split; [done|].
  unfold purged. destruct err as [e|]; [|by left]. destruct (isMiss e); [by right; left|].
  destruct Hp as [Hf [?|?]]; auto.
Qed.

Lemma purged_cleaned b k t0 t1 t r r' :
  t0 <= t <= t1 -> lapsed b t (nl_last r k) -> purged k r r' -> cleaned b k t0 t1 r r'.
Proof. intros Ht Hl [Hp|[Hp%during_rely|[_ Hp]]]; [right; eauto | by left..]. Qed.

(** ** The operations *)

Lemma envExpired_wp env w r : world_ok w ->
  wp (envExpired env) (fun x w' r' => later w w' /\ r' = r /\ x = expiredAt (now w) (env_ExpiresAt env)) w r.
Proof.
  intros Hw. unfold envExpired, expiredAt. destruct (env_ExpiresAt env >? 0); unfold wp; go_simpl; eauto with go.
Qed.

Definition nats_ttl (s : natsStore K) (ttl : Z) : Z := if ttl <=? 0 then ns_defaultTTL s else ttl.

(** The bytes written for a value at instant [t]. *)
Definition bodyAt (s : natsStore K) (v : bytes) (ttl t : Z) : bytes :=
  if ns_bucketTTL s then v else envelopeOf (UnixMilli (t + nats_ttl s ttl)) v.

Lemma encodeEnvelope_wp s v ttl w r : world_ok w ->
  wp (encodeEnvelope s v ttl) (fun x w' r' =>
    later w w' /\ r' = r /\ x = envelopeOf (UnixMilli (now w + nats_ttl s ttl)) v) w r.
Proof. intros Hw. unfold wp, encodeEnvelope. go_simpl. split; [by apply later_tick | done]. Qed.

Lemma nats_body_wp s v ttl w r : world_ok w ->
  wp (nats_body s v ttl) (fun x w' r' => later w w' /\ r' = r /\ x = bodyAt s v ttl (now w)) w r.
Proof.
  intros Hw. unfold nats_body, bodyAt. destruct (ns_bucketTTL s); [by split; [apply later_refl|]|].
  by apply encodeEnvelope_wp.
Qed.

Lemma createLock_wp ck body w r : world_ok w -> nl_ok r ->
  wp (createLock ck body) (fun x w' r' => later w w' /\ nl_ok r' /\
    match x with
    | (true, None) => atomically r r' (createStep ck body)
    | (false, None) => during r r' (fun r1 => current (nl_last r1 ck) <> None \/ nl_last r1 ck <> nl_last r ck)
    | (created, Some _) => created = false /\ maybe r r' (createStep ck body)
    end) w r.
Proof.
  intros Hw Hr. unfold createLock. apply wp_bind. eapply wp_mono; [by apply nl_create|].
  intros [rev|e] w1 r1 (Hl & Hr1 & Hc); [done|]. destruct Hc as [Hm Hc].
  destruct (errorsIs e ErrKeyExists) eqn:E; unfold wp; simpl; auto.
Qed.

Lemma entryView_put b t o e : o = Some e -> Operation e = KeyValuePut ->
  entryView b t o =
    if b then Some (Value e)
    else match decodeEnvelope (Value e) with
         | (_, _, Some _) => None
         | (env, true, None) => if expiredAt t (env_ExpiresAt env) then None else Some (env_Value env)
         | (_, false, None) => Some (Value e)
         end.
Proof. intros Ho Hop. unfold entryView. by rewrite (current_put _ _ Ho Hop). Qed.

(** The computation has returned; what it saw is the state [r]. *)
Ltac returned_at r :=
  unfold wp; go_simpl; split; [eauto using later_trans|]; split; [done|]; exists r; split; [done|].

(** Reading a value. *)
Lemma kvGet_wp s key w r : world_ok w -> nl_ok r ->
  let ck := nats_cacheKey s key in let b := ns_bucketTTL s in
  wp (kvGet s key) (fun x w' r' => later w w' /\ nl_ok r' /\ exists r1, nl_rely r r1 /\
    match x with
    | (v, true, None) => nl_rely r1 r' /\ exists t, now w <= t <= now w' /\ entryView b t (nl_last r1 ck) = Some v
    | (_, false, None) =>
        nl_rely r1 r' /\ current (nl_last r1 ck) = None \/
        (exists t, now w <= t <= now w' /\ lapsed b t (nl_last r1 ck)) /\ purged ck r1 r'
    | (_, ok, Some _) => ok = false /\ nl_rely r1 r'
    end) w r.
Proof.
  intros Hw Hr ck b. unfold kvGet. fold ck b. apply wp_bind. eapply wp_mono; [by apply nl_get|].
  intros x w1 r1 (Hl & Hr1 & r0 & Ra & Hx & Rb). pose proof (later_now _ _ Hl) as Hn.
  destruct x as [e|e].
  2: { destruct (isMiss e); returned_at r0; [by left; auto | done]. }
  destruct Hx as [Hlast Hop]. rewrite decide_False by (rewrite Hop; by intros [|]).
  pose proof (current_put _ _ Hlast Hop) as Hcur.
  assert (Hview := fun t => entryView_put b t _ _ Hlast Hop).
  destruct b eqn:Eb.
  { returned_at r0. split; [done|]. exists (now w). split; [lia | by rewrite Hview]. }
  destruct (decodeEnvelope (Value e)) as [[env []] [err|]] eqn:Ed; [by returned_at r0| |by returned_at r0|].
  2: { returned_at r0. split; [done|]. exists (now w). split; [lia | by rewrite Hview]. }
  apply wp_bind. eapply wp_mono; [apply envExpired_wp; by eauto with go|]. intros x w2 r2 (Hl2 & -> & ->).
  pose proof (later_now _ _ Hl2). destruct (expiredAt _ _) eqn:Ex.
  - apply wp_bind. eapply wp_mono; [apply purge_wp; [by eauto with go|done]|]. intros _ w3 r3 (Hl3 & Hr3 & Hp).
    pose proof (later_now _ _ Hl3). returned_at r0. right. split.
    + exists (now w1). split; [lia|]. split; [done|]. by exists e, env.
    + by eapply purged_from.
  - returned_at r0. split; [done|]. exists (now w1). split; [lia | by rewrite Hview, Ex].
Qed.

(** The key changed between two states of the operation. *)
Lemma changed_during r a b r' k :
  nl_rely r a -> nl_rely a b -> nl_rely b r' -> nl_last b k <> nl_last a k ->
  during r r' (fun r1 => nl_last r1 k <> nl_last r k).
Proof.
  intros Ra Rb Rc Hne. destruct (decide (nl_last a k = nl_last r k)) as [E|E].
  - exists b. rewrite E in Hne. split; [by transitivity a | done].
  - exists a. split; [done|]. split; [done | by transitivity b].
Qed.

Definition with_kv (s : natsStore K) r : natsStore K :=
  mkNatsStore (Some r) (ns_defaultTTL s) (ns_prefix s) (ns_scopePrefixStr s) (ns_bucketTTL s).

Lemma wp_onKV {A} z (body : natsStore K -> M K A) Q w s r :
  ns_kv s = Some r -> wp (body s) (fun a w' r' => Q a w' (with_kv s r')) w r -> wp (onKV z body) Q w s.
Proof. intros E. unfold wp, onKV. rewrite E. by destruct (body s w r) as [[a w'] r']. Qed.

(** ** Locks *)

(** Taking a lock: the key is free, or what it holds has expired. *)
Definition lockStep (b : bool) ck (body : bytes) (t0 t1 : Z) r1 r2 : Prop :=
  (current (nl_last r1 ck) = None \/ exists t, t0 <= t <= t1 /\ lapsed b t (nl_last r1 ck)) /\ putStep ck body r1 r2.

(** The key is held, or somebody else has changed it. *)
Definition contended (b : bool) ck (t0 t1 : Z) r r1 : Prop :=
  (exists t, t0 <= t <= t1 /\ is_Some (entryView b t (nl_last r1 ck))) \/ nl_last r1 ck <> nl_last r ck.

Definition acquire_post b ck body t0 t1 r (x : bool * option error) r' : Prop :=
  match x with
  | (true, None) => atomically r r' (lockStep b ck body t0 t1)
  | (false, None) => during r r' (contended b ck t0 t1 r)
  | (won, Some _) => won = false /\ maybe r r' (lockStep b ck body t0 t1)
  end.

Lemma createStep_lock b ck body t0 t1 r1 r2 : createStep ck body r1 r2 -> lockStep b ck body t0 t1 r1 r2.
Proof. intros [Hc Hp]. split; [by left | done]. Qed.

(** [Create] after [Get] found the key missing. *)
Lemma create_missing_wp b ck body t0 t1 w r r0 r1 :
  world_ok w -> nl_ok r1 -> nl_rely r r0 -> current (nl_last r0 ck) = None -> nl_rely r0 r1 ->
  wp (createLock ck body) (fun x w' r' => later w w' /\ nl_ok r' /\ acquire_post b ck body t0 t1 r x r') w r1.
Proof.
  intros Hw Hr1 Ra Hmiss Rb. assert (nl_rely r r1) as Rab by by transitivity r0.
  eapply wp_mono; [by apply createLock_wp|]. intros [[] [e|]] w' r' (Hl & Hr' & Hx); (split; [done|]); (split; [done|]).
  - by destruct Hx.
  - eapply atomically_mono; [by eapply atomically_from|]. intros r2 r3 _. apply createStep_lock.
  - split; [done|]. destruct Hx as [_ Hx]. eapply maybe_mono; [by eapply maybe_from|]. intros r2 r3 _. apply createStep_lock.
  - apply (during_mono r r' (fun r2 => nl_last r2 ck <> nl_last r ck)); [|intros r2 _ Hne; by right].
    destruct Hx as (r2 & Rc & [Hc|Hc] & Rd); [|by eapply changed_during].
    eapply (changed_during r r0 r2); [done|by transitivity r1|done|]. intros E. by rewrite E in Hc.
Qed.

(** [Update] of an expired entry that was read in [r0]. *)
Lemma update_lapsed_wp b ck entry body t0 t1 t w r r0 r1 :
  world_ok w -> nl_ok r0 -> nl_ok r1 -> nl_rely r r0 -> nl_rely r0 r1 ->
  nl_last r0 ck = Some entry -> Operation entry = KeyValuePut -> t0 <= t <= t1 -> lapsed b t (nl_last r0 ck) ->
  wp (kv_Update ck body (Revision entry)) (fun x w' r' => later w w' /\ nl_ok r' /\
    match x with
    | inl _ => atomically r r' (lockStep b ck body t0 t1)
    | inr e => maybe r r' (lockStep b ck body t0 t1) /\
        (errorsIs e ErrKeyExists = true -> during r r' (contended b ck t0 t1 r))
    end) w r1.
Proof.
  intros Hw Hr0 Hr1 Ra Rb Hlast Hop Ht Hlap. assert (nl_rely r r1) as Rab by by transitivity r0.
  assert (forall r2 r3, nl_rely r1 r2 -> updateStep ck body (Revision entry) r2 r3 ->
    lockStep b ck body t0 t1 r2 r3) as Hstep.
  { intros r2 r3 Rc [Hrev Hput]. split; [right|done]. exists t. split; [done|].
    rewrite Hlast in Hlap. erewrite revision_same; [done|exact Hr0|by transitivity r1|done|done]. }
  eapply wp_mono; [by apply nl_update|]. intros [rev|e] w' r' (Hl & Hr' & Hx); (split; [done|]); (split; [done|]).
  { eapply atomically_from; [done|]. by eapply atomically_mono. }
  destruct Hx as [Hm Hc]. split; [eapply maybe_from; [done|]; by eapply maybe_mono|].
  intros He. rewrite He in Hc. destruct (Hc eq_refl) as (r2 & Rc & Hne & Rd).
  apply (during_mono r r' (fun r2 => nl_last r2 ck <> nl_last r ck)); [|intros r3 _ ?; by right].
  eapply (changed_during r r0 r2); [done|by transitivity r1|done|]. intros E. rewrite E, Hlast in Hne.
  rewrite (current_put (Some entry) entry) in Hne by done. by destruct Hne as [|[]].
Qed.

(** The test whether an entry that was read has expired. *)
Lemma entry_lapsed_wp o e env (wrapped : bool) w r :
  world_ok w -> current o = Some e -> decodeEnvelope (Value e) = (env, wrapped, None) ->
  wp (if wrapped then envExpired env else ret false) (fun x w' r' => later w w' /\ r' = r /\
    (if x : bool then lapsed false (now w) o else is_Some (entryView false (now w) o))) w r.
Proof.
  intros Hw Hcur Ed. unfold entryView. rewrite Hcur, Ed. destruct wrapped.
  - eapply wp_mono; [by apply envExpired_wp|]. intros x w2 r2 (Hl2 & -> & ->). split; [done|]. split; [done|].
    destruct (expiredAt _ _) eqn:Ex; [split; [done|]; by exists e, env | by eexists].
  - split; [by apply later_refl|]. split; [done|]. by eexists.
Qed.

Lemma acquire_post_widen b ck body t0 t1 u1 r x r' :
  acquire_post b ck body t0 t1 r x r' -> t1 <= u1 -> acquire_post b ck body t0 u1 r x r'.
Proof.
  intros Hx Ht.
  assert (forall r1 r2, lockStep b ck body t0 t1 r1 r2 -> lockStep b ck body t0 u1 r1 r2) as Hstep.
  { intros r1 r2 [Hc Hp]. split; [|done]. destruct Hc as [?|(t & Hi & ?)]; [by left | right]. exists t. split; [lia|done]. }
  destruct x as [[] [e|]]; simpl in *; [by destruct Hx|..].
  - eapply atomically_mono; eauto.
  - destruct Hx as [? Hx]. split; [done|]. eapply maybe_mono; eauto.
  - eapply during_mono; [done|]. intros r1 _ [(t & Hi & ?)|?]; [left|by right]. exists t. split; [lia|done].
Qed.

Lemma acquire_wp ctx key owner ttl w s r :
  ns_kv s = Some r -> world_ok w -> nl_ok r ->
  wp (nats_LockAcquire ctx key owner ttl) (fun x w' s' => exists r', s' = with_kv s r' /\ later w w' /\ nl_ok r' /\
    acquire_post (ns_bucketTTL s) (nats_cacheKey s key) (bodyAt s owner ttl (now w)) (now w) (now w') r x r') w s.
Proof.
  intros Es Hw Hr. unfold nats_LockAcquire. eapply wp_onKV; [exact Es|]. set (ck := nats_cacheKey s key).
  unfold bodyAt. destruct (ns_bucketTTL s) eqn:Eb.
  { unfold addBucketLock. fold ck. eapply wp_mono; [by apply createLock_wp|].
    intros [[] [e|]] w' r' (Hl & Hr' & Hx); exists r'; (do 3 (split; [done|])); [by destruct Hx|..].
    - eapply atomically_mono; [done|]. intros r2 r3 _. apply createStep_lock.
    - destruct Hx as [? Hx]. split; [done|]. eapply maybe_mono; [done|]. intros r2 r3 _. apply createStep_lock.
    - eapply during_mono; [done|]. intros r1 _ [Hc|Hc]; [left|by right]. exists (now w).
      pose proof (later_now _ _ Hl). split; [lia|]. unfold entryView. destruct (current _); [by eexists|done]. }
  apply wp_bind. eapply wp_mono; [by apply encodeEnvelope_wp|]. intros body w0 ? (Hl0 & -> & Hbody). rewrite <- Hbody.
  apply wp_bind. eapply wp_mono; [apply nl_get; [by eauto with go|done]|].
  intros x w1 r1 (Hl1 & Hr1 & r0 & Ra & Hx & Rb).
  assert (later w w1) as Hl by by eapply later_trans. pose proof (later_now _ _ Hl) as Hn.
  assert (nl_rely r r1) as Rab by by transitivity r0. assert (nl_ok r0) as Hr0 by by eapply nl_rely_ok.
  destruct x as [e|e].
  2: { destruct (isMiss e) eqn:Em.
       - eapply wp_mono; [eapply (create_missing_wp false ck body (now w) (now w1)); [by eauto with go|done|exact Ra|auto|done]|].
         intros x w' r' (Hl' & Hr' & Hpost). exists r'. split; [done|]. split; [by eapply later_trans|]. split; [done|].
         by eapply acquire_post_widen, later_now.
       - exists r1. split; [done|]. split; [done|]. split; [done|]. split; [done|]. by left. }
  destruct Hx as [Hlast Hop]. pose proof (current_put _ _ Hlast Hop) as Hcur.
  destruct (decodeEnvelope (Value e)) as [[env wrapped] derr] eqn:Ed.
  destruct derr as [de|].
  { exists r1. do 4 (split; [done|]). by left. }
  apply wp_bind.
  eapply wp_mono; [eapply entry_lapsed_wp; [by eauto with go|exact Hcur|exact Ed]|]. intros x w2 ? (Hl2 & -> & Hlap). pose proof (later_now _ _ Hl2).
  destruct x; cbn [negb].
  - apply wp_bind. eapply wp_mono.
    { eapply (update_lapsed_wp false ck e body (now w) (now w1) (now w1)); [by eauto with go|exact Hr0|done|done|done|done|done|lia|done]. }
    intros u w3 r3 (Hl3 & Hr3 & Hu). pose proof (later_now _ _ Hl3).
    assert (later w w3) by eauto using later_trans.
    destruct u as [rev|ue]; [|destruct Hu as [Hm Hc]; destruct (errorsIs ue ErrKeyExists)];
      exists r3; (do 3 (split; [done|])); (apply (acquire_post_widen _ _ _ _ (now w1)); [|lia]); [done|by apply Hc|by split].
  - exists r1. split; [done|]. split; [by eapply later_trans|]. split; [done|]. exists r0. split; [done|]. split; [|done].
    left. exists (now w1). split; [lia|done].
Qed.

(** Releasing a lock: the key shows the owner's token. *)
Definition releaseStep (b : bool) ck (owner : bytes) (t0 t1 : Z) r1 r2 : Prop :=
  (exists t, t0 <= t <= t1 /\ entryView b t (nl_last r1 ck) = Some owner) /\ goneStep ck r1 r2.

(** The key did not show the owner's token, or somebody else has changed it. *)
Definition foreign (b : bool) ck (owner : bytes) (t0 t1 : Z) r r1 : Prop :=
  (exists t, t0 <= t <= t1 /\ entryView b t (nl_last r1 ck) <> Some owner) \/ nl_last r1 ck <> nl_last r ck.

Definition released_post b ck owner t0 t1 r (x : bool * option error) r' : Prop :=
  match x with
  | (true, None) => atomically r r' (releaseStep b ck owner t0 t1)
  | (false, None) => during r r' (foreign b ck owner t0 t1 r)
  | (released, Some _) => released = false /\ maybe r r' (releaseStep b ck owner t0 t1)
  end.

Lemma released_post_widen b ck owner t0 t1 u0 u1 r x r' :
  released_post b ck owner t0 t1 r x r' -> u0 <= t0 -> t1 <= u1 -> released_post b ck owner u0 u1 r x r'.
Proof.
  intros Hx Ht0 Ht1.
  assert (forall r1 r2, releaseStep b ck owner t0 t1 r1 r2 -> releaseStep b ck owner u0 u1 r1 r2) as Hstep.
  { intros r1 r2 [(t & Hi & ?) Hp]. split; [|done]. exists t. split; [lia|done]. }
  destruct x as [[] [e|]]; simpl in *; [by destruct Hx|..].
  - eapply atomically_mono; eauto.
  - destruct Hx as [? Hx]. split; [done|]. eapply maybe_mono; eauto.
  - eapply during_mono; [done|]. intros r1 _ [(t & Hi & ?)|?]; [left|by right]. exists t. split; [lia|done].
Qed.

Lemma lockBody_wp s o e w r : world_ok w -> o = Some e -> Operation e = KeyValuePut ->
  wp (lockBody s e) (fun x w' r' => later w w' /\ r' = r /\
    match x with inl v => v = entryView (ns_bucketTTL s) (now w) o | inr _ => True end) w r.
Proof.
  intros Hw Ho Hop. unfold lockBody. rewrite (entryView_put _ _ _ _ Ho Hop). destruct (ns_bucketTTL s).
  { by split; [apply later_refl|]. }
  destruct (decodeEnvelope (Value e)) as [[env []] [err|]]; try (by split; [apply later_refl|]).
  apply wp_bind. eapply wp_mono; [by apply envExpired_wp|]. by intros x w2 r2 (Hl2 & -> & ->).
Qed.

(** [Delete] of the entry with the owner's token that was read in [r0]. *)
Lemma delete_owned_wp b ck owner entry t w r r0 r1 :
  world_ok w -> nl_ok r0 -> nl_ok r1 -> nl_rely r r0 -> nl_rely r0 r1 ->
  nl_last r0 ck = Some entry -> Operation entry = KeyValuePut -> entryView b t (nl_last r0 ck) = Some owner ->
  wp (kv_Delete ck (Some (Revision entry))) (fun x w' r' => later w w' /\ nl_ok r' /\
    match x with
    | None => atomically r r' (releaseStep b ck owner t t)
    | Some e => maybe r r' (releaseStep b ck owner t t) /\
        (isMiss e || errorsIs e ErrKeyExists = true -> during r r' (foreign b ck owner t t r))
    end) w r1.
Proof.
  intros Hw Hr0 Hr1 Ra Rb Hlast Hop Hview. assert (nl_rely r r1) as Rab by by transitivity r0.
  assert (forall r2 r3, nl_rely r1 r2 -> deleteStep ck (Some (Revision entry)) r2 r3 ->
    releaseStep b ck owner t t r2 r3) as Hstep.
  { intros r2 r3 Rc [Hrev Hgone]. split; [|done]. exists t. split; [lia|].
    rewrite Hlast in Hview. erewrite revision_same; [done|exact Hr0|by transitivity r1|done|]. by apply Hrev. }
  eapply wp_mono; [by apply nl_delete|]. intros [e|] w' r' (Hl & Hr' & Hx); (split; [done|]); (split; [done|]).
  2: { eapply atomically_from; [done|]. by eapply atomically_mono. }
  destruct Hx as (Hm & Hmiss & Hex). split; [eapply maybe_from; [done|]; by eapply maybe_mono|].
  intros He. apply (during_mono r r' (fun r2 => nl_last r2 ck <> nl_last r ck)); [|intros r3 _ ?; by right].
  assert (during r1 r' (fun r2 => nl_last r2 ck <> nl_last r0 ck)) as (r2 & Rc & Hne & Rd).
  { apply orb_true_iff in He as [He|He]; (eapply during_mono; [by auto|]); intros r2 _ Hr2 E; cbv beta in Hr2; rewrite E, Hlast in Hr2.
    - by rewrite (current_put (Some entry) entry) in Hr2.
    - by destruct Hr2 as (rev & [= <-] & []). }
  eapply (changed_during r r0 r2); [done|by transitivity r1|done|done].
Qed.

Lemma release_wp ctx key owner w s r :
  ns_kv s = Some r -> world_ok w -> nl_ok r ->
  wp (nats_LockRelease ctx key owner) (fun x w' s' => exists r', s' = with_kv s r' /\ later w w' /\ nl_ok r' /\
    released_post (ns_bucketTTL s) (nats_cacheKey s key) owner (now w) (now w') r x r') w s.
Proof.
  intros Es Hw Hr. unfold nats_LockRelease. eapply wp_onKV; [exact Es|]. set (ck := nats_cacheKey s key).
  set (b := ns_bucketTTL s). apply wp_bind. eapply wp_mono; [by apply nl_get|].
  intros x w1 r1 (Hl & Hr1 & r0 & Ra & Hx & Rb). pose proof (later_now _ _ Hl).
  assert (nl_rely r r1) as Rab by by transitivity r0. assert (nl_ok r0) as Hr0 by by eapply nl_rely_ok.
  assert (forall t w', later w w' -> now w <= t <= now w' -> entryView b t (nl_last r0 ck) <> Some owner ->
    during r r1 (foreign b ck owner (now w) (now w') r)) as Hforeign.
  { intros t w' _ Ht Hne. exists r0. split; [done|]. split; [|done]. left. by exists t. }
  destruct x as [e|e].
  2: { destruct (isMiss e); exists r1; (do 3 (split; [done|])); [|split; [done|by left]].
       apply (Hforeign (now w)); [done|lia|]. unfold entryView. by rewrite Hx. }
  destruct Hx as [Hlast Hop]. apply wp_bind.
  eapply wp_mono; [eapply lockBody_wp; [by eauto with go|exact Hlast|done]|]. intros x w2 ? (Hl2 & -> & Hv).
  pose proof (later_now _ _ Hl2). assert (later w w2) as Hlw by by eapply later_trans.
  destruct x as [[body|]|e']; [|exists r1; do 3 (split; [done|])..].
  2: { apply (Hforeign (now w1)); [done|lia|]. fold b in Hv. by rewrite <- Hv. }
  2: { split; [done|by left]. }
  case_bool_decide as Eo; cbn [negb].
  2: { exists r1. do 3 (split; [done|]). apply (Hforeign (now w1)); [done|lia|]. fold b in Hv. rewrite <- Hv. congruence. }
  subst body. apply wp_bind. eapply wp_mono.
  { eapply (delete_owned_wp b ck owner e (now w1)); [by eauto with go|exact Hr0|done|done|done|done|done|done]. }
  intros err w3 r3 (Hl3 & Hr3 & Hd). pose proof (later_now _ _ Hl3). assert (later w w3) by eauto using later_trans.
  destruct err as [ue|]; [destruct Hd as [Hm Hc]; destruct (isMiss ue || errorsIs ue ErrKeyExists)|];
    exists r3; (do 3 (split; [done|])); (apply (released_post_widen _ _ _ (now w1) (now w1)); [|lia..]);
    [by apply Hc | by split | done].
Qed.

(** ** Counters *)

(** The number an attempt starts from; an empty value counts as 0. *)
Definition startsFrom (v : option bytes) (c : Z) : Prop := (v = Some [] /\ c = 0) \/ counts v c.

Definition readStart b ck t0 t1 r (c rev : Z) r' : Prop :=
  (rev = 0 /\ c = 0 /\ exists r1, nl_rely r r1 /\
     (nl_rely r1 r' /\ current (nl_last r1 ck) = None \/
      (exists t, t0 <= t <= t1 /\ lapsed b t (nl_last r1 ck)) /\ purged ck r1 r')) \/
  (exists r1 e t v, nl_rely r r1 /\ nl_rely r1 r' /\ nl_last r1 ck = Some e /\ Operation e = KeyValuePut /\
     rev = Revision e /\ t0 <= t <= t1 /\ entryView b t (nl_last r1 ck) = Some v /\ startsFrom (Some v) c).

Lemma parseCounter_starts key raw c : parseCounter key raw = inl c -> startsFrom (Some raw) c.
Proof.
  unfold parseCounter. destruct raw as [|x raw]; [intros [= <-]; by left|].
  destruct (Z.gtb_spec (len (x :: raw)) 0) as [_|Hl]; [|unfold len in Hl; simpl in Hl; lia].
  destruct (ParseInt _) eqn:E; [|done]. intros [= <-]. by right.
Qed.

Lemma readCounter_wp s key w r : world_ok w -> nl_ok r ->
  let ck := nats_cacheKey s key in
  wp (readCounter s ck key) (fun x w' r' => later w w' /\ nl_ok r' /\
    match x with
    | inr _ => nl_rely r r'
    | inl (c, rev) => readStart (ns_bucketTTL s) ck (now w) (now w') r c rev r'
    end) w r.
Proof.
  intros Hw Hr ck. unfold readCounter. apply wp_bind. eapply wp_mono; [by apply nl_get|].
  intros x w1 r1 (Hl & Hr1 & r0 & Ra & Hx & Rb). pose proof (later_now _ _ Hl).
  assert (nl_rely r r1) as Rab by by transitivity r0. destruct x as [e|e].
  2: { destruct (isMiss e); (split; [done|]); (split; [done|]); [|done].
       left. do 2 (split; [done|]). exists r0. split; [done|]. left. auto. }
  destruct Hx as [Hlast Hop]. unfold entryCounter. rewrite decide_False by (rewrite Hop; by intros [|]).
  set (b := ns_bucketTTL s). assert (Hview := fun t => entryView_put b t _ _ Hlast Hop).
  assert (forall t raw w2, later w1 w2 -> now w <= t <= now w2 -> entryView b t (nl_last r0 ck) = Some raw ->
    wp (match parseCounter key raw with inl c => ret (inl (c, Revision e)) | inr e' => ret (inr e') end)
      (fun x w' r' => later w w' /\ nl_ok r' /\
        match x with inr _ => nl_rely r r' | inl (c, rev) => readStart b ck (now w) (now w') r c rev r' end) w2 r1) as Hfound.
  { intros t raw w2 Hl2 Ht Hv. assert (later w w2) by by eapply later_trans.
    destruct (parseCounter key raw) as [c|e'] eqn:Ep; [|by split]. apply parseCounter_starts in Ep.
    split; [done|]. split; [done|]. right. by exists r0, e, t, raw. }
  apply wp_bind. destruct b eqn:Eb.
  { apply (Hfound (now w1)); [by apply later_refl; eauto with go|lia|apply Hview]. }
  destruct (decodeEnvelope (Value e)) as [[env []] [err|]] eqn:Ed.
  - by split.
  - apply wp_bind. eapply wp_mono; [apply envExpired_wp; by eauto with go|]. intros x w2 ? (Hl2 & -> & ->).
    pose proof (later_now _ _ Hl2). destruct (expiredAt _ _) eqn:Ex.
    + apply wp_bind. eapply wp_mono; [apply purge_wp; by eauto with go|]. intros _ w3 r3 (Hl3 & Hr3 & Hp).
      pose proof (later_now _ _ Hl3). split; [eauto using later_trans|]. split; [done|]. left. do 2 (split; [done|]).
      exists r0. split; [done|]. right. split.
      * exists (now w1). split; [lia|]. split; [done|]. exists e, env. split; [by apply current_put|done].
      * by eapply purged_from.
    + apply (Hfound (now w1)); [done|lia|]. by rewrite Hview, Ex.
  - by split.
  - apply (Hfound (now w1)); [by apply later_refl; eauto with go|lia|apply Hview].
Qed.

(** One attempt, and the loop.  The number is written over the entry it was read
    from, or created where there is none. *)
Definition countStep b ck (t0 t1 delta n : Z) (body : bytes) r1 r2 : Prop :=
  (exists t c, t0 <= t <= t1 /\ startsFrom (entryView b t (nl_last r1 ck)) c /\ n = wrap64 (c + delta)) /\
  putStep ck body r1 r2.

(** Whatever else happened, other keys were left to the others. *)
Definition touched ck r r' : Prop := rtc (fun a b => nl_rely a b \/ others_same ck a b) r r'.

Definition counted_post s ck (t0 t1 delta ttl : Z) r (x : Z * option error) r' : Prop :=
  match x with
  | (n, None) => exists r0 u, rtc (cleaned (ns_bucketTTL s) ck t0 t1) r r0 /\ t0 <= u <= t1 /\
      atomically r0 r' (countStep (ns_bucketTTL s) ck t0 t1 delta n (bodyAt s (bytes_of_string (FormatInt n)) ttl u))
  | (n, Some _) => n = 0 /\ touched ck r r'
  end.

Lemma touched_rely ck r r' : nl_rely r r' -> touched ck r r'.
Proof. intros. apply rtc_once. by left. Qed.

Lemma touched_atomically ck r r' P :
  atomically r r' P -> (forall r1 r2, P r1 r2 -> others_same ck r1 r2) -> touched ck r r'.
Proof.
  intros (r1 & r2 & Ra & HP & Rb) Ho. eapply rtc_l; [left; exact Ra|]. eapply rtc_l; [right; by apply Ho|].
  by apply touched_rely.
Qed.

Lemma cleaned_touched b ck t0 t1 r r' : rtc (cleaned b ck t0 t1) r r' -> touched ck r r'.
Proof.
  induction 1 as [r|r1 r2 r3 [Hc|[_ Hc]] _ IH]; [by apply rtc_refl|eapply rtc_l; [by left|done]|].
  unfold touched in *. etransitivity; [|exact IH]. eapply touched_atomically; [done|]. by intros ?? (_ & ? & _).
Qed.

(** Before the conditional write of an attempt. *)
Lemma readStart_cleaned b ck t0 t1 r c rev r' :
  readStart b ck t0 t1 r c rev r' -> rtc (cleaned b ck t0 t1) r r'.
Proof.
  intros [(_ & _ & r1 & Ra & [[Rb _]|[(t & Ht & Hlap) Hp]])|(r1 & e & t & v & Ra & Rb & _)].
  - apply rtc_once. left. by transitivity r1.
  - eapply rtc_l; [left; exact Ra|]. apply rtc_once. by eapply purged_cleaned.
  - apply rtc_once. left. by transitivity r1.
Qed.

Lemma entryView_none b t o : current o = None -> entryView b t o = None.
Proof. intros E. unfold entryView. by rewrite E. Qed.

Lemma create_counter_wp b ck t0 t1 delta body w r r1 :
  world_ok w -> nl_ok r1 -> t0 <= t1 -> rtc (cleaned b ck t0 t1) r r1 ->
  let n := wrap64 (0 + delta) in
  wp (writeCounter ck body 0 n) (fun x w' r' => later w w' /\ nl_ok r' /\
    match x with
    | Some (m, None) => m = n /\ atomically r1 r' (countStep b ck t0 t1 delta n body)
    | Some (m, Some _) => m = 0 /\ touched ck r r'
    | None => rtc (cleaned b ck t0 t1) r r'
    end) w r1.
Proof.
  intros Hw Hr1 Ht Hcl n. unfold writeCounter. cbn [Z.eqb]. apply wp_bind. eapply wp_mono; [by apply nl_create|].
  intros [rev|e] w' r' (Hl & Hr' & Hx); [|destruct Hx as [Hm He]; destruct (errorsIs e ErrKeyExists)];
    (split; [done|]); (split; [done|]); [split; [done|]| |split; [done|]].
  - eapply atomically_mono; [done|]. intros r2 r3 _ [Hc Hp]. split; [|done]. exists t0, 0. split; [lia|].
    split; [|done]. rewrite entryView_none by done. by right.
  - eapply rtc_r; [done|]. left. eapply during_rely. by apply He.
  - unfold touched. etransitivity; [by eapply cleaned_touched|]. destruct Hm as [Hm|Hm]; [by apply touched_rely|].
    eapply touched_atomically; [done|]. by intros ?? (_ & _ & ? & _).
Qed.

Lemma update_counter_wp b ck t0 t1 delta body w r r0 r1 e t v c :
  world_ok w -> nl_ok r0 -> nl_ok r1 -> nl_rely r r0 -> nl_rely r0 r1 -> nl_last r0 ck = Some e ->
  t0 <= t <= t1 -> entryView b t (nl_last r0 ck) = Some v -> startsFrom (Some v) c ->
  let n := wrap64 (c + delta) in
  wp (writeCounter ck body (Revision e) n) (fun x w' r' => later w w' /\ nl_ok r' /\
    match x with
    | Some (m, None) => m = n /\ atomically r1 r' (countStep b ck t0 t1 delta n body)
    | Some (m, Some _) => m = 0 /\ touched ck r r'
    | None => nl_rely r r'
    end) w r1.
Proof.
  intros Hw Hr0 Hr1 Ra Rb Hlast Ht Hv Hc n. pose proof (nl_revision_pos _ _ _ Hr0 Hlast).
  assert (nl_rely r r1) as Rab by by transitivity r0.
  unfold writeCounter. destruct (Z.eqb_spec (Revision e) 0); [lia|]. apply wp_bind. eapply wp_mono; [by apply nl_update|].
  intros [rev|e'] w' r' (Hl & Hr' & Hx); [|destruct Hx as [Hm He]; destruct (errorsIs e' ErrKeyExists || isMiss e')];
    (split; [done|]); (split; [done|]); [split; [done|]| |split; [done|]].
  - eapply atomically_mono; [done|]. intros r2 r3 Rc [Hrev Hp]. split; [|done]. exists t, c. split; [done|].
    split; [|done]. rewrite (revision_same r0 r2 ck e), <- Hlast, Hv by (done || by transitivity r1). done.
  - transitivity r1; [done|]. eapply during_rely. by apply He.
  - unfold touched. eapply rtc_l; [by left|]. destruct Hm as [Hm|Hm]; [by apply touched_rely|].
    eapply touched_atomically; [done|]. by intros ?? (_ & _ & ? & _).
Qed.

(** The conditional write after [readCounter]. *)
Lemma writeCounter_wp b ck t0 t1 delta body w r c rev r1 :
  world_ok w -> nl_ok r -> nl_ok r1 -> t0 <= t1 -> readStart b ck t0 t1 r c rev r1 ->
  let n := wrap64 (c + delta) in
  wp (writeCounter ck body rev n) (fun x w' r' => later w w' /\ nl_ok r' /\
    match x with
    | Some (m, None) => m = n /\ exists r0, rtc (cleaned b ck t0 t1) r r0 /\ atomically r0 r' (countStep b ck t0 t1 delta n body)
    | Some (m, Some _) => m = 0 /\ touched ck r r'
    | None => rtc (cleaned b ck t0 t1) r r'
    end) w r1.
Proof.
  intros Hw Hr Hr1 Ht Hread n. pose proof (readStart_cleaned _ _ _ _ _ _ _ _ Hread) as Hcl.
  destruct Hread as [(-> & -> & _)|(r0 & e & t & v & Ra & Rb & Hlast & _ & -> & Hi & Hv & Hc)].
  - eapply wp_mono; [by eapply create_counter_wp|]. intros [[m [e|]]|] w' r' (Hl & Hr' & Hx); (split; [done|]); (split; [done|]); [done| |done].
    destruct Hx as [-> Hx]. split; [done|]. by exists r1.
  - assert (nl_ok r0) by by eapply nl_rely_ok.
    eapply wp_mono; [by apply (update_counter_wp b ck t0 t1 delta body w r r0 r1 e t v c)|].
    intros [[m [e'|]]|] w' r' (Hl & Hr' & Hx); (split; [done|]); (split; [done|]); [done| |apply rtc_once; by left].
    destruct Hx as [-> Hx]. split; [done|]. by exists r1.
Qed.

Lemma counted_post_widen s ck t0 t1 u0 u1 delta ttl r x r' :
  counted_post s ck t0 t1 delta ttl r x r' -> u0 <= t0 -> t1 <= u1 -> counted_post s ck u0 u1 delta ttl r x r'.
Proof.
  intros Hx Ra Rb. destruct x as [n [e|]]; [done|]. destruct Hx as (r0 & u & Hcl & Hu & Hat). exists r0, u. split.
  { eapply rtc_subrel; [|exact Hcl]. intros a b Hab. by eapply cleaned_widen. }
  split; [lia|]. eapply atomically_mono; [done|]. intros r1 r2 _ [(t & c & Ht & Hc) Hp]. split; [|done].
  exists t, c. split; [lia | done].
Qed.

(** An attempt that lost a race comes before the others. *)
Lemma counted_post_after s ck t0 t1 delta ttl r r1 x r' :
  rtc (cleaned (ns_bucketTTL s) ck t0 t1) r r1 -> counted_post s ck t0 t1 delta ttl r1 x r' ->
  counted_post s ck t0 t1 delta ttl r x r'.
Proof.
  intros Hcl Hx. destruct x as [n [e|]].
  - destruct Hx as [-> Hx]. split; [done|]. unfold touched in *. etransitivity; [by eapply cleaned_touched | done].
  - destruct Hx as (r0 & u & Hcl0 & Hu & Hat). exists r0, u. split; [by etransitivity | done].
Qed.

Lemma incrementLoop_wp attempts s key delta ttl w r : world_ok w -> nl_ok r ->
  wp (incrementLoop attempts s key delta ttl) (fun x w' r' => later w w' /\ nl_ok r' /\
    counted_post s (nats_cacheKey s key) (now w) (now w') delta ttl r x r') w r.
Proof.
  revert w r. induction attempts as [|attempts IH]; intros w r Hw Hr.
  { split; [by apply later_refl|]. split; [done|]. split; [done|]. apply rtc_refl. }
  cbn [incrementLoop]. set (ck := nats_cacheKey s key) in *. apply wp_bind.
  eapply wp_mono; [by apply readCounter_wp|]. intros x w1 r1 (Hl1 & Hr1 & Hx). pose proof (later_now _ _ Hl1).
  destruct x as [[c rev]|e].
  2: { split; [done|]. split; [done|]. split; [done|]. by apply touched_rely. }
  apply wp_bind. eapply wp_mono; [apply nats_body_wp; by eauto with go|]. intros body w2 ? (Hl2 & -> & ->).
  pose proof (later_now _ _ Hl2). apply wp_bind.
  eapply wp_mono; [eapply (writeCounter_wp _ _ (now w) (now w1)); [by eauto with go|exact Hr|done|lia|exact Hx]|].
  intros done_ w3 r3 (Hl3 & Hr3 & Hd). pose proof (later_now _ _ Hl3).
  assert (later w w3) as Hl by eauto using later_trans. destruct done_ as [[n [e|]]|].
  - split; [done|]. split; [done|]. done.
  - split; [done|]. split; [done|]. destruct Hd as [-> (r0 & Hcl & Hat)].
    apply (counted_post_widen s ck (now w) (now w1)); [|lia..]. exists r0, (now w1). split; [done|]. split; [lia | done].
  - eapply wp_mono; [apply IH; by eauto with go|]. intros x w' r' (Hl' & Hr' & Hpost). pose proof (later_now _ _ Hl').
    split; [eauto using later_trans|]. split; [done|]. eapply counted_post_after; [|eapply counted_post_widen; [done|lia..]].
    eapply rtc_subrel; [|exact Hd]. intros a b Hab. eapply cleaned_widen; [done|lia..].
Qed.

Lemma increment_wp ctx key delta ttl w s r :
  ns_kv s = Some r -> world_ok w -> nl_ok r ->
  wp (nats_Increment ctx key delta ttl) (fun x w' s' => exists r', s' = with_kv s r' /\ later w w' /\ nl_ok r' /\
    counted_post s (nats_cacheKey s key) (now w) (now w') delta ttl r x r') w s.
Proof.
  intros Es Hw Hr. unfold nats_Increment. eapply wp_onKV; [exact Es|]. eapply wp_mono; [by apply incrementLoop_wp|].
  intros x w' r' Hx. by exists r'.
Qed.
End Sequences.
