(* ===== verification/NatsLaws.v ===== *)
(** * The NATS store: contracts, atomicity, and what concurrency can break

    Without interference the store keeps the store, lock and counter contracts.  With
    any number of other clients its locks and counters are still single atomic
    steps, because their writes are conditional.  Its removal of expired entries is
    not conditional: the last part shows a read that deletes a value another client
    has just written. *)

From stdpp Require Import relations.
From S2P Require Import Prelude GoStd Base64 CacheCore Transport InspectHelpers Shaping Wrapping MemoryStore NatsStore NatsContract.

(** Nobody else uses the bucket, and requests that remove keys do not fail. *)
Class NatsAlone (K : Type) `{KVView K} := {
  na_rely r r' k : nl_rely r r' -> nl_last r' k = nl_last r k;
  na_reliable : ~ nl_faulty (K := K)
}.

Section Alone.
Context {K : Type} `{BucketLaws K} `{!NatsAlone K} `{EnvelopeJSON}.
Implicit Types (r : K) (s : natsStore K).

(** Durations below a millisecond may be lost in the expiry, which counts
    milliseconds and takes 0 for never. *)
#[export] Instance natsStore_keys : KeySpace (natsStore K) :=
  mkKeySpace _ (fun k' k => k' <> k) (fun _ ttl => Millisecond <= ttl).

Definition nats_ok s : Prop :=
  ttl_ok (ns_defaultTTL s) /\ ns_bucketTTL s = false /\ ns_scopePrefixStr s = scopePrefixOf (ns_prefix s) /\
  exists r, ns_kv s = Some r /\ nl_ok r.

Definition nats_peek s (t : Z) (k : string) : option bytes :=
  match ns_kv s with
  | Some r => entryView (ns_bucketTTL s) t (nl_last r (nats_cacheKey s k))
  | None => None
  end.
Definition nats_occupied s t k : Prop := is_Some (nats_peek s t k).

Lemma nats_ok_with s r : nats_ok s -> nl_ok r -> nats_ok (with_kv s r).
Proof. intros (Hd & Hb & Hp & _) Hr. repeat (split; [done|]). by exists r. Qed.

Lemma nats_cacheKey_inj s k k' : nats_cacheKey s k = nats_cacheKey s k' -> k = k'.
Proof.
  unfold nats_cacheKey. intros E. apply (f_equal (fun x => TrimPrefix x (ns_scopePrefixStr s))) in E.
  rewrite !TrimPrefix_app in E. by apply (inj encodeKeyPart).
Qed.

(** ** States of the bucket *)

Lemma alone_during r r' P : during r r' P -> exists r1, P r1 /\ forall k, nl_last r1 k = nl_last r k /\ nl_last r' k = nl_last r k.
Proof.
  intros (r1 & Ra & HP & Rb). exists r1. split; [done|]. intros k. split; [by apply na_rely|].
  by rewrite (na_rely r1 r'), (na_rely r r1).
Qed.

(** One step of this client, seen from the states around it. *)
Lemma alone_atomically r r' P :
  atomically r r' P -> exists r1 r2, P r1 r2 /\ (forall k, nl_last r1 k = nl_last r k) /\ (forall k, nl_last r' k = nl_last r2 k).
Proof. intros (r1 & r2 & Ra & HP & Rb). exists r1, r2. split; [done|]. split; intros k; by apply na_rely. Qed.

Lemma same_last w s r r' k : ns_kv s = Some r ->
  nl_last r' (nats_cacheKey s k) = nl_last r (nats_cacheKey s k) -> same_key nats_peek w s (with_kv s r') k.
Proof. intros Es E t _. unfold nats_peek. rewrite Es. simpl. change (nats_cacheKey (with_kv s r') k) with (nats_cacheKey s k). by rewrite E. Qed.

Lemma same_rely w s r r' k : ns_kv s = Some r -> nl_rely r r' -> same_key nats_peek w s (with_kv s r') k.
Proof. intros Es Hr. apply (same_last _ _ r); [done | by apply na_rely]. Qed.

Lemma others_put w s r r' k k' :
  ns_kv s = Some r -> k' <> k ->
  (forall x, x <> nats_cacheKey s k -> nl_last r' x = nl_last r x) -> same_key nats_peek w s (with_kv s r') k'.
Proof. intros Es Hne Ho. apply (same_last _ _ r); [done|]. apply Ho. intros E. by apply Hne, (nats_cacheKey_inj s). Qed.

Lemma gone_removed w s r' k : current (nl_last r' (nats_cacheKey s k)) = None -> removed nats_peek w (with_kv s r') k.
Proof. intros E t _. unfold nats_peek. simpl. by apply entryView_none. Qed.

Lemma nats_seen w w' s r k t v : ns_kv s = Some r -> now w <= t <= now w' ->
  entryView (ns_bucketTTL s) t (nl_last r (nats_cacheKey s k)) = v -> seen nats_peek w w' s k v.
Proof. intros Es Ht E. exists t. split; [done|]. unfold nats_peek. by rewrite Es. Qed.

(** A value written in the envelope that [encodeEnvelope] made during the
    operation. *)
Lemma body_kept w w' s r' k v ttl u rev :
  nats_ok s -> world_ok w -> later w w' -> now w <= u <= now w' -> ttl_ok ttl ->
  nl_last r' (nats_cacheKey s k) = Some (mkKvEntry (bodyAt s v ttl u) rev KeyValuePut) ->
  kept nats_peek Millisecond ttl w w' (with_kv s r') k v.
Proof.
  intros (_ & Hb & _) Hw Hl Hu [Ht0 Ht1] E Hms. simpl in Hms. unfold Millisecond in Hms.
  pose proof (now_range w Hw) as Hn. pose proof (now_range w' (later_world_ok _ _ Hl)) as Hn'.
  assert (nats_ttl s ttl = ttl) as Ett by (unfold nats_ttl; destruct (Z.leb_spec ttl 0); [lia|done]).
  set (x := UnixMilli (u + ttl)). assert (0 < x /\ in_int64 x) as [Hx0 Hx].
  { unfold x, UnixMilli, in_int64, int64_min, int64_max. unfold horizon in *.
    Z.to_euclidean_division_equations. lia. }
  apply (expiry_stored _ _ w' _ _ _ _ _ x); [done|by apply later_refl; eapply later_world_ok|..].
  - split; apply UnixMilli_mono; lia.
  - intros t _. unfold nats_peek. simpl. change (nats_cacheKey (with_kv s r') k) with (nats_cacheKey s k).
    rewrite E, Hb. unfold bodyAt, entryView. rewrite Hb, Ett. fold x. cbn [current Operation Value].
    rewrite decide_True by done. cbn [Value]. rewrite decode_envelopeOf by done. cbn [env_ExpiresAt env_Value]. unfold expiredAt.
    by destruct (Z.gtb_spec x 0); [|lia].
Qed.

(** ** The store contract *)

Lemma nats_ok_kv s : nats_ok s -> exists r, ns_kv s = Some r /\ nl_ok r.
Proof. by intros (_ & _ & _ & ?). Qed.

(** An expired entry that was read and purged is gone, and showed nothing before. *)
Lemma purged_gone ck r r' : purged ck r r' ->
  (forall k, k <> ck -> nl_last r' k = nl_last r k) /\ current (nl_last r' ck) = None.
Proof.
  intros [Hp|[Hp|[Hf _]]]; [| |by apply na_reliable in Hf].
  - apply alone_atomically in Hp as (r1 & r2 & (_ & Ho & Hc) & Hr1 & Hr2). split; [|by rewrite Hr2].
    intros k Hk. by rewrite Hr2, Ho, Hr1.
  - apply alone_during in Hp as (r1 & Hc & Hsame). destruct (Hsame ck) as [E1 E2]. split; [intros k _; apply Hsame|].
    by rewrite E2, <- E1.
Qed.

Lemma lapsed_same w' s r r' k t :
  ns_kv s = Some r -> t <= now w' -> lapsed (ns_bucketTTL s) t (nl_last r (nats_cacheKey s k)) ->
  current (nl_last r' (nats_cacheKey s k)) = None -> same_key nats_peek w' s (with_kv s r') k.
Proof.
  intros Es Ht Hlap Hc u Hu. unfold nats_peek. rewrite Es. simpl.
  rewrite (lapsed_view _ u (nl_last r _)) by (eapply lapsed_later; [done|lia]). by apply entryView_none.
Qed.

(** After a miss the key is free, although what had expired may have been purged. *)
Lemma miss_free w w' s r r1 r' k :
  ns_kv s = Some r -> later w w' -> nl_rely r r1 ->
  nl_rely r1 r' /\ current (nl_last r1 (nats_cacheKey s k)) = None \/
  (exists t, now w <= t <= now w' /\ lapsed (ns_bucketTTL s) t (nl_last r1 (nats_cacheKey s k))) /\ purged (nats_cacheKey s k) r1 r' ->
  (forall k', same_key nats_peek w' s (with_kv s r') k') /\ seen nats_peek w w' s k None /\
  current (nl_last r' (nats_cacheKey s k)) = None.
Proof.
  intros Es Hl%later_now Ra Hx. pose proof (na_rely _ _ (nats_cacheKey s k) Ra) as Ek.
  destruct Hx as [[Rb Hc]|[(t & Ht & Hlap) Hp]].
  - split; [|split].
    + intros k'. apply (same_rely _ _ r); [done | by transitivity r1].
    + eapply (nats_seen _ _ _ r _ (now w)); [done|lia|]. apply entryView_none. by rewrite <- Ek.
    + by rewrite (na_rely r1 r').
  - rewrite Ek in Hlap. apply purged_gone in Hp as [Ho Hc].
    split; [|split; [eapply (nats_seen _ _ _ r _ t); [done|lia|by apply lapsed_view]|done]].
    intros k'. destruct (decide (k' = k)) as [->|Hne]; [by eapply (lapsed_same _ _ r r' _ t); [|lia|..]|].
    apply (others_put _ _ r r' k); [done..|]. intros y Hy. by rewrite Ho, (na_rely r r1).
Qed.

Lemma nats_get_wp ctx k w s : world_ok w -> nats_ok s ->
  wp (nats_Get ctx k) (fun x w' s' => later w w' /\ nats_ok s' /\ get_post nats_peek k w s x w' s') w s.
Proof.
  intros Hw Hok. destruct (nats_ok_kv s Hok) as (r & Es & Hr). eapply wp_onKV; [exact Es|].
  eapply wp_mono; [by apply kvGet_wp|]. intros x w' r' (Hl & Hr' & r1 & Ra & Hx).
  split; [done|]. split; [by apply nats_ok_with|].
  assert (nl_rely r1 r' -> forall k', same_key nats_peek w' s (with_kv s r') k') as Hsame.
  { intros Rb k'. apply (same_rely _ _ r); [done | by transitivity r1]. }
  destruct x as [[b []] [e|]]; [by destruct Hx| |destruct Hx as [_ Hx]; split; auto|].
  - destruct Hx as [Rb (t & Ht & Hv)]. split; [by apply Hsame|]. rewrite (na_rely r r1) in Hv by done. by eapply nats_seen.
  - eapply miss_free in Hx as (? & ? & _); [|done..]. by split.
Qed.

(** A value put: what the other keys, and the key, show afterwards. *)
Lemma put_kept w w' s r r' k v ttl u P :
  nats_ok s -> ns_kv s = Some r -> world_ok w -> later w w' -> now w <= u <= now w' -> ttl_ok ttl ->
  atomically r r' P -> (forall r1 r2, P r1 r2 -> putStep (nats_cacheKey s k) (bodyAt s v ttl u) r1 r2) ->
  (forall k', k' <> k -> same_key nats_peek w' s (with_kv s r') k') /\
  kept nats_peek Millisecond ttl w w' (with_kv s r') k v.
Proof.
  intros Hok Es Hw Hl Hu Ht Hat HP. apply alone_atomically in Hat as (r1 & r2 & HP12 & E1 & E2).
  destruct (HP _ _ HP12) as (_ & Ho & rev & Hlast). split.
  - intros k' Hne. apply (others_put _ _ r r' k); [done..|]. intros y Hy. by rewrite E2, Ho, E1.
  - eapply body_kept; [done..|]. by rewrite E2, Hlast.
Qed.

Lemma gone_post w' s r r' k P :
  ns_kv s = Some r -> atomically r r' P -> (forall r1 r2, P r1 r2 -> goneStep (nats_cacheKey s k) r1 r2) ->
  (forall k', k' <> k -> same_key nats_peek w' s (with_kv s r') k') /\ removed nats_peek w' (with_kv s r') k.
Proof.
  intros Es Hat HP. apply alone_atomically in Hat as (r1 & r2 & HP12 & E1 & E2).
  destruct (HP _ _ HP12) as (_ & Ho & Hc). split.
  - intros k' Hne. apply (others_put _ _ r r' k); [done..|]. intros y Hy. by rewrite E2, Ho, E1.
  - apply gone_removed. by rewrite E2.
Qed.

Lemma nats_set_wp ctx k v ttl w s : world_ok w -> nats_ok s -> ttl_ok ttl ->
  wp (nats_Set ctx k v ttl) (fun err w' s' =>
    later w w' /\ nats_ok s' /\ set_post nats_peek Millisecond k v ttl w s err w' s') w s.
Proof.
  intros Hw Hok Ht. destruct (nats_ok_kv s Hok) as (r & Es & Hr). eapply wp_onKV; [exact Es|].
  apply wp_bind. eapply wp_mono; [by apply nats_body_wp|]. intros body w1 ? (Hl1 & -> & ->). pose proof (later_now _ _ Hl1).
  apply wp_bind. eapply wp_mono; [apply nl_put; by eauto with go|]. intros x w' r' (Hl' & Hr' & Hx).
  pose proof (later_now _ _ Hl'). assert (later w w') as Hl by by eapply later_trans.
  split; [done|]. split; [by apply nats_ok_with|].
  assert (atomically r r' (putStep (nats_cacheKey s k) (bodyAt s v ttl (now w))) ->
    (forall k', k' <> k -> same_key nats_peek w' s (with_kv s r') k') /\
    kept nats_peek Millisecond ttl w w' (with_kv s r') k v) as Hput.
  { intros Hat. eapply (put_kept _ _ _ r); [done..| |done|exact Hat|done]. lia. }
  destruct x as [rev|e]; [by apply Hput|]. destruct Hx as [Hx|Hx].
  - apply set_post_same. intros k'. by apply (same_rely _ _ r).
  - destruct (Hput Hx). split; [done|]. by right.
Qed.


(** [Create] of a key that is free. *)
Lemma create_post w w' s r r' k v ttl u (x : bool * option error) :
  nats_ok s -> ns_kv s = Some r -> world_ok w -> later w w' -> now w <= u <= now w' -> ttl_ok ttl ->
  current (nl_last r (nats_cacheKey s k)) = None ->
  match x with
  | (true, None) => atomically r r' (createStep (nats_cacheKey s k) (bodyAt s v ttl u))
  | (false, None) => during r r' (fun r1 => current (nl_last r1 (nats_cacheKey s k)) <> None \/
      nl_last r1 (nats_cacheKey s k) <> nl_last r (nats_cacheKey s k))
  | (created, Some _) => created = false /\ maybe r r' (createStep (nats_cacheKey s k) (bodyAt s v ttl u))
  end ->
  (forall k', k' <> k -> same_key nats_peek w' s (with_kv s r') k') /\
  match x with
  | (true, None) => kept nats_peek Millisecond ttl w w' (with_kv s r') k v
  | (false, None) => False
  | (created, Some _) => created = false /\
      ((forall k', same_key nats_peek w' s (with_kv s r') k') \/ kept nats_peek Millisecond ttl w w' (with_kv s r') k v)
  end.
Proof.
  intros Hok Es Hw Hl Hu Ht Hc Hx.
  assert (Hput := fun Hat => put_kept w w' s r r' k v ttl u (createStep (nats_cacheKey s k) (bodyAt s v ttl u))
    Hok Es Hw Hl Hu Ht Hat (fun r1 r2 => @proj2 _ _)).
  destruct x as [[] [e|]].
  - by destruct Hx.
  - by apply Hput.
  - destruct Hx as [_ [Hx|Hx]]; [|destruct (Hput Hx); auto].
    assert (forall k', same_key nats_peek w' s (with_kv s r') k') by (intros; by apply (same_rely _ _ r)). auto.
  - apply alone_during in Hx as (r1 & Hx & Hsame). destruct (Hsame (nats_cacheKey s k)) as [E _]. rewrite E in Hx. by destruct Hx.
Qed.

Lemma nats_add_wp ctx k v ttl w s : world_ok w -> nats_ok s -> ttl_ok ttl ->
  wp (nats_Add ctx k v ttl) (fun x w' s' =>
    later w w' /\ nats_ok s' /\ add_post nats_peek nats_occupied Millisecond k v ttl w s x w' s') w s.
Proof.
  intros Hw Hok Ht. destruct (nats_ok_kv s Hok) as (r & Es & Hr). eapply wp_onKV; [exact Es|].
  apply wp_bind. eapply wp_mono; [by apply kvGet_wp|]. intros [[b ok] err] w1 r1 (Hl1 & Hr1 & r0 & Ra & Hx).
  destruct err as [e|].
  { split; [done|]. split; [by apply nats_ok_with|]. apply add_post_same. intros k'. apply (same_rely _ _ r); [done|].
    transitivity r0; [done|]. by destruct ok, Hx. }
  destruct ok.
  { destruct Hx as [Rb (t & Hi & Hv)]. split; [done|]. split; [by apply nats_ok_with|].
    assert (forall k', same_key nats_peek w1 s (with_kv s r1) k') as Hsame.
    { intros k'. apply (same_rely _ _ r); [done|by transitivity r0]. }
    split; [auto|]. split; [|done]. exists t. split; [done|]. exists b. unfold nats_peek. rewrite Es.
    by rewrite <- (na_rely r r0). }
  eapply miss_free in Hx as (Hsame & Hseen & Hfree); [|done..]. pose proof (later_now _ _ Hl1).
  assert (nats_ok (with_kv s r1)) as Hok1 by by apply nats_ok_with.
  apply wp_bind. eapply wp_mono; [apply nats_body_wp; by eauto with go|]. intros body w2 ? (Hl2 & -> & ->).
  pose proof (later_now _ _ Hl2). eapply wp_mono; [apply createLock_wp; by eauto with go|].
  intros x w' r' (Hl' & Hr' & Hpost). pose proof (later_now _ _ Hl'). assert (later w w') as Hl by eauto using later_trans.
  assert (later w1 w') as Hl1' by eauto using later_trans.
  eapply (create_post w w' (with_kv s r1) r1 r' k v ttl (now w1)) in Hpost as [Ho Hx]; [|done..| |done|done]; [|lia].
  change (with_kv (with_kv s r1) r') with (with_kv s r') in *.
  assert (forall k', same_key nats_peek w' s (with_kv s r1) k') as Hs1.
  { intros k'. eapply same_key_widen; [apply Hsame|done]. }
  assert (free nats_occupied w w' s k) as Hf.
  { destruct Hseen as (t & Hi & Hv). exists t. split; [lia|]. unfold nats_occupied. rewrite Hv. by intros []. }
  split; [done|]. split; [by apply nats_ok_with|]. split.
  { intros k' Hne. eapply same_key_trans; [apply Hs1 | by apply Ho]. }
  destruct x as [[] [e|]]; [by destruct Hx|done| |done]. destruct Hx as [_ [Hx|Hx]]; (split; [done|]); [left|by right].
  intros k'. eapply same_key_trans; [apply Hs1 | apply Hx].
Qed.

Lemma nats_delete_wp ctx k w s : world_ok w -> nats_ok s ->
  wp (nats_Delete ctx k) (fun err w' s' => later w w' /\ nats_ok s' /\ delete_post nats_peek k w s err w' s') w s.
Proof.
  intros Hw Hok. destruct (nats_ok_kv s Hok) as (r & Es & Hr). eapply wp_onKV; [exact Es|].
  apply wp_bind. eapply wp_mono; [by apply nl_delete|]. intros err w' r' (Hl & Hr' & Hx).
  assert (nats_ok (with_kv s r')) by by apply nats_ok_with.
  assert (Hgone := fun Hat => gone_post w' s r r' k (deleteStep (nats_cacheKey s k) None) Es Hat (fun r1 r2 => @proj2 _ _)).
  destruct err as [e|]; [|by destruct (Hgone Hx)]. destruct Hx as (Hm & Hmiss & _).
  assert (nl_rely r r' -> forall k', same_key nats_peek w' s (with_kv s r') k') as Hsame.
  { intros Rb k'. by apply (same_rely _ _ r). }
  destruct (isMiss e); do 2 (split; [done|]).
  - pose proof (during_rely _ _ _ (Hmiss eq_refl)) as Rb. apply alone_during in Hmiss as (r1 & Hc & Hs); [|done].
    split; [by intros k' _; apply Hsame|]. apply gone_removed. destruct (Hs (nats_cacheKey s k)) as [E1 ->].
    by rewrite <- E1.
  - destruct Hm as [Hm|Hm]; [by apply delete_post_same, Hsame|]. destruct (Hgone Hm). split; [done | by right].
Qed.

Lemma nats_deleteMany_wp ctx ks w s : world_ok w -> nats_ok s ->
  wp (nats_DeleteMany ctx ks) (fun err w' s' =>
    later w w' /\ nats_ok s' /\ deleteMany_post nats_peek ks w s err w' s') w s.
Proof.
  revert w s. induction ks as [|k ks IH]; intros w s Hw Hok.
  { split; [by apply later_refl|]. split; [done|]. split; [by intros k' _ t | by intros k ?%elem_of_nil]. }
  unfold nats_DeleteMany. cbn [forErr]. apply wp_bind. eapply wp_mono; [by apply nats_delete_wp|].
  intros err w1 s1 (Hl1 & Hok1 & Ho1 & Hd1).
  assert (forall k', (forall k0, k0 ∈ k :: ks -> apart (S := natsStore K) k' k0) -> same_key nats_peek w1 s s1 k') as Hs1.
  { intros k' Hap. apply Ho1, Hap, elem_of_cons. by left. }
  destruct err as [e|]; [by split|].
  eapply wp_mono; [apply IH; by eauto with go|]. intros err w2 s2 (Hl2 & Hok2 & Ho2 & Hd2).
  split; [by eapply later_trans|]. split; [done|]. split.
  - intros k' Hap. eapply same_key_trans; [eapply same_key_widen; [by apply Hs1|done]|].
    apply Ho2. intros k0 Hin. apply Hap, elem_of_cons. by right.
  - destruct err as [e|]; [done|]. intros k0 [->|Hin]%elem_of_cons; [|by apply Hd2].
    destruct (decide (k ∈ ks)) as [Hin|Hin]; [by apply Hd2|].
    eapply removed_same_key; [by eapply removed_widen|]. apply Ho2. intros k1 Hk1 ->. done.
Qed.

(** ** Flush *)

(** The keys of the list that are in the scope are gone, the others untouched. *)
Lemma purgeAll_wp scope keys w r : world_ok w -> nl_ok r ->
  wp (forErr (purgeScoped scope) keys) (fun err w' r' => later w w' /\ nl_ok r' /\
    (forall k, HasPrefix k scope = false -> nl_last r' k = nl_last r k) /\
    (forall k, current (nl_last r k) = None -> current (nl_last r' k) = None) /\
    (err = None -> forall k, k ∈ keys -> HasPrefix k scope = true -> current (nl_last r' k) = None)) w r.
Proof.
  revert w r. induction keys as [|key keys IH]; intros w r Hw Hr.
  { split; [by apply later_refl|]. split; [done|]. split; [done|]. split; [done|]. by intros _ k ?%elem_of_nil. }
  cbn [forErr]. apply wp_bind.
  assert (wp (purgeScoped scope key) (fun err w' r' => later w w' /\ nl_ok r' /\
    (forall k, k <> key \/ HasPrefix k scope = false -> nl_last r' k = nl_last r k) /\
    (current (nl_last r key) = None -> current (nl_last r' key) = None) /\
    (err = None -> HasPrefix key scope = true -> current (nl_last r' key) = None)) w r) as Hone.
  { unfold purgeScoped. destruct (HasPrefix key scope) eqn:Ep; cbn [negb].
    2: { split; [by apply later_refl|]. by split. }
    apply wp_bind. eapply wp_mono; [by apply purge_wp|]. intros err w' r' (Hl & Hr' & [Ho Hc]%purged_gone).
    assert (forall k, k <> key \/ HasPrefix k scope = false -> nl_last r' k = nl_last r k).
    { intros k [Hk|Hk]; apply Ho; [done|]. intros ->. congruence. }
    destruct err as [e|]; [destruct (isMiss e)|]; by split. }
  eapply wp_mono; [exact Hone|]. intros err w1 r1 (Hl1 & Hr1 & Ho1 & Hk1 & Hp1).
  assert (forall k, current (nl_last r k) = None -> current (nl_last r1 k) = None) as Hc1.
  { intros k Hc. destruct (decide (k = key)) as [->|Hne]; [auto|]. by rewrite Ho1 by auto. }
  destruct err as [e|]; [by repeat (split; [by auto|])|].
  eapply wp_mono; [apply IH; by eauto with go|]. intros err w2 r2 (Hl2 & Hr2 & Ho2 & Hc2 & Hp2).
  split; [by eapply later_trans|]. split; [done|]. split; [intros k Hk; rewrite Ho2, Ho1 by auto; done|].
  split; [auto|]. intros -> k [->|Hin]%elem_of_cons Hk; [|by apply Hp2]. by apply Hc2, Hp1.
Qed.

Lemma nats_flush_wp ctx w s : world_ok w -> nats_ok s ->
  wp (nats_Flush ctx) (fun err w' s' => later w w' /\ nats_ok s' /\ flush_post nats_peek err w' s') w s.
Proof.
  intros Hw Hok. destruct (nats_ok_kv s Hok) as (r & Es & Hr). eapply wp_onKV; [exact Es|].
  apply wp_bind. eapply wp_mono; [by apply nl_list|]. intros x w1 r1 (Hl1 & Hr1 & Hx).
  apply alone_during in Hx as (r0 & Hx & Hs). destruct x as [[keys errs]|e].
  - apply wp_bind. eapply wp_mono; [apply purgeAll_wp; by eauto with go|].
    intros err w2 r2 (Hl2 & Hr2 & _ & Hc & Hp). assert (later w w2) by by eapply later_trans.
    assert (nats_ok (with_kv s r2)) by by apply nats_ok_with. destruct err as [e|]; [by split|].
    split; [done|]. split; [done|]. destruct (listerError errs); [done|]. intros k. apply gone_removed.
    set (ck := nats_cacheKey s k). destruct (current (nl_last r0 ck)) eqn:Ec.
    + apply Hp; [done|apply Hx; [done|by rewrite Ec]|]. apply HasPrefix_app.
    + apply Hc. destruct (Hs ck) as [E1 ->]. by rewrite <- E1.
  - assert (nats_ok (with_kv s r1)) by by apply nats_ok_with. destruct (errorsIs e ErrNoKeysFound); [|by split].
    split; [done|]. split; [done|]. intros k. apply gone_removed. destruct (Hs (nats_cacheKey s k)) as [E1 ->].
    rewrite <- E1. by apply Hx.
Qed.

(** ** Locks and counters *)

Lemma nats_acquire_wp ctx k owner ttl w s : world_ok w -> nats_ok s -> ttl_ok ttl ->
  wp (nats_LockAcquire ctx k owner ttl) (fun x w' s' =>
    later w w' /\ nats_ok s' /\ add_post nats_peek nats_occupied Millisecond k owner ttl w s x w' s') w s.
Proof.
  intros Hw Hok Ht. destruct (nats_ok_kv s Hok) as (r & Es & Hr). eapply wp_mono; [by eapply acquire_wp|].
  intros x w' s' (r' & -> & Hl & Hr' & Hx). pose proof (later_now _ _ Hl). split; [done|]. split; [by apply nats_ok_with|].
  set (ck := nats_cacheKey s k) in *. set (b := ns_bucketTTL s) in *.
  assert (atomically r r' (lockStep b ck (bodyAt s owner ttl (now w)) (now w) (now w')) ->
    (forall k', k' <> k -> same_key nats_peek w' s (with_kv s r') k') /\
    free nats_occupied w w' s k /\ kept nats_peek Millisecond ttl w w' (with_kv s r') k owner) as Hwon.
  { intros Hat. eapply put_kept in Hat as Hput; [|done..| |done|by intros r1 r2 [_ ?]]; [|lia].
    destruct Hput. split; [done|]. split; [|done]. apply alone_atomically in Hat as (r1 & _ & [Hf _] & E1 & _).
    assert (exists t, now w <= t <= now w' /\ entryView b t (nl_last r ck) = None) as (t & Hi & Hv).
    { rewrite <- E1. destruct Hf as [Hf|(t & Hi & Hlap)]; [exists (now w)|exists t]; (split; [lia|]);
        [by apply entryView_none | by apply lapsed_view]. }
    exists t. split; [done|]. unfold nats_occupied, nats_peek. rewrite Es. fold ck b. rewrite Hv. by intros []. }
  destruct x as [[] [e|]].
  - by destruct Hx.
  - by destruct (Hwon Hx).
  - destruct Hx as [_ [Hx|Hx]]; [apply add_post_same; intros; by apply (same_rely _ _ r)|].
    destruct (Hwon Hx) as (? & ? & ?). split; [done|]. split; [done|]. by right.
  - assert (forall k', same_key nats_peek w' s (with_kv s r') k') as Hs.
    { intros k'. apply (same_rely _ _ r); [done|by eapply during_rely]. }
    split; [auto|]. split; [|done]. apply alone_during in Hx as (r1 & Hx & E). destruct (E ck) as [E1 _].
    destruct Hx as [(t & Hi & Hv)|Hx]; [|by rewrite E1 in Hx]. exists t. split; [done|].
    unfold nats_occupied, nats_peek. rewrite Es. fold ck b. by rewrite <- E1.
Qed.

Lemma nats_release_wp ctx k owner w s : world_ok w -> nats_ok s ->
  wp (nats_LockRelease ctx k owner) (fun x w' s' =>
    later w w' /\ nats_ok s' /\ release_post nats_peek k owner w s x w' s') w s.
Proof.
  intros Hw Hok. destruct (nats_ok_kv s Hok) as (r & Es & Hr). eapply wp_mono; [by eapply release_wp|].
  intros x w' s' (r' & -> & Hl & Hr' & Hx). split; [done|]. split; [by apply nats_ok_with|].
  set (ck := nats_cacheKey s k) in *. set (b := ns_bucketTTL s) in *.
  assert (atomically r r' (releaseStep b ck owner (now w) (now w')) ->
    (forall k', k' <> k -> same_key nats_peek w' s (with_kv s r') k') /\
    own nats_peek w w' s k owner /\ removed nats_peek w' (with_kv s r') k) as Hdone.
  { intros Hat. eapply gone_post in Hat as Hgone; [|done|by intros r1 r2 [_ ?]]. destruct Hgone. split; [done|].
    split; [|done]. left. apply alone_atomically in Hat as (r1 & _ & [(t & Hi & Hv) _] & E1 & _).
    rewrite E1 in Hv. by eapply nats_seen. }
  assert (nl_rely r r' -> forall k', same_key nats_peek w' s (with_kv s r') k') as Hsame.
  { intros Rb k'. by apply (same_rely _ _ r). }
  destruct x as [[] [e|]].
  - by destruct Hx.
  - by destruct (Hdone Hx).
  - destruct Hx as [_ [Hx|Hx]]; [by apply release_post_same, Hsame|].
    destruct (Hdone Hx) as (? & ? & ?). split; [done|]. split; [done|]. by right.
  - pose proof (during_rely _ _ _ Hx) as Rb. split; [by auto|]. split; [|by apply Hsame].
    apply alone_during in Hx as (r1 & Hx & E). destruct (E ck) as [E1 _].
    destruct Hx as [(t & Hi & Hv)|Hx]; [|by rewrite E1 in Hx]. rewrite E1 in Hv. eexists. split; [exact Hv|].
    by eapply nats_seen.
Qed.

Lemma nats_peek_occupied s t k b : nats_peek s t k = Some b -> nats_occupied s t k.
Proof. unfold nats_occupied. intros ->. eauto. Qed.

#[export] Instance natsStore_contract : StoreContract (natsStore K) := {|
  sc_ok := nats_ok;
  sc_peek := nats_peek;
  sc_occupied := nats_occupied;
  sc_grain := Millisecond;
  sc_grain_nonneg := ltac:(done);
  sc_peek_occupied := nats_peek_occupied;
  sc_get := fun ctx k w s x w' s' Hw Hs => wp_run _ _ _ _ _ _ _ (nats_get_wp ctx k w s Hw Hs);
  sc_set := fun ctx k v ttl w s x w' s' Hw Hs Ht => wp_run _ _ _ _ _ _ _ (nats_set_wp ctx k v ttl w s Hw Hs Ht);
  sc_add := fun ctx k v ttl w s x w' s' Hw Hs Ht => wp_run _ _ _ _ _ _ _ (nats_add_wp ctx k v ttl w s Hw Hs Ht);
  sc_delete := fun ctx k w s x w' s' Hw Hs => wp_run _ _ _ _ _ _ _ (nats_delete_wp ctx k w s Hw Hs);
  sc_deleteMany := fun ctx ks w s x w' s' Hw Hs => wp_run _ _ _ _ _ _ _ (nats_deleteMany_wp ctx ks w s Hw Hs);
  sc_flush := fun ctx w s x w' s' Hw Hs => wp_run _ _ _ _ _ _ _ (nats_flush_wp ctx w s Hw Hs)
|}.

#[export] Instance natsStore_locks : LockContract (natsStore K) := {|
  lc_ops := nats_lock_ops;
  lc_ok := nats_ok;
  lc_lockStore := fun _ _ => eq_refl;
  lc_peek := nats_peek;
  lc_occupied := nats_occupied;
  lc_peek_occupied := nats_peek_occupied;
  lc_grain := Millisecond;
  lc_acquire := fun ctx k o ttl w s x w' s' Hw Hs Ht => wp_run _ _ _ _ _ _ _ (nats_acquire_wp ctx k o ttl w s Hw Hs Ht);
  lc_release := fun ctx k o w s x w' s' Hw Hs => wp_run _ _ _ _ _ _ _ (nats_release_wp ctx k o w s Hw Hs)
|}.

(** ** One attempt is enough *)

Lemma readStart_free ck t0 t1 r c r' b : readStart b ck t0 t1 r c 0 r' -> nl_ok r -> current (nl_last r' ck) = None.
Proof.
  intros [(_ & _ & r1 & Ra & [[Rb Hc]|[_ Hp]])|(r1 & e & t & v & Ra & Rb & Hlast & _ & Hrev & _)] Hr.
  - by rewrite (na_rely r1 r').
  - by apply purged_gone in Hp as [_ ?].
  - pose proof (nl_revision_pos r1 ck e (nl_rely_ok _ _ Ra Hr) Hlast). lia.
Qed.

Lemma writeCounter_wins b ck t0 t1 body n w r c rev r1 :
  world_ok w -> nl_ok r -> nl_ok r1 -> readStart b ck t0 t1 r c rev r1 ->
  wp (writeCounter ck body rev n) (fun x _ _ => x <> None) w r1.
Proof.
  intros Hw Hr Hr1 Hread. unfold writeCounter. destruct (Z.eqb_spec rev 0) as [->|Hne].
  - apply readStart_free in Hread; [|done]. apply wp_bind. eapply wp_mono; [by apply nl_create|].
    intros [v|e] w' r' (_ & _ & Hx); [done|]. destruct Hx as [_ Hx]. destruct (errorsIs e ErrKeyExists); [|done].
    apply alone_during in Hx as (r2 & Hx & Hs); [|done]. destruct (Hs ck) as [E _]. rewrite E in Hx. by destruct Hx.
  - destruct Hread as [(-> & _)|(r0 & e & t & v & Ra & Rb & Hlast & Hop & -> & _)]; [done|].
    apply wp_bind. eapply wp_mono; [by apply nl_update|]. intros [v'|e'] w' r' (_ & _ & Hx); [done|].
    destruct Hx as [_ Hx]. destruct (errorsIs e' ErrKeyExists || isMiss e'); [|done].
    apply alone_during in Hx as (r2 & Hx & Hs); [|done]. destruct (Hs ck) as [E _].
    rewrite E, (na_rely r0 r1), Hlast in Hx by done. rewrite (current_put (Some e) e) in Hx by done. by destruct Hx as [|[]].
Qed.

Lemma incrementLoop_once n s key delta ttl w r : world_ok w -> nl_ok r ->
  incrementLoop (Datatypes.S n) s key delta ttl w r = incrementLoop 1 s key delta ttl w r.
Proof.
  intros Hw Hr. cbn [incrementLoop]. unfold bind at 1 4.
  pose proof (readCounter_wp s key w r Hw Hr) as Hread. unfold wp in Hread.
  destruct (readCounter s (nats_cacheKey s key) key w r) as [[[[c rev]|e] w1] r1]; [|done].
  destruct Hread as (Hl1 & Hr1 & Hread). unfold bind.
  pose proof (nats_body_wp s (bytes_of_string (FormatInt (wrap64 (c + delta)))) ttl w1 r1 (later_world_ok _ _ Hl1)) as Hbody.
  unfold wp in Hbody. destruct (nats_body _ _ _ w1 r1) as [[body w2] r2]. destruct Hbody as (Hl2 & -> & _).
  pose proof (writeCounter_wins _ _ _ _ body (wrap64 (c + delta)) w2 r c rev r1 (later_world_ok _ _ Hl2) Hr Hr1 Hread) as Hwin.
  unfold wp in Hwin. by destruct (writeCounter _ _ _ _ w2 r1) as [[[x|] w3] r3].
Qed.
End Alone.

(** ** The scope of a store

    With any number of other clients: the steps of this one leave every key outside
    its scope alone. *)

Section Scope.
Context {K : Type} `{BucketLaws K} `{EnvelopeJSON} (scope : string).
Implicit Types r : K.

Definition ownStep r r' : Prop := forall x, HasPrefix x scope = false -> nl_last r' x = nl_last r x.
Definition within r r' : Prop := rtc (fun a b => nl_rely a b \/ ownStep a b) r r'.

(** The computation's own steps stay in the scope. *)
Definition scoped {A} (m : M K A) : Prop :=
  forall w r, world_ok w -> nl_ok r -> wp m (fun _ w' r' => later w w' /\ nl_ok r' /\ within r r') w r.

Lemma scoped_ret {A} (a : A) : scoped (ret a).
Proof. intros w r Hw Hr. split; [by apply later_refl|]. split; [done|]. apply rtc_refl. Qed.

Lemma scoped_bind {A B} (m : M K A) (k : A -> M K B) : scoped m -> (forall a, scoped (k a)) -> scoped (bind m k).
Proof.
  intros Hm Hk w r Hw Hr. apply wp_bind. eapply wp_mono; [by apply Hm|]. intros a w1 r1 (Hl1 & Hr1 & Hs1).
  eapply wp_mono; [apply Hk; by eauto with go|]. intros b w2 r2 (Hl2 & Hr2 & Hs2). split; [by eapply later_trans|].
  split; [done|]. unfold within. by etransitivity.
Qed.

Lemma scoped_clock {A} (f : Z -> A) : scoped (let* t := timeNow in ret (f t)).
Proof. intros w r Hw Hr. unfold wp. go_simpl. split; [by apply later_tick|]. split; [done|]. apply rtc_refl. Qed.

Lemma within_rely r r' : nl_rely r r' -> within r r'.
Proof. intros. apply rtc_once. by left. Qed.

Lemma within_atomically k r r' P :
  HasPrefix k scope = true -> atomically r r' P -> (forall r1 r2, P r1 r2 -> others_same k r1 r2) -> within r r'.
Proof.
  intros Hk (r1 & r2 & Ra & HP & Rb) Ho. eapply rtc_l; [by left|]. eapply rtc_l; [right|by apply within_rely].
  intros x Hx. apply (Ho _ _ HP). intros ->. congruence.
Qed.

Lemma within_maybe k r r' P :
  HasPrefix k scope = true -> maybe r r' P -> (forall r1 r2, P r1 r2 -> others_same k r1 r2) -> within r r'.
Proof. intros Hk [Hm|Hm] Ho; [by apply within_rely | by eapply within_atomically]. Qed.

(** *** The methods of the bucket *)

Lemma putStep_others k v r1 r2 : putStep k v r1 r2 -> others_same k r1 r2.
Proof. by intros (_ & ? & _). Qed.
Lemma goneStep_others k r1 r2 : goneStep k r1 r2 -> others_same k r1 r2.
Proof. by intros (_ & ? & _). Qed.
Lemma createStep_others k v r1 r2 : createStep k v r1 r2 -> others_same k r1 r2.
Proof. intros [_ Hp]. by eapply putStep_others. Qed.
Lemma updateStep_others k v rev r1 r2 : updateStep k v rev r1 r2 -> others_same k r1 r2.
Proof. intros [_ Hp]. by eapply putStep_others. Qed.
Lemma deleteStep_others k last r1 r2 : deleteStep k last r1 r2 -> others_same k r1 r2.
Proof. intros [_ Hp]. by eapply goneStep_others. Qed.

(** A method whose law [L] gives the steps. *)
Ltac by_law L :=
  intros w r Hw Hr; eapply wp_mono; [by apply L|]; intros x w' r' (Hl & Hr' & Hsteps); split; [done|]; split; [done|].

Lemma scoped_status : scoped kv_Status.
Proof. by_law nl_status. by apply within_rely. Qed.

Lemma scoped_get k : scoped (kv_Get k).
Proof. by_law nl_get. eapply within_rely, during_rely. eassumption. Qed.

Lemma scoped_list : scoped kv_ListKeys.
Proof. by_law nl_list. eapply within_rely, during_rely. eassumption. Qed.

Lemma scoped_put k v : HasPrefix k scope = true -> scoped (kv_Put k v).
Proof.
  intros Hk. by_law nl_put. destruct x; [eapply within_atomically|eapply within_maybe]; eauto using putStep_others.
Qed.

Lemma scoped_create k v : HasPrefix k scope = true -> scoped (kv_Create k v).
Proof.
  intros Hk. by_law nl_create. destruct x; [eapply within_atomically|eapply within_maybe; [done|by destruct Hsteps|]];
    eauto using createStep_others.
Qed.

Lemma scoped_update k v rev : HasPrefix k scope = true -> scoped (kv_Update k v rev).
Proof.
  intros Hk. by_law nl_update. destruct x; [eapply within_atomically|eapply within_maybe; [done|by destruct Hsteps|]];
    eauto using updateStep_others.
Qed.

Lemma scoped_delete k last : HasPrefix k scope = true -> scoped (kv_Delete k last).
Proof.
  intros Hk. by_law nl_delete. destruct x; [eapply within_maybe; [done|by destruct Hsteps|]|eapply within_atomically];
    eauto using deleteStep_others.
Qed.

Lemma scoped_purge k : HasPrefix k scope = true -> scoped (kv_Purge k).
Proof.
  intros Hk. by_law nl_purge. destruct x as [e|]; [destruct (isMiss e)|].
  - eapply within_rely, during_rely. eassumption.
  - eapply within_maybe; [done|by destruct Hsteps|]. apply goneStep_others.
  - eapply within_atomically; [done|eassumption|]. apply goneStep_others.
Qed.

(** *** The operations *)

Lemma scoped_forErr {A} (body : A -> M K (option error)) xs : (forall x, scoped (body x)) -> scoped (forErr body xs).
Proof.
  intros Hb. induction xs as [|x xs IH]; [apply scoped_ret|]. cbn [forErr]. apply scoped_bind; [done|].
  intros [e|]; [apply scoped_ret | done].
Qed.

Lemma scoped_expired env : scoped (envExpired (K := K) env).
Proof. unfold envExpired. destruct (_ >? 0); [apply (scoped_clock (fun t => UnixMilli t >? _)) | apply scoped_ret]. Qed.

Lemma scoped_encode s v ttl : scoped (encodeEnvelope s v ttl).
Proof. apply (scoped_clock (fun t => _)). Qed.

Lemma scoped_body s v ttl : scoped (nats_body s v ttl).
Proof. unfold nats_body. destruct (ns_bucketTTL s); [apply scoped_ret | apply scoped_encode]. Qed.
End Scope.

Create HintDb scoped.
#[local] Hint Resolve scoped_ret scoped_get scoped_list scoped_status scoped_put scoped_create scoped_update
  scoped_delete scoped_purge scoped_expired scoped_encode scoped_body : scoped.

Section ScopedOperations.
Context {K : Type} `{BucketLaws K} `{EnvelopeJSON}.
Implicit Types s : natsStore K.

Lemma cacheKey_scope s k : HasPrefix (nats_cacheKey s k) (ns_scopePrefixStr s) = true.
Proof. apply HasPrefix_app. Qed.
#[local] Hint Resolve cacheKey_scope : scoped.

Ltac scope_steps :=
  repeat first [match goal with |- forall _, _ => intro end | solve [auto with scoped] | apply scoped_bind | case_match].

Lemma scoped_kvGet s k : scoped (ns_scopePrefixStr s) (kvGet s k).
Proof. unfold kvGet. scope_steps. Qed.

Lemma scoped_createLock s k body : scoped (ns_scopePrefixStr s) (createLock (K := K) (nats_cacheKey s k) body).
Proof. unfold createLock. scope_steps. Qed.

Lemma scoped_loop n s key delta ttl : scoped (ns_scopePrefixStr s) (incrementLoop n s key delta ttl).
Proof.
  induction n as [|n IH]; cbn [incrementLoop]; [auto with scoped|].
  unfold readCounter, entryCounter, writeCounter. scope_steps.
Qed.

Lemma scoped_purgeScoped scope key : scoped scope (purgeScoped (K := K) scope key).
Proof. unfold purgeScoped. destruct (HasPrefix key scope) eqn:E; cbn [negb]; scope_steps. Qed.

Lemma scoped_listed s keys : scoped (ns_scopePrefixStr s) (listedEntries s keys).
Proof.
  induction keys as [|key keys IH]; cbn [listedEntries]; [auto with scoped|].
  unfold listedEntry, entryExpiry. pose proof (scoped_kvGet s). scope_steps.
Qed.

Inductive natsOp :=
| NReady (ctx : Context)
| NGet (ctx : Context) (key : string)
| NSet (ctx : Context) (key : string) (value : bytes) (ttl : Z)
| NAdd (ctx : Context) (key : string) (value : bytes) (ttl : Z)
| NLockAcquire (ctx : Context) (key : string) (owner : bytes) (ttl : Z)
| NLockRelease (ctx : Context) (key : string) (owner : bytes)
| NIncrement (ctx : Context) (key : string) (delta ttl : Z)
| NDecrement (ctx : Context) (key : string) (delta ttl : Z)
| NDelete (ctx : Context) (key : string)
| NDeleteMany (ctx : Context) (keys : list string)
| NFlush (ctx : Context)
| NListPage (ctx : Context) (opts : ListPageOptions).

Definition dropResult {A} (m : M (natsStore K) A) : M (natsStore K) unit := let* _ := m in ret tt.

Definition runNatsOp (op : natsOp) : M (natsStore K) unit :=
  match op with
  | NReady ctx => dropResult (nats_Ready ctx)
  | NGet ctx k => dropResult (nats_Get ctx k)
  | NSet ctx k v ttl => dropResult (nats_Set ctx k v ttl)
  | NAdd ctx k v ttl => dropResult (nats_Add ctx k v ttl)
  | NLockAcquire ctx k o ttl => dropResult (nats_LockAcquire ctx k o ttl)
  | NLockRelease ctx k o => dropResult (nats_LockRelease ctx k o)
  | NIncrement ctx k d ttl => dropResult (nats_Increment ctx k d ttl)
  | NDecrement ctx k d ttl => dropResult (nats_Decrement ctx k d ttl)
  | NDelete ctx k => dropResult (nats_Delete ctx k)
  | NDeleteMany ctx ks => dropResult (nats_DeleteMany ctx ks)
  | NFlush ctx => dropResult (nats_Flush ctx)
  | NListPage ctx opts => dropResult (nats_ListPage ctx opts)
  end.

(** The store keeps its fields, and the bucket changed within the scope. *)
Definition store_within s r (w w' : World) s' : Prop :=
  exists r', s' = with_kv s r' /\ later w w' /\ nl_ok r' /\ within (ns_scopePrefixStr s) r r'.

Lemma onKV_within {A} z (body : natsStore K -> M K A) w s r :
  scoped (ns_scopePrefixStr s) (body s) -> ns_kv s = Some r -> world_ok w -> nl_ok r ->
  wp (onKV z body) (fun _ w' s' => store_within s r w w' s') w s.
Proof.
  intros Hb Es Hw Hr. eapply wp_onKV; [exact Es|]. eapply wp_mono; [by apply Hb|]. intros a w' r' Hx. by exists r'.
Qed.

Lemma scoped_delete_body s k : scoped (ns_scopePrefixStr s) (
  let* err := kv_Delete (nats_cacheKey s k) None in
  match err with Some e => if isMiss e then ret None else ret (Some e) | None => ret None end).
Proof. scope_steps. Qed.

Lemma deleteMany_within ctx ks w s r : ns_kv s = Some r -> world_ok w -> nl_ok r ->
  wp (nats_DeleteMany ctx ks) (fun _ w' s' => store_within s r w w' s') w s.
Proof.
  unfold nats_DeleteMany. revert w s r. induction ks as [|k ks IH]; intros w s r Es Hw Hr.
  { exists r. split; [by destruct s; simpl in *; subst|]. split; [by apply later_refl|]. split; [done|]. apply rtc_refl. }
  cbn [forErr]. apply wp_bind. eapply wp_mono; [apply onKV_within; [apply scoped_delete_body|done..]|].
  intros err w1 s1 (r1 & -> & Hl1 & Hr1 & Hs1). destruct err as [e|]; [by exists r1|].
  eapply wp_mono; [by apply (IH w1 (with_kv s r1) r1); eauto with go|].
  intros err w2 s2 (r2 & -> & Hl2 & Hr2 & Hs2). exists r2. split; [done|]. split; [by eapply later_trans|].
  split; [done|]. unfold within in *. by etransitivity.
Qed.

Lemma op_within op w s r : ns_kv s = Some r -> world_ok w -> nl_ok r ->
  wp (runNatsOp op) (fun _ w' s' => store_within s r w w' s') w s.
Proof.
  intros Es Hw Hr. pose proof (scoped_kvGet s) as Hget. pose proof (scoped_createLock s) as Hcreate.
  pose proof (scoped_loop 16 s) as Hloop. pose proof (scoped_listed s) as Hlist.
  destruct op; unfold runNatsOp, dropResult; apply wp_bind;
    [..|by apply deleteMany_within| |]; (apply onKV_within; [|done..]).
  - auto with scoped.
  - apply Hget.
  - scope_steps.
  - scope_steps.
  - unfold addBucketLock. scope_steps.
  - unfold lockBody. scope_steps.
  - apply Hloop.
  - apply Hloop.
  - apply scoped_delete_body.
  - pose proof (fun keys => scoped_forErr (ns_scopePrefixStr s) _ keys (scoped_purgeScoped (ns_scopePrefixStr s))).
    scope_steps.
  - scope_steps.
Qed.
End ScopedOperations.

(** ** Theorems *)

(** What an operation did to the bucket behind the store. *)
Definition on_bucket {K} (s s' : natsStore K) (P : K -> K -> Prop) : Prop :=
  exists r r', ns_kv s = Some r /\ s' = with_kv s r' /\ P r r'.

(** The keys that nats.go accepts: characters of [-/_=.a-zA-Z0-9], with no dot at
    either end. *)
Definition validKeyChar (c : byte) : bool := urlChar c || bool_decide (c ∈ [x2e; x2f; x3d]).
Definition validKey (key : string) : bool :=
  let b := bytes_of_string key in
  negb (bool_decide (b = [])) && forallb validKeyChar b &&
  negb (bool_decide (head b = Some x2e)) && negb (bool_decide (list.last b = Some x2e)).

Lemma validKey_last (a : bytes) part : list.last (a ++ bytes_of_string (encodeKeyPart part)) <> Some x2e.
Proof.
  pose proof (encodeKeyPart_chars part) as Hc. pose proof (encodeKeyPart_empty part) as Hne.
  rewrite last_app. destruct (list.last (bytes_of_string (encodeKeyPart part))) as [c|] eqn:E.
  - intros [= ->]. apply last_Some_elem_of in E. by apply (proj1 (list.Forall_forall _ _) Hc) in E.
  - apply last_None in E. destruct Hne. rewrite <- (string_of_bytes_of_string (encodeKeyPart part)). by rewrite E.
Qed.

(** C31: every cache key, the empty one and ones with spaces, dots or wildcards
    included, becomes a key that the bucket accepts, inside the scope of the store's
    prefix, from which listing recovers it; keys of stores with different prefixes
    never meet. *)
Theorem nats_keys (p key : string) :
  let ck := scopePrefixOf p +:+ encodeKeyPart key in
  validKey ck = true /\ HasPrefix ck (scopePrefixOf p) = true /\
  decodeCacheKey (TrimPrefix ck (scopePrefixOf p)) = inl key /\
  forall p' key', scopePrefixOf p' +:+ encodeKeyPart key' = ck -> p' = p /\ key' = key.
Proof.
  intros ck. split; [|split; [|split]].
  - unfold ck, validKey, scopePrefixOf. rewrite !bytes_of_string_app. set (e := bytes_of_string (encodeKeyPart p)).
    change (bytes_of_string "p.") with [x70; x2e]. change (bytes_of_string ".k.") with [x2e; x6b; x2e].
    assert (forall part, forallb validKeyChar (bytes_of_string (encodeKeyPart part)) = true) as Hchars.
    { intros part. apply forallb_forall. intros c Hc%list_elem_of_In. unfold validKeyChar.
      by rewrite (proj1 (list.Forall_forall _ _) (encodeKeyPart_chars part) c Hc). }
    apply andb_true_iff. split.
    + rewrite !forallb_app. unfold e. by rewrite !Hchars.
    + apply negb_true_iff, bool_decide_eq_false. apply validKey_last.
  - apply HasPrefix_app.
  - unfold ck. rewrite TrimPrefix_app. apply decode_encodeKeyPart.
  - intros p' key' [-> E%(inj encodeKeyPart)]%scoped_inj. done.
Qed.

(** The envelope that [encodeEnvelope] builds decodes to the value and to the
    millisecond at which the effective TTL ends. *)
Theorem nats_envelope_roundtrip {K} `{EnvelopeJSON} (s : natsStore K) v ttl w (r : K) body w' r' :
  world_ok w -> ttl_ok (nats_ttl s ttl) -> encodeEnvelope s v ttl w r = (body, w', r') ->
  decodeEnvelope body = (mkEnvelope natsEnvelopeMarker v (UnixMilli (now w + nats_ttl s ttl)), true, None).
Proof.
  intros Hw [Ht Ht'] E. pose proof (now_range w Hw). go_simpl_in E. injection E as <- <- <-. fold (nats_ttl s ttl).
  apply decode_envelopeOf. unfold in_int64, int64_min, int64_max, UnixMilli, horizon in *.
  Z.to_euclidean_division_equations. lia.
Qed.


(** Whatever other clients do meanwhile, a release is one atomic step: when it
    reports success it removed the very entry that showed the owner's token; when it
    reports false it removed nothing, and the key did not show the token or was
    changed by somebody else. *)
Theorem nats_LockRelease_atomic {K} `{BucketLaws K} `{EnvelopeJSON} ctx key owner w (s : natsStore K) r x w' s' :
  ns_kv s = Some r -> world_ok w -> nl_ok r -> nats_LockRelease ctx key owner w s = (x, w', s') ->
  on_bucket s s' (fun r r' => released_post (ns_bucketTTL s) (nats_cacheKey s key) owner (now w) (now w') r x r').
Proof.
  intros Es Hw Hr E. eapply wp_run in E; [|by apply (release_wp _ _ _ _ _ r)].
  destruct E as (r' & -> & _ & _ & Hx). by exists r, r'.
Qed.

(** C30: whatever other clients do meanwhile, an increment that reports [n] made one
    atomic step from the number the counter had at that point to [n], so that no
    other client's increment is lost in between; the attempts before it did no more
    than purge entries they had read as expired.  An increment that fails returns 0
    and has touched no other key. *)
Theorem nats_Increment_atomic {K} `{BucketLaws K} `{EnvelopeJSON} ctx key delta ttl w (s : natsStore K) r x w' s' :
  ns_kv s = Some r -> world_ok w -> nl_ok r -> nats_Increment ctx key delta ttl w s = (x, w', s') ->
  on_bucket s s' (fun r r' => counted_post s (nats_cacheKey s key) (now w) (now w') delta ttl r x r').
Proof.
  intros Es Hw Hr E. eapply wp_run in E; [|by apply (increment_wp _ _ _ _ _ _ r)].
  destruct E as (r' & -> & _ & _ & Hx). by exists r, r'.
Qed.

(** Without interference an increment never retries: it returns what its first
    attempt gives, so the retry limit is not reached. *)
Theorem nats_Increment_progress {K} `{BucketLaws K} `{!NatsAlone K} `{EnvelopeJSON} ctx key delta ttl w
    (s : natsStore K) :
  world_ok w -> nats_ok s ->
  nats_Increment ctx key delta ttl w s =
    onKV (0, Some errKVUnavailable) (fun s => incrementLoop 1 s key delta ttl) w s.
Proof.
  intros Hw (_ & _ & _ & r & Es & Hr). unfold nats_Increment, onKV. rewrite Es. by rewrite (incrementLoop_once 15).
Qed.

(** C32: whatever operation a store runs, with any outcome and any number of other
    clients, its own steps leave every key of a store with another prefix alone. *)
Theorem nats_namespace {K} `{BucketLaws K} `{EnvelopeJSON} op w (s : natsStore K) r u w' s' :
  ns_kv s = Some r -> world_ok w -> nl_ok r -> ns_scopePrefixStr s = scopePrefixOf (ns_prefix s) ->
  runNatsOp op w s = (u, w', s') ->
  on_bucket s s' (rtc (fun a b => nl_rely a b \/ forall p key, p <> ns_prefix s ->
    nl_last b (scopePrefixOf p +:+ encodeKeyPart key) = nl_last a (scopePrefixOf p +:+ encodeKeyPart key))).
Proof.
  intros Es Hw Hr Ep E. eapply wp_run in E; [|by apply (op_within _ _ _ r)].
  destruct E as (r' & -> & _ & _ & Hx). exists r, r'. split; [done|]. split; [done|].
  eapply rtc_subrel; [|exact Hx]. intros a b [Hab|Hab]; [by left | right]. intros p key Hne. apply Hab.
  destruct (HasPrefix _ _) eqn:Epre; [|done]. apply HasPrefix_spec in Epre as (rest & E). rewrite Ep in E.
  by apply scoped_inj in E as [-> _].
Qed.

(** A store that [natscache.New] builds over a bucket that nobody else changes,
    with any of gzip, a size limit and encryption, returns within its TTL, of at
    least a millisecond, a value whose [Set] succeeded, or reports an error.  The value is any, except
    that with a size limit and neither compression nor encryption it must not itself start with
    the compression marker. *)
Theorem nats_New_set_get {K} `{BucketLaws K} `{!NatsAlone K} `{EnvelopeJSON} `{GzipLaws} `{CryptoLaws}
    (cfg : natsConfig K) r ctx ctx' k v ttl w w1 x1 w2 res w3 x3 :
  ncfg_KeyValue cfg = Some r -> nl_ok r -> ncfg_BucketTTL cfg = false ->
  DefaultTTL (ncfg_base cfg) < horizon -> readable (ncfg_base cfg) v ->
  world_ok w -> ttl_ok ttl -> Millisecond <= ttl ->
  Store_Set ctx k v ttl w (nats_New cfg) = (None, w1, x1) -> later w1 w2 ->
  Store_Get ctx' k w2 x1 = (res, w3, x3) -> now w3 <= now w + ttl -> hit_or_error v res.
Proof.
  intros Hc Hr Hb Hd Htr Hw Ht Hms E1 Hl E2 Hn. unfold nats_New in E1.
  assert (Hok : nats_ok (nats_backend cfg)).
  { unfold nats_backend. rewrite Hc. split; [|split; [done|split; [done|by exists r]]]. simpl.
    destruct (Z.leb_spec (DefaultTTL (ncfg_base cfg)) 0); by split. }
  destruct (WrapStore _ _) as [x [e|]] eqn:Ew.
  { by apply WrapStore_error in Ew as [_ ->]. }
  exact (WrapStore_roundtrip _ (nats_backend cfg) _ x k ttl (contract_roundtrips (S := natsStore K) k ttl Hms Ht) Hok Ew
    ctx ctx' v w x w1 x1 w2 res w3 x3 Htr eq_refl Hw E1 Hl E2 Hn).
Qed.

(** ** A bucket, for the witnesses *)

Module NatsBucket.
(** What another client writes just before the n-th request of this one. *)
Definition script : Type := nat -> option (string * bytes).

Record bucket (sc : script) := mkBucket { entries : gmap string kvEntry; seqNo : Z; requests : nat }.
Arguments mkBucket {sc}.
Arguments entries {sc}.
Arguments seqNo {sc}.
Arguments requests {sc}.

Section Bucket.
Context {sc : script}.
Implicit Types r : bucket sc.

Definition append k v op r : bucket sc :=
  mkBucket (<[k := mkKvEntry v (seqNo r + 1) op]> (entries r)) (seqNo r + 1) (requests r).

(** The other client's turn. *)
Definition env r : bucket sc :=
  let r1 := mkBucket (entries r) (seqNo r) (requests r + 1) in
  match sc (requests r) with Some (k, v) => append k v KeyValuePut r1 | None => r1 end.

Definition request {A} (f : bucket sc -> A * bucket sc) : M (bucket sc) A :=
  fun w r => let '(a, r') := f (env r) in (a, w, r').

#[export] Instance client : KeyValue (bucket sc) := {|
  kv_Status := request (fun r => (None, r));
  kv_Get := fun k => request (fun r =>
    (match current (entries r !! k) with Some e => inl e | None => inr ErrKeyNotFound end, r));
  kv_Put := fun k v => request (fun r => (inl (seqNo r + 1), append k v KeyValuePut r));
  kv_Create := fun k v => request (fun r =>
    match current (entries r !! k) with
    | Some _ => (inr ErrKeyExists, r)
    | None => (inl (seqNo r + 1), append k v KeyValuePut r)
    end);
  kv_Update := fun k v rev => request (fun r =>
    if decide (revOf (entries r !! k) = rev) then (inl (seqNo r + 1), append k v KeyValuePut r)
    else (inr ErrKeyExists, r));
  kv_Delete := fun k last => request (fun r =>
    if decide (last = None \/ last = Some (revOf (entries r !! k))) then (None, append k [] KeyValueDelete r)
    else (Some ErrKeyExists, r));
  kv_Purge := fun k => request (fun r => (None, append k [] KeyValuePurge r));
  kv_ListKeys := request (fun r => (inl ((map_to_list (entries r)).*1, []), r))
|}.

#[export] Instance view : KVView (bucket sc) := {|
  nl_ok := fun r => 0 <= seqNo r /\ forall k e, entries r !! k = Some e -> 0 < Revision e <= seqNo r;
  nl_last := fun r k => entries r !! k;
  nl_rely := rtc (fun a b => b = env a);
  nl_faulty := False
|}.

(** Entries are old or have a new number. *)
Definition newer r r' : Prop :=
  seqNo r <= seqNo r' /\ forall k e, entries r' !! k = Some e -> entries r !! k = Some e \/ seqNo r < Revision e.

Lemma newer_env r : newer r (env r).
Proof.
  unfold newer, env. destruct (sc (requests r)) as [[k v]|]; simpl; [|split; [lia | auto]].
  split; [lia|]. intros k' e. destruct (decide (k' = k)) as [->|Hne].
  - rewrite lookup_insert_eq. intros [= <-]. right. simpl. lia.
  - rewrite lookup_insert_ne by done. auto.
Qed.

Lemma rely_newer r r' : nl_rely r r' -> newer r r'.
Proof.
  induction 1 as [r|r r1 r2 -> _ [IHs IH]]; [by split; [lia|auto]|]. destruct (newer_env r) as [Hs He].
  split; [lia|]. intros k e Hk. destruct (IH k e Hk) as [Hk1|]; [|right; lia]. auto.
Qed.

Lemma append_ok k v op r : nl_ok r -> nl_ok (append k v op r).
Proof.
  intros [Hs He]. split; simpl; [lia|]. intros k' e. destruct (decide (k' = k)) as [->|Hne].
  - rewrite lookup_insert_eq. intros [= <-]. simpl. lia.
  - rewrite lookup_insert_ne by done. intros E%He. lia.
Qed.

Lemma env_ok r : nl_ok r -> nl_ok (env r).
Proof. intros Hr. unfold env. destruct (sc (requests r)) as [[k v]|]; [by apply append_ok | done]. Qed.

Lemma rely_env r : nl_rely r (env r).
Proof. by apply rtc_once. Qed.

Lemma append_put k v r : nl_ok r -> putStep k v r (append k v KeyValuePut r).
Proof.
  intros Hr. split; [by apply append_ok|]. split; [|exists (seqNo r + 1); simpl; apply lookup_insert_eq].
  intros k' Hne. simpl. by apply lookup_insert_ne.
Qed.

Lemma append_gone k op r : nl_ok r -> op <> KeyValuePut -> goneStep k r (append k [] op r).
Proof.
  intros Hr Hop. split; [by apply append_ok|]. split; [intros k' Hne; simpl; by apply lookup_insert_ne|].
  simpl. rewrite lookup_insert_eq. simpl. by rewrite decide_False.
Qed.

Lemma step_env r r' P : nl_ok r -> (nl_ok (env r) -> P (env r) r') -> atomically r r' P.
Proof. intros Hr HP. exists (env r), r'. split; [apply rely_env|]. split; [by apply HP, env_ok | apply rtc_refl]. Qed.

Lemma read_env r P : P (env r) -> during r (env r) P.
Proof. intros HP. exists (env r). split; [apply rely_env|]. split; [done | apply rtc_refl]. Qed.

Lemma wp_request {A} (f : bucket sc -> A * bucket sc) Q w r :
  (let '(a, r') := f (env r) in Q a w r') -> wp (request f) Q w r.
Proof. unfold wp, request. by destruct (f (env r)). Qed.
#[local] Hint Resolve env_ok append_ok append_put append_gone later_refl rely_env : core.

#[local] Obligation Tactic := idtac.
#[export] Program Instance laws : BucketLaws (bucket sc).
Next Obligation. induction 1 as [|r r1 r2 -> _ IH]; auto. Qed.
Next Obligation.
  intros r r' k e e' [_ Hr] [_ He]%rely_newer Hk Hk' Hrev. simpl in *. destruct (He k e' Hk') as [Hk2|Hgt]; [congruence|].
  pose proof (Hr k e Hk). lia.
Qed.
Next Obligation. intros r k e [_ Hr] Hk. by apply Hr in Hk as [? _]. Qed.
Next Obligation. intros w r Hw Hr. apply wp_request. auto. Qed.
Next Obligation.
  intros k w r Hw Hr. apply wp_request. split; [auto|]. split; [auto|]. apply read_env. simpl.
  destruct (entries (env r) !! k) as [e|]; simpl; [|done]. by destruct (decide _).
Qed.
Next Obligation. intros k v w r Hw Hr. apply wp_request. split; [auto|]. split; [auto|]. apply step_env; auto. Qed.
Next Obligation.
  intros k v w r Hw Hr. apply wp_request. destruct (current (entries (env r) !! k)) eqn:E.
  - split; [auto|]. split; [auto|]. split; [left; auto|]. intros _. apply read_env. left. simpl. by rewrite E.
  - split; [auto|]. split; [auto|]. apply step_env; [done|]. intros Hok. split; [done | auto].
Qed.
Next Obligation.
  intros k v rev w r Hw Hr. apply wp_request. destruct (decide (revOf _ = rev)) as [E|E].
  - split; [auto|]. split; [auto|]. apply step_env; [done|]. intros Hok. split; [done | auto].
  - split; [auto|]. split; [auto|]. split; [left; auto|]. intros _. apply read_env. by right.
Qed.
Next Obligation.
  intros k last w r Hw Hr. apply wp_request. destruct (decide _) as [E|E].
  - split; [auto|]. split; [auto|]. apply step_env; [done|]. intros Hok. split; [|by apply append_gone].
    intros rev ->. by destruct E as [|[= ->]].
  - split; [auto|]. split; [auto|]. split; [left; auto|]. split; [done|]. intros _. apply read_env.
    destruct last as [rev|]; [|tauto]. exists rev. split; [done|]. simpl. intros <-. tauto.
Qed.
Next Obligation. intros k w r Hw Hr. apply wp_request. split; [auto|]. split; [auto|]. apply step_env; auto. Qed.
Next Obligation.
  intros w r Hw Hr. apply wp_request. split; [auto|]. split; [auto|]. apply read_env. intros _ k Hk. simpl in Hk.
  destruct (entries (env r) !! k) as [e|] eqn:E; [|done]. apply elem_of_map_to_list in E. by apply (list_elem_of_fmap_2 fst) in E.
Qed.
End Bucket.

Definition quiet : script := fun _ => None.

#[export] Instance alone : NatsAlone (bucket quiet).
Proof.
  split; [|by intros []]. intros r r' k Hr. induction Hr as [|r r1 r2 -> _ IH]; [done|]. by rewrite IH.
Qed.

(** No value of the runs below is in the old format. *)
#[export] Instance noEnvelope : EnvelopeJSON := fun _ => inr (ErrorString "invalid character").
End NatsBucket.

(** ** Witnesses *)

Module NatsRuns.
Import NatsBucket.
#[export] Existing Instances client view laws alone noEnvelope Toy.gzip Toy.gzip_ok Toy.crypto Toy.crypto_ok.

(** Ten milliseconds after the epoch. *)
Definition world10 : World := sleepWorld (10 * Millisecond) world_example.

Lemma world10_ok : world_ok world10.
Proof. refine (later_world_ok _ _ (later_sleep world_example _ world_example_ok _)). reflexivity. Qed.

Definition scope : string := scopePrefixOf "app".
Definition keyOf (key : string) : string := scope +:+ encodeKeyPart key.

(** A bucket with one key, whose value expires at millisecond [x]. *)
Definition holding {sc} (key : string) (v : string) (x : Z) : bucket sc :=
  mkBucket {[keyOf key := mkKvEntry (envelopeOf x (bytes_of_string v)) 7 KeyValuePut]} 7 0.

Definition over {sc} (r : bucket sc) : natsStore (bucket sc) := mkNatsStore (Some r) Minute "app" scope false.

Lemma holding_ok {sc} key v x : nl_ok (holding (sc := sc) key v x).
Proof. split; [done|]. intros k e. simpl. intros [_ <-]%lookup_singleton_Some. done. Qed.

Lemma nats_over_ok {sc} (r : bucket sc) : nl_ok r -> nats_ok (over r).
Proof. intros Hr. split; [split; reflexivity|]. split; [done|]. split; [done|]. by exists r. Qed.

(** Before its second request another client writes the key. *)
Definition racing (key v : string) (x : Z) : script :=
  fun n => if decide (n = 1%nat) then Some (keyOf key, envelopeOf x (bytes_of_string v)) else None.

Definition bytesA : bytes := bytes_of_string "A".

Definition lock0 : bucket quiet := holding "job" "B" 3.
Definition acquired := nats_LockAcquire Background "job" bytesA Minute world10 (over lock0).
Definition lock1 : bucket quiet := holding "job" "A" 1000.
Definition released := nats_LockRelease Background "job" bytesA world10 (over lock1).

Definition counter0 : bucket (racing "hits" "50" 1000) := holding "hits" "41" 1000.
Definition counted := nats_Increment Background "hits" 1 Minute world10 (over counter0).

Definition counter1 : bucket quiet := holding "hits" "41" 1000.
Definition flushed := runNatsOp (NFlush Background) world10 (over counter1).

(** Reading an expired key while another client writes it. *)
Definition stale0 : bucket (racing "k" "new" 1000) := holding "k" "old" 3.
Definition read := nats_Get Background "k" world10 (over stale0).
Definition added := nats_Add Background "k" bytesA Minute world10 (over stale0).

Definition config : natsConfig (bucket quiet) := mkNatsConfig cfg_example (Some counter1) false.
Definition set1 := Store_Set Background "user:1" (bytes_of_string "Ada") Minute world10 (nats_New config).
Definition get1 := Store_Get Background "user:1" (wv set1) (sv set1).
End NatsRuns.
#[local] Existing Instances NatsBucket.client NatsBucket.view NatsBucket.laws NatsBucket.alone NatsBucket.noEnvelope
  Toy.gzip Toy.gzip_ok Toy.crypto Toy.crypto_ok.

Lemma nats_envelope_roundtrip_witness :
  decodeEnvelope (rv (encodeEnvelope (NatsRuns.over NatsRuns.lock0) NatsRuns.bytesA 0 NatsRuns.world10 NatsRuns.lock0)) =
    (mkEnvelope natsEnvelopeMarker NatsRuns.bytesA 60010, true, None).
Proof.
  refine (nats_envelope_roundtrip (NatsRuns.over NatsRuns.lock0) NatsRuns.bytesA 0 NatsRuns.world10 NatsRuns.lock0 _ _ _
    NatsRuns.world10_ok _ eq_refl).
  split; reflexivity.
Defined.


Lemma nats_LockRelease_atomic_witness :
  rv NatsRuns.released = (true, None) /\
  on_bucket (NatsRuns.over NatsRuns.lock1) (sv NatsRuns.released) (fun r r' =>
    released_post false (NatsRuns.keyOf "job") NatsRuns.bytesA (now NatsRuns.world10) (now (wv NatsRuns.released))
      r (true, None) r').
Proof.
  split; [vm_compute; reflexivity|].
  refine (nats_LockRelease_atomic Background "job" NatsRuns.bytesA NatsRuns.world10 (NatsRuns.over NatsRuns.lock1)
    NatsRuns.lock1 (true, None) _ _ eq_refl NatsRuns.world10_ok (NatsRuns.holding_ok _ _ _) (run_eta NatsRuns.released _ _)).
  vm_compute; reflexivity.
Defined.

(** Another client sets the counter to 50 after this one has read 41. *)
Lemma nats_Increment_atomic_witness :
  rv NatsRuns.counted = (51, None) /\
  on_bucket (NatsRuns.over NatsRuns.counter0) (sv NatsRuns.counted) (fun r r' =>
    counted_post (NatsRuns.over NatsRuns.counter0) (NatsRuns.keyOf "hits") (now NatsRuns.world10)
      (now (wv NatsRuns.counted)) 1 Minute r (51, None) r').
Proof.
  split; [vm_compute; reflexivity|].
  refine (nats_Increment_atomic Background "hits" 1 Minute NatsRuns.world10 (NatsRuns.over NatsRuns.counter0)
    NatsRuns.counter0 (51, None) _ _ eq_refl NatsRuns.world10_ok (NatsRuns.holding_ok _ _ _) (run_eta NatsRuns.counted _ _)).
  vm_compute; reflexivity.
Defined.

Lemma nats_Increment_progress_witness :
  nats_Increment Background "hits" 1 Minute NatsRuns.world10 (NatsRuns.over NatsRuns.counter1) =
    onKV (0, Some errKVUnavailable) (fun s => incrementLoop 1 s "hits" 1 Minute) NatsRuns.world10 (NatsRuns.over NatsRuns.counter1).
Proof.
  apply (nats_Increment_progress Background "hits" 1 Minute NatsRuns.world10 (NatsRuns.over NatsRuns.counter1) NatsRuns.world10_ok).
  apply NatsRuns.nats_over_ok, NatsRuns.holding_ok.
Defined.

Lemma nats_namespace_witness :
  on_bucket (NatsRuns.over NatsRuns.counter1) (sv NatsRuns.flushed) (rtc (fun a b => nl_rely a b \/ forall p key, p <> "app" ->
    nl_last b (scopePrefixOf p +:+ encodeKeyPart key) = nl_last a (scopePrefixOf p +:+ encodeKeyPart key))).
Proof.
  refine (nats_namespace (NFlush Background) NatsRuns.world10 (NatsRuns.over NatsRuns.counter1) NatsRuns.counter1 tt _ _
    eq_refl NatsRuns.world10_ok (NatsRuns.holding_ok _ _ _) eq_refl (run_eta NatsRuns.flushed _ _)).
  vm_compute; reflexivity.
Defined.

Lemma nats_New_set_get_witness :
  rv NatsRuns.get1 = (bytes_of_string "Ada", true, None) /\ hit_or_error (bytes_of_string "Ada") (rv NatsRuns.get1).
Proof.
  split; [vm_compute; reflexivity|].
  refine (nats_New_set_get NatsRuns.config NatsRuns.counter1 Background Background
    "user:1" (bytes_of_string "Ada") Minute NatsRuns.world10 (wv NatsRuns.set1) (sv NatsRuns.set1) (wv NatsRuns.set1)
    (rv NatsRuns.get1) (wv NatsRuns.get1) (sv NatsRuns.get1) eq_refl (NatsRuns.holding_ok _ _ _) eq_refl _ _ NatsRuns.world10_ok _ _
    (run_eta NatsRuns.set1 None _) _ (run_eta NatsRuns.get1 _ eq_refl) _).
  - reflexivity.
  - by left.
  - split; reflexivity.
  - apply Z.leb_le. vm_compute; reflexivity.
  - vm_compute; reflexivity.
  - apply later_refl. exact NatsRuns.world10_ok.
  - apply Z.leb_le. vm_compute; reflexivity.
Defined.

(** ** What is not atomic *)

(** [Get] of an expired key removes it with an unconditional [Purge].  Here another
    client writes a fresh value between the two requests: it is in the bucket, with
    most of a second left, when the purge deletes it, and nobody is told. *)
Theorem nats_Get_deletes_fresh :
  rv NatsRuns.read = ([], false, None) /\
  (let written := NatsBucket.env (NatsBucket.env NatsRuns.stale0) in
   entryView false (now NatsRuns.world10) (nl_last written (NatsRuns.keyOf "k")) = Some (bytes_of_string "new")) /\
  on_bucket (NatsRuns.over NatsRuns.stale0) (sv NatsRuns.read) (fun _ r' =>
    forall t, entryView false t (nl_last r' (NatsRuns.keyOf "k")) = None).
Proof.
  split; [vm_compute; reflexivity|]. split; [vm_compute; reflexivity|].
  destruct (sv NatsRuns.read) as [[r'|] d p sp b] eqn:E; [|by vm_compute in E].
  exists NatsRuns.stale0, r'. split; [done|]. split.
  - assert (sv NatsRuns.read = with_kv (NatsRuns.over NatsRuns.stale0) (default NatsRuns.stale0 (ns_kv (sv NatsRuns.read)))) as E'
      by (vm_compute; reflexivity).
    rewrite E in E'. by rewrite E'.
  - intros t. apply entryView_none. replace r' with (default NatsRuns.stale0 (ns_kv (sv NatsRuns.read))) by by rewrite E.
    vm_compute; reflexivity.
Qed.

(** For the same reason two clients can both win an [Add] of a key that has
    expired: the other client's value was stored before this one's [Add] removed and
    replaced it. *)
Example two_adds_win :
  rv NatsRuns.added = (true, None) /\
  (let written := NatsBucket.env (NatsBucket.env NatsRuns.stale0) in
   entryView false (now NatsRuns.world10) (nl_last written (NatsRuns.keyOf "k")) = Some (bytes_of_string "new")) /\
  nats_peek (sv NatsRuns.added) (now NatsRuns.world10) "k" = Some NatsRuns.bytesA.
Proof. split; [|split]; vm_compute; reflexivity. Qed.

(** An increment counts an empty value as 0, which the other stores reject. *)
Example empty_counts_as_zero :
  rv (nats_Increment Background "hits" 1 Minute NatsRuns.world10
    (NatsRuns.over (NatsRuns.holding (sc := NatsBucket.quiet) "hits" EmptyString 1000))) = (1, None).
Proof. vm_compute; reflexivity. Qed.
