(* ===== verification/DynamoStore.v ===== *)
(** * Package dynamocache: the store over a DynamoDB table

    [driver/dynamocache/store.go].  The AWS SDK and the service are not part of the
    repository: [DynamoAPI] has the methods of the Go interface of that name as
    parameters, and [DynamoLaws] states what the documentation promises of the
    requests the store makes. *)

From S2P Require Import Prelude GoStd CacheCore InspectHelpers Shaping Rows.

(** ** The client *)

(** [types.AttributeValue]: strings, numbers (as text) and binary values. *)
Inductive AttributeValue :=
| AttrS (value : string)
| AttrN (value : string)
| AttrB (value : bytes).

Abbreviation item := (gmap string AttributeValue).

Record CreateTableInput := mkCreateTableInput {
  TableName : string;
  KeySchema : list (string * string);
  AttributeDefinitions : list (string * string);
  BillingMode : string
}.

(** [DynamoAPI].  A condition is an expression with the values it refers to.  All
    reads are consistent; a batch consists of requests to delete, and what
    [BatchWriteItem] returns are the requests it did not process; a scan takes a
    projection and the key to start after, and returns items and the key it stopped
    at.  [dy_scanCalls] bounds the calls until a scan that starts there ends. *)
Class DynamoAPI (D : Type) := {
  dy_GetItem : Context -> string -> item -> M D (option item + error);
  dy_PutItem : Context -> string -> item -> option (string * item) -> M D (option error);
  dy_DeleteItem : Context -> string -> item -> option (string * item) -> M D (option error);
  dy_BatchWriteItem : Context -> string -> list item -> M D (list item + error);
  dy_Scan : Context -> string -> string -> option item -> M D (list item * option item + error);
  dy_CreateTable : Context -> CreateTableInput -> M D (option error);
  dy_DescribeTable : Context -> string -> M D (option error);
  dy_scanCalls : D -> option item -> nat
}.

(** ** The store *)

Definition dynDefaultTTL : Z := 5 * Minute.
Definition dynDefaultPrefix : string := "app".
Definition dynDefaultRegion : string := "us-east-1".
Definition dynDefaultTable : string := "cache_entries".
Definition dynamoEnsureTableMaxAttempts : nat := 20.
Definition dynamoEnsureTableRetryDelay : Z := 150 * Millisecond.
Definition maxBatch : nat := 25.

Record dynamoStore (D : Type) := mkDynamoStore {
  dn_client : option D;
  dn_table : string;
  dn_prefix : string;
  dn_defaultTTL : Z
}.
Arguments mkDynamoStore {D}.
Arguments dn_client {D}.
Arguments dn_table {D}.
Arguments dn_prefix {D}.
Arguments dn_defaultTTL {D}.

Definition errDynamoUnavailable : error := ErrorString "dynamodb cache client unavailable".
Definition errMissingValue : error := ErrorString "dynamodb item missing binary value".
(** A method called on a nil client panics; the panic is this value here. *)
Definition errNilClient : error := ErrorString "runtime error: invalid memory address or nil pointer dereference".

Definition isConditionalCheckFailed : error -> bool :=
  errorsAs (fun e => match e with ConditionalCheckFailed _ => true | _ => false end).
Definition isResourceNotFound : error -> bool :=
  errorsAs (fun e => match e with ResourceNotFound _ => true | _ => false end).
Definition isResourceInUse : error -> bool :=
  errorsAs (fun e => match e with ResourceInUse _ => true | _ => false end).

Definition keyItem (cacheKey : string) : item := {["k" := AttrS cacheKey]}.
Definition valueItem (cacheKey : string) (value : bytes) (exp : Z) : item :=
  {["k" := AttrS cacheKey; "v" := AttrB value; "ea" := AttrN (FormatInt exp)]}.

Definition addCondition : string := "attribute_not_exists(k) OR ea < :now".
Definition releaseCondition : string := "v = :owner".

Section Dynamo.
Context {D : Type} `{DynamoAPI D}.
Implicit Types s : dynamoStore D.

Definition dyn_cacheKey s (key : string) : string :=
  if decide (dn_prefix s = EmptyString) then key else dn_prefix s +:+ ":" +:+ key.

(** Calls of the client's methods. *)
Definition onDynamo {A} (nil : A) (body : dynamoStore D -> M D A) : M (dynamoStore D) A :=
  fun w s =>
    match dn_client s with
    | None => (nil, w, s)
    | Some client =>
        let '(a, w', client') := body s w client in
        (a, w', mkDynamoStore (Some client') (dn_table s) (dn_prefix s) (dn_defaultTTL s))
    end.

Definition dyn_Ready (ctx : Context) : M (dynamoStore D) (option error) :=
  onDynamo (Some errDynamoUnavailable) (fun s => dy_DescribeTable ctx (dn_table s)).

(** [expired] *)
Definition dyn_expired (it : item) : M D bool :=
  match it !! "ea" with
  | Some (AttrN av) =>
      match ParseInt av with
      | Some exp => let* t := timeNow in ret (UnixMilli t >? exp)
      | None => ret false
      end
  | _ => ret false
  end.

Definition itemGet s (ctx : Context) (key : string) : M D (bytes * bool * option error) :=
  let* out := dy_GetItem ctx (dn_table s) (keyItem (dyn_cacheKey s key)) in
  match out with
  | inr e => ret ([], false, Some e)
  | inl None => ret ([], false, None)
  | inl (Some it) =>
      let* x := dyn_expired it in
      if x : bool then
        dy_DeleteItem ctx (dn_table s) (keyItem (dyn_cacheKey s key)) None ;;
        ret ([], false, None)
      else
        match it !! "v" with
        | Some (AttrB v) => ret (v, true, None)
        | _ => ret ([], false, Some errMissingValue)
        end
  end.

Definition dyn_Get (ctx : Context) (key : string) : M (dynamoStore D) (bytes * bool * option error) :=
  onDynamo ([], false, Some errNilClient) (fun s => itemGet s ctx key).

Definition dyn_ttl s (ttl : Z) : Z := if ttl <=? 0 then dn_defaultTTL s else ttl.

Definition itemSet s (ctx : Context) (key : string) (value : bytes) (ttl : Z) : M D (option error) :=
  let ttl := dyn_ttl s ttl in
  let* t := timeNow in
  let exp := UnixMilli (t + ttl) in
  dy_PutItem ctx (dn_table s) (valueItem (dyn_cacheKey s key) value exp) None.

Definition dyn_Set (ctx : Context) (key : string) (value : bytes) (ttl : Z) : M (dynamoStore D) (option error) :=
  onDynamo (Some errNilClient) (fun s => itemSet s ctx key value ttl).

(** The result of a conditional request. *)
Definition conditional (err : option error) : bool * option error :=
  match err with
  | Some e => if isConditionalCheckFailed e then (false, None) else (false, Some e)
  | None => (true, None)
  end.

Definition itemAdd s (ctx : Context) (key : string) (value : bytes) (ttl : Z) : M D (bool * option error) :=
  let ttl := dyn_ttl s ttl in
  let* t := timeNow in
  let nowMs := UnixMilli t in
  let exp := UnixMilli (nowMs * Millisecond + ttl) in
  let* err := dy_PutItem ctx (dn_table s) (valueItem (dyn_cacheKey s key) value exp)
    (Some (addCondition, {[":now" := AttrN (FormatInt nowMs)]})) in
  ret (conditional err).

Definition dyn_Add (ctx : Context) (key : string) (value : bytes) (ttl : Z) : M (dynamoStore D) (bool * option error) :=
  onDynamo (false, Some errNilClient) (fun s => itemAdd s ctx key value ttl).

Definition dyn_LockAcquire (ctx : Context) (key : string) (owner : bytes) (ttl : Z)
    : M (dynamoStore D) (bool * option error) := dyn_Add ctx key owner ttl.

Definition itemRelease s (ctx : Context) (key : string) (owner : bytes) : M D (bool * option error) :=
  let* err := dy_DeleteItem ctx (dn_table s) (keyItem (dyn_cacheKey s key))
    (Some (releaseCondition, {[":owner" := AttrB owner]})) in
  ret (conditional err).

Definition dyn_LockRelease (ctx : Context) (key : string) (owner : bytes) : M (dynamoStore D) (bool * option error) :=
  onDynamo (false, Some errNilClient) (fun s => itemRelease s ctx key owner).

(** [Increment] after its [Get], given what that returned. *)
Definition incrementRest s (ctx : Context) (key : string) (delta ttl : Z) (got : bytes * bool * option error)
    : M D (Z * option error) :=
  let '(body, ok, err) := got in
  match err with
  | Some e => ret (0, Some e)
  | None =>
      match (if ok : bool then ParseInt (string_of_bytes body) else Some 0) with
      | None => ret (0, Some (ErrorString ("cache key " +:+ quoted key +:+ " does not contain a numeric value")))
      | Some current =>
          let next := wrap64 (current + delta) in
          let* err := itemSet s ctx key (bytes_of_string (FormatInt next)) ttl in
          match err with
          | Some e => ret (0, Some e)
          | None => ret (next, None)
          end
      end
  end.

Definition itemIncrement s (ctx : Context) (key : string) (delta ttl : Z) : M D (Z * option error) :=
  let* got := itemGet s ctx key in
  incrementRest s ctx key delta ttl got.

Definition dyn_Increment (ctx : Context) (key : string) (delta ttl : Z) : M (dynamoStore D) (Z * option error) :=
  onDynamo (0, Some errNilClient) (fun s => itemIncrement s ctx key delta ttl).

Definition dyn_Decrement (ctx : Context) (key : string) (delta ttl : Z) : M (dynamoStore D) (Z * option error) :=
  dyn_Increment ctx key (wrap64 (- delta)) ttl.

Definition dyn_Delete (ctx : Context) (key : string) : M (dynamoStore D) (option error) :=
  onDynamo (Some errNilClient) (fun s =>
    dy_DeleteItem ctx (dn_table s) (keyItem (dyn_cacheKey s key)) None).

(** The loop over [keys[i:end]], on the keys that are left; every turn takes at
    least one, so that [n], their number at the start, is enough. *)
Fixpoint deleteBatches (n : nat) s (ctx : Context) (keys : list string) : M D (option error) :=
  match n, keys with
  | _, [] => ret None
  | O, _ => ret None
  | Datatypes.S n, _ =>
      let writes := (fun k => keyItem (dyn_cacheKey s k)) <$> take maxBatch keys in
      let* r := dy_BatchWriteItem ctx (dn_table s) writes in
      match r with
      | inr e => ret (Some e)
      | inl _ => deleteBatches n s ctx (drop maxBatch keys)
      end
  end.

Definition itemsDelete s (ctx : Context) (keys : list string) : M D (option error) :=
  if len keys =? 0 then ret None else deleteBatches (length keys) s ctx keys.

Definition dyn_DeleteMany (ctx : Context) (keys : list string) : M (dynamoStore D) (option error) :=
  onDynamo (if len keys =? 0 then None else Some errNilClient) (fun s => itemsDelete s ctx keys).

(** ** Scans *)

(** [out.LastEvaluatedKey == nil || len(out.LastEvaluatedKey) == 0] *)
Definition scanEnded (last : option item) : bool :=
  match last with None => true | Some it => bool_decide (it = ∅) end.

(** The key of an item, without the prefix if it has it. *)
Definition stripPrefix s (key : string) : string :=
  if decide (dn_prefix s <> EmptyString) then
    if HasPrefix key (dn_prefix s +:+ ":") then TrimPrefix key (dn_prefix s +:+ ":") else key
  else key.

Definition itemKey s (it : item) : option string :=
  match it !! "k" with Some (AttrS key) => Some (stripPrefix s key) | _ => None end.

Fixpoint flushScan (fuel : nat) s (ctx : Context) (last : option item) : M D (option (option error)) :=
  match fuel with
  | O => ret None
  | Datatypes.S fuel =>
      let* out := dy_Scan ctx (dn_table s) "k" last in
      match out with
      | inr e => ret (Some (Some e))
      | inl (items, last) =>
          let* err := (if len items >? 0 then itemsDelete s ctx (omap (itemKey s) items) else ret None) in
          match err with
          | Some e => ret (Some (Some e))
          | None => if scanEnded last then ret (Some None) else flushScan fuel s ctx last
          end
      end
  end.

(** A scan that takes more calls than its bound, which the laws exclude. *)
Definition errScanning : error := ErrorString "scan has not ended".

Definition dyn_Flush (ctx : Context) : M (dynamoStore D) (option error) :=
  onDynamo (Some errNilClient) (fun s =>
    let* client := get in
    let* r := flushScan (dy_scanCalls client None) s ctx None in
    ret (default (Some errScanning) r)).

Definition dyn_Capabilities (_ : dynamoStore D) : InspectorCapabilities := mkCapabilities true true true true.

Definition listItem s (it : item) : M D (option CacheEntry) :=
  let* x := dyn_expired it in
  if x : bool then ret None
  else
    match itemKey s it with
    | None => ret None
    | Some key =>
        let size := match it !! "v" with Some (AttrB v) => len v | _ => 0 end in
        let expiresAt := match it !! "ea" with Some (AttrN v) => ParseInt v | _ => None end in
        ret (Some (mkCacheEntry key size expiresAt))
    end.

Fixpoint listItems s (items : list item) : M D (list CacheEntry) :=
  match items with
  | [] => ret []
  | it :: rest =>
      let* e := listItem s it in
      let* es := listItems s rest in
      ret (option_list e ++ es)
  end.

Fixpoint listScan (fuel : nat) s (ctx : Context) (last : option item) (entries : list CacheEntry)
    : M D (option (list CacheEntry * option error)) :=
  match fuel with
  | O => ret None
  | Datatypes.S fuel =>
      let* out := dy_Scan ctx (dn_table s) "k, v, ea" last in
      match out with
      | inr e => ret (Some ([], Some e))
      | inl (items, last) =>
          let* es := listItems s items in
          let entries := entries ++ es in
          if scanEnded last then ret (Some (entries, None)) else listScan fuel s ctx last entries
      end
  end.

Definition dyn_ListPage (ctx : Context) (opts : ListPageOptions) : M (dynamoStore D) (ListPageResult * option error) :=
  onDynamo (emptyListPageResult, Some errNilClient) (fun s =>
    let* client := get in
    let* r := listScan (dy_scanCalls client None) s ctx None [] in
    match default ([], Some errScanning) r with
    | (_, Some e) => ret (emptyListPageResult, Some e)
    | (entries, None) =>
        let filtered := FilterAndSortEntries entries (ListFilterTerm opts) in
        match DecodeOffsetCursor (opt_Cursor opts) with
        | (_, Some e) => ret (emptyListPageResult, Some e)
        | (offset, None) => ret (SliceEntries filtered offset (opt_Limit opts), None)
        end
    end).

Definition dyn_lock_ops : LockStore (dynamoStore D) := mkLockStore _ dyn_LockAcquire dyn_LockRelease.

#[export] Instance dynamoStore_Store : Store (dynamoStore D) := {|
  Store_Driver := fun _ => DriverDynamo;
  Store_Ready := dyn_Ready;
  Store_Get := dyn_Get;
  Store_Set := dyn_Set;
  Store_Add := dyn_Add;
  Store_Increment := dyn_Increment;
  Store_Decrement := dyn_Decrement;
  Store_Delete := dyn_Delete;
  Store_DeleteMany := dyn_DeleteMany;
  Store_Flush := dyn_Flush;
  Store_lockStore := fun _ => Some dyn_lock_ops;
  Store_Inspector := fun _ => Some (mkInspector _ dyn_Capabilities dyn_ListPage)
|}.
End Dynamo.

(** ** Construction *)

Definition isDynamoStartupRetryable (err : error) : bool :=
  let msg := ToLower (Error err) in
  Contains msg "request send failed" || Contains msg "connection reset by peer" ||
  Contains msg "connection refused" || Contains msg "timeout" || Contains msg "eof".

Definition createTableInput (table : string) : CreateTableInput :=
  mkCreateTableInput table [("k", "HASH")] [("k", "S")] "PAY_PER_REQUEST".

Section New.
Context {D : Type} `{DynamoAPI D} `{Crypto}.

(** One attempt: [inl] when [ensureDynamoTable] returns, [inr] when it may retry. *)
Definition ensureAttempt (ctx : Context) (table : string) : M D (option error + error) :=
  let* err := dy_DescribeTable ctx table in
  match err with
  | None => ret (inl None)
  | Some err =>
      if isResourceNotFound err then
        let* createErr := dy_CreateTable ctx (createTableInput table) in
        match createErr with
        | None => ret (inl None)
        | Some createErr =>
            if isResourceInUse createErr then ret (inl None)
            else if negb (isDynamoStartupRetryable createErr) then ret (inl (Some createErr))
            else ret (inr createErr)
        end
      else if negb (isDynamoStartupRetryable err) then ret (inl (Some err))
      else ret (inr err)
  end.

Definition ensureFailed (table : string) (lastErr : error) : option error :=
  Some (ErrorWrap ("ensure dynamo table " +:+ quoted table +:+ ": ") lastErr).

(** The loop of [ensureDynamoTable], with [n] attempts left. *)
Fixpoint ensureLoop (n : nat) (ctx : Context) (table : string) (lastErr : error) : M D (option error) :=
  match n with
  | O => ret (ensureFailed table lastErr)
  | Datatypes.S n =>
      let* r := ensureAttempt ctx table in
      match r with
      | inl result => ret result
      | inr lastErr =>
          match n with
          | O => ret (ensureFailed table lastErr)
          | _ =>
              let* done := waitRetry ctx dynamoEnsureTableRetryDelay in
              match done with
              | Some e => ret (Some e)
              | None => ensureLoop n ctx table lastErr
              end
          end
      end
  end.

Definition ensureDynamoTable (ctx : Context) (table : string) : M D (option error) :=
  ensureLoop dynamoEnsureTableMaxAttempts ctx table (ErrorString "dynamo table ensure failed").

Record dynamoConfig := mkDynamoConfig {
  dcfg_base : BaseConfig;
  dcfg_Client : option D;
  dcfg_Endpoint : string;
  dcfg_Region : string;
  dcfg_Table : string
}.

(** The SDK: [config.LoadDefaultConfig] for a region (with fixed credentials), the
    field [EndpointResolverWithOptions], and [dynamodb.NewFromConfig]. *)
Context {AwsConfig : Type} (LoadDefaultConfig : Context -> string -> AwsConfig + error).
Variables (withEndpoint : string -> AwsConfig -> AwsConfig) (NewFromConfig : AwsConfig -> D).

(** The resolver is a constant function, so that the call that tries it succeeds. *)
Definition newDynamoClient (ctx : Context) (cfg : dynamoConfig) : D + error :=
  match LoadDefaultConfig ctx (dcfg_Region cfg) with
  | inr e => inr e
  | inl awsCfg =>
      let awsCfg := if decide (dcfg_Endpoint cfg = EmptyString) then awsCfg else withEndpoint (dcfg_Endpoint cfg) awsCfg in
      inl (NewFromConfig awsCfg)
  end.

(** [New]; a nil store is [None]. *)
Definition dyn_New (ctx : Context) (cfg : dynamoConfig) : M unit (option (wrappedStore (dynamoStore D)) * option error) :=
  match ValidateBaseConfig (dcfg_base cfg) with
  | Some e => ret (None, Some e)
  | None =>
      let base := dcfg_base cfg in
      let region := if decide (dcfg_Region cfg = EmptyString) then dynDefaultRegion else dcfg_Region cfg in
      let table := if decide (dcfg_Table cfg = EmptyString) then dynDefaultTable else dcfg_Table cfg in
      let prefix := if decide (Prefix base = EmptyString) then dynDefaultPrefix else Prefix base in
      let base := mkBaseConfig (DefaultTTL base) prefix (Compression base) (MaxValueBytes base) (EncryptionKey base) in
      let cfg := mkDynamoConfig base (dcfg_Client cfg) (dcfg_Endpoint cfg) region table in
      match (match dcfg_Client cfg with Some client => inl client | None => newDynamoClient ctx cfg end) with
      | inr e => ret (None, Some e)
      | inl client => fun w u =>
          let '(err, w, client) := ensureDynamoTable ctx table w client in
          match err with
          | Some e => ((None, Some e), w, u)
          | None =>
              let ttl := if DefaultTTL base <=? 0 then dynDefaultTTL else DefaultTTL base in
              let '(wrapped, err) := WrapStore (mkDynamoStore (Some client) table prefix ttl) base in
              ((Some wrapped, err), w, u)
          end
      end
  end.
End New.
Arguments dynamoConfig : clear implicits.
Arguments mkDynamoConfig {D}.
Arguments dcfg_base {D}.
Arguments dcfg_Client {D}.
Arguments dcfg_Endpoint {D}.
Arguments dcfg_Region {D}.
Arguments dcfg_Table {D}.

(** ** What the store relies on

    The developer guide's promises about the requests above, on one table.  The
    expressions of the store are evaluated on the item a request finds; the two
    projections keep the attributes they name. *)

#[export] Instance AttributeValue_eq_dec : EqDecision AttributeValue.
Proof. solve_decision. Defined.

Definition attrInt (a : option AttributeValue) : option Z :=
  match a with Some (AttrN n) => ParseInt n | _ => None end.

Definition condition (expr : string) (vals : item) (old : option item) : option bool :=
  if decide (expr = addCondition) then
    match old with
    | None => Some true
    | Some it =>
        match attrInt (it !! "ea"), attrInt (vals !! ":now") with
        | Some ea, Some t => Some (ea <? t)
        | _, _ => None
        end
    end
  else if decide (expr = releaseCondition) then
    match old, vals !! ":owner" with
    | Some it, Some owner => Some (bool_decide (it !! "v" = Some owner))
    | None, Some _ => Some false
    | _, None => None
    end
  else None.

(** A request without a condition runs always. *)
Definition holds (cond : option (string * item)) (old : option item) : option bool :=
  match cond with None => Some true | Some (expr, vals) => condition expr vals old end.

Definition projection (expr : string) : option (list string) :=
  if decide (expr = "k") then Some ["k"]
  else if decide (expr = "k, v, ea") then Some ["k"; "v"; "ea"] else None.

Definition project (attrs : list string) (it : item) : item := filter (fun kv => kv.1 ∈ attrs) it.

(** A write whose condition evaluates to [b]: a conditional check fails only when it
    does not hold, and after any other error the write may have happened. *)
Definition wrote {A} (before after actual : A) (b : bool) (err : option error) : Prop :=
  match err with
  | None => b = true /\ actual = after
  | Some e =>
      if isConditionalCheckFailed e then b = false /\ actual = before
      else actual = before \/ b = true /\ actual = after
  end.

(** [dyl_after p k]: a scan that starts after [p] has yet to visit [k].  A scan
    visits what lies between its two positions, once, and moves forward. *)
Class DynamoLaws (D : Type) `{DynamoAPI D} (table : string) := {
  dyl_ok : D -> Prop;
  dyl_items : D -> gmap string item;
  dyl_exists : D -> Prop;
  dyl_after : option item -> string -> bool;
  dyl_get ctx k w d r w' d' :
    world_ok w -> dyl_ok d -> dy_GetItem ctx table (keyItem k) w d = (r, w', d') ->
    later w w' /\ dyl_ok d' /\ dyl_items d' = dyl_items d /\
    match r with inl it => it = dyl_items d !! k | inr _ => True end;
  dyl_put ctx k it cond b w d err w' d' :
    world_ok w -> dyl_ok d -> it !! "k" = Some (AttrS k) -> holds cond (dyl_items d !! k) = Some b ->
    dy_PutItem ctx table it cond w d = (err, w', d') ->
    later w w' /\ dyl_ok d' /\ wrote (dyl_items d) (<[k := it]> (dyl_items d)) (dyl_items d') b err;
  dyl_delete ctx k cond b w d err w' d' :
    world_ok w -> dyl_ok d -> holds cond (dyl_items d !! k) = Some b ->
    dy_DeleteItem ctx table (keyItem k) cond w d = (err, w', d') ->
    later w w' /\ dyl_ok d' /\ wrote (dyl_items d) (base.delete k (dyl_items d)) (dyl_items d') b err;
  (** A batch of at most 25 requests, no two for the same item; those that are not
      returned have been processed. *)
  dyl_batch ctx ks w d r w' d' :
    world_ok w -> dyl_ok d -> (0 < length ks <= 25)%nat ->
    dy_BatchWriteItem ctx table (keyItem <$> ks) w d = (r, w', d') ->
    later w w' /\ dyl_ok d' /\
    (forall k, dyl_items d' !! k = dyl_items d !! k \/ k ∈ ks /\ dyl_items d' !! k = None) /\
    match r with
    | inl unprocessed => NoDup ks /\ forall k, k ∈ ks -> keyItem k ∈ unprocessed \/ dyl_items d' !! k = None
    | inr _ => True
    end;
  dyl_after_start k : dyl_after None k = true;
  dyl_scan ctx proj attrs start w d r w' d' :
    world_ok w -> dyl_ok d -> projection proj = Some attrs -> dy_Scan ctx table proj start w d = (r, w', d') ->
    later w w' /\ dyl_ok d' /\ dyl_items d' = dyl_items d /\
    match r with
    | inr _ => True
    | inl (found, last) =>
        (exists ks, NoDup ks /\ found = omap (fun k => project attrs <$> dyl_items d !! k) ks /\
          forall k, k ∈ ks <->
            is_Some (dyl_items d !! k) /\ dyl_after start k = true /\
            (scanEnded last = false -> dyl_after last k = false)) /\
        (scanEnded last = false ->
          (forall k, dyl_after last k = true -> dyl_after start k = true) /\
          (0 < dy_scanCalls d' last < dy_scanCalls d start)%nat)
    end;
  dyl_scan_calls d : (0 < dy_scanCalls d None)%nat;
  dyl_scan_fewer d d' p : dyl_items d' ⊆ dyl_items d -> (dy_scanCalls d' p <= dy_scanCalls d p)%nat;
  dyl_describe ctx w d err w' d' :
    world_ok w -> dyl_ok d -> dy_DescribeTable ctx table w d = (err, w', d') ->
    later w w' /\ dyl_ok d' /\ dyl_items d' = dyl_items d /\ (err = None -> dyl_exists d');
  dyl_create ctx w d err w' d' :
    world_ok w -> dyl_ok d -> dy_CreateTable ctx (createTableInput table) w d = (err, w', d') ->
    later w w' /\ dyl_ok d' /\ dyl_items d' = dyl_items d /\
    match err with None => dyl_exists d' | Some e => isResourceInUse e = true -> dyl_exists d' end
}.

(** A table within its throughput leaves no request of a batch unprocessed. *)
Class DynamoUnthrottled (D : Type) `{DynamoLaws D table} :=
  dyl_processed ctx ks w d unprocessed w' d' :
    world_ok w -> dyl_ok d -> (0 < length ks <= 25)%nat ->
    dy_BatchWriteItem ctx table (keyItem <$> ks) w d = (inl unprocessed, w', d') -> unprocessed = [].
