(* ===== verification/DynamoContract.v ===== *)
(** * The DynamoDB store keeps the contracts

    Over a table that serves requests as documented ([DynamoLaws]) and is within its
    throughput ([DynamoUnthrottled]), the store of [DynamoStore] keeps the store,
    lock and counter contracts with a clock grain of one millisecond.  The last part
    is about scans and batches: what [Flush] removes, what [ListPage] lists, and the
    lists that [DeleteMany] rejects. *)

From stdpp Require Import sorting.
From S2P Require Import Prelude GoStd CacheCore Transport InspectHelpers Shaping Wrapping MemoryStore Rows DynamoStore.

(** The columns of an item that the store has written. *)
Definition decodeItem (it : item) : option (bytes * Z) :=
  match it !! "v", attrInt (it !! "ea") with
  | Some (AttrB v), Some x => Some (v, x)
  | _, _ => None
  end.

Lemma valueItem_k k v x : valueItem k v x !! "k" = Some (AttrS k).
Proof. done. Qed.
Lemma valueItem_v k v x : valueItem k v x !! "v" = Some (AttrB v).
Proof. done. Qed.
Lemma valueItem_ea k v x : valueItem k v x !! "ea" = Some (AttrN (FormatInt x)).
Proof. done. Qed.

Lemma decode_valueItem k v x : in_int64 x -> decodeItem (valueItem k v x) = Some (v, x).
Proof. intros Hx. unfold decodeItem. rewrite valueItem_v, valueItem_ea. simpl. by rewrite ParseInt_FormatInt. Qed.

Lemma keyItem_inj a b : keyItem a = keyItem b -> a = b.
Proof. intros E. apply (f_equal (fun it : item => it !! "k")) in E. change (Some (AttrS a) = Some (AttrS b)) in E. congruence. Qed.

(** Expiries of the store are far from the ends of [int64]. *)
Lemma expiry_int64 w ttl : world_ok w -> ttl_ok ttl ->
  in_int64 (UnixMilli (now w)) /\ in_int64 (UnixMilli (now w + ttl)) /\ in_int64 (UnixMilli (UnixMilli (now w) * Millisecond + ttl)).
Proof.
  intros (_ & Hc & _) [? ?]. specialize (Hc (w_tick w)). change (0 < now w < horizon) in Hc.
  assert (Hb : forall t, 0 <= t < 2 * horizon -> in_int64 (UnixMilli t)).
  { intros t Ht. unfold in_int64, UnixMilli, int64_min, int64_max, horizon in *.
    pose proof (Z.div_pos t 1000000). pose proof (Z.div_le_upper_bound t 1000000 t). lia. }
  assert (0 <= UnixMilli (now w) * Millisecond <= now w).
  { unfold UnixMilli, Millisecond. pose proof (Z.mul_div_le (now w) 1000000). pose proof (Z.div_pos (now w) 1000000). lia. }
  split_and!; apply Hb; lia.
Qed.

Lemma wrote_ran {A} (before after actual : A) err :
  wrote before after actual true err -> ran_or_not (err <> None) before after actual.
Proof.
  unfold wrote, ran_or_not. destruct err as [e|].
  - destruct (isConditionalCheckFailed e); [by intros []|]. right. split; [done|]. tauto.
  - intros [_ ->]. left. split; [congruence | done].
Qed.

Lemma wrote_map {A B} (f : A -> B) before after actual b err :
  wrote before after actual b err -> wrote (f before) (f after) (f actual) b err.
Proof.
  unfold wrote. destruct err as [e|]; [destruct (isConditionalCheckFailed e)|]; intros Hw.
  - destruct Hw. split; congruence.
  - destruct Hw as [->|[? ->]]; auto.
  - destruct Hw. split; congruence.
Qed.

Section Items.
Context {D : Type} {tbl : string} `{DynamoLaws D tbl}.
#[local] Existing Instance tableKeys.
Implicit Types (s : dynamoStore D) (d : D).

Definition dyn_rows d : rowTable := omap decodeItem (dyl_items d).
#[local] Abbreviation row_peek := (Rows.row_peek dyn_rows).
#[local] Abbreviation row_occupied := (Rows.row_occupied dyn_rows).

(** The items of the table are the store's. *)
Definition itemOf (k : string) (it : item) : Prop := exists v x, in_int64 x /\ it = valueItem k v x.
Definition table_ok d : Prop := dyl_ok d /\ map_Forall itemOf (dyl_items d).

Lemma row_item d k : table_ok d ->
  match dyn_rows d !! k with
  | Some (v, x) => in_int64 x /\ dyl_items d !! k = Some (valueItem k v x)
  | None => dyl_items d !! k = None
  end.
Proof.
  intros [_ Hd]. unfold dyn_rows. rewrite lookup_omap. destruct (dyl_items d !! k) as [it|] eqn:E; [|done].
  destruct (Hd _ _ E) as (v & x & Hx & ->). simpl. by rewrite decode_valueItem.
Qed.

Lemma rows_put d k v x : in_int64 x ->
  omap decodeItem (<[k := valueItem k v x]> (dyl_items d)) = <[k := (v, x)]> (dyn_rows d).
Proof. intros Hx. by rewrite omap_insert, decode_valueItem. Qed.

Lemma rows_delete d k : omap decodeItem (base.delete k (dyl_items d)) = base.delete k (dyn_rows d).
Proof. apply omap_delete. Qed.

Lemma wrote_shaped (before after actual : gmap string item) b err :
  wrote before after actual b err -> map_Forall itemOf before -> map_Forall itemOf after -> map_Forall itemOf actual.
Proof.
  unfold wrote. destruct err as [e|]; [destruct (isConditionalCheckFailed e)|]; intros Hw Ha Hb.
  - by destruct Hw as [_ ->].
  - by destruct Hw as [->|[_ ->]].
  - by destruct Hw as [_ ->].
Qed.

(** The requests, on the rows of the table. *)
Lemma put_rows ctx k v x cond b w d err w' d' :
  world_ok w -> table_ok d -> in_int64 x -> holds cond (dyl_items d !! k) = Some b ->
  dy_PutItem ctx tbl (valueItem k v x) cond w d = (err, w', d') ->
  later w w' /\ table_ok d' /\ wrote (dyn_rows d) (<[k := (v, x)]> (dyn_rows d)) (dyn_rows d') b err.
Proof.
  intros Hw [Hd Hs] Hx Hb E. eapply dyl_put in E as (Hl & Hd' & Hr); [|done..].
  split; [done|]. split.
  - split; [done|]. eapply wrote_shaped; [done|done|]. apply map_Forall_insert_2; [by exists v, x | done].
  - apply (wrote_map (omap decodeItem)) in Hr. by rewrite rows_put in Hr.
Qed.

Lemma delete_rows ctx k cond b w d err w' d' :
  world_ok w -> table_ok d -> holds cond (dyl_items d !! k) = Some b ->
  dy_DeleteItem ctx tbl (keyItem k) cond w d = (err, w', d') ->
  later w w' /\ table_ok d' /\ wrote (dyn_rows d) (base.delete k (dyn_rows d)) (dyn_rows d') b err.
Proof.
  intros Hw [Hd Hs] Hb E. eapply dyl_delete in E as (Hl & Hd' & Hr); [|done..].
  split; [done|]. split.
  - split; [done|]. eapply wrote_shaped; [done|done|]. by apply map_Forall_delete.
  - apply (wrote_map (omap decodeItem)) in Hr. by rewrite rows_delete in Hr.
Qed.

Lemma get_row ctx k w d r w' d' :
  world_ok w -> table_ok d -> dy_GetItem ctx tbl (keyItem k) w d = (r, w', d') ->
  later w w' /\ table_ok d' /\ dyn_rows d' = dyn_rows d /\
  match r with
  | inl (Some it) => exists v x, in_int64 x /\ it = valueItem k v x /\ dyn_rows d !! k = Some (v, x)
  | inl None => dyn_rows d !! k = None
  | inr _ => True
  end.
Proof.
  intros Hw Hd E. pose proof (row_item d k Hd) as Hk. apply dyl_get in E as (Hl & Hd' & Hi & Hr); [|done|apply Hd].
  assert (dyn_rows d' = dyn_rows d) as -> by (unfold dyn_rows; by rewrite Hi).
  split; [done|]. split; [split; [done|]; rewrite Hi; apply Hd|]. split; [done|].
  destruct r as [it|]; [|done]. subst it. destruct (dyn_rows d !! k) as [[v x]|].
  - destruct Hk as [Hx ->]. by exists v, x.
  - by rewrite Hk.
Qed.

Lemma dyn_expired_item k v x : in_int64 x ->
  dyn_expired (valueItem k v x) = (fun w (d : D) => (UnixMilli (now w) >? x, tickWorld w, d)).
Proof. intros Hx. unfold dyn_expired. rewrite valueItem_ea. by rewrite ParseInt_FormatInt. Qed.

(** ** The operations, on the table *)

Section Operations.
Variable s : dynamoStore D.
Hypothesis (Htbl : dn_table s = tbl).
#[local] Abbreviation key := (dyn_cacheKey s).

Lemma dyn_ttl_ok ttl : ttl_ok ttl -> dyn_ttl s ttl = ttl.
Proof. intros [? _]. unfold dyn_ttl. by destruct (Z.leb_spec ttl 0); [lia|]. Qed.

Lemma item_delete ctx k w d err w' d' :
  world_ok w -> table_ok d -> dy_DeleteItem ctx tbl (keyItem k) None w d = (err, w', d') ->
  later w w' /\ table_ok d' /\ delete_post row_peek k w d err w' d'.
Proof.
  intros Hw Hd E. eapply delete_rows in E as (Hl & Hd' & Hr); [|done..].
  split; [done|]. split; [done|]. by apply delete_row_post, wrote_ran.
Qed.

Lemma item_get ctx k w d r w' d' :
  world_ok w -> table_ok d -> itemGet s ctx k w d = (r, w', d') ->
  later w w' /\ table_ok d' /\ get_post row_peek (key k) w d r w' d'.
Proof.
  intros Hw Hd. unfold itemGet. go_simpl. rewrite Htbl. destruct (dy_GetItem _ _ _ w d) as [[out w1] d1] eqn:E.
  apply get_row in E as (Hl & Hd1 & Hrows & Hr); [|done..].
  assert (Hsame : forall k' (w0 : World), same_key row_peek w0 d d1 k') by (intros; apply row_same; by rewrite Hrows).
  pose proof (later_now _ _ Hl). destruct out as [[it|]|e].
  2: { intros [= <- <- <-]. split; [done|]. split; [done|]. split; [done|].
       exists (now w). split; [lia|]. unfold Rows.row_peek. by rewrite Hr. }
  2: { intros [= <- <- <-]. by split. }
  destruct Hr as (v & x & Hx & -> & Hr). rewrite dyn_expired_item by done. go_simpl.
  pose proof (later_tick w1 (later_world_ok _ _ Hl)) as Hl1. pose proof (later_now _ _ Hl1).
  assert (Hl2 : later w (tickWorld w1)) by by eapply later_trans.
  pose proof (row_seen dyn_rows w (tickWorld w1) d (key k) (now w1) v x ltac:(lia) Hr) as Hsee.
  destruct (Z.gtb_spec (UnixMilli (now w1)) x) as [Hgt|Hle].
  - destruct (dy_DeleteItem _ _ _ _ _ d1) as [[err w2] d2] eqn:E2. intros [= <- <- <-].
    apply item_delete in E2 as (Hl3 & Hd2 & Hp); [|by eauto with go|done].
    split; [by eapply later_trans|]. split; [done|]. split; [|by eapply seen_widen; [exact Hsee|apply later_refl|]].
    intros k'. eapply same_key_trans; [apply Hsame|].
    eapply delete_removed_same; [|exact Hp|]; [done|].
    eapply (row_expired _ w1); [by eapply later_trans|by rewrite Hrows|lia].
  - rewrite valueItem_v. intros [= <- <- <-]. by split.
Qed.

Lemma item_set ctx k v ttl w w1 d err w' d' :
  later w w1 -> table_ok d -> ttl_ok ttl -> itemSet s ctx k v ttl w1 d = (err, w', d') ->
  later w1 w' /\ table_ok d' /\ set_post row_peek Millisecond (key k) v ttl w d err w' d'.
Proof.
  intros Hl Hd Ht. unfold itemSet. go_simpl. rewrite dyn_ttl_ok, Htbl by done. intros E.
  pose proof (later_world_ok _ _ Hl) as Hw1. pose proof (later_tick w1 Hw1) as Hl1.
  eapply put_rows in E as (Hl2 & Hd' & Hr); [|by eauto with go|done|by apply (expiry_int64 w1 ttl)|done].
  assert (Hl3 : later w1 w') by by eapply later_trans. split; [done|]. split; [done|].
  eapply (upsert_post _ _ _ _ _ w w1); [done|done| |by apply wrote_ran]. apply later_now in Hl.
  split; apply UnixMilli_mono; lia.
Qed.

(** The condition of [Add] on the row it finds. *)
Lemma add_holds d k t : table_ok d -> in_int64 t ->
  holds (Some (addCondition, {[":now" := AttrN (FormatInt t)]})) (dyl_items d !! k) =
  Some (match dyn_rows d !! k with Some (_, x) => x <? t | None => true end).
Proof.
  intros Hd Ht. pose proof (row_item d k Hd) as Hk. destruct (dyn_rows d !! k) as [[v x]|].
  - destruct Hk as [Hx ->]. unfold holds, condition. rewrite decide_True, valueItem_ea by done.
    change (({[":now" := AttrN (FormatInt t)]} : item) !! ":now") with (Some (AttrN (FormatInt t))).
    cbn [attrInt]. by rewrite !ParseInt_FormatInt.
  - by rewrite Hk.
Qed.

Lemma item_add ctx k v ttl w d r w' d' :
  world_ok w -> table_ok d -> ttl_ok ttl -> itemAdd s ctx k v ttl w d = (r, w', d') ->
  later w w' /\ table_ok d' /\ add_post row_peek row_occupied Millisecond (key k) v ttl w d r w' d'.
Proof.
  intros Hw Hd Ht. unfold itemAdd. go_simpl. rewrite dyn_ttl_ok, Htbl by done.
  pose proof (later_tick w Hw) as Hl0. destruct (expiry_int64 w ttl Hw Ht) as (Hn & _ & Hx).
  destruct (dy_PutItem _ _ _ _ _ d) as [[err w1] d1] eqn:E. intros [= <- <- <-].
  eapply put_rows in E as (Hl1 & Hd1 & Hr); [|by eauto with go|done|done|by apply add_holds].
  assert (Hl : later w w1) by by eapply later_trans. split; [done|]. split; [done|].
  set (b := match dyn_rows d !! key k with Some _ => _ | None => _ end) in Hr.
  assert (Hb : if b then free row_occupied w w1 d (key k) else taken row_occupied w w1 d (key k)).
  { subst b. destruct (dyn_rows d !! key k) as [[v0 x0]|] eqn:Ek; [|apply row_free; auto].
    destruct (Z.ltb_spec x0 (UnixMilli (now w))); [apply row_free; eauto 6|].
    exists (now w). apply later_now in Hl. split; [lia|]. unfold Rows.row_occupied, Rows.row_peek. rewrite Ek.
    destruct (Z.gtb_spec (UnixMilli (now w)) x0); [lia | eauto]. }
  unfold wrote in Hr. destruct err as [e|]; cbn [conditional].
  - destruct (isConditionalCheckFailed e).
    + destruct Hr as [Eb Hr]. rewrite Eb in Hb. split; [intros; by apply row_unchanged|]. split; [done|by apply row_unchanged].
    + destruct Hr as [Hr|[Eb Hr]]; [by apply add_post_same, row_unchanged|]. rewrite Eb in Hb. by apply add_inserted.
  - destruct Hr as [Eb Hr]. rewrite Eb in Hb. by apply add_inserted.
Qed.

(** The condition of [LockRelease]. *)
Lemma release_holds d k owner : table_ok d ->
  holds (Some (releaseCondition, {[":owner" := AttrB owner]})) (dyl_items d !! k) =
  Some (match dyn_rows d !! k with Some (v, _) => bool_decide (v = owner) | None => false end).
Proof.
  intros Hd. pose proof (row_item d k Hd) as Hk. destruct (dyn_rows d !! k) as [[v x]|].
  - destruct Hk as [Hx ->]. unfold holds, condition. rewrite decide_False, decide_True by done.
    change (({[":owner" := AttrB owner]} : item) !! ":owner") with (Some (AttrB owner)). rewrite valueItem_v.
    f_equal. apply bool_decide_ext. split; congruence.
  - by rewrite Hk.
Qed.

Lemma item_release ctx k owner w d r w' d' :
  world_ok w -> table_ok d -> itemRelease s ctx k owner w d = (r, w', d') ->
  later w w' /\ table_ok d' /\ release_post row_peek (key k) owner w d r w' d'.
Proof.
  intros Hw Hd. unfold itemRelease. go_simpl. rewrite Htbl.
  destruct (dy_DeleteItem _ _ _ _ w d) as [[err w1] d1] eqn:E. intros [= <- <- <-].
  eapply delete_rows in E as (Hl & Hd1 & Hr); [|done|done|by apply release_holds].
  split; [done|]. split; [done|].
  set (b := match dyn_rows d !! key k with Some _ => _ | None => _ end) in Hr.
  assert (Hb : if b then exists x, dyn_rows d !! key k = Some (owner, x) else ~ exists x, dyn_rows d !! key k = Some (owner, x)).
  { subst b. destruct (dyn_rows d !! key k) as [[v x]|]; [|by intros []].
    case_bool_decide as Hv; [subst; eauto | intros [? [= ? _]]; done]. }
  unfold wrote in Hr. destruct err as [e|]; cbn [conditional].
  - destruct (isConditionalCheckFailed e).
    + destruct Hr as [Eb Hr]. rewrite Eb in Hb. by apply release_refused.
    + destruct Hr as [Hr|[Eb Hr]]; [by apply release_post_same, row_unchanged|]. rewrite Eb in Hb. by apply release_deleted.
  - destruct Hr as [Eb Hr]. rewrite Eb in Hb. by apply release_deleted.
Qed.

Lemma item_increment ctx k delta ttl w d r w' d' :
  world_ok w -> table_ok d -> ttl_ok ttl -> itemIncrement s ctx k delta ttl w d = (r, w', d') ->
  later w w' /\ table_ok d' /\ increment_post row_peek Millisecond (key k) delta ttl w d r w' d'.
Proof.
  intros Hw Hd Ht. unfold itemIncrement, incrementRest. go_simpl. destruct (itemGet s ctx k w d) as [[[[body ok] err] w1] d1] eqn:E1.
  apply item_get in E1 as (Hl1 & Hd1 & Hsame & Hgot); [|done..].
  assert (Hfail : forall e, increment_post row_peek Millisecond (key k) delta ttl w d (0, Some e) w1 d1) by by split.
  destruct err as [e|]; [intros [= <- <- <-]; auto|].
  set (cur := if ok then _ else _). destruct cur as [c|] eqn:Ec; [|intros [= <- <- <-]; auto].
  assert (exists v, seen row_peek w w1 d (key k) v /\ counts v c) as (v & Hv & Hc).
  { subst cur. destruct ok; [by exists (Some body)|]. exists None. split; [done|]. by injection Ec. }
  destruct (itemSet _ _ _ _ _ w1 d1) as [[err w2] d2] eqn:E2.
  eapply item_set in E2 as (Hl2 & Hd2 & Hk & Hset); [|exact Hl1|done|done].
  assert (Hl : later w w2) by by eapply later_trans.
  assert (Hother : forall k', apart (S := D) k' (key k) -> same_key row_peek w2 d d2 k').
  { intros k' Ha. eapply same_key_trans; [eapply same_key_widen; [apply Hsame|done]|by apply Hk]. }
  destruct err; intros [= <- <- <-]; (split; [done|]); (split; [done|]); [by split|].
  split; [done|]. split; [|done]. exists v, c. split; [|done]. eapply seen_widen; [done|by apply later_refl|done].
Qed.

(** ** Batches *)

Lemma table_ok_fewer d d' : table_ok d -> dyl_ok d' -> dyl_items d' ⊆ dyl_items d -> table_ok d'.
Proof. intros [_ Hs] Hd Hsub. split; [done|]. intros k it E. apply Hs. by eapply lookup_weaken. Qed.

(** What a sequence of batches does: it removes keys of the list only, and all of
    them unless some were left unprocessed. *)
Definition deleted (ks : list string) d d' : Prop :=
  dyl_items d' ⊆ dyl_items d /\ (forall k', k' ∉ key <$> ks -> dyl_items d' !! k' = dyl_items d !! k').

Lemma one_batch ctx ks w d r w' d' :
  world_ok w -> table_ok d -> (0 < length ks <= 25)%nat ->
  dy_BatchWriteItem ctx tbl ((fun k => keyItem (key k)) <$> ks) w d = (r, w', d') ->
  later w w' /\ table_ok d' /\ deleted ks d d' /\
  match r with
  | inl unprocessed =>
      NoDup (key <$> ks) /\ forall k, k ∈ ks -> keyItem (key k) ∈ unprocessed \/ dyl_items d' !! key k = None
  | inr _ => True
  end.
Proof.
  intros Hw Hd Hlen E. change ((fun k => keyItem (key k)) <$> ks) with (keyItem ∘ key <$> ks) in E.
  rewrite list_fmap_compose in E. pose proof Hd as [Hok _].
  apply dyl_batch in E as (Hl & Hok' & Hi & Hr); [|done|done|by rewrite length_fmap].
  assert (Hsub : dyl_items d' ⊆ dyl_items d).
  { apply map_subseteq_spec. intros k it E. destruct (Hi k) as [<-|[_ En]]; [done|congruence]. }
  split; [done|]. split; [by eapply table_ok_fewer|]. split.
  - split; [done|]. intros k' Hn. by destruct (Hi k') as [?|[? _]].
  - destruct r as [un|]; [|done]. destruct Hr as [Hnd Hr]. split; [done|]. intros k Hk. apply Hr. by apply list_elem_of_fmap_2.
Qed.

Lemma deleteBatches_step n ctx ks : ks <> [] ->
  deleteBatches (Datatypes.S n) s ctx ks =
    (let* r := dy_BatchWriteItem ctx (dn_table s) ((fun k => keyItem (key k)) <$> take maxBatch ks) in
     match r with inr e => ret (Some e) | inl _ => deleteBatches n s ctx (drop maxBatch ks) end).
Proof. by destruct ks. Qed.

Lemma batch_length (ks : list string) : ks <> [] -> (0 < length (take maxBatch ks) <= 25)%nat.
Proof. intros Hne. rewrite length_take. destruct ks; [done|]. unfold maxBatch. cbn [length]. lia. Qed.

Lemma batches_delete n ctx ks w d err w' d' :
  world_ok w -> table_ok d -> (length ks <= n)%nat -> deleteBatches n s ctx ks w d = (err, w', d') ->
  later w w' /\ table_ok d' /\ deleted ks d d'.
Proof.
  revert ks w d. induction n as [|n IH]; intros ks w d Hw Hd Hn; (destruct (decide (ks = [])) as [->|Hne];
    [intros [= <- <- <-]; split; [by apply later_refl|done]|]).
  { destruct ks; [done | simpl in Hn; lia]. }
  rewrite deleteBatches_step by done. go_simpl. rewrite Htbl.
  destruct (dy_BatchWriteItem _ _ _ w d) as [[r w1] d1] eqn:E1.
  apply one_batch in E1 as (Hl1 & Hd1 & [Hs1 Ho1] & _); [|done|done|by apply batch_length].
  assert (Hout : forall k', k' ∉ (key <$> ks) -> (k' ∉ (key <$> take maxBatch ks)) /\ (k' ∉ (key <$> drop maxBatch ks))).
  { intros k' Hk'. rewrite <- (take_drop maxBatch ks), fmap_app in Hk'. by apply not_elem_of_app in Hk'. }
  destruct r as [un|e].
  - intros E. apply IH in E as (Hl2 & Hd2 & Hs2 & Ho2); [|by eauto with go|done|].
    + split; [by eapply later_trans|]. split; [done|]. split; [by etrans|].
      intros k' Hk'. apply Hout in Hk' as [? ?]. rewrite Ho2 by done. by apply Ho1.
    + rewrite length_drop. unfold maxBatch. lia.
  - intros [= <- <- <-]. split; [done|]. split; [done|]. split; [done|]. intros k' Hk'. by apply Ho1, Hout.
Qed.

(** Within the throughput, every key of the list is removed. *)
Context `{Hun : !DynamoUnthrottled D}.

Lemma batches_all n ctx ks w d w' d' :
  world_ok w -> table_ok d -> (length ks <= n)%nat -> deleteBatches n s ctx ks w d = (None, w', d') ->
  forall k, k ∈ ks -> dyl_items d' !! key k = None.
Proof.
  revert ks w d. induction n as [|n IH]; intros ks w d Hw Hd Hn; (destruct (decide (ks = [])) as [->|Hne];
    [by intros _ k ?%elem_of_nil|]).
  { destruct ks; [done | simpl in Hn; lia]. }
  rewrite deleteBatches_step by done. go_simpl. rewrite Htbl.
  destruct (dy_BatchWriteItem _ _ _ w d) as [[[un|e] w1] d1] eqn:E1; [|done]. pose proof E1 as Eun.
  apply one_batch in E1 as (Hl1 & Hd1 & _ & _ & Hr); [|done|done|by apply batch_length].
  change ((fun k => keyItem (key k)) <$> take maxBatch ks) with (keyItem ∘ key <$> take maxBatch ks) in Eun.
  rewrite list_fmap_compose in Eun.
  apply dyl_processed in Eun as ->; [|done|apply Hd|rewrite length_fmap; by apply batch_length].
  assert (length (drop maxBatch ks) <= n)%nat by (rewrite length_drop; unfold maxBatch; lia).
  intros E k Hk. rewrite <- (take_drop maxBatch ks) in Hk. apply elem_of_app in Hk as [Hk|Hk].
  - apply batches_delete in E as (_ & _ & Hs2 & _); [|by eauto with go|done..].
    eapply lookup_weaken_None; [|exact Hs2]. by destruct (Hr k Hk) as [?%elem_of_nil|?].
  - eapply IH; [..|exact E|exact Hk]; eauto with go.
Qed.

Lemma items_delete ctx ks w d err w' d' :
  world_ok w -> table_ok d -> itemsDelete s ctx ks w d = (err, w', d') ->
  later w w' /\ table_ok d' /\ deleted ks d d' /\ (err = None -> forall k, k ∈ ks -> dyl_items d' !! key k = None).
Proof.
  intros Hw Hd. unfold itemsDelete. destruct (Z.eqb_spec (len ks) 0) as [Hlen|Hlen].
  - intros [= <- <- <-]. split; [by apply later_refl|]. split; [done|]. split; [done|].
    destruct ks; [by intros _ k ?%elem_of_nil | unfold len in Hlen; simpl in Hlen; lia].
  - intros E. pose proof E as E'. apply batches_delete in E as (? & ? & ?); [|done..].
    split; [done|]. split; [done|]. split; [done|]. intros -> k Hk. by eapply (batches_all _ ctx ks w d).
Qed.

Lemma gone_rows d k : dyl_items d !! k = None -> dyn_rows d !! k = None.
Proof. intros E. unfold dyn_rows. by rewrite lookup_omap, E. Qed.

Lemma item_deleteMany ctx ks w d err w' d' :
  world_ok w -> table_ok d -> itemsDelete s ctx ks w d = (err, w', d') ->
  later w w' /\ table_ok d' /\ deleteMany_post row_peek (key <$> ks) w d err w' d'.
Proof.
  intros Hw Hd E. apply items_delete in E as (Hl & Hd' & [_ Ho] & Hr); [|done..].
  split; [done|]. split; [done|]. split.
  - intros k Hk. apply row_same. unfold dyn_rows. rewrite !lookup_omap, Ho; [done|]. intros Hin. by apply (Hk k).
  - destruct err; [done|]. intros k (k0 & -> & Hk)%list_elem_of_fmap. by apply row_removed, gone_rows, Hr.
Qed.

(** ** Scans *)

Lemma stripPrefix_key k : stripPrefix s (key k) = k.
Proof.
  unfold stripPrefix, dyn_cacheKey. destruct (decide (dn_prefix s = EmptyString)) as [->|Hp]; [done|].
  rewrite decide_True by done. by rewrite string_app_assoc, HasPrefix_app, TrimPrefix_app.
Qed.

Lemma itemKey_key k it attrs : "k" ∈ attrs -> itemOf (key k) it -> itemKey s (project attrs it) = Some k.
Proof.
  intros Ha (v & x & _ & ->). unfold itemKey, project.
  rewrite (map_lookup_filter_Some_2 _ _ "k" (AttrS (key k))); [by rewrite stripPrefix_key|done|done].
Qed.

(** Every key of the store is gone, or lies ahead of the scan. *)
Definition swept (start : option item) d : Prop :=
  forall k, dyl_items d !! key k = None \/ dyl_after start (key k) = true.

(** The keys of other namespaces are as they were. *)
Definition foreign d d' : Prop := forall k', (forall k, k' <> key k) -> dyl_items d' !! k' = dyl_items d !! k'.

Lemma deleted_foreign ks d d' : deleted ks d d' -> foreign d d'.
Proof. intros [_ Ho] k' Hk'. apply Ho. intros (k & -> & _)%list_elem_of_fmap. by apply (Hk' k). Qed.

(** One page of [Flush]: what it has scanned it has deleted. *)
Lemma flush_page start attrs (found : list item) last w1 d1 w2 d2 err ctx :
  world_ok w1 -> table_ok d1 -> "k" ∈ attrs ->
  (exists ks, NoDup ks /\ found = omap (fun k => project attrs <$> dyl_items d1 !! k) ks /\
    forall k, k ∈ ks <->
      is_Some (dyl_items d1 !! k) /\ dyl_after start k = true /\ (scanEnded last = false -> dyl_after last k = false)) ->
  swept start d1 ->
  (if len found >? 0 then itemsDelete s ctx (omap (itemKey s) found) else ret None) w1 d1 = (err, w2, d2) ->
  later w1 w2 /\ table_ok d2 /\ dyl_items d2 ⊆ dyl_items d1 /\ foreign d1 d2 /\
  (err = None -> forall k, dyl_items d2 !! key k = None \/ scanEnded last = false /\ dyl_after last (key k) = true).
Proof.
  intros Hw Hd Ha (ks & _ & Hfound & Hks) Hsw E.
  assert (Hhit : forall k, is_Some (dyl_items d1 !! key k) ->
    (scanEnded last = false /\ dyl_after last (key k) = true) \/ k ∈ omap (itemKey s) found).
  { intros k [it Hit]. destruct (Hsw k) as [?|Haft]; [congruence|].
    destruct (scanEnded last) eqn:El; [right | destruct (dyl_after last (key k)) eqn:Eafter; [auto|right]];
      (apply list_elem_of_omap; exists (project attrs it); split; [|by apply itemKey_key, Hd];
       rewrite Hfound; apply list_elem_of_omap; exists (key k); split; [apply Hks; by split_and!; eauto|by rewrite Hit]). }
  destruct (Z.gtb_spec (len found) 0) as [Hlen|Hlen].
  - apply items_delete in E as (Hl & Hd2 & Hdel & Hr); [|done..]. pose proof Hdel as [Hsub _].
    split; [done|]. split; [done|]. split; [done|]. split; [by eapply deleted_foreign|]. intros -> k.
    destruct (dyl_items d1 !! key k) as [it|] eqn:Ei; [|left; by eapply lookup_weaken_None].
    destruct (Hhit k ltac:(eauto)); [by right|]. left. by apply Hr.
  - injection E as <- <- <-. split; [by apply later_refl|]. split; [done|]. split; [done|]. split; [done|]. intros _ k.
    destruct (dyl_items d1 !! key k) as [it|] eqn:Ei; [|by left]. right.
    destruct (Hhit k ltac:(eauto)) as [?|Hin]; [done|]. destruct found; [by apply elem_of_nil in Hin|].
    unfold len in Hlen. simpl in Hlen. lia.
Qed.

Lemma flushScan_spec fuel ctx start w d x w' d' :
  world_ok w -> table_ok d -> (0 < fuel)%nat -> (dy_scanCalls d start <= fuel)%nat -> swept start d ->
  flushScan fuel s ctx start w d = (x, w', d') ->
  later w w' /\ table_ok d' /\ dyl_items d' ⊆ dyl_items d /\ foreign d d' /\
  exists err, x = Some err /\ (err = None -> forall k, dyl_items d' !! key k = None).
Proof.
  revert start w d. induction fuel as [|fuel IH]; intros start w d Hw Hd Hf Hc Hsw; [lia|].
  cbn [flushScan]. go_simpl. rewrite Htbl. destruct (dy_Scan _ _ _ _ w d) as [[r w1] d1] eqn:E1.
  eapply dyl_scan in E1 as (Hl1 & Hok1 & Hi1 & Hr); [|done|apply Hd|done].
  assert (Hd1 : table_ok d1) by (split; [done|]; rewrite Hi1; apply Hd).
  destruct r as [[found last]|e].
  2: { intros [= <- <- <-]. split; [done|]. split; [done|]. split; [by rewrite Hi1|].
       split; [intros k' _; by rewrite Hi1|]. by exists (Some e). }
  destruct Hr as [Hks Hlast]. rewrite <- Hi1 in Hks.
  set (page := if len found >? 0 then _ else _). destruct (page w1 d1) as [[err w2] d2] eqn:E2.
  apply (flush_page start ["k"] found last) in E2 as (Hl2 & Hd2 & Hsub & Hfor & Hr2);
    [|by eauto with go|done|by apply list_elem_of_here|done|intros k; by rewrite Hi1].
  assert (Hl : later w w2) by by eapply later_trans. rewrite Hi1 in Hsub.
  assert (Hfor' : foreign d d2) by (intros k' Hk'; rewrite Hfor by done; by rewrite Hi1).
  destruct err as [e|]; [intros [= <- <- <-]; split_and!; [done..|]; by exists (Some e)|].
  specialize (Hr2 eq_refl). destruct (scanEnded last).
  { intros [= <- <- <-]. split_and!; [done..|]. exists None. split; [done|]. intros _ k. by destruct (Hr2 k) as [?|[? _]]. }
  destruct (Hlast eq_refl) as [_ Hcalls]. assert (Hfew : (dy_scanCalls d2 last <= dy_scanCalls d1 last)%nat).
  { apply dyl_scan_fewer. by rewrite Hi1. }
  intros E. apply IH in E as (Hl3 & Hd3 & Hsub3 & Hfor3 & Hr3); [|by eauto with go|done|lia|lia|intros k; by destruct (Hr2 k) as [?|[_ ?]]; auto].
  split; [by eapply later_trans|]. split; [done|]. split; [by etrans|]. split; [|done].
  intros k' Hk'. rewrite Hfor3 by done. by apply Hfor'.
Qed.

(** ** Listing *)

Definition entryOf (k : string) (v : bytes) (x : Z) : CacheEntry := mkCacheEntry (stripPrefix s k) (len v) (Some x).

Lemma listItem_row k v x w (d : D) : in_int64 x ->
  listItem s (valueItem k v x) w d = (if UnixMilli (now w) >? x then None else Some (entryOf k v x), tickWorld w, d).
Proof.
  intros Hx. unfold listItem. rewrite dyn_expired_item by done. unfold itemKey. rewrite valueItem_k, valueItem_v, valueItem_ea.
  rewrite ParseInt_FormatInt by done. unfold bind, ret. by destruct (_ >? _).
Qed.

(** [es] lists the rows [P]: all that are still live at [hi], none that was
    expired at [lo]. *)
Definition listing (P : string -> Prop) d (lo hi : Z) (es : list CacheEntry) : Prop :=
  (forall e, e ∈ es -> exists k v x, P k /\ dyn_rows d !! k = Some (v, x) /\ UnixMilli lo <= x /\ e = entryOf k v x) /\
  (forall k v x, P k -> dyn_rows d !! k = Some (v, x) -> UnixMilli hi <= x -> entryOf k v x ∈ es).

Lemma listing_widen P d lo lo' hi hi' es :
  lo' <= lo -> hi <= hi' -> listing P d lo hi es -> listing P d lo' hi' es.
Proof.
  intros ?%UnixMilli_mono ?%UnixMilli_mono [Hs Hc]. split.
  - intros e He. destruct (Hs e He) as (k & v & x & ? & ? & ? & ?). exists k, v, x. split_and!; [done|done|lia|done].
  - intros k v x Hk Hr Hx. apply Hc; [done|done|lia].
Qed.

Lemma listing_ext P Q d lo hi es :
  (forall k, is_Some (dyn_rows d !! k) -> P k <-> Q k) -> listing P d lo hi es -> listing Q d lo hi es.
Proof.
  intros HPQ [Hs Hc]. split.
  - intros e He. destruct (Hs e He) as (k & v & x & ? & E & ?). exists k, v, x. split; [apply HPQ; [by rewrite E|done]|done].
  - intros k v x Hk E. apply Hc; [apply HPQ; [by rewrite E|done]|done].
Qed.

Lemma listing_app (P Q : string -> Prop) d lo hi es es' :
  listing P d lo hi es -> listing Q d lo hi es' -> listing (fun k => P k \/ Q k) d lo hi (es ++ es').
Proof.
  intros [Hs Hc] [Hs' Hc']. split.
  - intros e [He|He]%elem_of_app.
    + destruct (Hs e He) as (k & v & x & ? & ?). exists k, v, x. auto.
    + destruct (Hs' e He) as (k & v & x & ? & ?). exists k, v, x. auto.
  - intros k v x [Hk|Hk] Hr Hx; apply elem_of_app; [left; by apply Hc|right; by apply Hc'].
Qed.

Definition fullAttrs : list string := ["k"; "v"; "ea"].

Lemma listItems_listing ks d0 w d es w' d' :
  world_ok w -> table_ok d0 ->
  listItems s (omap (fun k => project fullAttrs <$> dyl_items d0 !! k) ks) w d = (es, w', d') ->
  later w w' /\ d' = d /\ listing (fun k => k ∈ ks) d0 (now w) (now w') es.
Proof.
  intros Hw Hd0. revert w d es Hw. induction ks as [|k ks IH]; intros w d es Hw; cbn [omap list_omap].
  { intros [= <- <- <-]. split; [by apply later_refl|]. split; [done|]. split.
    - by intros e ?%elem_of_nil.
    - by intros k v x ?%elem_of_nil. }
  pose proof (row_item d0 k Hd0) as Hk. destruct (dyn_rows d0 !! k) as [[v x]|] eqn:Er.
  - destruct Hk as [Hx Hk]. rewrite Hk. cbn [fmap option_fmap option_map listItems].
    change (project fullAttrs (valueItem k v x)) with (valueItem k v x). go_simpl. rewrite listItem_row by done.
    destruct (listItems s _ _ d) as [[es1 w1] d1] eqn:E. intros [= <- <- <-].
    pose proof (later_tick w Hw) as Hl. apply IH in E as (Hl1 & -> & Hes); [|by eauto with go].
    split; [by eapply later_trans|]. split; [done|]. pose proof (later_now _ _ Hl). pose proof (later_now _ _ Hl1).
    eapply (listing_ext (fun k' => k' = k \/ k' ∈ ks)); [intros; by rewrite elem_of_cons|].
    apply listing_app; [|eapply listing_widen; [..|exact Hes]; lia].
    apply (listing_widen _ _ (now w) _ (now w)); [lia..|].
    destruct (Z.gtb_spec (UnixMilli (now w)) x); split.
    + by intros e ?%elem_of_nil.
    + intros k' v' x' -> Hr' Hle. rewrite Er in Hr'. injection Hr' as <- <-. lia.
    + intros e ->%list_elem_of_singleton. by exists k, v, x.
    + intros k' v' x' -> Hr' Hle. rewrite Er in Hr'. injection Hr' as <- <-. by apply list_elem_of_singleton.
  - rewrite Hk. cbn [fmap option_fmap option_map]. intros E. apply IH in E as (Hl1 & -> & Hes & Hall); [|done].
    split; [done|]. split; [done|]. split.
    + intros e He. destruct (Hes e He) as (k' & v & x & ? & ?). exists k', v, x. split; [by apply elem_of_cons; right|done].
    + intros k' v x [->|Hk']%elem_of_cons Hr'; [congruence|]. by apply Hall.
Qed.

Lemma listing_rows P d d' lo hi es : dyl_items d' = dyl_items d -> listing P d' lo hi es -> listing P d lo hi es.
Proof. unfold listing, dyn_rows. by intros ->. Qed.

Lemma listScan_spec fuel ctx start es0 w d r w' d' :
  world_ok w -> table_ok d -> (0 < fuel)%nat -> (dy_scanCalls d start <= fuel)%nat ->
  listScan fuel s ctx start es0 w d = (r, w', d') ->
  later w w' /\ table_ok d' /\ dyl_items d' = dyl_items d /\
  exists es err, r = Some (es, err) /\
    (err = None -> exists es', es = es0 ++ es' /\ listing (fun k => dyl_after start k = true) d (now w) (now w') es').
Proof.
  revert start es0 w d. induction fuel as [|fuel IH]; intros start es0 w d Hw Hd Hf Hc; [lia|].
  cbn [listScan]. go_simpl. rewrite Htbl. destruct (dy_Scan _ _ _ _ w d) as [[out w1] d1] eqn:E1.
  eapply dyl_scan in E1 as (Hl1 & Hok1 & Hi1 & Hr); [|done|apply Hd|done].
  assert (Hd1 : table_ok d1) by (split; [done|]; rewrite Hi1; apply Hd).
  destruct out as [[found last]|e]; [|intros [= <- <- <-]; split_and!; [done..|]; by exists [], (Some e)].
  destruct Hr as [(ks & _ & -> & Hks) Hlast].
  destruct (listItems s _ w1 d1) as [[es1 w2] d2] eqn:E2.
  apply listItems_listing in E2 as (Hl2 & -> & Hes); [|by eauto with go|done].
  assert (Hl : later w w2) by by eapply later_trans. pose proof (later_now _ _ Hl1). pose proof (later_now _ _ Hl2).
  assert (Hrow : forall k, is_Some (dyn_rows d !! k) -> is_Some (dyl_items d !! k)).
  { intros k [x Hx]. unfold dyn_rows in Hx. rewrite lookup_omap in Hx. destruct (dyl_items d !! k); [eauto|done]. }
  apply (listing_widen _ _ _ (now w) _ (now w2)) in Hes; [|lia..].
  destruct (scanEnded last).
  - intros [= <- <- <-]. split_and!; [done..|]. exists (es0 ++ es1), None. split; [done|]. intros _. exists es1.
    split; [done|]. eapply listing_ext; [|exact Hes]. intros k Hk%Hrow. rewrite Hks. clear -Hk. intuition congruence.
  - destruct (Hlast eq_refl) as [Hmore Hcalls]. intros E.
    apply IH in E as (Hl3 & Hd3 & Hi3 & es & err & -> & Hr); [|by eauto with go|done|lia|lia].
    split; [by eapply later_trans|]. split; [done|]. split; [congruence|]. exists es, err. split; [done|].
    intros Herr. destruct (Hr Herr) as (es' & -> & Hes'). exists (es1 ++ es'). split; [by rewrite app_assoc|].
    pose proof (later_now _ _ Hl). pose proof (later_now _ _ Hl3).
    apply (listing_rows _ d) in Hes'; [|done].
    eapply listing_ext; [|apply listing_app; (eapply listing_widen; [| |done]; lia)].
    intros k Hk%Hrow. cbv beta. rewrite Hks. specialize (Hmore k). clear -Hk Hmore.
    destruct (dyl_after last k); intuition congruence.
Qed.
End Operations.
End Items.

(** ** The contracts *)

Section Contract.
Context {D : Type} {tbl : string} `{DynamoLaws D tbl} `{!DynamoUnthrottled D}.
#[local] Existing Instance tableKeys.
#[local] Abbreviation row_peek := (Rows.row_peek dyn_rows).
#[local] Abbreviation row_occupied := (Rows.row_occupied dyn_rows).
Implicit Types (s : dynamoStore D) (d : D).

#[export] Instance dynamoStore_keys : KeySpace (dynamoStore D) :=
  mkKeySpace _ (fun k' k => k' <> k) (fun _ ttl => ttl mod Millisecond = 0).

Definition withClient d s : dynamoStore D := mkDynamoStore (Some d) (dn_table s) (dn_prefix s) (dn_defaultTTL s).

Definition dyn_ok s : Prop :=
  ttl_ok (dn_defaultTTL s) /\ dn_table s = tbl /\ exists d, dn_client s = Some d /\ table_ok d.

Definition dyn_peek s (t : Z) (k : string) : option bytes :=
  match dn_client s with Some d => row_peek d t (dyn_cacheKey s k) | None => None end.
Definition dyn_occupied s t k : Prop := is_Some (dyn_peek s t k).

(** An operation of a store with a client is one of its table. *)
Lemma onDynamo_inv {A} (nil : A) body w s a w' s' :
  dyn_ok s -> onDynamo nil body w s = (a, w', s') ->
  exists d d', dn_client s = Some d /\ table_ok d /\ body s w d = (a, w', d') /\ s' = withClient d' s /\ s = withClient d s.
Proof.
  intros (_ & _ & d & Ed & Hd) E. unfold onDynamo in E. rewrite Ed in E.
  destruct (body s w d) as [[a1 w1] d1] eqn:Eb. injection E as <- <- <-. exists d, d1. split_and!; [done..|].
  destruct s. simpl in *. by subst.
Qed.

Lemma withClient_ok d s : dyn_ok s -> table_ok d -> dyn_ok (withClient d s).
Proof. intros (? & ? & _) Hd. split; [done|]. split; [done|]. by exists d. Qed.

#[export] Instance dyn_cacheKey_inj s : Inj (=) (=) (dyn_cacheKey s).
Proof. intros k k' E. rewrite <- (stripPrefix_key s k), <- (stripPrefix_key s k'). by rewrite E. Qed.

Section View.
Variable s : dynamoStore D.
Lemma dview_peek d t k : dyn_peek (withClient d s) t k = row_peek d t (dyn_cacheKey s k).
Proof. done. Qed.
Lemma dview_occupied d t k : dyn_occupied (withClient d s) t k <-> row_occupied d t (dyn_cacheKey s k).
Proof. done. Qed.
Lemma dview_apart k' k : apart (S := dynamoStore D) k' k -> apart (S := D) (dyn_cacheKey s k') (dyn_cacheKey s k).
Proof. intros Hne E. by apply Hne, (inj (dyn_cacheKey s)). Qed.
Lemma dview_storable k ttl : storable (S := dynamoStore D) k ttl -> storable (S := D) (dyn_cacheKey s k) ttl.
Proof. done. Qed.
End View.
#[local] Hint Resolve dview_peek dview_occupied dview_apart dview_storable Z.le_refl : core.

(** From a law of the table [op] to the store, with the transport of its
    postcondition. *)
Tactic Notation "on_table" uconstr(op) uconstr(transport) :=
  let E := fresh "E" in let Hr := fresh "Hr" in let d := fresh "d" in let d' := fresh "d'" in
  match goal with |- onDynamo _ _ _ ?s = _ -> _ =>
    intros E; apply onDynamo_inv in E as (d & d' & _ & Hd & E & -> & Es); [|done];
    apply op in E as (Hl & Hd' & Hr); [|try done; by match goal with Hs : dyn_ok s |- _ => apply Hs end..];
    split; [done|]; split; [by apply withClient_ok|]; rewrite Es at 1;
    eapply (transport (dyn_cacheKey s) (fun d => withClient d s) row_peek); eauto
  end.

Lemma dyn_get ctx k w s r w' s' :
  world_ok w -> dyn_ok s -> dyn_Get ctx k w s = (r, w', s') ->
  later w w' /\ dyn_ok s' /\ get_post dyn_peek k w s r w' s'.
Proof. intros Hw Hs. unfold dyn_Get. on_table item_get get_post_map. Qed.

Lemma dyn_set ctx k v ttl w s err w' s' :
  world_ok w -> dyn_ok s -> ttl_ok ttl -> dyn_Set ctx k v ttl w s = (err, w', s') ->
  later w w' /\ dyn_ok s' /\ set_post dyn_peek Millisecond k v ttl w s err w' s'.
Proof.
  intros Hw Hs Ht. pose proof (later_refl w Hw). pose proof (proj1 (proj2 Hs)) as Htbl. unfold dyn_Set.
  on_table (item_set s Htbl ctx k v ttl w w) set_post_map.
Qed.

Lemma dyn_add ctx k v ttl w s r w' s' :
  world_ok w -> dyn_ok s -> ttl_ok ttl -> dyn_Add ctx k v ttl w s = (r, w', s') ->
  later w w' /\ dyn_ok s' /\ add_post dyn_peek dyn_occupied Millisecond k v ttl w s r w' s'.
Proof.
  intros Hw Hs Ht E. apply onDynamo_inv in E as (d & d' & _ & Hd & E & -> & Es); [|done].
  apply item_add in E as (Hl & Hd' & Hr); [|by try apply Hs..].
  split; [done|]. split; [by apply withClient_ok|]. rewrite Es at 1.
  eapply (add_post_map (dyn_cacheKey s) (fun d => withClient d s) row_peek _ row_occupied); eauto.
Qed.

Lemma dyn_release ctx k owner w s r w' s' :
  world_ok w -> dyn_ok s -> dyn_LockRelease ctx k owner w s = (r, w', s') ->
  later w w' /\ dyn_ok s' /\ release_post dyn_peek k owner w s r w' s'.
Proof. intros Hw Hs. unfold dyn_LockRelease. on_table item_release release_post_map. Qed.

Lemma dyn_increment ctx k delta ttl w s r w' s' :
  world_ok w -> dyn_ok s -> ttl_ok ttl -> dyn_Increment ctx k delta ttl w s = (r, w', s') ->
  later w w' /\ dyn_ok s' /\ increment_post dyn_peek Millisecond k delta ttl w s r w' s'.
Proof. intros Hw Hs Ht. unfold dyn_Increment. on_table item_increment increment_post_map. Qed.

Lemma dyn_delete ctx k w s err w' s' :
  world_ok w -> dyn_ok s -> dyn_Delete ctx k w s = (err, w', s') ->
  later w w' /\ dyn_ok s' /\ delete_post dyn_peek k w s err w' s'.
Proof.
  intros Hw Hs E. apply onDynamo_inv in E as (d & d' & _ & Hd & E & -> & Es); [|done].
  rewrite (proj1 (proj2 Hs)) in E. apply item_delete in E as (Hl & Hd' & Hr); [|done..].
  split; [done|]. split; [by apply withClient_ok|]. rewrite Es at 1.
  eapply (delete_post_map (dyn_cacheKey s) (fun d => withClient d s) row_peek); eauto.
Qed.

Lemma dyn_deleteMany ctx ks w s err w' s' :
  world_ok w -> dyn_ok s -> dyn_DeleteMany ctx ks w s = (err, w', s') ->
  later w w' /\ dyn_ok s' /\ deleteMany_post dyn_peek ks w s err w' s'.
Proof. intros Hw Hs. unfold dyn_DeleteMany. on_table item_deleteMany deleteMany_post_map. Qed.

(** [Flush] ends, removes the keys of its store and leaves those of others. *)
Lemma flush_items ctx w s err w' s' d :
  world_ok w -> dyn_ok s -> dn_client s = Some d -> dyn_Flush ctx w s = (err, w', s') ->
  exists d', s' = withClient d' s /\ later w w' /\ table_ok d' /\ foreign s d d' /\
    flushScan (dy_scanCalls d None) s ctx None w d = (Some err, w', d') /\
    (err = None -> forall k, dyl_items d' !! dyn_cacheKey s k = None).
Proof.
  intros Hw Hs Ed E. apply onDynamo_inv in E as (d0 & d' & Ed0 & Hd & E & -> & _); [|done].
  assert (d0 = d) as -> by congruence. exists d'. split; [done|]. go_simpl_in E.
  destruct (flushScan _ s ctx None w d) as [[x w1] d1] eqn:E1. pose proof E1 as E1'.
  apply flushScan_spec in E1 as (Hl & Hd1 & _ & Hfor & e & -> & He);
    [|apply Hs|apply _|done|done|apply dyl_scan_calls|done|intros k; right; apply dyl_after_start].
  injection E as <- <- <-. by split_and!.
Qed.

Lemma dyn_flush ctx w s err w' s' :
  world_ok w -> dyn_ok s -> dyn_Flush ctx w s = (err, w', s') ->
  later w w' /\ dyn_ok s' /\ flush_post dyn_peek err w' s'.
Proof.
  intros Hw Hs E. pose proof Hs as (_ & _ & d & Ed & _). eapply flush_items in E as (d' & -> & Hl & Hd' & _ & _ & Hr); [|done..].
  split; [done|]. split; [by apply withClient_ok|]. destruct err; [done|]. intros k.
  apply row_removed, gone_rows, Hr. done.
Qed.

Lemma dyn_decrement ctx k delta ttl w s r w' s' :
  world_ok w -> dyn_ok s -> ttl_ok ttl -> dyn_Decrement ctx k delta ttl w s = (r, w', s') ->
  later w w' /\ dyn_ok s' /\ increment_post dyn_peek Millisecond k (wrap64 (- delta)) ttl w s r w' s'.
Proof. apply dyn_increment. Qed.

Lemma dyn_peek_occupied s t k b : dyn_peek s t k = Some b -> dyn_occupied s t k.
Proof. unfold dyn_occupied. intros ->. eauto. Qed.

#[export] Instance dynamoStore_contract : StoreContract (dynamoStore D) := {|
  sc_ok := dyn_ok;
  sc_peek := dyn_peek;
  sc_occupied := dyn_occupied;
  sc_grain := Millisecond;
  sc_grain_nonneg := ltac:(done);
  sc_peek_occupied := dyn_peek_occupied;
  sc_get := dyn_get;
  sc_set := dyn_set;
  sc_add := dyn_add;
  sc_delete := dyn_delete;
  sc_deleteMany := dyn_deleteMany;
  sc_flush := dyn_flush
|}.

#[export] Instance dynamoStore_locks : LockContract (dynamoStore D) := {|
  lc_ops := dyn_lock_ops;
  lc_ok := dyn_ok;
  lc_lockStore := fun _ _ => eq_refl;
  lc_peek := dyn_peek;
  lc_occupied := dyn_occupied;
  lc_peek_occupied := dyn_peek_occupied;
  lc_grain := Millisecond;
  lc_acquire := dyn_add;
  lc_release := dyn_release
|}.

#[export] Instance dynamoStore_counters : CounterContract (dynamoStore D) := {|
  cc_ok := dyn_ok;
  cc_peek := dyn_peek;
  cc_grain := Millisecond;
  cc_increment := dyn_increment;
  cc_decrement := dyn_decrement
|}.

(** ** Scope and completeness *)


(** [ListPage] lists the table.  The page is a slice of the sorted and filtered
    entries of all the items that are live when it returns, and of none that had
    expired before it was called; the keys of the store appear without their prefix
    and those of other namespaces, which [Flush] leaves alone, as they are. *)
Theorem dyn_ListPage_lists ctx opts w s page w' s' d :
  world_ok w -> dyn_ok s -> dn_client s = Some d -> dyn_ListPage ctx opts w s = ((page, None), w', s') ->
  exists es offset,
    listing s (fun _ => True) d (now w) (now w') es /\ DecodeOffsetCursor (opt_Cursor opts) = (offset, None) /\
    page = SliceEntries (FilterAndSortEntries es (ListFilterTerm opts)) offset (opt_Limit opts).
Proof.
  intros Hw Hs Ed E. apply onDynamo_inv in E as (d0 & d' & Ed0 & Hd & E & -> & _); [|done].
  assert (d0 = d) as -> by congruence. go_simpl_in E.
  destruct (listScan _ s ctx None [] w d) as [[r w1] d1] eqn:E1.
  apply listScan_spec in E1 as (_ & _ & _ & es & err & -> & Hr); [|apply Hs|done|done|apply dyl_scan_calls|done].
  simpl in E. destruct err; [done|]. destruct (Hr eq_refl) as (es' & -> & Hes).
  destruct (DecodeOffsetCursor (opt_Cursor opts)) as [offset [e|]] eqn:Ec; [done|]. injection E as <- <- <-.
  exists es', offset. split_and!; [|done..]. eapply listing_ext; [|exact Hes]. intros k _. split; [done|].
  intros _. apply dyl_after_start.
Qed.

(** A key that is given twice makes [DeleteMany] fail: the service rejects a batch
    with two requests for one item, which is what the store sends when both are
    among the same 25 keys. *)
Theorem dyn_DeleteMany_duplicates ctx ks w s err w' s' :
  world_ok w -> dyn_ok s -> ~ NoDup (take maxBatch ks) -> dyn_DeleteMany ctx ks w s = (err, w', s') -> err <> None.
Proof.
  intros Hw Hs Hdup E ->. apply onDynamo_inv in E as (d & d' & _ & Hd & E & -> & _); [|done].
  assert (ks <> []) as Hne by (intros ->; by apply Hdup, NoDup_nil_2).
  unfold itemsDelete in E. destruct (Z.eqb_spec (len ks) 0); [by destruct ks|].
  destruct (length ks) as [|m] eqn:Em; [by destruct ks|]. rewrite deleteBatches_step in E by done. go_simpl_in E.
  destruct (dy_BatchWriteItem _ _ _ w d) as [[[un|e] w1] d1] eqn:E1; [|done].
  rewrite (proj1 (proj2 Hs)) in E1. apply one_batch in E1 as (_ & _ & _ & Hnd & _); [|done|done|by apply batch_length].
  exact (Hdup (NoDup_fmap_1 _ _ Hnd)).
Qed.
End Contract.
