(* ===== verification/DynamoTable.v ===== *)
(** * DynamoDB tables: scope, startup and runs

    How a store starts, and that one that has started returns what it stored; then a
    table in memory, which keeps the laws, and the runs of the store on it. *)

From stdpp Require Import sorting.
From S2P Require Import Prelude GoStd CacheCore InspectHelpers Shaping Wrapping MemoryStore Rows DynamoStore DynamoContract.

(** ** Startup *)

Section Startup.
Context {D : Type} {tbl : string} `{DynamoLaws D tbl}.
Implicit Types (d : D) (w : World).

(** The errors that are expected of a service that is starting, by their texts. *)
Definition startupTexts : list string :=
  ["request send failed"; "connection reset by peer"; "connection refused"; "timeout"; "eof"].
Definition transient (e : error) : Prop :=
  exists text pre post, text ∈ startupTexts /\ ToLower (Error e) = pre +:+ text +:+ post.

Lemma Contains_split msg text : Contains msg text = true <-> exists pre post, msg = pre +:+ text +:+ post.
Proof.
  unfold Contains. rewrite bContains_spec. split.
  - intros (l & r & E). exists (string_of_bytes l), (string_of_bytes r). apply (inj bytes_of_string).
    by rewrite E, !bytes_of_string_app, !bytes_of_string_of_bytes.
  - intros (pre & post & ->). exists (bytes_of_string pre), (bytes_of_string post). by rewrite !bytes_of_string_app.
Qed.

Lemma retryable_transient e : isDynamoStartupRetryable e = true <-> transient e.
Proof.
  unfold isDynamoStartupRetryable, transient, startupTexts. rewrite !orb_true_iff, !Contains_split. split.
  - intros [[[[(p & q & E)|(p & q & E)]|(p & q & E)]|(p & q & E)]|(p & q & E)];
      eexists _, p, q; (split; [|exact E]); set_solver.
  - intros (text & p & q & Hin & E). rewrite !elem_of_cons in Hin.
    destruct Hin as [->|[->|[->|[->|[->|Hin]]]]]; [eauto 10..|by apply elem_of_nil in Hin].
Qed.

(** What the service makes of the table in one round of requests: it is there (it was, or
    this client or another has just created it), or a request failed with an error that is
    transient or not. *)
Inductive verdict := Available | Refused (e : error) | Transient (e : error).

Definition judged (e : error) (v : verdict) : Prop :=
  (transient e /\ v = Transient e) \/ (~ transient e /\ v = Refused e).

Inductive answers (ctx : Context) (w : World) (d : D) : verdict -> World -> D -> Prop :=
| described w' d' : dy_DescribeTable ctx tbl w d = (None, w', d') -> answers ctx w d Available w' d'
| undescribed e v w' d' :
    dy_DescribeTable ctx tbl w d = (Some e, w', d') -> isResourceNotFound e = false -> judged e v ->
    answers ctx w d v w' d'
| made e w1 d1 w' d' :
    dy_DescribeTable ctx tbl w d = (Some e, w1, d1) -> isResourceNotFound e = true ->
    dy_CreateTable ctx (mkCreateTableInput tbl [("k", "HASH")] [("k", "S")] "PAY_PER_REQUEST") w1 d1 = (None, w', d') ->
    answers ctx w d Available w' d'
| unmade e ce v w1 d1 w' d' :
    dy_DescribeTable ctx tbl w d = (Some e, w1, d1) -> isResourceNotFound e = true ->
    dy_CreateTable ctx (mkCreateTableInput tbl [("k", "HASH")] [("k", "S")] "PAY_PER_REQUEST") w1 d1 = (Some ce, w', d') ->
    (if isResourceInUse ce then v = Available else judged ce v) ->
    answers ctx w d v w' d'.

(** [n] rounds in a row that failed with a transient error, each followed by 150
    milliseconds during which the context is not done. *)
Inductive rounds (ctx : Context) : nat -> World -> D -> World -> D -> Prop :=
| rounds_none w d : rounds ctx 0 w d w d
| rounds_more n w d e w1 d1 w' d' :
    answers ctx w d (Transient e) w1 d1 ->
    (forall at_ err, ctx_done ctx = Some (at_, err) -> now w1 + 150 * Millisecond < at_) ->
    rounds ctx n (sleepWorld (now w1 + 150 * Millisecond) (tickWorld w1)) d1 w' d' ->
    rounds ctx (Datatypes.S n) w d w' d'.

Lemma ensureAttempt_answers ctx w d v w' d' :
  answers ctx w d v w' d' ->
  ensureAttempt ctx tbl w d =
    (match v with Available => inl None | Refused e => inl (Some e) | Transient e => inr e end, w', d').
Proof.
  assert (Hj : forall e v, judged e v ->
    (if negb (isDynamoStartupRetryable e) then inl (Some e) else inr e) =
    match v with Available => inl None | Refused e => inl (Some e) | Transient e => inr e end).
  { intros e v0 [[Ht ->]|[Ht ->]]; rewrite <- retryable_transient in Ht; [by rewrite Ht|].
    by apply not_true_is_false in Ht as ->. }
  unfold ensureAttempt. go_simpl. intros [w1 d1 E|e v1 w1 d1 E En Hv|e w1 d1 w2 d2 E En E2|e ce v1 w1 d1 w2 d2 E En E2 Hv].
  - by rewrite E.
  - rewrite E, En, <- (Hj e v1 Hv). by destruct (negb _).
  - rewrite E, En. change (createTableInput tbl) with (mkCreateTableInput tbl [("k", "HASH")] [("k", "S")] "PAY_PER_REQUEST").
    by rewrite E2.
  - rewrite E, En. change (createTableInput tbl) with (mkCreateTableInput tbl [("k", "HASH")] [("k", "S")] "PAY_PER_REQUEST").
    rewrite E2. destruct (isResourceInUse ce); [by subst|]. rewrite <- (Hj ce v1 Hv). by destruct (negb _).
Qed.

Lemma waitRetry_patient ctx w d :
  (forall at_ err, ctx_done ctx = Some (at_, err) -> now w + 150 * Millisecond < at_) ->
  waitRetry ctx dynamoEnsureTableRetryDelay w d =
    (None, sleepWorld (now w + 150 * Millisecond) (tickWorld w), d).
Proof.
  intros Hp. unfold waitRetry. go_simpl. destruct (ctx_done ctx) as [[at_ err]|]; [|done]. specialize (Hp at_ err eq_refl).
  unfold dynamoEnsureTableRetryDelay. unfold Millisecond in *.
  destruct (Z.leb_spec at_ (now w)); [lia|]. destruct (Z.ltb_spec at_ (now w + 150 * 1000000)); [lia|].
  by destruct (Z.ltb_spec (now w + 150 * 1000000) at_); [|lia].
Qed.

Lemma ensureLoop_rounds ctx n m last w d w' d' : (0 < m)%nat -> rounds ctx n w d w' d' ->
  exists last', ensureLoop (n + m) ctx tbl last w d = ensureLoop m ctx tbl last' w' d'.
Proof.
  intros Hm Hr. revert last. induction Hr as [w d|n w d e w1 d1 w' d' E1 E2 _ IH]; intros last; [by exists last|].
  destruct (IH e) as [last' IH']. exists last'. rewrite <- IH'.
  cbn [Nat.add ensureLoop]. go_simpl. rewrite (ensureAttempt_answers _ _ _ _ _ _ E1).
  destruct (n + m)%nat eqn:En; [lia|]. rewrite <- En. by rewrite waitRetry_patient.
Qed.

(** C35: a table that becomes available while the store starts is found.  Let up to 19
    rounds of requests fail, each with an error whose text, in lower case, contains one of the five
    that a starting service produces (in describing the table, or in creating it when it does
    not exist), with 150 milliseconds after each during which the context is not
    done.  When the next round shows the table there, or creates it, or finds that it is being
    created, [ensureDynamoTable] succeeds; when that round fails with any other error, that is the
    error returned; and when it is the 20th and fails like the others, its error is
    returned, wrapped. *)
Theorem ensureDynamoTable_recovers ctx n w d w1 d1 v w' d' :
  (n <= 19)%nat -> rounds ctx n w d w1 d1 -> answers ctx w1 d1 v w' d' ->
  (forall e, v = Transient e -> n = 19%nat) ->
  ensureDynamoTable ctx tbl w d =
    (match v with
     | Available => None
     | Refused e => Some e
     | Transient e => Some (ErrorWrap ("ensure dynamo table " +:+ quoted tbl +:+ ": ") e)
     end, w', d').
Proof.
  intros Hn Hr Ha Hv. unfold ensureDynamoTable. set (last := ErrorString _).
  assert (exists m, dynamoEnsureTableMaxAttempts = n + Datatypes.S m /\ (n = 19 -> m = 0))%nat as (m & -> & Hm).
  { exists (19 - n)%nat. unfold dynamoEnsureTableMaxAttempts. lia. }
  destruct (ensureLoop_rounds ctx n (Datatypes.S m) last w d w1 d1 ltac:(lia) Hr) as [last' ->].
  cbn [ensureLoop]. go_simpl. rewrite (ensureAttempt_answers _ _ _ _ _ _ Ha).
  destruct v as [|e|e]; [done..|]. by rewrite (Hm (Hv e eq_refl)).
Qed.

Lemma ensureAttempt_spec ctx w d r w' d' :
  world_ok w -> dyl_ok d -> ensureAttempt ctx tbl w d = (r, w', d') ->
  later w w' /\ dyl_ok d' /\ dyl_items d' = dyl_items d /\ (r = inl None -> dyl_exists d').
Proof.
  intros Hw Hd. unfold ensureAttempt. go_simpl. destruct (dy_DescribeTable ctx tbl w d) as [[err w1] d1] eqn:E1.
  apply dyl_describe in E1 as (Hl1 & Hd1 & Hi1 & He1); [|done..].
  destruct err as [e|]; [|intros [= <- <- <-]; auto]. destruct (isResourceNotFound e).
  - destruct (dy_CreateTable ctx _ w1 d1) as [[err w2] d2] eqn:E2.
    apply dyl_create in E2 as (Hl2 & Hd2 & Hi2 & He2); [|by eauto with go|done].
    assert (later w w2) by by eapply later_trans. assert (dyl_items d2 = dyl_items d) by congruence.
    destruct err as [e2|]; [|intros [= <- <- <-]; auto].
    destruct (isResourceInUse e2); [intros [= <- <- <-]; auto|].
    destruct (negb _); intros [= <- <- <-]; by split_and!.
  - destruct (negb _); intros [= <- <- <-]; by split_and!.
Qed.

(** The deadline of the context given to [New]. *)
Definition bounded (ctx : Context) : Prop := exists at_ e, ctx_done ctx = Some (at_, e) /\ at_ < horizon.

Lemma ensureLoop_spec n ctx last w d err w' d' :
  bounded ctx -> world_ok w -> dyl_ok d -> ensureLoop n ctx tbl last w d = (err, w', d') ->
  later w w' /\ dyl_ok d' /\ dyl_items d' = dyl_items d /\ (err = None -> dyl_exists d').
Proof.
  intros (at_ & e0 & Hc & Hat). revert last w d. induction n as [|n IH]; intros last w d Hw Hd; cbn [ensureLoop].
  { intros [= <- <- <-]. split_and!; [by apply later_refl|done..]. }
  go_simpl. destruct (ensureAttempt ctx tbl w d) as [[r w1] d1] eqn:E1.
  apply ensureAttempt_spec in E1 as (Hl1 & Hd1 & Hi1 & He1); [|done..].
  destruct r as [res|e]; [intros [= <- <- <-]; split_and!; [done..|]; intros ->; auto|].
  destruct n as [|n]; [intros [= <- <- <-]; by split_and!|].
  destruct (waitRetry ctx _ w1 d1) as [[dn w2] d2] eqn:E2.
  eapply waitRetry_post in E2 as (-> & Hl2 & _); [|by eauto with go|done|done|done].
  assert (later w w2) by by eapply later_trans.
  destruct dn as [e2|]; [intros [= <- <- <-]; by split_and!|].
  intros E. apply IH in E as (? & ? & ? & ?); [|by eauto with go|done].
  split_and!; [by eapply later_trans|done|congruence|done].
Qed.

(** When [ensureDynamoTable] returns no error the table exists, and whatever it
    returns it has not touched the items of a table that was there. *)
Theorem ensureDynamoTable_sound ctx w d err w' d' :
  bounded ctx -> world_ok w -> dyl_ok d -> ensureDynamoTable ctx tbl w d = (err, w', d') ->
  dyl_items d' = dyl_items d /\ (err = None -> dyl_exists d').
Proof. intros Hc Hw Hd E. apply ensureLoop_spec in E as (_ & _ & ? & ?); [|done..]. auto. Qed.
End Startup.

(** ** Runs of a store *)

Section Store.
Context {D : Type} {tbl : string} `{DynamoLaws D tbl} `{GzipLaws} `{CryptoLaws}.
Context {AwsConfig : Type} (LoadDefaultConfig : Context -> string -> AwsConfig + error).
Variables (withEndpoint : string -> AwsConfig -> AwsConfig) (NewFromConfig : AwsConfig -> D).

(** C33: through a store that [New] has built over a table, given a context with a deadline,
    and with every accepted configuration of compression, size limit and encryption, a [Get] that
    ends within a TTL of whole milliseconds after a successful [Set] reads the value written or
    reports an error; the table may be throttled.  The value is any, except
    that with a size limit and neither compression nor encryption it must not itself start with
    the compression marker. *)
Theorem dyn_New_set_get ctx0 cfg x w0 w u ctx ctx' k v ttl w1 x1 w2 r w3 x3 :
  bounded ctx0 ->
  tbl = (if decide (dcfg_Table cfg = EmptyString) then dynDefaultTable else dcfg_Table cfg) ->
  (forall d, dcfg_Client cfg = Some d -> table_ok d) -> (forall c, table_ok (NewFromConfig c)) ->
  DefaultTTL (dcfg_base cfg) < horizon -> readable (dcfg_base cfg) v -> world_ok w0 ->
  dyn_New LoadDefaultConfig withEndpoint NewFromConfig ctx0 cfg w0 tt = ((Some x, None), w, u) ->
  ttl_ok ttl -> ttl mod Millisecond = 0 ->
  Store_Set ctx k v ttl w x = (None, w1, x1) -> later w1 w2 ->
  Store_Get ctx' k w2 x1 = (r, w3, x3) -> now w3 <= now w + ttl -> hit_or_error v r.
Proof.
  intros Hc Htbl Hcl Hnew Hd Htr Hw0 E Ht Hms E1 Hl E2 Hn. unfold dyn_New in E. rewrite <- Htbl in E.
  destruct (ValidateBaseConfig _); [done|]. set (base := mkBaseConfig _ _ _ _ _) in E. cbv zeta in E.
  set (client := match dcfg_Client _ with Some _ => _ | None => _ end) in E.
  assert (Hclient : forall d, client = inl d -> table_ok d).
  { subst client. cbn [dcfg_Client]. intros d. destruct (dcfg_Client cfg) eqn:Ecl; [intros [= <-]; by apply Hcl|].
    unfold newDynamoClient. destruct (LoadDefaultConfig _ _); [|done]. intros [= <-]. apply Hnew. }
  destruct client as [d|] eqn:Ecl; [|done]. specialize (Hclient d eq_refl).
  destruct (ensureDynamoTable ctx0 tbl w0 d) as [[err w4] d4] eqn:E4.
  apply ensureLoop_spec in E4 as (Hl4 & Hd4 & Hi4 & _); [|done|done|apply Hclient].
  destruct err; [done|]. destruct (WrapStore _ _) as [x' err] eqn:Ew. injection E as -> -> -> _.
  set (s := mkDynamoStore _ _ _ _) in Ew.
  assert (Hok : dyn_ok (tbl := tbl) s).
  { split; [|split; [done|]].
    - subst s base. cbn [dn_defaultTTL DefaultTTL]. destruct (Z.leb_spec (DefaultTTL (dcfg_base cfg)) 0); by split.
    - exists d4. split; [done|]. split; [done|]. rewrite Hi4. apply Hclient. }
  assert (Hrt : roundtrips (S := dynamoStore D) (dyn_ok (tbl := tbl)) (fun _ => True) k ttl).
  { apply (view_roundtrips _ (dyn_peek (tbl := tbl)) Millisecond).
    - intros ? ? ? ? ? ? Hw Hs Eg. by apply dyn_get in Eg as (_ & _ & ?).
    - intros ? ? ? ? ? ? Hw Hs Es. apply dyn_set in Es as (_ & ? & _ & Hst); [|done..]. split; [done|]. by apply Hst. }
  exact (WrapStore_roundtrip _ s _ x k ttl Hrt Hok Ew
    ctx ctx' v w x w1 x1 w2 r w3 x3 Htr eq_refl (later_world_ok _ _ Hl4) E1 Hl E2 Hn).
Qed.

End Store.

(** ** A table in memory

    It processes the first [capacity] requests of a batch and returns the others,
    scans one item at a time in the order of the keys, and answers the first
    [starting] descriptions with a transient error. *)

Module MemTable.
Record table := mkTable { items : gmap string item; created : bool; capacity : nat; starting : nat }.

Definition name : string := "cache_entries".
Definition withItems (m : gmap string item) (d : table) : table := mkTable m (created d) (capacity d) (starting d).
Definition invalid : error := ErrorString "ValidationException".

Definition keyOf (it : item) : option string := match it !! "k" with Some (AttrS k) => Some k | _ => None end.

Definition write (after : string -> gmap string item) (it : item) (cond : option (string * item)) : M table (option error) :=
  fun w d =>
    match keyOf it with
    | None => (Some invalid, w, d)
    | Some k =>
        match holds cond (items d !! k) with
        | None => (Some invalid, w, d)
        | Some false => (Some (ConditionalCheckFailed "The conditional request failed"), w, d)
        | Some true => (None, w, withItems (after k) d)
        end
    end.

Definition BatchWriteItem (writes : list item) : M table (list item + error) :=
  fun w d =>
    if decide (NoDup writes) then
      let now := omap keyOf (take (capacity d) writes) in
      (inl (drop (capacity d) writes), w, withItems (filter (fun kx => kx.1 ∉ now) (items d)) d)
    else (inr invalid, w, d).

(** The order of a scan. *)
Definition sle (a b : string) : Prop := bytesLeb (bytes_of_string a) (bytes_of_string b) = true.
#[export] Instance sle_dec a b : Decision (sle a b).
Proof. unfold sle. apply _. Defined.
#[export] Instance sle_trans : Transitive sle.
Proof. intros a b c. apply bytesLeb_trans. Qed.
#[export] Instance sle_total : Total sle.
Proof. intros a b. apply bytesLeb_total. Qed.
#[export] Instance sle_antisymm : AntiSymm (=) sle.
Proof. intros a b Hab Hba. by apply (inj bytes_of_string), bytesLeb_antisym. Qed.

Definition after (start : option item) (k : string) : bool :=
  match start with
  | None => true
  | Some it => match keyOf it with Some m => negb (bool_decide (sle k m)) | None => true end
  end.

Definition ahead (start : option item) (m : gmap string item) : list string :=
  merge_sort sle (filter (fun k => after start k = true) (map_to_list m).*1).

Definition Scan (proj : string) (start : option item) : M table (list item * option item + error) :=
  fun w d =>
    match projection proj with
    | None => (inr invalid, w, d)
    | Some attrs =>
        match ahead start (items d) with
        | [] => (inl ([], None), w, d)
        | k :: rest =>
            (inl (option_list (project attrs <$> items d !! k), if decide (rest = []) then None else Some (keyItem k)), w, d)
        end
    end.

#[export] Instance dynamo : DynamoAPI table := {|
  dy_GetItem := fun _ _ key w d => (inl (keyOf key ≫= fun k => items d !! k), w, d);
  dy_PutItem := fun _ _ it cond w d => write (fun k => <[k := it]> (items d)) it cond w d;
  dy_DeleteItem := fun _ _ key cond w d => write (fun k => base.delete k (items d)) key cond w d;
  dy_BatchWriteItem := fun _ _ writes => BatchWriteItem writes;
  dy_Scan := fun _ _ proj start => Scan proj start;
  dy_CreateTable := fun _ _ w d =>
    if created d then (Some (ResourceInUse name), w, d)
    else (None, w, mkTable (items d) true (capacity d) (starting d));
  dy_DescribeTable := fun _ _ w d =>
    match starting d with
    | Datatypes.S n => (Some (ErrorString "dial tcp: connection refused"), w, mkTable (items d) (created d) (capacity d) n)
    | O => if created d then (None, w, d) else (Some (ResourceNotFound name), w, d)
    end;
  dy_scanCalls := fun d p => Datatypes.S (length (ahead p (items d)))
|}.

Lemma keyOf_keyItem k : keyOf (keyItem k) = Some k.
Proof. done. Qed.

Lemma elem_of_ahead p m k : k ∈ ahead p m <-> is_Some (m !! k) /\ after p k = true.
Proof.
  unfold ahead. rewrite merge_sort_Permutation, list_elem_of_filter, list_elem_of_fmap. split.
  - intros (Ha & [k' it] & -> & Hin%elem_of_map_to_list). eauto.
  - intros [[it E] Ha]. split; [done|]. exists (k, it). split; [done|]. by apply elem_of_map_to_list.
Qed.

Lemma NoDup_ahead p m : NoDup (ahead p m).
Proof. unfold ahead. rewrite merge_sort_Permutation. apply list.NoDup_filter, NoDup_fst_map_to_list. Qed.

Lemma ahead_length p m l : (forall k, k ∈ ahead p m -> k ∈ l) -> (length (ahead p m) <= length l)%nat.
Proof. intros Hin. apply submseteq_length, NoDup_submseteq; [apply NoDup_ahead | done]. Qed.

(** The first key ahead comes before the others. *)
Lemma ahead_first p m k rest k' : ahead p m = k :: rest -> k' ∈ rest -> ~ sle k' k.
Proof.
  intros E Hk' Hle. pose proof (NoDup_ahead p m) as Hnd. rewrite E in Hnd. apply list.NoDup_cons in Hnd as [Hn _].
  assert (Hs : StronglySorted sle (ahead p m)) by (apply StronglySorted_merge_sort; apply _).
  rewrite E in Hs. apply StronglySorted_inv in Hs as [_ Hs]. rewrite list.Forall_forall in Hs.
  assert (k' = k) as -> by (apply (anti_symm sle); [done|by apply Hs]). done.
Qed.

Lemma wrote_write upd it k cond b w d err w' d' :
  keyOf it = Some k -> holds cond (items d !! k) = Some b -> write upd it cond w d = (err, w', d') ->
  w' = w /\ wrote (items d) (upd k) (items d') b err.
Proof. unfold write. intros -> ->. by destruct b; intros [= <- <- <-]. Qed.

Lemma write_capacity upd it cond w d err w' d' : write upd it cond w d = (err, w', d') -> capacity d' = capacity d.
Proof.
  unfold write. destruct (keyOf it) as [k|]; [destruct (holds cond (items d !! k)) as [[]|]|]; by intros [= <- <- <-].
Qed.

Lemma keyOf_keyItems (ks : list string) : omap keyOf (keyItem <$> ks) = ks.
Proof. induction ks as [|k ks IH]; [done|]. cbn [fmap list_fmap omap list_omap]. rewrite keyOf_keyItem. by f_equal. Qed.

Lemma batch_law ks w d r w' d' :
  BatchWriteItem (keyItem <$> ks) w d = (r, w', d') ->
  w' = w /\ capacity d' = capacity d /\
  (forall k, items d' !! k = items d !! k \/ k ∈ ks /\ items d' !! k = None) /\
  match r with
  | inl un =>
      un = keyItem <$> drop (capacity d) ks /\ NoDup ks /\ forall k, k ∈ ks -> keyItem k ∈ un \/ items d' !! k = None
  | inr _ => True
  end.
Proof.
  unfold BatchWriteItem. destruct (decide _) as [Hnd|Hnd]; intros [= <- <- <-]; [|by split_and!; auto].
  rewrite <- fmap_take, <- fmap_drop, keyOf_keyItems. cbn [items withItems capacity].
  set (gone := take (capacity d) ks).
  assert (Hgone : forall k, k ∈ gone -> filter (fun kx => kx.1 ∉ gone) (items d) !! k = None).
  { intros k Hk. apply map_lookup_filter_None_2. right. by intros x _ Hn. }
  split; [done|]. split; [done|]. split; [|split; [done|split; [by apply NoDup_fmap_1 in Hnd|]]].
  - intros k. destruct (decide (k ∈ gone)) as [Hk|Hk].
    + right. split; [|by apply Hgone]. by eapply subseteq_take.
    + left. destruct (items d !! k) as [it|] eqn:E; [by apply map_lookup_filter_Some_2|].
      apply map_lookup_filter_None_2. by left.
  - intros k Hk. rewrite <- (take_drop (capacity d) ks) in Hk. apply elem_of_app in Hk as [Hk|Hk]; [right; by apply Hgone|].
    left. by apply list_elem_of_fmap_2.
Qed.

Lemma after_trans start k k' : after start k = true -> after (Some (keyItem k)) k' = true -> after start k' = true.
Proof.
  unfold after. rewrite keyOf_keyItem. destruct start as [it|]; [|done]. destruct (keyOf it) as [m|]; [|done].
  rewrite !negb_true_iff, !bool_decide_eq_false. intros Hk Hk' Hle. apply Hk'.
  destruct (total sle k m); [done|]. by etrans.
Qed.

Lemma scan_law proj attrs start w d r w' d' :
  projection proj = Some attrs -> Scan proj start w d = (r, w', d') ->
  w' = w /\ d' = d /\
  match r with
  | inr _ => True
  | inl (found, last) =>
      (exists ks, NoDup ks /\ found = omap (fun k => project attrs <$> items d !! k) ks /\
        forall k, k ∈ ks <->
          is_Some (items d !! k) /\ after start k = true /\ (scanEnded last = false -> after last k = false)) /\
      (scanEnded last = false ->
        (forall k, after last k = true -> after start k = true) /\
        (0 < dy_scanCalls d last < dy_scanCalls d start)%nat)
  end.
Proof.
  unfold Scan. intros ->. destruct (ahead start (items d)) as [|k rest] eqn:E; intros [= <- <- <-].
  { split; [done|]. split; [done|]. split; [|done]. exists []. split; [by apply NoDup_nil_2|]. split; [done|].
    intros k. split; [by intros ?%elem_of_nil|]. intros (Hk & Ha & _). rewrite <- E. by apply elem_of_ahead. }
  split; [done|]. split; [done|].
  assert (Hin : forall k', is_Some (items d !! k') /\ after start k' = true <-> k' = k \/ k' ∈ rest).
  { intros k'. rewrite <- elem_of_ahead, E. apply elem_of_cons. }
  assert (Hfirst : after (Some (keyItem k)) k = false).
  { unfold after. rewrite keyOf_keyItem. rewrite bool_decide_true; [done|]. by destruct (total sle k k). }
  assert (Hrest : forall k', k' ∈ rest -> after (Some (keyItem k)) k' = true).
  { intros k' Hk'. unfold after. rewrite keyOf_keyItem, bool_decide_false; [done|]. by eapply ahead_first. }
  split.
  - exists [k]. split; [apply NoDup_singleton|]. split; [simpl; by destruct (items d !! k)|]. intros k'.
    rewrite list_elem_of_singleton. destruct (decide (rest = [])) as [->|Hne].
    + split; [intros ->; destruct (proj2 (Hin k) (or_introl eq_refl)); by split_and!|].
      intros (Hi & Ha & _). by destruct (proj1 (Hin k') (conj Hi Ha)) as [?|?%elem_of_nil].
    + split; [intros ->; destruct (proj2 (Hin k) (or_introl eq_refl)); by split_and!|].
      intros (Hi & Ha & Hl). destruct (proj1 (Hin k') (conj Hi Ha)) as [?|Hr]; [done|].
      specialize (Hl eq_refl). rewrite Hrest in Hl; done.
  - destruct (decide (rest = [])) as [->|Hne]; [done|]. intros _. split.
    + intros k'. by apply after_trans, Hin; left.
    + cbn [dy_scanCalls dynamo]. rewrite E. cbn [length].
      assert (length (ahead (Some (keyItem k)) (items d)) <= length rest)%nat; [|lia].
      apply ahead_length. intros k' [Hk' Ha]%elem_of_ahead.
      destruct (proj1 (Hin k')) as [->|?]; [|congruence|done]. split; [done|]. eapply after_trans; [|done]. by apply Hin; left.
Qed.

(** A table that processes at least [n] requests of a batch. *)
#[local] Obligation Tactic := idtac.
#[export] Program Instance laws (n : nat) : DynamoLaws table name := {|
  dyl_ok := fun d => (n <= capacity d)%nat;
  dyl_items := items;
  dyl_exists := fun d => created d = true;
  dyl_after := after
|}.
Next Obligation. intros n ctx k w d r w' d' Hw Hd [= <- <- <-]. split; [by apply later_refl|]. done. Qed.
Next Obligation.
  intros n ctx k it cond b w d err w' d' Hw Hd Hk Hb E. pose proof (write_capacity _ _ _ _ _ _ _ _ E) as Hc.
  eapply wrote_write in E as [-> Hr]; [|by unfold keyOf; rewrite Hk|done].
  split; [by apply later_refl|]. split; [by simpl; rewrite Hc | done].
Qed.
Next Obligation.
  intros n ctx k cond b w d err w' d' Hw Hd Hb E. pose proof (write_capacity _ _ _ _ _ _ _ _ E) as Hc.
  eapply wrote_write in E as [-> Hr]; [|done..]. split; [by apply later_refl|]. split; [by simpl; rewrite Hc | done].
Qed.
Next Obligation.
  intros n ctx ks w d r w' d' Hw Hd _ E. apply batch_law in E as (-> & Hc & Hi & Hr).
  split; [by apply later_refl|]. split; [by rewrite Hc|]. split; [done|]. destruct r; [apply Hr | done].
Qed.
Next Obligation. done. Qed.
Next Obligation.
  intros n ctx proj attrs start w d r w' d' Hw Hd Hp E. eapply scan_law in E as (-> & -> & Hr); [|done].
  split; [by apply later_refl|]. done.
Qed.
Next Obligation. intros n d. simpl. lia. Qed.
Next Obligation.
  intros n d d' p Hsub. simpl. apply le_n_S, ahead_length. intros k [[it E] Ha]%elem_of_ahead. apply elem_of_ahead.
  split; [|done]. exists it. by eapply lookup_weaken.
Qed.
Next Obligation.
  intros n ctx w d err w' d' Hw Hd. simpl.
  destruct (starting d); [destruct (created d) eqn:Ec|]; intros [= <- <- <-]; (split; [by apply later_refl|]); by split_and!.
Qed.
Next Obligation.
  intros n ctx w d err w' d' Hw Hd. simpl. destruct (created d) eqn:Ec; intros [= <- <- <-]; (split; [by apply later_refl|]); by split_and!.
Qed.

#[export] Instance unthrottled : DynamoUnthrottled table (H0 := laws 25).
Proof.
  intros ctx ks w d un w' d' Hw Hd Hlen E. apply batch_law in E as (_ & _ & _ & -> & _).
  rewrite drop_ge; [done|]. simpl in Hd. lia.
Qed.
End MemTable.

(** ** Runs *)

Module DynRuns.
#[export] Existing Instances MemTable.dynamo MemTable.laws MemTable.unthrottled Toy.gzip Toy.gzip_ok Toy.crypto Toy.crypto_ok.
#[local] Abbreviation table := MemTable.table.
#[local] Abbreviation name := MemTable.name.

Definition Ada : bytes := bytes_of_string "Ada".
Definition forever : Z := 9000000000000.

(** An expired item, two that never expire, and one of another store. *)
Definition items0 : gmap string item :=
  {["app:a" := valueItem "app:a" Ada 1; "app:b" := valueItem "app:b" Ada forever;
    "app:c" := valueItem "app:c" Ada forever; "other:z" := valueItem "other:z" Ada forever]}.
Definition table0 : table := MemTable.mkTable items0 true 25 0.
Definition clock : World := sleepWorld Minute world_example.
Definition deadline : Context := mkContext (Some (100 * Minute, DeadlineExceeded)).

Lemma dyn_clock_ok : world_ok clock.
Proof. apply (later_world_ok world_example), later_sleep; [exact world_example_ok | reflexivity]. Qed.

Lemma deadline_bounded : bounded deadline.
Proof. exists (100 * Minute), DeadlineExceeded. by split. Qed.

Lemma table_ok_items m n b k : map_Forall itemOf m -> (n <= k)%nat ->
  table_ok (H0 := MemTable.laws n) (MemTable.mkTable m b k 0).
Proof. by split. Qed.

Lemma items0_shape : map_Forall itemOf items0.
Proof.
  assert (Hi : forall k x, in_int64 x -> itemOf k (valueItem k Ada x)) by (intros k x Hx; by exists Ada, x).
  unfold items0. repeat apply map_Forall_insert_2; [apply Hi; done..|]. apply map_Forall_empty.
Qed.

Definition over (d : table) (p : string) : dynamoStore table := mkDynamoStore (Some d) name p Minute.

Lemma dyn_over_ok p : dyn_ok (tbl := name) (H0 := MemTable.laws 25) (over table0 p).
Proof. split; [split; reflexivity|]. split; [reflexivity|]. exists table0. split; [reflexivity|]. by apply table_ok_items; [apply items0_shape|]. Qed.

(** A table that refuses its first [n] descriptions, and is then missing. *)
Definition refusing (n : nat) : table := MemTable.mkTable ∅ false 25 n.

Lemma refusing_rounds n m w : exists w', rounds (tbl := name) Background n w (refusing (n + m)) w' (refusing m).
Proof.
  revert w. induction n as [|n IH]; intros w; [eexists; constructor|].
  destruct (IH (sleepWorld (now w + 150 * Millisecond) (tickWorld w))) as [w' Hr]. exists w'.
  eapply rounds_more; [|done|exact Hr]. eapply undescribed; [reflexivity|reflexivity|]. left. split; [|reflexivity].
  exists "connection refused", "dial tcp: ", EmptyString. split; [|reflexivity]. unfold startupTexts. set_solver.
Qed.

Definition flushed := dyn_Flush Background clock (over table0 "app").
Definition opts : ListPageOptions := mkListPageOptions EmptyString EmptyString EmptyString 2.
Definition page := dyn_ListPage Background opts clock (over table0 "app").
Definition full := dyn_ListPage Background (mkListPageOptions EmptyString EmptyString EmptyString 10) clock (over table0 "app").
Definition twice := dyn_DeleteMany Background ["b"; "b"] clock (over table0 "app").

Definition config : dynamoConfig table :=
  mkDynamoConfig cfg_example (Some (MemTable.mkTable ∅ false 25 0)) EmptyString EmptyString EmptyString.
Definition load (_ : Context) (_ : string) : unit + error := inl tt.
Definition fresh (_ : unit) : table := MemTable.mkTable ∅ false 25 0.
Definition built := dyn_New load (fun _ c => c) fresh deadline config world_example tt.
Definition store : wrappedStore (dynamoStore table) := default (Plain (over table0 "app")) (rv built).1.
Definition set1 := Store_Set Background "user:1" Ada Minute (wv built) store.
Definition get1 := Store_Get Background "user:1" (wv set1) (sv set1).

(** A table whose capacity is one request per batch: [DeleteMany] succeeds and the
    second key is still there. *)
Definition throttled : table := MemTable.mkTable items0 true 1 0.
Definition lossy := dyn_DeleteMany Background ["b"; "c"] clock (over throttled "app").

(** Two increments of the same counter, the second between the two requests of the
    first. *)
Definition interleaved : Z * Z * (bytes * bool * option error) :=
  let s := over table0 "app" in
  let '(got, w1, d1) := itemGet s Background "n" clock table0 in
  let '((two, _), w2, d2) := itemIncrement s Background "n" 1 Minute w1 d1 in
  let '((one, _), w3, d3) := incrementRest s Background "n" 1 Minute got w2 d2 in
  (one, two, rv (itemGet s Background "n" w3 d3)).
End DynRuns.

#[local] Existing Instances MemTable.dynamo MemTable.unthrottled Toy.gzip Toy.gzip_ok Toy.crypto Toy.crypto_ok.

(** [DeleteMany] does not look at the requests the service hands back: beyond the
    throughput it reports success for keys that it has not removed. *)
Example dyn_DeleteMany_unprocessed :
  rv DynRuns.lossy = None /\
  rv (dyn_Get Background "c" (wv DynRuns.lossy) (sv DynRuns.lossy)) = (DynRuns.Ada, true, None).
Proof. vm_compute. split; reflexivity. Qed.

(** [Increment] is a read followed by a write: of two that overlap both succeed with
    the same number, and one of them is lost. *)
Example dyn_Increment_lost_update :
  DynRuns.interleaved = (1, 1, (bytes_of_string "1", true, None)).
Proof. vm_compute. reflexivity. Qed.

(** The key of another store is listed under its full name. *)
Example dyn_ListPage_foreign : Key <$> Entries (rv DynRuns.full).1 = ["b"; "c"; "other:z"].
Proof. vm_compute. reflexivity. Qed.

(** After 19 refusals the table is created; after 20 the last one is reported. *)
Lemma ensureDynamoTable_recovers_witness :
  (exists w' d', ensureDynamoTable Background MemTable.name world_example (DynRuns.refusing 19) = (None, w', d')) /\
  (exists w' d', ensureDynamoTable Background MemTable.name world_example (DynRuns.refusing 20) =
    (Some (ErrorWrap ("ensure dynamo table " +:+ quoted MemTable.name +:+ ": ") (ErrorString "dial tcp: connection refused")), w', d')).
Proof.
  split.
  - destruct (DynRuns.refusing_rounds 19 0 world_example) as [w1 Hr]. eexists _, _.
    refine (ensureDynamoTable_recovers Background 19 world_example (DynRuns.refusing 19) w1 (DynRuns.refusing 0) Available _ _
      (Nat.le_refl _) Hr _ _); [eapply made; reflexivity | discriminate].
  - destruct (DynRuns.refusing_rounds 19 1 world_example) as [w1 Hr]. eexists _, _.
    refine (ensureDynamoTable_recovers Background 19 world_example (DynRuns.refusing 20) w1 (DynRuns.refusing 1)
      (Transient (ErrorString "dial tcp: connection refused")) _ _ (Nat.le_refl _) Hr _ _); [|reflexivity].
    eapply undescribed; [reflexivity|reflexivity|]. left. split; [|reflexivity].
    exists "connection refused", "dial tcp: ", EmptyString. split; [|reflexivity]. unfold startupTexts. set_solver.
Defined.

Lemma ensureDynamoTable_sound_witness :
  let run := ensureDynamoTable DynRuns.deadline MemTable.name world_example (DynRuns.refusing 2) in
  rv run = None /\ MemTable.created (sv run) = true.
Proof.
  intros run. assert (E : rv run = None) by (vm_compute; reflexivity). split; [exact E|].
  apply run_eta in E. unfold run in E at 1.
  refine (proj2 (ensureDynamoTable_sound (H0 := MemTable.laws 25) DynRuns.deadline world_example (DynRuns.refusing 2)
    None (wv run) (sv run) DynRuns.deadline_bounded world_example_ok _ E) eq_refl).
  apply Nat.le_refl.
Defined.

Lemma dyn_New_set_get_witness : rv DynRuns.get1 = (DynRuns.Ada, true, None) /\ hit_or_error DynRuns.Ada (rv DynRuns.get1).
Proof.
  split; [vm_compute; reflexivity|].
  pose proof (run_eta DynRuns.get1 (rv DynRuns.get1) eq_refl) as Eget. unfold DynRuns.get1 in Eget at 1.
  assert (Eset : rv DynRuns.set1 = None) by (vm_compute; reflexivity).
  apply run_eta in Eset. unfold DynRuns.set1 in Eset at 1.
  assert (Enew : rv DynRuns.built = (Some DynRuns.store, None)) by (vm_compute; reflexivity).
  apply run_eta in Enew. unfold DynRuns.built in Enew at 1.
  assert (Hempty : forall d, d = DynRuns.fresh tt -> table_ok (H0 := MemTable.laws 25) d).
  { intros d ->. apply DynRuns.table_ok_items; [apply map_Forall_empty|apply Nat.le_refl]. }
  refine (dyn_New_set_get (H0 := MemTable.laws 25) DynRuns.load (fun _ c => c) DynRuns.fresh DynRuns.deadline DynRuns.config DynRuns.store
    world_example (wv DynRuns.built) (sv DynRuns.built) Background Background "user:1" DynRuns.Ada Minute (wv DynRuns.set1)
    (sv DynRuns.set1) (wv DynRuns.set1) (rv DynRuns.get1) (wv DynRuns.get1) (sv DynRuns.get1)
    DynRuns.deadline_bounded _ _ _ _ _ world_example_ok Enew _ _ Eset _ Eget _).
  - reflexivity.
  - intros d [= <-]. by apply Hempty.
  - intros []. by apply Hempty.
  - reflexivity.
  - by left.
  - split; reflexivity.
  - reflexivity.
  - apply later_refl. exact world_example_ok.
  - apply Z.leb_le. vm_compute; reflexivity.
Defined.


Lemma dyn_ListPage_lists_witness :
  rv DynRuns.page = (mkListPageResult [mkCacheEntry "b" 3 (Some DynRuns.forever); mkCacheEntry "c" 3 (Some DynRuns.forever)] "2" true, None) /\
  exists es, listing (H0 := MemTable.laws 25) (DynRuns.over DynRuns.table0 "app") (fun _ => True) DynRuns.table0
    (now DynRuns.clock) (now (wv DynRuns.page)) es.
Proof.
  assert (E : rv DynRuns.page =
    (mkListPageResult [mkCacheEntry "b" 3 (Some DynRuns.forever); mkCacheEntry "c" 3 (Some DynRuns.forever)] "2" true, None))
    by (vm_compute; reflexivity).
  split; [exact E|]. apply run_eta in E. unfold DynRuns.page in E at 1.
  destruct (dyn_ListPage_lists (H0 := MemTable.laws 25) Background DynRuns.opts DynRuns.clock (DynRuns.over DynRuns.table0 "app")
    _ (wv DynRuns.page) (sv DynRuns.page) DynRuns.table0 DynRuns.dyn_clock_ok (DynRuns.dyn_over_ok "app") eq_refl E)
    as (es & offset & Hes & _).
  exists es. exact Hes.
Defined.

Lemma dyn_DeleteMany_duplicates_witness : rv DynRuns.twice <> None.
Proof.
  refine (dyn_DeleteMany_duplicates (H0 := MemTable.laws 25) Background ["b"; "b"] DynRuns.clock (DynRuns.over DynRuns.table0 "app")
    (rv DynRuns.twice) (wv DynRuns.twice) (sv DynRuns.twice) DynRuns.dyn_clock_ok (DynRuns.dyn_over_ok "app") _ _).
  - simpl. intros Hnd. apply list.NoDup_cons in Hnd as [Hn _]. apply Hn. by apply list_elem_of_singleton.
  - exact (run_eta DynRuns.twice (rv DynRuns.twice) eq_refl).
Defined.
