(* ===== verification/CacheTest.v ===== *)
(** * Package cachetest: the contract suites

    [cachetest/contract.go] and [cachetest/inspect.go], the suites that every driver
    of the repository runs against itself.  A suite is a program over a store; the
    first failed check ends it.  The theorem about the store suite says that it
    samples the contracts of [CacheCore] correctly: a backend that keeps them, on a
    machine that is not too slow, fails only by an error of its own. *)

From Stdlib Require Import Strings.Ascii.
From S2P Require Import Prelude GoStd CacheCore InspectHelpers.

(** ** Failures *)

(** The arguments of [t.Fatalf]. *)
Inductive fmtArg :=
| ArgErr (err : option error)
| ArgBool (b : bool)
| ArgString (s : string)
| ArgInt (n : Z)
| ArgEntries (es : list CacheEntry)
| ArgPage (page : ListPageResult)
| ArgExpiry (x : option Z).

(** A call of [t.Fatalf], and the error of the store that led to it, if any. *)
Record failure := mkFailure { fl_format : string; fl_args : list fmtArg; fl_cause : option error }.

Definition fatalf {S} (format : string) (args : list fmtArg) (cause : option error) : M S (option failure) :=
  ret (Some (mkFailure format args cause)).
Definition passed {S} : M S (option failure) := ret None.

(** [t.Fatalf] ends the test. *)
Definition andThen {S} (m k : M S (option failure)) : M S (option failure) :=
  let* r := m in
  match r with Some f => ret (Some f) | None => k end.
Notation "m ;;; k" := (andThen m k) (at level 100, k at level 200, right associativity) : go_scope.

(** ** The store suite *)

Record Options := mkOptions {
  CaseName : string;
  NullSemantics : bool;
  SkipCloneCheck : bool;
  TTL : Z;
  TTLWait : Z;
  SkipFlush : bool
}.

(** [strings.ReplaceAll] of one character by another *)
Fixpoint replaceChar (c c' : Ascii.ascii) (s : string) : string :=
  match s with
  | EmptyString => EmptyString
  | String x rest => String (if decide (x = c) then c' else x) (replaceChar c c' rest)
  end.

Definition sanitize (s : string) : string := replaceChar " "%char "_"%char (replaceChar "/"%char "_"%char s).

(** The errors that [waitForMiss] returns: one of the store, and
    [fmt.Errorf("key %q still present after %s", key, wait)]. *)
Inductive waitError :=
| GetFailed (err : error)
| StillPresent (key : string) (wait : Z).

Definition pollInterval : Z := 10 * Millisecond.

(** What it does to a store when the caller writes [b] into the slice that [Get] of [k] has
    returned: nothing, where [Get] returns a copy; where it returns a slice of the store's own
    memory, the stored value becomes [b]. *)
Class ReturnedSlices (S : Type) := { write_returned : string -> bytes -> M S unit }.

(** The stores that own their values. *)
Class OwnedCopies (S : Type) `{ReturnedSlices S} := {
  returned_copy : forall k b w (s : S), write_returned k b w s = (tt, w, s)
}.
Definition copied {S} : ReturnedSlices S := {| write_returned := fun _ _ => ret tt |}.
#[export] Instance copied_owned {S} : OwnedCopies S (H := copied).
Proof. by split. Qed.

Section Suite.
Context {S : Type} `{Store S} `{!ReturnedSlices S}.

(** The polling loop, which has [fuel] turns left, and the last look after it.
    [None] is a loop that needs more turns. *)
Fixpoint pollMiss (fuel : nat) (ctx : Context) (key : string) (wait deadline : Z) : M S (option (option waitError)) :=
  match fuel with
  | O => ret None
  | Datatypes.S fuel =>
      let* t := timeNow in
      if t <? deadline then
        let* (_, ok, err) := Store_Get ctx key in
        match err with
        | Some e => ret (Some (Some (GetFailed e)))
        | None =>
            if negb ok then ret (Some None)
            else timeSleep pollInterval ;; pollMiss fuel ctx key wait deadline
        end
      else
        let* (_, ok, err) := Store_Get ctx key in
        match err with
        | Some e => ret (Some (Some (GetFailed e)))
        | None => if ok : bool then ret (Some (Some (StillPresent key wait))) else ret (Some None)
        end
  end.

(** Every turn sleeps for [pollInterval]. *)
Definition pollTurns (wait : Z) : nat := Z.to_nat (wait / pollInterval + 2).

Definition waitForMiss (ctx : Context) (key : string) (wait : Z) : M S (option (option waitError)) :=
  let* t := timeNow in
  pollMiss (pollTurns wait) ctx key wait (t + wait).

Section Checks.
Variables (ctx : Context) (key : string -> string) (opts : Options).

(** [body[0] = 'X'] is a write to the slice that [Get] returned. *)
Definition checkSetGet : M S (option failure) :=
  let* err := Store_Set ctx (key "alpha") (bytes_of_string "value") Second in
  match err with
  | Some e => fatalf "set failed: %v" [ArgErr err] (Some e)
  | None =>
      let* (body, ok, err) := Store_Get ctx (key "alpha") in
      match err with
      | Some e => fatalf "get failed: ok=%v err=%v" [ArgBool ok; ArgErr err] (Some e)
      | None =>
          if NullSemantics opts then
            if ok : bool then fatalf "expected miss for null semantics" [] None else passed
          else if negb ok || negb (bool_decide (string_of_bytes body = "value")) then
            fatalf "unexpected get result: ok=%v body=%q err=%v" [ArgBool ok; ArgString (string_of_bytes body); ArgErr err] None
          else if SkipCloneCheck opts then passed
          else
            write_returned (key "alpha") (x58 :: tail body) ;;
            let* (body2, ok2, err2) := Store_Get ctx (key "alpha") in
            if negb (noErr err2) || negb ok2 || negb (bool_decide (string_of_bytes body2 = "value")) then
              fatalf "expected stored value unchanged, got ok=%v body=%q err=%v"
                [ArgBool ok2; ArgString (string_of_bytes body2); ArgErr err2] err2
            else passed
      end
  end.

Definition checkExpiry (ttl wait : Z) : M S (option failure) :=
  let* err := Store_Set ctx (key "ttl") (bytes_of_string "v") ttl in
  match err with
  | Some e => fatalf "set ttl failed: %v" [ArgErr err] (Some e)
  | None =>
      let* r := waitForMiss ctx (key "ttl") wait in
      match r with
      | Some None => passed
      | Some (Some (GetFailed e)) => fatalf "expected ttl expiry: %v" [ArgErr (Some e)] (Some e)
      | Some (Some (StillPresent k d)) =>
          fatalf "expected ttl expiry: key %q still present after %s" [ArgString k; ArgInt d] None
      | None => fatalf "polling has not ended" [] None
      end
  end.

Definition checkAdd : M S (option failure) :=
  let* (created, err) := Store_Add ctx (key "once") (bytes_of_string "first") Second in
  match err with
  | Some e => fatalf "add first failed: created=%v err=%v" [ArgBool created; ArgErr err] (Some e)
  | None =>
      let* (created, err) := Store_Add ctx (key "once") (bytes_of_string "second") Second in
      match err with
      | Some e => fatalf "add duplicate failed: %v" [ArgErr err] (Some e)
      | None =>
          if NullSemantics opts then
            if negb created then fatalf "expected null-like add duplicate to report created=true" [] None else passed
          else if created : bool then fatalf "expected duplicate add to return created=false" [] None
          else passed
      end
  end.

Definition checkCounters : M S (option failure) :=
  let* (n, err) := Store_Increment ctx (key "counter") 3 Second in
  match err with
  | Some e => fatalf "increment failed: %v" [ArgErr err] (Some e)
  | None =>
      (if NullSemantics opts then
         if negb (n =? 0) then fatalf "expected null-like increment to return 0, got %d" [ArgInt n] None else passed
       else if negb (n =? 3) then fatalf "expected increment=3, got %d" [ArgInt n] None else passed) ;;;
      let* (n, err) := Store_Decrement ctx (key "counter") 1 Second in
      match err with
      | Some e => fatalf "decrement failed: %v" [ArgErr err] (Some e)
      | None =>
          if NullSemantics opts then
            if negb (n =? 0) then fatalf "expected null-like decrement to return 0, got %d" [ArgInt n] None else passed
          else if negb (n =? 2) then fatalf "expected decrement=2, got %d" [ArgInt n] None else passed
      end
  end.

(** [if err := call; err != nil { t.Fatalf(format, err) }] *)
Definition must (format : string) (call : M S (option error)) : M S (option failure) :=
  let* err := call in
  match err with Some e => fatalf format [ArgErr err] (Some e) | None => passed end.

(** [if _, ok, err := store.Get(ctx, k); err != nil || ok { t.Fatalf(...) }] *)
Definition mustMiss (format k : string) : M S (option failure) :=
  let* (_, ok, err) := Store_Get ctx k in
  if negb (noErr err) || ok then fatalf format [ArgBool ok; ArgErr err] err else passed.

Definition checkDelete : M S (option failure) :=
  must "set a failed: %v" (Store_Set ctx (key "a") (bytes_of_string "1") Second) ;;;
  must "set b failed: %v" (Store_Set ctx (key "b") (bytes_of_string "2") Second) ;;;
  must "delete failed: %v" (Store_Delete ctx (key "a")) ;;;
  must "delete many failed: %v" (Store_DeleteMany ctx [key "b"]) ;;;
  mustMiss "expected key a deleted; ok=%v err=%v" (key "a") ;;;
  mustMiss "expected key b deleted; ok=%v err=%v" (key "b").

Definition checkFlush : M S (option failure) :=
  if SkipFlush opts then passed
  else
    must "set flush failed: %v" (Store_Set ctx (key "flush") (bytes_of_string "x") Second) ;;;
    must "flush failed: %v" (Store_Flush ctx) ;;;
    mustMiss "expected flush to clear key; ok=%v err=%v" (key "flush").
End Checks.

Definition suiteTTL (opts : Options) : Z := if TTL opts <=? 0 then 50 * Millisecond else TTL opts.
Definition suiteWait (opts : Options) : Z := if TTLWait opts <=? 0 then 120 * Millisecond else TTLWait opts.
Definition suiteKey (testName : string) (opts : Options) (s : string) : string :=
  sanitize (if decide (CaseName opts = EmptyString) then testName else CaseName opts) +:+ ":" +:+ s.

Definition RunStoreContract (testName : string) (opts : Options) : M S (option failure) :=
  let ctx := Background in
  let key := suiteKey testName opts in
  checkSetGet ctx key opts ;;;
  checkExpiry ctx key (suiteTTL opts) (suiteWait opts) ;;;
  checkAdd ctx key opts ;;;
  checkCounters ctx key opts ;;;
  checkDelete ctx key ;;;
  checkFlush ctx key opts.

(** ** The inspector suite *)

Definition inspectorItems : list (string * string) :=
  [("page/a", "alpha"); ("page/b", "bravo"); ("page/c", "charlie"); ("other/z", "zulu")].

Fixpoint setItems (ctx : Context) (items : list (string * string)) : M S (option failure) :=
  match items with
  | [] => passed
  | (key, value) :: rest =>
      let* err := Store_Set ctx key (bytes_of_string value) Minute in
      match err with
      | Some e => fatalf "set %s failed: %v" [ArgString key; ArgErr err] (Some e)
      | None => setItems ctx rest
      end
  end.

Definition entryKeys (page : ListPageResult) : list string := Key <$> Entries page.

(** Checks of the first page, on its first entry. *)
Definition checkFirstPage (caps : InspectorCapabilities) (first : ListPageResult) : M S (option failure) :=
  if negb (bool_decide (entryKeys first = ["page/a"; "page/b"])) then
    fatalf "unexpected first page: %+v" [ArgEntries (Entries first)] None
  else if negb (HasMore first) || bool_decide (NextCursor first = EmptyString) then
    fatalf "expected next cursor on first page: %+v" [ArgPage first] None
  else
    match Entries first with
    | [] => passed
    | entry :: _ =>
        if SizeBytes entry <=? 0 then fatalf "expected size metadata on first entry" [] None
        else if CanTTL caps then
          let* t := timeNow in
          if (match ExpiresAt entry with
              | None => true
              | Some x => (x <? UnixMilli t) || (x >? UnixMilli (t + 2 * Minute))
              end)
          then fatalf "expected Unix-millisecond expiration metadata, got %v" [ArgExpiry (ExpiresAt entry)] None
          else passed
        else passed
    end.

(** [page, err := inspector.ListPage(ctx, opts); if err != nil { t.Fatalf(format, err) }],
    then a check of the page. *)
Definition withPage (inspector : Inspector S) (ctx : Context) (opts : ListPageOptions) (format : string)
    (check : ListPageResult -> M S (option failure)) : M S (option failure) :=
  let* (page, err) := ListPage inspector ctx opts in
  match err with
  | Some e => fatalf format [ArgErr err] (Some e)
  | None => check page
  end.

Definition RunInspectorContract : M S (option failure) :=
  let* store := get in
  match Store_Inspector store with
  | None => fatalf "store %T does not implement cachecore.Inspector" [] None
  | Some inspector =>
      let caps := Capabilities inspector store in
      if negb (CanList caps) then fatalf "expected CanList capability" [] None
      else
        let ctx := Background in
        setItems ctx inspectorItems ;;;
        withPage inspector ctx (mkListPageOptions "page/" EmptyString EmptyString 2) "first page failed: %v" (fun first =>
          checkFirstPage caps first ;;;
          withPage inspector ctx (mkListPageOptions "page/" EmptyString (NextCursor first) 2) "second page failed: %v" (fun second =>
            if negb (bool_decide (entryKeys second = ["page/c"])) then
              fatalf "unexpected second page: %+v" [ArgEntries (Entries second)] None
            else if HasMore second || negb (bool_decide (NextCursor second = EmptyString)) then
              fatalf "expected terminal page: %+v" [ArgPage second] None
            else
              withPage inspector ctx (mkListPageOptions "/b" EmptyString EmptyString 10) "substring page failed: %v" (fun substring =>
                if negb (bool_decide (entryKeys substring = ["page/b"])) then
                  fatalf "unexpected substring page: %+v" [ArgEntries (Entries substring)] None
                else passed)))
  end.
End Suite.

(** ** The suite accepts what keeps the contracts *)

(** The clock, in a computation that does not block. *)
Definition keepsClock {S A} (m : M S A) : Prop := forall w s, w_clock (wv (m w s)) = w_clock w.

(** Every reading of the clock is at most [b]. *)
Definition clockBelow (b : Z) (w : World) : Prop := forall i, w_clock w i <= b.

Lemma clockBelow_run {S A} (m : M S A) b w s a w' s' :
  keepsClock m -> m w s = (a, w', s') -> clockBelow b w -> clockBelow b w'.
Proof. intros Hm E Hb i. specialize (Hm w s). rewrite E in Hm. unfold wv in Hm. simpl in Hm. rewrite Hm. apply Hb. Qed.

Lemma clockBelow_now b w : clockBelow b w -> now w <= b.
Proof. intros Hb. apply Hb. Qed.

(** A backend that answers without waiting. *)
Class Prompt (S : Type) `{Store S} := {
  pr_get ctx k : keepsClock (Store_Get (S := S) ctx k);
  pr_set ctx k v ttl : keepsClock (Store_Set (S := S) ctx k v ttl);
  pr_add ctx k v ttl : keepsClock (Store_Add (S := S) ctx k v ttl);
  pr_increment ctx k d ttl : keepsClock (Store_Increment (S := S) ctx k d ttl);
  pr_decrement ctx k d ttl : keepsClock (Store_Decrement (S := S) ctx k d ttl);
  pr_delete ctx k : keepsClock (Store_Delete (S := S) ctx k);
  pr_deleteMany ctx ks : keepsClock (Store_DeleteMany (S := S) ctx ks);
  pr_flush ctx : keepsClock (Store_Flush (S := S) ctx)
}.

(** A backend with one view of its keys: what a read finds is what an [Add] meets
    and what a counter counts from. *)
Class OneView (S : Type) `{HS : Store S} `{HK : !KeySpace S} `{!StoreContract S} `{!CounterContract S} := {
  ov_occupied (s : S) t k : sc_occupied s t k -> is_Some (sc_peek s t k);
  ov_ok (s : S) : sc_ok s <-> cc_ok s;
  ov_peek : cc_peek (S := S) = sc_peek
}.

(** A suite that passed, or failed because of an error of the store. *)
Definition blameless (v : option failure) : Prop :=
  match v with None => True | Some f => is_Some (fl_cause f) end.

(** The keys of the suite, without the name of the test. *)
Definition suiteNames : list string := ["alpha"; "ttl"; "once"; "counter"; "a"; "b"; "flush"].

Ltac in_names := apply list_elem_of_In; simpl; tauto.

Section Accepts.
Context {S : Type} `{HS : Store S} `{HK : !KeySpace S} `{!StoreContract S} `{!CounterContract S} `{!OneView S} `{!Prompt S}.
Context `{!ReturnedSlices S} `{!OwnedCopies S}.
Variables (ctx : Context) (key : string -> string) (opts : Options) (C : Z).
Implicit Types (w : World) (s : S).
Hypotheses (Hnull : NullSemantics opts = false).
Hypotheses (Hapart : forall x y, x ∈ suiteNames -> y ∈ suiteNames -> x <> y -> apart (S := S) (key x) (key y)).
Hypotheses (Hstorable : forall x, x ∈ suiteNames -> storable (S := S) (key x) Second).

(** Before a step: the invariant, and time left. *)
Definition ready w s : Prop := world_ok w /\ sc_ok s /\ clockBelow C w /\ C < now w + Second.

(** After a step that touched some keys. *)
Definition checked (touched : list string) w s (v : option failure) w' s' : Prop :=
  match v with
  | Some f => is_Some (fl_cause f)
  | None =>
      later w w' /\ ready w' s' /\ forall x, x ∈ suiteNames -> x ∉ touched -> same_key sc_peek w' s s' (key x)
  end.

Lemma ready_later w s w' s' : ready w s -> later w w' -> sc_ok s' -> clockBelow C w' -> ready w' s'.
Proof. intros (_ & _ & _ & HC) Hl Hs Hc. split; [by eapply later_world_ok|]. apply later_now in Hl. split_and!; [done..|lia]. Qed.

Lemma andThen_inv (m k : M S (option failure)) w s v w' s' :
  (m ;;; k) w s = (v, w', s') ->
  (exists w1 s1, m w s = (None, w1, s1) /\ k w1 s1 = (v, w', s')) \/ (exists f, v = Some f /\ m w s = (v, w', s')).
Proof.
  unfold andThen. go_simpl. destruct (m w s) as [[[f|] w1] s1]; [|by left; eauto]. intros [= <- <- <-]. right. eauto.
Qed.

(** The operations, one by one. *)
Lemma get_step k w s r w' s' : ready w s -> Store_Get ctx k w s = (r, w', s') ->
  later w w' /\ ready w' s' /\ get_post sc_peek k w s r w' s'.
Proof.
  intros Hr E. pose proof Hr as (Hw & Hs & Hc & _). pose proof (clockBelow_run _ _ _ _ _ _ _ (pr_get ctx k) E Hc) as Hc'.
  apply sc_get in E as (Hl & Hs' & Hp); [|done..]. split; [done|]. split; [by eapply ready_later|done].
Qed.

Lemma second_ok : ttl_ok Second.
Proof. by split. Qed.

Lemma set_step x v ttl w s err w' s' : ready w s -> ttl_ok ttl -> Store_Set ctx (key x) v ttl w s = (err, w', s') ->
  later w w' /\ ready w' s' /\ set_post sc_peek sc_grain (key x) v ttl w s err w' s'.
Proof.
  intros Hr Ht E. pose proof Hr as (Hw & Hs & Hc & _).
  pose proof (clockBelow_run _ _ _ _ _ _ _ (pr_set ctx (key x) v ttl) E Hc) as Hc'.
  apply sc_set in E as (Hl & Hs' & Hp); [|done..]. split; [done|]. split; [by eapply ready_later|done].
Qed.

Lemma others_same x w s s' : x ∈ suiteNames -> (forall k', apart (S := S) k' (key x) -> same_key sc_peek w s s' k') ->
  forall y, y ∈ suiteNames -> y ∉ [x] -> same_key sc_peek w s s' (key y).
Proof. intros Hx Hk y Hin Hy. apply Hk, Hapart; [done|done|]. intros ->. apply Hy. by apply list_elem_of_singleton. Qed.

(** What was stored less than a second ago is there. *)
Lemma get_stored k v w0 w1 w s r w' s' :
  stored sc_peek sc_grain Second w0 w1 s k v -> now w1 <= now w -> C < now w0 + Second -> ready w s ->
  Store_Get ctx k w s = (r, w', s') -> r.2 = None -> r = (v, true, None).
Proof.
  intros (Hvis & _) Hle HC Hr E Hn. apply get_step in E as (Hl & Hr' & _ & Hgot); [|done].
  pose proof Hr' as (_ & _ & Hc & _). apply clockBelow_now in Hc. pose proof (later_now _ _ Hl).
  destruct r as [[b ok] err]. simpl in Hn. subst err.
  destruct ok; destruct Hgot as (t & Ht & Et); rewrite Hvis in Et by lia; congruence.
Qed.

Lemma checkSetGet_accepts w s v w' s' :
  ready w s -> checkSetGet ctx key opts w s = (v, w', s') -> checked ["alpha"] w s v w' s'.
Proof.
  intros Hr. unfold checkSetGet. go_simpl. rewrite Hnull. destruct (Store_Set _ _ _ _ w s) as [[err w1] s1] eqn:E1.
  apply set_step in E1 as (Hl1 & Hr1 & Hk1 & Hset); [|done|apply second_ok].
  destruct err as [e|]; [intros [= <- <- <-]; simpl; eauto|]. specialize (Hset (Hstorable "alpha" ltac:(in_names))).
  pose proof Hr as (_ & _ & _ & HC). pose proof (others_same "alpha" _ _ _ ltac:(in_names) Hk1) as Ho1.
  destruct (Store_Get _ _ w1 s1) as [[[[body ok] err] w2] s2] eqn:E2. pose proof E2 as E2'.
  apply get_step in E2' as (Hl2 & Hr2 & Hk2 & _); [|done].
  destruct err as [e|]; [intros [= <- <- <-]; simpl; eauto|].
  apply (get_stored _ _ _ _ _ _ _ _ _ Hset) in E2; [|lia|done|done|done]. injection E2 as -> ->.
  rewrite string_of_bytes_of_string, bool_decide_true by done. simpl.
  assert (Hpass : checked ["alpha"] w s None w2 s2).
  { split; [by eapply later_trans|]. split; [done|]. intros y Hin Hy.
    eapply same_key_trans; [eapply same_key_widen; [by apply Ho1|done]|apply Hk2]. }
  destruct (SkipCloneCheck opts); [intros [= <- <- <-]; done|]. rewrite returned_copy.
  destruct (Store_Get _ _ w2 s2) as [[[[body2 ok2] err2] w3] s3] eqn:E3. pose proof E3 as E3'.
  apply get_step in E3' as (Hl3 & Hr3 & Hk3 & _); [|done].
  destruct err2 as [e|]; [intros [= <- <- <-]; simpl; eauto|].
  assert (Hst2 : stored sc_peek sc_grain Second w w2 s2 (key "alpha") (bytes_of_string "value")).
  { eapply stored_later; [done|by apply later_now|apply Hk2]. }
  apply (get_stored _ _ _ _ _ _ _ _ _ Hst2) in E3; [|lia|done|done|done]. injection E3 as -> ->.
  rewrite string_of_bytes_of_string, bool_decide_true by done. intros [= <- <- <-].
  destruct Hpass as (Hla & _ & Hsame). split; [by eapply later_trans|]. split; [done|]. intros y Hin Hy.
  eapply same_key_trans; [eapply same_key_widen; [by apply Hsame|done]|apply Hk3].
Qed.

Lemma add_step x v w s r w' s' : ready w s -> Store_Add ctx (key x) v Second w s = (r, w', s') ->
  later w w' /\ ready w' s' /\ add_post sc_peek sc_occupied sc_grain (key x) v Second w s r w' s'.
Proof.
  intros Hr E. pose proof Hr as (Hw & Hs & Hc & _).
  pose proof (clockBelow_run _ _ _ _ _ _ _ (pr_add ctx (key x) v Second) E Hc) as Hc'.
  apply sc_add in E as (Hl & Hs' & Hp); [|done|done|apply second_ok]. split; [done|]. split; [by eapply ready_later|done].
Qed.

Lemma checkAdd_accepts w s v w' s' :
  ready w s -> removed sc_peek w s (key "once") ->
  checkAdd ctx key opts w s = (v, w', s') -> checked ["once"] w s v w' s'.
Proof.
  intros Hr Hfresh. unfold checkAdd. go_simpl. rewrite Hnull.
  destruct (Store_Add _ _ _ _ w s) as [[[created err] w1] s1] eqn:E1.
  apply add_step in E1 as (Hl1 & Hr1 & Hk1 & Hadd); [|done].
  destruct err as [e|]; [intros [= <- <- <-]; simpl; eauto|].
  destruct created.
  2: { destruct Hadd as [(t & Ht & Hocc%ov_occupied) _]. rewrite Hfresh in Hocc by lia. by destruct Hocc. }
  destruct Hadd as [_ Hst]. destruct (Hst (Hstorable "once" ltac:(in_names))) as [Hvis _].
  destruct (Store_Add _ _ _ _ w1 s1) as [[[created err] w2] s2] eqn:E2.
  apply add_step in E2 as (Hl2 & Hr2 & Hk2 & Hadd); [|done].
  destruct err as [e|]; [intros [= <- <- <-]; simpl; eauto|].
  pose proof Hr as (_ & _ & _ & HC). pose proof Hr2 as (_ & _ & Hc2 & _). apply clockBelow_now in Hc2.
  destruct created.
  { destruct Hadd as [(t & Ht & Hfree) _]. destruct Hfree. eapply sc_peek_occupied. apply Hvis. lia. }
  intros [= <- <- <-]. split; [by eapply later_trans|]. split; [done|]. intros y Hin Hy.
  eapply same_key_trans; [eapply same_key_widen; [by apply (others_same "once" _ _ _ ltac:(in_names) Hk1)|done]|].
  by apply (others_same "once" _ _ _ ltac:(in_names) Hk2).
Qed.

(** ** Counters *)

Lemma count_step (dec : bool) x delta w s r w' s' : ready w s ->
  (if dec then Store_Decrement else Store_Increment) ctx (key x) delta Second w s = (r, w', s') ->
  later w w' /\ ready w' s' /\
  increment_post sc_peek (cc_grain (S := S)) (key x) (if dec then wrap64 (- delta) else delta) Second w s r w' s'.
Proof.
  intros Hr E. pose proof Hr as (Hw & Hs%ov_ok & Hc & _).
  assert (Hc' : clockBelow C w').
  { destruct dec; [eapply clockBelow_run; [apply pr_decrement|done..] | eapply clockBelow_run; [apply pr_increment|done..]]. }
  assert (later w w' /\ cc_ok s' /\
    increment_post cc_peek cc_grain (key x) (if dec then wrap64 (- delta) else delta) Second w s r w' s') as (Hl & Hs' & Hp).
  { destruct dec; [apply (cc_decrement ctx _ delta) | apply (cc_increment ctx)]; try done; apply second_ok. }
  split; [done|]. split; [eapply ready_later; [done|done|by apply ov_ok|done]|].
  by rewrite ov_peek in Hp.
Qed.

Lemma checkCounters_accepts w s v w' s' :
  ready w s -> removed sc_peek w s (key "counter") ->
  checkCounters ctx key opts w s = (v, w', s') -> checked ["counter"] w s v w' s'.
Proof.
  intros Hr Hfresh. unfold checkCounters, andThen. go_simpl. rewrite Hnull.
  destruct (Store_Increment _ _ _ _ w s) as [[[n err] w1] s1] eqn:E1.
  apply (count_step false) in E1 as (Hl1 & Hr1 & Hk1 & Hinc); [|done].
  destruct err as [e|]; [intros [= <- <- <-]; simpl; eauto|].
  destruct Hinc as ((o & c & (t & Ht & Eo) & Hc & ->) & Hst). rewrite Hfresh in Eo by lia. subst o. simpl in Hc. subst c.
  change (wrap64 (0 + 3)) with 3 in *. simpl. destruct (Hst (Hstorable "counter" ltac:(in_names))) as [Hvis _].
  destruct (Store_Decrement _ _ _ _ w1 s1) as [[[n err] w2] s2] eqn:E2.
  apply (count_step true) in E2 as (Hl2 & Hr2 & Hk2 & Hdec); [|done].
  destruct err as [e|]; [intros [= <- <- <-]; simpl; eauto|].
  pose proof Hr as (_ & _ & _ & HC). pose proof Hr2 as (_ & _ & Hc2 & _). apply clockBelow_now in Hc2.
  destruct Hdec as ((o & c & (t2 & Ht2 & Eo) & Hc & ->) & _). rewrite Hvis in Eo by lia. subst o.
  assert (c = 3) as -> by (change (Some 3 = Some c) in Hc; congruence).
  change (wrap64 (3 + wrap64 (-1))) with 2. simpl. intros [= <- <- <-].
  split; [by eapply later_trans|]. split; [done|]. intros y Hin Hy.
  eapply same_key_trans; [eapply same_key_widen; [by apply (others_same "counter" _ _ _ ltac:(in_names) Hk1)|done]|].
  by apply (others_same "counter" _ _ _ ltac:(in_names) Hk2).
Qed.

(** ** Deletion *)

(** A key that is gone is missed. *)
Lemma mustMiss_accepts format k w s v w' s' :
  ready w s -> removed sc_peek w s k -> mustMiss ctx format k w s = (v, w', s') -> checked [] w s v w' s'.
Proof.
  intros Hr Hgone. unfold mustMiss. go_simpl. destruct (Store_Get ctx k w s) as [[[[b ok] err] w1] s1] eqn:E.
  apply get_step in E as (Hl & Hr1 & Hk & Hgot); [|done].
  destruct err as [e|]; [intros [= <- <- <-]; simpl; eauto|].
  destruct ok; [destruct Hgot as (t & Ht & Et); by rewrite Hgone in Et by lia|].
  intros [= <- <- <-]. split; [done|]. split; [done|]. intros; apply Hk.
Qed.

(** A call that must succeed, with what its success brings. *)
Lemma must_accepts format (call : M S (option error)) (T : list string) (P : World -> S -> Prop) w s v w' s' :
  ready w s ->
  (forall err w1 s1, call w s = (err, w1, s1) -> later w w1 /\ ready w1 s1 /\
     (err = None -> P w1 s1 /\ forall x, x ∈ suiteNames -> x ∉ T -> same_key sc_peek w1 s s1 (key x))) ->
  must format call w s = (v, w', s') -> checked T w s v w' s' /\ (v = None -> P w' s').
Proof.
  intros Hr Hcall. unfold must. go_simpl. destruct (call w s) as [[err w1] s1] eqn:E.
  destruct (Hcall _ _ _ eq_refl) as (Hl & Hr1 & Hp). destruct err as [e|]; intros [= <- <- <-].
  - split; [simpl; eauto | done].
  - destruct (Hp eq_refl). split; [by split_and! | done].
Qed.

Lemma mustSet_accepts format x val w s v w' s' :
  x ∈ suiteNames -> ready w s -> must format (Store_Set ctx (key x) val Second) w s = (v, w', s') -> checked [x] w s v w' s'.
Proof.
  intros Hx Hr E. eapply (must_accepts _ _ [x] (fun _ _ => True)) in E as [? _]; [done|done|].
  intros err w1 s1 E1. apply set_step in E1 as (? & ? & Hk & _); [|done|apply second_ok].
  split_and!; [done..|]. intros _. split; [done|]. by apply others_same.
Qed.

Lemma mustDelete_accepts format x w s v w' s' :
  x ∈ suiteNames -> ready w s -> must format (Store_Delete ctx (key x)) w s = (v, w', s') ->
  checked [x] w s v w' s' /\ (v = None -> removed sc_peek w' s' (key x)).
Proof.
  intros Hx Hr E. eapply (must_accepts _ _ [x] (fun w' s' => removed sc_peek w' s' (key x))) in E; [done|done|].
  intros err w1 s1 E1. pose proof Hr as (Hw & Hs & Hc & _).
  pose proof (clockBelow_run _ _ _ _ _ _ _ (pr_delete ctx (key x)) E1 Hc) as Hc'.
  apply sc_delete in E1 as (Hl & Hs1 & Hk & Hd); [|done..]. split; [done|]. split; [by eapply ready_later|].
  intros ->. split; [done|]. by apply others_same.
Qed.

Lemma mustDeleteMany_accepts format x w s v w' s' :
  x ∈ suiteNames -> ready w s -> must format (Store_DeleteMany ctx [key x]) w s = (v, w', s') ->
  checked [x] w s v w' s' /\ (v = None -> removed sc_peek w' s' (key x)).
Proof.
  intros Hx Hr E. eapply (must_accepts _ _ [x] (fun w' s' => removed sc_peek w' s' (key x))) in E; [done|done|].
  intros err w1 s1 E1. pose proof Hr as (Hw & Hs & Hc & _).
  pose proof (clockBelow_run _ _ _ _ _ _ _ (pr_deleteMany ctx [key x]) E1 Hc) as Hc'.
  apply sc_deleteMany in E1 as (Hl & Hs1 & Hk & Hd); [|done..]. split; [done|]. split; [by eapply ready_later|].
  intros ->. split; [by apply Hd, list_elem_of_singleton|]. apply others_same; [done|]. intros k' Ha. apply Hk.
  by intros k ->%list_elem_of_singleton.
Qed.

Lemma mustFlush_accepts format w s v w' s' :
  ready w s -> must format (Store_Flush ctx) w s = (v, w', s') ->
  blameless v /\ (v = None -> later w w' /\ ready w' s' /\ forall k, removed sc_peek w' s' k).
Proof.
  intros Hr. unfold must. go_simpl. destruct (Store_Flush ctx w s) as [[err w1] s1] eqn:E1.
  pose proof Hr as (Hw & Hs & Hc & _). pose proof (clockBelow_run _ _ _ _ _ _ _ (pr_flush ctx) E1 Hc) as Hc'.
  apply sc_flush in E1 as (Hl & Hs1 & Hd); [|done..]. destruct err as [e|]; intros [= <- <- <-].
  - split; [simpl; eauto | done].
  - split; [done|]. intros _. split; [done|]. split; [by eapply ready_later|done].
Qed.

Lemma checked_blameless T w s v w' s' : checked T w s v w' s' -> blameless v.
Proof. by destruct v. Qed.

Lemma checkDelete_accepts w s v w' s' :
  ready w s -> checkDelete ctx key w s = (v, w', s') -> blameless v /\ (v = None -> later w w' /\ ready w' s').
Proof.
  intros Hr. unfold checkDelete.
  assert (Hfail : forall T w0 s0 f w1 s1, checked T w0 s0 (Some f) w1 s1 ->
    blameless (Some f) /\ (Some f = None -> later w w1 /\ ready w1 s1)) by (intros; by split).
  intros [(w1 & s1 & E1 & E)|(f & -> & E)]%andThen_inv; [|apply mustSet_accepts in E; [by eapply Hfail|in_names|done]].
  apply mustSet_accepts in E1 as (Hl1 & Hr1 & _); [|in_names|done].
  apply andThen_inv in E as [(w2 & s2 & E2 & E)|(f & -> & E)]; [|apply mustSet_accepts in E; [by eapply Hfail|in_names|done]].
  apply mustSet_accepts in E2 as (Hl2 & Hr2 & _); [|in_names|done].
  apply andThen_inv in E as [(w3 & s3 & E3 & E)|(f & -> & E)]; [|apply mustDelete_accepts in E as [? _]; [by eapply Hfail|in_names|done]].
  apply mustDelete_accepts in E3 as [(Hl3 & Hr3 & _) Ha]; [|in_names|done]. specialize (Ha eq_refl).
  apply andThen_inv in E as [(w4 & s4 & E4 & E)|(f & -> & E)]; [|apply mustDeleteMany_accepts in E as [? _]; [by eapply Hfail|in_names|done]].
  apply mustDeleteMany_accepts in E4 as [(Hl4 & Hr4 & Hk4) Hb]; [|in_names|done]. specialize (Hb eq_refl).
  assert (Ha4 : removed sc_peek w4 s4 (key "a")).
  { eapply removed_same_key; [by eapply removed_widen|]. apply Hk4; [in_names|]. by intros ?%list_elem_of_singleton. }
  apply andThen_inv in E as [(w5 & s5 & E5 & E)|(f & -> & E)]; [|apply mustMiss_accepts in E; [by eapply Hfail|done..]].
  apply mustMiss_accepts in E5 as (Hl5 & Hr5 & Hk5); [|done..].
  assert (Hb5 : removed sc_peek w5 s5 (key "b")).
  { eapply removed_same_key; [by eapply removed_widen|]. apply Hk5; [in_names|]. by intros ?%elem_of_nil. }
  apply mustMiss_accepts in E; [|done..]. destruct v as [f|]; [by eapply Hfail|]. split; [done|]. intros _.
  destruct E as (Hl6 & Hr6 & _). split; [|done]. by do 5 (eapply later_trans; [done|]).
Qed.

Lemma checkFlush_accepts w s v w' s' : ready w s -> checkFlush ctx key opts w s = (v, w', s') -> blameless v.
Proof.
  intros Hr. unfold checkFlush. destruct (SkipFlush opts); [by intros [= <- <- <-]|].
  intros [(w1 & s1 & E1 & E)|(f & -> & E)]%andThen_inv;
    [|eapply checked_blameless, mustSet_accepts; [| |exact E]; [in_names|done]].
  apply mustSet_accepts in E1 as (_ & Hr1 & _); [|in_names|done].
  apply andThen_inv in E as [(w2 & s2 & E2 & E)|(f & -> & E)]; [|by apply mustFlush_accepts in E as [? _]].
  apply mustFlush_accepts in E2 as [_ Hf]; [|done]. destruct (Hf eq_refl) as (_ & Hr2 & Hgone).
  eapply checked_blameless, mustMiss_accepts; [|apply Hgone|exact E]; done.
Qed.
End Accepts.

(** ** Waiting for expiry *)

Section Expiry.
Context {S : Type} `{HS : Store S} `{HK : !KeySpace S} `{!StoreContract S} `{!Prompt S}.
Variables (ctx : Context) (k : string) (wait deadline B : Z).
Implicit Types (w : World) (s : S).
Hypotheses (HB : deadline <= B) (Hh : B + pollInterval < horizon).

(** No reading is later than [B], but for those that the last sleep has moved. *)
Definition polling w : Prop := world_ok w /\ clockBelow (B + pollInterval) w /\ forall i, w_clock w i <= Z.max B (now w).

Lemma polling_below w : world_ok w -> clockBelow B w -> polling w.
Proof. intros Hw Hb. split; [done|]. split; intros i; specialize (Hb i); unfold pollInterval, Millisecond; lia. Qed.

Lemma polling_before w : polling w -> now w < deadline -> clockBelow B (tickWorld w).
Proof. intros (_ & _ & Hmax) Hlt i. specialize (Hmax i). simpl. lia. Qed.

Lemma polling_slept w : world_ok w -> clockBelow B w -> polling (sleepWorld (now w + pollInterval) w).
Proof.
  intros Hw Hb. pose proof (clockBelow_now _ _ Hb). split; [apply (later_world_ok w), later_sleep; [done|lia]|].
  split; intros i; specialize (Hb i); [|rewrite now_sleep]; simpl; unfold pollInterval, Millisecond in *; lia.
Qed.

Lemma polling_get w s r w' s' : world_ok w -> sc_ok s -> Store_Get ctx k w s = (r, w', s') ->
  later w w' /\ sc_ok s' /\ get_post sc_peek k w s r w' s' /\ forall b, clockBelow b w -> clockBelow b w'.
Proof.
  intros Hw Hs E. assert (forall b, clockBelow b w -> clockBelow b w').
  { intros b. by apply (clockBelow_run _ b w s r w' s' (pr_get ctx k)). }
  apply sc_get in E as (? & ? & ?); [|done..]. by split_and!.
Qed.

(** The loop ends, and what it reports is that the key is gone, or an error of the
    store. *)
Lemma pollMiss_accepts fuel w s r w' s' :
  polling w -> sc_ok s -> (forall t, deadline <= t -> now w <= t -> sc_peek s t k = None) ->
  deadline - now w <= pollInterval * (Z.of_nat fuel - 1) -> (0 < fuel)%nat ->
  pollMiss fuel ctx k wait deadline w s = (r, w', s') ->
  later w w' /\ sc_ok s' /\ clockBelow (B + pollInterval) w' /\ (forall k', same_key sc_peek w' s s' k') /\
  (r = Some None \/ exists e, r = Some (Some (GetFailed e))).
Proof.
  revert w s. induction fuel as [|fuel IH]; intros w s Hp Hs Hgone Hfuel Hpos; [lia|].
  cbn [pollMiss]. go_simpl. pose proof Hp as (Hw & Hb & _). pose proof (later_tick w Hw) as Hlt.
  pose proof (later_world_ok _ _ Hlt) as Hwt.
  assert (Hbt : clockBelow (B + pollInterval) (tickWorld w)) by exact Hb.
  destruct (Store_Get ctx k (tickWorld w) s) as [[[[b ok] err] w1] s1] eqn:E. pose proof E as Eget.
  apply polling_get in E as (Hl1 & Hs1 & [Hk Hgot] & Hc); [|done..].
  assert (Hl : later w w1) by by eapply later_trans. pose proof (later_now _ _ Hlt). pose proof (later_now _ _ Hl1).
  specialize (Hc _ Hbt) as Hb1. destruct (Z.ltb_spec (now w) deadline) as [Hlt'|Hge]; rewrite Eget.
  - destruct err as [e|]; [intros [= <- <- <-]; split_and!; eauto|].
    destruct ok; [|intros [= <- <- <-]; split_and!; eauto]. simpl.
    assert (Hcb : clockBelow B w1) by by apply Hc, polling_before.
    pose proof (polling_slept w1 (later_world_ok _ _ Hl1) Hcb) as Hp2.
    assert (Hl2 : later w1 (sleepWorld (now w1 + pollInterval) w1)) by
      (apply later_sleep; [by eapply later_world_ok | apply clockBelow_now in Hcb; lia]).
    unfold timeSleep. simpl. intros E2. apply IH in E2 as (Hl3 & Hs3 & Hb3 & Hk3 & Hr); [|done|done| | |].
    + split; [by do 2 (eapply later_trans; [done|])|]. split; [done|]. split; [done|]. split; [|done].
      intros k'. eapply same_key_trans; [eapply same_key_widen; [apply Hk|by eapply later_trans]|apply Hk3].
    + intros t Ht Ht'. apply later_now in Hl2. rewrite Hk by lia. apply Hgone; lia.
    + rewrite now_sleep. unfold pollInterval, Millisecond in *. lia.
    + unfold pollInterval, Millisecond in *. lia.
  - destruct err as [e|]; [intros [= <- <- <-]; split_and!; eauto|].
    destruct ok; [destruct Hgot as (t & Ht & Et); rewrite Hgone in Et by lia; done|].
    intros [= <- <- <-]. split_and!; eauto.
Qed.
End Expiry.

Section Passes.
Context {S : Type} `{HS : Store S} `{HK : !KeySpace S} `{!StoreContract S} `{!CounterContract S} `{!OneView S} `{!Prompt S}.
Context `{!ReturnedSlices S} `{!OwnedCopies S}.
Implicit Types (w : World) (s : S).

Lemma pollTurns_enough wait : 0 <= wait ->
  wait <= pollInterval * (Z.of_nat (pollTurns wait) - 1) /\ (0 < pollTurns wait)%nat.
Proof.
  intros Hw. unfold pollTurns. assert (0 <= wait / pollInterval) by (apply Z.div_pos; done).
  rewrite Z2Nat.id by lia. pose proof (Z.mul_succ_div_gt wait pollInterval). unfold pollInterval, Millisecond in *. lia.
Qed.

Lemma checkExpiry_accepts ctx key ttl wait C w s v w' s' :
  (forall x y, x ∈ suiteNames -> y ∈ suiteNames -> x <> y -> apart (S := S) (key x) (key y)) -> storable (S := S) (key "ttl") ttl ->
  ttl_ok ttl -> ttl + sc_grain < wait -> ready C w s -> C + wait + pollInterval < now w + Second ->
  C + wait + pollInterval < horizon ->
  checkExpiry ctx key ttl wait w s = (v, w', s') -> checked key (C + wait + pollInterval) ["ttl"] w s v w' s'.
Proof.
  intros Hapart Hst Ht Hgrain Hr HC Hh. unfold checkExpiry. go_simpl.
  destruct (Store_Set _ _ _ _ w s) as [[err w1] s1] eqn:E1.
  eapply set_step in E1 as (Hl1 & (Hw1 & Hs1 & Hc1 & _) & Hk1 & Hset); [|done|done].
  destruct err as [e|]; [intros [= <- <- <-]; simpl; eauto|]. destruct (Hset Hst) as (_ & Hexp & _).
  unfold waitForMiss. go_simpl. pose proof (later_tick w1 Hw1) as Hlt. pose proof (clockBelow_now _ _ Hc1).
  pose proof sc_grain_nonneg as Hg. destruct Ht as [Htpos _]. destruct (pollTurns_enough wait ltac:(lia)) as [Hturns Hpos].
  destruct (pollMiss _ _ _ _ _ (tickWorld w1) s1) as [[r w2] s2] eqn:E2. apply later_now in Hlt as Hle.
  apply (pollMiss_accepts _ _ _ _ (C + wait)) in E2 as (Hl2 & Hs2 & Hb2 & Hk2 & Hr2);
    [|lia|lia| |done| |lia|done].
  - intros Ev. assert (Hcause : r = Some None -> checked key (C + wait + pollInterval) ["ttl"] w s None w2 s2).
    { intros _. pose proof (later_trans _ _ _ Hl1 (later_trans _ _ _ Hlt Hl2)) as Hl. split; [done|]. split.
      - split; [by eapply later_world_ok|]. apply later_now in Hl. split_and!; [done|done|lia].
      - intros x Hin Hx. eapply same_key_trans; [|apply Hk2]. eapply same_key_widen; [|exact (later_trans _ _ _ Hlt Hl2)].
        by apply (others_same key Hapart "ttl" _ _ _ ltac:(in_names) Hk1). }
    destruct Hr2 as [->|[e ->]]; injection Ev as <- <- <-; [by apply Hcause | simpl; eauto].
  - apply polling_below; [by eapply later_world_ok|]. intros i. specialize (Hc1 i). simpl. lia.
  - intros t Htd Htn. apply Hexp; lia.
Qed.

Lemma ready_more C C' w s : ready C w s -> C <= C' -> C' < now w + Second -> ready C' w s.
Proof. intros (? & ? & Hc & ?) ? ?. split_and!; [done|done| |done]. intros i. specialize (Hc i). lia. Qed.

(** C36: the store suite accepts every backend that keeps the store and counter contracts,
    shows a counter as the value of its key ([OneView]: the file, SQL and unthrottled DynamoDB
    stores), returns copies, and answers without waiting ([Prompt]).  On keys that
    the backend keeps apart and can record, of which the two named once and counter are absent,
    without the null semantics, and on a machine that reads no clock later than [C], with a
    second left after the wait for expiry, [RunStoreContract] passes, or fails with
    an error that the backend returned.  It never fails on a value, a count or an
    expiry, and its polling ends. *)
Theorem RunStoreContract_accepts testName opts C w s v w' s' :
  let key := suiteKey testName opts in
  NullSemantics opts = false -> world_ok w -> sc_ok s -> clockBelow C w ->
  C + suiteWait opts + pollInterval < now w + Second -> now w + Second < horizon ->
  (forall x y, x ∈ suiteNames -> y ∈ suiteNames -> x <> y -> apart (S := S) (key x) (key y)) ->
  (forall x, x ∈ suiteNames -> storable (S := S) (key x) Second) -> storable (S := S) (key "ttl") (suiteTTL opts) ->
  ttl_ok (suiteTTL opts) -> suiteTTL opts + sc_grain < suiteWait opts ->
  removed sc_peek w s (key "once") -> removed sc_peek w s (key "counter") ->
  RunStoreContract testName opts w s = (v, w', s') -> blameless v.
Proof.
  intros key Hnull Hw Hs Hc HC Hh Hapart Hsecond Hst Ht Hgrain Honce Hcounter. unfold RunStoreContract. fold key.
  pose proof sc_grain_nonneg as Hg. assert (Hpos : 0 < suiteWait opts) by (destruct Ht; lia).
  assert (Hr : ready C w s) by (split_and!; [done..|unfold pollInterval, Millisecond in *; lia]).
  set (C' := C + suiteWait opts + pollInterval). assert (HCC : C <= C') by (unfold C', pollInterval, Millisecond; lia).
  intros [(w1 & s1 & E1 & E)|(f & -> & E)]%andThen_inv;
    [|by eapply checked_blameless, (checkSetGet_accepts _ key)].
  eapply (checkSetGet_accepts Background key) in E1 as (Hl1 & Hr1 & Hk1); [|done..].
  pose proof (later_now _ _ Hl1). assert (HC1 : C' < now w1 + Second) by (unfold C'; lia).
  assert (Hexp : forall v' w2 s2, checkExpiry Background key (suiteTTL opts) (suiteWait opts) w1 s1 = (v', w2, s2) ->
    checked key C' ["ttl"] w1 s1 v' w2 s2).
  { intros v' w2 s2 E2. unfold C'. apply (checkExpiry_accepts Background key (suiteTTL opts)); try done. unfold C' in HC1. lia. }
  apply andThen_inv in E as [(w2 & s2 & E2 & E)|(f & -> & E)]; [|by eapply checked_blameless, Hexp].
  apply Hexp in E2 as (Hl2 & Hr2 & Hk2).
  assert (Hfresh : forall x, x ∈ suiteNames -> x ∉ ["alpha"] -> x ∉ ["ttl"] -> removed sc_peek w s (key x) -> removed sc_peek w2 s2 (key x)).
  { intros x Hin Hx Hx' Hrem. eapply removed_same_key; [|by apply Hk2].
    eapply removed_widen; [|done]. eapply removed_same_key; [by eapply removed_widen|by apply Hk1]. }
  apply Hfresh in Honce, Hcounter; [|in_names || by intros ?%list_elem_of_singleton..].
  apply andThen_inv in E as [(w3 & s3 & E3 & E)|(f & -> & E)]; [|by eapply checked_blameless, (checkAdd_accepts Background key opts C')].
  eapply (checkAdd_accepts Background key) in E3 as (Hl3 & Hr3 & Hk3); [|done..].
  assert (Hcounter3 : removed sc_peek w3 s3 (key "counter")).
  { eapply removed_same_key; [by eapply removed_widen|]. apply Hk3; [in_names|]. by intros ?%list_elem_of_singleton. }
  apply andThen_inv in E as [(w4 & s4 & E4 & E)|(f & -> & E)]; [|by eapply checked_blameless, (checkCounters_accepts Background key opts C')].
  eapply (checkCounters_accepts Background key) in E4 as (Hl4 & Hr4 & _); [|done..].
  apply andThen_inv in E as [(w5 & s5 & E5 & E)|(f & -> & E)]; [|by eapply (checkDelete_accepts _ key) in E as [? _]].
  eapply (checkDelete_accepts Background key) in E5 as [_ Hd]; [|done..]. destruct (Hd eq_refl) as [_ Hr5].
  by eapply (checkFlush_accepts Background key).
Qed.
End Passes.
