(* ===== verification/SuiteRuns.v ===== *)
(** * Running the contract suites

    The SQL and DynamoDB stores satisfy the conditions of
    [RunStoreContract_accepts] over any database or table that answers without
    waiting; and both suites, executed against the stores of this development. *)

From S2P Require Import Prelude GoStd CacheCore InspectHelpers Shaping Wrapping MemoryStore Sha256 FileStore FileLaws Backends Rows.
From S2P Require Import SqlStore SqlContract DynamoStore DynamoContract DynamoTable CacheTest.

(** ** Promptness *)

Create HintDb prompt.

Section Clock.
Context {S A B : Type}.

Lemma keepsClock_ret (a : A) : keepsClock (ret (S := S) a).
Proof. done. Qed.
Lemma keepsClock_get : keepsClock (get (S := S)).
Proof. done. Qed.
Lemma keepsClock_timeNow : keepsClock (timeNow (S := S)).
Proof. done. Qed.

Lemma keepsClock_put (s : S) : keepsClock (put s).
Proof. done. Qed.

Lemma keepsClock_bind (m : M S A) (k : A -> M S B) :
  keepsClock m -> (forall a, keepsClock (k a)) -> keepsClock (bind m k).
Proof.
  intros Hm Hk w s. unfold bind. specialize (Hm w s). destruct (m w s) as [[a w1] s1]. rewrite <- Hm. apply Hk.
Qed.

Lemma keepsClock_zoom {T} (view : T -> S) upd (m : M S A) : keepsClock m -> keepsClock (zoom view upd m).
Proof. intros Hm w t. specialize (Hm w (view t)). unfold zoom. by destruct (m w (view t)) as [[a w1] s1]. Qed.
End Clock.
#[export] Hint Resolve keepsClock_ret keepsClock_get keepsClock_put keepsClock_timeNow keepsClock_zoom : prompt.

(** Case analyses inside a computation. *)
Ltac prompt :=
  repeat first
    [ solve [eauto 3 with prompt]
    | apply keepsClock_bind; [|intros]
    | progress cbv beta zeta
    | case_match ].

(** System calls take no time in the model, and the file store makes no others. *)
Section File.
Context `{FileJSON}.

Lemma osFault_prompt : keepsClock osFault.
Proof. done. Qed.
#[local] Hint Resolve osFault_prompt : prompt.

Lemma osCall_prompt {A} (failed : error -> A) act : keepsClock act -> keepsClock (osCall failed act).
Proof. intros Ha. unfold osCall. prompt. Qed.

Lemma os_prompt {A} (m : M Disk A) : keepsClock m -> keepsClock (os m).
Proof. apply keepsClock_zoom. Qed.

Lemma osReadFile_prompt name : keepsClock (osReadFile name).
Proof. apply osCall_prompt. prompt. Qed.
Lemma osRemove_prompt name : keepsClock (osRemove name).
Proof. apply osCall_prompt. prompt. Qed.
Lemma osCreateTemp_prompt p : keepsClock (osCreateTemp p).
Proof. apply osCall_prompt. prompt. Qed.
Lemma osRename_prompt a b : keepsClock (osRename a b).
Proof. apply osCall_prompt. prompt. Qed.
Lemma osReadDir_prompt : keepsClock osReadDir.
Proof. apply osCall_prompt. prompt. Qed.
Lemma osWrite_prompt name data : keepsClock (osWrite name data).
Proof. unfold osWrite. prompt. Qed.
Lemma osFlushFile_prompt : keepsClock osFlushFile.
Proof. unfold osFlushFile. prompt. Qed.
#[local] Hint Resolve os_prompt osReadFile_prompt osRemove_prompt osCreateTemp_prompt osRename_prompt osReadDir_prompt
  osWrite_prompt osFlushFile_prompt : prompt.

Lemma fs_get_prompt k : keepsClock (fs_get k).
Proof. unfold fs_get. prompt. Qed.
Lemma fs_set_prompt k v ttl : keepsClock (fs_set k v ttl).
Proof. unfold fs_set, fs_commit, discard. prompt. Qed.
Lemma fs_delete_prompt k : keepsClock (fs_delete k).
Proof. unfold fs_delete. prompt. Qed.
#[local] Hint Resolve fs_get_prompt fs_set_prompt fs_delete_prompt : prompt.

Lemma fs_Increment_prompt ctx k d ttl : keepsClock (fs_Increment ctx k d ttl).
Proof. unfold fs_Increment, fs_writeCounter. prompt. Qed.
#[local] Hint Resolve fs_Increment_prompt : prompt.

Lemma forErr_prompt {S A} (body : A -> M S (option error)) xs :
  (forall x, keepsClock (body x)) -> keepsClock (forErr body xs).
Proof. intros Hb. induction xs as [|x xs IH]; cbn [forErr]; prompt. Qed.

#[export] Instance fileStore_prompt : Prompt fileStore.
Proof.
  split; intros; cbn [Store_Get Store_Set Store_Add Store_Increment Store_Decrement Store_Delete Store_DeleteMany Store_Flush fileStore_Store].
  - unfold fs_Get. prompt.
  - unfold fs_Set. prompt.
  - unfold fs_Add. prompt.
  - prompt.
  - unfold fs_Decrement. prompt.
  - unfold fs_Delete. prompt.
  - apply forErr_prompt. prompt.
  - unfold fs_Flush. prompt. apply forErr_prompt. intros [name dir]. unfold flushEntry. prompt.
Qed.

#[export] Instance fileStore_oneView : OneView fileStore.
Proof. by split. Qed.
End File.

(** A database that answers at once. *)
Class PromptDB (D : Type) `{SqlDB D} := {
  pd_exec ctx q args : keepsClock (db_Exec (D := D) ctx q args);
  pd_row ctx q args : keepsClock (db_QueryRow (D := D) ctx q args);
  pd_begin ctx : keepsClock (db_BeginTx (D := D) ctx);
  pd_txRow ctx q args : keepsClock (tx_QueryRow (D := D) ctx q args);
  pd_txExec ctx q args : keepsClock (tx_Exec (D := D) ctx q args);
  pd_commit : keepsClock (tx_Commit (D := D));
  pd_rollback : keepsClock (tx_Rollback (D := D))
}.
#[export] Hint Resolve pd_exec pd_row pd_begin pd_txRow pd_txExec pd_commit pd_rollback : prompt.

Section Sql.
Context {D : Type} `{PromptDB D}.

Lemma onDB_prompt {A} (m : M D A) : keepsClock m -> keepsClock (onDB m).
Proof. apply keepsClock_zoom. Qed.
#[local] Hint Resolve onDB_prompt : prompt.

Lemma sql_Delete_prompt ctx k : keepsClock (sql_Delete (D := D) ctx k).
Proof. unfold sql_Delete. prompt. Qed.
#[local] Hint Resolve sql_Delete_prompt : prompt.

Lemma sql_Increment_prompt ctx k d ttl : keepsClock (sql_Increment (D := D) ctx k d ttl).
Proof. unfold sql_Increment, incrementTx, currentOf. prompt. apply onDB_prompt. prompt. Qed.
#[local] Hint Resolve sql_Increment_prompt : prompt.

#[export] Instance sqlStore_prompt : Prompt (sqlStore D).
Proof.
  split; intros; cbn [Store_Get Store_Set Store_Add Store_Increment Store_Decrement Store_Delete Store_DeleteMany Store_Flush sqlStore_Store].
  - unfold sql_Get. prompt.
  - unfold sql_Set. prompt.
  - unfold sql_Add. prompt.
  - prompt.
  - unfold sql_Decrement. prompt.
  - prompt.
  - unfold sql_DeleteMany. prompt.
  - unfold sql_Flush. prompt.
Qed.
End Sql.

#[export] Instance sqlStore_oneView {D drv tbl} `{SqlLaws D drv tbl} : OneView (sqlStore D).
Proof. by split. Qed.

(** A table that answers at once. *)
Class PromptTable (D : Type) `{DynamoAPI D} := {
  pt_get ctx t k : keepsClock (dy_GetItem (D := D) ctx t k);
  pt_put ctx t it c : keepsClock (dy_PutItem (D := D) ctx t it c);
  pt_delete ctx t k c : keepsClock (dy_DeleteItem (D := D) ctx t k c);
  pt_batch ctx t ks : keepsClock (dy_BatchWriteItem (D := D) ctx t ks);
  pt_scan ctx t p k : keepsClock (dy_Scan (D := D) ctx t p k)
}.
#[export] Hint Resolve pt_get pt_put pt_delete pt_batch pt_scan : prompt.

Section Dynamo.
Context {D : Type} `{PromptTable D}.
Implicit Types s : dynamoStore D.

Lemma onDynamo_prompt {A} (nil : A) (body : dynamoStore D -> M D A) :
  (forall s, keepsClock (body s)) -> keepsClock (onDynamo nil body).
Proof.
  intros Hb w s. unfold onDynamo. destruct (dn_client s) as [d|]; [|done]. specialize (Hb s w d).
  by destruct (body s w d) as [[a w1] d1].
Qed.

Lemma dyn_expired_prompt it : keepsClock (dyn_expired (D := D) it).
Proof. unfold dyn_expired. prompt. Qed.
#[local] Hint Resolve dyn_expired_prompt : prompt.

Lemma itemGet_prompt s ctx k : keepsClock (itemGet s ctx k).
Proof. unfold itemGet. prompt. Qed.

Lemma itemSet_prompt s ctx k v ttl : keepsClock (itemSet s ctx k v ttl).
Proof. unfold itemSet. prompt. Qed.
#[local] Hint Resolve itemGet_prompt itemSet_prompt : prompt.

Lemma deleteBatches_prompt n s ctx ks : keepsClock (deleteBatches n s ctx ks).
Proof. revert ks. induction n as [|n IH]; intros ks; destruct ks; cbn [deleteBatches]; prompt. Qed.

Lemma itemsDelete_prompt s ctx ks : keepsClock (itemsDelete s ctx ks).
Proof. unfold itemsDelete. case_match; [apply keepsClock_ret | apply deleteBatches_prompt]. Qed.
#[local] Hint Resolve itemsDelete_prompt : prompt.

Lemma flushScan_prompt n s ctx p : keepsClock (flushScan n s ctx p).
Proof. revert p. induction n as [|n IH]; intros p; cbn [flushScan]; prompt. Qed.
#[local] Hint Resolve flushScan_prompt : prompt.

Lemma itemIncrement_prompt s ctx k d ttl : keepsClock (itemIncrement s ctx k d ttl).
Proof. unfold itemIncrement, incrementRest. prompt. Qed.
#[local] Hint Resolve itemIncrement_prompt : prompt.

#[export] Instance dynamoStore_prompt : Prompt (dynamoStore D).
Proof.
  split; intros; apply onDynamo_prompt; intros s; prompt.
Qed.
End Dynamo.

#[export] Instance dynamoStore_oneView {D tbl} `{DynamoLaws D tbl} `{!DynamoUnthrottled D} : OneView (dynamoStore D).
Proof. by split. Qed.

(** ** Runs

    The stores of the repository return slices of their own making: the memory store clones
    the value, the others build it from what they read. *)

Module SuiteRuns.
#[export] Existing Instances FileRuns.noJSON GoMap.engine_GoCache SqliteTable.sqlite MemTable.dynamo copied.

(** A machine that reads the clock a thousand times within a millisecond. *)
Definition clock : World :=
  mkWorld (fun i => 1000000000 + 1000 * Z.min (Z.of_nat i) 1000) 0 (fun _ n => inl (replicate n x2a)) (fun _ => true) 0.
Definition endOfTime : Z := 1001000000.

Lemma suite_clock_ok : world_ok clock.
Proof.
  split; [|split]; simpl; unfold horizon.
  - lia.
  - lia.
  - intros _ n b [= <-]. apply length_replicate.
Qed.

Lemma suite_clock_below : clockBelow endOfTime clock.
Proof. intros i. unfold endOfTime. simpl. lia. Qed.

Definition opts (null : bool) : Options := mkOptions "File/Store Contract" null false 0 0 false.
Definition fileRun := RunStoreContract EmptyString (opts false) clock FileRuns.store0.

Definition fileKey : string -> string := suiteKey EmptyString (opts false).

(** The digests of the seven keys differ. *)
Lemma suite_keys_apart x y : x ∈ suiteNames -> y ∈ suiteNames -> x <> y -> apart (S := fileStore) (fileKey x) (fileKey y).
Proof.
  intros Hx Hy Hne.
  assert (Hall : Forall (fun x => Forall (fun y => x = y \/
    Sum256 (bytes_of_string (fileKey x)) <> Sum256 (bytes_of_string (fileKey y))) suiteNames) suiteNames).
  { apply (bool_decide_unpack _). vm_compute. exact I. }
  rewrite list.Forall_forall in Hall. specialize (Hall x Hx). rewrite list.Forall_forall in Hall.
  by destruct (Hall y Hy).
Qed.

Lemma suite_keys_short : Forall (fun x => slen (fileKey x) < 4294967296) suiteNames.
Proof. apply (bool_decide_unpack _). vm_compute. exact I. Qed.

(** The other stores of the repository, empty. *)
Definition memory0 : memoryStore GoMap.engine := newMemoryStore 0 0.
(** A memory store that hands out the slices it holds. *)
Definition aliased : ReturnedSlices (memoryStore GoMap.engine) :=
  {| write_returned := fun k b => let* _ := Store_Set Background k b Second in ret tt |}.
Definition sql0 : sqlStore SqliteTable.db := SqlRuns.over (SqliteTable.mkDB ∅ None) "app".
Definition dynamo0 : dynamoStore MemTable.table := DynRuns.over (MemTable.mkTable ∅ true 25 0) "app".
End SuiteRuns.
#[local] Existing Instances FileRuns.noJSON GoMap.engine_GoCache SqliteTable.sqlite MemTable.dynamo copied.

Lemma RunStoreContract_accepts_witness :
  rv SuiteRuns.fileRun = None /\ blameless (rv SuiteRuns.fileRun).
Proof.
  split; [vm_compute; reflexivity|].
  refine (RunStoreContract_accepts EmptyString (SuiteRuns.opts false) SuiteRuns.endOfTime SuiteRuns.clock FileRuns.store0
    (rv SuiteRuns.fileRun) (wv SuiteRuns.fileRun) (sv SuiteRuns.fileRun)
    eq_refl SuiteRuns.suite_clock_ok store0_ok SuiteRuns.suite_clock_below eq_refl eq_refl _ _ _ _ eq_refl _ _ _).
  - exact SuiteRuns.suite_keys_apart.
  - exact (proj1 (list.Forall_forall _ _) SuiteRuns.suite_keys_short).
  - reflexivity.
  - split; reflexivity.
  - intros t _. vm_compute. reflexivity.
  - intros t _. vm_compute. reflexivity.
  - exact (run_eta SuiteRuns.fileRun (rv SuiteRuns.fileRun) eq_refl).
Defined.

(** The null store passes the suite with its own semantics, whatever the options,
    the name of the test and the clock. *)
Theorem RunStoreContract_null testName opts w s :
  NullSemantics opts = true -> rv (RunStoreContract (S := nullStore) testName opts w s) = None.
Proof.
  intros Hn. unfold RunStoreContract, checkSetGet, checkExpiry, waitForMiss, checkAdd, checkCounters, checkFlush, pollTurns.
  rewrite Hn. assert (exists n, Z.to_nat (suiteWait opts / pollInterval + 2) = Datatypes.S n) as [n ->].
  { exists (Z.to_nat (suiteWait opts / pollInterval + 1)). rewrite <- Z2Nat.inj_succ; [f_equal; lia|].
    assert (0 <= suiteWait opts / pollInterval); [|lia]. apply Z.div_pos; [|done]. unfold suiteWait.
    destruct (Z.leb_spec (TTLWait opts) 0); [done | lia]. }
  cbn [pollMiss]. unfold andThen, must, mustMiss. go_simpl. simpl. destruct (_ <? _); by destruct (SkipFlush opts).
Qed.

(** The stores of the repository pass both suites. *)
Example stores_pass_the_suites :
  let run {S} `{Store S} (s : S) := rv (RunStoreContract "T" (SuiteRuns.opts false) SuiteRuns.clock s) in
  let inspect {S} `{Store S} (s : S) := rv (RunInspectorContract SuiteRuns.clock s) in
  run SuiteRuns.memory0 = None /\ run SuiteRuns.sql0 = None /\ run SuiteRuns.dynamo0 = None /\
  inspect SuiteRuns.memory0 = None /\ inspect FileRuns.store0 = None /\ inspect SuiteRuns.dynamo0 = None.
Proof. vm_compute. by split_and!. Qed.

(** The clone check finds a store that does not own its values. *)
Example clone_check_detects :
  rv (RunStoreContract (ReturnedSlices0 := SuiteRuns.aliased) "T" (SuiteRuns.opts false) SuiteRuns.clock SuiteRuns.memory0) =
    Some (mkFailure "expected stored value unchanged, got ok=%v body=%q err=%v" [ArgBool true; ArgString "Xalue"; ArgErr None] None).
Proof. vm_compute. reflexivity. Qed.
