(* ===== verification/CacheSpec.v ===== *)
(** * What a client of the cache may observe

    An abstract cache, and a checker that decides whether a history, the calls of a
    client with their results and times, is one the abstract cache allows.  For every key
    it keeps what the key may hold, several possibilities where a call has failed.  It
    rejects a history with a stale or invented value, a lost or invented count, a value
    that outlives its TTL, or one that is gone before.  The theorem at the end: every
    history of the facade over a backend that keeps the contracts is allowed.  [Observable]
    is what it asks of the backend; the file, SQL, DynamoDB, Redis and NATS stores have it. *)

From stdpp Require Import functions.
From S2P Require Import Prelude GoStd CacheCore InspectHelpers Shaping Wrapping MemoryStore Cache CacheLaws Locks Remember RateLimit Api CacheTest.
From S2P Require Import RedisStore RedisContract NatsStore NatsContract NatsLaws Rows SqlStore SqlContract SuiteRuns.

(** ** The abstract cache *)

(** What a key may hold: anything, nothing, or a value that is certain to be visible up
    to an instant and certain to be gone after another. *)
Inductive cell :=
| Unknown
| Gone
| Held (v : bytes) (sure limit : Z).

(** The possibilities for each key. *)
Abbreviation knowledge := (string -> list cell).
Definition nothingKnown : knowledge := fun _ => [Unknown].

(** May a read between [t0] and [t1] find [v]? *)
Definition may (t0 t1 : Z) (v : option bytes) (x : cell) : bool :=
  match x, v with
  | Unknown, _ => true
  | Gone, None => true
  | Gone, Some _ => false
  | Held b _ limit, Some b' => bool_decide (b' = b) && (t0 <=? limit)
  | Held _ sure _, None => sure <? t1
  end.

(** May it find the key taken? *)
Definition mayHold (t0 : Z) (x : cell) : bool :=
  match x with Unknown => true | Gone => false | Held _ _ limit => t0 <=? limit end.

(** May a counter that is changed by [delta] come to [n]? *)
Definition mayCount (t0 t1 delta n : Z) (x : cell) : bool :=
  match x with
  | Unknown => true
  | Gone => n =? wrap64 delta
  | Held b sure limit =>
      match ParseInt (string_of_bytes b) with
      | Some c => (t0 <=? limit) && (n =? wrap64 (c + delta))
      | None => false
      end || (sure <? t1) && (n =? wrap64 delta)
  end.

(** ** Histories *)

Inductive call :=
| CGet (key : string)
| CGetString (key : string)
| CBatchGet (keys : list string)
| CPull (key : string)
| CSet (key : string) (value : bytes) (ttl : Z)
| CSetString (key value : string) (ttl : Z)
| CBatchSet (values : list (string * bytes)) (ttl : Z)
| CAdd (key : string) (value : bytes) (ttl : Z)
| CIncrement (key : string) (delta ttl : Z)
| CDecrement (key : string) (delta ttl : Z)
| CDelete (key : string)
| CDeleteMany (keys : list string)
| CFlush.

Inductive outcome :=
| OValue (b : bytes) (ok : bool) (err : option error)
| OText (s : string) (ok : bool) (err : option error)
| OMap (m : gmap string bytes) (err : option error)
| OFlag (b : bool) (err : option error)
| OCount (n : Z) (err : option error)
| ODone (err : option error).

(** A call that began at [ev_start] and returned at [ev_end]. *)
Record event := mkEvent { ev_call : call; ev_out : outcome; ev_start : Z; ev_end : Z }.

(** A call of a method of the interface. *)
Definition perform {C} (api : CacheAPI C) (op : call) : M C outcome :=
  match op with
  | CGet k => let* r := api_GetBytes api k in let '(b, ok, err) := r in ret (OValue b ok err)
  | CGetString k => let* r := api_GetString api k in let '(s, ok, err) := r in ret (OText s ok err)
  | CBatchGet ks => let* r := api_BatchGetBytes api ks in let '(m, err) := r in ret (OMap m err)
  | CPull k => let* r := api_PullBytes api k in let '(b, ok, err) := r in ret (OValue b ok err)
  | CSet k v ttl => let* err := api_SetBytes api k v ttl in ret (ODone err)
  | CSetString k v ttl => let* err := api_SetString api k v ttl in ret (ODone err)
  | CBatchSet kvs ttl => let* err := api_BatchSetBytes api kvs ttl in ret (ODone err)
  | CAdd k v ttl => let* r := api_Add api k v ttl in let '(b, err) := r in ret (OFlag b err)
  | CIncrement k d ttl => let* r := api_Increment api k d ttl in let '(n, err) := r in ret (OCount n err)
  | CDecrement k d ttl => let* r := api_Decrement api k d ttl in let '(n, err) := r in ret (OCount n err)
  | CDelete k => let* err := api_Delete api k in ret (ODone err)
  | CDeleteMany ks => let* err := api_DeleteMany api ks in ret (ODone err)
  | CFlush => let* err := api_Flush api in ret (ODone err)
  end.

(** A client that makes any calls it likes, depending on the results, with any time
    between them. *)
Inductive history {C} (api : CacheAPI C) : World -> C -> list event -> World -> C -> Prop :=
| history_nil w c : history api w c [] w c
| history_cons w c w0 op out w1 c1 evs w2 c2 :
    later w w0 -> perform api op w0 c = (out, w1, c1) -> history api w1 c1 evs w2 c2 ->
    history api w c (mkEvent op out (now w0) (now w1) :: evs) w2 c2.

(** The history of a client that makes the calls [ops] without a pause. *)
Fixpoint record {C} (api : CacheAPI C) (ops : list call) : M C (list event) :=
  match ops with
  | [] => ret []
  | op :: rest => fun w c =>
      let '(out, w1, c1) := perform api op w c in
      let '(evs, w2, c2) := record api rest w1 c1 in (mkEvent op out (now w) (now w1) :: evs, w2, c2)
  end.

(** ** The checker *)

Section Checker.
(** The TTL that stands for a TTL of zero or less, and the resolution of the backend's
    clock. *)
Variables (dflt grain : Z).

Definition effective (ttl : Z) : Z := if ttl >? 0 then ttl else dflt.

(** A value given for [ttl] by a call between [t0] and [t1]. *)
Definition held (t0 t1 ttl : Z) (v : bytes) : cell := Held v (t0 + effective ttl) (t1 + effective ttl + grain).

(** The possibilities for [k] that agree with what was seen; none is a contradiction. *)
Definition narrow (p : cell -> bool) (k : string) (a : knowledge) : option knowledge :=
  match filter (fun x => p x = true) (a k) with [] => None | xs => Some (<[k := xs]> a) end.

Definition sees (t0 t1 : Z) (k : string) (v : option bytes) : knowledge -> option knowledge := narrow (may t0 t1 v) k.

Fixpoint seesAll (t0 t1 : Z) (ks : list string) (m : gmap string bytes) (a : knowledge) : option knowledge :=
  match ks with
  | [] => Some a
  | k :: rest => a' ← sees t0 t1 k (m !! k) a; seesAll t0 t1 rest m a'
  end.

(** These keys hold what is given with them, or all the same. *)
Definition assign (kxs : list (string * list cell)) (a : knowledge) : knowledge := foldr (fun kx a => <[kx.1 := kx.2]> a) a kxs.
Definition setAll (xs : list cell) (ks : list string) : knowledge -> knowledge := assign ((fun k => (k, xs)) <$> ks).

Definition check (a : knowledge) (ev : event) : option knowledge :=
  let t0 := ev_start ev in
  let t1 := ev_end ev in
  match ev_call ev, ev_out ev with
  | CGet k, OValue b true None => sees t0 t1 k (Some b) a
  | CGet k, OValue _ false None => sees t0 t1 k None a
  | CGet _, OValue _ false (Some _) => Some a
  | CGetString k, OText s true None => sees t0 t1 k (Some (bytes_of_string s)) a
  | CGetString k, OText EmptyString false None => sees t0 t1 k None a
  | CGetString _, OText EmptyString false (Some _) => Some a
  | CBatchGet ks, OMap m None => if decide (dom m ⊆ list_to_set ks) then seesAll t0 t1 ks m a else None
  | CBatchGet _, OMap m (Some _) => if decide (m = ∅) then Some a else None
  | CPull k, OValue b true None => a ← sees t0 t1 k (Some b) a; Some (<[k := [Gone]]> a)
  | CPull k, OValue [] false None => sees t0 t1 k None a
  | CPull k, OValue [] false (Some _) => Some (<[k := Gone :: a k]> a)
  | CSet k v ttl, ODone None => Some (<[k := [held t0 t1 ttl v]]> a)
  | CSet k v ttl, ODone (Some _) => Some (<[k := held t0 t1 ttl v :: a k]> a)
  | CSetString k v ttl, ODone None => Some (<[k := [held t0 t1 ttl (bytes_of_string v)]]> a)
  | CSetString k v ttl, ODone (Some _) => Some (<[k := held t0 t1 ttl (bytes_of_string v) :: a k]> a)
  | CBatchSet kvs ttl, ODone None => Some (assign ((fun kv => (kv.1, [held t0 t1 ttl kv.2])) <$> kvs) a)
  | CBatchSet kvs _, ODone (Some _) => Some (setAll [Unknown] kvs.*1 a)
  | CAdd k v ttl, OFlag true None => a ← sees t0 t1 k None a; Some (<[k := [held t0 t1 ttl v]]> a)
  | CAdd k _ _, OFlag false None => narrow (mayHold t0) k a
  | CAdd k v ttl, OFlag false (Some _) => Some (<[k := held t0 t1 ttl v :: a k]> a)
  | CIncrement k d ttl, OCount n None =>
      a ← narrow (mayCount t0 t1 d n) k a; Some (<[k := [held t0 t1 ttl (bytes_of_string (FormatInt n))]]> a)
  | CDecrement k d ttl, OCount n None =>
      a ← narrow (mayCount t0 t1 (wrap64 (- d)) n) k a; Some (<[k := [held t0 t1 ttl (bytes_of_string (FormatInt n))]]> a)
  | CIncrement k _ _, OCount 0 (Some _) | CDecrement k _ _, OCount 0 (Some _) => Some (<[k := [Unknown]]> a)
  | CDelete k, ODone None => Some (<[k := [Gone]]> a)
  | CDelete k, ODone (Some _) => Some (<[k := Gone :: a k]> a)
  | CDeleteMany ks, ODone None => Some (setAll [Gone] ks a)
  | CDeleteMany ks, ODone (Some _) => Some (setAll [Unknown] ks a)
  | CFlush, ODone None => Some (fun _ => [Gone])
  | CFlush, ODone (Some _) => Some nothingKnown
  | _, _ => None
  end.

Fixpoint checkAll (a : knowledge) (evs : list event) : option knowledge :=
  match evs with
  | [] => Some a
  | ev :: rest => a' ← check a ev; checkAll a' rest
  end.
End Checker.

(** ** The facade behind the specification *)

(** What a backend promises beyond [StoreContract]: an [Add] meets only what a read finds,
    and, if [ob_counts] says so, counters are kept in the same view. *)
Class Observable (S : Type) `{HS : Store S} `{HK : !KeySpace S} `{!StoreContract S} := {
  ob_occupied (s : S) t k : sc_occupied s t k -> is_Some (sc_peek s t k);
  ob_counts : bool;
  ob_grain : Z;
  ob_increment ctx k delta ttl w (s : S) r w' s' :
    ob_counts = true -> world_ok w -> sc_ok s -> ttl_ok ttl -> Store_Increment ctx k delta ttl w s = (r, w', s') ->
    later w w' /\ sc_ok s' /\ increment_post sc_peek ob_grain k delta ttl w s r w' s';
  ob_decrement ctx k delta ttl w (s : S) r w' s' :
    ob_counts = true -> world_ok w -> sc_ok s -> ttl_ok ttl -> Store_Decrement ctx k delta ttl w s = (r, w', s') ->
    later w w' /\ sc_ok s' /\ increment_post sc_peek ob_grain k (wrap64 (- delta)) ttl w s r w' s'
}.

(** The file, SQL and DynamoDB stores. *)
#[export] Instance oneView_observable {S} `{HS : Store S} `{HK : !KeySpace S} `{!StoreContract S} `{!CounterContract S} `{!OneView S} :
  Observable S.
Proof.
  refine {| ob_occupied := ov_occupied; ob_counts := true; ob_grain := cc_grain (S := S) |};
    intros ctx k delta ttl w s r w' s' _ Hw Hs Ht E; [apply cc_increment in E | apply cc_decrement in E]; try done; try (by apply ov_ok);
    rewrite ov_peek in E; by rewrite ov_ok.
Defined.

(** The Redis store, whose counters may expire between the two commands of an increment,
    and the NATS store among other clients that leave its keys alone. *)
#[export] Instance redisStore_observable {R} `{RedisLaws R} : Observable (redisStore R).
Proof. refine {| ob_counts := false; ob_grain := 0 |}; by intros. Defined.

#[export] Instance natsStore_observable {K} `{BucketLaws K} `{!NatsAlone K} `{EnvelopeJSON} : Observable (natsStore K).
Proof. refine {| ob_counts := false; ob_grain := 0 |}; by intros. Defined.

Section Refines.
Context {S : Type} `{HS : Store S} `{HK : !KeySpace S} `{!StoreContract S} `{!Observable S}.
Implicit Types (s : S) (c : Cache S) (a : knowledge) (x : cell) (w : World).

(** The client's keys, which the backend keeps apart. *)
Variable K : string -> Prop.
Hypothesis Hapart : forall k k', K k -> K k' -> k <> k' -> apart (S := S) k k'.

#[local] Abbreviation peek := (sc_peek (S := S)).
Definition specGrain : Z := Z.max (sc_grain (S := S)) (ob_grain (S := S)).

(** From [t] on, [k] reads in [s] as [x] says. *)
Definition cell_ok s (t : Z) (k : string) x : Prop :=
  match x with
  | Unknown => True
  | Gone => forall t', t <= t' -> peek s t' k = None
  | Held v sure limit => forall t', t <= t' ->
      (t' <= sure -> peek s t' k = Some v) /\ (limit < t' -> peek s t' k = None) /\ (forall b, peek s t' k = Some b -> b = v)
  end.

(** One of the possibilities for each of the client's keys is what it holds. *)
Definition known a w s : Prop := forall k, K k -> exists x, x ∈ a k /\ cell_ok s (now w) k x.

Lemma nothing_known w s : known nothingKnown w s.
Proof. intros k _. exists Unknown. split; [by left | done]. Qed.

Lemma cell_ok_same w w' s s' k x :
  now w <= now w' -> same_key peek w' s s' k -> cell_ok s (now w) k x -> cell_ok s' (now w') k x.
Proof.
  intros Hl Hs. destruct x as [| |v sure limit]; [done|..]; intros Hx t Ht; rewrite (Hs t Ht); apply Hx; lia.
Qed.

Lemma known_frame a w w' s s' :
  now w <= now w' -> (forall k, K k -> same_key peek w' s s' k) -> known a w s -> known a w' s'.
Proof. intros Hl Hs Ha k Hk. destruct (Ha k Hk) as (x & Hx & Hok). exists x. split; [done|]. by apply (cell_ok_same w w' s s'); auto. Qed.

Lemma known_later a w w' s : later w w' -> known a w s -> known a w' s.
Proof. intros Hl%later_now. apply known_frame; [done|]. intros k _. apply same_key_refl. Qed.

(** An operation on [k] that leaves the other keys alone. *)
Lemma known_update a k xs w w' s s' :
  now w <= now w' -> K k -> (forall k', apart (S := S) k' k -> same_key peek w' s s' k') ->
  (exists x, x ∈ xs /\ cell_ok s' (now w') k x) -> known a w s -> known (<[k := xs]> a) w' s'.
Proof.
  intros Hl Hk Hs Hx Ha k' Hk'. destruct (decide (k' = k)) as [->|Hne]; [by rewrite fn_lookup_insert|].
  rewrite fn_lookup_insert_ne by congruence. destruct (Ha k' Hk') as (x & Hin & Hok). exists x. split; [done|].
  apply (cell_ok_same w w' s s'); auto.
Qed.

(** One that may not have taken effect. *)
Lemma known_maybe a k x w w' s s' :
  now w <= now w' -> K k -> (forall k', apart (S := S) k' k -> same_key peek w' s s' k') ->
  (forall k', same_key peek w' s s' k') \/ cell_ok s' (now w') k x -> known a w s -> known (<[k := x :: a k]> a) w' s'.
Proof.
  intros Hl Hk Hs Hor Ha. eapply known_update; [done..| |done]. destruct Hor as [Hsame|Hx].
  - destruct (Ha k Hk) as (y & Hy & Hok). exists y. split; [by right|]. by apply (cell_ok_same w w' s s').
  - exists x. split; [by left | done].
Qed.

(** What was seen agrees with what the key holds, so that narrowing loses nothing. *)
Lemma narrow_known p k a w s :
  K k -> (forall x, cell_ok s (now w) k x -> p x = true) -> known a w s -> exists a', narrow p k a = Some a' /\ known a' w s.
Proof.
  intros Hk Hp Ha. destruct (Ha k Hk) as (x & Hx & Hok). unfold narrow.
  assert (x ∈ filter (fun x => p x = true) (a k)) as Hin by (apply list_elem_of_filter; auto).
  destruct (filter _ (a k)) as [|y xs]; [by apply elem_of_nil in Hin|]. eexists. split; [done|].
  intros k' Hk'. destruct (decide (k' = k)) as [->|Hne]; [rewrite fn_lookup_insert; by exists x|].
  rewrite fn_lookup_insert_ne by congruence. by apply Ha.
Qed.

Lemma seen_may w w' s k v x : cell_ok s (now w) k x -> seen peek w w' s k v -> may (now w) (now w') v x = true.
Proof.
  intros Hx (t & Ht & E). destruct x as [| |b sure limit]; [done|..]; specialize (Hx t ltac:(lia)).
  - simpl. rewrite Hx in E. by subst v.
  - destruct Hx as (H1 & H2 & H3). destruct v as [b'|]; simpl.
    + rewrite bool_decide_true by auto. apply Z.leb_le. destruct (Z.leb_spec t limit); [lia|]. rewrite H2 in E by lia. done.
    + apply Z.ltb_lt. destruct (Z.ltb_spec sure t); [lia|]. rewrite H1 in E by lia. done.
Qed.

Lemma seen_mayHold w w' s k b x : cell_ok s (now w) k x -> seen peek w w' s k (Some b) -> mayHold (now w) x = true.
Proof. intros Hx Hs. pose proof (seen_may _ _ _ _ _ _ Hx Hs) as Hm. destruct x; [done..|]. simpl in *. by apply andb_true_iff in Hm as [_ ?]. Qed.

Lemma seen_mayCount w w' s k v n0 delta x :
  cell_ok s (now w) k x -> seen peek w w' s k v -> counts v n0 -> mayCount (now w) (now w') delta (wrap64 (n0 + delta)) x = true.
Proof.
  intros Hx Hs Hc. pose proof (seen_may _ _ _ _ _ _ Hx Hs) as Hm. destruct x as [| |b sure limit]; [done|..]; simpl in *.
  - destruct v; [done|]. simpl in Hc. subst n0. apply Z.eqb_refl.
  - destruct v as [b'|]; simpl in Hc.
    + apply andb_true_iff in Hm as [->%bool_decide_eq_true Hm]. by rewrite Hc, Hm, Z.eqb_refl.
    + subst n0. rewrite Hm, Z.eqb_refl. apply orb_true_r.
Qed.

Lemma stored_held g ttl w w' s' k v dflt ttl0 :
  stored peek g ttl w w' s' k v -> g <= specGrain -> effective dflt ttl0 = ttl ->
  cell_ok s' (now w') k (held dflt specGrain (now w) (now w') ttl0 v).
Proof.
  intros (H1 & H2 & H3) Hg <- t Ht. split; [|split].
  - intros Hs. apply H1. lia.
  - intros Hs. apply H2; lia.
  - intros b. by apply H3.
Qed.

(** ** Counters under the facade *)

Ltac counter_op law w :=
  go_simpl; destruct (onStore _ _ _) as [[[n e] w1] c1] eqn:E; apply onStore_inv in E as (s1 & E & ->);
  apply law in E as (Hl & Hs1 & Hp); [|done|by eauto with go|done|by apply resolveTTL_ok];
  destruct (observe _ _ _ _ _ w1 _) as [[u w2] c2] eqn:Eo; intros [= <- <- <-];
  apply (timed_ran w) in Eo as (? & ? & ? & ->); [|done..]; split; [done|]; by eapply increment_post_widen.

Lemma increment_post_facade ctx k delta ttl w c r w' c' :
  ob_counts (S := S) = true -> world_ok w -> cache_ok c -> ttl < horizon -> increment ctx k delta ttl w c = (r, w', c') ->
  ran w c w' c' /\ increment_post peek ob_grain k delta (resolveTTL c ttl) w (c_store c) r w' (c_store c').
Proof. intros Hn Hw Hc Ht. pose proof (proj1 Hc) as Hs. unfold increment. counter_op (ob_increment (S := S)) w. Qed.

Lemma decrement_post_facade ctx k delta ttl w c r w' c' :
  ob_counts (S := S) = true -> world_ok w -> cache_ok c -> ttl < horizon -> decrement ctx k delta ttl w c = (r, w', c') ->
  ran w c w' c' /\ increment_post peek ob_grain k (wrap64 (- delta)) (resolveTTL c ttl) w (c_store c) r w' (c_store c').
Proof. intros Hn Hw Hc Ht. pose proof (proj1 Hc) as Hs. unfold decrement. counter_op (ob_decrement (S := S)) w. Qed.

(** ** One call *)

Section Step.
Variables (dflt : Z) (w w' : World) (s s' : S) (a : knowledge).
Hypotheses (Hl : later w w') (Ha : known a w s).
#[local] Abbreviation t0 := (now w).
#[local] Abbreviation t1 := (now w').
#[local] Abbreviation heldNow := (held dflt specGrain (now w) (now w')).

(** The abstract cache follows, to a state that knows the new one. *)
Definition follows (o : option knowledge) : Prop := exists a', o = Some a' /\ known a' w' s'.

Lemma follows_same : (forall k, same_key peek w' s s' k) -> follows (Some a).
Proof. intros Hs. exists a. split; [done|]. apply (known_frame a w w' s s'); auto using later_now. Qed.

Lemma follows_sees k v :
  K k -> (forall k', same_key peek w' s s' k') -> seen peek w w' s k v -> follows (sees t0 t1 k v a).
Proof.
  intros Hk Hs Hv. destruct (narrow_known (may t0 t1 v) k a w s) as (a' & E & Ha'); [done| |done|].
  - intros x Hx. by eapply seen_may.
  - exists a'. split; [done|]. apply (known_frame a' w w' s s'); auto using later_now.
Qed.

(** A call that sees [k] and then changes it. *)
Lemma follows_narrow p k xs :
  K k -> (forall x, cell_ok s (now w) k x -> p x = true) -> (forall k', apart (S := S) k' k -> same_key peek w' s s' k') ->
  (exists x, x ∈ xs /\ cell_ok s' (now w') k x) -> follows (a0 ← narrow p k a; Some (<[k := xs]> a0)).
Proof.
  intros Hk Hp Hs Hx. destruct (narrow_known p k a w s Hk Hp Ha) as (a' & E & Ha'). exists (<[k := xs]> a').
  split; [by rewrite E|]. apply (known_update a' k xs w w' s s'); auto using later_now.
Qed.

Lemma follows_set k v ttl err :
  K k -> storable (S := S) k (effective dflt ttl) -> set_post peek sc_grain k v (effective dflt ttl) w s err w' s' ->
  follows (Some (<[k := heldNow ttl v :: match err with None => [] | Some _ => a k end]> a)).
Proof.
  intros Hk Hst [Hs Hr].
  assert (Hheld : kept peek sc_grain (effective dflt ttl) w w' s' k v -> cell_ok s' t1 k (heldNow ttl v)).
  { intros Hkept. eapply stored_held; [by apply Hkept | unfold specGrain; lia | done]. }
  eexists. split; [done|]. destruct err as [e|].
  - apply (known_maybe a k _ w w' s s'); [by apply later_now|done|done| |done]. destruct Hr; auto.
  - apply (known_update a k _ w w' s s'); [by apply later_now|done|done| |done]. eexists. split; [by left | auto].
Qed.

Lemma follows_add k v ttl r :
  K k -> storable (S := S) k (effective dflt ttl) -> add_post peek sc_occupied sc_grain k v (effective dflt ttl) w s r w' s' ->
  follows (match r with
           | (true, None) => a0 ← sees t0 t1 k None a; Some (<[k := [heldNow ttl v]]> a0)
           | (false, None) => narrow (mayHold t0) k a
           | (false, Some _) => Some (<[k := heldNow ttl v :: a k]> a)
           | (true, Some _) => None
           end).
Proof.
  intros Hk Hst [Hs Hr].
  assert (Hheld : kept peek sc_grain (effective dflt ttl) w w' s' k v -> cell_ok s' t1 k (heldNow ttl v)).
  { intros Hkept. eapply stored_held; [by apply Hkept | unfold specGrain; lia | done]. }
  destruct r as [[] [e|]], Hr as [H1 H2]; [done|..].
  - apply follows_narrow; [done| |done|eexists; split; [by left | auto]]. intros x Hx. eapply seen_may; [done|].
    destruct H1 as (t & Ht & Hfree). exists t. split; [done|]. destruct (peek s t k) as [b|] eqn:E; [|done].
    exfalso. by eapply Hfree, sc_peek_occupied.
  - eexists. split; [done|]. apply (known_maybe a k _ w w' s s'); [by apply later_now|done|done| |done].
    destruct H2 as [H2|[_ H2]]; auto.
  - destruct H1 as (t & Ht & [b Hb]%ob_occupied).
    destruct (narrow_known (mayHold t0) k a w s) as (a' & E & Ha'); [done| |done|].
    + intros x Hx. eapply (seen_mayHold w w' s k b); [done|]. by exists t.
    + exists a'. split; [done|]. apply (known_frame a' w w' s s'); auto using later_now.
Qed.

Lemma follows_count k delta ttl r :
  K k -> storable (S := S) k (effective dflt ttl) -> increment_post peek ob_grain k delta (effective dflt ttl) w s r w' s' ->
  follows (match r with
           | (n, None) => a0 ← narrow (mayCount t0 t1 delta n) k a; Some (<[k := [heldNow ttl (bytes_of_string (FormatInt n))]]> a0)
           | (n, Some _) => Some (<[k := [Unknown]]> a)
           end).
Proof.
  intros Hk Hst [Hs Hr]. destruct r as [n [e|]].
  - eexists. split; [done|]. apply (known_update a k _ w w' s s'); [by apply later_now|done|done| |done]. exists Unknown.
    split; [by left | done].
  - destruct Hr as [(v & n0 & Hv & Hc & ->) Hkept]. apply follows_narrow; [done| |done|].
    + intros x Hx. by eapply seen_mayCount.
    + eexists. split; [by left|]. eapply stored_held; [by apply Hkept | unfold specGrain; lia | done].
Qed.

Lemma follows_delete k err :
  K k -> delete_post peek k w s err w' s' ->
  follows (Some (<[k := Gone :: match err with None => [] | Some _ => a k end]> a)).
Proof.
  intros Hk [Hs Hr]. eexists. split; [done|]. destruct err as [e|].
  - by apply (known_maybe a k _ w w' s s'); [apply later_now|..].
  - apply (known_update a k _ w w' s s'); [by apply later_now|done|done| |done]. exists Gone. split; [by left | done].
Qed.

Lemma follows_pull k r :
  K k -> pull_post k w s r w' s' ->
  follows (match r with
           | (b, true, None) => a0 ← sees t0 t1 k (Some b) a; Some (<[k := [Gone]]> a0)
           | ([], false, None) => sees t0 t1 k None a
           | ([], false, Some _) => Some (<[k := Gone :: a k]> a)
           | _ => None
           end).
Proof.
  intros Hk [Hs Hr]. destruct r as [[b []] [e|]].
  - by destruct Hr as (_ & ? & _).
  - destruct Hr as [H1 H2]. assert (follows (a0 ← sees t0 t1 k (Some b) a; Some (<[k := [Gone]]> a0))) as Hf; [|by destruct b].
    apply follows_narrow; [done| |done|exists Gone; split; [by left | done]]. intros x Hx. by eapply seen_may.
  - destruct Hr as (-> & _ & Hr). eexists. split; [done|]. by apply (known_maybe a k _ w w' s s'); [apply later_now|..].
  - destruct Hr as (-> & H1 & H2). by apply follows_sees.
Qed.

(** Several keys at once. *)
Lemma assign_lookup kxs (b : knowledge) k :
  ((k ∉ kxs.*1) /\ assign kxs b k = b k) \/ (k, assign kxs b k) ∈ kxs.
Proof.
  induction kxs as [|[k' xs] kxs IH]; simpl; [left; split; [apply not_elem_of_nil | done]|].
  destruct (decide (k' = k)) as [->|Hne]; [right; rewrite fn_lookup_insert; by left|]. rewrite fn_lookup_insert_ne by done.
  destruct IH as [[Hn ->]|Hin]; [left | right; by right]. split; [|done]. apply not_elem_of_cons. split; [by apply not_eq_sym | done].
Qed.

Lemma follows_assign kxs :
  (forall k, K k -> (forall k', k' ∈ kxs.*1 -> k <> k') -> same_key peek w' s s' k) ->
  (forall k xs, K k -> (k, xs) ∈ kxs -> exists x, x ∈ xs /\ cell_ok s' t1 k x) -> follows (Some (assign kxs a)).
Proof.
  intros Hs Hx. eexists. split; [done|]. intros k Hk. destruct (assign_lookup kxs a k) as [[Hn ->]|Hin]; [|by apply Hx].
  destruct (Ha k Hk) as (x & Hin & Hok). exists x. split; [done|]. apply (cell_ok_same w w' s s'); [by apply later_now| |done].
  apply Hs; [done|]. intros k' Hk' ->. done.
Qed.

Lemma follows_setAll xs ks :
  Forall K ks -> (forall k, (forall k', k' ∈ ks -> apart (S := S) k k') -> same_key peek w' s s' k) ->
  (forall k, k ∈ ks -> exists x, x ∈ xs /\ cell_ok s' t1 k x) -> follows (Some (setAll xs ks a)).
Proof.
  intros HK' Hs Hx. rewrite list.Forall_forall in HK'. apply follows_assign.
  - intros k Hk Hne. apply Hs. intros k' Hk'. apply Hapart; auto. apply Hne. rewrite <- list_fmap_compose. simpl. by rewrite list_fmap_id.
  - intros k xs' _ (k' & [= -> ->] & Hin)%list_elem_of_fmap. auto.
Qed.

Lemma follows_seesAll ks m :
  Forall K ks -> (forall k, same_key peek w' s s' k) -> (forall k, k ∈ ks -> seen peek w w' s k (m !! k)) ->
  follows (seesAll t0 t1 ks m a).
Proof.
  intros HK' Hs Hm. assert (exists a', seesAll t0 t1 ks m a = Some a' /\ known a' w s) as (a' & -> & Ha').
  { clear Hs. revert a Ha. induction ks as [|k ks IH]; intros b Hb; simpl; [eauto|]. apply list.Forall_cons in HK' as [Hk HK'].
    destruct (narrow_known (may t0 t1 (m !! k)) k b w s) as (b' & E & Hb'); [done| |done|].
    - intros x Hx. eapply seen_may; [done|]. apply Hm. by left.
    - unfold sees. rewrite E. simpl. apply IH; [done| |done]. intros k' Hk'. apply Hm. by right. }
  exists a'. split; [done|]. apply (known_frame a' w w' s s'); auto using later_now.
Qed.
End Step.

(** The keys of a call, and what a client must respect: keys the backend can record for
    the time asked for, times below the horizon, a map without duplicates, and counters
    only where the backend has them in view. *)
Definition callKeys (op : call) : list string :=
  match op with
  | CGet k | CGetString k | CPull k | CSet k _ _ | CSetString k _ _ | CAdd k _ _ | CIncrement k _ _ | CDecrement k _ _ | CDelete k => [k]
  | CBatchGet ks | CDeleteMany ks => ks
  | CBatchSet kvs _ => kvs.*1
  | CFlush => []
  end.

Definition call_ok (dflt : Z) (op : call) : Prop :=
  Forall K (callKeys op) /\
  match op with
  | CSet k _ ttl | CSetString k _ ttl | CAdd k _ ttl => ttl < horizon /\ storable (S := S) k (effective dflt ttl)
  | CIncrement k _ ttl | CDecrement k _ ttl =>
      ttl < horizon /\ storable (S := S) k (effective dflt ttl) /\ ob_counts (S := S) = true
  | CBatchSet kvs ttl =>
      ttl < horizon /\ NoDup kvs.*1 /\ Forall (fun k => storable (S := S) k (effective dflt ttl)) kvs.*1
  | _ => True
  end.

Lemma keys_apart ks : Forall K ks -> NoDup ks -> ForallOrdPairs (apart (S := S)) ks.
Proof.
  induction ks as [|k ks IH]; intros HK' Hnd; [constructor|]. apply list.Forall_cons in HK' as [Hk HK'].
  apply list.NoDup_cons in Hnd as [Hn Hnd]. constructor; [|auto]. apply list.Forall_forall. intros k' Hk'.
  apply Hapart; [done|by eapply list.Forall_forall in HK'|]. by intros ->.
Qed.

(** The exported method behind a call. *)
Ltac called E :=
  unfold perform, bind in E; simpl in E;
  match type of E with context [match ?m ?w ?c with _ => _ end] =>
    destruct (m w c) as [[r w1] c1] eqn:E1; in_context E1 end;
  match goal with _ : _ = (?x, _, _) |- _ =>
    match type of x with
    | (_ * bool * _)%type => destruct x as [[b ok] err]
    | (_ * _)%type => destruct x as [b err]
    | option error => rename x into err
    end
  end;
  injection E as <- <- <-.

(** The abstract cache follows the call [op] from [w] and [c]. *)
Definition steps (op : call) w c a : Prop :=
  forall out w' c', perform cacheAPI op w c = (out, w', c') ->
  ran w c w' c' /\ follows w' (c_store c') (check (c_defaultTTL c) specGrain a (mkEvent op out (now w) (now w'))).

Section Calls.
Variables (w : World) (c : Cache S) (a : knowledge).
Hypotheses (Hw : world_ok w) (Hc : cache_ok c) (Ha : known a w (c_store c)).

Lemma get_steps k : K k -> steps (CGet k) w c a.
Proof.
  intros Hk out w' c' E. called E. apply getBytes_post in E1 as [Hr [Hs Hp]]; [|done..]. split; [done|].
  pose proof (ran_later _ _ _ _ Hr) as Hl. destruct ok, err as [e|]; simpl; try done.
  - by apply (follows_sees w w1 (c_store c)).
  - by apply (follows_same w w1 (c_store c)).
  - by apply (follows_sees w w1 (c_store c)).
Qed.

Lemma getString_steps k : K k -> steps (CGetString k) w c a.
Proof.
  intros Hk out w' c' E. called E. apply getString_post in E1 as [Hr (v & ok1 & err1 & [Hs Hp] & [= -> -> ->])]; [|done..]. split; [done|].
  pose proof (ran_later _ _ _ _ Hr) as Hl. destruct ok1, err1 as [e|]; simpl; try done.
  - pose proof (bytes_of_string_of_bytes v) as Ev. revert Ev. generalize (string_of_bytes v). intros t <-.
    destruct t; by apply (follows_sees w w1 (c_store c)).
  - by apply (follows_same w w1 (c_store c)).
  - by apply (follows_sees w w1 (c_store c)).
Qed.

Lemma batchGet_steps ks : Forall K ks -> steps (CBatchGet ks) w c a.
Proof.
  intros HK' out w' c' E. called E. apply batchGetBytes_post in E1 as (Hr & Hs & Hm); [|done..]. split; [done|].
  pose proof (ran_later _ _ _ _ Hr) as Hl. destruct err as [e|]; unfold check; simpl.
  - rewrite decide_True by done. by apply (follows_same w w1 (c_store c)).
  - rewrite decide_True.
    + apply (follows_seesAll w w1 (c_store c)); [done..|]. intros k Hk. specialize (Hm k). by rewrite decide_True in Hm.
    + intros k [x Hx]%elem_of_dom. apply elem_of_list_to_set. specialize (Hm k). destruct (decide (k ∈ ks)); [done | congruence].
Qed.

Lemma pull_steps k : K k -> steps (CPull k) w c a.
Proof.
  intros Hk out w' c' E. called E. apply pullBytes_post in E1 as [Hr Hp]; [|done..]. split; [done|].
  apply (follows_pull w w1 (c_store c)) with (a := a) in Hp; [|by eapply ran_later|done..].
  by destruct b as [|? ?], ok, err.
Qed.

Lemma set_steps k v ttl : call_ok (c_defaultTTL c) (CSet k v ttl) -> steps (CSet k v ttl) w c a.
Proof.
  intros ([Hk _]%list.Forall_cons & Ht & Hst) out w' c' E. called E. apply setBytes_post in E1 as [Hr Hp]; [|done..]. split; [done|].
  apply (follows_set (c_defaultTTL c) w w1 (c_store c)) with (a := a) in Hp; [|by eapply ran_later|done..]. by destruct err.
Qed.

Lemma setString_steps k v ttl : call_ok (c_defaultTTL c) (CSetString k v ttl) -> steps (CSetString k v ttl) w c a.
Proof.
  intros ([Hk _]%list.Forall_cons & Ht & Hst) out w' c' E. called E. apply setString_post in E1 as [Hr Hp]; [|done..]. split; [done|].
  apply (follows_set (c_defaultTTL c) w w1 (c_store c)) with (a := a) in Hp; [|by eapply ran_later|done..]. by destruct err.
Qed.

Lemma batchSet_steps kvs ttl : call_ok (c_defaultTTL c) (CBatchSet kvs ttl) -> steps (CBatchSet kvs ttl) w c a.
Proof.
  intros (HK' & Ht & Hnd & Hst) out w' c' E. called E. apply batchSetBytes_post in E1 as (Hr & Hs & Hp); [|done..]. split; [done|].
  pose proof (ran_later _ _ _ _ Hr) as Hl. simpl in HK'. destruct err as [e|].
  - apply (follows_setAll w w1 (c_store c)); [done..|]. intros k _. exists Unknown. split; [by left | done].
  - specialize (Hp eq_refl (keys_apart _ HK' Hnd)). rewrite list.Forall_forall in Hst, HK'.
    apply (follows_assign w w1 (c_store c)); [done..| |].
    + intros k Hk Hne. apply Hs. intros k' Hk'. apply Hapart; auto. apply Hne. by rewrite <- list_fmap_compose.
    + intros k xs _ ([k' v] & [= -> ->] & Hin)%list_elem_of_fmap. eexists. split; [by left|]. simpl in *.
      eapply (stored_held sc_grain); [|unfold specGrain; lia|done]. apply (Hp k' v Hin), Hst. apply list_elem_of_fmap. by exists (k', v).
Qed.

Lemma add_steps k v ttl : call_ok (c_defaultTTL c) (CAdd k v ttl) -> steps (CAdd k v ttl) w c a.
Proof.
  intros ([Hk _]%list.Forall_cons & Ht & Hst) out w' c' E. called E. apply add_post_facade in E1 as [Hr Hp]; [|done..]. split; [done|].
  apply (follows_add (c_defaultTTL c) w w1 (c_store c)) with (a := a) in Hp; [|by eapply ran_later|done..]. by destruct b, err.
Qed.

Lemma increment_steps k d ttl : call_ok (c_defaultTTL c) (CIncrement k d ttl) -> steps (CIncrement k d ttl) w c a.
Proof.
  intros ([Hk _]%list.Forall_cons & Ht & Hst & Hn) out w' c' E. called E. apply increment_post_facade in E1 as [Hr Hp]; [|done..]. split; [done|].
  assert (err = None \/ b = 0) as Hz by (destruct Hp as [_ Hp]; destruct err; auto).
  apply (follows_count (c_defaultTTL c) w w1 (c_store c)) with (a := a) in Hp; [|by eapply ran_later|done..].
  destruct err; [by destruct Hz as [?| ->] | by destruct b].
Qed.

Lemma decrement_steps k d ttl : call_ok (c_defaultTTL c) (CDecrement k d ttl) -> steps (CDecrement k d ttl) w c a.
Proof.
  intros ([Hk _]%list.Forall_cons & Ht & Hst & Hn) out w' c' E. called E. apply decrement_post_facade in E1 as [Hr Hp]; [|done..]. split; [done|].
  assert (err = None \/ b = 0) as Hz by (destruct Hp as [_ Hp]; destruct err; auto).
  apply (follows_count (c_defaultTTL c) w w1 (c_store c)) with (a := a) in Hp; [|by eapply ran_later|done..].
  destruct err; [by destruct Hz as [?| ->] | by destruct b].
Qed.

Lemma delete_steps k : K k -> steps (CDelete k) w c a.
Proof.
  intros Hk out w' c' E. called E. apply delete_post_facade in E1 as [Hr Hp]; [|done..]. split; [done|].
  apply (follows_delete w w1 (c_store c)) with (a := a) in Hp; [|by eapply ran_later|done..]. by destruct err.
Qed.

Lemma deleteMany_steps ks : Forall K ks -> steps (CDeleteMany ks) w c a.
Proof.
  intros HK' out w' c' E. called E. apply deleteMany_post_facade in E1 as [Hr [Hs Hp]]; [|done..]. split; [done|].
  pose proof (ran_later _ _ _ _ Hr) as Hl. destruct err; apply (follows_setAll w w1 (c_store c)); try done; intros k Hk.
  - exists Unknown. split; [by left | done].
  - exists Gone. split; [by left|]. by apply Hp.
Qed.

Lemma flush_steps : steps CFlush w c a.
Proof.
  intros out w' c' E. called E. apply flush_post_facade in E1 as [Hr Hp]; [|done..]. split; [done|]. destruct err; (eexists; split; [done|]).
  - apply nothing_known.
  - intros k _. exists Gone. split; [by left | apply Hp].
Qed.

Lemma call_steps op : call_ok (c_defaultTTL c) op -> steps op w c a.
Proof.
  intros Hop. pose proof (proj1 Hop) as HK'. destruct op; simpl in HK'; try (apply list.Forall_cons in HK' as [Hk _]).
  - by apply get_steps.
  - by apply getString_steps.
  - by apply batchGet_steps.
  - by apply pull_steps.
  - by apply set_steps.
  - by apply setString_steps.
  - by apply batchSet_steps.
  - by apply add_steps.
  - by apply increment_steps.
  - by apply decrement_steps.
  - by apply delete_steps.
  - by apply deleteMany_steps.
  - apply flush_steps.
Qed.
End Calls.

(** The calls of a client one after another. *)
Lemma history_follows w c evs w' c' a :
  history cacheAPI w c evs w' c' -> world_ok w -> cache_ok c -> known a w (c_store c) ->
  Forall (fun ev => call_ok (c_defaultTTL c) (ev_call ev)) evs ->
  follows w' (c_store c') (checkAll (c_defaultTTL c) specGrain a evs).
Proof.
  intros H. revert a. induction H as [|w c w0 op out w1 c1 evs w2 c2 Hl E _ IH]; intros a Hw Hc Ha Hops; [by exists a|].
  apply list.Forall_cons in Hops as [Hop Hops]. pose proof (later_world_ok _ _ Hl) as Hw0.
  destruct (call_steps w0 c a Hw0 Hc (known_later _ _ _ _ Hl Ha) op Hop _ _ _ E) as [Hr (a1 & E1 & Ha1)].
  simpl. rewrite E1. simpl. assert (c_defaultTTL c1 = c_defaultTTL c) as Hd by (by destruct Hr as (_ & _ & Hf); destruct Hf).
  rewrite <- Hd. apply IH; [by eapply ran_world_ok|by eapply ran_ok|done|by rewrite Hd].
Qed.

Lemma record_history ops w c :
  world_ok w -> cache_ok c -> Forall (call_ok (c_defaultTTL c)) ops ->
  history cacheAPI w c (rv (record cacheAPI ops w c)) (wv (record cacheAPI ops w c)) (sv (record cacheAPI ops w c)) /\
  Forall (fun ev => call_ok (c_defaultTTL c) (ev_call ev)) (rv (record cacheAPI ops w c)).
Proof.
  revert w c. induction ops as [|op ops IH]; intros w c Hw Hc Hops; [by repeat constructor|].
  apply list.Forall_cons in Hops as [Hop Hops]. simpl. destruct (perform cacheAPI op w c) as [[out w1] c1] eqn:E.
  destruct (call_steps w c nothingKnown Hw Hc (nothing_known w _) op Hop _ _ _ E) as [(Hl & Hc1 & Hf) _].
  assert (c_defaultTTL c1 = c_defaultTTL c) as Hd by (by destruct Hf).
  destruct (IH w1 c1) as [Hh Hall]; [by eapply later_world_ok|done|by rewrite Hd|]. rewrite Hd in Hall.
  destruct (record cacheAPI ops w1 c1) as [[evs w2] c2]. split; [|by constructor].
  eapply history_cons; [by apply later_refl | done..].
Qed.

(** C1: the cache refines the abstract cache.  Whatever calls a client makes of the
    facade, in whatever order and depending on whatever results, with any time between
    them and over any backend that keeps the contracts (counters where it has them in
    view), the history is one the checker allows: no stale or invented value, no lost or invented count, no
    value after its TTL and the clock's resolution, none missing before its TTL, no [Add]
    that takes a held key, also after calls that failed.  What the checker then knows is
    true of the backend. *)
Theorem cache_refines_spec w c evs w' c' :
  world_ok w -> cache_ok c -> history cacheAPI w c evs w' c' ->
  Forall (fun ev => call_ok (c_defaultTTL c) (ev_call ev)) evs ->
  exists a, checkAll (c_defaultTTL c) specGrain nothingKnown evs = Some a /\ known a w' (c_store c').
Proof. intros Hw Hc Hh Hops. eapply history_follows; [done..|apply nothing_known|done]. Qed.
End Refines.

(** ** What the checker rejects *)

Module SpecRuns.
Definition x : bytes := bytes_of_string "x".
Definition y : bytes := bytes_of_string "y".
Definition allows (evs : list (call * outcome * Z * Z)) : bool :=
  match checkAll 100 10 nothingKnown ((fun e => mkEvent e.1.1.1 e.1.1.2 e.1.2 e.2) <$> evs) with
  | Some _ => true
  | None => false
  end.
Definition fail : option error := Some (ErrorString "down").
End SpecRuns.
Import SpecRuns.

(** A value within its TTL, and in the window in which it may be seen or not. *)
Example allows_reads :
  allows [(CSet "k" x 50, ODone None, 0, 1); (CGet "k", OValue x true None, 2, 3); (CGet "j", OValue y true None, 3, 4)] = true /\
  allows [(CSet "k" x 50, ODone None, 0, 1); (CGet "k", OValue x true None, 55, 56)] = true /\
  allows [(CSet "k" x 50, ODone None, 0, 1); (CGet "k", OValue [] false None, 55, 56)] = true /\
  allows [(CSet "k" x 0, ODone None, 0, 1); (CGet "k", OValue x true None, 99, 99)] = true.
Proof. by vm_compute. Qed.

(** After a write that failed either value may be read, but the same one twice. *)
Example allows_either :
  let after b1 b2 := allows [(CSet "k" x 50, ODone None, 0, 1); (CSet "k" y 50, ODone fail, 2, 3);
    (CGet "k", OValue b1 true None, 4, 5); (CGet "k", OValue b2 true None, 6, 7)] in
  after x x = true /\ after y y = true /\ after x y = false /\ after y x = false.
Proof. by vm_compute. Qed.

(** A stale value, one after its TTL, one gone too early, and one that was deleted, pulled
    or flushed. *)
Example rejects_reads :
  allows [(CSet "k" x 50, ODone None, 0, 1); (CSet "k" y 50, ODone None, 2, 3); (CGet "k", OValue x true None, 4, 5)] = false /\
  allows [(CSet "k" x 50, ODone None, 0, 1); (CGet "k", OValue x true None, 62, 63)] = false /\
  allows [(CSet "k" x 50, ODone None, 0, 1); (CGet "k", OValue [] false None, 49, 50)] = false /\
  allows [(CDelete "k", ODone None, 0, 1); (CGet "k", OValue x true None, 2, 3)] = false /\
  allows [(CPull "k", OValue x true None, 0, 1); (CGet "k", OValue x true None, 2, 3)] = false /\
  allows [(CFlush, ODone None, 0, 1); (CGetString "k", OText "x" true None, 2, 3)] = false /\
  allows [(CBatchSet [("k", x); ("j", y)] 50, ODone None, 0, 1); (CBatchGet ["j"; "k"], OMap {["k" := x]} None, 2, 3)] = false.
Proof. by vm_compute. Qed.

(** An [Add] that takes a held key or does not take a free one, and a lost count. *)
Example rejects_writes :
  allows [(CSet "k" x 50, ODone None, 0, 1); (CAdd "k" y 50, OFlag true None, 2, 3)] = false /\
  allows [(CDelete "k", ODone None, 0, 1); (CAdd "k" y 50, OFlag false None, 2, 3)] = false /\
  allows [(CIncrement "k" 5 50, OCount 5 None, 0, 1); (CDecrement "k" 2 50, OCount 3 None, 2, 3)] = true /\
  allows [(CDelete "k", ODone None, 0, 1); (CIncrement "k" 5 50, OCount 6 None, 2, 3)] = false /\
  allows [(CIncrement "k" 5 50, OCount 5 None, 0, 1); (CIncrement "k" 2 50, OCount 2 None, 2, 3)] = false /\
  allows [(CIncrement "k" 5 50, OCount 5 None, 0, 1); (CGetString "k", OText "4" true None, 2, 3)] = false.
Proof. by vm_compute. Qed.

(** ** A client of the cache over SQLite *)

Module SpecWitness.
#[export] Existing Instances SqliteTable.sqlite SqliteTable.laws.

Definition cache0 : Cache (sqlStore SqliteTable.db) := NewCache SuiteRuns.sql0.
Definition ours (k : string) : Prop := k = "a" \/ k = "b".
Definition ops : list call :=
  [CSet "a" x Minute; CAdd "a" y Minute; CGetString "a"; CIncrement "b" 5 Minute; CDecrement "b" 2 Minute; CGet "b";
   CBatchSet [("a", y); ("b", x)] 0; CBatchGet ["b"; "a"]; CPull "a"; CDeleteMany ["a"; "b"]; CGet "b"; CFlush].
Definition run := record cacheAPI ops SqlRuns.clock cache0.
Ltac keys := repeat (apply list.Forall_cons; split; [first [by left | by right]|]); by apply list.Forall_nil.
End SpecWitness.
#[local] Existing Instances SqliteTable.sqlite SqliteTable.laws.

Lemma cache_refines_spec_witness :
  ev_out <$> rv SpecWitness.run =
    [ODone None; OFlag false None; OText "x" true None; OCount 5 None; OCount 3 None; OValue (bytes_of_string "3") true None;
     ODone None; OMap {["a" := y; "b" := x]} None; OValue y true None; ODone None; OValue [] false None; ODone None] /\
  exists a, checkAll (c_defaultTTL SpecWitness.cache0) (specGrain (S := sqlStore SqliteTable.db)) nothingKnown (rv SpecWitness.run) = Some a /\
    known SpecWitness.ours a (wv SpecWitness.run) (c_store (sv SpecWitness.run)).
Proof.
  split; [vm_compute; reflexivity|].
  assert (Hok : cache_ok SpecWitness.cache0) by (split; [apply SqlRuns.sql_over_ok | split; reflexivity]).
  assert (Hap : forall k k', SpecWitness.ours k -> SpecWitness.ours k' -> k <> k' -> apart (S := sqlStore SqliteTable.db) k k') by (by intros).
  assert (Hops : Forall (call_ok (S := sqlStore SqliteTable.db) SpecWitness.ours defaultCacheTTL) SpecWitness.ops).
  { unfold SpecWitness.ops. repeat (apply list.Forall_cons; split; [|]); [..|by apply list.Forall_nil]; (split; [SpecWitness.keys|]); try exact I;
      try (split; reflexivity); try (split; [reflexivity | split; reflexivity]).
    split; [reflexivity|]. split; [by apply (bool_decide_unpack _)|]. by repeat (apply list.Forall_cons; split; [reflexivity|]). }
  destruct (record_history SpecWitness.ours Hap SpecWitness.ops SqlRuns.clock SpecWitness.cache0 SqlRuns.clock_ok Hok Hops) as [Hh Hall].
  unfold SpecWitness.run. exact (cache_refines_spec SpecWitness.ours Hap SqlRuns.clock SpecWitness.cache0 _ _ _ SqlRuns.clock_ok Hok Hh Hall).
Defined.
