(* ===== verification/GoText.v ===== *)
(** * Text

    The parts of Go's [strings], [bytes], [sort] and [regexp] that the documentation
    tools use, and how an occurrence of a marker in a text is found again after the
    text around it has changed. *)

From stdpp Require Import sorting.
From S2P Require Import Prelude GoStd InspectHelpers.

(** ** Searching and slicing *)

Fixpoint bIndex (b sub : bytes) : option nat :=
  if bHasPrefix b sub then Some O
  else match b with [] => None | _ :: r => Datatypes.S <$> bIndex r sub end.

(** [strings.Index] *)
Definition Index (s sub : string) : Z :=
  match bIndex (bytes_of_string s) (bytes_of_string sub) with Some n => Z.of_nat n | None => -1 end.

(** [s[lo:hi]]; a slice out of range panics, which is [None]. *)
Definition slice (s : string) (lo hi : Z) : option string :=
  if (0 <=? lo) && (lo <=? hi) && (hi <=? slen s)
  then Some (string_of_bytes (take (Z.to_nat (hi - lo)) (drop (Z.to_nat lo) (bytes_of_string s)))) else None.
Definition sliceTo (s : string) (hi : Z) : option string := slice s 0 hi.
Definition sliceFrom (s : string) (lo : Z) : option string := slice s lo (slen s).

(** [strings.TrimLeft] and [strings.TrimRight] with a set of ASCII characters. *)
Fixpoint bTrimLeft (cut : byte -> bool) (b : bytes) : bytes :=
  match b with
  | [] => []
  | c :: r => if cut c then bTrimLeft cut r else b
  end.
Definition bTrimRight (cut : byte -> bool) (b : bytes) : bytes := rev (bTrimLeft cut (rev b)).
Definition TrimLeft (cut : byte -> bool) (s : string) : string := string_of_bytes (bTrimLeft cut (bytes_of_string s)).
Definition TrimRight (cut : byte -> bool) (s : string) : string := string_of_bytes (bTrimRight cut (bytes_of_string s)).

(** The sets ["\n"] and [" \t"]. *)
Definition isNewline (c : byte) : bool := Byte.eqb c x0a.
Definition isIndent (c : byte) : bool := Byte.eqb c x20 || Byte.eqb c x09.

(** A newline, as a string. *)
Definition nl : string := String.string_of_list_byte [x0a].

(** [strings.Split(s, "\n")]: [cur] is the line so far. *)
Fixpoint bLines (cur b : bytes) : list bytes :=
  match b with
  | [] => [cur]
  | c :: r => if isNewline c then cur :: bLines [] r else bLines (cur ++ [c]) r
  end.
Definition SplitLines (s : string) : list string := string_of_bytes <$> bLines [] (bytes_of_string s).

(** [strings.Join] *)
Fixpoint Join (xs : list string) (sep : string) : string :=
  match xs with
  | [] => EmptyString
  | [x] => x
  | x :: rest => x +:+ sep +:+ Join rest sep
  end.

(** What a [bytes.Buffer] holds after these writes. *)
Definition concatStrings (xs : list string) : string := foldr (fun x acc => x +:+ acc) EmptyString xs.

(** [bytes.ReplaceAll(b, old, nil)], for a non-empty [old]: what is skipped is an
    occurrence, of which [skip] bytes are left. *)
Fixpoint bRemoveAll (skip : nat) (b old : bytes) : bytes :=
  match b, skip with
  | [], _ => []
  | _ :: r, Datatypes.S n => bRemoveAll n r old
  | c :: r, O => if bHasPrefix b old then bRemoveAll (pred (length old)) r old else c :: bRemoveAll O r old
  end.

(** ** Paths

    Clean absolute paths: [filepath.Join] with a relative one, and [filepath.Dir]. *)
Definition joinPath (dir rel : string) : string := if decide (dir = "/") then "/" +:+ rel else dir +:+ "/" +:+ rel.

Definition isSlash (c : byte) : bool := Byte.eqb c x2f.
Fixpoint afterSlash (b : bytes) : bytes :=
  match b with
  | [] => []
  | c :: r => if isSlash c then r else afterSlash r
  end.
Definition Dir (path : string) : string :=
  match rev (afterSlash (rev (bytes_of_string path))) with
  | [] => "/"
  | b => string_of_bytes b
  end.

(** ** Sorting

    [sort.Strings] puts strings in their byte order; distinct strings have one such
    order. *)
Definition str_le (a b : string) : Prop := bytesLeb (bytes_of_string a) (bytes_of_string b) = true.

#[global] Instance str_le_dec a b : Decision (str_le a b).
Proof. unfold str_le. apply _. Defined.
#[global] Instance str_le_trans : Transitive str_le.
Proof. intros a b c. apply bytesLeb_trans. Qed.
#[global] Instance str_le_total : Total str_le.
Proof. intros a b. apply bytesLeb_total. Qed.
#[global] Instance str_le_antisymm : AntiSymm (=) str_le.
Proof. intros a b Hab Hba. by apply (inj bytes_of_string), bytesLeb_antisym. Qed.

Definition sortStrings (xs : list string) : list string := merge_sort str_le xs.

(** The order in which a [range] over a map gives its keys does not matter once they
    are sorted. *)
Lemma sortStrings_perm xs ys : xs ≡ₚ ys -> sortStrings xs = sortStrings ys.
Proof.
  intros E. apply (StronglySorted_unique str_le).
  - apply (StronglySorted_merge_sort str_le).
  - apply (StronglySorted_merge_sort str_le).
  - unfold sortStrings. by rewrite !merge_sort_Permutation.
Qed.

Lemma StronglySorted_mono {A} (R R' : relation A) l :
  (forall a b, R a b -> R' a b) -> StronglySorted R l -> StronglySorted R' l.
Proof. intros HR. induction 1 as [|a l _ IH Ha]; constructor; [done|]. eapply list.Forall_impl; [exact Ha | auto]. Qed.

Lemma StronglySorted_filter {A} (R : relation A) (Q : A -> Prop) `{!forall x, Decision (Q x)} l :
  StronglySorted R l -> StronglySorted R (filter Q l).
Proof.
  induction 1 as [|a l _ IH Ha]; [constructor|]. rewrite filter_cons. destruct (decide (Q a)); [|done]. constructor; [done|].
  rewrite list.Forall_forall in *. intros x [_ Hx]%list_elem_of_filter. auto.
Qed.

Lemma sortStrings_elem x xs : x ∈ sortStrings xs <-> x ∈ xs.
Proof. unfold sortStrings. by rewrite merge_sort_Permutation. Qed.

(** ** Occurrences *)

Lemma bIndex_split b sub n :
  bIndex b sub = Some n -> exists pre post, b = pre ++ sub ++ post /\ length pre = n.
Proof.
  revert n. induction b as [|c b IH]; intros n; simpl.
  - destruct (bHasPrefix [] sub) eqn:E; [|done]. intros [= <-]. apply bHasPrefix_spec in E as [r E]. by exists [], r.
  - destruct (bHasPrefix (c :: b) sub) eqn:E.
    + intros [= <-]. apply bHasPrefix_spec in E as [r E]. by exists [], r.
    + destruct (bIndex b sub) as [n'|] eqn:Eb; [|done]. intros [= <-].
      destruct (IH n' eq_refl) as (pre & post & -> & <-). by exists (c :: pre), post.
Qed.

Lemma bIndex_None b sub : bIndex b sub = None <-> bContains b sub = false.
Proof.
  induction b as [|c b IH]; simpl.
  - by destruct (bHasPrefix [] sub).
  - destruct (bHasPrefix (c :: b) sub); [done|]. simpl. rewrite <- IH. by destruct (bIndex b sub).
Qed.

(** An occurrence that would reach over [d] needs [d] behind its first byte. *)
Lemma prefix_not_over (a b sub : bytes) d :
  a <> [] -> d ∉ tail sub -> bHasPrefix (a ++ d :: b) sub = bHasPrefix a sub.
Proof.
  intros Ha Hd. destruct a as [|x a]; [done|]. destruct sub as [|y sub]; [done|]. simpl in *. f_equal.
  clear Ha. revert sub Hd. induction a as [|z a IH]; intros [|y' sub] Hd; simpl; [done|..].
  - destruct (Byte.eqb y' d) eqn:E; [|done]. apply Byte.byte_dec_bl in E as ->. set_solver.
  - done.
  - f_equal. apply IH. set_solver.
Qed.

Lemma bIndex_app (a b sub : bytes) d :
  d ∉ tail sub -> sub <> [] ->
  bIndex (a ++ d :: b) sub =
    if bContains a sub then bIndex a sub else Nat.add (length a) <$> bIndex (d :: b) sub.
Proof.
  intros Hd Hne. induction a as [|x a IH].
  { destruct sub as [|y sub]; [done|]. cbn [app bContains bHasPrefix orb length].
    by destruct (bIndex (d :: b) (y :: sub)). }
  change ((x :: a) ++ d :: b) with (x :: a ++ d :: b). cbn [bIndex].
  change (x :: a ++ d :: b) with ((x :: a) ++ d :: b). rewrite prefix_not_over by done.
  cbn [bContains]. cbn [bIndex]. destruct (bHasPrefix (x :: a) sub) eqn:E; [done|]. rewrite IH. cbn [orb length].
  destruct (bContains a sub); [done|].
  change (if bHasPrefix (d :: b) sub then _ else _) with (bIndex (d :: b) sub). by destruct (bIndex (d :: b) sub).
Qed.

Lemma bContains_app (a b sub : bytes) d :
  d ∉ tail sub -> sub <> [] -> bContains (a ++ d :: b) sub = bContains a sub || bContains (d :: b) sub.
Proof.
  intros Hd Hne. destruct (bContains (a ++ d :: b) sub) eqn:E.
  - destruct (bContains a sub) eqn:Ea; [done|]. symmetry. apply not_false_iff_true. intros Eb.
    apply bIndex_None in Eb. apply not_false_iff_true in E. apply E, bIndex_None. rewrite bIndex_app by done. by rewrite Ea, Eb.
  - apply bIndex_None in E. rewrite bIndex_app in E by done. destruct (bContains a sub) eqn:Ea.
    + apply bIndex_None in E. congruence.
    + symmetry. apply bIndex_None. by destruct (bIndex (d :: b) sub).
Qed.

(** ** Markers

    A marker's first byte is not repeated in it, so occurrences do not overlap. *)

Definition markerHead (m : bytes) (c : byte) : Prop := exists t, m = c :: t /\ c ∉ t.

(** Two markers with the same first byte, neither of which begins with the other. *)
Record markers (a b : bytes) (c : byte) : Prop := {
  mk_first : markerHead a c;
  mk_second : markerHead b c;
  mk_apart : forall r, bHasPrefix (a ++ r) b = false
}.

Lemma bIndex_length b sub n : bIndex b sub = Some n -> (n + length sub <= length b)%nat.
Proof. intros (pre & post & -> & <-)%bIndex_split. rewrite !length_app. lia. Qed.

Lemma bIndex_first b sub c n :
  markerHead sub c -> bIndex b sub = Some n ->
  exists pre post, b = pre ++ sub ++ post /\ length pre = n /\ bContains pre sub = false.
Proof.
  intros (t & -> & Hc) E. pose proof E as (pre & post & -> & <-)%bIndex_split. exists pre, post.
  split; [done|]. split; [done|]. change ((c :: t) ++ post) with (c :: (t ++ post)) in E.
  rewrite bIndex_app in E by done. destruct (bContains pre (c :: t)); [|done].
  apply bIndex_length in E. simpl in E. lia.
Qed.

(** No occurrence begins in a text without the marker's first byte. *)
Lemma bIndex_skip t b sub c :
  markerHead sub c -> c ∉ t -> bIndex (t ++ b) sub = Nat.add (length t) <$> bIndex b sub.
Proof.
  intros (ts & -> & _) Hc. induction t as [|x t IH]; [cbn [app length]; by destruct (bIndex b (c :: ts))|]. simpl.
  destruct (Byte.eqb c x) eqn:E; [apply Byte.byte_dec_bl in E; set_solver|]. simpl.
  rewrite IH by set_solver. by destruct (bIndex b (c :: ts)).
Qed.

Lemma bIndex_here m rest c : markerHead m c -> bIndex (m ++ rest) m = Some O.
Proof. intros (t & -> & _). cbn [app bIndex]. by rewrite app_comm_cons, bHasPrefix_app. Qed.

(** A marker ends the text before it, for a search of a marker with the same first byte. *)
Lemma bIndex_past pre m rest sub c :
  markerHead m c -> markerHead sub c ->
  bIndex (pre ++ m ++ rest) sub =
    if bContains pre sub then bIndex pre sub else Nat.add (length pre) <$> bIndex (m ++ rest) sub.
Proof. intros (t & -> & _) (ts & -> & Hs). cbn [app]. by apply bIndex_app. Qed.

Section Embedding.
Context {A B : bytes} {c : byte} (Hm : markers A B c).

Lemma bIndex_second rest : bIndex (A ++ rest) B = Nat.add (length A) <$> bIndex rest B.
Proof.
  destruct Hm as [(ta & -> & Ha) Hb Hap]. specialize (Hap rest).
  change ((c :: ta) ++ rest) with (c :: (ta ++ rest)) in *. cbn [bIndex]. rewrite Hap, (bIndex_skip _ _ _ c) by done.
  by destruct (bIndex rest B).
Qed.

(** Both markers are found where they stand. *)
Lemma embed_find pre mid post :
  bContains pre A = false -> bContains pre B = false -> bContains mid B = false ->
  bIndex (pre ++ A ++ mid ++ B ++ post) A = Some (length pre) /\
  bIndex (pre ++ A ++ mid ++ B ++ post) B = Some (length pre + (length A + length mid))%nat.
Proof.
  intros HA HB Hmid. pose proof Hm as [Ha Hb _]. split.
  - rewrite (bIndex_past _ _ _ _ c), HA, (bIndex_here _ _ c) by done. simpl. f_equal. lia.
  - rewrite (bIndex_past _ _ _ _ c), HB, bIndex_second by done.
    rewrite (bIndex_past _ _ _ _ c), Hmid, (bIndex_here _ _ c) by done. simpl. f_equal. lia.
Qed.

(** Markers that are found in this order stand in the text in this order. *)
Lemma embed_inv b i j :
  bIndex b A = Some i -> bIndex b B = Some j -> (i <= j)%nat ->
  exists pre mid post, b = pre ++ A ++ mid ++ B ++ post /\ i = length pre /\ j = (length pre + (length A + length mid))%nat /\
    bContains pre A = false /\ bContains pre B = false /\ bContains mid B = false.
Proof.
  intros EA EB Hij. pose proof Hm as [HA HB _].
  apply (bIndex_first _ _ c) in EA as (pre & rest & -> & <- & HpA); [|done].
  rewrite (bIndex_past _ _ _ _ c) in EB by done. destruct (bContains pre B) eqn:HpB.
  { apply bIndex_length in EB. destruct HB as (tb & -> & _). simpl in EB. lia. }
  rewrite bIndex_second in EB. destruct (bIndex rest B) as [n|] eqn:Er; [|done]. simpl in EB. injection EB as <-.
  apply (bIndex_first _ _ c) in Er as (mid & post & -> & <- & Hmid); [|done]. by exists pre, mid, post.
Qed.
End Embedding.

(** ** Markers in strings *)

Definition Markers (a b : string) : Prop := exists c, markers (bytes_of_string a) (bytes_of_string b) c.

(** The text [s] with its first marker [a], and its first marker [b] after it. *)
Definition embedded (s a b pre mid post : string) : Prop :=
  s = pre +:+ a +:+ mid +:+ b +:+ post /\ Contains pre a = false /\ Contains pre b = false /\ Contains mid b = false.

Lemma slen_app a b : slen (a +:+ b) = slen a + slen b.
Proof. unfold slen. rewrite <- !bytes_of_string_length, bytes_of_string_app, length_app. lia. Qed.

Lemma slen_nonneg s : 0 <= slen s.
Proof. unfold slen. lia. Qed.

Lemma slice_mid x y z : slice (x +:+ y +:+ z) (slen x) (slen x + slen y) = Some y.
Proof.
  unfold slice. pose proof (slen_nonneg x). pose proof (slen_nonneg y). pose proof (slen_nonneg z). rewrite !slen_app.
  destruct (Z.leb_spec 0 (slen x)); [|lia]. destruct (Z.leb_spec (slen x) (slen x + slen y)); [|lia].
  destruct (Z.leb_spec (slen x + slen y) (slen x + (slen y + slen z))); [|lia]. simpl.
  replace (slen x + slen y - slen x) with (slen y) by lia. unfold slen. rewrite !Nat2Z.id, <- !bytes_of_string_length.
  by rewrite !bytes_of_string_app, drop_app_length, take_app_length, string_of_bytes_of_string.
Qed.

Lemma sliceTo_app x y : sliceTo (x +:+ y) (slen x) = Some x.
Proof. apply (slice_mid EmptyString x y). Qed.

Lemma sliceFrom_app x y : sliceFrom (x +:+ y) (slen x) = Some y.
Proof.
  unfold sliceFrom. rewrite slen_app. rewrite <- (string_app_nil y) at 1. apply slice_mid.
Qed.

Lemma Index_embedded s a b pre mid post :
  Markers a b -> embedded s a b pre mid post ->
  Index s a = slen pre /\ Index s b = slen (pre +:+ a +:+ mid).
Proof.
  intros [c Hm] (-> & Ha & Hb & Hmid). unfold Index, Contains in *. rewrite !bytes_of_string_app.
  destruct (embed_find Hm _ _ (bytes_of_string post) Ha Hb Hmid) as [-> ->].
  rewrite !slen_app. unfold slen. rewrite <- !bytes_of_string_length. lia.
Qed.

(** Either the markers are not there in this order, or they delimit a text. *)
Lemma Index_cases s a b :
  Markers a b ->
  ((Index s a =? -1) || (Index s b =? -1) || (Index s b <? Index s a) = true) \/
  ((Index s a =? -1) || (Index s b =? -1) || (Index s b <? Index s a) = false /\
   exists pre mid post, embedded s a b pre mid post).
Proof.
  intros [c Hm]. destruct ((Index s a =? -1) || _ || _) eqn:E; [by left | right]. split; [done|].
  apply orb_false_iff in E as [[Ea Eb]%orb_false_iff Eab]. unfold Index in *.
  destruct (bIndex (bytes_of_string s) (bytes_of_string a)) as [i|] eqn:Ei; [|done].
  destruct (bIndex (bytes_of_string s) (bytes_of_string b)) as [j|] eqn:Ej; [|done].
  apply Z.ltb_ge in Eab. destruct (embed_inv Hm _ _ _ Ei Ej ltac:(lia)) as (pre & mid & post & Es & _ & _ & Ha & Hb & Hmid).
  exists (string_of_bytes pre), (string_of_bytes mid), (string_of_bytes post).
  unfold embedded, Contains. rewrite !bytes_of_string_of_bytes. split; [|done]. apply (inj bytes_of_string).
  by rewrite !bytes_of_string_app, !bytes_of_string_of_bytes.
Qed.

Lemma Index_found s a b pre mid post :
  Markers a b -> embedded s a b pre mid post ->
  (Index s a =? -1) || (Index s b =? -1) || (Index s b <? Index s a) = false.
Proof.
  intros Hm He. destruct (Index_embedded _ _ _ _ _ _ Hm He) as [-> ->]. pose proof (slen_nonneg pre).
  pose proof (slen_nonneg (pre +:+ a +:+ mid)). rewrite !slen_app in *. pose proof (slen_nonneg a). pose proof (slen_nonneg mid).
  destruct (Z.eqb_spec (slen pre) (-1)); [lia|]. destruct (Z.eqb_spec (slen pre + (slen a + slen mid)) (-1)); [lia|].
  by destruct (Z.ltb_spec (slen pre + (slen a + slen mid)) (slen pre)); [lia|].
Qed.

Lemma string_app_inj (x x' y y' : string) : slen x = slen x' -> x +:+ y = x' +:+ y' -> x = x' /\ y = y'.
Proof.
  intros Hl E. apply (f_equal bytes_of_string) in E. rewrite !bytes_of_string_app in E. apply app_inj_1 in E as [Ex Ey].
  - by split; apply (inj bytes_of_string).
  - unfold slen in Hl. rewrite !bytes_of_string_length. lia.
Qed.

(** A text has one such decomposition. *)
Lemma embedded_unique s a b pre mid post pre' mid' post' :
  Markers a b -> embedded s a b pre mid post -> embedded s a b pre' mid' post' -> pre = pre' /\ mid = mid' /\ post = post'.
Proof.
  intros Hm H1 H2. destruct (Index_embedded _ _ _ _ _ _ Hm H1) as [Ia Ib]. destruct (Index_embedded _ _ _ _ _ _ Hm H2) as [Ia' Ib'].
  destruct H1 as (-> & _). destruct H2 as (E & _). rewrite !slen_app in *.
  apply string_app_inj in E as [-> E]; [|lia]. apply string_app_inj in E as [_ E]; [|done].
  apply string_app_inj in E as [-> E]; [|lia]. by apply string_app_inj in E as [_ ->].
Qed.

(** Before or after a newline there is no occurrence of a text without newlines that
    reaches over it. *)
Lemma Contains_nl a b sub :
  x0a ∉ bytes_of_string sub -> sub <> EmptyString ->
  Contains (a +:+ nl +:+ b) sub = Contains a sub || Contains b sub.
Proof.
  intros Hnl Hne. unfold Contains. rewrite !bytes_of_string_app. change (bytes_of_string nl) with [x0a].
  assert (bytes_of_string sub <> []) as Hne' by by destruct sub.
  assert (x0a ∉ tail (bytes_of_string sub)) as Ht by (destruct (bytes_of_string sub); set_solver).
  cbn [app]. rewrite bContains_app by done. f_equal. cbn [bContains].
  destruct (bytes_of_string sub) as [|y t]; [done|]. cbn [bHasPrefix].
  destruct (Byte.eqb y x0a) eqn:E; [apply Byte.byte_dec_bl in E; set_solver | done].
Qed.

Lemma Contains_nl_r a sub :
  x0a ∉ bytes_of_string sub -> sub <> EmptyString -> Contains (a +:+ nl) sub = Contains a sub.
Proof.
  intros Hnl Hne. rewrite <- (string_app_nil nl), Contains_nl by done.
  assert (Contains EmptyString sub = false) as -> by (unfold Contains; by destruct sub). apply orb_false_r.
Qed.

(** A text without some byte of [sub] does not contain [sub]. *)
Lemma Contains_missing s sub c : c ∈ bytes_of_string sub -> c ∉ bytes_of_string s -> Contains s sub = false.
Proof.
  intros Hin Hout. unfold Contains. apply not_true_iff_false. intros (l & r & E)%bContains_spec.
  apply Hout. rewrite E, !elem_of_app. auto.
Qed.

Lemma Contains_prefix a b sub : Contains (a +:+ b) sub = false -> Contains a sub = false.
Proof.
  unfold Contains. intros E. apply not_true_iff_false. intros (l & r & Ea)%bContains_spec.
  apply not_true_iff_false in E. apply E, bContains_spec. exists l, (r ++ bytes_of_string b).
  rewrite bytes_of_string_app, Ea. by rewrite <- !(assoc_L (++)).
Qed.

(** Trimming takes a run of the characters off one end. *)
Lemma bTrimLeft_split cut b : exists n, b = n ++ bTrimLeft cut b /\ Forall (fun c => cut c = true) n.
Proof.
  induction b as [|c b (n & E & Hn)]; [by exists []|]. simpl. destruct (cut c) eqn:Ec.
  - exists (c :: n). split; [by rewrite E at 1 | by constructor].
  - by exists [].
Qed.

Lemma bTrimLeft_skip cut n b : Forall (fun c => cut c = true) n -> bTrimLeft cut (n ++ b) = bTrimLeft cut b.
Proof. induction 1 as [|c n Hc _ IH]; [done|]. simpl. by rewrite Hc. Qed.

Lemma bTrimLeft_idemp cut b : bTrimLeft cut (bTrimLeft cut b) = bTrimLeft cut b.
Proof. destruct (bTrimLeft_split cut b) as (n & E & Hn). rewrite E at 2. by rewrite bTrimLeft_skip. Qed.

Lemma TrimLeft_nl s : TrimLeft isNewline (nl +:+ s) = TrimLeft isNewline s.
Proof. unfold TrimLeft. by rewrite bytes_of_string_app. Qed.

Lemma TrimLeft_idemp cut s : TrimLeft cut (TrimLeft cut s) = TrimLeft cut s.
Proof. unfold TrimLeft. by rewrite bytes_of_string_of_bytes, bTrimLeft_idemp. Qed.

Lemma TrimRight_nl s : TrimRight isNewline (s +:+ nl) = TrimRight isNewline s.
Proof. unfold TrimRight, bTrimRight. by rewrite bytes_of_string_app, rev_app_distr. Qed.

Lemma TrimRight_nl2 s : TrimRight isNewline (s +:+ nl +:+ nl) = TrimRight isNewline s.
Proof. by rewrite string_app_assoc, !TrimRight_nl. Qed.

Lemma TrimRight_idemp cut s : TrimRight cut (TrimRight cut s) = TrimRight cut s.
Proof. unfold TrimRight, bTrimRight. by rewrite bytes_of_string_of_bytes, rev_involutive, bTrimLeft_idemp. Qed.

Lemma TrimRight_prefix cut s : exists n, s = TrimRight cut s +:+ n.
Proof.
  destruct (bTrimLeft_split cut (rev (bytes_of_string s))) as (n & E & _). exists (string_of_bytes (rev n)).
  apply (inj bytes_of_string). unfold TrimRight, bTrimRight. rewrite bytes_of_string_app, !bytes_of_string_of_bytes.
  by rewrite <- rev_app_distr, <- E, rev_involutive.
Qed.

(** Printed integers are digits, after a sign. *)
Lemma formatDigits_digits fuel n acc :
  0 <= n -> Forall (fun c => isDigit c = true) acc -> Forall (fun c => isDigit c = true) (formatDigits fuel n acc).
Proof.
  revert n acc. induction fuel as [|f IH]; intros n acc Hn Ha; [done|].
  cbn [formatDigits]. pose proof (Z.mod_pos_bound n 10 ltac:(lia)).
  assert (Forall (fun c => isDigit c = true) (digit (n mod 10) :: acc)) as Hd.
  { constructor; [|done]. apply isDigit_digit. lia. }
  destruct (n <? 10); [done|]. apply IH; [apply Z.div_pos; lia | done].
Qed.

Lemma Itoa_chars z c : c ∈ bytes_of_string (Itoa z) -> isDigit c = true \/ c = x2d.
Proof.
  unfold Itoa, FormatInt. rewrite bytes_of_string_of_bytes. unfold FormatIntBytes.
  assert (Hd : forall n, 0 <= n -> c ∈ formatDigits 20 n [] -> isDigit c = true).
  { intros n Hn Hc. pose proof (formatDigits_digits 20 n [] Hn ltac:(constructor)) as Hf.
    rewrite list.Forall_forall in Hf. auto. }
  destruct (Z.ltb_spec z 0).
  - intros [->|Hc]%elem_of_cons; [by right|]. left. eapply Hd; [|done]. lia.
  - intros Hc. left. by eapply Hd.
Qed.

(** ** Removing a line *)

(** No occurrence of [sub] begins in [a], when [r] follows. *)
Fixpoint noStart (a r sub : bytes) : Prop :=
  match a with
  | [] => True
  | _ :: a' => bHasPrefix (a ++ r) sub = false /\ noStart a' r sub
  end.

Lemma noStart_app a b r sub : noStart (a ++ b) r sub <-> noStart a (b ++ r) sub /\ noStart b r sub.
Proof.
  induction a as [|c a IH]; [simpl; tauto|]. cbn [app noStart]. rewrite IH, <- (assoc_L (++)). tauto.
Qed.

Lemma bContains_noStart b sub : sub <> [] -> bContains b sub = false <-> noStart b [] sub.
Proof.
  intros Hne. induction b as [|c b IH]; [by destruct sub|]. cbn [bContains noStart]. rewrite app_nil_r, orb_false_iff, IH. done.
Qed.

Lemma bRemoveAll_past a r sub : noStart a r sub -> bRemoveAll O (a ++ r) sub = a ++ bRemoveAll O r sub.
Proof.
  induction a as [|c a IH]; [done|]. intros [Hp Ha]. cbn [app] in *. cbn [bRemoveAll]. by rewrite Hp, IH.
Qed.

Lemma bRemoveAll_skip t r sub : bRemoveAll (length t) (t ++ r) sub = bRemoveAll O r sub.
Proof. induction t as [|c t IH]; [done|]. simpl. done. Qed.

Lemma bRemoveAll_here sub r : sub <> [] -> bRemoveAll O (sub ++ r) sub = bRemoveAll O r sub.
Proof.
  destruct sub as [|c t]; [done|]. intros _. cbn [app bRemoveAll]. rewrite app_comm_cons, bHasPrefix_app.
  cbn [length pred]. apply bRemoveAll_skip.
Qed.

Lemma bRemoveAll_none b sub : sub <> [] -> bContains b sub = false -> bRemoveAll O b sub = b.
Proof.
  intros Hne Hb%bContains_noStart; [|done]. rewrite <- (app_nil_r b) at 1. rewrite bRemoveAll_past by done.
  simpl. apply app_nil_r.
Qed.

(** Where the texts differ, whatever follows. *)
Fixpoint clash (y sub : bytes) : bool :=
  match y, sub with
  | a :: y', b :: sub' => if Byte.eqb b a then clash y' sub' else true
  | _, _ => false
  end.
Fixpoint clashes (a sub : bytes) : bool :=
  match a with [] => true | _ :: a' => clash a sub && clashes a' sub end.

Lemma clash_prefix y sub w : clash y sub = true -> bHasPrefix (y ++ w) sub = false.
Proof.
  revert sub. induction y as [|a y IH]; intros [|b sub]; simpl; [done..|]. destruct (Byte.eqb b a); [apply IH | done].
Qed.

Lemma clashes_noStart a sub w : clashes a sub = true -> noStart a w sub.
Proof. induction a as [|c a IH]; [done|]. cbn [clashes]. intros [Hc Ha]%andb_true_iff. split; [by apply clash_prefix | auto]. Qed.

(** A line of [sub] that begins in a text of whole lines lies in it. *)
Lemma line_inside text y0 q r : x0a ∉ text -> text ++ x0a :: q = y0 ++ x0a :: r -> exists q', y0 ++ [x0a] = text ++ x0a :: q'.
Proof.
  revert y0. induction text as [|c text IH]; intros [|y y0] Hnl E; simplify_eq/=.
  - by exists [].
  - by exists (y0 ++ [x0a]).
  - exfalso. apply Hnl. by left.
  - destruct (IH y0) as [q' Eq]; [set_solver|done|]. exists q'. by rewrite Eq.
Qed.

(** Text that ends where a line ends. *)
Definition wholeLines (a : bytes) : Prop := a = [] \/ exists a0, a = a0 ++ [x0a].

Lemma noStart_lines a w r text :
  x0a ∉ text -> wholeLines a -> noStart a w (text ++ [x0a]) -> noStart a r (text ++ [x0a]).
Proof.
  intros Hnl [->|[a0 ->]]; [done|]. intros [Ha Hl]%noStart_app. apply noStart_app. split.
  - clear Hl. induction a0 as [|c a0 IH]; [done|]. cbn [noStart] in *. destruct Ha as [Hp Ha]. split; [|by apply IH].
    apply not_true_iff_false. intros (q & E)%bHasPrefix_spec. apply not_true_iff_false in Hp. apply Hp.
    rewrite <- (assoc_L (++)) in E. cbn [app] in E.
    destruct (line_inside text (c :: a0) q r Hnl) as [q' Eq]; [by rewrite <- E|].
    apply bHasPrefix_spec. exists (q' ++ w). rewrite (assoc_L (++) (c :: a0)), Eq. by rewrite <- !(assoc_L (++)).
  - destruct text as [|c t]; cbn in *; [destruct Hl; done|]. split; [|done].
    destruct (Byte.eqb c x0a) eqn:E; [|done]. apply Byte.byte_dec_bl in E as ->. exfalso. apply Hnl. by left.
Qed.

(** ** Lines *)

Lemma bLines_line cur l rest : x0a ∉ l -> bLines cur (l ++ x0a :: rest) = (cur ++ l) :: bLines [] rest.
Proof.
  revert cur. induction l as [|c l IH]; intros cur; simpl; [by rewrite app_nil_r|]. intros [Hc Hl]%not_elem_of_cons.
  unfold isNewline. destruct (Byte.eqb c x0a) eqn:E; [apply Byte.byte_dec_bl in E; congruence|]. by rewrite IH, <- (assoc_L (++)).
Qed.
Lemma bLines_nonempty cur b : bLines cur b <> [].
Proof. revert cur. induction b as [|c b IH]; intros cur; [done|]. simpl. by destruct (isNewline c). Qed.
