(* ===== verification/DocSections.v ===== *)
(** * The generated sections of README.md

    Three tools each own a part of README.md between two markers and rewrite it in
    place: [docs/readme/main.go] the API reference, [docs/readme/testcounts/main.go]
    (and an older copy in [docs/readme/main.go]) the test badges, and
    [docs/bench/render.go] the benchmark charts.  Around the markers the text is
    written by hand.  A slice out of range, which panics in Go, is [None]. *)

From S2P Require Import Prelude GoStd GoText.

(** ** docs/readme/main.go *)

Definition apiStart : string := "<!-- api:embed:start -->".
Definition apiEnd : string := "<!-- api:embed:end -->".
Definition testCountStart : string := "<!-- test-count:embed:start -->".
Definition testCountEnd : string := "<!-- test-count:embed:end -->".

(** [start == -1 || end == -1 || end < start] *)
Definition malformed (start end_ : Z) : bool := (start =? -1) || (end_ =? -1) || (end_ <? start).

Definition replaceAPISection (readme api : string) : option (string * option error) :=
  let start := Index readme apiStart in
  let end_ := Index readme apiEnd in
  if malformed start end_
  then Some (EmptyString, Some (ErrorString "API anchors not found or malformed"))
  else
    before ← sliceTo readme (start + slen apiStart);
    after ← sliceFrom readme end_;
    Some (before +:+ nl +:+ nl +:+ api +:+ nl +:+ after, None).

Record TestCounts := mkTestCounts {
  UnitFuncs : Z; IntegrationFuncs : Z; UnitStaticSubtests : Z; IntegrationStaticSubtests : Z
}.
Record ContractMatrix := mkContractMatrix { Drivers : Z; Cases : Z; InvariantSubtests : Z }.

(** A double quote. *)
Definition quote : string := String.string_of_list_byte [x22].

(** The [<img>] line of one badge. *)
Definition badge (subject colour alt : string) (n : Z) : string :=
  "    <img src=" +:+ quote +:+ "https://img.shields.io/badge/" +:+ subject +:+ "-" +:+ Itoa n +:+ "-" +:+ colour +:+ quote +:+
  " alt=" +:+ quote +:+ alt +:+ quote +:+ ">".

(** Both versions keep the line end after the first marker, if there is one. *)
Definition replaceBadges (readme : string) (lines : list string) : option (string * option error) :=
  let start := Index readme testCountStart in
  let end_ := Index readme testCountEnd in
  if malformed start end_
  then Some (EmptyString, Some (ErrorString "test count anchors not found or malformed"))
  else
    before ← sliceTo readme (start + slen testCountStart);
    body ← slice readme (start + slen testCountStart) end_;
    after ← sliceFrom readme end_;
    let leading := if HasPrefix body nl then nl else EmptyString in
    Some (before +:+ leading +:+ Join lines nl +:+ nl +:+ after, None).

Definition updateTestsSection (readme : string) (tests : TestCounts) (_ : ContractMatrix) : option (string * option error) :=
  replaceBadges readme
    [badge "unit_tests" "brightgreen" "Unit tests (static count of Test funcs)" (UnitFuncs tests);
     badge "integration_tests" "blue" "Integration tests (static count of Test funcs)" (IntegrationFuncs tests)].

(** ** docs/readme/testcounts/main.go *)

Record Counts := mkCounts { Unit : Z; Integration : Z }.

Definition testcounts_updateTestsSection (readme : string) (counts : Counts) : option (string * option error) :=
  replaceBadges readme
    [badge "unit_tests" "brightgreen" "Unit tests (executed count)" (Unit counts);
     badge "integration_tests" "blue" "Integration tests (executed count)" (Integration counts)].

(** ** docs/bench/render.go *)

Definition benchStart : string := "<!-- bench:embed:start -->".
Definition benchEnd : string := "<!-- bench:embed:end -->".

(** A file that has no markers gets the table at its end. *)
Definition injectTable (readme table : string) : option string :=
  let start := Index readme benchStart in
  let end_ := Index readme benchEnd in
  if malformed start end_ then Some (readme +:+ table)
  else
    before ← sliceTo readme start;
    after ← sliceFrom readme (end_ + slen benchEnd);
    Some (TrimRight isNewline before +:+ nl +:+ nl +:+ table +:+ nl +:+ TrimLeft isNewline after).

(** The chart section, which does not depend on the rows. *)
Definition renderTable {Rows : Type} (_ : Rows) : string :=
  let para (s : string) := s +:+ nl +:+ nl in
  para benchStart +:+
  para "Note: DynamoDB is intentionally omitted from these local charts because emulator-based numbers are not representative of real AWS latency." +:+
  para "NATS variants in these charts:" +:+
  "- `nats`: per-key TTL semantics using a binary envelope (`magic/expiresAt/value`). This preserves per-key expiry parity with other drivers, with modest metadata overhead." +:+ nl +:+
  para "- `nats_bucket_ttl`: bucket-level TTL mode (`WithNATSBucketTTL(true)`), raw value path; faster but different expiry semantics." +:+
  para "### Latency (ns/op)" +:+
  para "![Cache benchmark latency chart](docs/bench/benchmarks_ns.svg)" +:+
  para "### Iterations (N)" +:+
  para "![Cache benchmark iteration chart](docs/bench/benchmarks_ops.svg)" +:+
  para "### Allocated Bytes (B/op)" +:+
  para "![Cache benchmark bytes chart](docs/bench/benchmarks_bytes.svg)" +:+
  para "### Allocations (allocs/op)" +:+
  para "![Cache benchmark allocs chart](docs/bench/benchmarks_allocs.svg)" +:+
  benchEnd +:+ nl.

(** ** The markers *)

Ltac these_markers :=
  exists x3c; split;
  [eexists; split; [vm_compute; reflexivity | apply (bool_decide_unpack _); vm_compute; exact I]..
  | intros r; vm_compute; reflexivity].

Lemma api_markers : Markers apiStart apiEnd.
Proof. these_markers. Qed.
Lemma test_markers : Markers testCountStart testCountEnd.
Proof. these_markers. Qed.
Lemma bench_markers : Markers benchStart benchEnd.
Proof. these_markers. Qed.

#[local] Hint Resolve api_markers test_markers bench_markers : core.

(** ** One section *)

(** A tool that replaces the text [mid] between two markers by [fill mid]. *)
Definition rewrites (a b : string) (tool : string -> option (string * option error)) (fill : string -> string) : Prop :=
  forall s, (malformed (Index s a) (Index s b) = true /\ exists e, tool s = Some (EmptyString, Some e)) \/
    exists pre mid post, embedded s a b pre mid post /\ tool s = Some (pre +:+ a +:+ fill mid +:+ b +:+ post, None).

(** When the new text has no closing marker, the section is found again: a second
    tool finds there what the first one left, and the same text around it. *)
Lemma rewrites_again a b tool tool' fill fill' s out :
  Markers a b -> rewrites a b tool fill -> rewrites a b tool' fill' ->
  (forall mid, Contains (fill mid) b = false) -> (forall mid, fill' (fill mid) = fill' mid) ->
  tool s = Some (out, None) -> tool' out = tool' s.
Proof.
  intros Hm Ht Ht' Hfree Hfill E. destruct (Ht s) as [[_ [e He]]|(pre & mid & post & He & Eout)]; [congruence|].
  rewrite Eout in E. injection E as <-. pose proof He as (Es & Ha & Hb & _).
  assert (embedded (pre +:+ a +:+ fill mid +:+ b +:+ post) a b pre (fill mid) post) as He' by (split; [done | auto]).
  assert (Hat : forall s0 mid0, embedded s0 a b pre mid0 post -> tool' s0 = Some (pre +:+ a +:+ fill' mid0 +:+ b +:+ post, None)).
  { intros s0 mid0 H0. pose proof (Index_found _ _ _ _ _ _ Hm H0) as Hf. destruct (Index_embedded _ _ _ _ _ _ Hm H0) as [Ia Ib].
    destruct (Ht' s0) as [[Hmal _]|(pre1 & mid1 & post1 & H1 & ->)]; [unfold malformed in Hmal; congruence|].
    destruct (embedded_unique _ _ _ _ _ _ _ _ _ Hm H0 H1) as (-> & -> & ->). done. }
  by rewrite (Hat _ _ He'), (Hat _ _ He), Hfill.
Qed.

(** The slices at the markers. *)
Lemma slices_at s a b pre mid post :
  Markers a b -> embedded s a b pre mid post ->
  sliceTo s (Index s a + slen a) = Some (pre +:+ a) /\
  slice s (Index s a + slen a) (Index s b) = Some mid /\
  sliceFrom s (Index s b) = Some (b +:+ post).
Proof.
  intros Hm He. destruct (Index_embedded _ _ _ _ _ _ Hm He) as [-> ->]. destruct He as (-> & _).
  assert (pre +:+ a +:+ mid +:+ b +:+ post = (pre +:+ a) +:+ mid +:+ b +:+ post) as E1 by by rewrite !string_app_assoc.
  assert (pre +:+ a +:+ mid +:+ b +:+ post = (pre +:+ a +:+ mid) +:+ b +:+ post) as E2 by by rewrite !string_app_assoc.
  rewrite <- (slen_app pre a). split; [rewrite E1; apply sliceTo_app|]. split; [|rewrite E2; apply sliceFrom_app].
  rewrite E1. replace (slen (pre +:+ a +:+ mid)) with (slen (pre +:+ a) + slen mid); [apply slice_mid|].
  rewrite !slen_app. lia.
Qed.

Lemma replaceAPISection_rewrites api :
  rewrites apiStart apiEnd (fun readme => replaceAPISection readme api) (fun _ => nl +:+ nl +:+ api +:+ nl).
Proof.
  intros s. unfold replaceAPISection. destruct (Index_cases s apiStart apiEnd) as [E|[E (pre & mid & post & He)]]; [done|..];
    fold (malformed (Index s apiStart) (Index s apiEnd)) in E; cbv zeta; rewrite E; [left; eauto | right].
  exists pre, mid, post. split; [done|]. destruct (slices_at _ _ _ _ _ _ api_markers He) as (-> & _ & ->). simpl.
  by rewrite !string_app_assoc.
Qed.

Definition badgesBody (lines : list string) (body : string) : string :=
  (if HasPrefix body nl then nl else EmptyString) +:+ Join lines nl +:+ nl.

Lemma replaceBadges_rewrites lines :
  rewrites testCountStart testCountEnd (fun readme => replaceBadges readme lines) (badgesBody lines).
Proof.
  intros s. unfold replaceBadges. destruct (Index_cases s testCountStart testCountEnd) as [E|[E (pre & mid & post & He)]]; [done|..];
    fold (malformed (Index s testCountStart) (Index s testCountEnd)) in E; cbv zeta; rewrite E; [left; eauto | right].
  exists pre, mid, post. split; [done|]. destruct (slices_at _ _ _ _ _ _ test_markers He) as (-> & -> & ->). simpl.
  unfold badgesBody. by rewrite !string_app_assoc.
Qed.

(** A line that is no newline after the one that is kept keeps it. *)
Lemma badgesBody_again lines lines' body :
  HasPrefix (Join lines nl) nl = false -> Join lines nl <> EmptyString ->
  badgesBody lines' (badgesBody lines body) = badgesBody lines' body.
Proof.
  intros Hp Hne. unfold badgesBody. destruct (HasPrefix body nl); [by rewrite HasPrefix_app|].
  change (EmptyString +:+ Join lines nl +:+ nl) with (Join lines nl +:+ nl).
  destruct (HasPrefix (Join lines nl +:+ nl) nl) eqn:E; [|done]. exfalso.
  unfold HasPrefix in *. rewrite bytes_of_string_app in E. destruct (bytes_of_string (Join lines nl)) as [|c t] eqn:Ej.
  - apply Hne, (inj bytes_of_string). by rewrite Ej.
  - cbn in E, Hp. congruence.
Qed.

Lemma badge_no_marker subject colour alt n :
  x21 ∉ bytes_of_string subject -> x21 ∉ bytes_of_string colour -> x21 ∉ bytes_of_string alt ->
  x21 ∉ bytes_of_string (badge subject colour alt n).
Proof.
  intros Hs Hc Ha. unfold badge. rewrite !bytes_of_string_app, !not_elem_of_app.
  assert (x21 ∉ bytes_of_string (Itoa n)) as Hi by by intros [?|?]%Itoa_chars.
  repeat (split; [first [done | apply (bool_decide_unpack _); vm_compute; exact I]|]).
  apply (bool_decide_unpack _); vm_compute; exact I.
Qed.

(** ** What the tools do to README.md *)

(** Writing the API reference into what an earlier run wrote gives what it would have
    given on the original file, when the earlier reference has no closing marker. *)
Lemma replaceAPISection_again readme api out api' :
  Contains api apiEnd = false ->
  replaceAPISection readme api = Some (out, None) -> replaceAPISection out api' = replaceAPISection readme api'.
Proof.
  intros Hapi. apply (rewrites_again _ _ _ _ _ _ readme out api_markers (replaceAPISection_rewrites api) (replaceAPISection_rewrites api')); [|done].
  intros _. assert (Hn : x0a ∉ bytes_of_string apiEnd) by (apply (bool_decide_unpack _); vm_compute; exact I).
  rewrite <- (Contains_nl_r api) in Hapi by done.
  change (nl +:+ nl +:+ api +:+ nl) with (EmptyString +:+ nl +:+ (EmptyString +:+ nl +:+ api +:+ nl)).
  rewrite !Contains_nl by done. by rewrite Hapi.
Qed.

(** The badges are stable in the same way, for every count. *)
Theorem testcounts_updateTestsSection_stable readme counts counts' out :
  testcounts_updateTestsSection readme counts = Some (out, None) ->
  testcounts_updateTestsSection out counts' = testcounts_updateTestsSection readme counts'.
Proof.
  unfold testcounts_updateTestsSection.
  eapply (rewrites_again _ _ _ _ _ _ readme out test_markers (replaceBadges_rewrites _) (replaceBadges_rewrites _)).
  - intros mid. apply (Contains_missing _ _ x21); [apply (bool_decide_unpack _); vm_compute; exact I|].
    unfold badgesBody. cbn [Join]. rewrite !bytes_of_string_app, !not_elem_of_app.
    repeat split; try (apply badge_no_marker; apply (bool_decide_unpack _); vm_compute; exact I);
      try (apply (bool_decide_unpack _); vm_compute; exact I).
    destruct (HasPrefix mid nl); apply (bool_decide_unpack _); vm_compute; exact I.
  - intros mid. by apply badgesBody_again.
Qed.

(** ** The benchmark section *)

(** A table with the markers around its text. *)
Definition tableOf (text : string) : string := benchStart +:+ text +:+ benchEnd +:+ nl.

Lemma renderTable_table {Rows : Type} (rows : Rows) :
  exists text, renderTable rows = tableOf text /\ Contains text benchEnd = false.
Proof.
  exists (string_of_bytes (drop (length (bytes_of_string benchStart))
    (take (length (bytes_of_string (renderTable tt)) - length (bytes_of_string (benchEnd +:+ nl))) (bytes_of_string (renderTable tt))))).
  change (renderTable rows) with (renderTable tt). split; [by vm_compute | by vm_compute].
Qed.

Lemma injectTable_embedded s pre mid post table :
  embedded s benchStart benchEnd pre mid post ->
  injectTable s table = Some (TrimRight isNewline pre +:+ nl +:+ nl +:+ table +:+ nl +:+ TrimLeft isNewline post).
Proof.
  intros He. unfold injectTable. destruct (Index_embedded _ _ _ _ _ _ bench_markers He) as [Ia Ib].
  pose proof (Index_found _ _ _ _ _ _ bench_markers He) as Hf. fold (malformed (Index s benchStart) (Index s benchEnd)) in Hf.
  rewrite Hf, Ia, Ib. destruct He as (-> & _). rewrite sliceTo_app. simpl.
  assert (pre +:+ benchStart +:+ mid +:+ benchEnd +:+ post = (pre +:+ benchStart +:+ mid +:+ benchEnd) +:+ post) as E
    by by rewrite !string_app_assoc.
  rewrite E. replace (slen (pre +:+ benchStart +:+ mid) + slen benchEnd) with (slen (pre +:+ benchStart +:+ mid +:+ benchEnd))
    by (rewrite !slen_app; lia).
  by rewrite sliceFrom_app.
Qed.

Lemma bench_no_nl : (x0a ∉ bytes_of_string benchStart) /\ (x0a ∉ bytes_of_string benchEnd).
Proof. split; apply (bool_decide_unpack _); vm_compute; exact I. Qed.

(** A table written into a file is its only section, found by the next run. *)
Lemma table_embedded pre text post :
  Contains pre benchStart = false -> Contains pre benchEnd = false -> Contains text benchEnd = false ->
  embedded (pre +:+ nl +:+ nl +:+ tableOf text +:+ nl +:+ post) benchStart benchEnd (pre +:+ nl +:+ nl) text (nl +:+ nl +:+ post).
Proof.
  intros Ha Hb Ht. destruct bench_no_nl. split; [unfold tableOf; by rewrite !string_app_assoc|].
  rewrite !string_app_assoc, !Contains_nl_r by done. auto.
Qed.

(** The benchmark tool keeps the text around its section, up to the blank lines
    next to it, and a later run replaces what it wrote, so the section does not
    multiply.  In a file with neither marker the table is put at the end, and the next
    run finds it there. *)
Theorem injectTable_stable readme text text' :
  Contains text benchEnd = false ->
  (forall pre mid post, embedded readme benchStart benchEnd pre mid post ->
    exists out, injectTable readme (tableOf text) = Some out /\
      out = TrimRight isNewline pre +:+ nl +:+ nl +:+ tableOf text +:+ nl +:+ TrimLeft isNewline post /\
      injectTable out (tableOf text') = injectTable readme (tableOf text')) /\
  (Contains readme benchStart = false -> Contains readme benchEnd = false ->
    injectTable readme (tableOf text) = Some (readme +:+ tableOf text) /\
    exists out, injectTable (readme +:+ tableOf text) (tableOf text') = Some out /\
      out = TrimRight isNewline readme +:+ nl +:+ nl +:+ tableOf text' +:+ nl).
Proof.
  intros Ht. split.
  - intros pre mid post He. rewrite (injectTable_embedded _ _ _ _ (tableOf text) He). eexists. split; [done|]. split; [done|].
    destruct (TrimRight_prefix isNewline pre) as [n En]. pose proof He as (_ & Ha & Hb & _). rewrite En in Ha, Hb.
    apply Contains_prefix in Ha, Hb.
    rewrite (injectTable_embedded _ _ _ _ (tableOf text') (table_embedded _ _ (TrimLeft isNewline post) Ha Hb Ht)).
    rewrite (injectTable_embedded _ _ _ _ (tableOf text') He).
    by rewrite TrimRight_nl2, TrimRight_idemp, !TrimLeft_nl, TrimLeft_idemp.
  - intros Ha Hb.
    assert (malformed (Index readme benchStart) (Index readme benchEnd) = true) as Hmal.
    { unfold Index, Contains in *. apply bIndex_None in Ha as ->. done. }
    split; [unfold injectTable; by rewrite Hmal|].
    assert (embedded (readme +:+ tableOf text) benchStart benchEnd readme text nl) as He by done.
    rewrite (injectTable_embedded _ _ _ _ _ He). eexists. split; [done|].
    change (TrimLeft isNewline nl) with EmptyString. by rewrite string_app_nil.
Qed.
