(* ===== verification/DocComments.v ===== *)
(** * Documentation comments

    What [docs/readme/main.go] and [docs/examplegen/main.go] read out of the comment
    above a declaration: its group, behaviour and description, and its runnable
    examples.  [go/parser] gives the comments: a comment is its text and the line it
    begins on. *)

From stdpp Require Import sorting.
From S2P Require Import Prelude GoStd GoText.

Record Comment := mkComment { Text : string; Line : Z }.

(** A [*ast.CommentGroup] *)
Abbreviation CommentGroup := (list Comment).

(** ** The directives

    The patterns are [(?i)^\s*WORD\s+(.+)$], and for examples [(?i)^\s*Example:\s*]
    with the rest of the line as its group.  No letter of these words has a case variant
    outside ASCII. *)

(** [\s] *)
Definition reSpace (c : byte) : bool := match c with x09 | x0a | x0c | x0d | x20 => true | _ => false end.

Definition foldByte (c : byte) : byte :=
  let z := byte_to_Z c in if (65 <=? z) && (z <=? 90) then byte_of_Z (z + 32) else c.

(** What follows the word [w], in either case, at the head of [b]. *)
Fixpoint afterWord (w b : bytes) : option bytes :=
  match w, b with
  | [], _ => Some b
  | _ :: _, [] => None
  | x :: w', y :: b' => if Byte.eqb (foldByte x) (foldByte y) then afterWord w' b' else None
  end.

(** [.] matches every character but a newline, and [$] the end of the text. *)
Definition oneLine (b : bytes) : bool := negb (existsb isNewline b).

(** The group of [(?i)^\s*WORD\s+(.+)$].  When nothing but white space follows, the
    pattern gives the last of it back to the group. *)
Definition directive (word : string) (line : string) : option string :=
  r ← afterWord (bytes_of_string word) (bTrimLeft reSpace (bytes_of_string line));
  let body := bTrimLeft reSpace r in
  let spaces := take (length r - length body) r in
  match body with
  | _ :: _ => if (0 <? len spaces) && oneLine body then Some (string_of_bytes body) else None
  | [] =>
      match rev spaces with
      | c :: _ :: _ => if isNewline c then None else Some (string_of_bytes [c])
      | _ => None
      end
  end.

Definition groupHeader := directive "@group".
Definition behaviorHeader := directive "@behavior".
Definition fluentHeader := directive "@fluent".

Definition exampleHeader (line : string) : option string :=
  r ← afterWord (bytes_of_string "Example:") (bTrimLeft reSpace (bytes_of_string line));
  let body := bTrimLeft reSpace r in
  if oneLine body then Some (string_of_bytes body) else None.

Definition matched (o : option string) : bool := bool_decide (is_Some o).

(** ** docs/readme/main.go *)

(** [strings.TrimSpace(strings.TrimPrefix(c.Text, "//"))] *)
Definition commentLine (c : Comment) : string := TrimSpace (TrimPrefix (Text c) "//").

(** The first comment line that matches a directive. *)
Fixpoint firstDirective (header : string -> option string) (group : CommentGroup) : option string :=
  match group with
  | [] => None
  | c :: rest =>
      match header (commentLine c) with
      | Some m => Some (TrimSpace m)
      | None => firstDirective header rest
      end
  end.

Definition extractGroup (group : CommentGroup) : string := default "Other" (firstDirective groupHeader group).
Definition extractBehavior (group : CommentGroup) : string :=
  default EmptyString (ToLower <$> firstDirective behaviorHeader group).
Definition extractFluent (group : CommentGroup) : string :=
  default EmptyString (ToLower <$> firstDirective fluentHeader group).

(** The loop of [extractDescription]: [lines] is what it has collected. *)
Fixpoint descriptionLines (group : CommentGroup) (lines : list string) : list string :=
  match group with
  | [] => lines
  | c :: rest =>
      let line := commentLine c in
      if matched (exampleHeader line) || matched (groupHeader line) || matched (behaviorHeader line) || matched (fluentHeader line)
      then lines
      else if (len lines =? 0) && bool_decide (line = EmptyString) then descriptionLines rest lines
      else descriptionLines rest (lines ++ [line])
  end.
Definition extractDescription (group : CommentGroup) : string := TrimSpace (Join (descriptionLines group []) nl).

(** The indentation of a line: its leading spaces and tabs. *)
Definition indentOf (l : string) : Z := slen l - slen (TrimLeft isIndent l).

Fixpoint minIndent (lines : list string) (min : Z) : Z :=
  match lines with
  | [] => min
  | l :: rest =>
      if bool_decide (TrimSpace l = EmptyString) then minIndent rest min
      else let n := indentOf l in
           minIndent rest (if (min =? -1) || (n <? min) then n else min)
  end.

(** [l[min:]] is in range where it is taken. *)
Definition normalizeIndent (lines : list string) : list string :=
  let min := minIndent lines (-1) in
  if min <=? 0 then lines
  else (fun l => if slen l >=? min then string_of_bytes (drop (Z.to_nat min) (bytes_of_string l))
                 else TrimLeft isIndent l) <$> lines.

Record Example_ := mkExample { ex_Label : string; ex_Code : string; ex_Line : Z }.

(** The variables of the loop that collects examples, for lines of type [L]. *)
Record exampleState (L : Type) := mkExampleState {
  es_out : list (string * Z * list L); es_current : list L; es_label : string; es_start : Z; es_inExample : bool
}.
Arguments mkExampleState {_}.
Arguments es_out {_}.
Arguments es_current {_}.
Arguments es_label {_}.
Arguments es_start {_}.
Arguments es_inExample {_}.

Section Examples.
Context {L : Type} (header : L -> option string) (lineOf : L -> Z).

Definition flushExample (st : exampleState L) : exampleState L :=
  match es_current st with
  | [] => st
  | _ => mkExampleState (es_out st ++ [(es_label st, es_start st, es_current st)]) [] EmptyString (es_start st) false
  end.

Definition exampleStep (st : exampleState L) (c : L) : exampleState L :=
  match header c with
  | Some m =>
      let st := flushExample st in
      mkExampleState (es_out st) (es_current st) (TrimSpace m) (lineOf c) true
  | None =>
      if es_inExample st
      then mkExampleState (es_out st) (es_current st ++ [c]) (es_label st) (es_start st) true
      else st
  end.

(** The examples, each with its label, its line and the lines under its header. *)
Definition exampleBlocks (cs : list L) : list (string * Z * list L) :=
  es_out (flushExample (fold_left exampleStep cs (mkExampleState [] [] EmptyString 0 false))).
End Examples.

Definition extractExamples (doc : CommentGroup) : list Example_ :=
  (fun '(label, start, cs) =>
     mkExample label (Join (normalizeIndent ((fun c => TrimPrefix (Text c) "//") <$> cs)) nl) start) <$>
  exampleBlocks (fun c => exampleHeader (commentLine c)) Line doc.

(** ** docs/examplegen/main.go *)

(** A [docLine]; block comments have none.  One space and one tab are taken off. *)
Record docLine := mkDocLine { dl_text : string; dl_pos : Z }.

Definition docLineOf (c : Comment) : option docLine :=
  if HasPrefix (Text c) "//" then
    let line := TrimPrefix (Text c) "//" in
    let line := if HasPrefix line " " then TrimPrefix line " " else line in
    let tab := String.string_of_list_byte [x09] in
    let line := if HasPrefix line tab then TrimPrefix line tab else line in
    Some (mkDocLine line (Line c))
  else None.
Definition docLines (group : CommentGroup) : list docLine := omap docLineOf group.

Fixpoint firstGroup (lines : list docLine) : option string :=
  match lines with
  | [] => None
  | dl :: rest =>
      match groupHeader (TrimSpace (dl_text dl)) with
      | Some m => Some (TrimSpace m)
      | None => firstGroup rest
      end
  end.
Definition gen_extractGroup (group : CommentGroup) : string := default "Other" (firstGroup (docLines group)).

Fixpoint funcDescriptionLines (lines : list docLine) (desc : list string) : list string :=
  match lines with
  | [] => desc
  | dl :: rest =>
      let trimmed := TrimSpace (dl_text dl) in
      if matched (exampleHeader trimmed) || matched (groupHeader trimmed) then desc
      else if (len desc =? 0) && bool_decide (trimmed = EmptyString) then funcDescriptionLines rest desc
      else funcDescriptionLines rest (desc ++ [dl_text dl])
  end.

(** The loop that drops blank lines, on the reversed list. *)
Fixpoint dropBlank (lines : list string) : list string :=
  match lines with
  | [] => []
  | l :: rest => if bool_decide (TrimSpace l = EmptyString) then dropBlank rest else lines
  end.
Definition extractFuncDescription (group : CommentGroup) : string :=
  Join (rev (dropBlank (rev (funcDescriptionLines (docLines group) [])))) nl.

Record genExample := mkGenExample {
  ge_FuncName : string; ge_File : string; ge_Label : string; ge_Line : Z; ge_Code : string
}.

Definition extractBlocks (filename funcName : string) (doc : CommentGroup) : list genExample :=
  (fun '(label, start, ls) => mkGenExample funcName filename label start (Join (dl_text <$> ls) nl)) <$>
  exampleBlocks (fun dl => exampleHeader (TrimSpace (dl_text dl))) dl_pos (docLines doc).

(** ** Examples are the lines under their headers *)

Section ExampleLaws.
Context {L : Type} (header : L -> option string) (lineOf : L -> Z).
#[local] Abbreviation blocks := (exampleBlocks header lineOf).
Implicit Types (c : L) (cs : list L).

Definition plain c : Prop := header c = None.
#[export] Instance plain_dec c : Decision (plain c).
Proof. unfold plain. apply _. Defined.

(** The same, with the example that is being collected as arguments. *)
Definition emit (label : string) (start : Z) (body : list L) : list (string * Z * list L) :=
  match body with [] => [] | _ => [(label, start, body)] end.

Fixpoint blocksFrom (label : string) (start : Z) (body cs : list L) : list (string * Z * list L) :=
  match cs with
  | [] => emit label start body
  | c :: rest =>
      match header c with
      | Some m => emit label start body ++ blocksFrom (TrimSpace m) (lineOf c) [] rest
      | None => blocksFrom label start (body ++ [c]) rest
      end
  end.

(** What comes from the first header on. *)
Fixpoint fromHeader cs : list L :=
  match cs with
  | [] => []
  | c :: rest => if matched (header c) then cs else fromHeader rest
  end.

Lemma fold_collecting cs out body label start :
  es_out (flushExample (fold_left (exampleStep header lineOf) cs (mkExampleState out body label start true))) =
    out ++ blocksFrom label start body cs.
Proof.
  revert out body label start. induction cs as [|c cs IH]; intros out body label start.
  - simpl. unfold flushExample. simpl. destruct body; simpl; [by rewrite app_nil_r | done].
  - simpl. unfold exampleStep at 2. destruct (header c) as [m|]; simpl; [|apply IH].
    unfold flushExample at 2 3. simpl. destruct body; simpl; rewrite IH; [done|]. by rewrite <- (assoc_L (++)).
Qed.

Lemma blocks_from cs :
  blocks cs = match fromHeader cs with
              | h :: rest => blocksFrom (TrimSpace (default EmptyString (header h))) (lineOf h) [] rest
              | [] => []
              end.
Proof.
  unfold exampleBlocks. induction cs as [|c cs IH]; [done|]. simpl. unfold exampleStep at 2.
  destruct (header c) as [m|] eqn:Eh; simpl.
  - change (matched (Some m)) with true. cbv beta iota. rewrite fold_collecting. by rewrite Eh.
  - by change (matched None) with false.
Qed.

(** The block is the whole run of lines under a header of [cs]. *)
Definition blockOf cs (b : string * Z * list L) : Prop :=
  exists before h m after, cs = before ++ h :: b.2 ++ after /\ header h = Some m /\ b.1 = (TrimSpace m, lineOf h) /\
    b.2 <> [] /\ Forall plain b.2 /\ match after with [] => True | h' :: _ => header h' <> None end.

Lemma blocksFrom_are cs h m before body :
  header h = Some m -> Forall plain body ->
  Forall (blockOf (before ++ h :: body ++ cs)) (blocksFrom (TrimSpace m) (lineOf h) body cs).
Proof.
  revert h m before body. induction cs as [|c cs IH]; intros h m before body Hh Hb; simpl.
  - unfold emit. destruct body as [|x body]; constructor; [|constructor]. by exists before, h, m, [].
  - destruct (header c) as [m'|] eqn:Ec.
    + apply list.Forall_app. split.
      * unfold emit. destruct body as [|x body]; constructor; [|constructor]. exists before, h, m, (c :: cs).
        do 5 (split; [done|]). congruence.
      * specialize (IH c m' (before ++ h :: body) [] Ec ltac:(constructor)). by rewrite <- (assoc_L (++)) in IH.
    + specialize (IH h m before (body ++ [c]) Hh). rewrite <- (assoc_L (++)) in IH. apply IH.
      apply list.Forall_app. by repeat constructor.
Qed.

Lemma blocksFrom_lines label start body cs :
  concat (snd <$> blocksFrom label start body cs) = body ++ filter plain cs.
Proof.
  revert label start body. induction cs as [|c cs IH]; intros label start body; simpl.
  - destruct body; simpl; by rewrite ?app_nil_r.
  - rewrite filter_cons. assert (plain c <-> header c = None) as Hp by done. destruct (header c) as [m|] eqn:Ec.
    + rewrite decide_False by (intros [=]%Hp). rewrite fmap_app, concat_app, IH. simpl. f_equal. destruct body; simpl; by rewrite ?app_nil_r.
    + rewrite decide_True by (by apply Hp). rewrite IH. by rewrite <- (assoc_L (++)).
Qed.

Lemma fromHeader_suffix cs : exists before, cs = before ++ fromHeader cs.
Proof.
  induction cs as [|c cs [before E]]; [by exists []|]. simpl. destruct (matched (header c)); [by exists []|].
  exists (c :: before). simpl. by rewrite <- E.
Qed.

Lemma fromHeader_head cs : match fromHeader cs with h :: _ => is_Some (header h) | [] => True end.
Proof.
  induction cs as [|c cs IH]; [done|]. simpl. destruct (matched (header c)) eqn:E; [|done]. by apply bool_decide_eq_true in E.
Qed.

Lemma blocks_are cs : Forall (blockOf cs) (blocks cs).
Proof.
  rewrite blocks_from. destruct (fromHeader_suffix cs) as [before E]. pose proof (fromHeader_head cs) as Hh.
  destruct (fromHeader cs) as [|h rest]; [constructor|]. destruct Hh as [m Hm]. rewrite Hm, E. simpl.
  by apply (blocksFrom_are rest h m before []).
Qed.

Lemma blocks_lines cs : concat (snd <$> blocks cs) = filter plain (fromHeader cs).
Proof.
  rewrite blocks_from. pose proof (fromHeader_head cs) as Hh. destruct (fromHeader cs) as [|h rest]; [done|].
  rewrite blocksFrom_lines, filter_cons. rewrite decide_False; [done|]. unfold plain. destruct Hh as [m ->]. done.
Qed.
End ExampleLaws.

(** The examples of a declaration are exactly the runs of comment lines under its
    Example headers: each has the label and line number of its header and all the
    lines up to the next header, none is empty, and together they hold every line
    after the first header that is not a header itself, in order. *)
Theorem extractExamples_exact doc :
  let header := fun c => exampleHeader (commentLine c) in
  exists blocks,
    extractExamples doc =
      (fun b => mkExample b.1.1 (Join (normalizeIndent ((fun c => TrimPrefix (Text c) "//") <$> b.2)) nl) b.1.2) <$> blocks /\
    Forall (blockOf header Line doc) blocks /\
    concat (snd <$> blocks) = filter (plain header) (fromHeader header doc).
Proof.
  intros header. exists (exampleBlocks header Line doc).
  split; [|split; [apply blocks_are | apply blocks_lines]].
  unfold extractExamples. apply list_fmap_ext. by intros _ [[? ?] ?] _.
Qed.

(** The same holds of the examples that become programs. *)
Theorem extractBlocks_exact filename funcName doc :
  let header := fun dl => exampleHeader (TrimSpace (dl_text dl)) in
  exists blocks,
    extractBlocks filename funcName doc =
      (fun b => mkGenExample funcName filename b.1.1 b.1.2 (Join (dl_text <$> b.2) nl)) <$> blocks /\
    Forall (blockOf header dl_pos (docLines doc)) blocks /\
    concat (snd <$> blocks) = filter (plain header) (fromHeader header (docLines doc)).
Proof.
  intros header. exists (exampleBlocks header dl_pos (docLines doc)).
  split; [|split; [apply blocks_are | apply blocks_lines]].
  unfold extractBlocks. apply list_fmap_ext. by intros _ [[? ?] ?] _.
Qed.

(** ** Indentation *)

Definition blank (l : string) : Prop := TrimSpace l = EmptyString.
#[export] Instance blank_dec l : Decision (blank l).
Proof. unfold blank. apply _. Defined.

(** [l] is [r] behind [n] spaces and tabs. *)
Definition indented (n : Z) (l r : string) : Prop :=
  exists i, l = i +:+ r /\ slen i = n /\ Forall (fun c => isIndent c = true) (bytes_of_string i).

Lemma indentOf_spec l : indented (indentOf l) l (TrimLeft isIndent l).
Proof.
  destruct (bTrimLeft_split isIndent (bytes_of_string l)) as (n & E & Hn). exists (string_of_bytes n).
  assert (l = string_of_bytes n +:+ TrimLeft isIndent l) as El.
  { apply (inj bytes_of_string). unfold TrimLeft. by rewrite bytes_of_string_app, !bytes_of_string_of_bytes. }
  split; [done|]. split; [|by rewrite bytes_of_string_of_bytes].
  unfold indentOf. rewrite El at 1. rewrite slen_app. lia.
Qed.

Lemma indentOf_nonneg l : 0 <= indentOf l.
Proof. destruct (indentOf_spec l) as (i & _ & <- & _). apply slen_nonneg. Qed.

(** The minimum over the lines that are not blank, -1 when there are none. *)
Lemma minIndent_spec lines m :
  -1 <= m ->
  let r := minIndent lines m in
  -1 <= r /\ (m = -1 \/ r <= m) /\ (r = -1 -> m = -1 /\ Forall blank lines) /\
  (forall l, l ∈ lines -> ~ blank l -> 0 <= r <= indentOf l) /\
  (r = m \/ exists l, l ∈ lines /\ ~ blank l /\ indentOf l = r).
Proof.
  revert m. induction lines as [|l lines IH]; intros m Hm; cbv zeta.
  - simpl. split; [done|]. split; [by right|]. split; [done|]. split; [set_solver | by left].
  - cbn [minIndent]. fold (blank l). destruct (decide (blank l)) as [Hb|Hb].
    + rewrite bool_decide_true by done. destruct (IH m Hm) as (H1 & H2 & H3 & H4 & H5). cbv zeta in *.
      split; [done|]. split; [done|]. split; [intros E; split; [apply H3, E | constructor; [done | apply H3, E]]|].
      split; [intros l' [->|Hl']%elem_of_cons; [done | by apply H4]|].
      destruct H5 as [?|(l' & ? & ?)]; [by left | right]. exists l'. split; [by right | done].
    + rewrite bool_decide_false by done. pose proof (indentOf_nonneg l) as Hn. set (n := indentOf l) in *.
      set (m' := if (m =? -1) || (n <? m) then n else m).
      assert (Hm' : 0 <= m' <= n /\ (m = -1 \/ m' <= m) /\ (m' = n \/ m' = m)).
      { unfold m'. destruct (Z.eqb_spec m (-1)); [simpl; lia|]. simpl. destruct (Z.ltb_spec n m); lia. }
      destruct (IH m' ltac:(lia)) as (H1 & H2 & H3 & H4 & H5). cbv zeta in *. clearbody m'.
      assert (minIndent lines m' <> -1) as Hne by (intros E; destruct (H3 E); lia).
      split; [done|]. split; [lia|]. split; [done|]. split.
      * intros l' [->|Hl']%elem_of_cons Hl; [fold n; lia | by apply H4].
      * destruct H5 as [E|(l' & Hl' & ? & ?)]; [|right; exists l'; split; [by right | done]].
        destruct Hm' as (_ & _ & [En|En]); [right | left; lia]. exists l. split; [by left|]. split; [done|]. fold n. lia.
Qed.

Lemma TrimSpace_indent i r : Forall (fun c => isIndent c = true) (bytes_of_string i) -> TrimSpace (i +:+ r) = TrimSpace r.
Proof.
  intros Hi. unfold TrimSpace. rewrite bytes_of_string_app. do 2 f_equal. unfold trimLeft.
  induction Hi as [|c i' Hc _ IH]; [done|]. cbn [app trimWith].
  assert (isSpace1 c = true) as ->; [|done]. unfold isIndent in Hc. by destruct c.
Qed.

Lemma blank_indented n l r : indented n l r -> blank l <-> blank r.
Proof. intros (i & -> & _ & Hi). unfold blank. by rewrite TrimSpace_indent. Qed.

(** Cutting no more than the indentation. *)
Definition cutLine (n : Z) (l : string) : string := string_of_bytes (drop (Z.to_nat n) (bytes_of_string l)).

Lemma indentOf_indented n l r : indented n l r -> indentOf l = n + indentOf r.
Proof.
  intros (i & -> & <- & Hi). unfold indentOf, TrimLeft. rewrite slen_app, bytes_of_string_app, bTrimLeft_skip by done. lia.
Qed.

Lemma cutLine_indented n l : 0 <= n <= indentOf l -> indented n l (cutLine n l).
Proof.
  intros Hn. destruct (indentOf_spec l) as (i & E & Hi & Hall). set (r := TrimLeft isIndent l) in E.
  set (k := Z.to_nat n).
  exists (string_of_bytes (take k (bytes_of_string i))).
  assert (length (take k (bytes_of_string i)) = k) as Hk.
  { rewrite length_take, bytes_of_string_length. unfold slen in Hi. lia. }
  split; [|split].
  - apply (inj bytes_of_string). unfold cutLine. rewrite bytes_of_string_app, !bytes_of_string_of_bytes.
    assert (take k (bytes_of_string i) = take k (bytes_of_string l)) as ->; [|by rewrite take_drop].
    rewrite E, bytes_of_string_app, take_app_le; [done|]. rewrite length_take in Hk. lia.
  - unfold slen. rewrite <- bytes_of_string_length, bytes_of_string_of_bytes, Hk. lia.
  - rewrite bytes_of_string_of_bytes. by apply Forall_take.
Qed.

Lemma suffix_of_cut n l : exists i, l = i +:+ cutLine n l.
Proof.
  exists (string_of_bytes (take (Z.to_nat n) (bytes_of_string l))). apply (inj bytes_of_string). unfold cutLine.
  by rewrite bytes_of_string_app, !bytes_of_string_of_bytes, take_drop.
Qed.

(** Every line that is not blank has lost [n] spaces and tabs; of a blank one at most a
    prefix is gone. *)
Definition outdented (n : Z) (lines out : list string) : Prop :=
  Forall2 (fun l l' => (~ blank l -> indented n l l') /\ exists i, l = i +:+ l') lines out.

(** A line that is not blank begins at the margin. *)
Definition atMargin (out : list string) : Prop := exists l, l ∈ out /\ ~ blank l /\ indentOf l = 0.

Lemma outdented_refl lines : outdented 0 lines lines.
Proof.
  apply Forall_Forall2_diag, list.Forall_forall. intros l _. split; [|by exists EmptyString].
  intros _. exists EmptyString. by repeat constructor.
Qed.

Lemma normalizeIndent_flat lines : minIndent lines (-1) <= 0 -> normalizeIndent lines = lines.
Proof. intros Hle. unfold normalizeIndent. cbv zeta. by destruct (Z.leb_spec (minIndent lines (-1)) 0); [|lia]. Qed.

Lemma atMargin_flat out : atMargin out -> minIndent out (-1) <= 0.
Proof.
  intros (l & Hl & Hb & Hi). destruct (minIndent_spec out (-1) ltac:(lia)) as (_ & _ & _ & H4 & _). cbv zeta in H4.
  specialize (H4 l Hl Hb). lia.
Qed.

Section Cut.
Context (lines : list string).
#[local] Abbreviation n := (minIndent lines (-1)).
Hypothesis Hpos : 0 < n.

Lemma normalizeIndent_cut :
  normalizeIndent lines = (fun l => if slen l >=? n then cutLine n l else TrimLeft isIndent l) <$> lines.
Proof. unfold normalizeIndent. cbv zeta. by destruct (Z.leb_spec n 0); [lia|]. Qed.

Lemma cut_line l : l ∈ lines -> ~ blank l ->
  (if slen l >=? n then cutLine n l else TrimLeft isIndent l) = cutLine n l /\ indented n l (cutLine n l).
Proof.
  intros Hl Hb. destruct (minIndent_spec lines (-1) ltac:(lia)) as (_ & _ & _ & H4 & _). specialize (H4 l Hl Hb). cbv zeta in H4.
  split; [|by apply cutLine_indented]. destruct (indentOf_spec l) as (i & El & Hi & _). apply (f_equal slen) in El.
  rewrite slen_app in El. pose proof (slen_nonneg (TrimLeft isIndent l)). by destruct (Z.geb_spec (slen l) n); [|lia].
Qed.

Lemma cut_outdented : outdented n lines (normalizeIndent lines).
Proof.
  rewrite normalizeIndent_cut. apply Forall2_fmap_r, Forall_Forall2_diag, list.Forall_forall. intros l Hl. split.
  - intros Hb. by destruct (cut_line l Hl Hb) as [-> Hc].
  - destruct (slen l >=? n); [apply suffix_of_cut|]. destruct (indentOf_spec l) as (i & El & _). by exists i.
Qed.

Lemma cut_atMargin : atMargin (normalizeIndent lines).
Proof.
  destruct (minIndent_spec lines (-1) ltac:(lia)) as (_ & _ & _ & _ & H5). cbv zeta in H5.
  destruct H5 as [?|(l & Hl & Hb & Hi)]; [lia|]. destruct (cut_line l Hl Hb) as [Ec Hc]. exists (cutLine n l). split; [|split].
  - rewrite normalizeIndent_cut. apply list_elem_of_fmap. exists l. by rewrite Ec.
  - intros Hb'. apply Hb. by eapply blank_indented.
  - pose proof (indentOf_indented _ _ _ Hc). lia.
Qed.
End Cut.

(** Normalizing the indentation of an example takes the same number of spaces and
    tabs off every line that is not blank, and of blank lines at most a prefix; some
    line that is not blank then begins at the margin, unless all are blank.  Doing it
    again changes nothing. *)
Theorem normalizeIndent_margin lines :
  (exists n, 0 <= n /\ outdented n lines (normalizeIndent lines)) /\
  (Forall blank lines \/ atMargin (normalizeIndent lines)) /\
  normalizeIndent (normalizeIndent lines) = normalizeIndent lines.
Proof.
  destruct (Z.leb_spec (minIndent lines (-1)) 0) as [Hle|Hgt].
  - rewrite !(normalizeIndent_flat lines Hle). split; [exists 0; split; [done | apply outdented_refl]|]. split; [|done].
    destruct (minIndent_spec lines (-1) ltac:(lia)) as (H1 & _ & H3 & _ & H5). cbv zeta in *.
    destruct (decide (minIndent lines (-1) = -1)) as [Em|Em]; [left; by apply H3|].
    destruct H5 as [?|(l & Hl & Hb & Hi)]; [done|]. right. exists l. split; [done|]. split; [done | lia].
  - pose proof (cut_atMargin lines Hgt) as Hm. split; [|split; [by right|]].
    + exists (minIndent lines (-1)). split; [lia | by apply cut_outdented].
    + by apply normalizeIndent_flat, atMargin_flat.
Qed.
