(* ===== verification/DocApi.v ===== *)
(** * The API reference

    [docs/readme/main.go]: the declarations of a package that go into the reference,
    and the text rendered from them.  [go/parser] and [go/ast] are a parameter: a
    package is its files, by name, and a file its comments and declarations.  The maps of this
    code are [gmap]s, and the order in which each [range] over one of them gives its
    entries is a parameter too ([RangeOrder]), a different one for each range that is run;
    what is built from them is shown not to depend on it. *)

From stdpp Require Import sorting.
From S2P Require Import Prelude GoStd InspectHelpers GoText DocComments DocSections.

(** ** go/ast *)

Inductive Expr :=
| StarExpr (X : Expr)
| Ident (Name : string)
| IndexExpr (X : Expr)
| IndexListExpr (X : Expr)
| SelectorExpr (Sel : string)
| OtherExpr.

(** [fn_Recv] has the types of the receiver list. *)
Record FuncDecl := mkFuncDecl { fn_Name : string; fn_Recv : option (list Expr); fn_Doc : option CommentGroup }.
Inductive Decl := DeclFunc (fn : FuncDecl) | DeclOther.
Record File := mkFile { file_Comments : list CommentGroup; file_Decls : list Decl }.

(** [*ast.Package], by file name. *)
Abbreviation Package := (gmap string File).

(** [parser.ParseDir] with its filter of file names, and [ast.IsExported]. *)
Class GoParser := {
  ParseDir : string -> (string -> bool) -> gmap string Package + error;
  IsExported : string -> bool
}.

(** [for k, v := range m]: the entries of the map in an order that is a new one each
    time; [site] tells the ranges apart that a run comes to. *)
Class RangeOrder := {
  range_of : forall {A}, string -> gmap string A -> list (string * A);
  range_perm : forall {A} site (m : gmap string A), range_of site m ≡ₚ map_to_list m
}.

(** ** Declarations *)

Record FuncDoc := mkFuncDoc {
  Key : string; Name : string; DisplayName : string; Anchor : string; Group : string;
  Behavior : string; Fluent : string; Description : string; Examples : list Example_
}.

Fixpoint receiverTypeName (expr : Expr) : string :=
  match expr with
  | StarExpr x => receiverTypeName x
  | Ident name => name
  | IndexExpr x => receiverTypeName x
  | IndexListExpr x => receiverTypeName x
  | SelectorExpr sel => sel
  | OtherExpr => EmptyString
  end.

Definition extractReceiverName (fn : FuncDecl) : string :=
  match fn_Recv fn with
  | None | Some [] => EmptyString
  | Some (t :: _) => receiverTypeName t
  end.

Definition hasBuildTag (file : File) (tag : string) : bool :=
  existsb (existsb (fun c => bool_decide (TrimSpace (Text c) = "//go:build " +:+ tag))) (file_Comments file).

(** [candidates], in the order of the sort: more files first, then by name. *)
Definition cand_le (a b : string * Z) : Prop := if a.2 =? b.2 then str_le a.1 b.1 else b.2 < a.2.
#[export] Instance cand_le_dec a b : Decision (cand_le a b).
Proof. unfold cand_le. destruct (a.2 =? b.2); apply _. Defined.

(** On the packages in the order of the [range]. *)
Definition selectPackage {P : Type} (files : P -> Z) (pkgs : list (string * P)) : string + error :=
  match pkgs with
  | [] => inr (ErrorString "no packages found")
  | [(name, _)] => inl name
  | _ =>
      let candidates := merge_sort cand_le ((fun p => (p.1, files p.2)) <$> pkgs) in
      match filter (fun c => c.1 <> "main") candidates with
      | c :: _ => inl c.1
      | [] => inl (default EmptyString (fst <$> head candidates))
      end
  end.

Section Parse.
Context `{GoParser} `{RangeOrder}.

(** The part of the loop body that builds an entry. *)
Definition funcDocOf (fn : FuncDecl) (doc : CommentGroup) : FuncDoc :=
  let receiver := extractReceiverName fn in
  let '(displayName, anchor, key) :=
    if decide (receiver = EmptyString) then (fn_Name fn, ToLower (fn_Name fn), fn_Name fn)
    else (receiver +:+ "." +:+ fn_Name fn, ToLower (receiver +:+ "-" +:+ fn_Name fn), receiver +:+ "." +:+ fn_Name fn) in
  mkFuncDoc key (fn_Name fn) displayName anchor (extractGroup doc) (extractBehavior doc) (extractFluent doc)
    (extractDescription doc) (extractExamples doc).

(** The guards of the loop, and the entry. *)
Definition declDoc (decl : Decl) : option FuncDoc :=
  match decl with
  | DeclOther => None
  | DeclFunc fn =>
      match fn_Doc fn with
      | None => None
      | Some doc =>
          if negb (IsExported (fn_Name fn)) then None
          else if bool_decide (fn_Recv fn <> None) && negb (IsExported (extractReceiverName fn)) then None
          else Some (funcDocOf fn doc)
      end
  end.

Definition addFunc (funcs : gmap string FuncDoc) (fd : FuncDoc) : gmap string FuncDoc :=
  match funcs !! Key fd with
  | Some e =>
      <[Key fd := mkFuncDoc (Key e) (Name e) (DisplayName e) (Anchor e) (Group e) (Behavior e) (Fluent e) (Description e)
                    (Examples e ++ Examples fd)]> funcs
  | None => <[Key fd := fd]> funcs
  end.

(** The declarations of the files of a package, each in source order. *)
Definition packageDocs (files : list (string * File)) : list FuncDoc :=
  files ≫= (fun '(_, file) => if hasBuildTag file "integration" then [] else omap declDoc (file_Decls file)).

Definition byLine (a b : Example_) : Prop := ex_Line a <= ex_Line b.
#[export] Instance byLine_dec a b : Decision (byLine a b).
Proof. unfold byLine. apply _. Defined.

Definition sortExamples (fd : FuncDoc) : FuncDoc :=
  mkFuncDoc (Key fd) (Name fd) (DisplayName fd) (Anchor fd) (Group fd) (Behavior fd) (Fluent fd) (Description fd)
    (merge_sort byLine (Examples fd)).

(** [len(pkg.Files)] *)
Definition fileCount (pkg : Package) : Z := Z.of_nat (size pkg).

(** [call] tells the calls of a run apart. *)
Definition parseFuncsInDir (call dir : string) : list FuncDoc + error :=
  match ParseDir dir (fun name => negb (HasSuffix name "_test.go")) with
  | inr e => inr e
  | inl pkgs =>
      match selectPackage fileCount (range_of (call +:+ " pkgs") pkgs) with
      | inr e => inr e
      | inl pkgName =>
          match pkgs !! pkgName with
          | None => inr (ErrorString ("package " +:+ quoted pkgName +:+ " not found"))
          | Some pkg =>
              let funcs := fold_left addFunc (packageDocs (range_of (call +:+ " files") pkg)) ∅ in
              inl ((fun kf => sortExamples kf.2) <$> range_of (call +:+ " funcs") funcs)
          end
      end
  end.

Definition parseFuncs (root : string) : list FuncDoc + error :=
  match parseFuncsInDir "root" root with
  | inr e => inr e
  | inl funcs =>
      match parseFuncsInDir "cachefake" (joinPath root "cachefake") with
      | inr e => inr e
      | inl cachefakeFuncs => inl (funcs ++ cachefakeFuncs)
      end
  end.

(** ** Driver configurations *)

Record driverConfigDoc := mkDriverConfigDoc {
  IndexLabel : string; dc_Anchor : string; Heading : string; dc_Description : string;
  dc_Examples : list Example_; Shared : bool
}.
Record driverConfigSource := mkDriverConfigSource {
  RelDir : string; src_IndexLabel : string; src_Anchor : string; src_Heading : string
}.

Definition driverConfigSources : list driverConfigSource := [
  mkDriverConfigSource "driver/dynamocache" "DynamoDB Config" "driver-config-dynamocache" "DynamoDB";
  mkDriverConfigSource "driver/memcachedcache" "Memcached Config" "driver-config-memcachedcache" "Memcached";
  mkDriverConfigSource "driver/mysqlcache" "MySQL Config" "driver-config-mysqlcache" "MySQL";
  mkDriverConfigSource "driver/natscache" "NATS Config" "driver-config-natscache" "NATS";
  mkDriverConfigSource "driver/postgrescache" "Postgres Config" "driver-config-postgrescache" "Postgres";
  mkDriverConfigSource "driver/rediscache" "Redis Config" "driver-config-rediscache" "Redis";
  mkDriverConfigSource "driver/sqlcore" "SQL Core Config" "driver-config-sqlcore" "SQL Core (advanced/shared implementation)";
  mkDriverConfigSource "driver/sqlitecache" "SQLite Config" "driver-config-sqlitecache" "SQLite"].

Definition sharedBaseConfigDoc : driverConfigDoc :=
  mkDriverConfigDoc "Shared BaseConfig" "driver-configs-shared-baseconfig" "Shared `cachecore.BaseConfig`"
    (Join ["Shared fields are embedded via `cachecore.BaseConfig` on every driver config:";
           EmptyString;
           "- `DefaultTTL`: defaults to `5*time.Minute` when zero in all optional drivers";
           "- `Prefix`: defaults to `" +:+ quote +:+ "app" +:+ quote +:+ "` when empty in all optional drivers";
           "- `Compression`: gzip writes a versioned CMP1 envelope; the zero value leaves bytes uncompressed";
           "- `MaxValueBytes`: bounds writes and decoded reads; `0` disables the limit";
           "- `EncryptionKey`: AES-GCM writes a versioned ENC1 envelope; `nil` disables encryption";
           "- `Increment` and `Decrement`: bypass shaping so backend-native counters remain atomic"] nl)
    [] true.

Definition trimDriverNewLeadLine (desc : string) : string :=
  let lines := SplitLines (TrimSpace desc) in
  match lines with
  | [] => EmptyString
  | l0 :: rest =>
      let lines := if HasPrefix l0 "New builds " || HasPrefix l0 "New " then rest else lines in
      TrimSpace (Join (dropBlank lines) nl)
  end.

Definition driverConfigDocOf (call root : string) (src : driverConfigSource) : driverConfigDoc :=
  let doc := mkDriverConfigDoc (src_IndexLabel src) (src_Anchor src) (src_Heading src) in
  match parseFuncsInDir (call +:+ " " +:+ RelDir src) (joinPath root (RelDir src)) with
  | inr err =>
      doc ("Defaults and examples unavailable: failed to parse `" +:+ RelDir src +:+ "` (`" +:+ Error err +:+ "`).") [] false
  | inl funcs =>
      match list_find (fun fd => Name fd = "New" /\ Contains (Key fd) "." = false) funcs with
      | None => doc ("Defaults and examples unavailable: exported `New` doc not found in `" +:+ RelDir src +:+ "`.") [] false
      | Some (_, newFn) => doc (trimDriverNewLeadLine (Description newFn)) (Examples newFn) false
      end
  end.
Definition driverConfigDocs (call root : string) : list driverConfigDoc :=
  sharedBaseConfigDoc :: (driverConfigDocOf call root <$> driverConfigSources).

(** [fmt.Sprintf("[%s](#%s)", label, anchor)] *)
Definition link (label anchor : string) : string := "[" +:+ label +:+ "](#" +:+ anchor +:+ ")".
(** A middle dot between spaces. *)
Definition dot : string := " " +:+ String.string_of_list_byte [xc2; xb7] +:+ " ".
Definition indexRow (group : string) (links : list string) : string := "| **" +:+ group +:+ "** | " +:+ Join links dot +:+ " |" +:+ nl.

Definition renderDriverConfigIndexRow (root : string) : string :=
  indexRow "Driver Configs" ((fun d => link (IndexLabel d) (dc_Anchor d)) <$> driverConfigDocs "index" root).

(** ["### <a id=\"%s\"></a>%s\n\n"] *)
Definition heading (anchor title : string) : string := "### <a id=" +:+ quote +:+ anchor +:+ quote +:+ "></a>" +:+ title +:+ nl +:+ nl.

(** An example with its label, when there are several, as a block of the given lines. *)
Definition exampleBlock (several : bool) (label : string) (lines : list string) : string :=
  (if bool_decide (label <> EmptyString) && several then "_Example: " +:+ label +:+ "_" +:+ nl +:+ nl else EmptyString) +:+
  "```go" +:+ nl +:+ concatStrings ((fun line => line +:+ nl) <$> lines) +:+ "```" +:+ nl +:+ nl.

Definition renderDriverConfigIndex (root : string) : string :=
  "## <a id=" +:+ quote +:+ "driver-configs" +:+ quote +:+ "></a>Driver Configs" +:+ nl +:+ nl +:+
  "Optional backend config examples (compile-checked from generated examples and driver `New(...)` docs)." +:+ nl +:+ nl +:+
  concatStrings ((fun d =>
    heading (dc_Anchor d) (Heading d) +:+
    (if decide (dc_Description d = EmptyString) then EmptyString else dc_Description d +:+ nl +:+ nl) +:+
    concatStrings ((fun ex => exampleBlock (len (dc_Examples d) >? 1) (ex_Label ex)
      (filter (fun line => TrimSpace line <> EmptyString) (SplitLines (ex_Code ex)))) <$> dc_Examples d)) <$>
    driverConfigDocs "details" root).
End Parse.

(** ** Rendering *)

(** [nameCounts[name]] after the loop over [funcs] *)
Definition nameCounts (funcs : list FuncDoc) (name : string) : Z := len (filter (fun fd => Name fd = name) funcs).

Definition renderName (funcs : list FuncDoc) (fn : FuncDoc) : string :=
  if nameCounts funcs (Name fn) <=? 1 then Name fn else DisplayName fn.
Definition renderLabel (funcs : list FuncDoc) (fn : FuncDoc) : string := renderName funcs fn.

Definition isHideableCtxVariant (fn : FuncDoc) : bool :=
  if negb (HasSuffix (Name fn) "Context") then false
  else
    let desc := TrimSpace (ToLower (Description fn)) in
    if decide (desc = EmptyString) then false else Contains desc "context-aware variant".

Definition ctxBaseKey (fn : FuncDoc) : option string :=
  if negb (HasSuffix (Name fn) "Context") || negb (HasSuffix (Key fn) "Context") then None
  else Some (TrimSuffix (Key fn) "Context").

(** The body of the loop that fills [hide]: is the key of [fd] put there? *)
Definition hides (funcs : list FuncDoc) (fd : FuncDoc) : bool :=
  isHideableCtxVariant fd &&
  match ctxBaseKey fd with
  | Some baseKey => bool_decide (baseKey ∈ (Key <$> funcs))
  | None => false
  end.

(** [hide[key]] after that loop *)
Definition hide (funcs : list FuncDoc) (key : string) : bool :=
  existsb (fun fd => hides funcs fd && bool_decide (Key fd = key)) funcs.

Definition shown (funcs : list FuncDoc) : list FuncDoc := filter (fun fd => hide funcs (Key fd) = false) funcs.

(** [byGroup[group]], before and after [sort.Slice] *)
Definition groupFuncs (funcs : list FuncDoc) (group : string) : list FuncDoc :=
  filter (fun fd => Group fd = group) (shown funcs).

Definition label_le (funcs : list FuncDoc) (a b : FuncDoc) : Prop :=
  let li := renderLabel funcs a in let lj := renderLabel funcs b in
  if decide (li = lj) then str_le (Anchor a) (Anchor b) else str_le li lj.
#[export] Instance label_le_dec funcs a b : Decision (label_le funcs a b).
Proof. unfold label_le. destruct (decide _); apply _. Defined.

Definition sortedGroup (funcs : list FuncDoc) (group : string) : list FuncDoc :=
  merge_sort (label_le funcs) (groupFuncs funcs group).

Definition driverConfigsGroup : string := "Driver Configs".
(** The keys of [byGroup] *)
Definition groupsOf (funcs : list FuncDoc) : gmap string unit := list_to_map ((fun fd => (Group fd, tt)) <$> shown funcs).
Definition groupNames `{RangeOrder} (funcs : list FuncDoc) : list string := sortStrings (range_of "byGroup" (groupsOf funcs)).*1.
Definition allGroupNames `{RangeOrder} (funcs : list FuncDoc) : list string := sortStrings (groupNames funcs ++ [driverConfigsGroup]).

Definition renderFunc (funcs : list FuncDoc) (fn : FuncDoc) : string :=
  let header := renderLabel funcs fn +:+
    (if decide (Behavior fn = EmptyString) then EmptyString else dot +:+ Behavior fn) +:+
    (if decide (Fluent fn = "true") then dot +:+ "fluent" else EmptyString) in
  heading (Anchor fn) header +:+
  (if decide (Description fn = EmptyString) then EmptyString else Description fn +:+ nl +:+ nl) +:+
  concatStrings ((fun ex => exampleBlock (len (Examples fn) >? 1) (ex_Label ex)
    (dropBlank (SplitLines (TrimRight isNewline (ex_Code ex))))) <$> Examples fn).

(** The row of a group in the index, and its part of the reference. *)
Definition renderIndexRow `{GoParser} `{RangeOrder} (root : string) (funcs : list FuncDoc) (group : string) : string :=
  if decide (group = driverConfigsGroup) then renderDriverConfigIndexRow root
  else indexRow group ((fun fn => link (renderName funcs fn) (Anchor fn)) <$> sortedGroup funcs group).

Definition renderDetails `{GoParser} `{RangeOrder} (root : string) (funcs : list FuncDoc) (group : string) : string :=
  if decide (group = driverConfigsGroup) then renderDriverConfigIndex root +:+ nl
  else "## " +:+ group +:+ nl +:+ nl +:+ concatStrings (renderFunc funcs <$> sortedGroup funcs group).

Definition renderAPI `{GoParser} `{RangeOrder} (root : string) (funcs : list FuncDoc) : string :=
  TrimRight isNewline (
    "## API Index" +:+ nl +:+ nl +:+
    "| Group | Functions |" +:+ nl +:+
    "|------:|:-----------|" +:+ nl +:+
    concatStrings (renderIndexRow root funcs <$> allGroupNames funcs) +:+ nl +:+ nl +:+
    "_Examples assume `ctx := context.Background()` and `c := cache.NewCache(cache.NewMemoryStore(ctx))` unless shown otherwise._" +:+ nl +:+ nl +:+
    concatStrings (renderDetails root funcs <$> allGroupNames funcs)).

(** ** The package that is documented *)

#[export] Instance cand_le_trans : Transitive cand_le.
Proof.
  intros [a i] [b j] [c k]. unfold cand_le. simpl.
  destruct (Z.eqb_spec i j), (Z.eqb_spec j k), (Z.eqb_spec i k); intros Hab Hbc; try lia. by transitivity b.
Qed.
#[export] Instance cand_le_total : Total cand_le.
Proof.
  intros [a i] [b j]. unfold cand_le. simpl. rewrite (Z.eqb_sym j i). destruct (Z.eqb_spec i j); [apply (total str_le) | lia].
Qed.

Section Select.
Context {P : Type} (files : P -> Z).
#[local] Abbreviation cands := (fmap (fun p : string * P => (p.1, files p.2))).

(** With two packages or more one is not called main. *)
Lemma not_all_main (pkgs : list (string * P)) :
  NoDup pkgs.*1 -> 2 <= len pkgs -> exists p, p ∈ pkgs /\ p.1 <> "main".
Proof.
  destruct pkgs as [|a [|b pkgs]]; [done..|]. intros [Ha _]%list.NoDup_cons _.
  destruct (decide (a.1 = "main")) as [E|E]; [|exists a; split; [by left | done]].
  exists b. split; [right; by left|]. intros Eb. apply Ha. simpl. rewrite E, <- Eb. by left.
Qed.

(** Of several packages in a directory the one with the most files that is not main
    is documented, and the first by name of those, whatever order the map gave them in;
    main is never chosen over another. *)
Theorem selectPackage_best (pkgs : list (string * P)) :
  NoDup pkgs.*1 -> 2 <= len pkgs ->
  exists p, selectPackage files pkgs = inl p.1 /\ p ∈ pkgs /\ p.1 <> "main" /\
    forall q, q ∈ pkgs -> q.1 <> "main" -> cand_le (p.1, files p.2) (q.1, files q.2).
Proof.
  intros Hnd Hlen. destruct (not_all_main _ Hnd Hlen) as (p0 & Hp0 & Hm0).
  set (cs := filter (fun c : string * Z => c.1 <> "main") (merge_sort cand_le (cands pkgs))).
  assert (Hcs : forall c, c ∈ cs <-> c.1 <> "main" /\ exists p, p ∈ pkgs /\ c = (p.1, files p.2)).
  { intros c. unfold cs. rewrite list_elem_of_filter, merge_sort_Permutation, list_elem_of_fmap.
    split; intros [Hc (p & H1 & H2)]; eauto. }
  assert (Hsel : selectPackage files pkgs = match cs with c :: _ => inl c.1 | [] => selectPackage files pkgs end).
  { destruct pkgs as [|[na pa] [|b pkgs]]; [done..|]. unfold selectPackage. cbv zeta. fold cs. by destruct cs. }
  assert (StronglySorted cand_le cs) as Hsorted.
  { apply StronglySorted_filter, (StronglySorted_merge_sort cand_le). }
  destruct cs as [|c cs'] eqn:Ecs.
  { exfalso. assert ((p0.1, files p0.2) ∈ @nil (string * Z)) as Hin by (apply Hcs; eauto). set_solver. }
  destruct (proj1 (Hcs c) ltac:(by left)) as (Hc & p & Hp & ->). exists p. rewrite Hsel. split; [done|]. split; [done|].
  split; [done|]. intros q Hq Hqm. apply StronglySorted_inv in Hsorted as [_ Hall].
  assert ((q.1, files q.2) ∈ (p.1, files p.2) :: cs') as [->|Hin]%elem_of_cons by (apply Hcs; eauto).
  - by destruct (total cand_le (p.1, files p.2) (p.1, files p.2)).
  - by eapply (proj1 (list.Forall_forall _ _)) in Hall.
Qed.
End Select.

Lemma cand_le_name a b : cand_le a b -> cand_le b a -> a.1 = b.1.
Proof.
  unfold cand_le. rewrite (Z.eqb_sym b.2 a.2). destruct (Z.eqb_spec a.2 b.2); [apply (anti_symm str_le) | lia].
Qed.

(** The choice does not depend on the order. *)
Lemma selectPackage_perm {P} (files : P -> Z) (pkgs pkgs' : list (string * P)) :
  NoDup pkgs.*1 -> pkgs ≡ₚ pkgs' -> selectPackage files pkgs = selectPackage files pkgs'.
Proof.
  intros Hnd Hp. destruct (decide (2 <= len pkgs)) as [Hlen|Hlen].
  - assert (NoDup pkgs'.*1) as Hnd' by by rewrite <- Hp.
    assert (2 <= len pkgs') as Hlen' by (unfold len in *; by rewrite <- Hp).
    destruct (selectPackage_best files pkgs Hnd Hlen) as (p & -> & Hin & Hm & Hbest).
    destruct (selectPackage_best files pkgs' Hnd' Hlen') as (p' & -> & Hin' & Hm' & Hbest').
    f_equal. apply (cand_le_name (p.1, files p.2) (p'.1, files p'.2)); [apply Hbest; by rewrite ?Hp | apply Hbest'; by rewrite <- ?Hp].
  - destruct pkgs as [|[n x] [|y pkgs]]; [|apply Permutation_singleton_l in Hp; by subst|unfold len in Hlen; simpl in Hlen; lia].
    by apply Permutation_nil_l in Hp as ->.
Qed.

(** ** The order of a range does not show *)

(** An entry as [funcDocOf] makes it, for names without dots, as Go identifiers are. *)
Definition entry_ok (fd : FuncDoc) : Prop :=
  (x2e ∉ bytes_of_string (Name fd)) /\ DisplayName fd = Key fd /\
  (Key fd = Name fd \/ exists recv, Key fd = recv +:+ "." +:+ Name fd).

Section Order.
Context (funcs : list FuncDoc).
Hypothesis (Hkeys : NoDup (Key <$> funcs)) (Hok : Forall entry_ok funcs).

Lemma entry_same_key a b : a ∈ funcs -> b ∈ funcs -> Key a = Key b -> a = b.
Proof.
  intros (i & Ha)%list_elem_of_lookup (j & Hb)%list_elem_of_lookup E.
  assert (i = j) as ->; [|congruence].
  eapply (NoDup_lookup _ _ _ (Key a) Hkeys); rewrite list_lookup_fmap; [by rewrite Ha | by rewrite Hb, E].
Qed.

Lemma two_names a b : a ∈ funcs -> b ∈ funcs -> Name a = Name b -> a <> b -> 1 < nameCounts funcs (Name a).
Proof.
  intros Ha Hb E Hne. unfold nameCounts, len.
  assert (a ∈ filter (fun fd => Name fd = Name a) funcs) as Ha' by by apply list_elem_of_filter.
  assert (b ∈ filter (fun fd => Name fd = Name a) funcs) as Hb' by by apply list_elem_of_filter.
  destruct (filter _ funcs) as [|x [|y l]]; simpl; [set_solver| |lia].
  apply list_elem_of_singleton in Ha', Hb'. congruence.
Qed.

(** Labels tell the entries apart. *)
Lemma label_inj a b : a ∈ funcs -> b ∈ funcs -> renderLabel funcs a = renderLabel funcs b -> a = b.
Proof.
  intros Ha Hb E. destruct (decide (Key a = Key b)) as [Ek|Hkey]; [by apply entry_same_key|]. exfalso.
  assert (a <> b) as Hne by congruence. pose proof (proj1 (list.Forall_forall _ _) Hok) as Hall.
  assert (Hmix : forall x y, x ∈ funcs -> y ∈ funcs -> x <> y -> nameCounts funcs (Name x) <= 1 -> Name x = DisplayName y -> False).
  { intros x y Hx Hy Hxy Hc En. destruct (Hall _ Hx) as (Hdot & _).
    destruct (Hall _ Hy) as (_ & Ed & [Ek|[recv Ek]]); rewrite Ed, Ek in En.
    - pose proof (two_names x y Hx Hy En Hxy). lia.
    - apply Hdot. rewrite En, !bytes_of_string_app. set_solver. }
  unfold renderLabel, renderName in E.
  destruct (Z.leb_spec (nameCounts funcs (Name a)) 1) as [Ca|Ca], (Z.leb_spec (nameCounts funcs (Name b)) 1) as [Cb|Cb].
  - pose proof (two_names a b Ha Hb E Hne). lia.
  - by apply (Hmix a b).
  - by apply (Hmix b a).
  - apply Hkey. destruct (Hall _ Ha) as (_ & <- & _). by destruct (Hall _ Hb) as (_ & <- & _).
Qed.
End Order.

#[export] Instance label_le_trans funcs : Transitive (label_le funcs).
Proof.
  intros a b c. unfold label_le. cbv zeta.
  destruct (decide (renderLabel funcs a = renderLabel funcs b)) as [Eab|Nab],
    (decide (renderLabel funcs b = renderLabel funcs c)) as [Ebc|Nbc]; intros Hab Hbc.
  - rewrite decide_True by congruence. by transitivity (Anchor b).
  - rewrite decide_False by congruence. by rewrite Eab.
  - rewrite decide_False by congruence. by rewrite <- Ebc.
  - rewrite decide_False; [by transitivity (renderLabel funcs b)|]. intros E. rewrite E in Hab. by apply Nbc, (anti_symm str_le).
Qed.

#[export] Instance label_le_total funcs : Total (label_le funcs).
Proof.
  intros a b. unfold label_le. cbv zeta. destruct (decide (renderLabel funcs a = renderLabel funcs b)) as [E|E].
  - rewrite decide_True by done. apply (total str_le).
  - rewrite decide_False by congruence. apply (total str_le).
Qed.

Lemma label_le_label funcs a b : label_le funcs a b -> label_le funcs b a -> renderLabel funcs a = renderLabel funcs b.
Proof.
  unfold label_le. cbv zeta. destruct (decide (renderLabel funcs a = renderLabel funcs b)) as [|E]; [done|].
  rewrite decide_False by congruence. apply (anti_symm str_le).
Qed.

Lemma map_keys {A} (m : gmap string A) k : k ∈ (map_to_list m).*1 <-> is_Some (m !! k).
Proof.
  rewrite list_elem_of_fmap. split.
  - intros ([k' x] & -> & Hin%elem_of_map_to_list). by exists x.
  - intros [x Hx]. exists (k, x). by rewrite elem_of_map_to_list.
Qed.

Lemma groupsOf_elem funcs g : is_Some (groupsOf funcs !! g) <-> g ∈ (Group <$> shown funcs).
Proof.
  unfold groupsOf. rewrite <- not_eq_None_Some, <- not_elem_of_list_to_map, <- list_fmap_compose.
  destruct (decide (g ∈ (Group <$> shown funcs))) as [Hin|Hin]; [split; [done | by intros _ ?] | split; [by intros [] | done]].
Qed.

Section Permuted.
Context (funcs funcs' : list FuncDoc) (Hp : funcs ≡ₚ funcs').

Lemma nameCounts_perm name : nameCounts funcs name = nameCounts funcs' name.
Proof. unfold nameCounts, len. by rewrite Hp. Qed.

Lemma renderLabel_perm fd : renderLabel funcs fd = renderLabel funcs' fd.
Proof. unfold renderLabel, renderName. by rewrite nameCounts_perm. Qed.

Lemma hides_perm fd : hides funcs fd = hides funcs' fd.
Proof.
  unfold hides. f_equal. destruct (ctxBaseKey fd); [|done]. apply bool_decide_ext. by rewrite Hp.
Qed.

Lemma hide_perm key : hide funcs key = hide funcs' key.
Proof.
  unfold hide. apply eq_iff_eq_true. rewrite !existsb_exists. setoid_rewrite <- list_elem_of_In. setoid_rewrite hides_perm.
  by setoid_rewrite Hp.
Qed.

Lemma shown_perm : shown funcs ≡ₚ shown funcs'.
Proof.
  unfold shown. rewrite Hp. apply reflexive_eq, list_filter_iff. intros fd. by rewrite hide_perm.
Qed.

Lemma groupNames_perm (O O' : RangeOrder) : @groupNames O funcs = @groupNames O' funcs'.
Proof.
  apply sortStrings_perm. rewrite !range_perm. apply NoDup_Permutation; [apply NoDup_fst_map_to_list..|]. intros g.
  rewrite !map_keys, !groupsOf_elem. by rewrite shown_perm.
Qed.

Hypothesis (Hkeys : NoDup (Key <$> funcs)) (Hok : Forall entry_ok funcs).

Lemma sortedGroup_perm g : sortedGroup funcs g = sortedGroup funcs' g.
Proof.
  apply (StronglySorted_unique_strong (label_le funcs)).
  - intros a b Ha Hb Hab Hba. unfold sortedGroup in Ha, Hb. rewrite merge_sort_Permutation in Ha, Hb.
    apply (label_inj funcs Hkeys Hok); [| |by apply label_le_label].
    + apply list_elem_of_filter in Ha as [_ Ha]. by apply list_elem_of_filter in Ha as [_ Ha].
    + apply list_elem_of_filter in Hb as [_ Hb]. apply list_elem_of_filter in Hb as [_ Hb]. by rewrite Hp.
  - apply (StronglySorted_merge_sort (label_le funcs)).
  - eapply StronglySorted_mono; [|apply (StronglySorted_merge_sort (label_le funcs'))].
    intros a b. unfold label_le. cbv zeta. by rewrite <- !renderLabel_perm.
  - unfold sortedGroup. rewrite !merge_sort_Permutation. unfold groupFuncs. by rewrite shown_perm.
Qed.
End Permuted.

(** The entries [parseFuncsInDir] makes. *)
Lemma funcDocOf_ok fn doc : (x2e ∉ bytes_of_string (fn_Name fn)) -> entry_ok (funcDocOf fn doc).
Proof.
  intros Hdot. unfold entry_ok, funcDocOf. destruct (decide (extractReceiverName fn = EmptyString)); simpl.
  - auto.
  - split; [done|]. split; [done|]. right. eauto.
Qed.

(** ** What goes into the reference *)

(** The map the loop of [parseFuncsInDir] builds. *)
Lemma addFuncs_spec fds m :
  map_Forall (fun k fd => Key fd = k) m ->
  map_Forall (fun k fd => Key fd = k) (fold_left addFunc fds m) /\
  (forall k, is_Some (fold_left addFunc fds m !! k) <-> is_Some (m !! k) \/ k ∈ (Key <$> fds)).
Proof.
  revert m. induction fds as [|fd fds IH]; intros m Hm; simpl.
  { split; [done|]. intros k. split; [by left | by intros [?|?%elem_of_nil]]. }
  assert (Hadd : map_Forall (fun k fd => Key fd = k) (addFunc m fd) /\
    forall k, is_Some (addFunc m fd !! k) <-> is_Some (m !! k) \/ k = Key fd).
  { unfold addFunc. destruct (m !! Key fd) as [e|] eqn:Ee;
      (split; [apply map_Forall_insert_2; [|done]; by rewrite ?(Hm _ _ Ee)|]); intros k;
      (destruct (decide (k = Key fd)) as [->|Hne]; [rewrite lookup_insert_eq; split; [by right | eauto]|];
       rewrite lookup_insert_ne by done; split; [by left | by intros [?|?]]). }
  destruct Hadd as [Ha Hk]. destruct (IH _ Ha) as [H1 H2]. split; [done|]. intros k. rewrite H2, Hk.
  cbn [fmap list_fmap]. rewrite elem_of_cons. tauto.
Qed.

(** With distinct keys nothing is merged, and it has the declarations. *)
Lemma addFuncs_distinct fds m :
  NoDup (Key <$> fds) -> (forall fd, fd ∈ fds -> m !! Key fd = None) ->
  map_to_list (fold_left addFunc fds m) ≡ₚ ((fun fd => (Key fd, fd)) <$> fds) ++ map_to_list m.
Proof.
  revert m. induction fds as [|fd fds IH]; intros m Hnd Hm; [done|]. cbn [fold_left fmap list_fmap app] in *.
  apply list.NoDup_cons in Hnd as [Hn Hnd]. assert (Hfd : m !! Key fd = None) by (apply Hm; by left).
  unfold addFunc at 2. rewrite Hfd, IH, map_to_list_insert; [by rewrite Permutation_middle|done|done|].
  intros fd' Hin. rewrite lookup_insert_ne; [apply Hm; by right|]. intros E. apply Hn. rewrite E. by apply list_elem_of_fmap_2.
Qed.

(** The package of a directory that is documented. *)
Definition selectedPackage `{GoParser} (dir : string) : option Package :=
  match ParseDir dir (fun name => negb (HasSuffix name "_test.go")) with
  | inr _ => None
  | inl pkgs => match selectPackage fileCount (map_to_list pkgs) with inl name => pkgs !! name | inr _ => None end
  end.

Lemma range_select `{RangeOrder} (pkgs : gmap string Package) site :
  selectPackage fileCount (range_of site pkgs) = selectPackage fileCount (map_to_list pkgs).
Proof. apply selectPackage_perm; [rewrite range_perm; apply NoDup_fst_map_to_list | apply range_perm]. Qed.

Lemma packageDocs_perm `{GoParser} files files' : files ≡ₚ files' -> packageDocs files ≡ₚ packageDocs files'.
Proof. intros Hp. unfold packageDocs. by rewrite Hp. Qed.

(** What a call returns: the keys of the declarations of the package, and the declarations
    where those are distinct. *)
Lemma parseFuncsInDir_entries `{GoParser} `{RangeOrder} call dir funcs :
  parseFuncsInDir call dir = inl funcs ->
  exists pkg, selectedPackage dir = Some pkg /\ NoDup (Key <$> funcs) /\
    (forall k, k ∈ (Key <$> funcs) <-> k ∈ (Key <$> packageDocs (map_to_list pkg))) /\
    (NoDup (Key <$> packageDocs (map_to_list pkg)) -> funcs ≡ₚ sortExamples <$> packageDocs (map_to_list pkg)).
Proof.
  unfold parseFuncsInDir, selectedPackage. destruct (ParseDir _ _) as [pkgs|]; [|done]. rewrite range_select.
  destruct (selectPackage _ _) as [name|]; [|done]. destruct (pkgs !! name) as [pkg|]; [|done]. intros [= <-]. exists pkg. split; [done|].
  assert (Hfiles : packageDocs (range_of (call +:+ " files") pkg) ≡ₚ packageDocs (map_to_list pkg)) by apply packageDocs_perm, range_perm.
  set (fds := packageDocs (range_of _ pkg)) in *. destruct (addFuncs_spec fds ∅ (map_Forall_empty _)) as [Hk Hd].
  set (m := fold_left addFunc fds ∅) in *.
  assert (Key <$> ((fun kf => sortExamples kf.2) <$> range_of (call +:+ " funcs") m) ≡ₚ (map_to_list m).*1) as Hkeys.
  { rewrite range_perm, <- list_fmap_compose. apply reflexive_eq, list_fmap_ext. intros i [k fd] Hin. simpl.
    apply Hk. apply elem_of_map_to_list. by eapply list_elem_of_lookup_2. }
  split; [rewrite Hkeys; apply NoDup_fst_map_to_list|]. split.
  - intros k. rewrite Hkeys, map_keys, Hd, lookup_empty, Hfiles. split; [intros [[? [=]]|?]; done | by right].
  - intros Hnd. rewrite range_perm. unfold m. rewrite addFuncs_distinct; [|by rewrite Hfiles|done].
    rewrite map_to_list_empty, app_nil_r, <- list_fmap_compose. by rewrite <- Hfiles.
Qed.

(** A function or method that belongs to the public API: documented and exported, on an
    exported receiver if it has one, in a file without the build tag integration. *)
Definition public `{GoParser} (pkg : Package) (fn : FuncDecl) : Prop :=
  exists filename file, pkg !! filename = Some file /\ hasBuildTag file "integration" = false /\ DeclFunc fn ∈ file_Decls file /\
    fn_Doc fn <> None /\ IsExported (fn_Name fn) = true /\
    (fn_Recv fn = None \/ IsExported (extractReceiverName fn) = true).

Definition keyOf (fn : FuncDecl) : string :=
  let receiver := extractReceiverName fn in
  if decide (receiver = EmptyString) then fn_Name fn else receiver +:+ "." +:+ fn_Name fn.
Definition anchorOf (fn : FuncDecl) : string :=
  let receiver := extractReceiverName fn in
  ToLower (if decide (receiver = EmptyString) then fn_Name fn else receiver +:+ "-" +:+ fn_Name fn).

(** The entry of a declaration. *)
Definition describes (fd : FuncDoc) (fn : FuncDecl) : Prop :=
  exists doc, fn_Doc fn = Some doc /\ Key fd = keyOf fn /\ Name fd = fn_Name fn /\ DisplayName fd = keyOf fn /\ Anchor fd = anchorOf fn /\
    Group fd = extractGroup doc /\ Behavior fd = extractBehavior doc /\ Fluent fd = extractFluent doc /\
    Description fd = extractDescription doc /\ Examples fd ≡ₚ extractExamples doc /\ StronglySorted byLine (Examples fd).

#[export] Instance byLine_trans : Transitive byLine.
Proof. intros a b c. unfold byLine. lia. Qed.
#[export] Instance byLine_total : Total byLine.
Proof. intros a b. unfold byLine. lia. Qed.

Lemma declDoc_public `{GoParser} fn fd :
  declDoc (DeclFunc fn) = Some fd <->
  exists doc, fn_Doc fn = Some doc /\ fd = funcDocOf fn doc /\ IsExported (fn_Name fn) = true /\
    (fn_Recv fn = None \/ IsExported (extractReceiverName fn) = true).
Proof.
  simpl. destruct (fn_Doc fn) as [doc|]; [|split; [done | by intros (? & ? & _)]].
  destruct (IsExported (fn_Name fn)); [|split; [done | by intros (? & _ & _ & ? & _)]]. simpl.
  destruct (bool_decide (fn_Recv fn <> None) && negb (IsExported (extractReceiverName fn))) eqn:Er.
  - apply andb_true_iff in Er as [Er Ex]. apply bool_decide_eq_true in Er. apply negb_true_iff in Ex.
    split; [done|]. intros (? & _ & _ & _ & [?|?]); congruence.
  - split; [|by intros (d & [= <-] & -> & _)]. intros [= <-]. exists doc. split; [done|]. split; [done|]. split; [done|].
    apply andb_false_iff in Er as [Er|Er]; [left | right; by apply negb_false_iff in Er].
    apply bool_decide_eq_false in Er. by destruct (fn_Recv fn); [exfalso; apply Er|].
Qed.

(** The declarations of a package, one by one. *)
Lemma packageDocs_public `{GoParser} pkg fd :
  fd ∈ packageDocs (map_to_list pkg) <-> exists fn doc, public pkg fn /\ fn_Doc fn = Some doc /\ fd = funcDocOf fn doc.
Proof.
  unfold packageDocs. rewrite list_elem_of_bind. split.
  - intros ([filename file] & Hfd & Hfile%elem_of_map_to_list). destruct (hasBuildTag file "integration") eqn:Et; [by apply elem_of_nil in Hfd|].
    apply list_elem_of_omap in Hfd as ([fn|] & Hdecl & Efd); [|done]. apply declDoc_public in Efd as (doc & Ed & -> & Hx & Hr).
    exists fn, doc. split; [|done]. exists filename, file. split_and!; [done..|by rewrite Ed|done|done].
  - intros (fn & doc & (filename & file & Hfile & Et & Hdecl & _ & Hx & Hr) & Ed & ->).
    exists (filename, file). split; [|by apply elem_of_map_to_list]. rewrite Et. apply list_elem_of_omap. exists (DeclFunc fn). split; [done|].
    apply declDoc_public. eauto 10.
Qed.

Lemma funcDocOf_describes fn doc : fn_Doc fn = Some doc -> describes (sortExamples (funcDocOf fn doc)) fn.
Proof.
  intros Ed. exists doc. unfold funcDocOf, keyOf, anchorOf, sortExamples. destruct (decide _); cbn [Key Name DisplayName Anchor Group Behavior Fluent Description Examples];
    (split_and!; [done..|apply merge_sort_Permutation|apply StronglySorted_merge_sort; apply _]).
Qed.


(** ** The reference does not depend on the order *)

(** The declarations of a directory have distinct keys, and names without dots, as Go
    identifiers are. *)
Definition well_declared `{GoParser} (dir : string) : Prop :=
  match selectedPackage dir with
  | Some pkg =>
      let fds := packageDocs (map_to_list pkg) in
      NoDup (Key <$> fds) /\ Forall (fun fd => x2e ∉ bytes_of_string (Name fd)) fds
  | None => True
  end.

(** And no key is declared both in the root package and in cachefake, whose entries go
    into one list. *)
Definition unambiguous `{GoParser} (root : string) : Prop :=
  well_declared root /\ well_declared (joinPath root "cachefake") /\
  Forall (fun src => well_declared (joinPath root (RelDir src))) driverConfigSources /\
  match selectedPackage root, selectedPackage (joinPath root "cachefake") with
  | Some pkg, Some fake => Forall (fun fd => Key fd ∉ (Key <$> packageDocs (map_to_list fake))) (packageDocs (map_to_list pkg))
  | _, _ => True
  end.

(** The same entries, in whatever order, or the same error. *)
Definition same_docs (r r' : list FuncDoc + error) : Prop :=
  match r, r' with
  | inl funcs, inl funcs' => funcs ≡ₚ funcs'
  | inr e, inr e' => e = e'
  | _, _ => False
  end.

Lemma parseFuncsInDir_order `{GoParser} (O O' : RangeOrder) call call' dir :
  well_declared dir -> same_docs (@parseFuncsInDir _ O call dir) (@parseFuncsInDir _ O' call' dir).
Proof.
  intros Hw. destruct (@parseFuncsInDir _ O call dir) as [funcs|e] eqn:E, (@parseFuncsInDir _ O' call' dir) as [funcs'|e'] eqn:E'; simpl.
  1: apply parseFuncsInDir_entries in E as (pkg & Hs & _ & _ & Hp), E' as (pkg' & Hs' & _ & _ & Hp').
  1: unfold well_declared in Hw; rewrite Hs in Hs'; injection Hs' as <-; rewrite Hs in Hw; destruct Hw as [Hw _]; by rewrite Hp, Hp'.
  all: revert E E'; unfold parseFuncsInDir; destruct (ParseDir _ _) as [pkgs|]; [|congruence];
    rewrite !range_select; destruct (selectPackage _ _) as [name|]; [|congruence]; destruct (pkgs !! name); congruence.
Qed.

(** The entries of a directory that is well declared. *)
Lemma parseFuncsInDir_ok `{GoParser} `{RangeOrder} call dir funcs :
  well_declared dir -> parseFuncsInDir call dir = inl funcs -> NoDup (Key <$> funcs) /\ Forall entry_ok funcs.
Proof.
  intros Hw (pkg & Hs & Hnd & _ & Hp)%parseFuncsInDir_entries. split; [done|]. unfold well_declared in Hw. rewrite Hs in Hw.
  destruct Hw as [Hk Hdots]. rewrite (Hp Hk). apply list.Forall_fmap, list.Forall_forall. intros fd Hin.
  rewrite list.Forall_forall in Hdots. specialize (Hdots fd Hin). apply packageDocs_public in Hin as (fn & doc & _ & _ & ->).
  apply (funcDocOf_ok fn doc). revert Hdots. unfold funcDocOf. by destruct (decide _).
Qed.

(** The [New] of a driver is found in any order: it is the only entry whose key is its
    name, without a dot. *)
Lemma list_find_unique {A} (P : A -> Prop) `{forall x, Decision (P x)} l l' :
  l ≡ₚ l' -> (forall x y, x ∈ l -> y ∈ l -> P x -> P y -> x = y) -> snd <$> list_find P l = snd <$> list_find P l'.
Proof.
  intros Hp Hu. destruct (list_find P l) as [[i x]|] eqn:E, (list_find P l') as [[j y]|] eqn:E'; simpl; [| | |done].
  - apply list_find_Some in E as (Hx & Px & _), E' as (Hy & Py & _). apply list_elem_of_lookup_2 in Hx, Hy. f_equal.
    apply Hu; [done|by rewrite Hp|done|done].
  - apply list_find_Some in E as (Hx & Px & _). apply list_elem_of_lookup_2 in Hx. rewrite Hp in Hx.
    apply list_find_None in E'. rewrite list.Forall_forall in E'. by destruct (E' x Hx).
  - apply list_find_Some in E' as (Hy & Py & _). apply list_elem_of_lookup_2 in Hy. rewrite <- Hp in Hy.
    apply list_find_None in E. rewrite list.Forall_forall in E. by destruct (E y Hy).
Qed.

Lemma new_unique funcs x y :
  NoDup (Key <$> funcs) -> Forall entry_ok funcs -> x ∈ funcs -> y ∈ funcs ->
  Name x = "New" /\ Contains (Key x) "." = false -> Name y = "New" /\ Contains (Key y) "." = false -> x = y.
Proof.
  intros Hnd Hok Hx Hy [Nx Cx] [Ny Cy]. rewrite list.Forall_forall in Hok.
  assert (Hkey : forall z, z ∈ funcs -> Contains (Key z) "." = false -> Key z = Name z).
  { intros z Hz Cz. destruct (Hok z Hz) as (_ & _ & [?|[recv E]]); [done|]. exfalso. revert Cz. rewrite E.
    apply not_false_iff_true. unfold Contains. apply bContains_spec. exists (bytes_of_string recv), (bytes_of_string (Name z)).
    by rewrite !bytes_of_string_app. }
  apply (entry_same_key funcs Hnd); [done|done|]. by rewrite !Hkey, Nx, Ny by done.
Qed.

Lemma driverConfigDocOf_order `{GoParser} (O O' : RangeOrder) call call' root src :
  well_declared (joinPath root (RelDir src)) -> @driverConfigDocOf _ O call root src = @driverConfigDocOf _ O' call' root src.
Proof.
  intros Hw. unfold driverConfigDocOf.
  pose proof (parseFuncsInDir_order O O' (call +:+ " " +:+ RelDir src) (call' +:+ " " +:+ RelDir src) _ Hw) as Hsame.
  destruct (@parseFuncsInDir _ O _ _) as [funcs|e] eqn:E, (@parseFuncsInDir _ O' _ _) as [funcs'|e'] eqn:E'; simpl in Hsame; [|done|done|by subst].
  destruct (parseFuncsInDir_ok _ _ _ Hw E) as [Hnd Hok].
  pose proof (list_find_unique (fun fd => Name fd = "New" /\ Contains (Key fd) "." = false) funcs funcs' Hsame
    (fun x y Hx Hy => new_unique funcs x y Hnd Hok Hx Hy)) as Hfind.
  destruct (list_find _ funcs) as [[i x]|], (list_find _ funcs') as [[j y]|]; simpl in Hfind; congruence.
Qed.

Lemma driverConfigDocs_order `{GoParser} (O O' : RangeOrder) call root :
  unambiguous root -> @driverConfigDocs _ O call root = @driverConfigDocs _ O' call root.
Proof.
  intros (_ & _ & Hdrv & _). unfold driverConfigDocs. f_equal. apply list_fmap_ext. intros i src Hin. apply driverConfigDocOf_order.
  rewrite list.Forall_forall in Hdrv. apply Hdrv. by eapply list_elem_of_lookup_2.
Qed.

(** The rendering of the same entries, each run with orders of its own. *)
Lemma renderAPI_order `{GoParser} (O O' : RangeOrder) root funcs funcs' :
  unambiguous root -> funcs ≡ₚ funcs' -> NoDup (Key <$> funcs) -> Forall entry_ok funcs ->
  @renderAPI _ O root funcs = @renderAPI _ O' root funcs'.
Proof.
  intros Hun Hp Hkeys Hok.
  assert (@allGroupNames O funcs = @allGroupNames O' funcs') as Hg by (unfold allGroupNames; by rewrite (groupNames_perm _ _ Hp O O')).
  assert (Hsort := sortedGroup_perm _ _ Hp Hkeys Hok).
  assert (Hname : forall fn, renderName funcs fn = renderName funcs' fn) by (intros fn; apply (renderLabel_perm _ _ Hp)).
  assert (@renderIndexRow _ O root funcs <$> @allGroupNames O funcs = @renderIndexRow _ O' root funcs' <$> @allGroupNames O' funcs') as Hi.
  { rewrite Hg. apply list_fmap_ext. intros _ g _. unfold renderIndexRow. rewrite Hsort. destruct (decide _).
    - unfold renderDriverConfigIndexRow. by rewrite (driverConfigDocs_order O O').
    - f_equal. apply list_fmap_ext. intros _ fn _. by rewrite Hname. }
  assert (@renderDetails _ O root funcs <$> @allGroupNames O funcs = @renderDetails _ O' root funcs' <$> @allGroupNames O' funcs') as Hd.
  { rewrite Hg. apply list_fmap_ext. intros _ g _. unfold renderDetails. rewrite Hsort. destruct (decide _).
    - unfold renderDriverConfigIndex. by rewrite (driverConfigDocs_order O O').
    - do 3 f_equal. f_equal. apply f_equal, list_fmap_ext. intros _ fn _. unfold renderFunc, renderLabel. by rewrite Hname. }
  unfold renderAPI. by rewrite Hi, Hd.
Qed.

(** The entries of the root package and of cachefake together. *)
Lemma parseFuncs_order `{GoParser} (O O' : RangeOrder) root :
  unambiguous root -> same_docs (@parseFuncs _ O root) (@parseFuncs _ O' root).
Proof.
  intros (Hr & Hf & _). unfold parseFuncs. pose proof (parseFuncsInDir_order O O' "root" "root" _ Hr) as H1.
  pose proof (parseFuncsInDir_order O O' "cachefake" "cachefake" _ Hf) as H2.
  destruct (@parseFuncsInDir _ O _ root), (@parseFuncsInDir _ O' _ root); simpl in H1; [|done..].
  destruct (@parseFuncsInDir _ O _ _), (@parseFuncsInDir _ O' _ _); simpl in H2; [|done..]. simpl. by rewrite H1, H2.
Qed.

Lemma parseFuncs_ok `{GoParser} `{RangeOrder} root funcs :
  unambiguous root -> parseFuncs root = inl funcs -> NoDup (Key <$> funcs) /\ Forall entry_ok funcs.
Proof.
  intros (Hr & Hf & _ & Hdis). unfold parseFuncs. destruct (parseFuncsInDir "root" root) as [fs|] eqn:E; [|done].
  destruct (parseFuncsInDir "cachefake" _) as [fs'|] eqn:E'; [|done]. intros [= <-].
  destruct (parseFuncsInDir_ok _ _ _ Hr E) as [Hnd Hok], (parseFuncsInDir_ok _ _ _ Hf E') as [Hnd' Hok'].
  apply parseFuncsInDir_entries in E as (pkg & Hs & _ & Hk & _), E' as (fake & Hs' & _ & Hk' & _). rewrite Hs, Hs' in Hdis.
  split; [|by apply list.Forall_app]. rewrite fmap_app. apply list.NoDup_app. split; [done|]. split; [|done].
  intros k Hin Hin'. apply Hk in Hin. apply Hk' in Hin'. apply list_elem_of_fmap in Hin as (fd & -> & Hfd).
  rewrite list.Forall_forall in Hdis. by apply (Hdis fd Hfd).
Qed.

(** C40: the API reference does not depend on the order in which Go's maps give their entries,
    which is random: packages, files, declarations and groups, in the parse of the root
    package and of cachefake and in each of the two parses of every driver package.  Two runs
    over the same sources, with any two such orders, write the same text, or fail with the same
    error.  The condition is that keys (a name, or a receiver and a name) are distinct within
    each package, and between the root package and cachefake. *)
Theorem renderAPI_deterministic `{GoParser} (O O' : RangeOrder) root :
  unambiguous root ->
  match @parseFuncs _ O root, @parseFuncs _ O' root with
  | inl funcs, inl funcs' => @renderAPI _ O root funcs = @renderAPI _ O' root funcs'
  | inr e, inr e' => e = e'
  | _, _ => False
  end.
Proof.
  intros Hun. pose proof (parseFuncs_order O O' root Hun) as Hsame.
  destruct (@parseFuncs _ O root) as [funcs|] eqn:E, (@parseFuncs _ O' root); simpl in Hsame; [|done..].
  destruct (parseFuncs_ok root funcs Hun E) as [Hnd Hok]. by apply renderAPI_order.
Qed.
