(* ===== verification/DocCounts.v ===== *)
(** * Counting tests

    [docs/readme/testcounts/main.go] runs the tests of every module and counts what
    ran; [docs/readme/main.go] has an older count taken from the sources.  The file
    system, the Go parser, the [go] command and [encoding/json] are parameters: a
    directory is a tree, a parsed file its declarations and its syntax tree. *)

From S2P Require Import Prelude GoStd InspectHelpers GoText DocSections.

(** ** The file system *)

(** What [filepath.Walk] meets: a file with what reading it gives, a directory with its
    entries in lexical order and the error of listing it, a name that cannot be
    examined. *)
Inductive tree :=
| TFile (name : string) (content : string + error)
| TDir (name : string) (entries : list tree) (listErr : option error)
| TBroken (name : string) (e : error).

Definition treeName (t : tree) : string :=
  match t with TFile n _ | TDir n _ _ | TBroken n _ => n end.

Section Walk.
Context {A : Type} (skip : string -> string -> bool) (visit : string -> string -> string + error -> A -> A + error).

(** [filepath.Walk] of [t] in directory [dir], with the callback of the tools: an error
    ends the walk, a directory for which [skip] holds is left out ([filepath.SkipDir]),
    and a file is visited. *)
Fixpoint walkIn (dir : string) (t : tree) (acc : A) : A + error :=
  match t with
  | TBroken _ e => inr e
  | TFile name content => visit dir name content acc
  | TDir name entries listErr =>
      let path := joinPath dir name in
      if skip path name then inl acc
      else match listErr with
           | Some e => inr e
           | None =>
               (fix go (ts : list tree) (acc : A) : A + error :=
                  match ts with
                  | [] => inl acc
                  | t' :: rest => match walkIn path t' acc with inl acc' => go rest acc' | inr e => inr e end
                  end) entries acc
           end
  end.

(** The entries of a directory, one after the other. *)
Fixpoint walkAll (path : string) (ts : list tree) (acc : A) : A + error :=
  match ts with
  | [] => inl acc
  | t :: rest => match walkIn path t acc with inl acc' => walkAll path rest acc' | inr e => inr e end
  end.
End Walk.

(** ** docs/readme/testcounts/main.go *)

(** [unitModuleDirs]: the walk begins at the root itself, which is never skipped. *)
Definition moduleSkip (root path name : string) : bool :=
  bool_decide (name = ".git") || bool_decide (name = "vendor") || bool_decide (path = joinPath root "integration").

Definition moduleVisit (dir name : string) (_ : string + error) (dirs : list string) : list string + error :=
  if decide (name = "go.mod") then inl (dirs ++ [dir]) else inl dirs.

Definition unitModuleDirs (root : string) (entries : list tree) (listErr : option error) : list string + error :=
  match listErr with
  | Some e => inr e
  | None =>
      match walkAll (moduleSkip root) moduleVisit root entries [] with
      | inr e => inr e
      | inl dirs => inl (sortStrings dirs)
      end
  end.

(** The loop of [hasIntegrationBuildTag], over the lines of the file. *)
Fixpoint integrationTag (lines : list string) : bool :=
  match lines with
  | [] => false
  | line :: rest =>
      let trimmed := TrimSpace line in
      if decide (trimmed = EmptyString) then integrationTag rest
      else if HasPrefix trimmed "package " then false
      else if Contains trimmed "go:build" && Contains trimmed "integration" then true
      else if HasPrefix trimmed "// +build" && Contains trimmed "integration" then true
      else integrationTag rest
  end.
Definition hasIntegrationBuildTag (src : string) : bool := integrationTag (SplitLines src).

(** *** Syntax trees *)

(** The nodes of [go/ast] that are looked at; [NOther] stands for the rest. *)
Inductive Node :=
| NCall (Fun : Node) (Args : list Node)
| NSelector (X : Node) (Sel : string)
| NBasicLit (isString : bool)
| NFuncLit (children : list Node)
| NComposite (Type_ : option Node) (Elts : list Node)
| NArrayType (Len : option Node) (Elt : Node)
| NIdent (Name : string)
| NReturn (Results : list Node)
| NOther (children : list Node).

(** [ast.Inspect] with a callback that counts the nodes where [p] holds and always
    descends. *)
Fixpoint countNodes (p : Node -> bool) (n : Node) : Z :=
  (if p n then 1 else 0) +
  let all := fold_right (fun c acc => countNodes p c + acc) 0 in
  match n with
  | NCall f args => countNodes p f + all args
  | NSelector x _ => countNodes p x
  | NBasicLit _ | NIdent _ => 0
  | NFuncLit cs | NReturn cs | NOther cs => all cs
  | NComposite ty elts => match ty with Some t => countNodes p t | None => 0 end + all elts
  | NArrayType l e => match l with Some t => countNodes p t | None => 0 end + countNodes p e
  end.

(** A function declaration: its name, whether it has a receiver, the statements of its
    body. *)
Record TestDecl := mkTestDecl { td_Name : string; td_Recv : bool; td_Body : option (list Node) }.
Record TestFile := mkTestFile { tf_Funcs : list TestDecl; tf_Node : Node }.

Class GoTestParser := { ParseFile : string -> string -> TestFile + error }.

(** *** The integration tests *)

Section Integration.
Context `{GoTestParser}.

Definition vcsSkip (_ name : string) : bool := bool_decide (name = ".git") || bool_decide (name = "vendor").

Definition topLevelTest (fn : TestDecl) : bool := negb (td_Recv fn) && HasPrefix (td_Name fn) "Test".

Definition topLevelVisit (dir name : string) (content : string + error) (names : gset string) : gset string + error :=
  let path := joinPath dir name in
  if negb (HasSuffix path "_test.go") then inl names
  else match content with
       | inr e => inr e
       | inl src =>
           if negb (hasIntegrationBuildTag src) then inl names
           else match ParseFile path src with
                | inr e => inr e
                | inl file => inl (names ∪ list_to_set (td_Name <$> filter (fun fn => topLevelTest fn = true) (tf_Funcs file)))
                end
       end.

Definition integrationTopLevelTests (dir : string) (t : tree) : gset string + error :=
  walkIn vcsSkip topLevelVisit dir t ∅.
End Integration.

(** [regexp.QuoteMeta] *)
Definition isMeta (c : byte) : bool :=
  match c with
  | x5c | x2e | x2b | x2a | x3f | x28 | x29 | x7c | x5b | x5d | x7b | x7d | x5e | x24 => true
  | _ => false
  end.
Definition QuoteMeta (s : string) : string :=
  string_of_bytes (bytes_of_string s ≫= (fun c => if isMeta c then [x5c; c] else [c])).

(** [_sortedKeys] *)
Definition sortedKeys (m : gset string) : list string := sortStrings (elements m).

Definition buildTopLevelRunPattern (names : gset string) : string :=
  if decide (names = ∅) then EmptyString
  else "^(" +:+ Join (QuoteMeta <$> sortedKeys names) "|" +:+ ")(/.*)?$".

(** *** Test events *)

Record testEvent := mkTestEvent { Action : string; Test : string }.

(** The tokens of a [bufio.Scanner] over [data]: lines without their line end.  A line
    that does not fit in the scanner's buffer ends the scan. *)
Definition maxScanTokenSize : Z := 65536.
Definition dropCR (b : bytes) : bytes := match rev b with x0d :: r => rev r | _ => b end.
Fixpoint scanned (lines : list bytes) : list bytes :=
  match lines with
  | [] => []
  | [l] => if decide (l = []) then [] else if len l >=? maxScanTokenSize then [] else [dropCR l]
  | l :: rest => if len l >=? maxScanTokenSize then [] else dropCR l :: scanned rest
  end.

Section Events.
(** [json.Unmarshal] into a [testEvent] *)
Context (unmarshalEvent : bytes -> option testEvent).

Definition parseLine (line : bytes) : option testEvent :=
  let line := bytes_of_string (TrimSpace (string_of_bytes line)) in
  match line with
  | x7b :: _ => unmarshalEvent line
  | _ => None
  end.
Definition parseJSONEvents (data : bytes) : list testEvent := omap parseLine (scanned (bLines [] data)).

(** The part of a test name before the first slash. *)
Fixpoint beforeSlash (b : bytes) : bytes :=
  match b with
  | [] => []
  | c :: r => if Byte.eqb c x2f then [] else c :: beforeSlash r
  end.
Definition topOf (test : string) : string := string_of_bytes (beforeSlash (bytes_of_string test)).

(** The loop that counts: with prefixes, only tests under one of them. *)
Fixpoint countEvents (prefixes : option (gset string)) (events : list testEvent) (total : Z) : Z :=
  match events with
  | [] => total
  | e :: rest =>
      if negb (bool_decide (Action e = "run")) || bool_decide (Test e = EmptyString) then countEvents prefixes rest total
      else match prefixes with
           | None => countEvents prefixes rest (total + 1)
           | Some names =>
               if decide (topOf (Test e) ∈ names) then countEvents prefixes rest (total + 1) else countEvents prefixes rest total
           end
  end.
End Events.

(** *** Running the tests *)

Inductive statResult := StatOk | StatNotExist | StatErr (e : error).

Section Run.
Context `{GoTestParser} (unmarshalEvent : bytes -> option testEvent).
(** [os.Environ], [os.Stat] and the output and error of [go] run in a directory with
    arguments and an environment *)
Context (environ : list string) (stat : string -> statResult)
  (goCommand : string -> list string -> list string -> bytes * option error).

(** [os.Getenv]: the first entry of that name. *)
Definition getenv (key : string) : string :=
  match list_find (fun e => HasPrefix e (key +:+ "=") = true) environ with
  | Some (_, e) => TrimPrefix e (key +:+ "=")
  | None => EmptyString
  end.

(** The loop that climbs from [dir] to the nearest go.work; [fuel] bounds the number of
    directories above. *)
Fixpoint findWork (fuel : nat) (start dir : string) : string + error :=
  match fuel with
  | O => inr (ErrorString "out of fuel")
  | Datatypes.S f =>
      let candidate := joinPath dir "go.work" in
      match stat candidate with
      | StatOk => inl candidate
      | StatErr err => inr (ErrorWrap ("inspect Go workspace " +:+ candidate +:+ ": ") err)
      | StatNotExist =>
          let parent := Dir dir in
          if decide (parent = dir) then inr (ErrorString ("Go workspace not found above " +:+ start))
          else findWork f start parent
      end
  end.

Definition workFuel (start : string) : nat := Datatypes.S (Datatypes.S (String.length start)).

Definition testCommandEnv (start : string) : list string + error :=
  let goWork := if decide (getenv "CACHE_LOCAL_SIBLINGS" = "1") then findWork (workFuel start) start start else inl "off" in
  match goWork with
  | inr e => inr e
  | inl goWork => inl (filter (fun entry => HasPrefix entry "GOWORK=" = false) environ ++ ["GOWORK=" +:+ goWork])
  end.

(** Running [go] and counting its events. *)
Definition runAndCount (dir : string) (args env : list string) (prefixes : option (gset string)) : Z + error :=
  match goCommand dir args env with
  | (out, Some err) => inr (ErrorString ("go " +:+ Join args " " +:+ ": " +:+ Error err +:+ nl +:+ string_of_bytes out))
  | (out, None) => inl (countEvents prefixes (parseJSONEvents unmarshalEvent out) 0)
  end.

Definition countRunEvents (root : string) (prefixes : option (gset string)) : Z + error :=
  let run args :=
    match testCommandEnv root with
    | inr e => inr e
    | inl env => runAndCount root args env prefixes
    end in
  match prefixes with
  | None => run ["test"; "./..."; "-run"; "Test"; "-count=1"; "-json"]
  | Some names =>
      let runPattern := buildTopLevelRunPattern names in
      if decide (runPattern = EmptyString) then inl 0
      else run ["test"; "-tags=integration"; "./..."; "-run"; runPattern; "-count=1"; "-json"]
  end.

Definition countIntegrationRunEvents (integrationDir : string) (names : gset string) : Z + error :=
  let runPattern := buildTopLevelRunPattern names in
  if decide (runPattern = EmptyString) then inl 0
  else
    match testCommandEnv integrationDir with
    | inr e => inr e
    | inl env =>
        runAndCount integrationDir ["test"; "-tags=integration"; "./root"; "./all"; "-run"; runPattern; "-count=1"; "-json"]
          (env ++ ["INTEGRATION_DRIVER=memory,file,null,sqlitecache"]) (Some names)
    end.

Fixpoint sumModules (dirs : list string) (total : Z) : Z + error :=
  match dirs with
  | [] => inl total
  | dir :: rest => match countRunEvents dir None with inr e => inr e | inl n => sumModules rest (total + n) end
  end.

Definition countUnitRunEvents (root : string) (entries : list tree) (listErr : option error) : Z + error :=
  match unitModuleDirs root entries listErr with
  | inr e => inr e
  | inl dirs => sumModules dirs 0
  end.

(** [findRoot]: the working directory or one of the three above it. *)
Definition fileExists (p : string) : bool := match stat p with StatOk => true | _ => false end.
Definition isRoot (c : string) : bool :=
  fileExists (joinPath c "go.mod") && fileExists (joinPath c "factory.go") && fileExists (joinPath c "README.md").
Definition findRoot (wd : string) : string + error :=
  match list_find (fun c => isRoot c = true) [wd; Dir wd; Dir (Dir wd); Dir (Dir (Dir wd))] with
  | Some (_, c) => inl c
  | None => inr (ErrorString ("could not find project root from " +:+ wd))
  end.

(** [run], up to the file and text it hands to [os.WriteFile], whose error it returns.
    [tree_of] lists a directory, [readFile] reads a file. *)
Definition testcounts_run (wd : string) (tree_of : string -> list tree * option error) (readFile : string -> string + error)
    : option ((string * string) + error) :=
  match findRoot wd with
  | inr e => Some (inr e)
  | inl root =>
      let integrationDir := joinPath root "integration" in
      let '(entries, listErr) := tree_of integrationDir in
      match integrationTopLevelTests root (TDir "integration" entries listErr) with
      | inr e => Some (inr (ErrorWrap "integration top-level tests: " e))
      | inl names =>
          let '(entries, listErr) := tree_of root in
          match countUnitRunEvents root entries listErr with
          | inr e => Some (inr (ErrorWrap "count unit test runs: " e))
          | inl unitCount =>
              match countIntegrationRunEvents integrationDir names with
              | inr e => Some (inr (ErrorWrap "count integration test runs: " e))
              | inl integrationCount =>
                  let readmePath := joinPath root "README.md" in
                  match readFile readmePath with
                  | inr e => Some (inr e)
                  | inl data =>
                      r ← testcounts_updateTestsSection data (mkCounts unitCount integrationCount);
                      match r with
                      | (_, Some e) => Some (inr e)
                      | (out, None) => Some (inl (readmePath, out))
                      end
                  end
              end
          end
      end
  end.
End Run.

(** ** docs/readme/main.go *)

Section StaticCounts.
Context `{GoTestParser}.

(** A call [x.Run("...", func ...)]. *)
Definition literalRun (n : Node) : bool :=
  match n with
  | NCall (NSelector _ sel) (NBasicLit true :: NFuncLit _ :: _) => bool_decide (sel = "Run")
  | _ => false
  end.
Definition countLiteralSubtests (file : TestFile) : Z := countNodes literalRun (tf_Node file).
Definition countLiteralSubtestsInBlock (body : list Node) : Z := countNodes literalRun (NOther body).

Definition countTestsVisit (dir name : string) (content : string + error) (counts : TestCounts) : TestCounts + error :=
  let path := joinPath dir name in
  if negb (HasSuffix path "_test.go") then inl counts
  else match content with
       | inr e => inr e
       | inl src =>
           match ParseFile path src with
           | inr e => inr e
           | inl file =>
               let subtests := countLiteralSubtests file in
               let funcs := len (filter (fun fn => topLevelTest fn = true) (tf_Funcs file)) in
               if hasIntegrationBuildTag src
               then inl (mkTestCounts (UnitFuncs counts) (IntegrationFuncs counts + funcs) (UnitStaticSubtests counts)
                           (IntegrationStaticSubtests counts + subtests))
               else inl (mkTestCounts (UnitFuncs counts + funcs) (IntegrationFuncs counts) (UnitStaticSubtests counts + subtests)
                           (IntegrationStaticSubtests counts))
           end
       end.
Definition countTests (dir : string) (root : tree) : TestCounts + error :=
  walkIn vcsSkip countTestsVisit dir root (mkTestCounts 0 0 0 0).

Definition invariantFns : list string :=
  ["runCacheHelperInvariantSuite"; "runLockHelperInvariantSuite"; "runRateLimitHelperInvariantSuite";
   "runRefreshAheadHelperInvariantSuite"; "runRememberStaleDeeperInvariantSuite"; "runBatchHelperInvariantSuite";
   "runCounterHelperInvariantSuite"; "runDriverFactoryInvariantSuite"].

(** The first statement that returns a literal slice of [elemType]. *)
Fixpoint countReturnedCompositeElements (body : list Node) (elemType : string) : Z :=
  match body with
  | [] => 0
  | NReturn (NComposite (Some (NArrayType _ (NIdent name))) elts :: _) :: rest =>
      if decide (name = elemType) then len elts else countReturnedCompositeElements rest elemType
  | _ :: rest => countReturnedCompositeElements rest elemType
  end.

Definition compositeOf (typeName : string) (n : Node) : bool :=
  match n with NComposite (Some (NIdent name)) _ => bool_decide (name = typeName) | _ => false end.
Definition countCompositeLitsByType (body : list Node) (typeName : string) : Z := countNodes (compositeOf typeName) (NOther body).

Definition matrixStep (m : ContractMatrix) (fn : TestDecl) : ContractMatrix :=
  match td_Body fn with
  | None => m
  | Some body =>
      if decide (td_Name fn = "integrationContractCases")
      then mkContractMatrix (Drivers m) (countReturnedCompositeElements body "contractCase") (InvariantSubtests m)
      else if decide (td_Name fn = "integrationFixtures")
      then mkContractMatrix (countCompositeLitsByType body "storeFactory") (Cases m) (InvariantSubtests m)
      else if decide (td_Name fn ∈ invariantFns)
      then mkContractMatrix (Drivers m) (Cases m) (InvariantSubtests m + countLiteralSubtestsInBlock body)
      else m
  end.

Definition readContractMatrix (root : string) (readFile : string -> string + error) : ContractMatrix + error :=
  let path := joinPath root "store_contract_integration_test.go" in
  match readFile path with
  | inr e => if errorsIs e ErrNotExist then inl (mkContractMatrix 0 0 0) else inr e
  | inl src =>
      match ParseFile path src with
      | inr e => inr e
      | inl file => inl (fold_left matrixStep (tf_Funcs file) (mkContractMatrix 0 0 0))
      end
  end.
End StaticCounts.

(** ** The modules that are tested *)

(** Directory [d] has a go.mod, in or below the entries [ts] of [path], not below a
    directory that is left out. *)
Inductive module_below (root : string) : string -> list tree -> string -> Prop :=
| module_here path ts c : TFile "go.mod" c ∈ ts -> module_below root path ts path
| module_deeper path ts name entries d :
    TDir name entries None ∈ ts -> moduleSkip root (joinPath path name) name = false ->
    module_below root (joinPath path name) entries d -> module_below root path ts d.

Section TreeInd.
Context (P : tree -> Prop) (HF : forall n c, P (TFile n c)) (HB : forall n e, P (TBroken n e))
  (HD : forall n es le, Forall P es -> P (TDir n es le)).

Fixpoint tree_ind' (t : tree) : P t :=
  match t with
  | TFile n c => HF n c
  | TBroken n e => HB n e
  | TDir n es le => HD n es le ((fix go ts : Forall P ts :=
      match ts with [] => Forall_nil_2 P | t' :: rest => Forall_cons_2 P t' rest (tree_ind' t') (go rest) end) es)
  end.
End TreeInd.

(** The inner loop of [walkIn] is [walkAll]. *)
Lemma walkIn_dir {A} skip visit dir name entries listErr (acc : A) :
  walkIn skip visit dir (TDir name entries listErr) acc =
    if skip (joinPath dir name) name then inl acc
    else match listErr with
         | Some e => inr e
         | None => walkAll skip visit (joinPath dir name) entries acc
         end.
Proof.
  simpl. destruct (skip _ name); [done|]. destruct listErr; [done|]. generalize acc.
  induction entries as [|t rest IH]; intros acc'; [done|]. simpl. destruct (walkIn _ _ _ t acc'); [apply IH | done].
Qed.

(** What one entry, and a list of entries, adds. *)
Definition adds (root path : string) (t : tree) : Prop :=
  forall acc dirs, walkIn (moduleSkip root) moduleVisit path t acc = inl dirs ->
    forall d, d ∈ dirs <-> d ∈ acc \/ module_below root path [t] d.

Lemma module_below_mono root path ts ts' d : ts ⊆ ts' -> module_below root path ts d -> module_below root path ts' d.
Proof.
  intros Hs Hm. inversion Hm; subst; [eapply module_here; by apply Hs | eapply module_deeper; [by apply Hs|done..]].
Qed.

Lemma module_below_cons root path t ts d :
  module_below root path (t :: ts) d <-> module_below root path [t] d \/ module_below root path ts d.
Proof.
  split.
  - inversion 1 as [? ? c Hin|? ? name es ? Hin Hs Hb]; subst; apply elem_of_cons in Hin as [<-|Hin];
      [left; eapply module_here; by left | right; by eapply module_here
      |left; eapply module_deeper; [by left|done..] | right; by eapply module_deeper].
  - intros [Hm|Hm]; (eapply module_below_mono; [|exact Hm]); intros x Hx; [apply list_elem_of_singleton in Hx as ->; by left | by right].
Qed.

Lemma walkAll_adds root path ts :
  Forall (adds root path) ts -> forall acc dirs, walkAll (moduleSkip root) moduleVisit path ts acc = inl dirs ->
  forall d, d ∈ dirs <-> d ∈ acc \/ module_below root path ts d.
Proof.
  induction 1 as [|t ts Ht _ IH]; intros acc dirs; simpl.
  - intros [= <-] d. split; [by left|]. intros [?|Hm]; [done|]. inversion Hm; subst; by (apply elem_of_nil in H).
  - destruct (walkIn _ _ path t acc) as [acc'|] eqn:E; [|done]. intros Hw d. rewrite (IH _ _ Hw d), (Ht _ _ E d).
    rewrite (module_below_cons _ _ t ts). tauto.
Qed.

Lemma tree_adds root t : forall path, adds root path t.
Proof.
  induction t as [name c|name e|name es le IH] using tree_ind'; intros path acc dirs Hw d.
  - simpl in Hw. unfold moduleVisit in Hw. destruct (decide (name = "go.mod")) as [->|Hne]; injection Hw as <-.
    + rewrite elem_of_app, list_elem_of_singleton. split; intros [Hd|Hd]; [by left| |by left|].
      * right. subst. eapply module_here. by left.
      * right. inversion Hd as [|? ? ? ? ? Hin]; subst; [done|]. by apply list_elem_of_singleton in Hin.
    + split; [by left|]. intros [Hd|Hd]; [done|]. inversion Hd as [? ? ? Hin|? ? ? ? ? Hin]; subst; apply list_elem_of_singleton in Hin; congruence.
  - done.
  - rewrite walkIn_dir in Hw. destruct (moduleSkip root (joinPath path name) name) eqn:Es.
    + injection Hw as <-. split; [by left|]. intros [Hd|Hd]; [done|].
      inversion Hd as [? ? ? Hin|? ? ? ? ? Hin Hs]; subst; apply list_elem_of_singleton in Hin; simplify_eq; congruence.
    + destruct le as [e|]; [done|]. rewrite (walkAll_adds root (joinPath path name) es) with (acc := acc) (dirs := dirs); [|by eapply list.Forall_impl|done].
      split; intros [Hd|Hd]; [by left| |by left|]; right.
      * eapply module_deeper; [by left|done..].
      * inversion Hd as [? ? ? Hin|? ? ? ? ? Hin Hs Hb]; subst; apply list_elem_of_singleton in Hin; by simplify_eq.
Qed.

(** The modules whose tests are counted are exactly the directories with a go.mod
    at or below the root, leaving out version control, vendored code and the
    integration tests; they are in order. *)
Theorem unitModuleDirs_exact root entries dirs :
  unitModuleDirs root entries None = inl dirs ->
  (forall d, d ∈ dirs <-> module_below root root entries d) /\ sortStrings dirs = dirs.
Proof.
  unfold unitModuleDirs. destruct (walkAll _ _ root entries []) as [ds|] eqn:E; [|done]. intros [= <-]. split.
  - intros d. rewrite sortStrings_elem, (walkAll_adds root root entries) with (acc := []) (dirs := ds); [|..|done].
    + split; [intros [?%elem_of_nil|?]; done | by right].
    + apply list.Forall_forall. intros t _. apply tree_adds.
  - apply sortStrings_perm. unfold sortStrings. apply sorting.merge_sort_Permutation.
Qed.

(** ** The environment of the test runs *)

Lemma afterSlash_length b : (length (afterSlash b) <= pred (length b))%nat.
Proof. induction b as [|c b IH]; [done|]. simpl. destruct (isSlash c); lia. Qed.

(** Going up shortens a path, or ends at the top. *)
Lemma Dir_shorter p : Dir p = "/" \/ (String.length (Dir p) < String.length p)%nat.
Proof.
  unfold Dir. destruct (rev (afterSlash (rev (bytes_of_string p)))) as [|c b] eqn:E; [by left | right].
  rewrite <- !bytes_of_string_length, bytes_of_string_of_bytes, <- E, length_rev.
  pose proof (afterSlash_length (rev (bytes_of_string p))) as Hl. rewrite length_rev in Hl.
  assert (length (bytes_of_string p) <> O) as Hne; [|lia].
  intros H0. apply nil_length_inv in H0. rewrite H0 in E. done.
Qed.

Section Climb.
Context (stat : string -> statResult).

(** [e] is reached from [d] through directories without a go.work. *)
Inductive climbs : string -> string -> Prop :=
| climbs_here d : climbs d d
| climbs_up d e : stat (joinPath d "go.work") = StatNotExist -> Dir d <> d -> climbs (Dir d) e -> climbs d e.

Definition work_found (start : string) (r : string + error) : Prop :=
  exists d, climbs start d /\
    match r with
    | inl path => stat path = StatOk /\ path = joinPath d "go.work"
    | inr _ => (exists e, stat (joinPath d "go.work") = StatErr e) \/ stat (joinPath d "go.work") = StatNotExist /\ Dir d = d
    end.

Lemma findWork_found fuel start dir : (2 + String.length dir <= fuel)%nat -> work_found dir (findWork stat fuel start dir).
Proof.
  revert dir. induction fuel as [|f IH]; intros dir Hf; [lia|]. cbn [findWork]. cbv zeta.
  destruct (stat (joinPath dir "go.work")) as [| |e] eqn:Es.
  - exists dir. split; [constructor | done].
  - destruct (decide (Dir dir = dir)) as [E|E]; [exists dir; split; [constructor | by right]|].
    assert (work_found (Dir dir) (findWork stat f start (Dir dir))) as (d & Hd & Hr); [|exists d; split; [by apply climbs_up | done]].
    destruct (Dir_shorter dir) as [Et|Hlt]; [|apply IH; lia]. rewrite Et. destruct f as [|f]; [lia|]. cbn [findWork]. cbv zeta.
    exists "/". split; [constructor|]. destruct (stat (joinPath "/" "go.work")) as [| |e] eqn:Er; [done|..].
    + rewrite decide_True by done. by right.
    + left. eauto.
  - exists dir. split; [constructor|]. left. eauto.
Qed.

(** The search for the workspace ends, at the nearest go.work at or above the
    directory, at a directory that cannot be examined, or at the top.  The environment
    of a test run is that of the process, in which GOWORK is set once, last: to that
    workspace when local siblings are asked for, to off otherwise. *)
Theorem testCommandEnv_workspace (environ : list string) start :
  let local := bool_decide (getenv environ "CACHE_LOCAL_SIBLINGS" = "1") in
  match testCommandEnv environ stat start with
  | inl env => exists v, env = filter (fun entry => HasPrefix entry "GOWORK=" = false) environ ++ ["GOWORK=" +:+ v] /\
      if local then work_found start (inl v) else v = "off"
  | inr e => local = true /\ work_found start (inr e)
  end.
Proof.
  cbv zeta. unfold testCommandEnv. destruct (decide (getenv environ "CACHE_LOCAL_SIBLINGS" = "1")) as [E|E].
  - rewrite bool_decide_true by done. pose proof (findWork_found (workFuel start) start start ltac:(unfold workFuel; lia)) as Hw.
    destruct (findWork stat _ start start) as [v|e]; [by exists v | done].
  - rewrite bool_decide_false by done. by exists "off".
Qed.
End Climb.

(** ** Events *)

(** An event that is counted. *)
Definition counted (prefixes : option (gset string)) (e : testEvent) : Prop :=
  Action e = "run" /\ Test e <> EmptyString /\ match prefixes with Some names => topOf (Test e) ∈ names | None => True end.
#[export] Instance counted_dec prefixes e : Decision (counted prefixes e).
Proof. unfold counted. destruct prefixes; apply _. Defined.

Lemma countEvents_spec prefixes events total : countEvents prefixes events total = total + len (filter (counted prefixes) events).
Proof.
  revert total. induction events as [|e events IH]; intros total; [simpl; unfold len; simpl; lia|]. cbn [countEvents].
  rewrite filter_cons. unfold len in *.
  destruct (decide (counted prefixes e)) as [(Ha & Ht & Hn)|Hc].
  - rewrite bool_decide_true, bool_decide_false by done. simpl. destruct prefixes as [names|]; [rewrite decide_True by done|]; rewrite IH; lia.
  - destruct (decide (Action e = "run")) as [Ha|Ha]; [|rewrite bool_decide_false by done; simpl; apply IH].
    rewrite bool_decide_true by done. destruct (decide (Test e = EmptyString)) as [Ht|Ht];
      [rewrite bool_decide_true by done; simpl; apply IH|]. rewrite bool_decide_false by done. simpl.
    destruct prefixes as [names|]; [|exfalso; by apply Hc]. rewrite decide_False; [apply IH|]. intros Hn. by apply Hc.
Qed.

(** A test run is counted by its events: each test that ran once, when its top-level
    test is one of those asked for. *)
Theorem countIntegrationRunEvents_counts unmarshalEvent environ stat goCommand dir names n :
  countIntegrationRunEvents unmarshalEvent environ stat goCommand dir names = inl n ->
  names = ∅ /\ n = 0 \/
  exists args env out, goCommand dir args env = (out, None) /\
    n = len (filter (counted (Some names)) (parseJSONEvents unmarshalEvent out)).
Proof.
  unfold countIntegrationRunEvents. cbv zeta. destruct (decide (buildTopLevelRunPattern names = EmptyString)) as [E|E].
  - intros [= <-]. left. split; [|done]. unfold buildTopLevelRunPattern in E. by destruct (decide (names = ∅)).
  - destruct (testCommandEnv environ stat dir) as [env|]; [|done]. unfold runAndCount.
    destruct (goCommand dir _ _) as [out [err|]] eqn:Eg; [done|]. intros [= <-]. right.
    eexists _, _, out. split; [exact Eg|]. by rewrite countEvents_spec.
Qed.
