(* ===== verification/DocExamples.v ===== *)
(** * The generated example programs

    [docs/examplegen/main.go] turns the examples of every documented declaration into a
    program under examples/, so that they are compiled.  [go/format] is a parameter;
    what the tool reads from and writes to the file system is an argument and a
    result. *)

From stdpp Require Import sorting.
From S2P Require Import Prelude GoStd InspectHelpers GoText DocComments DocSections DocApi.

(** ** Collecting *)

(** The loop of [modulePath]. *)
Fixpoint moduleLine (lines : list string) : option string :=
  match lines with
  | [] => None
  | line :: rest =>
      let line := TrimSpace line in
      if HasPrefix line "module " then Some (TrimSpace (TrimPrefix line "module ")) else moduleLine rest
  end.
Definition modulePath (readFile : string -> string + error) (root : string) : string + error :=
  match readFile (joinPath root "go.mod") with
  | inr e => inr e
  | inl data =>
      match moduleLine (SplitLines data) with
      | Some p => inl p
      | None => inr (ErrorString "module path not found in go.mod")
      end
  end.

Record genDoc := mkGenDoc {
  gd_Name : string; gd_Slug : string; gd_ImportPath : string; gd_Group : string; gd_Description : string;
  gd_Examples : list genExample
}.

Fixpoint recvTypeName (expr : Expr) : string :=
  match expr with
  | Ident name => name
  | StarExpr x | IndexExpr x | IndexListExpr x => recvTypeName x
  | SelectorExpr sel => sel
  | OtherExpr => EmptyString
  end.

Definition funcSlug (fn : FuncDecl) : string :=
  match fn_Recv fn with
  | None | Some [] => fn_Name fn
  | Some (t :: _) =>
      let recv := recvTypeName t in
      if decide (recv = EmptyString) then fn_Name fn else recv +:+ "_" +:+ fn_Name fn
  end.

(** [selectPackage] is a copy of the one in [docs/readme/main.go]. *)
Definition gen_selectPackage (pkgs : list (string * Package)) : string + error := selectPackage fileCount pkgs.

Section Collect.
Context `{GoParser} `{RangeOrder}.

(** The map of one file; a later declaration with the same slug replaces an earlier. *)
Definition addDecl (filename : string) (out : gmap string genDoc) (decl : Decl) : gmap string genDoc :=
  match decl with
  | DeclOther => out
  | DeclFunc fn =>
      match fn_Doc fn with
      | None => out
      | Some doc =>
          if negb (IsExported (fn_Name fn)) then out
          else
            let slug := funcSlug fn in
            <[slug := mkGenDoc (fn_Name fn) slug EmptyString (gen_extractGroup doc) (extractFuncDescription doc)
                        (extractBlocks filename (fn_Name fn) doc)]> out
      end
  end.
Definition extractFuncDocs (filename : string) (file : File) : gmap string genDoc :=
  fold_left (addDecl filename) (file_Decls file) ∅.

(** The body of the inner loop of [collectExamplesFromDir].  Each directory is visited
    once in a run, so that its name tells the ranges of the visits apart. *)
Definition collectDoc (importPath prefix : string) (funcs : gmap string genDoc) (entry : string * genDoc) : gmap string genDoc :=
  let '(name, fd) := entry in
  let slug := if decide (prefix = EmptyString) then gd_Slug fd else prefix +:+ ToLower (gd_Slug fd) in
  let name := if decide (prefix = EmptyString) then name else slug in
  let fd := mkGenDoc (gd_Name fd) slug importPath (gd_Group fd) (gd_Description fd) (gd_Examples fd) in
  match funcs !! name with
  | Some e =>
      <[name := mkGenDoc (gd_Name e) (gd_Slug e) (gd_ImportPath e) (gd_Group e) (gd_Description e) (gd_Examples e ++ gd_Examples fd)]> funcs
  | None => <[name := fd]> funcs
  end.

Definition collectExamplesFromDir (funcs : gmap string genDoc) (dir importPath slugPrefix : string) : gmap string genDoc + error :=
  match ParseDir dir (fun _ => true) with
  | inr e => inr e
  | inl pkgs =>
      match gen_selectPackage (range_of (dir +:+ " pkgs") pkgs) with
      | inr e => inr e
      | inl pkgName =>
          match pkgs !! pkgName with
          | None => inr (ErrorString ("package " +:+ quoted pkgName +:+ " not found in " +:+ dir))
          | Some pkg =>
              let prefix := if bool_decide (slugPrefix = EmptyString) && bool_decide (pkgName <> "cache")
                            then pkgName +:+ "_" else slugPrefix in
              inl (fold_left (fun funcs '(filename, file) =>
                if Contains filename "_test.go" then funcs
                else fold_left (collectDoc importPath prefix) (range_of (dir +:+ " " +:+ filename) (extractFuncDocs filename file)) funcs)
                (range_of (dir +:+ " files") pkg) funcs)
          end
      end
  end.

Definition driverDirs : list string :=
  ["driver/rediscache"; "driver/memcachedcache"; "driver/natscache"; "driver/dynamocache"; "driver/sqlcore";
   "driver/sqlitecache"; "driver/postgrescache"; "driver/mysqlcache"].

Fixpoint collectDrivers (readFile : string -> string + error) (root : string) (dirs : list string) (funcs : gmap string genDoc)
    : gmap string genDoc + error :=
  match dirs with
  | [] => inl funcs
  | rel :: rest =>
      let dir := joinPath root rel in
      match modulePath readFile dir with
      | inr e => inr e
      | inl driverModPath =>
          match collectExamplesFromDir funcs dir driverModPath EmptyString with
          | inr e => inr e
          | inl funcs => collectDrivers readFile root rest funcs
          end
      end
  end.

(** The first part of [run]: the examples of every package, in order of their lines. *)
Definition byGenLine (a b : genExample) : Prop := ge_Line a <= ge_Line b.
#[export] Instance byGenLine_dec a b : Decision (byGenLine a b).
Proof. unfold byGenLine. apply _. Defined.

Definition collectAll (readFile : string -> string + error) (root : string) : gmap string genDoc + error :=
  match modulePath readFile root with
  | inr e => inr e
  | inl modPath =>
      match collectExamplesFromDir ∅ root modPath EmptyString with
      | inr e => inr e
      | inl funcs =>
          match collectExamplesFromDir funcs (joinPath root "cachefake") (modPath +:+ "/cachefake") EmptyString with
          | inr e => inr e
          | inl funcs =>
              match collectDrivers readFile root driverDirs funcs with
              | inr e => inr e
              | inl funcs =>
                  inl ((fun fd => mkGenDoc (gd_Name fd) (gd_Slug fd) (gd_ImportPath fd) (gd_Group fd) (gd_Description fd)
                                    (merge_sort byGenLine (gd_Examples fd))) <$> funcs)
              end
          end
      end
  end.
End Collect.

(** ** Writing *)

Definition generatedMainComment : string :=
  "// main keeps this generated example executable so API drift fails during compilation.".
Definition legacyGeneratedMainComment : string := "// main runs this generated API example as a standalone program.".

(** The imports the code of an example calls for: any of the texts on the left. *)
Definition importRules : list (list string * string) := [
  (["fmt."], "fmt"); (["json."], "encoding/json"); (["strings."], "strings"); (["os."], "os"); (["context."], "context");
  (["testing."], "testing"); (["cachecore."], "github.com/goforj/cache/cachecore"); (["regexp."], "regexp");
  (["syscall."], "syscall"); (["redis."; "WithRedisClient"; "redisClient"; "RedisClient"], "github.com/redis/go-redis/v9");
  (["time."], "time"); (["gocron"], "github.com/go-co-op/gocron/v2"); (["scheduler"], "github.com/goforj/scheduler");
  (["filepath."], "path/filepath"); (["godump."], "github.com/goforj/godump"); (["rand."], "crypto/rand");
  (["base64."], "encoding/base64")].

Definition importsOf (code : string) : list string :=
  omap (fun '(texts, imp) => if existsb (Contains code) texts then Some imp else None) importRules.

(** [DriverName: "..."] *)
Definition driverName (name : string) : string := "DriverName: " +:+ quote +:+ name +:+ quote.

Definition blankImportOf (code : string) : option string :=
  if negb (Contains code "sqlcore.") then None
  else if Contains code (driverName "sqlite") then Some "modernc.org/sqlite"
  else if Contains code (driverName "postgres") || Contains code (driverName "pgx") then Some "github.com/jackc/pgx/v5/stdlib"
  else if Contains code (driverName "mysql") then Some "github.com/go-sql-driver/mysql"
  else None.

Definition tab : string := String.string_of_list_byte [x09].

(** The import declaration; [%q] of an import path is the path between quotes. *)
Definition importDecl (imports blankImports : gset string) : string :=
  match elements imports with
  | [imp] => "import " +:+ quote +:+ imp +:+ quote +:+ nl +:+ nl
  | _ =>
      "import (" +:+ nl +:+
      concatStrings ((fun imp => tab +:+ quote +:+ imp +:+ quote +:+ nl) <$> sortStrings (elements imports)) +:+
      concatStrings ((fun imp => tab +:+ "_ " +:+ quote +:+ imp +:+ quote +:+ nl) <$> sortStrings (elements blankImports)) +:+
      ")" +:+ nl +:+ nl
  end.

Definition exampleText (ex : genExample) : string :=
  (if decide (ge_Label ex = EmptyString) then EmptyString else tab +:+ "// Example: " +:+ ge_Label ex +:+ nl) +:+
  concatStrings ((fun line => if decide (TrimSpace line = EmptyString) then nl else tab +:+ line +:+ nl) <$>
                 SplitLines (TrimLeft isNewline (ge_Code ex))).

(** The source [writeMain] builds, before it is formatted; [optOut] when the file there
    begins with a build tag that keeps it out. *)
Definition mainSource (optOut : bool) (fd : genDoc) (importPath : string) : string :=
  let imports : gset string := {[importPath]} ∪ list_to_set (gd_Examples fd ≫= (fun ex => importsOf (ge_Code ex))) in
  let blankImports : gset string := list_to_set (omap (fun ex => blankImportOf (ge_Code ex)) (gd_Examples fd)) in
  (if optOut then "//go:build ignore" +:+ nl +:+ "// +build ignore" +:+ nl +:+ nl else EmptyString) +:+
  "package main" +:+ nl +:+ nl +:+
  importDecl imports blankImports +:+
  generatedMainComment +:+ nl +:+
  "func main() {" +:+ nl +:+
  (if decide (gd_Description fd = EmptyString) then EmptyString
   else concatStrings ((fun line => tab +:+ "// " +:+ line +:+ nl) <$> SplitLines (gd_Description fd)) +:+ nl) +:+
  concatStrings (exampleText <$> gd_Examples fd) +:+
  "}" +:+ nl.

Section Write.
(** [format.Source] *)
Context (formatSource : string -> string + error).

Definition formatGeneratedSource (target source : string) : string + error :=
  match formatSource source with
  | inr e => inr (ErrorWrap ("format generated example " +:+ target +:+ ": ") e)
  | inl formatted => inl formatted
  end.

(** [writeMain], up to the file it writes, if any.  [mkdirAll] is the error of creating
    the directory, [readFile] reads the file that is there. *)
Definition writeMain (mkdirAll : string -> option error) (readFile : string -> string + error)
    (base : string) (fd : genDoc) (importPath : string) : option (string * string) + error :=
  match gd_Examples fd with
  | [] => inl None
  | _ =>
      if decide (importPath = EmptyString) then inr (ErrorString "import path cannot be empty")
      else
        let slug := if decide (gd_Slug fd = EmptyString) then gd_Name fd else gd_Slug fd in
        let dir := joinPath base (ToLower slug) in
        match mkdirAll dir with
        | Some e => inr e
        | None =>
            let target := joinPath dir "main.go" in
            let current := match readFile target with
                           | inl c => inl c
                           | inr e => if errorsIs e ErrNotExist then inl EmptyString else inr e
                           end in
            match current with
            | inr e => inr e
            | inl current =>
                match formatGeneratedSource target (mainSource (HasPrefix current ("//go:build ignore" +:+ nl)) fd importPath) with
                | inr e => inr e
                | inl formatted => inl (Some (target, formatted))
                end
            end
        end
  end.

(** [bytes.ReplaceAll(contents, comment, nil)] *)
Definition removeAll (s old : string) : string := string_of_bytes (bRemoveAll O (bytes_of_string s) (bytes_of_string old)).

(** The body of the loop of [ensureMainComments], for the contents of one file: what is
    written back, if anything. *)
Definition ensureMainComment (path contents : string) : option string + error :=
  let updated := removeAll contents (legacyGeneratedMainComment +:+ nl) in
  let updated := removeAll updated (generatedMainComment +:+ nl) in
  match formatGeneratedSource path updated with
  | inr e => inr e
  | inl updated =>
      let index := Index updated "func main() {" in
      if index <? 0 then inl None
      else
        match sliceTo updated index, sliceFrom updated index with
        | Some before, Some after =>
            match formatGeneratedSource path (before +:+ generatedMainComment +:+ nl +:+ after) with
            | inr e => inr e
            | inl formatted => if decide (contents = formatted) then inl None else inl (Some formatted)
            end
        | _, _ => inr (ErrorString "slice bounds out of range")
        end
  end.

(** The loop over the entries of the base: the files it writes, and its error. *)
Fixpoint ensureMainComments (readFile : string -> string + error) (base : string) (entries : list (string * bool))
    : list (string * string) * option error :=
  match entries with
  | [] => ([], None)
  | (name, isDir) :: rest =>
      if negb isDir then ensureMainComments readFile base rest
      else
        let path := joinPath (joinPath base name) "main.go" in
        match readFile path with
        | inr e => if errorsIs e ErrNotExist then ensureMainComments readFile base rest else ([], Some e)
        | inl contents =>
            match ensureMainComment path contents with
            | inr e => ([], Some e)
            | inl None => ensureMainComments readFile base rest
            | inl (Some formatted) =>
                let '(more, err) := ensureMainComments readFile base rest in
                ((path, formatted) :: more, err)
            end
        end
  end.
End Write.

(** ** The comment above main *)

Definition declaration : string := "func main() {".
Definition commentLineOf (comment : string) : string := comment +:+ nl.
#[local] Abbreviation G := (commentLineOf generatedMainComment).
#[local] Abbreviation L := (commentLineOf legacyGeneratedMainComment).

(** What the tool relies on: formatting is idempotent, and a formatted file stays
    formatted when the comment line is put above a declaration that begins a line. *)
Class FormatLaws (formatSource : string -> string + error) : Prop := {
  fmt_idem s t : formatSource s = inl t -> formatSource t = inl t;
  fmt_insert s a b :
    formatSource s = inl (a +:+ declaration +:+ b) -> wholeLines (bytes_of_string a) ->
    formatSource (a +:+ G +:+ declaration +:+ b) = inl (a +:+ G +:+ declaration +:+ b)
}.

(** The two removals at the head of the loop. *)
Definition strip (s : string) : string := removeAll (removeAll s L) G.

Lemma removeAll_none s old : old <> EmptyString -> Contains s old = false -> removeAll s old = s.
Proof.
  intros Hne Hc. unfold removeAll. rewrite bRemoveAll_none; [apply string_of_bytes_of_string|by destruct old|done].
Qed.

(** Lines that are not there before, and do not begin in the comment, are not there with it. *)
Section Inserted.
Context (a b : string).
#[local] Abbreviation u := (a +:+ declaration +:+ b).
#[local] Abbreviation A := (bytes_of_string a).
#[local] Abbreviation R := (bytes_of_string (declaration +:+ b)).
Hypothesis (Ha : wholeLines A) (HG : Contains u G = false) (HL : Contains u L = false).

Lemma starts_before comment r :
  x0a ∉ bytes_of_string comment -> Contains u (commentLineOf comment) = false ->
  noStart A r (bytes_of_string (commentLineOf comment)) /\ noStart R [] (bytes_of_string (commentLineOf comment)).
Proof.
  intros Hnl Hc. unfold Contains, commentLineOf in *. rewrite !bytes_of_string_app in *.
  change (bytes_of_string nl) with [x0a] in *.
  apply bContains_noStart in Hc; [|by destruct (bytes_of_string comment)].
  apply noStart_app in Hc as [H1 H2]. split; [by eapply noStart_lines | done].
Qed.

Lemma strip_inserted : strip (a +:+ G +:+ declaration +:+ b) = u.
Proof.
  destruct (starts_before legacyGeneratedMainComment (bytes_of_string (G +:+ declaration +:+ b))) as [L1 L2];
    [apply (bool_decide_unpack _); vm_compute; exact I|done|].
  destruct (starts_before generatedMainComment (bytes_of_string (G +:+ declaration +:+ b))) as [G1 G2];
    [apply (bool_decide_unpack _); vm_compute; exact I|done|].
  unfold strip. rewrite (removeAll_none _ L).
  - unfold removeAll. apply (inj bytes_of_string). rewrite bytes_of_string_of_bytes.
    rewrite (bytes_of_string_app a (G +:+ declaration +:+ b)), bRemoveAll_past by done.
    rewrite (bytes_of_string_app G (declaration +:+ b)), bRemoveAll_here by done.
    rewrite bRemoveAll_none by (done || by apply bContains_noStart). by rewrite (bytes_of_string_app a (declaration +:+ b)).
  - done.
  - unfold Contains. apply bContains_noStart; [done|]. rewrite (bytes_of_string_app a). apply noStart_app. split; [by rewrite app_nil_r|].
    rewrite (bytes_of_string_app G). apply noStart_app. split; [|done]. apply clashes_noStart. by vm_compute.
Qed.
End Inserted.

Lemma Index_split s sub : 0 <= Index s sub -> exists a b, s = a +:+ sub +:+ b /\ Index s sub = slen a.
Proof.
  unfold Index. destruct (bIndex (bytes_of_string s) (bytes_of_string sub)) as [n|] eqn:E; [|lia]. intros _.
  apply bIndex_split in E as (pre & post & Es & <-). exists (string_of_bytes pre), (string_of_bytes post). split.
  - apply (inj bytes_of_string). by rewrite !bytes_of_string_app, !bytes_of_string_of_bytes.
  - unfold slen. by rewrite <- bytes_of_string_length, bytes_of_string_of_bytes.
Qed.

(** Once [ensureMainComments] has rewritten an example, the comment stands directly
    above [main], no slice on the way was out of range, and another run leaves the file
    alone.  The file has, besides the comments it removes, none of the two comment
    lines, and its first [func main] begins a line. *)
Theorem ensureMainComment_settles formatSource `{!FormatLaws formatSource} path contents formatted u :
  formatSource (strip contents) = inl u -> Contains u G = false -> Contains u L = false ->
  (forall a b, u = a +:+ declaration +:+ b -> Index u declaration = slen a -> wholeLines (bytes_of_string a)) ->
  ensureMainComment formatSource path contents = inl (Some formatted) ->
  (exists a b, u = a +:+ declaration +:+ b /\ formatted = a +:+ G +:+ declaration +:+ b) /\
  ensureMainComment formatSource path formatted = inl None.
Proof.
  intros Hu HG HL Hline E. pose proof (fmt_idem _ _ Hu) as Huu.
  assert (Hstep : forall s, formatSource (strip s) = inl u ->
    ensureMainComment formatSource path s =
      if Index u declaration <? 0 then inl None
      else match sliceTo u (Index u declaration), sliceFrom u (Index u declaration) with
           | Some before, Some after =>
               match formatGeneratedSource formatSource path (before +:+ generatedMainComment +:+ nl +:+ after) with
               | inr e => inr e
               | inl f => if decide (s = f) then inl None else inl (Some f)
               end
           | _, _ => inr (ErrorString "slice bounds out of range")
           end).
  { intros s Hs. unfold ensureMainComment, formatGeneratedSource at 1. cbv zeta. unfold strip, commentLineOf in Hs. by rewrite Hs. }
  rewrite (Hstep _ Hu) in E. destruct (Z.ltb_spec (Index u declaration) 0) as [|Hi]; [done|].
  destruct (Index_split _ _ Hi) as (a & b & -> & Ei). specialize (Hline a b eq_refl Ei).
  assert (Hins := fmt_insert _ _ _ Hu Hline).
  assert (Hto : sliceTo (a +:+ declaration +:+ b) (Index (a +:+ declaration +:+ b) declaration) = Some a) by (rewrite Ei; apply sliceTo_app).
  assert (Hfrom : sliceFrom (a +:+ declaration +:+ b) (Index (a +:+ declaration +:+ b) declaration) = Some (declaration +:+ b))
    by (rewrite Ei; apply sliceFrom_app).
  assert (Hform : formatGeneratedSource formatSource path (a +:+ generatedMainComment +:+ nl +:+ declaration +:+ b) =
    inl (a +:+ G +:+ declaration +:+ b)).
  { unfold formatGeneratedSource. unfold commentLineOf in Hins. rewrite <- !string_app_assoc in Hins. rewrite Hins.
    unfold commentLineOf. by rewrite <- !string_app_assoc. }
  rewrite Hto, Hfrom, Hform in E. destruct (decide _); [done|]. injection E as <-. split; [by exists a, b|].
  rewrite Hstep by (by rewrite strip_inserted). rewrite Hto, Hfrom, Hform. by rewrite decide_True.
Qed.
