(* ===== verification/BenchRender.v ===== *)
(** * The benchmark charts

    [docs/bench/render.go]: the order of the drivers, the layout of the bars and the
    SVG text of the charts.  A [float64] is an IEEE 754 double of [SpecFloat].  Running
    the benchmarks, and the containers they need, are not part of the model: the rows
    are an argument. *)

From S2P Require Import Prelude GoStd GoText DocSections.

Abbreviation float := SpecFloat.spec_float.
Definition fmul (a b : float) : float := SpecFloat.SFmul 53 1024 a b.
Definition fdiv (a b : float) : float := SpecFloat.SFdiv 53 1024 a b.
Definition fadd (a b : float) : float := SpecFloat.SFadd 53 1024 a b.
Definition flt (a b : float) : bool := SpecFloat.SFltb a b.
Definition fle (a b : float) : bool := SpecFloat.SFleb a b.
(** The constant 1.1, as a double. *)
Definition f11 : float := SpecFloat.S754_finite false 4953959590107546 (-52).

Record benchRow := mkBenchRow { Driver : string; Op : string; NsOp : float; BytesOp : float; AllocsOp : float; Ops : Z }.

(** ** Names *)

Definition benchChartOps : list string :=
  ["get_bytes"; "get_string"; "get_typed_string"; "get_typed_struct"; "set_bytes"; "set_string"; "set_typed_string";
   "set_typed_struct"; "delete"].

(** The first of the pairs with that key. *)
Fixpoint assoc (k : string) (l : list (string * string)) : option string :=
  match l with
  | [] => None
  | (k', v) :: rest => if decide (k = k') then Some v else assoc k rest
  end.

Definition benchOpLabel (op : string) : string :=
  default op (assoc op [("get_bytes", "GetBytes"); ("get_string", "GetString"); ("get_typed_string", "Get[string]");
    ("get_typed_struct", "Get[T]"); ("set_bytes", "SetBytes"); ("set_string", "SetString"); ("set_typed_string", "Set[string]");
    ("set_typed_struct", "Set[T]"); ("delete", "Delete")]).

(** [benchOpColors()[op]] *)
Definition benchOpColor (op : string) : string :=
  default EmptyString (assoc op [("get_bytes", "#FF5E3A"); ("get_string", "#FF8257"); ("get_typed_string", "#FFC24D");
    ("get_typed_struct", "#FFD37A"); ("set_bytes", "#5FCFA8"); ("set_string", "#7D6EE7"); ("set_typed_string", "#B58AE8");
    ("set_typed_struct", "#A9A1B3"); ("delete", "#FF6B85")]).

Definition metricPreference (yUnit : string) : string :=
  if decide (yUnit = "N") then "higher is better" else "lower is better".

Definition displayDriverName (name : string) : string :=
  default name (assoc name [("sql_sqlite", "sqlite"); ("sql_postgres", "postgres"); ("sql_mysql", "mysql")]).

Definition driverOrder : list string :=
  ["memory"; "file"; "sql_sqlite"; "sql_postgres"; "sql_mysql"; "redis"; "memcached"; "nats"; "nats_bucket_ttl"; "dynamodb"].

(** A loop of [orderDrivers]: the drivers of [ds] that are in [seen], which they leave. *)
Fixpoint takeSeen (ds : list string) (seen : gset string) : list string * gset string :=
  match ds with
  | [] => ([], seen)
  | d :: rest =>
      if decide (d ∈ seen) then let '(out, seen') := takeSeen rest (seen ∖ {[d]}) in (d :: out, seen')
      else takeSeen rest seen
  end.

Definition orderDrivers (drivers : list string) : list string :=
  let '(known, seen) := takeSeen driverOrder (list_to_set drivers) in
  let '(others, _) := takeSeen drivers seen in
  known ++ others.

(** ** Layout *)

Definition chartWidth : Z := 1600.
Definition marginLeft : Z := 180.
Definition marginRight : Z := 200.
Definition axisX0 : Z := marginLeft.
Definition axisX1 : Z := chartWidth - marginRight.
Definition plotW : Z := chartWidth - marginLeft - marginRight.
Definition nOps : Z := len benchChartOps.

Definition atLeast (lo z : Z) : Z := if z <? lo then lo else z.

(** For [n] drivers: the width of a group, the gap between bars and their width. *)
Definition groupW (n : Z) : Z := Z.quot plotW n.
Definition innerGap (n : Z) : Z := atLeast 2 (Z.quot (groupW n) 22).
Definition barW (n : Z) : Z :=
  let groupGap := atLeast 10 (Z.quot (groupW n) 6) in
  let usableW := atLeast (nOps * 3 + innerGap n * 4) (groupW n - groupGap) in
  let w := Z.quot (usableW - innerGap n * 4) nOps in
  atLeast 3 (Z.quot (w * 85) 100).
Definition clusterW (n : Z) : Z := nOps * barW n + (nOps - 1) * innerGap n.
Definition groupX (n i : Z) : Z := axisX0 + i * groupW n.
Definition barX (n i j : Z) : Z := groupX n i + Z.quot (groupW n - clusterW n) 2 + j * (barW n + innerGap n).

(** ** SVG *)

Definition attr (name value : string) : string := " " +:+ name +:+ "=" +:+ quote +:+ value +:+ quote.
Definition iattr (name : string) (z : Z) : string := attr name (Itoa z).

Definition svgLine (x1 y1 x2 y2 : Z) (stroke width : string) : string :=
  "<line" +:+ iattr "x1" x1 +:+ iattr "y1" y1 +:+ iattr "x2" x2 +:+ iattr "y2" y2 +:+ attr "stroke" stroke +:+
  attr "stroke-width" width +:+ "/>" +:+ nl.
Definition grotesk : string := attr "font-family" "Space Grotesk, Inter, system-ui, sans-serif".
Definition inter : string := attr "font-family" "Inter, system-ui, sans-serif".
Definition mono : string := attr "font-family" "JetBrains Mono, ui-monospace, monospace".

(** The head of a chart: its size, background, title and subtitle. *)
Definition chartHead (height subtitleY : Z) (title yUnit subtitle : string) : string :=
  "<?xml" +:+ attr "version" "1.0" +:+ attr "encoding" "UTF-8" +:+ "?>" +:+ nl +:+
  "<svg" +:+ attr "xmlns" "http://www.w3.org/2000/svg" +:+ iattr "width" chartWidth +:+ iattr "height" height +:+
  attr "viewBox" ("0 0 " +:+ Itoa chartWidth +:+ " " +:+ Itoa height) +:+ ">" +:+ nl +:+
  "<rect" +:+ attr "width" "100%" +:+ attr "height" "100%" +:+ attr "rx" "8" +:+ attr "fill" "#1A1620" +:+ "/>" +:+ nl +:+
  "<text" +:+ iattr "x" (Z.quot chartWidth 2) +:+ attr "y" "44" +:+ attr "text-anchor" "middle" +:+ attr "fill" "#FFFFFF" +:+
  attr "font-size" "34" +:+ attr "font-weight" "700" +:+ attr "letter-spacing" "-1.2" +:+ grotesk +:+ ">" +:+
  title +:+ " (" +:+ yUnit +:+ ")</text>" +:+ nl +:+
  "<text" +:+ iattr "x" (Z.quot chartWidth 2) +:+ iattr "y" subtitleY +:+ attr "text-anchor" "middle" +:+ attr "fill" "#A9A1B3" +:+
  attr "font-size" "30" +:+ inter +:+ ">" +:+ subtitle +:+ "</text>" +:+ nl.

(** A tick of the y axis with its number. *)
Definition tick (y v : Z) : string :=
  svgLine axisX0 y axisX1 y "#2A2333" "1" +:+
  "<text" +:+ iattr "x" (axisX0 - 10) +:+ iattr "y" (y + 10) +:+ attr "text-anchor" "end" +:+ attr "fill" "#746C80" +:+
  attr "font-size" "30" +:+ mono +:+ ">" +:+ Itoa v +:+ "</text>" +:+ nl.

Definition axes (axisY0 axisY1 : Z) : string :=
  svgLine axisX0 axisY0 axisX1 axisY0 "#3D3349" "2" +:+ svgLine axisX0 axisY0 axisX0 axisY1 "#3D3349" "2".

Definition bar (x y w h : Z) (op : string) : string :=
  "<rect" +:+ iattr "x" x +:+ iattr "y" y +:+ iattr "width" w +:+ iattr "height" h +:+ attr "fill" (benchOpColor op) +:+ "/>" +:+ nl.

Definition driverLabel (x y : Z) (driver : string) : string :=
  "<text" +:+ iattr "x" x +:+ iattr "y" y +:+ attr "text-anchor" "middle" +:+ attr "fill" "#A9A1B3" +:+ attr "font-size" "30" +:+
  inter +:+ ">" +:+ displayDriverName driver +:+ "</text>" +:+ nl.


(** [for i, x := range xs] *)
Definition mapi {A} (f : Z -> A -> string) (xs : list A) : string := concatStrings (imap (fun i => f (Z.of_nat i)) xs).

Definition legend (legendY : Z) : string :=
  mapi (fun i op =>
    let y := legendY + i * 32 in
    "<rect" +:+ iattr "x" (axisX1 + 20) +:+ iattr "y" (y - 14) +:+ attr "width" "20" +:+ attr "height" "20" +:+ attr "rx" "5" +:+
    attr "fill" (benchOpColor op) +:+ "/>" +:+ nl +:+
    "<text" +:+ iattr "x" (axisX1 + 20 + 30) +:+ iattr "y" (y + 1) +:+ attr "fill" "#A9A1B3" +:+ attr "font-size" "28" +:+
    inter +:+ ">" +:+ benchOpLabel op +:+ "</text>" +:+ nl) benchChartOps.

(** [byDriver[driver][op]]; a value that is missing is 0. *)
Abbreviation metrics := (gmap string (gmap string float)).
Definition valueOf (byDriver : metrics) (driver op : string) : float :=
  default (float64 0) (byDriver !! driver ≫= lookup op).

(** The largest value, at least 1 and a tenth more. *)
Definition maxOf (byDriver : metrics) (drivers : list string) : float :=
  let m := fold_left (fun acc d => fold_left (fun acc op =>
             if flt acc (valueOf byDriver d op) then valueOf byDriver d op else acc) benchChartOps acc) drivers (float64 0) in
  fmul (if fle m (float64 0) then float64 1 else m) f11.

(** The bars and labels of the drivers; [column d op] is the top and height of a bar. *)
Definition groups (drivers : list string) (axisY0 : Z) (column : string -> string -> Z * Z) : string :=
  let n := len drivers in
  mapi (fun i d =>
    mapi (fun j op => let '(y, h) := column d op in bar (barX n i j) y (barW n) h op) benchChartOps +:+
    driverLabel (groupX n i + Z.quot (groupW n) 2) (axisY0 + 82) d) drivers.

(** [if h < 1 && v > 0 { h = 1 }] *)
Definition visibleHeight (h : Z) (v : float) : Z := if (h <? 1) && flt (float64 0) v then 1 else h.

Section Scale.
(** [math.Log10] and [math.Pow(10, _)] *)
Context (log10 pow10 : float -> float).

Definition mapValue (v : float) (scale : string) : float := if decide (scale = "log") then log10 (fadd v (float64 1)) else v.
Definition unmapValue (v : float) (scale : string) : float := if decide (scale = "log") then fadd (pow10 v) (float64 (-1)) else v.

(** The chart of [writeDashboardSVG], for a scale that is not "split". *)
Definition dashboardSVG (title yUnit scale : string) (drivers : list string) (byDriver : metrics) : string :=
  let height := 690 in let marginTop := 90 in let marginBot := 130 in
  let plotH := height - marginTop - marginBot in
  let axisY1 := marginTop in let axisY0 := height - marginBot in
  let scaleLabel := if decide (scale = "log") then "log" else "linear" in
  let maxV := maxOf byDriver drivers in
  let maxMapped := mapValue maxV scale in
  let maxMapped := if fle maxMapped (float64 0) then float64 1 else maxMapped in
  let mapToY v :=
    let v := if flt v (float64 0) then float64 0 else v in
    let p := fdiv (mapValue v scale) maxMapped in
    let p := if flt p (float64 0) then float64 0 else p in
    let p := if flt (float64 1) p then float64 1 else p in
    axisY0 - floatToInt (fmul p (float64 plotH)) in
  chartHead height 84 title yUnit ("Grouped by operation, " +:+ scaleLabel +:+ " y-scale, " +:+ metricPreference yUnit) +:+
  concatStrings ((fun i =>
    let p := fdiv (float64 i) (float64 5) in
    tick (axisY0 - floatToInt (fmul p (float64 plotH))) (floatToInt (unmapValue (fmul p maxMapped) scale))) <$> [0; 1; 2; 3; 4; 5]) +:+
  axes axisY0 axisY1 +:+
  groups drivers axisY0 (fun d op =>
    let v := valueOf byDriver d op in let y := mapToY v in (y, visibleHeight (axisY0 - y) v)) +:+
  legend 95 +:+
  "</svg>" +:+ nl.
End Scale.

(** *** The split chart *)

Definition splitHeight : Z := 825.
Definition splitTop : Z := 150.
Definition splitBot : Z := 150.
Definition panelGap : Z := 80.
Definition panelH : Z := Z.quot (splitHeight - splitTop - splitBot - panelGap) 2.

(** The driver with the largest total, the first of them. *)
Definition outlierOf (byDriver : metrics) (drivers : list string) : string :=
  (fold_left (fun '(best, bestTotal) d =>
     let total := fold_left (fun acc op => fadd acc (valueOf byDriver d op)) benchChartOps (float64 0) in
     if flt bestTotal total then (d, total) else (best, bestTotal)) drivers (EmptyString, float64 (-1))).1.

Definition drawPanel (byDriver : metrics) (panelTitle : string) (panelDrivers : list string) (yTop : Z) : string :=
  match panelDrivers with
  | [] => EmptyString
  | _ =>
      let axisY1 := yTop in let axisY0 := yTop + panelH in
      let maxV := maxOf byDriver panelDrivers in
      "<text" +:+ iattr "x" axisX0 +:+ iattr "y" (axisY1 - 12) +:+ attr "fill" "#FFFFFF" +:+ attr "font-size" "22" +:+
      attr "font-weight" "700" +:+ grotesk +:+ ">" +:+ panelTitle +:+ "</text>" +:+ nl +:+
      concatStrings ((fun i =>
        let p := fdiv (float64 i) (float64 5) in
        tick (axisY0 - floatToInt (fmul p (float64 panelH))) (floatToInt (fmul p maxV))) <$> [0; 1; 2; 3; 4; 5]) +:+
      axes axisY0 axisY1 +:+
      groups panelDrivers axisY0 (fun d op =>
        let v := valueOf byDriver d op in
        let h := visibleHeight (floatToInt (fmul (fdiv v maxV) (float64 panelH))) v in (axisY0 - h, h))
  end.

Definition dashboardSplitSVG (title yUnit : string) (drivers : list string) (byDriver : metrics) : string :=
  let outlier := outlierOf byDriver drivers in
  let rest := filter (fun d => d <> outlier) drivers in
  chartHead splitHeight 96 title yUnit
    ("Linear split view (grouped bars): top outlier, bottom remaining drivers, " +:+ metricPreference yUnit) +:+
  legend 130 +:+
  drawPanel byDriver ("Outlier: " +:+ outlier) [outlier] splitTop +:+
  drawPanel byDriver "Remaining drivers" rest (splitTop + panelH + panelGap) +:+
  "</svg>" +:+ nl.

(** ** The dashboard *)

Definition addRow (value : benchRow -> float) (op : string) (byDriver : metrics) (row : benchRow) : metrics :=
  <[Driver row := <[op := value row]> (default ∅ (byDriver !! Driver row))]> byDriver.

(** The two loops over the operations and their rows. *)
Definition metricsOf (byOp : gmap string (list benchRow)) (value : benchRow -> float) : metrics :=
  fold_left (fun m op => fold_left (addRow value op) (default [] (byOp !! op)) m) benchChartOps ∅.

(** The files [writeDashboard] writes, in order, unless a write fails; [driverKeys] are
    the drivers in the order of the [range]. *)
Definition writeDashboard (log10 pow10 : float -> float) (root : string) (byOp : gmap string (list benchRow)) (driverKeys : list string)
    : list (string * string) :=
  let drivers := orderDrivers driverKeys in
  match drivers with
  | [] => []
  | _ =>
      let file name := joinPath root ("docs/bench/" +:+ name) in
      let chart name title yUnit scale value :=
        (file name, if decide (scale = "split") then dashboardSplitSVG title yUnit drivers (metricsOf byOp value)
                    else dashboardSVG log10 pow10 title yUnit scale drivers (metricsOf byOp value)) in
      [chart "benchmarks_ns.svg" "Cache Benchmark Latency" "ns/op" "split" NsOp;
       chart "benchmarks_ops.svg" "Cache Benchmark Iterations" "N" "split" (fun r => float64 (Ops r));
       chart "benchmarks_bytes.svg" "Cache Benchmark Allocated Bytes" "B/op" "linear" BytesOp;
       chart "benchmarks_allocs.svg" "Cache Benchmark Allocations" "allocs/op" "linear" AllocsOp]
  end.

(** ** The drivers of a chart *)

Lemma takeSeen_spec ds seen :
  let '(out, seen') := takeSeen ds seen in
  NoDup out /\ (forall d, d ∈ out <-> d ∈ ds /\ d ∈ seen) /\ (forall d, d ∈ seen' <-> d ∈ seen /\ d ∉ ds).
Proof.
  revert seen. induction ds as [|d ds IH]; intros seen; simpl.
  - split; [constructor|]. split; intros d; [split; [intros ?%elem_of_nil | intros [?%elem_of_nil _]]; done|].
    split; [intros ?; split; [done | apply not_elem_of_nil] | by intros [? _]].
  - destruct (decide (d ∈ seen)) as [Hd|Hd].
    + specialize (IH (seen ∖ {[d]})). destruct (takeSeen ds (seen ∖ {[d]})) as [out seen']. destruct IH as (Hn & Ho & Hs).
      split; [constructor; [|done]; rewrite Ho, elem_of_difference, elem_of_singleton; tauto|]. split; intros x.
      * rewrite !elem_of_cons, Ho, elem_of_difference, elem_of_singleton. destruct (decide (x = d)) as [->|]; tauto.
      * rewrite Hs, not_elem_of_cons, elem_of_difference, elem_of_singleton. tauto.
    + specialize (IH seen). destruct (takeSeen ds seen) as [out seen']. destruct IH as (Hn & Ho & Hs). split; [done|]. split; intros x.
      * rewrite Ho, elem_of_cons. destruct (decide (x = d)) as [->|]; tauto.
      * rewrite Hs, not_elem_of_cons. destruct (decide (x = d)) as [->|]; tauto.
Qed.

Lemma filter_without (ds : list string) (s : gset string) d : d ∉ ds -> filter (fun x => x ∈ s ∖ {[d]}) ds = filter (fun x => x ∈ s) ds.
Proof.
  induction ds as [|x ds IH]; [done|]. intros [Hx Hd]%not_elem_of_cons. rewrite !filter_cons, IH by done.
  destruct (decide (x ∈ s)) as [Hs|Hs]; [rewrite decide_True | rewrite decide_False]; [done| |done|];
    rewrite elem_of_difference, elem_of_singleton; [split; [done | congruence] | tauto].
Qed.

Lemma takeSeen_filter ds s : NoDup ds -> (takeSeen ds s).1 = filter (fun d => d ∈ s) ds.
Proof.
  revert s. induction ds as [|d ds IH]; intros s Hnd; [done|]. apply list.NoDup_cons in Hnd as [Hd Hnd]. simpl.
  rewrite filter_cons. destruct (decide (d ∈ s)); [|by apply IH]. specialize (IH (s ∖ {[d]}) Hnd).
  destruct (takeSeen ds (s ∖ {[d]})) as [k s']. simpl in *. by rewrite IH, filter_without.
Qed.

(** The charts show every driver that was measured, once, whatever order the map gave
    them in; when all of them are known their order is the fixed one, the same on every
    run. *)
Theorem orderDrivers_stable drivers :
  NoDup (orderDrivers drivers) /\ (forall d, d ∈ orderDrivers drivers <-> d ∈ drivers) /\
  (Forall (fun d => d ∈ driverOrder) drivers ->
   orderDrivers drivers = filter (fun d => d ∈ drivers) driverOrder).
Proof.
  unfold orderDrivers. pose proof (takeSeen_spec driverOrder (list_to_set drivers)) as H1.
  destruct (takeSeen driverOrder (list_to_set drivers)) as [known seen] eqn:E1. destruct H1 as (Hn1 & Ho1 & Hs1).
  pose proof (takeSeen_spec drivers seen) as H2. destruct (takeSeen drivers seen) as [others seen'] eqn:E2.
  destruct H2 as (Hn2 & Ho2 & _).
  assert (Hset : forall d, d ∈ (list_to_set drivers : gset string) <-> d ∈ drivers) by (intros d; apply elem_of_list_to_set).
  split; [|split].
  - apply list.NoDup_app. split; [done|]. split; [|done]. intros d Hk%Ho1 Ho%Ho2. destruct Ho as [_ Hs%Hs1]. tauto.
  - intros d. rewrite elem_of_app, Ho1, Ho2, Hs1, Hset. destruct (decide (d ∈ driverOrder)); tauto.
  - intros Hall. assert (others = []) as ->.
    { apply elem_of_nil_inv. intros d [Hd [_ Hns]%Hs1]%Ho2. rewrite list.Forall_forall in Hall. auto. }
    assert (known = (takeSeen driverOrder (list_to_set drivers)).1) as -> by by rewrite E1.
    rewrite app_nil_r, takeSeen_filter.
    + by apply list_filter_iff.
    + apply (bool_decide_unpack _). by vm_compute.
Qed.

(** ** The bars do not run into each other *)

Lemma layout_fits n : 1 <= n <= 28 -> 0 <= groupW n - clusterW n /\ n * groupW n <= plotW /\ 3 <= barW n /\ 2 <= innerGap n.
Proof.
  intros Hn.
  assert (forallb (fun n => (0 <=? groupW n - clusterW n) && (n * groupW n <=? plotW) && (3 <=? barW n) && (2 <=? innerGap n))
    (seqZ 1 28) = true) as Hall by by vm_compute.
  rewrite forallb_forall in Hall. specialize (Hall n). rewrite <- list_elem_of_In, elem_of_seqZ in Hall.
  specialize (Hall ltac:(lia)). rewrite !andb_true_iff, !Z.leb_le in Hall. tauto.
Qed.

(** In a chart of up to 28 drivers, and there are ten, every bar lies in the group of
    its driver and in the plot, and ends before the next one begins. *)
Theorem bars_fit n i j :
  1 <= n <= 28 -> 0 <= i < n -> 0 <= j < nOps ->
  groupX n i <= barX n i j /\ barX n i j + barW n <= groupX n i + groupW n /\
  groupX n i + groupW n <= axisX1 /\ barX n i j + barW n < barX n i (j + 1).
Proof.
  intros Hn Hi Hj. destruct (layout_fits n Hn) as (Hc & Hw & Hb & Hg).
  unfold clusterW in *. change nOps with 9 in *. assert (0 <= groupW n) as Hpos by lia.
  pose proof (Z.quot_pos _ 2 Hc ltac:(lia)) as Hq0. pose proof (Z.mul_quot_le _ 2 Hc ltac:(lia)) as Hq.
  assert ((i + 1) * groupW n <= n * groupW n) as Hgrp by (apply Z.mul_le_mono_nonneg_r; lia).
  assert (0 <= j * (barW n + innerGap n) <= 8 * (barW n + innerGap n)) as Hj0
    by (split; [apply Z.mul_nonneg_nonneg | apply Z.mul_le_mono_nonneg_r]; lia).
  unfold barX, clusterW in *. change nOps with 9 in *. unfold barX, groupX, plotW, axisX1, axisX0, chartWidth, marginLeft, marginRight in *. lia.
Qed.
