(* ===== verification/BenchBackends.v ===== *)
(** * The backends of the benchmarks

    [docs/bench/local_options.go] and the part of [docs/bench/render.go] that starts a
    backend: [buildCache] with the containers, connections, buckets and directories it
    acquires, and the functions that release them.

    What the program acquires is a stack: a resource is named by a number, the next one that is
    free, and a release takes the one on top.  A release of anything else, of one already
    released or of one with younger ones still open, is recorded in [bs_misused]; one whose
    call returns an error, which the program drops, is recorded in [bs_stuck].  What the
    stores open for themselves, and nothing closes, is in [bs_pools].  The
    theorems show that a start which fails leaves the stack as it was, and that after one
    which succeeds the cleanup function does. *)

From S2P Require Import Prelude GoStd CacheCore Shaping MemoryStore FileStore Backends Cache.
From S2P Require Import RedisStore MemcachedStore NatsStore DynamoStore Rows SqlStore GoText.

(** ** [local_options.go] *)

(** A value of type [any] that is not nil: the type assertion to [DynamoAPI] succeeds on
    the first. *)
Inductive anyValue (D : Type) :=
| AnyDynamo (client : D)
| AnyOther.
Arguments AnyDynamo {D}.
Arguments AnyOther {D}.

Record benchConfig (D : Type) := mkBenchConfig {
  bcfg_base : BaseConfig;
  bcfg_FileDir : string;
  bcfg_NATSBucketTTL : bool;
  bcfg_DynamoEndpoint : string;
  bcfg_DynamoRegion : string;
  bcfg_DynamoTable : string;
  bcfg_DynamoClient : option (anyValue D)
}.
Arguments mkBenchConfig {D}.
Arguments bcfg_base {D}.
Arguments bcfg_FileDir {D}.
Arguments bcfg_NATSBucketTTL {D}.
Arguments bcfg_DynamoEndpoint {D}.
Arguments bcfg_DynamoRegion {D}.
Arguments bcfg_DynamoTable {D}.
Arguments bcfg_DynamoClient {D}.

Definition zeroBase : BaseConfig := mkBaseConfig 0 EmptyString EmptyString 0 [].
(** [benchConfig{}] *)
Definition zeroBench {D} : benchConfig D := mkBenchConfig zeroBase EmptyString false EmptyString EmptyString EmptyString None.

Definition benchStoreOption (D : Type) : Type := benchConfig D -> benchConfig D.

Definition benchWithPrefix {D} (prefix : string) : benchStoreOption D := fun cfg =>
  let b := bcfg_base cfg in
  mkBenchConfig (mkBaseConfig (DefaultTTL b) prefix (Compression b) (MaxValueBytes b) (EncryptionKey b)) (bcfg_FileDir cfg)
    (bcfg_NATSBucketTTL cfg) (bcfg_DynamoEndpoint cfg) (bcfg_DynamoRegion cfg) (bcfg_DynamoTable cfg) (bcfg_DynamoClient cfg).

Definition benchWithNATSBucketTTL {D} (enabled : bool) : benchStoreOption D := fun cfg =>
  mkBenchConfig (bcfg_base cfg) (bcfg_FileDir cfg) enabled (bcfg_DynamoEndpoint cfg) (bcfg_DynamoRegion cfg) (bcfg_DynamoTable cfg)
    (bcfg_DynamoClient cfg).

Definition applyBenchOptions {D} (cfg : benchConfig D) (opts : list (benchStoreOption D)) : benchConfig D :=
  fold_left (fun cfg opt => opt cfg) opts cfg.

(** The first two [if]s of the loops over [opts]: each option is applied to a
    configuration of its own. *)
Definition overrideBase {D} (base : BaseConfig) (opt : benchStoreOption D) : BaseConfig :=
  let b := bcfg_base (opt zeroBench) in
  let ttl := if DefaultTTL b >? 0 then DefaultTTL b else DefaultTTL base in
  let prefix := if decide (Prefix b = EmptyString) then Prefix base else Prefix b in
  mkBaseConfig ttl prefix (Compression base) (MaxValueBytes base) (EncryptionKey base).

(** ** The machine *)

Inductive waitStrategy :=
| ForListeningPort (port : string) (startupTimeout : Z)
| ForLog (log : string) (occurrence startupTimeout : Z).

Record ContainerRequest := mkContainerRequest {
  Image : string;
  Cmd : list string;
  Env : list (string * string);
  ExposedPorts : list string;
  WaitingFor : list waitStrategy
}.

Abbreviation handle := nat.

(** The environment, the file system, Docker behind testcontainers, the NATS client and
    the network, on a machine of type [H].  Containers, connections and the like are known
    by the handle under which they were acquired. *)
Class BenchHost (H K N : Type) := {
  bh_Getenv : string -> M H string;
  bh_TempDir : M H string;
  bh_environment : H -> Environment;
  bh_network : H -> N;
  bh_MkdirTemp : string -> string -> M H (string * option error);
  bh_RemoveAll : string -> M H (option error);
  bh_GenericContainer : handle -> Context -> ContainerRequest -> M H (option error);
  bh_Host : handle -> Context -> M H (string * option error);
  bh_MappedPort : handle -> Context -> string -> M H (string * option error);
  bh_Terminate : handle -> Context -> M H (option error);
  bh_CloseClient : handle -> M H (option error);
  bh_Connect : handle -> string -> M H (option error);
  bh_JetStream : handle -> M H (option error);
  bh_CreateKeyValue : handle -> string -> Z -> M H (K + error);
  bh_DeleteKeyValue : handle -> string -> M H (option error);
  bh_Drain : handle -> M H (option error);
  bh_CloseConn : handle -> M H unit
}.

(** What a store opens for itself: the connection pool of a [sql.DB], the pooled connections of
    a Memcached client, and the HTTP client of DynamoDB. *)
Inductive pool :=
| SqlPool (driverName dsn : string)
| McPool (addr : string)
| DynamoClient (endpoint : string).

(** The machine with what has been acquired from it and not yet released, the youngest first;
    the lines on standard error; what is still held because its release reported an
    error; and the pools. *)
Record benchState (H : Type) := mkBenchState {
  bs_host : H;
  bs_next : handle;
  bs_open : list handle;
  bs_misused : bool;
  bs_stderr : list (string * error);
  bs_stuck : list handle;
  bs_pools : list pool
}.
Arguments mkBenchState {H}.
Arguments bs_host {H}.
Arguments bs_next {H}.
Arguments bs_open {H}.
Arguments bs_misused {H}.
Arguments bs_stderr {H}.
Arguments bs_stuck {H}.
Arguments bs_pools {H}.

(** A cache over a backend that has been started. *)
Record benchTarget := mkBenchTarget { bt_S : Type; bt_Store : Store bt_S; bt_cache : Cache bt_S }.

(** [cache.NewCache(store)] *)
Definition newTarget {S} `{St : Store S} (store : S) : benchTarget := mkBenchTarget S St (NewCache store).

Section Backends.
Context {H K N R TLS D Db AwsConfig G : Type}.
Context `{BenchHost H K N} `{RedisClient R} `{KeyValue K} `{DynamoAPI D} `{SqlDB Db} `{McNet N} `{GoCache G}.
Context `{FileJSON} `{EnvelopeJSON} `{Gzip} `{Crypto}.
(** The constructors of the client libraries. *)
Variables (redis_NewClient : redisOptions TLS -> R) (sql_Open : string -> string -> Db + error).
Variables (LoadDefaultConfig : Context -> string -> AwsConfig + error) (withEndpoint : string -> AwsConfig -> AwsConfig).
Variable NewFromConfig : AwsConfig -> D.

Abbreviation B := (M (benchState H)).
Abbreviation options := (list (benchStoreOption D)).
(** [func()] *)
Definition cleanup : Type := B unit.
Definition noCleanup : cleanup := ret tt.

Definition host {A} (m : M H A) : B A :=
  zoom bs_host (fun h s => mkBenchState h (bs_next s) (bs_open s) (bs_misused s) (bs_stderr s) (bs_stuck s) (bs_pools s)) m.

(** The handle of what is acquired next; it is open once [opened]. *)
Definition fresh : B handle := fun w s =>
  (bs_next s, w, mkBenchState (bs_host s) (Datatypes.S (bs_next s)) (bs_open s) (bs_misused s) (bs_stderr s) (bs_stuck s) (bs_pools s)).
Definition opened (h : handle) : B unit := modify (fun s =>
  mkBenchState (bs_host s) (bs_next s) (h :: bs_open s) (bs_misused s) (bs_stderr s) (bs_stuck s) (bs_pools s)).
(** The release of [h] was called, and returned [err]. *)
Definition released (h : handle) (err : option error) : B unit := modify (fun s =>
  let stuck := match err with Some _ => h :: bs_stuck s | None => bs_stuck s end in
  match bs_open s with
  | h' :: rest => if decide (h = h') then mkBenchState (bs_host s) (bs_next s) rest (bs_misused s) (bs_stderr s) stuck (bs_pools s)
                  else mkBenchState (bs_host s) (bs_next s) (bs_open s) true (bs_stderr s) stuck (bs_pools s)
  | [] => mkBenchState (bs_host s) (bs_next s) [] true (bs_stderr s) stuck (bs_pools s)
  end).
Definition opensPools (ps : list pool) : B unit := modify (fun s =>
  mkBenchState (bs_host s) (bs_next s) (bs_open s) (bs_misused s) (bs_stderr s) (bs_stuck s) (ps ++ bs_pools s)).

(** A call that acquires, or fails with an error. *)
Definition acquire (call : handle -> M H (option error)) : B (handle + error) :=
  let* h := fresh in
  let* err := host (call h) in
  match err with
  | Some e => ret (inr e)
  | None => opened h ;; ret (inl h)
  end.

(** [_ = c.Terminate(...)] and the like: the error is dropped, and what it was about is not
    released. *)
Definition closing (h : handle) (call : M H (option error)) : B unit := let* err := host call in released h err.
Definition terminate (c : handle) (ctx : Context) : B unit := closing c (bh_Terminate c ctx).
Definition closeConn (nc : handle) : B unit := let* _ := host (bh_CloseConn nc) in released nc None.

(** [fmt.Fprintln(os.Stderr, msg, err)] *)
Definition complain (msg : string) (err : error) : B unit := modify (fun s =>
  mkBenchState (bs_host s) (bs_next s) (bs_open s) (bs_misused s) (bs_stderr s ++ [(msg, err)]) (bs_stuck s) (bs_pools s)).

(** ** Containers and connections *)

Definition startContainer (ctx : Context) (req : ContainerRequest) (port : string) : B ((handle * string) + error) :=
  let* r := acquire (fun h => bh_GenericContainer h ctx req) in
  match r with
  | inr err => ret (inr err)
  | inl c =>
      let* r := host (bh_Host c ctx) in
      match r with
      | (_, Some err) => terminate c ctx ;; ret (inr err)
      | (name, None) =>
          let* r := host (bh_MappedPort c ctx port) in
          match r with
          | (_, Some err) => terminate c ctx ;; ret (inr err)
          | (mapped, None) => ret (inl (c, name +:+ ":" +:+ mapped))
          end
      end
  end.

Definition connectInterval : Z := 100 * Millisecond.

(** The loop of [connectNATSWithRetry]; [None] when the fuel runs out. *)
Fixpoint connectLoop (fuel : nat) (url : string) (deadline : Z) (lastErr : option error) : B (option (handle + error)) :=
  match fuel with
  | O => ret None
  | Datatypes.S fuel =>
      let* t := timeNow in
      if t <? deadline then
        let* r := acquire (fun h => bh_Connect h url) in
        match r with
        | inl nc => ret (Some (inl nc))
        | inr err => timeSleep connectInterval ;; connectLoop fuel url deadline (Some err)
        end
      else ret (Some (inr (default (ErrorString "nats connect timeout") lastErr)))
  end.

(** A round takes [connectInterval] at least, so that this is enough. *)
Definition connectFuel (timeout : Z) : nat := Z.to_nat (timeout / connectInterval + 2).

Definition connectNATSWithRetry (url : string) (timeout : Z) : B (handle + error) :=
  let* start := timeNow in
  let* r := connectLoop (connectFuel timeout) url (start + timeout) None in
  ret (default (inr (ErrorString "nats connect timeout")) r).

(** ** Stores *)

(** A call of a constructor, whose store is nil only with an error. *)
Definition construct {S} (m : M unit (option S * option error)) : B (S + error) := fun w s =>
  let '(r, w, _) := m w tt in
  (match r with
   | (Some store, None) => inl store
   | (_, Some err) => inr err
   | (None, None) => inr (ErrorString "nil store")
   end, w, s).

Definition redisBenchStore (addr : string) (opts : options) : wrappedStore (redisStore R) :=
  let client := redis_NewClient (mkRedisOptions addr EmptyString EmptyString 0 None 0 0 0 0) in
  redis_New redis_NewClient (mkRedisConfig (fold_left overrideBase opts zeroBase) EmptyString EmptyString EmptyString 0 None (Some client)).

Definition memcachedBenchStore (addr : string) (opts : options) : B (wrappedStore (mcStore N)) :=
  let* s := get in
  opensPools [McPool addr] ;;
  ret (mc_New (mkMcConfig (fold_left overrideBase opts zeroBase) [addr]) (bh_network (bs_host s))).

(** What [sqlcore.New] leaves open, also when it fails after [sql.Open]. *)
Definition sqlPools (cfg : sqlConfig) : list pool :=
  match ValidateBaseConfig (sqcfg_base cfg) with
  | Some _ => []
  | None =>
      if decide (sqcfg_DriverName cfg = EmptyString \/ sqcfg_DSN cfg = EmptyString) then []
      else match sql_Open (sqcfg_DriverName cfg) (sqcfg_DSN cfg) with
           | inl _ => [SqlPool (sqcfg_DriverName cfg) (sqcfg_DSN cfg)]
           | inr _ => []
           end
  end.

Definition newSQLRenderStore (driverName dsn : string) (opts : options) : B (wrappedStore (sqlStore Db) + error) :=
  let base := fold_left overrideBase opts zeroBase in
  if decide (driverName = "sqlite") then
    let base := mkBaseConfig (DefaultTTL base) (Prefix base) EmptyString 0 [] in
    opensPools (sqlPools (mkSqlConfig base driverName dsn "cache_entries")) ;;
    construct (sqlite_New sql_Open base dsn "cache_entries")
  else
    opensPools (sqlPools (mkSqlConfig base driverName dsn "cache_entries")) ;;
    construct (sql_New sql_Open (mkSqlConfig base driverName dsn "cache_entries")).

(** The loop of [newDynamoRenderStore]. *)
Definition overrideDynamo (cfg : dynamoConfig D) (opt : benchStoreOption D) : dynamoConfig D :=
  let b := opt zeroBench in
  let orElse s dflt := if decide (s = EmptyString) then dflt else s in
  let client := match bcfg_DynamoClient b with Some (AnyDynamo client) => Some client | _ => dcfg_Client cfg end in
  mkDynamoConfig (overrideBase (dcfg_base cfg) opt) client (orElse (bcfg_DynamoEndpoint b) (dcfg_Endpoint cfg))
    (orElse (bcfg_DynamoRegion b) (dcfg_Region cfg)) (orElse (bcfg_DynamoTable b) (dcfg_Table cfg)).

(** The client that [dynamocache.New] makes where it is given none. *)
Definition dynPools (ctx : Context) (cfg : dynamoConfig D) : list pool :=
  match ValidateBaseConfig (dcfg_base cfg), dcfg_Client cfg with
  | None, None =>
      match LoadDefaultConfig ctx (dcfg_Region cfg) with
      | inl _ => [DynamoClient (dcfg_Endpoint cfg)]
      | inr _ => []
      end
  | _, _ => []
  end.

Definition newDynamoRenderStore (ctx : Context) (endpoint : string) (opts : options) : B (wrappedStore (dynamoStore D) + error) :=
  let cfg := fold_left overrideDynamo opts (mkDynamoConfig zeroBase None endpoint "us-east-1" "cache_entries") in
  opensPools (dynPools ctx cfg) ;;
  construct (dyn_New LoadDefaultConfig withEndpoint NewFromConfig ctx cfg).

(** The loop of [newNATSBenchCache]. *)
Definition overrideNats (cfg : natsConfig K) (opt : benchStoreOption D) : natsConfig K :=
  mkNatsConfig (overrideBase (ncfg_base cfg) opt) (ncfg_KeyValue cfg)
    (if bcfg_NATSBucketTTL (opt zeroBench) then true else ncfg_BucketTTL cfg).

(** A bucket is created through its connection, and is a resource of its own. *)
Definition newNATSBenchCache (ctx : Context) (natsURL : string) (opts : options) : B ((benchTarget * cleanup) + error) :=
  let* r := connectNATSWithRetry natsURL (5 * Second) in
  match r with
  | inr err => ret (inr err)
  | inl nc =>
      let* err := host (bh_JetStream nc) in
      match err with
      | Some err => closeConn nc ;; ret (inr err)
      | None =>
          let* t := timeNow in
          let bucket := "BENCH_" +:+ FormatInt (Z.rem (UnixNano t) 1000000000) in
          let* h := fresh in
          let* r := host (bh_CreateKeyValue nc bucket 1) in
          match r with
          | inr err => closeConn nc ;; ret (inr err)
          | inl kv =>
              opened h ;;
              let store := nats_New (fold_left overrideNats opts (mkNatsConfig zeroBase (Some kv) false)) in
              let cleanup : cleanup :=
                closing h (bh_DeleteKeyValue nc bucket) ;;
                let* _ := host (bh_Drain nc) in
                closeConn nc in
              ret (inl (newTarget store, cleanup))
          end
      end
  end.

(** ** Backends in containers *)

Definition listening (port : string) (timeout : Z) : list waitStrategy := [ForListeningPort port timeout].

(** A client of Redis, and the function that closes it. *)
Definition redisClient : B handle := let* h := fresh in opened h ;; ret h.
Definition closeClient (h : handle) : B unit := closing h (bh_CloseClient h).

Definition startRedis (ctx : Context) (opts : options) : B ((benchTarget * cleanup) + error) :=
  let req := mkContainerRequest "redis:7-bookworm" [] [] ["6379/tcp"] (listening "6379/tcp" (30 * Second)) in
  let* r := startContainer ctx req "6379/tcp" in
  match r with
  | inr err => ret (inr err)
  | inl (c, addr) =>
      let* client := redisClient in
      let cleanup : cleanup := closeClient client ;; terminate c Background in
      ret (inl (newTarget (redisBenchStore addr opts), cleanup))
  end.

Definition startMemcached (ctx : Context) (opts : options) : B ((benchTarget * cleanup) + error) :=
  let req := mkContainerRequest "memcached:1.6-bookworm" [] [] ["11211/tcp"] (listening "11211/tcp" (30 * Second)) in
  let* r := startContainer ctx req "11211/tcp" in
  match r with
  | inr err => ret (inr err)
  | inl (c, addr) =>
      let* store := memcachedBenchStore addr opts in
      ret (inl (newTarget store, terminate c Background))
  end.

Definition startDynamo (ctx : Context) (opts : options) : B ((benchTarget * cleanup) + error) :=
  let req := mkContainerRequest "amazon/dynamodb-local:latest" [] [] ["8000/tcp"] (listening "8000/tcp" (45 * Second)) in
  let* r := startContainer ctx req "8000/tcp" in
  match r with
  | inr err => ret (inr err)
  | inl (c, addr) =>
      let* r := newDynamoRenderStore ctx ("http://" +:+ addr) opts in
      match r with
      | inr err => terminate c Background ;; ret (inr err)
      | inl store => ret (inl (newTarget store, terminate c Background))
      end
  end.

Definition startPostgres (ctx : Context) (opts : options) : B ((benchTarget * cleanup) + error) :=
  let env := [("POSTGRES_PASSWORD", "pass"); ("POSTGRES_USER", "user"); ("POSTGRES_DB", "app")] in
  let req := mkContainerRequest "postgres:16-bookworm" [] env ["5432/tcp"] (listening "5432/tcp" (60 * Second)) in
  let* r := startContainer ctx req "5432/tcp" in
  match r with
  | inr err => ret (inr err)
  | inl (c, addr) =>
      let* r := newSQLRenderStore "pgx" ("postgres://user:pass@" +:+ addr +:+ "/app?sslmode=disable") opts in
      match r with
      | inr err => terminate c Background ;; ret (inr err)
      | inl store => ret (inl (newTarget store, terminate c Background))
      end
  end.

Definition startMySQL (ctx : Context) (opts : options) : B ((benchTarget * cleanup) + error) :=
  let env := [("MYSQL_ROOT_PASSWORD", "pass"); ("MYSQL_DATABASE", "app"); ("MYSQL_USER", "user"); ("MYSQL_PASSWORD", "pass")] in
  let req := mkContainerRequest "mysql:8" [] env ["3306/tcp"]
    [ForListeningPort "3306/tcp" (90 * Second); ForLog "ready for connections" 2 (90 * Second)] in
  let* r := startContainer ctx req "3306/tcp" in
  match r with
  | inr err => ret (inr err)
  | inl (c, addr) =>
      let* r := newSQLRenderStore "mysql" ("user:pass@tcp(" +:+ addr +:+ ")/app?parseTime=true") opts in
      match r with
      | inr err => terminate c Background ;; ret (inr err)
      | inl store => ret (inl (newTarget store, terminate c Background))
      end
  end.

Definition natsRequest : ContainerRequest := mkContainerRequest "nats:2" ["-js"] [] ["4222/tcp"] [].

(** The container of [startNATS] and [natsBenchURL], waited for by a connection that is
    closed again. *)
Definition natsServer (ctx : Context) : B ((handle * string) + error) :=
  let* r := startContainer ctx natsRequest "4222/tcp" in
  match r with
  | inr err => ret (inr err)
  | inl (c, addr) =>
      let url := "nats://" +:+ addr in
      let* r := connectNATSWithRetry url (15 * Second) in
      match r with
      | inr err => terminate c Background ;; ret (inr err)
      | inl nc => closeConn nc ;; ret (inl (c, url))
      end
  end.

Definition startNATS (ctx : Context) (opts : options) : B ((benchTarget * cleanup) + error) :=
  let* r := natsServer ctx in
  match r with
  | inr err => ret (inr err)
  | inl (c, natsURL) =>
      let* r := newNATSBenchCache ctx natsURL opts in
      match r with
      | inr err => terminate c Background ;; ret (inr err)
      | inl (cacheValue, cacheCleanup) => ret (inl (cacheValue, (cacheCleanup ;; terminate c Background)))
      end
  end.

Definition natsBenchURL (ctx : Context) : B (option (string * cleanup)) :=
  let* addr := host (bh_Getenv "NATS_URL") in
  if decide (addr <> EmptyString) then ret (Some (addr, noCleanup))
  else
    let* r := natsServer ctx in
    match r with
    | inr err => complain "benchrender: skip nats pair:" err ;; ret None
    | inl (c, url) => ret (Some (url, terminate c Background))
    end.

(** ** [buildCache] *)

(** [else { fmt.Fprintln(os.Stderr, ...) }] and the [return] at the end. *)
Definition orSkip (msg : string) (start : B ((benchTarget * cleanup) + error)) : B (option (benchTarget * cleanup)) :=
  let* r := start in
  match r with
  | inl started => ret (Some started)
  | inr err => complain msg err ;; ret None
  end.

(** A store that is opened where it runs already; what it holds, among [bs_pools], is not
    closed. *)
Definition attached {S} `{Store S} (start : B (S + error)) : B ((benchTarget * cleanup) + error) :=
  let* r := start in
  ret (match r with inl store => inl (newTarget store, noCleanup) | inr err => inr err end).

Definition onUnit {A} (m : M unit A) : B A := fun w s => let '(a, w, _) := m w tt in (a, w, s).

Definition buildMemory (ctx : Context) (opts : options) : B (option (benchTarget * cleanup)) :=
  let benchCfg := applyBenchOptions zeroBench opts in
  let* s := get in
  let* store := onUnit (NewMemoryStoreWithConfig (G := G) (bh_environment (bs_host s)) ctx (mkStoreConfig (bcfg_base benchCfg) 0 EmptyString)) in
  ret (Some (newTarget store, noCleanup)).

(** [os.MkdirTemp] whose error is dropped: the name is empty when it failed, and the store
    is then that of the default directory. *)
Definition buildFile (ctx : Context) (opts : options) : B (option (benchTarget * cleanup)) :=
  let* h := fresh in
  let* r := host (bh_MkdirTemp EmptyString "cache-bench-file-*") in
  let '(dir, _) := r in
  opened h ;;
  let benchCfg := applyBenchOptions (mkBenchConfig zeroBase dir false EmptyString EmptyString EmptyString None) opts in
  let* s := get in
  let* store := onUnit (NewFileStoreWithConfig (G := G) (bh_environment (bs_host s)) ctx
                          (mkStoreConfig (bcfg_base benchCfg) 0 (bcfg_FileDir benchCfg))) in
  ret (Some (newTarget store, closing h (bh_RemoveAll dir))).

Definition buildRedis (ctx : Context) (opts : options) : B (option (benchTarget * cleanup)) :=
  let* addr := host (bh_Getenv "REDIS_ADDR") in
  if decide (addr <> EmptyString) then
    let* client := redisClient in ret (Some (newTarget (redisBenchStore addr opts), closeClient client))
  else orSkip "benchrender: skip redis:" (startRedis ctx opts).

Definition buildNATS (ctx : Context) (opts : options) : B (option (benchTarget * cleanup)) :=
  let inContainer := orSkip "benchrender: skip nats:" (startNATS ctx opts) in
  let* addr := host (bh_Getenv "NATS_URL") in
  if decide (addr <> EmptyString) then
    let* r := newNATSBenchCache ctx addr opts in
    match r with
    | inl started => ret (Some started)
    | inr _ => inContainer
    end
  else inContainer.

Definition buildMemcached (ctx : Context) (opts : options) : B (option (benchTarget * cleanup)) :=
  let* addr := host (bh_Getenv "MEMCACHED_ADDR") in
  if decide (addr <> EmptyString) then
    let* store := memcachedBenchStore addr opts in ret (Some (newTarget store, noCleanup))
  else orSkip "benchrender: skip memcached:" (startMemcached ctx opts).

Definition buildDynamo (ctx : Context) (opts : options) : B (option (benchTarget * cleanup)) :=
  let* endpoint := host (bh_Getenv "DYNAMO_ENDPOINT") in
  orSkip "benchrender: skip dynamodb:"
    (if decide (endpoint <> EmptyString) then attached (newDynamoRenderStore ctx endpoint opts) else startDynamo ctx opts).

Definition buildPostgres (ctx : Context) (opts : options) : B (option (benchTarget * cleanup)) :=
  let* dsn := host (bh_Getenv "BENCH_PG_DSN") in
  orSkip "benchrender: skip postgres:"
    (if decide (dsn <> EmptyString) then attached (newSQLRenderStore "pgx" dsn opts) else startPostgres ctx opts).

Definition buildMySQL (ctx : Context) (opts : options) : B (option (benchTarget * cleanup)) :=
  let* dsn := host (bh_Getenv "BENCH_MYSQL_DSN") in
  orSkip "benchrender: skip mysql:"
    (if decide (dsn <> EmptyString) then attached (newSQLRenderStore "mysql" dsn opts) else startMySQL ctx opts).

Definition buildSQLite (opts : options) : B (option (benchTarget * cleanup)) :=
  let* tmp := host bh_TempDir in
  let dsn := "file:" +:+ joinPath tmp "bench.sqlite" +:+ "?cache=shared&mode=rwc" in
  orSkip "benchrender: skip sqlite:" (attached (newSQLRenderStore "sqlite" dsn opts)).

Definition buildCache (ctx : Context) (name : string) (opts : options) : B (option (benchTarget * cleanup)) :=
  if decide (name = "memory") then buildMemory ctx opts
  else if decide (name = "file") then buildFile ctx opts
  else if decide (name = "redis") then buildRedis ctx opts
  else if decide (name = "nats") then buildNATS ctx opts
  else if decide (name = "memcached") then buildMemcached ctx opts
  else if decide (name = "dynamodb") then buildDynamo ctx opts
  else if decide (name = "sql_postgres") then buildPostgres ctx opts
  else if decide (name = "sql_mysql") then buildMySQL ctx opts
  else if decide (name = "sql_sqlite") then buildSQLite opts
  else ret None.

(** ** What is acquired and released *)

(** The calls that release report no errors. *)
Definition releases_succeed : Prop :=
  (forall c ctx w x, rv (bh_Terminate c ctx w x) = None) /\ (forall h w x, rv (bh_CloseClient h w x) = None) /\
  (forall dir w x, rv (bh_RemoveAll dir w x) = None) /\ (forall nc bucket w x, rv (bh_DeleteKeyValue nc bucket w x) = None).

(** What cannot be released, and the pools, only grow; the former only by an error. *)
Definition grown (s s' : benchState H) : Prop :=
  (exists new, bs_stuck s' = new ++ bs_stuck s) /\ (exists new, bs_pools s' = new ++ bs_pools s) /\
  (releases_succeed -> bs_stuck s' = bs_stuck s).

#[export] Instance grown_preorder : PreOrder grown.
Proof.
  split; [intros s; split_and!; [by exists []..|done]|].
  intros s1 s2 s3 ((l1 & E1) & (p1 & F1) & G1) ((l2 & E2) & (p2 & F2) & G2). split_and!.
  - exists (l2 ++ l1). by rewrite E2, E1, (assoc_L (++)).
  - exists (p2 ++ p1). by rewrite F2, F1, (assoc_L (++)).
  - intros Hs. by rewrite G2, G1.
Qed.

(** From [pre] on top of the stack, [m] comes to a stack with [post] on top, whatever is
    below, and misuses nothing. *)
Definition stacks {A} (pre : list handle) (m : B A) (post : A -> list handle -> Prop) : Prop :=
  forall rest w s a w' s', bs_open s = pre ++ rest -> m w s = (a, w', s') ->
  bs_misused s' = bs_misused s /\ grown s s' /\ exists hs, bs_open s' = hs ++ rest /\ post a hs.

(** A function that comes back to [pre], and a start that does so or gives a function
    that will. *)
Definition back {A} (pre : list handle) (_ : A) (hs : list handle) : Prop := hs = pre.
Definition starts (pre : list handle) (r : benchTarget * cleanup + error) (hs : list handle) : Prop :=
  match r with
  | inl (_, cleanup) => stacks hs cleanup (back pre)
  | inr _ => hs = pre
  end.
Definition starts_opt (pre : list handle) (r : option (benchTarget * cleanup)) (hs : list handle) : Prop :=
  match r with
  | Some (_, cleanup) => stacks hs cleanup (back pre)
  | None => hs = pre
  end.

Lemma stacks_ret {A} pre (a : A) (post : A -> list handle -> Prop) : post a pre -> stacks pre (ret a) post.
Proof. intros Hp rest w s a' w' s' E [= <- <- <-]. split; [done|]. split; [done|]. eauto. Qed.

Lemma stacks_bind {A A'} pre mid post (m : B A) (k : A -> B A') :
  stacks pre m mid -> (forall a hs, mid a hs -> stacks hs (k a) post) -> stacks pre (let* a := m in k a) post.
Proof.
  intros Hm Hk rest w s a' w' s' E E'. unfold bind in E'. destruct (m w s) as [[a w1] s1] eqn:E1.
  destruct (Hm _ _ _ _ _ _ E E1) as (Hb & Hg & hs & Hs & Hp). destruct (Hk a hs Hp _ _ _ _ _ _ Hs E') as (Hb' & Hg' & Hs').
  split; [congruence|]. split; [by etrans | done].
Qed.

(** One that leaves the stack alone. *)
Definition silent {A} (m : B A) : Prop :=
  forall w s, let s' := sv (m w s) in
    bs_open s' = bs_open s /\ bs_misused s' = bs_misused s /\ bs_stuck s' = bs_stuck s /\ bs_pools s' = bs_pools s.

Lemma stacks_silent {A} pre (m : B A) : silent m -> stacks pre m (back pre).
Proof.
  intros Hm rest w s a w' s' E E1. destruct (Hm w s) as (Ho & Hb & Hst & Hpl). rewrite E1 in *. simpl in *. rewrite Ho, Hb.
  split; [done|]. split; [|by exists pre]. unfold grown. rewrite Hst, Hpl. split_and!; [by exists []..|done].
Qed.

Lemma host_silent {A} (m : M H A) : silent (host m).
Proof. intros w s. unfold host, zoom. by destruct (m w (bs_host s)) as [[? ?] ?]. Qed.

Lemma onUnit_silent {A} (m : M unit A) : silent (onUnit m).
Proof. intros w s. unfold onUnit. by destruct (m w tt) as [[? ?] ?]. Qed.

Lemma construct_silent {S} (m : M unit (option S * option error)) : silent (construct m).
Proof. intros w s. unfold construct. by destruct (m w tt) as [[[[]] ?] ?]. Qed.

Lemma fresh_silent : silent fresh.
Proof. by split. Qed.

Lemma get_silent : silent get.
Proof. by split. Qed.

Lemma timeNow_silent : silent timeNow.
Proof. by split. Qed.

Lemma timeSleep_silent d : silent (timeSleep d).
Proof. by split. Qed.

Lemma complain_silent msg err : silent (complain msg err).
Proof. by split. Qed.

Lemma stacks_opened pre h : stacks pre (opened h) (back (h :: pre)).
Proof.
  intros rest w s a w' s' E [= <- <- <-]. simpl. rewrite E. split; [done|]. split; [|by exists (h :: pre)].
  by split_and!; [exists []|exists []|].
Qed.

Lemma stacks_opensPools pre ps : stacks pre (opensPools ps) (back pre).
Proof.
  intros rest w s a w' s' E [= <- <- <-]. simpl. rewrite E. split; [done|]. split; [|by exists pre].
  by split_and!; [exists []|exists ps|].
Qed.

Lemma stacks_closing pre h call :
  (releases_succeed -> forall w x, rv (call w x) = None) -> stacks (h :: pre) (closing h call) (back pre).
Proof.
  intros Hcall rest w s a w' s' E. unfold closing, host, zoom, bind. destruct (call w (bs_host s)) as [[err w1] x1] eqn:Ec.
  unfold released, modify. simpl. rewrite E. simpl. rewrite decide_True by done. intros [= <- <- <-].
  split; [done|]. split; [|by exists pre]. split_and!; [|by exists []|]; simpl.
  - destruct err; [by exists [h] | by exists []].
  - intros Hs. specialize (Hcall Hs w (bs_host s)). rewrite Ec in Hcall. change (err = None) in Hcall. by rewrite Hcall.
Qed.

Create HintDb stacks.
#[local] Hint Resolve host_silent onUnit_silent construct_silent fresh_silent get_silent timeNow_silent timeSleep_silent
  complain_silent stacks_silent stacks_opened stacks_opensPools : stacks.

(** One call, whose effect on the stack is known. *)
Ltac step := eapply stacks_bind; [solve [eauto with stacks] | let Hp := fresh "Hp" in intros ? ? Hp; unfold back in Hp; try subst].
Ltac finish := cbn [starts starts_opt]; first [solve [eauto with stacks] | by apply stacks_ret].

Lemma terminate_stacks pre c ctx : stacks (c :: pre) (terminate c ctx) (back pre).
Proof. apply stacks_closing. intros Hs. apply Hs. Qed.

Lemma closeConn_stacks pre nc : stacks (nc :: pre) (closeConn nc) (back pre).
Proof.
  unfold closeConn. step. intros rest w s u w' s' E [= <- <- <-]. rewrite E. simpl. rewrite decide_True by done.
  split; [done|]. split; [|by exists pre]. by split_and!; [exists []|exists []|].
Qed.

Lemma closeClient_stacks pre h : stacks (h :: pre) (closeClient h) (back pre).
Proof. apply stacks_closing. intros Hs. apply Hs. Qed.

Lemma removeAll_stacks pre h dir : stacks (h :: pre) (closing h (bh_RemoveAll dir)) (back pre).
Proof. apply stacks_closing. intros Hs. apply Hs. Qed.

Lemma deleteBucket_stacks pre h nc bucket : stacks (h :: pre) (closing h (bh_DeleteKeyValue nc bucket)) (back pre).
Proof. apply stacks_closing. intros Hs. apply Hs. Qed.
#[local] Hint Resolve terminate_stacks closeConn_stacks closeClient_stacks removeAll_stacks deleteBucket_stacks : stacks.

(** What a call that may acquire leaves on the stack. *)
Definition acquired (pre : list handle) (r : handle + error) (hs : list handle) : Prop :=
  hs = match r with inl h => h :: pre | inr _ => pre end.
Definition acquired_at (pre : list handle) (r : handle * string + error) (hs : list handle) : Prop :=
  hs = match r with inl (h, _) => h :: pre | inr _ => pre end.

Lemma acquire_stacks pre call : stacks pre (acquire call) (acquired pre).
Proof. unfold acquire. step. step. destruct a0; [finish|]. step. finish. Qed.

Lemma redisClient_stacks pre : stacks pre redisClient (fun h hs => hs = h :: pre).
Proof. unfold redisClient. step. step. finish. Qed.
#[local] Hint Resolve acquire_stacks redisClient_stacks : stacks.

Lemma startContainer_stacks pre ctx req port : stacks pre (startContainer ctx req port) (acquired_at pre).
Proof.
  unfold startContainer. step. destruct a as [c|err]; rewrite Hp; [|finish]. step. destruct a as [name [err|]]; [step; finish|].
  step. destruct a as [mapped [err|]]; [step|]; finish.
Qed.

Lemma connectLoop_stacks pre fuel url deadline lastErr :
  stacks pre (connectLoop fuel url deadline lastErr) (fun r hs => acquired pre (default (inr (ErrorString EmptyString)) r) hs).
Proof.
  revert lastErr. induction fuel as [|fuel IH]; intros lastErr; cbn [connectLoop]; [finish|]. step. destruct (_ <? _); [|finish].
  step. destruct a0 as [nc|err]; rewrite Hp; [finish|]. step. apply IH.
Qed.
#[local] Hint Resolve startContainer_stacks connectLoop_stacks : stacks.

Lemma connectNATSWithRetry_stacks pre url timeout : stacks pre (connectNATSWithRetry url timeout) (acquired pre).
Proof. unfold connectNATSWithRetry. step. step. apply stacks_ret. by destruct a0. Qed.
#[local] Hint Resolve connectNATSWithRetry_stacks : stacks.

Lemma newNATSBenchCache_stacks pre ctx url opts : stacks pre (newNATSBenchCache ctx url opts) (starts pre).
Proof.
  unfold newNATSBenchCache. step. destruct a as [nc|err]; rewrite Hp; [|finish]. step. destruct a as [err|]; [step; finish|].
  step. step. step. destruct a1 as [kv|err]; [|step; finish]. step. apply stacks_ret. simpl. step. step. finish.
Qed.

Lemma natsServer_stacks pre ctx : stacks pre (natsServer ctx) (acquired_at pre).
Proof.
  unfold natsServer. step. destruct a as [[c addr]|err]; rewrite Hp; [|finish]. step.
  destruct a as [nc|err]; rewrite Hp0; step; finish.
Qed.
#[local] Hint Resolve newNATSBenchCache_stacks natsServer_stacks : stacks.

(** The containers: started, or terminated when the store cannot be opened. *)
Ltac container :=
  step; match goal with Hr : acquired_at _ ?r _ |- _ => destruct r as [[c addr]|err]; simpl in Hr; rewrite Hr; [|finish] end.

Lemma startRedis_stacks pre ctx opts : stacks pre (startRedis ctx opts) (starts pre).
Proof. unfold startRedis. container. step. apply stacks_ret. simpl. step. finish. Qed.

Lemma memcachedBenchStore_stacks pre addr opts : stacks pre (memcachedBenchStore addr opts) (back pre).
Proof. unfold memcachedBenchStore. step. step. finish. Qed.
#[local] Hint Resolve memcachedBenchStore_stacks : stacks.

Lemma startMemcached_stacks pre ctx opts : stacks pre (startMemcached ctx opts) (starts pre).
Proof. unfold startMemcached. container. step. apply stacks_ret. finish. Qed.

Lemma newSQLRenderStore_stacks pre name dsn opts : stacks pre (newSQLRenderStore name dsn opts) (back pre).
Proof. unfold newSQLRenderStore. case_decide; step; finish. Qed.

Lemma newDynamoRenderStore_stacks pre ctx endpoint opts : stacks pre (newDynamoRenderStore ctx endpoint opts) (back pre).
Proof. unfold newDynamoRenderStore. step. finish. Qed.
#[local] Hint Resolve startRedis_stacks startMemcached_stacks newSQLRenderStore_stacks newDynamoRenderStore_stacks : stacks.

Lemma startDynamo_stacks pre ctx opts : stacks pre (startDynamo ctx opts) (starts pre).
Proof. unfold startDynamo. container. step. destruct a; [apply stacks_ret | step]; finish. Qed.

Lemma startPostgres_stacks pre ctx opts : stacks pre (startPostgres ctx opts) (starts pre).
Proof. unfold startPostgres. container. step. destruct a; [apply stacks_ret | step]; finish. Qed.

Lemma startMySQL_stacks pre ctx opts : stacks pre (startMySQL ctx opts) (starts pre).
Proof. unfold startMySQL. container. step. destruct a; [apply stacks_ret | step]; finish. Qed.

Lemma startNATS_stacks pre ctx opts : stacks pre (startNATS ctx opts) (starts pre).
Proof.
  unfold startNATS. container. step. destruct a as [[t cl]|err]; [|rewrite Hp0; step; finish]. apply stacks_ret. simpl in *.
  step. finish.
Qed.
#[local] Hint Resolve startDynamo_stacks startPostgres_stacks startMySQL_stacks startNATS_stacks : stacks.

Lemma noCleanup_stacks pre : stacks pre noCleanup (back pre).
Proof. by apply stacks_ret. Qed.
#[local] Hint Resolve noCleanup_stacks : stacks.

Lemma orSkip_stacks pre msg start : stacks pre start (starts pre) -> stacks pre (orSkip msg start) (starts_opt pre).
Proof. intros Hs. unfold orSkip. step. destruct a as [[t cl]|err]; [by apply stacks_ret|]. simpl in Hp. subst. step. finish. Qed.

Lemma attached_stacks {S} `{Store S} pre (start : B (S + error)) : stacks pre start (back pre) -> stacks pre (attached start) (starts pre).
Proof. intros Hs. unfold attached. step. apply stacks_ret. destruct a; simpl; [finish | done]. Qed.
#[local] Hint Resolve orSkip_stacks attached_stacks : stacks.

Lemma natsBenchURL_stacks pre ctx :
  stacks pre (natsBenchURL ctx) (fun r hs => match r with Some (_, cleanup) => stacks hs cleanup (back pre) | None => hs = pre end).
Proof.
  unfold natsBenchURL. step. case_decide; [apply stacks_ret; finish|]. step.
  destruct a0 as [[c url]|err]; rewrite Hp; [apply stacks_ret | step]; finish.
Qed.

(** The start of any backend. *)
Lemma buildCache_stacks pre ctx name opts : stacks pre (buildCache ctx name opts) (starts_opt pre).
Proof.
  unfold buildCache. repeat case_decide; [unfold buildMemory|unfold buildFile|unfold buildRedis|unfold buildNATS|unfold buildMemcached
    |unfold buildDynamo|unfold buildPostgres|unfold buildMySQL|unfold buildSQLite|finish].
  - step. step. apply stacks_ret. finish.
  - step. step. destruct a0 as [dir err]. step. step. step. apply stacks_ret. finish.
  - step. case_decide; [|finish]. step. apply stacks_ret. finish.
  - step. case_decide; [|finish]. step. destruct a0 as [[t cl]|err]; [by apply stacks_ret|]. simpl in Hp. subst. finish.
  - step. case_decide; [|finish]. step. apply stacks_ret. finish.
  - step. case_decide; finish.
  - step. case_decide; finish.
  - step. case_decide; finish.
  - step. finish.
Qed.

(** *** The pools *)

(** The backends of the list [drivers] of [runBenchmarks] whose stores hold connections that
    nothing closes, and the pool of each. *)
Definition pooledDrivers : list string := ["memcached"; "sql_postgres"; "sql_mysql"; "sql_sqlite"].
Definition poolOf (driver : string) (p : pool) : Prop :=
  match p with
  | McPool _ => driver = "memcached"
  | SqlPool name _ => (driver, name) ∈ [("sql_postgres", "pgx"); ("sql_mysql", "mysql"); ("sql_sqlite", "sqlite")]
  | DynamoClient _ => driver = "dynamodb"
  end.

Lemma sql_New_pool cfg w u x err w' u' :
  sql_New sql_Open cfg w u = ((Some x, err), w', u') -> sqlPools cfg = [SqlPool (sqcfg_DriverName cfg) (sqcfg_DSN cfg)].
Proof.
  unfold sql_New, sqlPools. destruct (ValidateBaseConfig _); [done|].
  destruct (decide (sqcfg_DriverName cfg = EmptyString \/ _)); [done|]. by destruct (sql_Open _ _).
Qed.

Lemma construct_inv {S} (m : M unit (option S * option error)) w s store w' s' :
  construct m w s = (inl store, w', s') -> s' = s /\ exists u, m w tt = ((Some store, None), w', u).
Proof. unfold construct. destruct (m w tt) as [[[[x|] [e|]] w1] []]; intros [= <- <- <-]. eauto. Qed.

Lemma newSQLRenderStore_pool name dsn opts w s store w' s' :
  newSQLRenderStore name dsn opts w s = (inl store, w', s') -> SqlPool name dsn ∈ bs_pools s'.
Proof.
  unfold newSQLRenderStore. case_decide as Hn; unfold bind, opensPools, modify; intros (-> & u & E)%construct_inv; simpl;
    [unfold sqlite_New in E; rewrite <- Hn in E|]; apply sql_New_pool in E as ->; by left.
Qed.

Lemma orSkip_inv msg start w s r w' s' : orSkip msg start w s = (Some r, w', s') -> start w s = (inl r, w', s').
Proof. unfold orSkip, bind. destruct (start w s) as [[[r0|e] w1] s1]; [by intros [= <- <- <-] | done]. Qed.

Lemma attached_inv {S} `{Store S} (start : B (S + error)) w s r w' s' :
  attached start w s = (inl r, w', s') -> exists store, start w s = (inl store, w', s').
Proof. unfold attached, bind. destruct (start w s) as [[[r0|e] w1] s1]; intros [= <- <- <-]. eauto. Qed.

(** A container with a store of [start] in it. *)
Lemma contained_inv {S} (c : handle) (start : B (S + error)) (f : S -> benchTarget * cleanup) w s r w' s' :
  (let* r := start in match r with inr err => terminate c Background ;; ret (inr err) | inl store => ret (inl (f store)) end) w s
    = (inl r, w', s') ->
  exists store, start w s = (inl store, w', s').
Proof. unfold bind. destruct (start w s) as [[[r0|e] w1] s1]; [intros [= <- <- <-]; eauto|]. by destruct (terminate _ _ _ _) as [[? ?] ?]. Qed.

Lemma buildCache_pool ctx name opts w s r w' s' :
  buildCache ctx name opts w s = (Some r, w', s') -> name ∈ pooledDrivers -> exists p, p ∈ bs_pools s' /\ poolOf name p.
Proof.
  intros E Hn. unfold pooledDrivers in Hn. rewrite !elem_of_cons in Hn.
  destruct Hn as [->|[->|[->|[->|Hn%elem_of_nil]]]]; [..|done]; unfold buildCache in E; simpl in E.
  - unfold buildMemcached in E. unfold bind at 1 in E. destruct (host _ w s) as [[addr w1] s1]. case_decide.
    + unfold bind, memcachedBenchStore, opensPools in E. injection E as _ _ <-. exists (McPool addr). split; [by left | done].
    + apply orSkip_inv in E. unfold startMemcached in E. unfold bind at 1 in E.
      destruct (startContainer _ _ _ _ _) as [[[[c a]|e] w2] s2]; [|done].
      unfold bind, memcachedBenchStore, opensPools in E. injection E as _ _ <-. exists (McPool a). split; [by left | done].
  - unfold buildPostgres in E. unfold bind at 1 in E. destruct (host _ w s) as [[dsn w1] s1]. apply orSkip_inv in E. case_decide.
    + apply attached_inv in E as (store & E). apply newSQLRenderStore_pool in E. eexists. split; [exact E|]. by left.
    + unfold startPostgres in E. unfold bind at 1 in E. destruct (startContainer _ _ _ _ _) as [[[[c a]|e] w2] s2]; [|done].
      apply (contained_inv c _ (fun store => (newTarget store, terminate c Background))) in E as (store & E).
      apply newSQLRenderStore_pool in E. eexists. split; [exact E|]. by left.
  - unfold buildMySQL in E. unfold bind at 1 in E. destruct (host _ w s) as [[dsn w1] s1]. apply orSkip_inv in E. case_decide.
    + apply attached_inv in E as (store & E). apply newSQLRenderStore_pool in E. eexists. split; [exact E|]. by right; left.
    + unfold startMySQL in E. unfold bind at 1 in E. destruct (startContainer _ _ _ _ _) as [[[[c a]|e] w2] s2]; [|done].
      apply (contained_inv c _ (fun store => (newTarget store, terminate c Background))) in E as (store & E).
      apply newSQLRenderStore_pool in E. eexists. split; [exact E|]. by right; left.
  - unfold buildSQLite in E. unfold bind at 1 in E. destruct (host _ w s) as [[tmp w1] s1]. apply orSkip_inv in E.
    apply attached_inv in E as (store & E). apply newSQLRenderStore_pool in E. eexists. split; [exact E|]. by right; right; left.
Qed.

(** A constructor gives a store or an error, so that the last case of [construct] does not
    arise. *)
Lemma sql_New_store cfg w : (rv (sql_New sql_Open cfg w tt)).1 <> None \/ (rv (sql_New sql_Open cfg w tt)).2 <> None.
Proof. unfold sql_New, ret. repeat (case_match; simpl; try (by right); try (by left)). Qed.

Lemma dyn_New_store ctx cfg w :
  let r := rv (dyn_New LoadDefaultConfig withEndpoint NewFromConfig ctx cfg w tt) in r.1 <> None \/ r.2 <> None.
Proof. unfold dyn_New, ret. repeat (case_match; simpl; try (by right); try (by left)). Qed.

(** ** Waiting for NATS *)

(** The clock does not run backwards. *)
Definition steady (w : World) : Prop := forall i j, (i <= j)%nat -> w_clock w i <= w_clock w j.

Hypothesis Connect_steady : forall h url w x r w' x', bh_Connect h url w x = (r, w', x') -> steady w -> steady w' /\ now w <= now w'.

Lemma steady_sleep w d : steady w -> steady (sleepWorld d w).
Proof. intros Hw i j Hij. simpl. specialize (Hw i j Hij). lia. Qed.

Lemma acquire_steady h w s r w' s' : acquire (fun x => bh_Connect x h) w s = (r, w', s') -> steady w -> steady w' /\ now w <= now w'.
Proof.
  unfold acquire, host, zoom, bind, fresh. simpl. destruct (bh_Connect _ _ _ _) as [[err w1] x1] eqn:E.
  intros E1 Hw. apply Connect_steady in E; [|done]. destruct err; simpl in E1; by injection E1 as _ <- _.
Qed.

Lemma connectLoop_returns fuel url deadline lastErr w s :
  steady w -> deadline <= now w + Z.of_nat fuel * connectInterval ->
  exists r, rv (connectLoop (Datatypes.S fuel) url deadline lastErr w s) = Some r.
Proof.
  revert lastErr w s. induction fuel as [|fuel IH]; intros lastErr w s Hw Hd; cbn [connectLoop]; unfold bind at 1; simpl.
  { destruct (Z.ltb_spec (now w) deadline); [lia | by eexists]. }
  destruct (Z.ltb_spec (now w) deadline); [|by eexists].
  unfold bind at 1. destruct (acquire _ _ _) as [[[nc|err] w1] s1] eqn:E; [by eexists|].
  apply acquire_steady in E as [Hs1 Hn1]; [|exact Hw].
  destruct (IH (Some err) (sleepWorld (now w1 + connectInterval) w1) s1) as [r Hr]; [by apply steady_sleep| |by exists r].
  assert (now w <= now (tickWorld w)) by (apply Hw; simpl; lia). unfold now at 1. simpl. fold (now w1). lia.
Qed.

(** [connectNATSWithRetry] comes to an end: its loop returns before the fuel runs out. *)
Lemma connectNATSWithRetry_returns url timeout w s :
  steady w -> 0 <= timeout ->
  exists r, rv (connectLoop (connectFuel timeout) url (now w + timeout) None (tickWorld w) s) = Some r.
Proof.
  intros Hw Ht. unfold connectFuel. assert (0 <= timeout / connectInterval) by (apply Z.div_pos; [lia | done]).
  replace (timeout / connectInterval + 2) with (Z.succ (timeout / connectInterval + 1)) by lia. rewrite Z2Nat.inj_succ by lia.
  apply connectLoop_returns; [done|]. rewrite Z2Nat.id by lia.
  assert (now w <= now (tickWorld w)) by (apply Hw; simpl; lia).
  pose proof (Z.mod_pos_bound timeout connectInterval ltac:(done)). pose proof (Z.div_mod timeout connectInterval ltac:(done)). lia.
Qed.
End Backends.
