(* ===== verification/BenchRuns.v ===== *)
(** * The benchmark runs

    [runBenchmarks] of [docs/bench/render.go] with the operations it times, as a client
    of the facade over the backends of [BenchBackends.v].  The number of iterations and
    the figures of [testing.Benchmark] are parameters. *)

From S2P Require Import Prelude GoStd CacheCore Shaping MemoryStore FileStore Backends Cache.
From S2P Require Import RedisStore MemcachedStore NatsStore DynamoStore Rows SqlStore GoText BenchRender BenchBackends.

(** ** The timed operations *)

Record benchProfile := mkBenchProfile { bp_Name : string; bp_Level : Z }.

Definition benchKey : string := "bench:key".
Definition benchValue : bytes := bytes_of_string "v".

Section Operations.
Context {S : Type} `{Store S} `{JSON string} `{JSON benchProfile}.

(** [_ = ...] *)
Definition ignore {A} (m : M (Cache S) A) : M (Cache S) unit := let* _ := m in ret tt.

Definition doSetBytes : M (Cache S) unit := ignore (SetBytes benchKey benchValue Minute).
Definition doSetString : M (Cache S) unit := ignore (SetString benchKey "v" Minute).
Definition doSetTypedString : M (Cache S) unit := ignore (Set_ benchKey "v" Minute).
Definition doSetTypedStruct : M (Cache S) unit := ignore (Set_ benchKey (mkBenchProfile "Ada" 7) Minute).
Definition setupGetBytes : M (Cache S) unit := ignore (SetBytes benchKey benchValue Minute).
Definition setupGetString : M (Cache S) unit := ignore (SetString benchKey "v" Minute).
Definition setupGetTypedString : M (Cache S) unit := ignore (Set_ benchKey "v" Minute).
Definition setupGetTypedStruct : M (Cache S) unit := ignore (Set_ benchKey (mkBenchProfile "Ada" 7) Minute).
Definition setupDelete : M (Cache S) unit := ignore (SetBytes benchKey benchValue Minute).
Definition doGetBytes : M (Cache S) unit := ignore (GetBytes benchKey).
Definition doGetString : M (Cache S) unit := ignore (GetString benchKey).
Definition doGetTypedString : M (Cache S) unit := ignore (Get (T := string) benchKey).
Definition doGetTypedStruct : M (Cache S) unit := ignore (Get (T := benchProfile) benchKey).
Definition doDelete : M (Cache S) unit := ignore (Delete benchKey).

(** The map [ops]: setup, if any, and the timed operation. *)
Record benchCase := mkBenchCase { bc_name : string; bc_setup : option (M (Cache S) unit); bc_run : M (Cache S) unit }.
Definition benchCases : list benchCase := [
  mkBenchCase "set_bytes" None doSetBytes;
  mkBenchCase "set_string" None doSetString;
  mkBenchCase "set_typed_string" None doSetTypedString;
  mkBenchCase "set_typed_struct" None doSetTypedStruct;
  mkBenchCase "get_bytes" (Some setupGetBytes) doGetBytes;
  mkBenchCase "get_string" (Some setupGetString) doGetString;
  mkBenchCase "get_typed_string" (Some setupGetTypedString) doGetTypedString;
  mkBenchCase "get_typed_struct" (Some setupGetTypedStruct) doGetTypedStruct;
  mkBenchCase "delete" (Some setupDelete) doDelete].
End Operations.
Arguments benchCase : clear implicits.

(** ** The runs *)

(** [testing.Benchmark]: the values of [b.N] for which it runs the body, and the figures
    it reports (nanoseconds, bytes and allocations of an operation, and [N]). *)
Class Benchmarker := {
  bm_rounds : World -> list nat;
  bm_report : World -> World -> float * float * float * Z
}.

#[local] Existing Instance bt_Store.

Section Runs.
Context `{Benchmarker} `{JSON string} `{JSON benchProfile}.

Section Driver.
Context {S : Type} `{Store S}.

(** [for i := 0; i < b.N; i++] *)
Fixpoint times (n : nat) (fn : M (Cache S) unit) : M (Cache S) unit :=
  match n with
  | O => ret tt
  | Datatypes.S k => fn ;; times k fn
  end.

Definition benchOp (fn : M (Cache S) unit) : M (Cache S) (float * float * float * Z) := fun w c =>
  let '(_, w', c') := forEach (fun n => times n fn) (bm_rounds w) w c in
  (bm_report w w', w', c').

(** The loop over [ops], in the order of the [range]. *)
Fixpoint benchDriver (driver : string) (cases : list (benchCase S)) : M (Cache S) (list benchRow) :=
  match cases with
  | [] => ret []
  | op :: rest =>
      let* _ := match bc_setup op with Some setup => setup | None => ret tt end in
      let* r := benchOp (bc_run op) in
      let '(ns, bytes, allocs, opCount) := r in
      let* rows := benchDriver driver rest in
      ret (mkBenchRow driver (bc_name op) ns bytes allocs opCount :: rows)
  end.
End Driver.

Definition benchTargetRun (t : benchTarget) (driver : string) (order : forall S, Store S -> list (benchCase S)) (w : World)
    : list benchRow * World :=
  let '(rows, w', _) := benchDriver driver (order (bt_S t) (bt_Store t)) w (bt_cache t) in (rows, w').

(** [results[row.Op] = append(results[row.Op], row)] *)
Definition addResult (results : gmap string (list benchRow)) (row : benchRow) : gmap string (list benchRow) :=
  <[Op row := default [] (results !! Op row) ++ [row]]> results.

Definition benchDrivers : list string := ["memory"; "file"; "redis"; "memcached"; "sql_postgres"; "sql_mysql"; "sql_sqlite"].
Definition natsVariants {D} : list (string * list (benchStoreOption D)) := [("nats", []); ("nats_bucket_ttl", [benchWithNATSBucketTTL true])].

(** The machine and the client libraries, as in [BenchBackends.v], and the order of a
    [range] over the operations. *)
Context {machine K N R TLS D Db AwsConfig G : Type}.
Context `{BenchHost machine K N} `{RedisClient R} `{KeyValue K} `{DynamoAPI D} `{SqlDB Db} `{McNet N} `{GoCache G}.
Context `{FileJSON} `{EnvelopeJSON} `{Gzip} `{Crypto}.
Context (redis_NewClient : redisOptions TLS -> R) (sql_Open : string -> string -> Db + error).
Context (LoadDefaultConfig : Context -> string -> AwsConfig + error) (withEndpoint : string -> AwsConfig -> AwsConfig).
Context (NewFromConfig : AwsConfig -> D).
Context (order : forall S, Store S -> list (benchCase S)).
Variable ctx : Context.
#[local] Abbreviation B := (M (benchState machine)).
#[local] Abbreviation results := (gmap string (list benchRow)).
#[local] Abbreviation start := (buildCache (G := G) redis_NewClient sql_Open LoadDefaultConfig withEndpoint NewFromConfig).

(** The timed operations on the cache, which leave the machine alone. *)
Definition measure (t : benchTarget) (driver : string) : B (list benchRow) := fun w s =>
  let '(rows, w) := benchTargetRun t driver order w in (rows, w, s).

(** With the functions that have been deferred, the last one first. *)
Fixpoint runDrivers (drivers : list string) (rs : results) (defers : list cleanup) : B (results * list cleanup) :=
  match drivers with
  | [] => ret (rs, defers)
  | driver :: rest =>
      let* r := start ctx driver [] in
      match r with
      | None => runDrivers rest rs defers
      | Some (t, cleanup) =>
          let* rows := measure t driver in
          runDrivers rest (fold_left addResult rows rs) (cleanup :: defers)
      end
  end.

(** The pair of NATS variants; no rows when one of them cannot be started. *)
Fixpoint runVariants (natsURL : string) (variants : list (string * list (benchStoreOption D))) (pairRows : list benchRow) (defers : list cleanup)
    : B (option (list benchRow) * list cleanup) :=
  match variants with
  | [] => ret (Some pairRows, defers)
  | (name, opts) :: rest =>
      let* r := newNATSBenchCache ctx natsURL opts in
      match r with
      | inr err => complain "benchrender: skip nats pair:" err ;; ret (None, defers)
      | inl (t, cleanup) =>
          let* rows := measure t name in
          runVariants natsURL rest (pairRows ++ rows) (cleanup :: defers)
      end
  end.

Definition runPair (rs : results) (defers : list cleanup) : B (results * list cleanup) :=
  let* r := natsBenchURL ctx in
  match r with
  | None => ret (rs, defers)
  | Some (natsURL, natsServerCleanup) =>
      let* v := runVariants natsURL natsVariants [] (natsServerCleanup :: defers) in
      let '(pairRows, defers) := v in
      ret (match pairRows with Some rows => fold_left addResult rows rs | None => rs end, defers)
  end.

Definition runBenchmarks : B results :=
  let* r := runDrivers benchDrivers ∅ [] in
  let* r := runPair r.1 r.2 in
  forEach (fun cleanup => cleanup) r.2 ;;
  ret r.1.

(** ** What the charts can show *)

(** The rows of an operation. *)
Definition rowsOf (results : gmap string (list benchRow)) (op : string) : list benchRow := default [] (results !! op).

Lemma rowsOf_addResults rows results op : rowsOf (fold_left addResult rows results) op = rowsOf results op ++ filter (fun r => Op r = op) rows.
Proof.
  revert results. induction rows as [|r rows IH]; intros results; simpl; [by rewrite app_nil_r|]. rewrite IH. unfold rowsOf, addResult.
  rewrite filter_cons. destruct (decide (Op r = op)) as [<-|Hne]; [rewrite lookup_insert_eq; simpl; by rewrite <- (assoc_L (++))|].
  by rewrite lookup_insert_ne.
Qed.

(** One row for each operation, in the order of the loop. *)
Lemma benchDriver_rows {S} `{Store S} driver cases w (c : Cache S) rows w' c' :
  benchDriver driver cases w c = (rows, w', c') -> (fun r => (Driver r, Op r)) <$> rows = (fun o => (driver, bc_name o)) <$> cases.
Proof.
  revert w c rows w' c'. induction cases as [|op cases IH]; intros w c rows w' c'; simpl; [by intros [= <- _ _]|].
  unfold bind. destruct (match bc_setup op with Some setup => setup | None => ret tt end w c) as [[u w1] c1].
  destruct (benchOp (bc_run op) w1 c1) as [[[[[ns bs] al] n] w2] c2]. destruct (benchDriver driver cases w2 c2) as [[rows0 w3] c3] eqn:E.
  intros [= <- _ _]. apply IH in E. rewrite !fmap_cons. by f_equal.
Qed.

Hypothesis (Horder : forall S (St : Store S), bc_name <$> order S St ≡ₚ benchChartOps).

(** So the rows of one operation are one. *)
Lemma benchTargetRun_row t driver w rows w' op :
  benchTargetRun t driver order w = (rows, w') -> op ∈ benchChartOps -> Driver <$> filter (fun r => Op r = op) rows = [driver].
Proof.
  unfold benchTargetRun. destruct (benchDriver driver _ w (bt_cache t)) as [[rows0 w0] c0] eqn:E. intros [= <- _] Hop.
  apply benchDriver_rows in E. specialize (Horder (bt_S t) (bt_Store t)).
  assert (NoDup (Op <$> rows0) /\ op ∈ (Op <$> rows0) /\ Forall (fun r => Driver r = driver) rows0) as (Hnd & Hin & Hdr).
  { assert (Op <$> rows0 = bc_name <$> order (bt_S t) (bt_Store t)) as ->.
    { apply (f_equal (fmap snd)) in E. rewrite <- !list_fmap_compose in E. exact E. }
    rewrite Horder. split; [apply (bool_decide_unpack _); by vm_compute|]. split; [done|].
    apply list.Forall_forall. intros r Hr. apply (list_elem_of_fmap_2 (fun r => (Driver r, Op r))) in Hr. rewrite E in Hr.
    apply list_elem_of_fmap in Hr as (o & [= -> _] & _). done. }
  clear E. induction rows0 as [|r rows0 IH]; [by apply elem_of_nil in Hin|]. apply list.Forall_cons in Hdr as [Hd Hdr].
  cbn [fmap list_fmap] in *. apply list.NoDup_cons in Hnd as [Hn Hnd]. rewrite filter_cons. destruct (decide (Op r = op)) as [<-|Hne].
  - simpl. rewrite Hd. f_equal. assert (filter (fun r0 => Op r0 = Op r) rows0 = []) as ->; [|done].
    apply elem_of_nil_inv. intros r' [E Hr']%list_elem_of_filter. apply Hn. rewrite <- E. by apply list_elem_of_fmap_2.
  - apply elem_of_cons in Hin as [->|Hin]; [done | by apply IH].
Qed.

Lemma measure_row t driver w s rows w' s' op :
  measure t driver w s = (rows, w', s') -> op ∈ benchChartOps -> Driver <$> filter (fun r => Op r = op) rows = [driver].
Proof.
  unfold measure. destruct (benchTargetRun t driver order w) as [rows0 w0] eqn:E. intros [= <- <- <-]. by apply (benchTargetRun_row _ _ _ _ _ _ E).
Qed.

(** What the pools hold stays. *)
Lemma grown_pool (s s' : benchState machine) p : grown s s' -> p ∈ bs_pools s -> p ∈ bs_pools s'.
Proof. intros (_ & (new & ->) & _) Hp. apply elem_of_app. by right. Qed.

Lemma stacks_grown {A} (m : B A) post w s a w' s' : stacks [] m post -> m w s = (a, w', s') -> grown s s'.
Proof. intros Hm E. by destruct (Hm (bs_open s) w s a w' s' eq_refl E) as (_ & ? & _). Qed.

Lemma measure_state t driver w s rows w' s' : measure t driver w s = (rows, w', s') -> s' = s.
Proof. unfold measure. destruct (benchTargetRun t driver order w). by intros [= _ _ <-]. Qed.

Lemma runDrivers_grown drivers rs defers w s r w' s' : runDrivers drivers rs defers w s = (r, w', s') -> grown s s'.
Proof.
  revert rs defers w s. induction drivers as [|d drivers IH]; intros rs defers w s; cbn [runDrivers]; [intros [= _ _ <-]; reflexivity|].
  unfold bind at 1. destruct (start ctx d [] w s) as [[[[t cl]|] w1] s1] eqn:Es;
    (eapply stacks_grown in Es; [|apply buildCache_stacks]).
  - unfold bind at 1. destruct (measure t d w1 s1) as [[rows w2] s2] eqn:E. intros Er%IH. etrans; [exact Es|].
    by rewrite <- (measure_state _ _ _ _ _ _ _ E).
  - intros Er%IH. by etrans.
Qed.

Lemma runDrivers_rows drivers rs defers w s r w' s' :
  runDrivers drivers rs defers w s = (r, w', s') ->
  exists built, built `sublist_of` drivers /\
    (forall op, op ∈ benchChartOps -> Driver <$> rowsOf r.1 op = (Driver <$> rowsOf rs op) ++ built) /\
    (forall d, d ∈ built -> d ∈ pooledDrivers -> exists p, p ∈ bs_pools s' /\ poolOf d p).
Proof.
  revert rs defers w s. induction drivers as [|d drivers IH]; intros rs defers w s; cbn [runDrivers].
  { intros [= <- _ <-]. exists []. split; [done|]. split; [intros op _; by rewrite app_nil_r | by intros d ?%elem_of_nil]. }
  unfold bind at 1. destruct (start ctx d [] w s) as [[[[t cl]|] w1] s1] eqn:Es.
  - unfold bind at 1. destruct (measure t d w1 s1) as [[rows w2] s2] eqn:E. intros Er.
    pose proof (runDrivers_grown _ _ _ _ _ _ _ _ Er) as Hg. apply IH in Er as (built & Hs & Hb & Hpool). exists (d :: built).
    split; [by apply sublist_skip|]. split.
    + intros op Hop. rewrite (Hb op Hop), rowsOf_addResults, fmap_app, (measure_row _ _ _ _ _ _ _ _ E Hop). by rewrite <- (assoc_L (++)).
    + intros d' [->|Hd']%elem_of_cons Hp; [|by apply Hpool]. eapply (buildCache_pool (H := machine)) in Es as (p & Hin & Hof); [|done].
      exists p. split; [|done]. eapply grown_pool; [exact Hg|]. by rewrite (measure_state _ _ _ _ _ _ _ E).
  - intros (built & Hs & Hb & Hpool)%IH. exists built. split; [by apply sublist_cons | done].
Qed.

Lemma runVariants_rows url variants rows0 defers w s rows defers' w' s' op :
  runVariants url variants rows0 defers w s = ((Some rows, defers'), w', s') -> op ∈ benchChartOps ->
  Driver <$> filter (fun r => Op r = op) rows = (Driver <$> filter (fun r => Op r = op) rows0) ++ variants.*1.
Proof.
  intros E Hop. revert rows0 defers w s E. induction variants as [|[name opts] variants IH]; intros rows0 defers w s; cbn [runVariants].
  { intros [= <- _ _ _]. by rewrite app_nil_r. }
  unfold bind at 1. destruct (newNATSBenchCache _ _ _ _ _) as [[[[t cl]|e] w1] s1]; [|done].
  unfold bind at 1. destruct (measure t name w1 s1) as [[rows1 w2] s2] eqn:E.
  intros E2%IH. rewrite E2, list.filter_app, fmap_app, (measure_row _ _ _ _ _ _ _ _ E Hop). by rewrite <- (assoc_L (++)).
Qed.

Lemma runPair_rows rs defers w s r w' s' :
  runPair rs defers w s = (r, w', s') ->
  exists pair, (pair = [] \/ pair = ["nats"; "nats_bucket_ttl"]) /\
    forall op, op ∈ benchChartOps -> Driver <$> rowsOf r.1 op = (Driver <$> rowsOf rs op) ++ pair.
Proof.
  assert (Hnone : forall op, op ∈ benchChartOps -> Driver <$> rowsOf rs op = (Driver <$> rowsOf rs op) ++ []).
  { intros op _. by rewrite app_nil_r. }
  unfold runPair, bind. destruct (natsBenchURL _ _ _) as [[[[url cl]|] w1] s1]; [|intros [= <- _ _]; exists []; auto].
  destruct (runVariants _ _ _ _ _ _) as [[[[rows|] defers'] w2] s2] eqn:E; intros [= <- _ _]; [|exists []; auto].
  exists ["nats"; "nats_bucket_ttl"]. split; [by right|]. intros op Hop. simpl.
  by rewrite rowsOf_addResults, fmap_app, (runVariants_rows _ _ _ _ _ _ _ _ _ _ _ E Hop).
Qed.

(** Every operation has one row for each of the same drivers, so that the charts have no
    gaps: the drivers that could be started, in the order of the list, and the two NATS
    variants together or not at all. *)
Theorem runBenchmarks_rows w s rs w' s' :
  runBenchmarks w s = (rs, w', s') ->
  exists built pair, built `sublist_of` benchDrivers /\ (pair = [] \/ pair = ["nats"; "nats_bucket_ttl"]) /\
    forall op, op ∈ benchChartOps -> Driver <$> rowsOf rs op = built ++ pair.
Proof.
  unfold runBenchmarks, bind. destruct (runDrivers benchDrivers ∅ [] w s) as [[[r1 d1] w1] s1] eqn:E1.
  apply runDrivers_rows in E1 as (built & Hs & Hb & _). destruct (runPair _ _ _ _) as [[[r2 d2] w2] s2] eqn:E2.
  apply runPair_rows in E2 as (pair & Hp & Hr). destruct (forEach _ _ _ _) as [[u w3] s3]. intros [= <- _ _].
  exists built, pair. split; [done|]. split; [done|]. intros op Hop. simpl in *. rewrite (Hr op Hop), (Hb op Hop).
  unfold rowsOf at 1. by rewrite lookup_empty.
Qed.

(** They are drivers the charts know, for which their order is fixed. *)
Corollary runBenchmarks_known w s rs w' s' op :
  runBenchmarks w s = (rs, w', s') -> op ∈ benchChartOps -> Forall (fun d => d ∈ driverOrder) (Driver <$> rowsOf rs op).
Proof.
  intros (built & pair & Hs & Hp & Hr)%runBenchmarks_rows Hop. rewrite (Hr op Hop). apply list.Forall_app. split.
  - apply list.Forall_forall. intros d Hd. apply (elem_of_sublist _ _ _ Hd) in Hs. revert Hs.
    apply (proj1 (list.Forall_forall (fun d => d ∈ driverOrder) benchDrivers)), (bool_decide_unpack _). by vm_compute.
  - destruct Hp as [-> | ->]; apply (bool_decide_unpack _); by vm_compute.
Qed.

(** ** What a run leaves behind *)

(** The deferred functions, run in turn from [hs], release all of it. *)
Fixpoint deferred (defers : list (cleanup (H := machine))) (hs : list handle) : Prop :=
  match defers with
  | [] => hs = []
  | f :: rest => exists mid, stacks hs f (back mid) /\ deferred rest mid
  end.

Lemma measure_stacks hs t driver : stacks hs (measure t driver) (back hs).
Proof. apply stacks_silent. intros w s. unfold measure. by destruct (benchTargetRun t driver order w). Qed.

Lemma runDrivers_stacks drivers rs defers hs :
  deferred defers hs -> stacks hs (runDrivers drivers rs defers) (fun r hs => deferred r.2 hs).
Proof.
  revert rs defers hs. induction drivers as [|d drivers IH]; intros rs defers hs Hd; cbn [runDrivers]; [by apply stacks_ret|].
  eapply stacks_bind; [apply buildCache_stacks|]. intros [[t cl]|] hs1 Hp; simpl in Hp; [|subst; by apply IH].
  eapply stacks_bind; [apply measure_stacks|]. intros rows ? ->. apply IH. by exists hs.
Qed.

Lemma runVariants_stacks url variants rows defers hs :
  deferred defers hs -> stacks hs (runVariants url variants rows defers) (fun r hs => deferred r.2 hs).
Proof.
  revert rows defers hs. induction variants as [|[name opts] variants IH]; intros rows defers hs Hd; cbn [runVariants]; [by apply stacks_ret|].
  eapply stacks_bind; [apply newNATSBenchCache_stacks|]. intros [[t cl]|e] hs1 Hp; simpl in Hp.
  - eapply stacks_bind; [apply measure_stacks|]. intros rows1 ? ->. apply IH. by exists hs.
  - subst. eapply stacks_bind; [apply stacks_silent, complain_silent|]. intros u ? ->. by apply stacks_ret.
Qed.

Lemma runPair_stacks rs defers hs : deferred defers hs -> stacks hs (runPair rs defers) (fun r hs => deferred r.2 hs).
Proof.
  intros Hd. unfold runPair. eapply stacks_bind; [apply natsBenchURL_stacks|].
  intros [[url cl]|] hs1 Hp; simpl in Hp; [|subst; by apply stacks_ret].
  eapply stacks_bind; [apply runVariants_stacks; by exists hs|]. intros [rows defers'] hs2 Hd2. by apply stacks_ret.
Qed.

Lemma defers_stacks defers hs : deferred defers hs -> stacks hs (forEach (fun f => f) defers) (back []).
Proof.
  revert hs. induction defers as [|f defers IH]; intros hs; simpl; [by intros ->; apply stacks_ret|]. intros (mid & Hf & Hd).
  eapply stacks_bind; [done|]. intros u ? ->. by apply IH.
Qed.

Lemma runBenchmarks_stacks : stacks [] runBenchmarks (back []).
Proof.
  unfold runBenchmarks. eapply stacks_bind; [by apply runDrivers_stacks|]. intros r hs Hd.
  eapply stacks_bind; [by apply runPair_stacks|]. intros r2 hs2 Hd2. eapply stacks_bind; [by apply defers_stacks|]. intros u ? ->.
  by apply stacks_ret.
Qed.

(** The pools of the backends that were measured are open at the end. *)
Lemma runBenchmarks_pools w s rs w' s' op d :
  runBenchmarks w s = (rs, w', s') -> op ∈ benchChartOps -> d ∈ (Driver <$> rowsOf rs op) -> d ∈ pooledDrivers ->
  exists p, p ∈ bs_pools s' /\ poolOf d p.
Proof.
  intros E Hop Hd Hp. unfold runBenchmarks in E. unfold bind at 1 in E.
  destruct (runDrivers benchDrivers ∅ [] w s) as [[r1 w1] s1] eqn:E1.
  destruct (runDrivers_stacks benchDrivers ∅ [] [] eq_refl (bs_open s) w s r1 w1 s1 eq_refl E1) as (_ & _ & hs & Ho & Hdef).
  apply runDrivers_rows in E1 as (built & _ & Hb & Hpool).
  match type of E with ?m w1 s1 = _ =>
    assert (stacks hs m (back [])) as Hrest
  end.
  { eapply stacks_bind; [by apply runPair_stacks|]. intros r2 hs2 Hd2. eapply stacks_bind; [by apply defers_stacks|]. intros u ? ->.
    by apply stacks_ret. }
  destruct (Hrest _ _ _ _ _ _ Ho E) as (_ & Hg & _).
  assert (d ∈ built) as Hin.
  { unfold bind at 1 in E. destruct (runPair _ _ _ _) as [[[r2 d2] w2] s2] eqn:E2. apply runPair_rows in E2 as (pair & Hpair & Hr).
    unfold bind in E. destruct (forEach _ _ _ _) as [[u w3] s3]. injection E as <- _ _. simpl in *. rewrite (Hr op Hop), (Hb op Hop) in Hd.
    unfold rowsOf in Hd at 1. rewrite lookup_empty in Hd. apply elem_of_app in Hd as [Hd|Hd]; [exact Hd|]. exfalso.
    destruct Hpair as [-> | ->]; [by apply elem_of_nil in Hd|]. revert Hp.
    by destruct (proj1 (elem_of_cons _ _ _) Hd) as [-> | ->%list_elem_of_singleton]; apply (bool_decide_unpack (_ ∉ _)). }
  destruct (Hpool d Hin Hp) as (p & ? & ?). exists p. split; [by eapply grown_pool | done].
Qed.

End Runs.

(** The operations of the map are those of the charts. *)
Lemma benchCases_order {S} `{Store S} `{JSON string} `{JSON benchProfile} : bc_name <$> benchCases (S := S) ≡ₚ benchChartOps.
Proof.
  change (drop 4 (take 8 benchChartOps) ++ (take 4 benchChartOps ++ drop 8 benchChartOps) ≡ₚ benchChartOps).
  rewrite (assoc_L (++)), (comm (++) (drop 4 _)). done.
Qed.
