(* ===== verification/DocRuns.v ===== *)
(** * Running the documentation tools

    The [run] functions of [docs/readme/main.go] and [docs/examplegen/main.go] and
    [RenderBenchmarks] of [docs/bench/render.go], which compose the parts modelled in
    the files before, and all of them executed on small inputs.  What a tool hands to
    [os.WriteFile] is its result. *)

From S2P Require Import Prelude GoStd InspectHelpers GoText DocSections DocComments DocApi DocCounts DocExamples BenchRender.

(** ** docs/readme/main.go *)

(** [findRoot] of the two generators. *)
Definition findProjectRoot (stat : string -> statResult) (wd : string) : string + error :=
  match findRoot stat wd with
  | inl root => inl root
  | inr _ => inr (ErrorString "could not find project root")
  end.

(** [None] is a panic. *)
Definition readme_run `{GoParser} `{RangeOrder} (stat : string -> statResult) (readFile : string -> string + error) (wd : string)
    : option ((string * string) + error) :=
  match findProjectRoot stat wd with
  | inr e => Some (inr e)
  | inl root =>
      match parseFuncs root with
      | inr e => Some (inr e)
      | inl funcs =>
          let api := renderAPI root funcs in
          let readmePath := joinPath root "README.md" in
          match readFile readmePath with
          | inr e => Some (inr e)
          | inl data =>
              r ← replaceAPISection data api;
              match r with
              | (_, Some e) => Some (inr e)
              | (out, None) => Some (inl (readmePath, out))
              end
          end
      end
  end.

(** ** docs/examplegen/main.go *)

Section Generate.
Context `{GoParser} `{RangeOrder} (formatSource : string -> string + error).
(** The files, what [os.ReadDir] lists of a directory, and the error an operation on a
    path meets. *)
Abbreviation files := (gmap string string).
Context (readDir : files -> string -> list (string * bool) + error) (ioErr : string -> string -> option error).

Definition readIn (fs : files) (path : string) : string + error :=
  match ioErr "read" path, fs !! path with
  | Some e, _ => inr e
  | None, Some content => inl content
  | None, None => inr ErrNotExist
  end.

(** [os.WriteFile] of several files, until one fails. *)
Fixpoint writeAll (fs : files) (writes : list (string * string)) : files * option error :=
  match writes with
  | [] => (fs, None)
  | (path, content) :: rest =>
      match ioErr "write" path with
      | Some e => (fs, Some e)
      | None => writeAll (<[path := content]> fs) rest
      end
  end.

(** The loop over the documented declarations. *)
Fixpoint writeMains (fs : files) (base : string) (docs : list genDoc) : files * option error :=
  match docs with
  | [] => (fs, None)
  | fd :: rest =>
      match writeMain formatSource (ioErr "mkdir") (readIn fs) base fd (gd_ImportPath fd) with
      | inr e => (fs, Some e)
      | inl None => writeMains fs base rest
      | inl (Some w) =>
          match writeAll fs [w] with
          | (fs, Some e) => (fs, Some e)
          | (fs, None) => writeMains fs base rest
          end
      end
  end.

Definition examplegen_run (stat : string -> statResult) (fs : files) (wd : string) : files * option error :=
  match findProjectRoot stat wd with
  | inr e => (fs, Some e)
  | inl root =>
      let examplesDir := joinPath root "examples" in
      match ioErr "mkdir" examplesDir with
      | Some e => (fs, Some e)
      | None =>
          match collectAll (readIn fs) root with
          | inr e => (fs, Some e)
          | inl funcs =>
              match writeMains fs examplesDir (snd <$> range_of "funcs" funcs) with
              | (fs, Some e) => (fs, Some e)
              | (fs, None) =>
                  match readDir fs examplesDir with
                  | inr e => (fs, Some e)
                  | inl entries =>
                      let '(writes, err) := ensureMainComments formatSource (readIn fs) examplesDir entries in
                      match writeAll fs writes with
                      | (fs, Some e) => (fs, Some e)
                      | (fs, None) => (fs, err)
                      end
                  end
              end
          end
      end
  end.
End Generate.

(** ** docs/bench/render.go *)

(** The rows of each operation. *)
Abbreviation benchResults := (gmap string (list benchRow)).

Section Render.
(** [os.Stat], [os.ReadFile], [math.Log10] and [math.Pow(10, v)], [json.MarshalIndent] and
    [json.Unmarshal] of the rows. *)
Context (stat : string -> statResult) (log10 pow10 : float -> float).
Context (marshalRows : benchResults -> string + error) (unmarshalRows : string -> benchResults + error).

(** The loop of [findRoot]; [None] is its panic. *)
Fixpoint benchFindRoot (fuel : nat) (cwd : string) : option string :=
  match fuel with
  | O => None
  | Datatypes.S f =>
      if fileExists stat (joinPath cwd "go.mod") && fileExists stat (joinPath cwd "factory.go") && fileExists stat (joinPath cwd "README.md")
      then Some cwd
      else if fileExists stat (joinPath cwd "factory.go") && fileExists stat (joinPath cwd "README.md") then Some cwd
      else
        let next := Dir cwd in
        if decide (next = cwd) then None else benchFindRoot f next
  end.

Definition rowsPathOf (root : string) : string := joinPath root "docs/bench/benchmarks_rows.json".

Definition saveBenchmarkRows (path : string) (rows : benchResults) : (string * string) + error :=
  match marshalRows rows with
  | inr e => inr e
  | inl body => inl (path, body)
  end.

Definition loadBenchmarkRows (readFile : string -> string + error) (path : string) : benchResults + error :=
  match readFile path with
  | inr e => inr e
  | inl body => unmarshalRows body
  end.

(** [RenderBenchmarks], up to errors of [os.WriteFile]: the files it writes, in order.
    [driverKeys] is the order of the [range] over the drivers of the rows, [measured]
    what [runBenchmarks] returns.  [None] is a panic, which its errors are. *)
Definition RenderBenchmarks (driverKeys : benchResults -> list string) (readFile : string -> string + error) (renderOnly : bool)
    (measured : benchResults) (cwd : string) : option (list (string * string)) :=
  root ← benchFindRoot (workFuel cwd) cwd;
  let rowsPath := rowsPathOf root in
  '(rows, saved) ←
    (if renderOnly
     then match loadBenchmarkRows readFile rowsPath with inl rows => Some (rows, []) | inr _ => None end
     else match saveBenchmarkRows rowsPath measured with inl w => Some (measured, [w]) | inr _ => None end);
  let charts := writeDashboard log10 pow10 root rows (driverKeys rows) in
  let readmePath := joinPath root "README.md" in
  match readFile readmePath with
  | inr _ => None
  | inl data =>
      out ← injectTable data (renderTable rows);
      Some (saved ++ charts ++ [(readmePath, out)])
  end.
End Render.

(** The fuel is enough: more gives the same. *)
Lemma benchFindRoot_enough stat fuel cwd :
  (2 + String.length cwd <= fuel)%nat -> benchFindRoot stat (Datatypes.S fuel) cwd = benchFindRoot stat fuel cwd.
Proof.
  revert cwd. induction fuel as [|f IH]; intros cwd Hf; [lia|]. cbn [benchFindRoot]. cbv zeta.
  destruct (_ && _ && _); [done|]. destruct (_ && _); [done|]. destruct (decide (Dir cwd = cwd)); [done|].
  destruct (Dir_shorter cwd) as [E|Hlt]; [|rewrite <- (IH (Dir cwd)) by lia; done]. rewrite E. destruct f as [|f]; [lia|].
  cbn [benchFindRoot]. cbv zeta. by rewrite !(decide_True (P := Dir "/" = "/")).
Qed.

(** Reading after these writes. *)
Definition after (writes : list (string * string)) (readFile : string -> string + error) (path : string) : string + error :=
  fold_left (fun r '(p, content) => if decide (p = path) then inl content else r) writes (readFile path).

Lemma after_app ws ws' readFile path : after (ws ++ ws') readFile path = after ws' (after ws readFile) path.
Proof. apply fold_left_app. Qed.
Lemma after_here p c readFile : after [(p, c)] readFile p = inl c.
Proof. unfold after. simpl. by rewrite decide_True. Qed.
Lemma after_elsewhere ws readFile path : path ∉ ws.*1 -> after ws readFile path = readFile path.
Proof.
  unfold after. revert readFile. induction ws as [|[p c] ws IH]; intros readFile; [done|]. intros [Hp Hw]%not_elem_of_cons. simpl in *.
  rewrite decide_False by congruence. by apply (IH readFile).
Qed.

(** ** A tool run again *)

(** The root [readme_run] works in, and the reference it writes. *)
Definition reference `{GoParser} `{RangeOrder} (stat : string -> statResult) (wd root api : string) : Prop :=
  findProjectRoot stat wd = inl root /\ exists funcs, parseFuncs root = inl funcs /\ api = renderAPI root funcs.

(** C38: the reference generator does not panic.  When it writes README.md the new text
    is the old one with the reference between the markers and nothing else changed; and
    running it again on its own output, over the same sources but with other orders of the
    maps, writes the same text.  Two conditions: the reference does not contain the closing marker
    (none of the doc comments does), and keys are distinct within each package and between
    the root package and cachefake. *)
Theorem readme_run_stable `{GoParser} (O O' : RangeOrder) stat readFile wd :
  (forall root, findProjectRoot stat wd = inl root -> unambiguous root) ->
  (forall root api, @reference _ O stat wd root api -> Contains api apiEnd = false) ->
  match @readme_run _ O stat readFile wd with
  | None => False
  | Some (inr _) => True
  | Some (inl (path, out)) =>
      (exists root api data pre mid post, @reference _ O stat wd root api /\ path = joinPath root "README.md" /\
        readFile path = inl data /\ embedded data apiStart apiEnd pre mid post /\
        out = pre +:+ apiStart +:+ (nl +:+ nl +:+ api +:+ nl) +:+ apiEnd +:+ post) /\
      @readme_run _ O' stat (after [(path, out)] readFile) wd = Some (inl (path, out))
  end.
Proof.
  intros Hun Href. unfold readme_run. unfold reference in *. destruct (findProjectRoot stat wd) as [root|]; [|done].
  specialize (Hun root eq_refl). pose proof (parseFuncs_order O O' root Hun) as Hsame.
  destruct (@parseFuncs _ O root) as [funcs|] eqn:Ef; [|done].
  destruct (@parseFuncs _ O' root) as [funcs'|] eqn:Ef'; simpl in Hsame; [|done].
  destruct (parseFuncs_ok root funcs Hun Ef) as [Hnd Hok].
  rewrite <- (renderAPI_order O O' root funcs funcs' Hun Hsame Hnd Hok). set (api := renderAPI root funcs).
  assert (Contains api apiEnd = false) as Hapi by (apply (Href root); eauto).
  destruct (readFile (joinPath root "README.md")) as [data|] eqn:Er; [|done].
  destruct (replaceAPISection_rewrites api data) as [[_ [e ->]]|(pre & mid & post & He & E)]; [done|].
  rewrite E. simpl. split.
  - exists root, api, data, pre, mid, post. split; [split; [done | by exists funcs]|]. done.
  - rewrite after_here. rewrite (replaceAPISection_again data api _ api Hapi E), E. done.
Qed.

Lemma joinPath_inj root a b : joinPath root a = joinPath root b -> a = b.
Proof.
  unfold joinPath. intros E%(f_equal bytes_of_string). apply (inj bytes_of_string).
  destruct (decide (root = "/")); rewrite !bytes_of_string_app in E; by repeat apply (inj (app _)) in E.
Qed.

Lemma orderDrivers_perm ds ds' :
  ds ≡ₚ ds' -> Forall (fun d => d ∈ driverOrder) ds -> orderDrivers ds = orderDrivers ds'.
Proof.
  intros Hp Hk. destruct (orderDrivers_stable ds) as (_ & _ & ->); [|done].
  destruct (orderDrivers_stable ds') as (_ & _ & ->); [|by rewrite <- Hp]. apply list_filter_iff. intros d. by rewrite Hp.
Qed.

(** The charts are written below docs/bench, and none over the rows. *)
Lemma charts_paths log10 pow10 root rows keys name :
  name ∉ ["docs/bench/benchmarks_ns.svg"; "docs/bench/benchmarks_ops.svg"; "docs/bench/benchmarks_bytes.svg"; "docs/bench/benchmarks_allocs.svg"] ->
  joinPath root name ∉ (writeDashboard log10 pow10 root rows keys).*1.
Proof.
  intros Hn. unfold writeDashboard. destruct (orderDrivers keys); [set_solver|]. intros Hin. apply Hn. cbn [fmap list_fmap fst] in Hin.
  repeat (apply elem_of_cons in Hin as [E%joinPath_inj|Hin]; [subst name; set_solver|]). set_solver.
Qed.

(** A section that is there is found again where it was. *)
Lemma injectTable_again {Rows Rows' : Type} (rows : Rows) (rows' : Rows') data out :
  malformed (Index data benchStart) (Index data benchEnd) = false ->
  injectTable data (renderTable rows) = Some out -> injectTable out (renderTable rows') = injectTable data (renderTable rows').
Proof.
  intros Hsec. destruct (renderTable_table rows) as (text & -> & Ht). destruct (renderTable_table rows') as (text' & -> & _).
  destruct (Index_cases data benchStart benchEnd bench_markers) as [E|[_ (pre & mid & post & He)]]; [unfold malformed in Hsec; congruence|].
  destruct (injectTable_stable data text text' Ht) as [Hin _]. destruct (Hin _ _ _ He) as (out' & -> & _ & E). congruence.
Qed.

(** A render-only run after a full one, in the same tree, writes the same charts and the
    same README.md, in whatever order the drivers come out of the map: the snapshot has
    all the rows, and the section is replaced, not repeated. *)
Theorem RenderBenchmarks_snapshot stat log10 pow10 marshalRows unmarshalRows keys keys' readFile measured measured' cwd writes :
  (forall rows body, marshalRows rows = inl body -> unmarshalRows body = inl rows) ->
  (forall rows, keys rows ≡ₚ keys' rows) -> Forall (fun d => d ∈ driverOrder) (keys measured) ->
  (forall root data, benchFindRoot stat (workFuel cwd) cwd = Some root -> readFile (joinPath root "README.md") = inl data ->
    malformed (Index data benchStart) (Index data benchEnd) = false) ->
  RenderBenchmarks stat log10 pow10 marshalRows unmarshalRows keys readFile false measured cwd = Some writes ->
  exists snapshot files, writes = snapshot :: files /\
    RenderBenchmarks stat log10 pow10 marshalRows unmarshalRows keys' (after writes readFile) true measured' cwd = Some files.
Proof.
  intros Hjson Hkeys Hknown Hsec. unfold RenderBenchmarks. destruct (benchFindRoot stat (workFuel cwd) cwd) as [root|]; [|done]. simpl.
  specialize (Hsec root). unfold saveBenchmarkRows, loadBenchmarkRows. destruct (marshalRows measured) as [body|] eqn:Em; [|done]. simpl.
  destruct (readFile (joinPath root "README.md")) as [data|] eqn:Er; [|done]. specialize (Hsec data eq_refl eq_refl).
  destruct (injectTable data (renderTable measured)) as [out|] eqn:Ei; [|done]. intros [= <-].
  set (charts := writeDashboard log10 pow10 root measured (keys measured)).
  assert (charts = writeDashboard log10 pow10 root measured (keys' measured)) as Echarts
    by (unfold charts, writeDashboard; by rewrite (orderDrivers_perm _ _ (Hkeys measured) Hknown)).
  eexists _, _. split; [done|]. rewrite (app_comm_cons _ [_]), !(after_app (_ :: _)), after_here.
  rewrite (after_elsewhere [_]) by (cbn [fmap list_fmap fst]; intros [E%joinPath_inj|?%elem_of_nil]%elem_of_cons; done).
  change ((rowsPathOf root, body) :: charts) with ([(rowsPathOf root, body)] ++ charts).
  rewrite (after_app [_]), (after_elsewhere charts), after_here by (apply charts_paths, (bool_decide_unpack _); by vm_compute).
  rewrite (Hjson _ _ Em). simpl. change (renderTable measured) with (renderTable tt) in *.
  by rewrite (injectTable_again tt tt _ _ Hsec Ei), Ei, Echarts.
Qed.

(** ** The tools on a small package *)

Module DocRun.

Definition comment (lines : list string) : option CommentGroup := Some (imap (fun i l => mkComment ("//" +:+ l) (Z.of_nat i)) lines).

Definition getDecl : FuncDecl :=
  mkFuncDecl "Get" (Some [StarExpr (Ident "Cache")])
    (comment [" Get reads a key."; " @group Reads"; EmptyString; " Example: read"; tab +:+ "c.Get(1)"]).
Definition putDecl : FuncDecl := mkFuncDecl "Put" None (comment [" Put writes a key."; " @group Writes"]).
(** An exported method of a private type. *)
Definition closeDecl : FuncDecl :=
  mkFuncDecl "Close" (Some [Ident "conn"]) (comment [" Close ends it."; " Example: close"; " c.Close()"]).
Definition helperDecl : FuncDecl := mkFuncDecl "helper" None (comment [" helper helps."]).

Definition file : File := mkFile [] (DeclFunc <$> [getDecl; putDecl; closeDecl; helperDecl]).

#[export] Instance parser : GoParser := {
  ParseDir dir _ := inl (if decide (dir = "/repo") then {["cache" := {["cache.go" := file]}]} else {["other" := ∅]});
  IsExported s := match bytes_of_string s with c :: _ => Byte.to_nat c <? 91 | [] => false end%nat
}.

(** Two orders of the maps. *)
#[export] Instance forward : RangeOrder := {| range_of := fun _ _ m => map_to_list m; range_perm := fun _ _ _ => Permutation_refl _ |}.
Definition backward : RangeOrder :=
  {| range_of := fun _ _ m => rev (map_to_list m); range_perm := fun _ _ _ => Permutation_sym (Permutation_rev _) |}.

Definition everything (_ : string) : statResult := StatOk.
Definition readme (_ : string) : string + error :=
  inl ("# cache" +:+ nl +:+ apiStart +:+ "old" +:+ apiEnd +:+ nl +:+ "Licence" +:+ nl).

(** The file system of a run of the example generator, with no errors, and a program of
    an earlier version in it. *)
Definition tree : gmap string string :=
  list_to_map (("/repo/go.mod", "module goforj/cache" +:+ nl) ::
    ("/repo/examples/old/main.go", "package main" +:+ nl +:+ legacyGeneratedMainComment +:+ nl +:+ "func main() {" +:+ nl +:+ "}" +:+ nl) ::
    ((fun d => ("/repo/" +:+ d +:+ "/go.mod", "module goforj/" +:+ d +:+ nl)) <$> driverDirs)).
Definition list_examples (_ : gmap string string) (_ : string) : list (string * bool) + error :=
  inl [("cache_get", true); ("old", true); ("README.md", false)].
Definition no_error (_ _ : string) : option error := None.
Definition generated := examplegen_run inl list_examples no_error everything tree "/repo".
End DocRun.

#[local] Existing Instances DocRun.parser DocRun.forward.

Lemma repo_selected : selectedPackage "/repo" = Some {["cache.go" := DocRun.file]}.
Proof. vm_compute. reflexivity. Qed.

Lemma repo_declared :
  let fds := packageDocs (map_to_list {["cache.go" := DocRun.file]}) in
  NoDup (Key <$> fds) /\ Forall (fun fd => x2e ∉ bytes_of_string (Name fd)) fds.
Proof.
  intros fds.
  assert (bool_decide (NoDup (Key <$> fds)) && bool_decide (Forall (fun fd => x2e ∉ bytes_of_string (Name fd)) fds) = true) as Hb
    by (vm_compute; reflexivity).
  by apply andb_true_iff in Hb as [?%bool_decide_eq_true ?%bool_decide_eq_true].
Qed.

Lemma other_selected dir : dir <> "/repo" -> selectedPackage dir = Some ∅.
Proof. intros Hd. unfold selectedPackage. cbn [ParseDir DocRun.parser]. rewrite decide_False by done. vm_compute. reflexivity. Qed.

Lemma other_declared dir : dir <> "/repo" -> well_declared dir.
Proof.
  intros Hd. unfold well_declared. rewrite (other_selected dir Hd), map_to_list_empty. cbv zeta.
  split; [apply NoDup_nil_2 | by apply list.Forall_nil].
Qed.

Lemma repo_unambiguous : unambiguous "/repo".
Proof.
  unfold unambiguous. rewrite repo_selected. split; [|split; [|split]].
  - unfold well_declared. rewrite repo_selected. exact repo_declared.
  - by apply other_declared.
  - apply list.Forall_forall. intros src Hsrc. apply other_declared. unfold joinPath. rewrite decide_False by done. discriminate.
  - rewrite other_selected by done. rewrite map_to_list_empty. apply list.Forall_forall. by intros fd _ ?%elem_of_nil.
Qed.

Lemma readme_run_stable_witness :
  exists out, readme_run DocRun.everything DocRun.readme "/repo" = Some (inl ("/repo/README.md", out)) /\
    @readme_run _ DocRun.backward DocRun.everything (after [("/repo/README.md", out)] DocRun.readme) "/repo" = Some (inl ("/repo/README.md", out)).
Proof.
  assert (findProjectRoot DocRun.everything "/repo" = inl "/repo") as Eroot by (vm_compute; reflexivity).
  assert (match parseFuncs "/repo" with inl funcs => Contains (renderAPI "/repo" funcs) apiEnd | inr _ => true end = false) as Eapi
    by (vm_compute; reflexivity).
  assert (exists out, readme_run DocRun.everything DocRun.readme "/repo" = Some (inl ("/repo/README.md", out))) as [out Eout]
    by (eexists; vm_compute; reflexivity).
  assert (Hun : forall root, findProjectRoot DocRun.everything "/repo" = inl root -> unambiguous root).
  { intros root Hr. rewrite Eroot in Hr. injection Hr as <-. exact repo_unambiguous. }
  assert (Hapi : forall root api, reference DocRun.everything "/repo" root api -> Contains api apiEnd = false).
  { intros root api [Hr (funcs & Hf & ->)]. rewrite Eroot in Hr. injection Hr as <-. by rewrite Hf in Eapi. }
  pose proof (readme_run_stable DocRun.forward DocRun.backward DocRun.everything DocRun.readme "/repo" Hun Hapi) as Hrun. rewrite Eout in Hrun.
  exists out. split; [done | apply Hrun].
Defined.


Lemma renderAPI_deterministic_witness :
  exists funcs funcs', @parseFuncs _ DocRun.forward "/repo" = inl funcs /\ @parseFuncs _ DocRun.backward "/repo" = inl funcs' /\
    funcs <> funcs' /\ @renderAPI _ DocRun.forward "/repo" funcs = @renderAPI _ DocRun.backward "/repo" funcs'.
Proof.
  pose proof (renderAPI_deterministic DocRun.forward DocRun.backward "/repo" repo_unambiguous) as Hsame.
  assert (Hne : match @parseFuncs _ DocRun.forward "/repo", @parseFuncs _ DocRun.backward "/repo" with
                | inl fs, inl fs' => negb (bool_decide (Key <$> fs = Key <$> fs')) | _, _ => false end = true) by (vm_compute; reflexivity).
  destruct (@parseFuncs _ DocRun.forward "/repo") as [funcs|]; [|discriminate Hne].
  destruct (@parseFuncs _ DocRun.backward "/repo") as [funcs'|]; [|discriminate Hne].
  exists funcs, funcs'. split; [done|]. split; [done|]. split; [|exact Hsame]. intros ->. by rewrite bool_decide_true in Hne.
Defined.

(** The example generator takes an exported method of a private type, which the
    reference leaves out and no program outside the package can name. *)
Example extractFuncDocs_private_receiver :
  (gd_Examples <$> extractFuncDocs "cache.go" DocRun.file !! "conn_Close") =
    Some [mkGenExample "Close" "cache.go" "close" 1 "c.Close()"] /\
  sortStrings (Key <$> match parseFuncsInDir "root" "/repo" with inl funcs => funcs | inr _ => [] end) = ["Cache.Get"; "Put"].
Proof. split; by vm_compute. Qed.

(** An example that needs a database driver, and no import but that of its package, is
    written without the blank import that registers the driver. *)
Example mainSource_drops_blank_import :
  let code := "sqlcore.New(sqlcore.Config{" +:+ driverName "sqlite" +:+ "})" in
  let fd := mkGenDoc "New" "sqlcore_new" "goforj/sqlcore" "Other" EmptyString [mkGenExample "New" "store.go" EmptyString 1 code] in
  blankImportOf code = Some "modernc.org/sqlite" /\ Contains (mainSource false fd "goforj/sqlcore") "modernc.org/sqlite" = false.
Proof. split; by vm_compute. Qed.

(** A run of the example generator: the program for [Cache.Get] is there, and the old
    one has the current comment. *)
Example examplegen_run_writes :
  snd DocRun.generated = None /\
  fst DocRun.generated !! "/repo/examples/cache_get/main.go" =
    Some ("package main" +:+ nl +:+ nl +:+ "import " +:+ quote +:+ "goforj/cache" +:+ quote +:+ nl +:+ nl +:+
          generatedMainComment +:+ nl +:+ "func main() {" +:+ nl +:+
          tab +:+ "// Get reads a key." +:+ nl +:+ nl +:+
          tab +:+ "// Example: read" +:+ nl +:+ tab +:+ "c.Get(1)" +:+ nl +:+ "}" +:+ nl) /\
  fst DocRun.generated !! "/repo/examples/old/main.go" =
    Some ("package main" +:+ nl +:+ generatedMainComment +:+ nl +:+ "func main() {" +:+ nl +:+ "}" +:+ nl).
Proof. split; [|split]; by vm_compute. Qed.

(** A line of 64 KiB ends the scan of the test events; the error is not looked at, so
    that no event after it is counted, whatever the rest of the output is. *)
Theorem parseJSONEvents_stops unmarshal line rest :
  x0a ∉ line -> maxScanTokenSize <= len line -> parseJSONEvents unmarshal (line ++ [x0a] ++ rest) = [].
Proof.
  intros Hn Hl. unfold parseJSONEvents. cbn [app]. rewrite bLines_line by done. cbn [app].
  destruct (bLines [] rest) as [|l ls] eqn:E; [by apply bLines_nonempty in E|]. cbn [scanned].
  by rewrite (proj2 (Z.geb_le _ _) Hl).
Qed.
